(* ===== verification/_CoqProject ===== *)
-Q . S2P
Prelude.v
Redb.v
RustStd.v
Config.v
Util.v
Host.v
Dotenv.v
Protocol.v
QueueStore.v
QueueFacts.v
QueueRuns.v
QueueRemovals.v
QueueSpec.v
QueueProps.v
FileStore.v
FileFacts.v
FileWrites.v
FileRemovals.v
FileProps.v
Mailbox.v
MetaStore.v
Signal.v
Persistence.v
PersistenceFacts.v
State.v
Atomics.v
AtomicsProps.v
StateFacts.v
StateOps.v
StateProps.v
Ws.v
WsFacts.v
WsRuns.v
WsFrames.v
WsDemo.v
PersistenceProps.v
Main.v
MainFacts.v
MainRuns.v
MainProps.v
UpdateCheck.v
Tor.v
OutboundProps.v
WsProps.v
WsHello.v
WsStores.v
WsConn.v
Relay.v
RelayFacts.v
RelayFrames.v
RelayProps.v
Steps.v
StepsAlone.v
Threads.v
StepsOrder.v
StepsShape.v
StepsDuties.v
StepsStores.v
StepsSettle.v
ThreadsFacts.v
ThreadsAlone.v
ThreadsSound.v
ThreadsTypes.v
ThreadsWhy.v
ThreadsDemo.v
ThreadsProps.v
Calls.v
FileThreads.v
FileThreadsFacts.v
FileThreadsSound.v
FileThreadsRuns.v
FileThreadsWhy.v
FileThreadsDemo.v
FileThreadsProps.v
QueueThreads.v
QueueThreadsRuns.v
QueueThreadsFacts.v
QueueThreadsWhy.v
QueueThreadsDemo.v
QueueThreadsProps.v
