(* ===== verification/Prelude.v ===== *)
(** * A verification of the Axeno relay

    The relay ([src/src/*.rs]) is a store-and-forward server of end-to-end
    encrypted envelopes.  A client opens a WebSocket, says Hello for a mailbox,
    receives what is queued for it, and sends envelopes to other mailboxes under
    delivery tokens; the relay also hosts invite bundles and chunked file
    transfers for a limited time.  This library models the relay as it is written
    and proves what its clients rely on.

    ** The parts, and where they are modelled

    - [config.rs], the limits and the operator's environment: [Config].
    - [util.rs], hashing, input checks, proof of work, with what they guarantee:
      [Util].  [RustStd] holds what the code uses of Rust's standard library on
      strings and numbers.
    - [protocol.rs], the frames: [Protocol].
    - [queue_store.rs], the message queues on disk: [QueueStore] has a definition
      per method; [QueueFacts] the invariant and the view of a mailbox as a
      list; [QueueRuns] and [QueueRemovals] run the methods;
      [QueueSpec] the specification and its simulation; [QueueProps] the
      guarantees.
    - [file_store.rs], the transfers on disk: [FileStore], then [FileFacts],
      [FileWrites], [FileRemovals] and [FileProps] alike.
    - [meta_store.rs], the tables of mailbox records and bundles: [MetaStore].
    - [state.rs], the shared state: [Mailbox] the records, [State] the methods;
      [StateFacts] the invariant and the coherence of the caches, [StateOps] the
      send limit, pruning and garbage collection, [StateProps] the guarantees.
      [Signal] is the interface of the cryptography it calls.
    - [ws.rs], a connection: [Ws] has a definition per client frame and the
      connection's loop; [WsFacts], [WsRuns] and [WsFrames] are the rules by which
      a handler is run; [WsProps], [WsHello], [WsStores] and [WsConn] the
      guarantees, [WsDemo] a concrete connection.
    - [persistence.rs], the state file and the encryption of the keys:
      [Persistence] has a definition per function, [PersistenceFacts] runs them,
      [PersistenceProps] the guarantees.  [Host] is what they and the start use
      of the system: the environment, the file system with modes and writes that
      may be torn, the random source, and the text functions of Rust's library.
    - [main.rs]: the environment file in [Dotenv]; the start, from the old state
      file to the shared state, in [Main], with [MainFacts], [MainRuns] and
      [MainProps]; the background tasks and the accept loop in [Relay].
    - [update_check.rs] and [tor.rs], all the relay sends out by itself:
      [UpdateCheck], [Tor] and [OutboundProps].
    - The whole relay: [Relay] lets connections come, read and go over one shared
      state, with flushes, sweeps and garbage collections in between, in any
      order; [RelayFacts] says what one turn does, [RelayFrames] what a frame
      leaves alone, [RelayProps] what any history guarantees.
    - The threads of the relay: [Steps] writes the handlers of [Ws], the methods of
      [State] and the background tasks of [main.rs] as programs of indivisible
      operations, [StepsAlone] shows that a program run alone is the handler;
      [Threads] is the machine whose moves are one operation of one thread each.
      [StepsOrder], [StepsShape], [StepsDuties], [StepsStores] and
      [StepsSettle] say what a program has done, owes and leaves to others;
      [ThreadsFacts] takes a history apart, [ThreadsAlone] relates the machine to
      the turns of [Relay], [ThreadsSound] has its invariant,
      [ThreadsTypes] the machine widths, [ThreadsWhy] the reasons for routes,
      deliveries and replies, the write-back of the tables in memory and the send
      limit;
      [ThreadsProps] the guarantees, [ThreadsDemo] concrete histories, among them
      those in which two threads get in each other's way.
    - A store's calls on several threads: [Calls] is the machine of the calls under
      way, with the database's one write transaction at a time, over an interface
      that says where a call stands.  [FileThreads] and [QueueThreads] implement it:
      they take the methods of the two stores apart into operations.
      [FileThreadsRuns] and [QueueThreadsRuns] show that a call alone is the method
      and that calls end; [FileThreadsFacts], [FileThreadsSound] and
      [QueueThreadsFacts] are the invariants of the store and of what calls hold,
      own or have on their way; [FileThreadsWhy] and [QueueThreadsWhy] say where
      answers come from and why a message has gone; [FileThreadsProps] and
      [QueueThreadsProps] are the guarantees, [FileThreadsDemo] and
      [QueueThreadsDemo] concrete histories, among them those in which calls get in
      each other's way.
    - The counters several threads update: [Atomics] runs the retry loops of
      [util.rs], [state.rs] and [file_store.rs] load by load and exchange by
      exchange; [AtomicsProps] shows that they are the updates the other files
      take them for.

    The three stores share one embedded database, whose interface is [Redb].  The
    shared state ([State.AppState]) owns the stores, caches the mailbox and
    bundle tables in RAM with sets of dirty keys, and holds the routing table
    from mailboxes to the channels of live sockets.  A connection ([Ws.Session])
    is that state, its own variables, and the log of the frames that channels
    accepted.

    ** How effects are modelled

    A method is a computation of the monad [M] of this file: it passes a state,
    may fail with a value of the method's error type, and consumes a script of
    outcomes ([io]).  The script says of each foreign call what it did: whether a
    database call failed, whether an item of a range was unreadable, what the
    clock said, whether a channel took a frame.  Theorems quantify over the
    script, so they hold whatever calls fail and whatever the clock does, but for
    what a hypothesis asks of it: the limits of sends and frames over an interval
    ask that the readings they count do not go back.  A script that runs out
    stands for an environment where nothing fails and the clock reads 0.  [wp m Q s i] says that [m], run from [s] on [i], ends with a
    result, a state and a rest of the script that satisfy [Q]: computations are
    total functions, so every theorem of this form is also one of termination.

    An early return with [?] is a failure of [M]; the state at that point is
    kept, as Rust keeps the fields already written.  A write transaction works on
    copies of its tables, which become the current ones only at the commit.
    [u32], [u64] and [usize] are integers of [Z] with the wrap-around or the
    saturation of each operation written out; a [String] is its UTF-8 bytes.

    ** Interfaces to foreign code

    - [Redb]: tables as ordered maps from strings to bytes; [Serde]: a codec with
      a round trip (which [serde_json] has on the types the relay stores).
    - [Persistence.SigningKeys], [Persistence.Cipher], [Persistence.HexDecode]:
      key pairs, Argon2id with ChaCha20-Poly1305, the inverse of the hexadecimal
      printer; [UpdateCheck.Semver], [UpdateCheck.ReleaseJson]: the order of
      versions and the reply's JSON.
    - [UuidLib]: identifiers with a printer and a parser; [Hashing]: SHA-256 with
      32-byte digests and hexadecimal digits; [Base64], [LibSignal]: encodings,
      keys and sender certificates; [Json]: the text of the frames.
    Each is a class whose laws are documented behaviour.  Each is instantiated by
    concrete functions in a [*Props] or [*Demo] file, where the properties are
    applied to concrete inputs.

    ** What is shown

    - Queues: any sequence of operations, failures and restarts included, refines
      the specification with a list per mailbox; caps per mailbox; what enqueue,
      ack, sweep and flush do exactly; the index rebuilt at the opening.
    - Transfers: the decision table of an upload, the accounts and caps kept, an
      accepted chunk is what the next fetch returns, a retry changes nothing, a
      complete transfer is readable, deletion and expiry are exact.
    - Shared state: what the dirty sets write back is what a restart reads;
      garbage collection removes only idle mailboxes and loses no message.  The
      equivalence of mailbox records leaves their times of last activity out
      ([StateFacts.MailboxAuth_equiv]), since a refused send refreshes the time
      without marking the record dirty; after a restart the times are those last
      written.
    - The whole relay, in any interleaving of its threads: the tables in memory
      stay well formed; the counters of mailboxes and connections differ from
      their tables by what the threads owe; mailboxes, sockets and threads stay
      within their caps, and sends to a destination are limited over every
      interval; a route leads to, and an envelope goes to, only a socket that
      entered the mailbox with the owner's token or a proof of work; a SendOk
      follows a copy of the message; a message leaves its queue, and a mailbox its
      owner, only for the reasons the protocol names; the write-back misses no
      change of a bundle or of a record's hashes.  The stores, each method of
      which is one operation here, stay well formed ([ThreadsFacts.Core]); what
      becomes of their counters when methods overlap is below.  A thread that
      nothing interrupts does what [Relay] does in one turn, and [RelayProps] has
      the histories of turns.
    - The file store's calls, in any interleaving: the counts of a transfer are
      those of its chunks, the counters are what is on disk and what calls hold,
      within their caps; an id has one owner; an accepted chunk was on disk, and
      a fetched one was uploaded; the calls end, and none blocks for ever; a call
      alone does what the method does in one go.
    - The queue store's calls, in any interleaving: the table stays well formed and
      a sequence number belongs to one message; a reply is true of the disk at one
      moment; an enqueue that begins after another was answered comes later in the
      queue; a message that has gone was acked, purged, too old, evicted or
      replaced; the calls end, and a call alone does what the method does.
    - What the interleavings spoil, by execution ([ThreadsDemo], [FileThreadsDemo],
      [QueueThreadsDemo]): a message queued for a recipient who is online, a newer
      route dropped, a new owner's messages purged or sent to the old owner, a new
      bundle removed; an id that no transfer can use again, a chunk of a deleted
      transfer in a new one; an index and a byte total that drift from the disk.
    - Start and restart: the old state file is taken over; a start that fails
      leaves it or its contents in place; a flushed relay that stops comes back
      as it was, keys included; the order in which the secret is looked up; a
      failed save changes nothing.
    - Counters: under every schedule the loops are indivisible updates, they end
      under every fair one, and the accounts stay exact and within their caps.
    - Outbound: the release check leaves through tor unless the operator asked
      otherwise, and does what the replies say; tor gets no secrets; the onion
      address is published when it is known.
    - Environment file: it fills gaps and never overrides; print and read back.
    - Connections: a frame touches and sees only what its sender is entitled to;
      invariant, caps and coherence survive any frame and any connection; Hello
      delivers the backlog and does not tell which mailboxes exist; SendOk is
      answered only for an envelope that was delivered or stored; the frame
      budget; the teardown.
    - Configuration and proof of work: every environment gives usable limits, and
      a proof of work is a bound on a digest.

    ** Bounds and fuel

    Loops over lists are structural or folds.  The eviction loop of an enqueue is
    structural on the list of the mailbox's entries; [RustStd.trim_fuel] takes
    the length of its string, and each round removes a byte.  The task of the
    release check runs for a given number of rounds, the theorems hold for each;
    the schedules of [Atomics] are lists, and [AtomicsProps.fair_schedules_finish]
    says how long a fair one needs to be.  The theorems on
    frames assume what a frame cannot change ([WsFrames.frame_pre]): the fresh
    envelope id is not a key of the queue yet, the sequence counter is below
    2^64 - 1, the operator's byte cap plus a frame fits 64 bits, a frame is no
    longer than the transport allows, no item of a chunk range is unreadable
    (where it is, [FileProps.delete_can_orphan_a_chunk] shows what happens), and
    the clock stays below a bound [T].  [FileThreads.file_call_pre] and
    [QueueThreads.queue_call_pre] are what the calls of the stores assume alike;
    [QueueThreads.queue_step_pre] says that the sequence counter and the disk are
    not at the end of 64 bits.

    The histories of [Relay.run] assume it at each turn that handles a frame
    ([Relay.turn_pre]); those of [Threads.history] at each operation it concerns
    ([Threads.move_pre]).  At most [ThreadsFacts.MAX_THREADS] threads run, which is
    proved: a thread per connection and one per background task.

    The laws of the write-back are a class of their own, [StepsSettle.Settled],
    over the class [StepsSettle.Durable] of tables in memory that are written back;
    the records and the bundles are its two instances.

    ** What is not modelled

    - Interleaving below an operation of [Steps].  An operation is one access to a
      shared table under its lock with the counter that is updated along with it,
      one [spawn_blocking] closure over a store, one use of a channel; a pass over
      a sharded table ([iter], [retain]) counts as one, where the code locks shard
      by shard.  The methods of the queue and file stores thus run one at a
      time in [Threads]; operation by operation they run in [QueueThreads] and
      [FileThreads], by themselves.  [Atomics] runs the counters' retry loops step
      by step, each counter alone, in a sequentially consistent memory.  [spawn_blocking] runs
      its closure, or fails without starting it; the timers only decide when a
      task begins.
    - A turn of [Relay] that removes one mailbox of a garbage collection is not a
      turn of [Threads]: there the whole collection is one program.
    - The writer task of a socket and the HTTP upgrade (axum and tokio): a frame
      that the channel accepted counts as sent.
    - Of [main.rs], the logging, the parsing of the bind address and the router;
      of [tor.rs], tor itself and the task that copies its error output to the
      log; of [persistence.rs], the branches for systems other than Unix.
    - The scripts and the integration tests: no logic of the relay.

    ** This file

    The prelude: machine integers, bytes and strings, the monad [M] with its
    rules, and the lemmas on maps, sums and sorted lists that the components
    share. *)
From Stdlib Require Import ZArith Lia Ascii String Strings.Byte.
From stdpp Require Import base gmap strings list pretty sorting.

#[global] Set Default Goal Selector "!".
Open Scope Z_scope.

(** ** Machine integers

    A [u64], a [usize] (the relay only builds for 64-bit targets: one of its
    constants is [4 * 1024^3]) and a [u32] are integers of [Z].  Release builds
    wrap on plain [+] and [-]; the saturating operations are written out. *)

Declare Scope relay_scope.
Delimit Scope relay_scope with relay.

Definition u64_max : Z := 2 ^ 64 - 1.

Definition u32_max : Z := 2 ^ 32 - 1.

Definition wrap64 (z : Z) : Z := z mod 2 ^ 64.

Definition wrap32 (z : Z) : Z := z mod 2 ^ 32.

Definition sat_add (a b : Z) : Z := Z.min (a + b) u64_max.

Definition sat_sub (a b : Z) : Z := Z.max (a - b) 0.

Definition sat_mul (a b : Z) : Z := Z.min (a * b) u64_max.

Notation "a +! b" := (wrap64 (a + b)) (at level 50, left associativity) : relay_scope.
Notation "a -! b" := (wrap64 (a - b)) (at level 50, left associativity) : relay_scope.
Notation "a +^ b" := (sat_add a b) (at level 50, left associativity) : relay_scope.
Notation "a -^ b" := (sat_sub a b) (at level 50, left associativity) : relay_scope.
Open Scope relay_scope.

Definition is_u64 (z : Z) : Prop := 0 ≤ z ≤ u64_max.

Lemma u64_max_eq : u64_max = 18446744073709551615.
Proof. reflexivity. Qed.

Lemma wrap64_small z : is_u64 z → wrap64 z = z.
Proof. unfold is_u64, wrap64, u64_max. intros. apply Z.mod_small. lia. Qed.

Lemma wrap64_range z : is_u64 (wrap64 z).
Proof.
  unfold is_u64, wrap64, u64_max.
  pose proof (Z.mod_pos_bound z (2 ^ 64)). lia.
Qed.

Lemma wrap32_small z : 0 ≤ z ≤ u32_max → wrap32 z = z.
Proof. unfold wrap32, u32_max. intros. apply Z.mod_small. lia. Qed.

Lemma sat_sub_le a b : b ≤ a → a -^ b = a - b.
Proof. unfold sat_sub. lia. Qed.

Lemma sat_add_small a b : a + b ≤ u64_max → a +^ b = a + b.
Proof. unfold sat_add. lia. Qed.

(** ** Bytes and strings

    A Rust [String] is its UTF-8 bytes: a [string] of the Standard Library is
    a list of bytes, and [len()] counts bytes. *)

Abbreviation bytes := (list Byte.byte).

Definition slen (s : string) : Z := Z.of_nat (String.length s).

Definition blen (b : bytes) : Z := Z.of_nat (length b).

Lemma slen_nonneg s : 0 ≤ slen s.
Proof. unfold slen. lia. Qed.

Lemma blen_nonneg b : 0 ≤ blen b.
Proof. unfold blen. lia. Qed.

Lemma blen_pos b : b ≠ [] → 0 < blen b.
Proof. destruct b; [done|]. unfold blen. simpl. lia. Qed.

#[global] Instance byte_eq_decision : EqDecision Byte.byte := Byte.byte_eq_dec.

(** [str::split_once]: the text before and after the first [c]. *)
Fixpoint split_once (c : ascii) (s : string) : option (string * string) :=
  match s with
  | EmptyString => None
  | String x r =>
      if decide (x = c) then Some (EmptyString, r)
      else match split_once c r with
           | Some (a, b) => Some (String x a, b)
           | None => None
           end
  end.

Fixpoint str_contains (c : ascii) (s : string) : bool :=
  match s with
  | EmptyString => false
  | String x r => bool_decide (x = c) || str_contains c r
  end.

Abbreviation no_char c s := (str_contains c s = false).

(** [str::bytes().all(..)]. *)
Fixpoint str_forallb (p : ascii → bool) (s : string) : bool :=
  match s with
  | EmptyString => true
  | String x r => p x && str_forallb p r
  end.

Lemma split_once_app c a b :
  no_char c a → split_once c (a +:+ String c b) = Some (a, b).
Proof.
  induction a as [|x a IH]; simpl; intros H.
  - by rewrite decide_True.
  - apply orb_false_iff in H as [H1 H2]. apply bool_decide_eq_false in H1.
    rewrite decide_False by done. by rewrite IH.
Qed.

Lemma split_once_Some c s a b :
  split_once c s = Some (a, b) → s = a +:+ String c b ∧ no_char c a.
Proof.
  revert a b. induction s as [|x s IH]; simpl; intros a b H; [done|].
  case_decide; simplify_eq/=; [done|].
  destruct (split_once c s) as [[a' b']|]; simplify_eq/=.
  destruct (IH _ _ eq_refl) as [-> Ha]. split; [done|].
  apply orb_false_iff. by rewrite bool_decide_eq_false.
Qed.

Lemma str_contains_app c a b :
  str_contains c (a +:+ b) = str_contains c a || str_contains c b.
Proof. induction a as [|x a IH]; simpl; [done|]. by rewrite IH, orb_assoc. Qed.

Lemma str_forallb_app p a b : str_forallb p (a +:+ b) = str_forallb p a && str_forallb p b.
Proof. induction a as [|x a IH]; simpl; [done|]. by rewrite IH, andb_assoc. Qed.

Lemma str_forallb_no_char p c s : p c = false → str_forallb p s = true → no_char c s.
Proof.
  intros Hc. induction s as [|x s IH]; simpl; [done|].
  intros [Hx Hs]%andb_prop. rewrite (IH Hs), orb_false_r.
  apply bool_decide_eq_false. congruence.
Qed.

Lemma str_app_inj_l a b c : a +:+ b = a +:+ c → b = c.
Proof. induction a; simpl; [done|]. intros [= H]. auto. Qed.

(** Lexicographic order on bytes, as [Ord for str] compares. *)
Definition str_le (a b : string) : Prop := String.compare a b ≠ Gt.

Definition str_lt (a b : string) : Prop := String.compare a b = Lt.

#[global] Instance str_le_dec a b : Decision (str_le a b).
Proof. unfold str_le. apply _. Defined.

#[global] Instance str_lt_dec a b : Decision (str_lt a b).
Proof. unfold str_lt. apply _. Defined.

(** ** The outside world and the effect monad

    An operation of the relay reads the wall clock, calls the database (every
    such call may return an error) and offers frames to bounded channels (which
    may be full or closed).  [io] is the script of those outcomes:
    [io_fail] says which fallible calls fail, [io_item] which items of an
    iterator are errors, [io_clock] what the successive readings of
    [SystemTime::now()] are (milliseconds since the epoch) and [io_send] which
    [try_send]s are refused.  An exhausted script means that nothing fails and
    the clock reads 0. *)
Record io := Io {
  io_fail : list bool;
  io_item : list bool;
  io_clock : list Z;
  io_send : list bool;
}.

(** Computations over a component state [S], errors [E]: a state change made
    before an error stays, as in the code. *)
Definition M (S E A : Type) : Type := S → io → (E + A) * S * io.

#[global] Instance M_ret S E : MRet (M S E) := λ A a s i, (inr a, s, i).

#[global] Instance M_bind S E : MBind (M S E) := λ A B f m s i,
  match m s i with
  | (inr a, s', i') => f a s' i'
  | (inl e, s', i') => (inl e, s', i')
  end.

Section Effects.
Context {S E : Type}.

Definition throw {A} (e : E) : M S E A := λ s i, (inl e, s, i).

Definition get : M S E S := λ s i, (inr s, s, i).

Definition put (s' : S) : M S E () := λ _ i, (inr (), s', i).

Definition modify (f : S → S) : M S E () := λ s i, (inr (), f s, i).

(** A call of foreign code that returns a [Result]; [e] is what the caller
    turns its error into. *)
Definition io_call (e : E) : M S E () := λ s i,
  match io_fail i with
  | b :: r => ((if b then inl e else inr ()), s, Io r (io_item i) (io_clock i) (io_send i))
  | [] => (inr (), s, i)
  end.

(** Whether the next item of an iterator is an [Ok]. *)
Definition item_ok : M S E bool := λ s i,
  match io_item i with
  | b :: r => (inr (negb b), s, Io (io_fail i) r (io_clock i) (io_send i))
  | [] => (inr true, s, i)
  end.

(** Milliseconds since the epoch, 0 for a clock set before it. *)
Definition clock_reading (i : io) : Z := Z.max 0 (hd 0 (io_clock i)).

Definition clock_tick (i : io) : io := Io (io_fail i) (io_item i) (tl (io_clock i)) (io_send i).

Definition read_clock : M S E Z := λ s i, (inr (clock_reading i), s, clock_tick i).

(** Whether a channel accepts the frame offered to it. *)
Definition send_ok : M S E bool := λ s i,
  match io_send i with
  | b :: r => (inr (negb b), s, Io (io_fail i) (io_item i) (io_clock i) r)
  | [] => (inr true, s, i)
  end.

(** [for x in l { .. }] with an accumulator. *)
Fixpoint foldM {A B} (f : B → A → M S E B) (b : B) (l : list A) : M S E B :=
  match l with
  | [] => mret b
  | x :: r => b' ← f b x; foldM f b' r
  end.
End Effects.

(** The outcome of [m] as a value: [match m { Ok(..) => .., Err(..) => .. }]. *)
Definition attempt {S E E' A} (m : M S E A) : M S E' (E + A) := λ s i,
  match m s i with (r, s', i') => (inr r, s', i') end.

(** Runs [m] on a state of its own, for constructors. *)
Definition with_state {S T E A} (t : T) (m : M T E A) : M S E (A * T) := λ s i,
  match m t i with
  | (inr a, t', i') => (inr (a, t'), s, i')
  | (inl e, _, i') => (inl e, s, i')
  end.

(** Runs a closure that captures local variables [l]: they survive its error. *)
Definition with_local {S L E E' A} (l : L) (m : M (S * L) E A) : M S E' ((E + A) * L) := λ s i,
  match m (s, l) i with (r, (s', l'), i') => (inr (r, l'), s', i') end.

(** [Result::map_err] and [?] on the outcome of an attempt. *)
Definition lift {S E A} (r : E + A) : M S E A := λ s i, (r, s, i).

(** Runs [m] on a part of the state. *)
Definition zoom {S T E A} (getter : S → T) (setter : T → S → S) (m : M T E A) : M S E A := λ s i,
  match m (getter s) i with (r, t', i') => (r, setter t' s, i') end.

(** ** Reasoning about effects *)

(** [wp m Q s i]: [m] run from [s] and [i] ends in an outcome, a state and a
    remaining script that satisfy [Q]. *)
Definition wp {S E A} (m : M S E A) (Q : E + A → S → io → Prop) (s : S) (i : io) : Prop :=
  match m s i with (r, s', i') => Q r s' i' end.

(** No foreign call of the script fails. *)
Definition quiet (i : io) : Prop := Forall (λ b, b = false) (io_fail i).

(** No iterator item of the script is an error. *)
Definition items_fine (i : io) : Prop := Forall (λ b, b = false) (io_item i).

(** [i'] is [i] after some foreign calls: the clock and the channels are as
    they were. *)
Record io_step (i i' : io) : Prop := IoStep {
  step_fail : io_fail i' `suffix_of` io_fail i;
  step_item : io_item i' `suffix_of` io_item i;
  step_clock : io_clock i' = io_clock i;
  step_send : io_send i' = io_send i;
}.

#[global] Instance io_step_preorder : PreOrder io_step.
Proof.
  split.
  - intros i. by split.
  - intros i1 i2 i3 [] []. split; [by etrans..| |]; congruence.
Qed.

Lemma Forall_suffix {A} (P : A → Prop) l l' : l' `suffix_of` l → Forall P l → Forall P l'.
Proof. intros [k ->]. by intros [_ ?]%Forall_app. Qed.

Lemma quiet_step i i' : io_step i i' → quiet i → quiet i'.
Proof. intros [Hf _ _ _]. by apply Forall_suffix. Qed.

Lemma items_fine_step i i' : io_step i i' → items_fine i → items_fine i'.
Proof. intros [_ Hf _ _]. by apply Forall_suffix. Qed.

(** [i'] is what is left of [i] after some calls, readings and sends. *)
Record io_later (i i' : io) : Prop := IoLater {
  later_fail : io_fail i' `suffix_of` io_fail i;
  later_item : io_item i' `suffix_of` io_item i;
  later_clock : io_clock i' `suffix_of` io_clock i;
  later_send : io_send i' `suffix_of` io_send i;
}.

#[global] Instance io_later_preorder : PreOrder io_later.
Proof.
  split; [intros i; by split|]. intros i1 i2 i3 [] []. split; by etrans.
Qed.

Lemma step_later i i' : io_step i i' → io_later i i'.
Proof. intros [? ? Hc Hs]. split; [done..| |]; by rewrite ?Hc, ?Hs. Qed.

Lemma tick_later i : io_later i (clock_tick i).
Proof. split; [done..| |done]. simpl. destruct (io_clock i) as [|z l]; [done|]. by exists [z]. Qed.

Lemma quiet_later i i' : io_later i i' → quiet i → quiet i'.
Proof. intros [Hf _ _ _]. by apply Forall_suffix. Qed.

Lemma items_fine_later i i' : io_later i i' → items_fine i → items_fine i'.
Proof. intros [_ Hf _ _]. by apply Forall_suffix. Qed.

Lemma step_tick i i' : io_step i i' → io_step (clock_tick i) (clock_tick i').
Proof. intros [? ? Hc ?]. split; try done. simpl. by rewrite Hc. Qed.

Lemma step_reading i i' : io_step i i' → clock_reading i' = clock_reading i.
Proof. intros [_ _ Hc _]. unfold clock_reading. by rewrite Hc. Qed.

Lemma quiet_tick i : quiet i → quiet (clock_tick i).
Proof. done. Qed.

Lemma items_fine_tick i : items_fine i → items_fine (clock_tick i).
Proof. done. Qed.

Create HintDb relay discriminated.
#[export] Hint Resolve quiet_step items_fine_step quiet_tick items_fine_tick : relay.
#[export] Hint Resolve slen_nonneg blen_nonneg : relay.

Section Wp.
Context {S E : Type}.
Implicit Types (s : S) (i : io).

Lemma wp_run {A} (m : M S E A) Q s i r s' i' :
  wp m Q s i → m s i = (r, s', i') → Q r s' i'.
Proof. unfold wp. intros H Hm. by rewrite Hm in H. Qed.

Lemma wp_ret {A} (a : A) (Q : E + A → S → io → Prop) s i : Q (inr a) s i → wp (mret a) Q s i.
Proof. done. Qed.

Lemma wp_throw {A} e (Q : E + A → S → io → Prop) s i : Q (inl e) s i → wp (throw e) Q s i.
Proof. done. Qed.

Lemma wp_bind {A B} (m : M S E A) (f : A → M S E B) Q s i :
  wp m (λ r s' i', match r with inr a => wp (f a) Q s' i' | inl e => Q (inl e) s' i' end) s i →
  wp (m ≫= f) Q s i.
Proof. unfold wp, mbind, M_bind. by destruct (m s i) as [[[e|a] s'] i']. Qed.

Lemma wp_get (Q : E + S → S → io → Prop) s i : Q (inr s) s i → wp get Q s i.
Proof. done. Qed.

Lemma wp_put s' (Q : E + () → S → io → Prop) s i : Q (inr ()) s' i → wp (put s') Q s i.
Proof. done. Qed.

Lemma wp_modify f (Q : E + () → S → io → Prop) s i : Q (inr ()) (f s) i → wp (modify f) Q s i.
Proof. done. Qed.

(** A foreign call may fail only when the script has a failure left. *)
Lemma wp_io_call e (Q : E + () → S → io → Prop) s i :
  (∀ i', io_step i i' → Q (inr ()) s i') →
  (¬ quiet i → ∀ i', io_step i i' → Q (inl e) s i') →
  wp (io_call e) Q s i.
Proof.
  intros H1 H2. unfold wp, io_call, quiet in *. destruct i as [fl it ck sd]; simpl in *.
  destruct fl as [|[] fl]; [by apply H1| |].
  - apply H2; [by intros [? _]%Forall_cons|].
    split; simpl; [by exists [true]|done..].
  - apply H1. split; simpl; [by exists [false]|done..].
Qed.

Lemma wp_item_ok (Q : E + bool → S → io → Prop) s i :
  (∀ i', io_step i i' → Q (inr true) s i') →
  (¬ items_fine i → ∀ i', io_step i i' → Q (inr false) s i') →
  wp item_ok Q s i.
Proof.
  intros H1 H2. unfold wp, item_ok, items_fine in *. destruct i as [fl it ck sd]; simpl in *.
  destruct it as [|[] it]; simpl; [by apply H1| |].
  - apply H2; [by intros [? _]%Forall_cons|].
    split; simpl; [done|by exists [true]|done..].
  - apply H1. split; simpl; [done|by exists [false]|done..].
Qed.

Lemma wp_read_clock (Q : E + Z → S → io → Prop) s i :
  Q (inr (clock_reading i)) s (clock_tick i) → wp read_clock Q s i.
Proof. done. Qed.

Lemma wp_attempt {E' A} (m : M S E A) (Q : E' + (E + A) → S → io → Prop) s i :
  wp m (λ r s' i', Q (inr r) s' i') s i → wp (attempt m) Q s i.
Proof. unfold wp, attempt. by destruct (m s i) as [[r s'] i']. Qed.

Lemma wp_with_state {T A} (t : T) (m : M T E A) (Q : E + A * T → S → io → Prop) s i :
  wp m (λ r t' i', match r with inr a => Q (inr (a, t')) s i' | inl e => Q (inl e) s i' end) t i →
  wp (with_state t m) Q s i.
Proof. unfold wp, with_state. by destruct (m t i) as [[[e|a] t'] i']. Qed.

Lemma wp_with_local {L E' A} (l : L) (m : M (S * L) E A) (Q : E' + (E + A) * L → S → io → Prop) s i :
  wp m (λ r sl i', Q (inr (r, sl.2)) sl.1 i') (s, l) i → wp (with_local l m) Q s i.
Proof. unfold wp, with_local. by destruct (m (s, l) i) as [[r [s' l']] i']. Qed.

Lemma wp_lift {A} (r : E + A) (Q : E + A → S → io → Prop) s i : Q r s i → wp (lift r) Q s i.
Proof. done. Qed.

Lemma wp_zoom {T A} (getter : S → T) setter (m : M T E A) (Q : E + A → S → io → Prop) s i :
  wp m (λ r t' i', Q r (setter t' s) i') (getter s) i → wp (zoom getter setter m) Q s i.
Proof. unfold wp, zoom. by destruct (m (getter s) i) as [[r t'] i']. Qed.

Lemma wp_conseq {A} (m : M S E A) (Q Q' : E + A → S → io → Prop) s i :
  wp m Q s i → (∀ r s' i', Q r s' i' → Q' r s' i') → wp m Q' s i.
Proof. unfold wp. destruct (m s i) as [[r s'] i']. auto. Qed.

(** The rule of a loop: [I done b] holds before each iteration, [done] being
    the items already consumed. *)
Lemma wp_foldM {A B} (f : B → A → M S E B) (I : list A → B → S → io → Prop)
    (Q : E + B → S → io → Prop) l b s i :
  I [] b s i →
  (∀ done x rest b s i, l = done ++ x :: rest → I done b s i →
     wp (f b x) (λ r s' i', match r with
                            | inr b' => I (done ++ [x]) b' s' i'
                            | inl e => Q (inl e) s' i'
                            end) s i) →
  (∀ b s i, I l b s i → Q (inr b) s i) →
  wp (foldM f b l) Q s i.
Proof.
  intros H0 Hstep Hend.
  cut (∀ rest done b s i, l = done ++ rest → I done b s i → wp (foldM f b rest) Q s i).
  { intros H. by apply (H l []). }
  clear b s i H0. induction rest as [|x rest IH]; intros done b s i Hl HI; simpl.
  - apply wp_ret. rewrite app_nil_r in Hl. subst. by apply Hend.
  - apply wp_bind. eapply wp_conseq; [by eapply Hstep|].
    intros [e|b'] s' i' H; [done|]. simpl in *.
    apply (IH (done ++ [x])); [|done]. by rewrite <- app_assoc.
Qed.
End Wp.

(** The same rules for a script reached from [i0] by foreign calls only. *)
Section WpFrom.
Context {S E : Type}.

Lemma wp_io_call_from i0 e (Q : E + () → S → io → Prop) s i :
  io_step i0 i →
  (∀ i', io_step i0 i' → Q (inr ()) s i') →
  (¬ quiet i0 → ∀ i', io_step i0 i' → Q (inl e) s i') →
  wp (io_call e) Q s i.
Proof.
  intros Hi H1 H2. apply wp_io_call; intros; [apply H1; by etrans|].
  apply H2; [|by etrans]. intros Hq. by eapply quiet_step in Hq.
Qed.

(** A loop over the items of an iterator that calls foreign code once per
    item and otherwise only computes: the accumulator is a [foldl]. *)
Lemma wp_scan {A B} i0 (g : B → A → M S E B) (f : B → A → B) e b l (Q : E + B → S → io → Prop) s i :
  (∀ b x Q s i, wp (_ ← io_call e; mret (f b x)) Q s i → wp (g b x) Q s i) →
  io_step i0 i →
  (∀ i', io_step i0 i' → Q (inr (foldl f b l)) s i') →
  (¬ quiet i0 → ∀ i', io_step i0 i' → Q (inl e) s i') →
  wp (foldM g b l) Q s i.
Proof.
  intros Hg Hi H1 H2.
  apply (wp_foldM _ (λ done b' s' i', b' = foldl f b done ∧ s' = s ∧ io_step i0 i')).
  - done.
  - intros done x rest b' s' i' _ (-> & -> & Hi'). apply Hg, wp_bind.
    apply (wp_io_call_from i0); [done| |auto].
    intros i'' Hi''. apply wp_ret. by rewrite foldl_app.
  - intros b' s' i' (-> & -> & Hi'). auto.
Qed.
End WpFrom.

(** One step of symbolic execution. *)
Ltac wp_step :=
  lazymatch goal with
  | |- wp (mbind _ _) _ _ _ => apply wp_bind
  | |- wp (mret _) _ _ _ => apply wp_ret
  | |- wp (throw _) _ _ _ => apply wp_throw
  | |- wp get _ _ _ => apply wp_get
  | |- wp (put _) _ _ _ => apply wp_put
  | |- wp (modify _) _ _ _ => apply wp_modify
  | |- wp read_clock _ _ _ => apply wp_read_clock
  | |- wp (attempt _) _ _ _ => apply wp_attempt
  | |- wp (with_state _ _) _ _ _ => apply wp_with_state
  | |- wp (with_local _ _) _ _ _ => apply wp_with_local
  | |- wp (lift _) _ _ _ => apply wp_lift
  | |- wp (zoom _ _ _) _ _ _ => apply wp_zoom
  | |- wp (if ?b then _ else _) _ _ _ => destruct b eqn:?
  end; cbn beta iota.

Ltac wp_steps := repeat wp_step.

(** A foreign call: the run goes on with the script reached ([Hi]), and the
    failure is left to [tac]. *)
Ltac wp_io tac :=
  lazymatch goal with
  | Hi : io_step ?i0 ?i |- wp (io_call _) _ _ ?i =>
      let i' := fresh "i" in
      apply (wp_io_call_from i0 _ _ _ _ Hi); cbn beta iota; clear Hi;
      [intros i' Hi | intros ? i' Hi; tac]
  end.

(** ** Sums *)

Definition zsum (l : list Z) : Z := foldr Z.add 0 l.

#[global] Instance zsum_perm : Proper ((≡ₚ) ==> (=)) zsum.
Proof. induction 1; simpl; lia. Qed.

Lemma zsum_cons z l : zsum (z :: l) = z + zsum l.
Proof. done. Qed.

Lemma zsum_app l k : zsum (l ++ k) = zsum l + zsum k.
Proof. induction l; simpl; lia. Qed.

Lemma zsum_nonneg l : Forall (λ z, 0 ≤ z) l → 0 ≤ zsum l.
Proof. induction 1; simpl; lia. Qed.

Lemma zsum_ones {A} (l : list A) : zsum ((λ _, 1) <$> l) = Z.of_nat (length l).
Proof. induction l as [|x l IH]; [done|]. rewrite fmap_cons, zsum_cons, IH. simpl length. lia. Qed.

(** A sum of zeros and ones is at most the number of terms, and reaches it only
    when every term is a one. *)
Lemma zsum_indicator (l : list Z) :
  Forall (λ z, z = 0 ∨ z = 1) l →
  zsum l ≤ Z.of_nat (length l) ∧ (zsum l = Z.of_nat (length l) → Forall (λ z, z = 1) l).
Proof.
  induction 1 as [|z l Hz Hl [IH1 IH2]]; [done|]. rewrite zsum_cons. simpl length.
  split; [lia|]. intros H. constructor; [lia|]. apply IH2. lia.
Qed.

(** The sum of [f] over the entries of a finite map. *)
Definition msum `{Countable K} {A} (f : K → A → Z) (m : gmap K A) : Z :=
  zsum ((λ kv, f kv.1 kv.2) <$> map_to_list m).

(** What one key contributes to it. *)
Definition contrib `{Countable K} {A} (f : K → A → Z) (m : gmap K A) (k : K) : Z :=
  match m !! k with Some a => f k a | None => 0 end.

Section Msum.
Context `{Countable K} {A : Type}.
Implicit Types (f g : K → A → Z) (m : gmap K A).

Lemma msum_empty f : msum f (∅ : gmap K A) = 0.
Proof. unfold msum. by rewrite map_to_list_empty. Qed.

Lemma msum_insert_new f m k a : m !! k = None → msum f (<[k:=a]> m) = f k a + msum f m.
Proof. intros Hk. unfold msum. by rewrite map_to_list_insert. Qed.

Lemma msum_delete f m k : msum f (delete k m) = msum f m - contrib f m k.
Proof.
  unfold contrib. destruct (m !! k) as [a|] eqn:E.
  - rewrite <- (insert_delete_id m k a E) at 2.
    rewrite msum_insert_new by apply lookup_delete_eq. lia.
  - rewrite delete_id by done. lia.
Qed.

Lemma msum_insert f m k a : msum f (<[k:=a]> m) = msum f m - contrib f m k + f k a.
Proof.
  rewrite <- insert_delete_eq, msum_insert_new, msum_delete by apply lookup_delete_eq. lia.
Qed.

Lemma msum_nonneg f m : (∀ k a, m !! k = Some a → 0 ≤ f k a) → 0 ≤ msum f m.
Proof.
  intros Hf. apply zsum_nonneg, Forall_forall. intros z.
  rewrite list_elem_of_fmap. intros [[k a] [-> Hin]].
  by apply Hf, elem_of_map_to_list.
Qed.

Lemma msum_contrib_le f m k :
  (∀ k a, m !! k = Some a → 0 ≤ f k a) → contrib f m k ≤ msum f m.
Proof.
  intros Hf. pose proof (msum_delete f m k) as Hd.
  assert (0 ≤ msum f (delete k m)); [|lia].
  apply msum_nonneg. intros k' a [_ ?]%lookup_delete_Some. eauto.
Qed.

Lemma msum_ext f g m : (∀ k a, m !! k = Some a → f k a = g k a) → msum f m = msum g m.
Proof.
  intros Hfg. unfold msum. f_equal. apply list_fmap_ext. intros j [k a] Hj. simpl.
  apply Hfg, elem_of_map_to_list. by eapply list_elem_of_lookup_2.
Qed.

Lemma msum_le f g m : (∀ k a, m !! k = Some a → f k a ≤ g k a) → msum f m ≤ msum g m.
Proof.
  induction m as [|k a m Hk IH] using map_ind; intros Hfg.
  - by rewrite !msum_empty.
  - rewrite !msum_insert_new by done.
    assert (f k a ≤ g k a) by (apply Hfg, lookup_insert_eq).
    assert (msum f m ≤ msum g m); [|lia].
    apply IH. intros k' a' Hk'. apply Hfg. by rewrite lookup_insert_ne by congruence.
Qed.

Lemma msum_size m : msum (λ _ _, 1) m = Z.of_nat (size m).
Proof.
  induction m as [|k a m Hk IH] using map_ind; [done|].
  rewrite msum_insert_new, map_size_insert_None by done. lia.
Qed.

Lemma msum_zero f m : (∀ k a, m !! k = Some a → f k a = 0) → msum f m = 0.
Proof.
  induction m as [|k a m Hk IH] using map_ind; intros Hf; [by rewrite msum_empty|].
  rewrite msum_insert_new by done.
  rewrite (Hf k a) by apply lookup_insert_eq. simpl. apply IH.
  intros k' a' Hk'. apply Hf. by rewrite lookup_insert_ne by congruence.
Qed.
End Msum.

(** Removing a list of keys. *)
Section RemoveKeys.
Context `{Countable K} {A : Type}.
Implicit Types (m : gmap K A) (ks : list K).

Definition remove_keys ks m : gmap K A := filter (λ kv, kv.1 ∉ ks) m.

Lemma remove_keys_Some ks m k a : remove_keys ks m !! k = Some a ↔ m !! k = Some a ∧ k ∉ ks.
Proof. apply map_lookup_filter_Some. Qed.

Lemma remove_keys_nil m : remove_keys [] m = m.
Proof.
  apply map_eq. intros k. apply option_eq. intros a.
  rewrite remove_keys_Some. pose proof (not_elem_of_nil k). tauto.
Qed.

Lemma remove_keys_snoc ks m k : remove_keys (ks ++ [k]) m = delete k (remove_keys ks m).
Proof.
  apply map_eq. intros k'. apply option_eq. intros a.
  rewrite lookup_delete_Some, !remove_keys_Some, not_elem_of_app, not_elem_of_cons.
  pose proof (not_elem_of_nil k'). split; intros ?; destruct_and!; done.
Qed.

Lemma remove_keys_contrib f ks m k :
  contrib f (remove_keys ks m) k = if decide (k ∈ ks) then 0 else contrib f m k.
Proof.
  unfold contrib. destruct (remove_keys ks m !! k) as [a|] eqn:E.
  - apply remove_keys_Some in E as [-> ?]. by rewrite decide_False.
  - case_decide; [done|]. destruct (m !! k) as [a|] eqn:E'; [|done].
    by rewrite (proj2 (remove_keys_Some _ _ _ _) (conj E' H0)) in E.
Qed.

Lemma msum_remove_keys f ks m :
  NoDup ks → msum f (remove_keys ks m) = msum f m - zsum (contrib f m <$> ks).
Proof.
  induction ks as [|k ks IH] using rev_ind; intros Hks; [rewrite remove_keys_nil; simpl; lia|].
  apply NoDup_app in Hks as (Hks & Hk & _).
  rewrite remove_keys_snoc, msum_delete, remove_keys_contrib, IH by done.
  rewrite decide_False by (intros ?; eapply Hk; [done|]; by apply list_elem_of_singleton).
  rewrite fmap_app, zsum_app. simpl. lia.
Qed.

(** Two weights that agree on the removed keys lose the same. *)
Lemma msum_remove_keys_agree f g ks m :
  (∀ k, k ∈ ks → contrib f m k = contrib g m k) →
  msum f m - msum f (remove_keys ks m) = msum g m - msum g (remove_keys ks m).
Proof.
  induction ks as [|k ks IH] using rev_ind; intros Hfg; [rewrite remove_keys_nil; lia|].
  rewrite remove_keys_snoc, !msum_delete, !remove_keys_contrib.
  rewrite (Hfg k) by (rewrite elem_of_app, list_elem_of_singleton; by right).
  assert (msum f m - msum f (remove_keys ks m) = msum g m - msum g (remove_keys ks m)); [|lia].
  apply IH. intros k' Hk'. apply Hfg. rewrite elem_of_app. by left.
Qed.

Lemma msum_filter f (P : K * A → Prop) `{∀ x, Decision (P x)} m :
  msum f (filter P m) = msum (λ k a, if decide (P (k, a)) then f k a else 0) m.
Proof.
  induction m as [|k a m Hk IH] using map_ind; [by rewrite map_filter_empty|].
  rewrite (msum_insert_new _ m) by done. case_decide as HP.
  - rewrite map_filter_insert_True by done.
    rewrite msum_insert_new by (apply map_lookup_filter_None; auto). by rewrite IH.
  - rewrite map_filter_insert_False, delete_id by done. by rewrite IH.
Qed.

Lemma msum_remove_keys_le f ks m :
  (∀ k a, m !! k = Some a → 0 ≤ f k a) → 0 ≤ msum f (remove_keys ks m) ≤ msum f m.
Proof.
  intros Hf. split.
  - apply msum_nonneg. intros k a [Hk _]%remove_keys_Some. eauto.
  - unfold remove_keys. rewrite msum_filter. apply msum_le. intros k a Hk%Hf. case_decide; lia.
Qed.

Lemma contrib_nonneg f m k : (∀ k a, m !! k = Some a → 0 ≤ f k a) → 0 ≤ contrib f m k.
Proof. unfold contrib. destruct (m !! k) eqn:E; eauto. lia. Qed.

(** The sum over some keys of a map is at most the sum over the map. *)
Lemma contrib_sum_le f ks m :
  (∀ k a, m !! k = Some a → 0 ≤ f k a) → NoDup ks →
  0 ≤ zsum (contrib f m <$> ks) ≤ msum f m.
Proof.
  intros Hf Hks. split.
  - apply zsum_nonneg, Forall_forall. intros z (k & -> & _)%list_elem_of_fmap.
    by apply contrib_nonneg.
  - pose proof (msum_remove_keys f ks m Hks). pose proof (msum_remove_keys_le f ks m Hf). lia.
Qed.

(** The sum over all its keys is the sum over the map. *)
Lemma contrib_sum_all f ks m :
  NoDup ks → (∀ k a, m !! k = Some a → k ∈ ks) → zsum (contrib f m <$> ks) = msum f m.
Proof.
  intros Hks Hall. pose proof (msum_remove_keys f ks m Hks) as Hr.
  rewrite (msum_zero f (remove_keys ks m)) in Hr; [lia|].
  intros k a [Hk Hn]%remove_keys_Some. by apply Hall in Hk.
Qed.
End RemoveKeys.

(** ** Sorting by a key *)

Section SortBy.
Context {A : Type} (key : A → Z).

(** [slice::sort_by_key]: stable. *)
Fixpoint insert_by (x : A) (l : list A) : list A :=
  match l with
  | [] => [x]
  | y :: r => if key x <=? key y then x :: y :: r else y :: insert_by x r
  end.

Definition sort_by_key (l : list A) : list A := foldr insert_by [] l.

(** Strictly increasing keys. *)
Definition increasing (l : list A) : Prop := StronglySorted (λ x y, key x < key y) l.

Lemma insert_by_perm x l : insert_by x l ≡ₚ x :: l.
Proof.
  induction l as [|y l IH]; simpl; [done|]. case_match; [done|].
  rewrite IH. apply Permutation_swap.
Qed.

Lemma sort_by_key_perm l : sort_by_key l ≡ₚ l.
Proof. induction l as [|x l IH]; simpl; [done|]. by rewrite insert_by_perm, IH. Qed.

Lemma insert_by_increasing x l :
  increasing l → (∀ y, y ∈ l → key x ≠ key y) → increasing (insert_by x l).
Proof.
  unfold increasing. induction 1 as [|y l Hl IH Hy]; intros Hx; simpl; [by repeat constructor|].
  assert (key x ≠ key y) by (apply Hx; left).
  destruct (Z.leb_spec (key x) (key y)).
  - constructor; [by constructor|]. constructor; [lia|].
    eapply Forall_impl; [done|]. intros z Hz. simpl in Hz. lia.
  - constructor; [by apply IH; intros z Hz; apply Hx; right|].
    rewrite insert_by_perm. constructor; [lia|done].
Qed.

Lemma sort_by_key_increasing l :
  NoDup (key <$> l) → increasing (sort_by_key l).
Proof.
  induction l as [|x l IH]; simpl; [constructor|]. intros [Hx Hl]%NoDup_cons.
  apply insert_by_increasing; [auto|]. intros y Hy Hxy. apply Hx.
  rewrite sort_by_key_perm in Hy. rewrite Hxy. by apply list_elem_of_fmap_2.
Qed.

(** Lists with increasing keys are determined by their elements. *)
Lemma increasing_ext l k :
  increasing l → increasing k → (∀ x, x ∈ l ↔ x ∈ k) → l = k.
Proof.
  unfold increasing. intros Hl. revert k. induction Hl as [|x l Hl IH Hx]; intros k Hk Helem.
  - destruct k as [|y k]; [done|]. destruct (not_elem_of_nil y). apply Helem. left.
  - destruct Hk as [|y k Hk Hy]; [destruct (not_elem_of_nil x); apply Helem; left|].
    rewrite Forall_forall in Hx, Hy.
    assert (x = y) as <-.
    { assert (x ∈ y :: k) as [->|Hxk]%elem_of_cons by (apply Helem; left); [done|].
      assert (y ∈ x :: l) as [->|Hyl]%elem_of_cons by (apply Helem; left); [done|].
      apply Hy in Hxk. apply Hx in Hyl. simpl in *. lia. }
    f_equal. apply IH; [done|]. intros z. split; intros Hz.
    + assert (z ∈ x :: k) as [->|?]%elem_of_cons by (apply Helem; by right); [|done].
      apply Hx in Hz. simpl in Hz. lia.
    + assert (z ∈ x :: l) as [->|?]%elem_of_cons by (apply Helem; by right); [|done].
      apply Hy in Hz. simpl in Hz. lia.
Qed.

Lemma increasing_filter (P : A → Prop) `{∀ x, Decision (P x)} l :
  increasing l → increasing (filter P l).
Proof.
  unfold increasing. induction 1 as [|x l Hl IH Hx]; [constructor|].
  rewrite filter_cons. case_decide; [|done]. constructor; [done|].
  rewrite Forall_forall in *. intros y [_ Hy]%list_elem_of_filter. by apply Hx.
Qed.

Lemma increasing_drop n l : increasing l → increasing (drop n l).
Proof.
  unfold increasing. intros Hl. revert n. induction Hl as [|x l Hl IH Hx]; intros [|n]; simpl;
    try constructor; auto.
Qed.

Lemma increasing_snoc l x :
  increasing l → (∀ y, y ∈ l → key y < key x) → increasing (l ++ [x]).
Proof.
  unfold increasing. induction 1 as [|y l Hl IH Hy]; intros Hx; simpl; [by repeat constructor|].
  constructor; [by apply IH; intros z Hz; apply Hx; right|].
  apply Forall_app. split; [done|]. constructor; [apply Hx; left|constructor].
Qed.

Lemma increasing_NoDup l : increasing l → NoDup l.
Proof.
  unfold increasing. induction 1 as [|x l Hl IH Hx]; constructor; [|done].
  rewrite Forall_forall in Hx. intros Hin. apply Hx in Hin. simpl in Hin. lia.
Qed.
End SortBy.
