(* ===== verification/Redb.v ===== *)
(** The interface of the embedded database the stores are written against.

    [redb] and [serde_json] are third-party: a table of redb is an abstract type
    with the operations the relay calls and their documented laws ([Redb]), a
    JSON codec is a pair of functions with a round trip ([Serde]).  Every call
    may fail: the [txn_*] wrappers are those calls with their outcome taken from
    the script.  The file also proves what the stores share: a table as a finite
    map, the range ["<owner>:" .. "<owner>;"] that selects one owner's entries,
    and the removal of a list of keys. *)
From Stdlib Require Import ZArith Lia Ascii String.
From stdpp Require Import base gmap strings list.
From S2P Require Import Prelude.

(** ** The database *)

Class Redb := {
  Table : Type;
  tbl_empty : Table;
  tbl_get : Table → string → option bytes;
  tbl_insert : Table → string → bytes → Table;
  tbl_remove : Table → string → Table;
  (** every entry, and the entries with [lo <= key < hi] *)
  tbl_iter : Table → list (string * bytes);
  tbl_range : Table → string → string → list (string * bytes);

  tbl_get_empty : ∀ k, tbl_get tbl_empty k = None;
  tbl_get_insert : ∀ t k v k',
    tbl_get (tbl_insert t k v) k' = if decide (k = k') then Some v else tbl_get t k';
  tbl_get_remove : ∀ t k k',
    tbl_get (tbl_remove t k) k' = if decide (k = k') then None else tbl_get t k';
  tbl_iter_nodup : ∀ t, NoDup (tbl_iter t).*1;
  tbl_iter_get : ∀ t k v, (k, v) ∈ tbl_iter t ↔ tbl_get t k = Some v;
  tbl_range_iter : ∀ t lo hi,
    tbl_range t lo hi = filter (λ kv, str_le lo kv.1 ∧ str_lt kv.1 hi) (tbl_iter t);
}.

(** [anyhow::Error], of which nothing is observed. *)
Inductive anyhow := Failed.

(** A table is a copy while a write transaction works on it; [commit] makes the
    copy current, and dropping the transaction on an error forgets it. *)
Section Transactions.
Context {S E : Type} `{!Redb}.

Definition begin_txn (e : E) : M S E () := io_call e.

Definition open_table (e : E) (t : Table) : M S E Table := _ ← io_call e; mret t.

Definition commit (e : E) : M S E () := io_call e.

Definition txn_get (e : E) (t : Table) (k : string) : M S E (option bytes) :=
  _ ← io_call e; mret (tbl_get t k).

Definition txn_insert (e : E) (t : Table) (k : string) (v : bytes) : M S E Table :=
  _ ← io_call e; mret (tbl_insert t k v).

Definition txn_remove (e : E) (t : Table) (k : string) : M S E Table :=
  _ ← io_call e; mret (tbl_remove t k).

Definition txn_iter (e : E) (t : Table) : M S E (list (string * bytes)) :=
  _ ← io_call e; mret (tbl_iter t).

Definition txn_range (e : E) (t : Table) (lo hi : string) : M S E (list (string * bytes)) :=
  _ ← io_call e; mret (tbl_range t lo hi).

(** [for k in &keys { table.remove(k)?; }] *)
Definition txn_remove_all (e : E) (t : Table) (keys : list string) : M S E Table :=
  foldM (txn_remove e) t keys.
End Transactions.

(** ** The codec *)

Class Serde (A : Type) := {
  to_vec : A → bytes;
  from_slice : bytes → option A;
  from_slice_to_vec : ∀ a, from_slice (to_vec a) = Some a;
}.

(** ** A table as a finite map *)

Section Contents.
Context `{!Redb}.
Implicit Types t : Table.

Definition contents t : gmap string bytes := list_to_map (tbl_iter t).

Lemma contents_lookup t k : contents t !! k = tbl_get t k.
Proof.
  apply option_eq. intros v. unfold contents.
  rewrite <- elem_of_list_to_map by apply tbl_iter_nodup. apply tbl_iter_get.
Qed.

Lemma contents_empty : contents tbl_empty = ∅.
Proof. apply map_eq. intros k. by rewrite contents_lookup, tbl_get_empty, lookup_empty. Qed.

Lemma contents_insert t k v : contents (tbl_insert t k v) = <[k:=v]> (contents t).
Proof.
  apply map_eq. intros k'.
  by rewrite contents_lookup, tbl_get_insert, lookup_insert, contents_lookup.
Qed.

Lemma contents_remove t k : contents (tbl_remove t k) = delete k (contents t).
Proof.
  apply map_eq. intros k'.
  by rewrite contents_lookup, tbl_get_remove, lookup_delete, contents_lookup.
Qed.

Lemma iter_contents t : tbl_iter t ≡ₚ map_to_list (contents t).
Proof. unfold contents. by rewrite map_to_list_to_map by apply tbl_iter_nodup. Qed.

Lemma get_remove_all t ks k :
  tbl_get (foldl tbl_remove t ks) k = if decide (k ∈ ks) then None else tbl_get t k.
Proof.
  revert t. induction ks as [|x ks IH]; intros t; cbn [foldl].
  - rewrite decide_False; [done|]. apply not_elem_of_nil.
  - rewrite IH, tbl_get_remove. repeat case_decide; rewrite elem_of_cons in *; naive_solver.
Qed.

(** The entries whose value decodes. *)
Definition decoded {A} `{!Serde A} t : gmap string A := omap from_slice (contents t).

Context {A : Type} `{!Serde A}.

Lemma decoded_lookup t k : decoded t !! k = tbl_get t k ≫= from_slice.
Proof. unfold decoded. by rewrite lookup_omap, contents_lookup. Qed.

Lemma decoded_insert t k (a : A) : decoded (tbl_insert t k (to_vec a)) = <[k:=a]> (decoded t).
Proof.
  apply map_eq. intros k'. rewrite decoded_lookup, tbl_get_insert, lookup_insert, decoded_lookup.
  case_decide; [|done]. simpl. apply from_slice_to_vec.
Qed.

Lemma decoded_remove t k : decoded (tbl_remove t k) = delete k (decoded t).
Proof.
  apply map_eq. intros k'. rewrite decoded_lookup, tbl_get_remove, lookup_delete, decoded_lookup.
  by case_decide.
Qed.

Lemma decoded_empty : decoded tbl_empty = (∅ : gmap string A).
Proof. unfold decoded. rewrite contents_empty. apply omap_empty. Qed.
End Contents.

(** ** Owners: keys of the form ["<owner>:<rest>"] *)

Definition owner (k : string) : option string := fst <$> split_once ":" k.

Lemma owner_app o r : no_char ":" o → owner (o +:+ ":" +:+ r) = Some o.
Proof. intros Ho. unfold owner. change (":" +:+ r) with (String ":" r). by rewrite split_once_app. Qed.

Lemma owner_Some k o : owner k = Some o → no_char ":" o ∧ ∃ r, k = o +:+ ":" +:+ r.
Proof.
  unfold owner. destruct (split_once ":" k) as [[a b]|] eqn:E; simpl; intros [= ->].
  apply split_once_Some in E as [-> ?]. eauto.
Qed.

Lemma ascii_compare_eq a b : Ascii.compare a b = Eq ↔ a = b.
Proof.
  unfold Ascii.compare. rewrite N.compare_eq_iff. split; [|by intros ->].
  intros H. rewrite <- (ascii_N_embedding a), <- (ascii_N_embedding b). by rewrite H.
Qed.

(** ["<o>:" <= k < "<o>;"] holds of exactly the keys that start with ["<o>:"]:
    [':'] and [';'] are consecutive bytes. *)
Lemma range_prefix o k :
  str_le (o +:+ ":") k ∧ str_lt k (o +:+ ";") ↔ ∃ r, k = o +:+ ":" +:+ r.
Proof.
  unfold str_le, str_lt. revert k. induction o as [|c o IH]; intros k.
  - destruct k as [|x k]; simpl.
    { split; [by intros [? _]|by intros [r ?]]. }
    unfold Ascii.compare. change (N_of_ascii ":") with 58%N. change (N_of_ascii ";") with 59%N.
    destruct (N.compare_spec 58 (N_of_ascii x)) as [Hx|Hx|Hx];
      destruct (N.compare_spec (N_of_ascii x) 59) as [Hy|Hy|Hy]; try lia.
    + split; [intros _|by destruct k].
      exists k. f_equal. rewrite <- (ascii_N_embedding x), <- Hx. done.
    + split; [by destruct k; intros []|]. intros [r [= -> ->]]. done.
    + split; [by intros []|]. intros [r [= -> ->]]. done.
    + split; [by intros []|]. intros [r [= -> ->]]. done.
  - destruct k as [|x k]; simpl.
    { split; [by intros [? _]|by intros [r ?]]. }
    destruct (Ascii.compare c x) eqn:E1.
    + apply ascii_compare_eq in E1 as <-.
      rewrite (proj2 (ascii_compare_eq c c) eq_refl), IH.
      split; intros [r H]; exists r; [by rewrite H|by injection H].
    + split; [|intros [r [= -> _]]; by rewrite (proj2 (ascii_compare_eq c c) eq_refl) in E1].
      intros [_ H]. revert E1 H. unfold Ascii.compare.
      destruct (N.compare_spec (N_of_ascii c) (N_of_ascii x)); [done| |done].
      by destruct (N.compare_spec (N_of_ascii x) (N_of_ascii c)); [lia|lia|].
    + split; [by intros []|]. intros [r [= -> _]].
      by rewrite (proj2 (ascii_compare_eq c c) eq_refl) in E1.
Qed.

Lemma range_owner o k :
  no_char ":" o → (str_le (o +:+ ":") k ∧ str_lt k (o +:+ ";")) ↔ owner k = Some o.
Proof.
  intros Ho. rewrite range_prefix. split.
  - intros [r ->]. by apply owner_app.
  - intros H. by apply owner_Some in H as [_ ?].
Qed.

(** What is summed: each entry of one owner. *)
Definition weigh {A} (o : string) (w : A → Z) (k : string) (a : A) : Z :=
  if decide (owner k = Some o) then w a else 0.

Lemma weigh_range {A} o (w : A → Z) k a : 0 ≤ w a → 0 ≤ weigh o w k a ≤ w a.
Proof. unfold weigh. case_decide; lia. Qed.

Lemma weigh_nonneg {A} o (w : A → Z) k a : (∀ a, 0 ≤ w a) → 0 ≤ weigh o w k a.
Proof. intros Hw. by apply weigh_range. Qed.

(** Sums over the entries of one owner, when keys of one owner are removed. *)
Section WeighRemove.
Context {A : Type}.
Implicit Types (D : gmap string A) (w : A → Z) (o : string).

Lemma weigh_remove_own o w D ks :
  (∀ k, k ∈ ks → owner k = Some o) →
  msum (weigh o w) D - msum (weigh o w) (remove_keys ks D)
  = msum (λ _, w) D - msum (λ _, w) (remove_keys ks D).
Proof.
  intros Hks. apply msum_remove_keys_agree. intros k Hk. unfold contrib, weigh.
  destruct (D !! k); [|done]. by rewrite decide_True by auto.
Qed.

Lemma weigh_remove_other o o' w D ks :
  o' ≠ o → (∀ k, k ∈ ks → owner k = Some o) →
  msum (weigh o' w) (remove_keys ks D) = msum (weigh o' w) D.
Proof.
  intros Hne Hks.
  assert (msum (weigh o' w) D - msum (weigh o' w) (remove_keys ks D)
          = msum (λ _ _, 0) D - msum (λ _ _, 0) (remove_keys ks D)) as H.
  { apply msum_remove_keys_agree. intros k Hk%Hks. unfold contrib, weigh.
    destruct (D !! k); [|done]. rewrite decide_False; [done|]. congruence. }
  rewrite !(msum_zero (λ _ _, 0)) in H by done. lia.
Qed.

(** An owner without entries weighs nothing. *)
Lemma weigh_none o w D : (∀ k a, D !! k = Some a → owner k ≠ Some o) → msum (weigh o w) D = 0.
Proof. intros H. apply msum_zero. intros k a Hk. unfold weigh. rewrite decide_False; eauto. Qed.

Lemma weigh_insert_other o w D k a :
  owner k ≠ Some o → msum (weigh o w) (<[k:=a]> D) = msum (weigh o w) D.
Proof.
  intros Ho. rewrite msum_insert. unfold contrib, weigh.
  destruct (D !! k); rewrite !decide_False by done; lia.
Qed.

Lemma weigh_insert_own o w D k a :
  owner k = Some o →
  msum (weigh o w) (<[k:=a]> D) = msum (weigh o w) D - match D !! k with Some a => w a | None => 0 end + w a.
Proof.
  intros Ho. rewrite msum_insert. unfold contrib, weigh.
  destruct (D !! k); rewrite !decide_True by done; lia.
Qed.
End WeighRemove.

Section Owned.
Context `{!Redb}.
Implicit Types t : Table.

(** One owner's entries. *)
Definition owned {A} (o : string) (m : gmap string A) : gmap string A :=
  filter (λ kv, owner kv.1 = Some o) m.

Lemma owned_lookup_Some {A} o (m : gmap string A) k a :
  owned o m !! k = Some a ↔ m !! k = Some a ∧ owner k = Some o.
Proof. apply map_lookup_filter_Some. Qed.

Lemma range_owned t o :
  no_char ":" o →
  tbl_range t (o +:+ ":") (o +:+ ";") ≡ₚ map_to_list (owned o (contents t)).
Proof.
  intros Ho. rewrite tbl_range_iter. apply NoDup_Permutation.
  - apply NoDup_filter, (NoDup_fmap_1 fst), tbl_iter_nodup.
  - apply NoDup_map_to_list.
  - intros [k v]. rewrite list_elem_of_filter, elem_of_map_to_list, owned_lookup_Some.
    rewrite contents_lookup, tbl_iter_get. simpl. rewrite range_owner by done. tauto.
Qed.

Lemma decoded_remove_all {A} `{!Serde A} t ks :
  decoded (foldl tbl_remove t ks) = remove_keys ks (decoded t : gmap string A).
Proof.
  apply map_eq. intros k. apply option_eq. intros a.
  rewrite decoded_lookup, get_remove_all, remove_keys_Some, decoded_lookup.
  case_decide; simpl; [|tauto]. split; [done|tauto].
Qed.

Context {S E : Type}.

Lemma wp_remove_all i0 e t ks (Q : E + Table → S → io → Prop) s i :
  io_step i0 i →
  (∀ i', io_step i0 i' → Q (inr (foldl tbl_remove t ks)) s i') →
  (¬ quiet i0 → ∀ i', io_step i0 i' → Q (inl e) s i') →
  wp (txn_remove_all e t ks) Q s i.
Proof. by apply wp_scan. Qed.
End Owned.

(** Runs the calls of a transaction; [tac] closes the failures. *)
Ltac wp_txn tac :=
  unfold begin_txn, open_table, commit, txn_get, txn_insert, txn_remove, txn_iter, txn_range;
  repeat first [wp_step | wp_io tac].

(** ** Concrete instances, for the witnesses *)

#[refine] Definition gmap_redb : Redb := {|
  Table := gmap string bytes;
  tbl_empty := ∅;
  tbl_get t k := t !! k;
  tbl_insert t k v := <[k:=v]> t;
  tbl_remove t k := delete k t;
  tbl_iter t := map_to_list t;
  tbl_range t lo hi := filter (λ kv, str_le lo kv.1 ∧ str_lt kv.1 hi) (map_to_list t);
|}.
Proof.
  - intros k. apply lookup_empty.
  - intros t k v k'. apply lookup_insert.
  - intros t k k'. apply lookup_delete.
  - intros t. apply NoDup_fst_map_to_list.
  - intros t k v. apply elem_of_map_to_list.
  - done.
Defined.

Fixpoint pos_to_bytes (p : positive) : bytes :=
  match p with
  | xH => []
  | xO p => Byte.x00 :: pos_to_bytes p
  | xI p => Byte.x01 :: pos_to_bytes p
  end.

Fixpoint pos_of_bytes (b : bytes) : option positive :=
  match b with
  | [] => Some xH
  | Byte.x00 :: b => xO <$> pos_of_bytes b
  | Byte.x01 :: b => xI <$> pos_of_bytes b
  | _ => None
  end.

Lemma pos_of_to_bytes p : pos_of_bytes (pos_to_bytes p) = Some p.
Proof. induction p as [p IH|p IH|]; simpl; [by rewrite IH..|done]. Qed.

(** A codec for every countable type. *)
#[refine] Definition serde_countable (A : Type) `{Countable A} : Serde A := {|
  to_vec a := pos_to_bytes (encode a);
  from_slice b := pos_of_bytes b ≫= decode;
|}.
Proof. intros a. rewrite pos_of_to_bytes. apply decode_encode. Defined.
