(* ===== verification/RustStd.v ===== *)
(** What the relay uses of Rust's standard library on strings and numbers:
    decimal printing ([Display for u32]/[u64]), [str::parse::<u64>],
    [str::trim], [strip_prefix], [starts_with].  A string is its UTF-8 bytes, so
    [trim] looks for the encodings of the Unicode white space characters. *)
From Stdlib Require Import ZArith Lia Ascii String.
From stdpp Require Import base gmap strings list pretty.
From S2P Require Import Prelude.

(** ** Decimal numbers *)

(** [format!("{z}")] for an unsigned [z]. *)
Definition dec (z : Z) : string := pretty (Z.to_N z).

Definition digit_val (c : ascii) : Z := Z.of_N (N_of_ascii c) - 48.

Definition is_digit (c : ascii) : bool := (0 <=? digit_val c) && (digit_val c <=? 9).

(** The digit loop of [u64::from_str_radix(s, 10)], with its overflow check. *)
Fixpoint parse_digits (acc : Z) (s : string) : option Z :=
  match s with
  | EmptyString => Some acc
  | String c r =>
      if is_digit c then
        let acc' := acc * 10 + digit_val c in
        if acc' <=? u64_max then parse_digits acc' r else None
      else None
  end.

(** [s.parse::<u64>().ok()]: an optional [+], then at least one digit. *)
Definition parse_u64 (s : string) : option Z :=
  match s with
  | EmptyString => None
  | String c r =>
      if decide (c = "+"%char) then
        match r with EmptyString => None | _ => parse_digits 0 r end
      else parse_digits 0 s
  end.

Lemma pretty_char_val x :
  (x < 10)%N → is_digit (pretty_N_char x) = true ∧ digit_val (pretty_N_char x) = Z.of_N x.
Proof.
  intros Hx. assert (x ∈ [0; 1; 2; 3; 4; 5; 6; 7; 8; 9]%N) as H.
  { rewrite !elem_of_cons. lia. }
  rewrite !elem_of_cons, elem_of_nil in H. by destruct_or! H; subst.
Qed.

Lemma pretty_go_digits x s :
  str_forallb is_digit s = true → str_forallb is_digit (pretty_N_go x s) = true.
Proof.
  revert s. induction (N.lt_wf_0 x) as [x _ IH]. intros s Hs.
  destruct (decide (x = 0)%N) as [->|Hx]; [by rewrite pretty_N_go_0|].
  rewrite pretty_N_go_step by lia. apply IH; [by apply N.div_lt; lia|].
  simpl. rewrite Hs. destruct (pretty_char_val (x mod 10)) as [-> _]; [|done].
  by apply N.mod_lt.
Qed.

Lemma dec_digits z : str_forallb is_digit (dec z) = true.
Proof.
  unfold dec, pretty, pretty_N. case_decide; [done|]. by apply pretty_go_digits.
Qed.

Lemma dec_no_colon z : no_char ":" (dec z).
Proof. apply (str_forallb_no_char is_digit); [done|]. apply dec_digits. Qed.

Lemma dec_inj y z : 0 ≤ y → 0 ≤ z → dec y = dec z → y = z.
Proof. unfold dec. intros Hy Hz H%pretty_N_inj. lia. Qed.

Lemma parse_pretty_go x s :
  Z.of_N x ≤ u64_max → parse_digits 0 (pretty_N_go x s) = parse_digits (Z.of_N x) s.
Proof.
  revert s. induction (N.lt_wf_0 x) as [x _ IH]. intros s Hx.
  destruct (decide (x = 0)%N) as [->|H0]; [by rewrite pretty_N_go_0|].
  rewrite pretty_N_go_step by lia.
  assert (x / 10 < x)%N by (apply N.div_lt; lia).
  rewrite IH by lia. simpl.
  destruct (pretty_char_val (x mod 10)) as [-> Hd]; [by apply N.mod_lt|].
  rewrite Hd. pose proof (N.div_mod x 10).
  replace (Z.of_N (x / 10) * 10 + Z.of_N (x mod 10)) with (Z.of_N x) by lia.
  by destruct (Z.leb_spec (Z.of_N x) u64_max); [|lia].
Qed.

Lemma parse_digits_dec z : is_u64 z → parse_digits 0 (dec z) = Some z.
Proof.
  intros [H1 H2]. unfold dec, pretty, pretty_N. case_decide as Hz.
  - replace z with 0 by lia. done.
  - rewrite parse_pretty_go by lia. simpl. f_equal. lia.
Qed.

(** Printing then parsing a [u64] gives it back. *)
Lemma parse_dec z : is_u64 z → parse_u64 (dec z) = Some z.
Proof.
  intros Hz. pose proof (parse_digits_dec z Hz) as Hp. pose proof (dec_digits z) as Hd.
  unfold parse_u64. destruct (dec z) as [|c r] eqn:E.
  - exfalso. revert E. unfold dec, pretty, pretty_N. case_decide as Hz0; [done|].
    intros E.
    assert (parse_digits 0 (pretty_N_go (Z.to_N z) "") = Some z) as Hq.
    { destruct Hz. rewrite parse_pretty_go by lia. simpl. f_equal. lia. }
    rewrite E in Hq. simpl in Hq. by simplify_eq.
  - rewrite decide_False; [done|]. intros ->. done.
Qed.

Lemma parse_digits_range acc s z :
  0 ≤ acc ≤ u64_max → parse_digits acc s = Some z → is_u64 z.
Proof.
  revert acc. induction s as [|c s IH]; simpl; intros acc Ha H; [by simplify_eq|].
  destruct (is_digit c) eqn:Hc; [|done].
  destruct (Z.leb_spec (acc * 10 + digit_val c) u64_max); [|done].
  eapply IH; [|done]. unfold is_digit in Hc. lia.
Qed.

Lemma parse_u64_range s z : parse_u64 s = Some z → is_u64 z.
Proof.
  assert (0 ≤ 0 ≤ u64_max) by (unfold u64_max; lia).
  unfold parse_u64. destruct s as [|c r]; [done|]. case_decide.
  - destruct r; [done|]. by apply parse_digits_range.
  - by apply parse_digits_range.
Qed.

(** ** Prefixes and white space *)

(** [str::strip_prefix]. *)
Fixpoint strip_prefix (p s : string) : option string :=
  match p, s with
  | EmptyString, _ => Some s
  | String a p', String b s' => if decide (a = b) then strip_prefix p' s' else None
  | _, EmptyString => None
  end.

Definition starts_with (p s : string) : bool := bool_decide (is_Some (strip_prefix p s)).

(** The UTF-8 encodings of the characters with the Unicode property
    [White_Space], which [str::trim] removes. *)
Definition whitespace : list string :=
  let utf8 (l : list nat) := string_of_list_ascii (ascii_of_nat <$> l) in
  utf8 <$> [[9]; [10]; [11]; [12]; [13]; [32]; [194; 133]; [194; 160]; [225; 154; 128];
            [226; 128; 128]; [226; 128; 129]; [226; 128; 130]; [226; 128; 131]; [226; 128; 132];
            [226; 128; 133]; [226; 128; 134]; [226; 128; 135]; [226; 128; 136]; [226; 128; 137];
            [226; 128; 138]; [226; 128; 168]; [226; 128; 169]; [226; 128; 175]; [226; 129; 159];
            [227; 128; 128]]%nat.

(** The first pattern that [s] starts with, removed. *)
Fixpoint strip_any (ps : list string) (s : string) : option string :=
  match ps with
  | [] => None
  | p :: ps' => match strip_prefix p s with Some r => Some r | None => strip_any ps' s end
  end.

(** Each round removes at least one byte, so the length is enough fuel. *)
Fixpoint trim_fuel (fuel : nat) (ps : list string) (s : string) : string :=
  match fuel with
  | O => s
  | S fuel' => match strip_any ps s with Some r => trim_fuel fuel' ps r | None => s end
  end.

Definition str_rev (s : string) : string :=
  string_of_list_ascii (rev (list_ascii_of_string s)).

Definition trim_start (s : string) : string := trim_fuel (String.length s) whitespace s.

Definition trim_end (s : string) : string :=
  str_rev (trim_fuel (String.length s) (str_rev <$> whitespace) (str_rev s)).

Definition trim (s : string) : string := trim_end (trim_start s).

Lemma strip_prefix_length p s r :
  strip_prefix p s = Some r → String.length s = (String.length p + String.length r)%nat.
Proof.
  revert s. induction p as [|a p IH]; intros [|b s]; simpl; intros; simplify_eq; try done.
  case_decide; [|done]. by rewrite (IH s).
Qed.

Lemma strip_any_shorter ps s r :
  Forall (λ p, p ≠ EmptyString) ps → strip_any ps s = Some r →
  (String.length r < String.length s)%nat.
Proof.
  induction 1 as [|p ps Hp _ IH]; simpl; [done|].
  destruct (strip_prefix p s) eqn:E; [|done]. intros [= <-].
  apply strip_prefix_length in E. destruct p; simpl in E; [done|lia].
Qed.

(** Enough fuel: what [trim_fuel] leaves starts with none of the patterns. *)
Lemma trim_fuel_done fuel ps s :
  Forall (λ p, p ≠ EmptyString) ps → (String.length s ≤ fuel)%nat →
  strip_any ps (trim_fuel fuel ps s) = None.
Proof.
  intros Hps. revert s. induction fuel as [|fuel IH]; intros s Hs; simpl.
  - destruct (strip_any ps s) eqn:E; [|done]. apply strip_any_shorter in E; [lia|done].
  - destruct (strip_any ps s) as [r|] eqn:E; [|done].
    apply IH. apply strip_any_shorter in E; [lia|done].
Qed.

Example trim_ex : trim "  12	 " = "12"%string.
Proof. vm_compute. reflexivity. Qed.
