(* ===== verification/Config.v ===== *)
(** [config.rs]: the relay's limits, and the operator's file-transfer limits
    read from the environment. *)
From Stdlib Require Import ZArith Lia Ascii String.
From stdpp Require Import base strings list.
From S2P Require Import Prelude RustStd.

(** ** Constants *)

Definition MAX_QUEUE_PER_RECIPIENT : Z := 500.
Definition MAX_FRAME_BYTES : Z := 512 * 1024.
Definition PER_MAILBOX_QUEUE_BYTES : Z := 8 * 1024 * 1024.
Definition GLOBAL_QUEUE_DISK_CAP_BYTES : Z := 4 * 1024 * 1024 * 1024.
Definition QUEUE_TTL_MS : Z := 14 * 24 * 60 * 60 * 1000.
Definition PROTOCOL_MIN_SUPPORTED : Z := 4.
Definition PROTOCOL_VERSION : Z := 7.
Definition SENDER_CERT_TTL_MS : Z := 24 * 60 * 60 * 1000.
Definition RATE_WINDOW_MS : Z := 60 * 1000.
Definition MAX_FRAMES_PER_WINDOW : Z := 600.
Definition MAX_MAILBOXES : Z := 50000.
Definition MAX_DELIVERY_TOKENS_PER_MAILBOX : nat := 64.
Definition MAX_BUNDLES : Z := 50000.
Definition MAX_BUNDLE_BYTES : Z := 16 * 1024.
Definition MAX_TOTAL_BUNDLE_BYTES : Z := 64 * 1024 * 1024.
Definition MAX_BUNDLE_TTL_MS : Z := 30 * 24 * 60 * 60 * 1000.
Definition MAX_SENDS_PER_DEST_PER_WINDOW : Z := 120.
Definition POW_LEADING_ZERO_BITS : Z := 22.
Definition MAILBOX_IDLE_TTL_MS : Z := 30 * 24 * 60 * 60 * 1000.
Definition MAILBOX_ACTIVITY_GRANULARITY_MS : Z := 24 * 60 * 60 * 1000.
Definition MAX_CONNECTIONS : Z := 16384.
Definition BUNDLE_PRUNE_MIN_INTERVAL_MS : Z := 30 * 1000.
Definition DEFAULT_MAX_FILE_MIB : Z := 32.
Definition DEFAULT_MAX_TOTAL_FILE_MIB : Z := 8 * 1024.
Definition DEFAULT_FILE_TTL_HOURS : Z := 7 * 24.
Definition DEFAULT_MAX_FILE_TRANSFERS : Z := 50000.
Definition MIN_FILE_CHUNK_BYTES : Z := 16 * 1024.
Definition INCOMPLETE_FILE_TTL_MS : Z := 60 * 60 * 1000.

(** ** The file-transfer limits *)

Record FileConfig := {
  max_file_bytes : Z;
  max_total_file_bytes : Z;
  file_ttl_ms : Z;
  max_transfers : Z;
  max_chunks : Z;
}.

(** The process environment: [None] is a variable [std::env::var] refuses. *)
Abbreviation environment := (string → option string).

Definition env_u64 (env : environment) (key : string) (default : Z) : Z :=
  match env key with
  | Some v =>
      match parse_u64 (trim v) with
      | Some n => if 0 <? n then n else default
      | None => default
      end
  | None => default
  end.

(** [u64::div_ceil]. *)
Definition div_ceil (a b : Z) : Z := if a mod b =? 0 then a / b else a / b + 1.

Definition from_env (env : environment) : FileConfig :=
  let max_file_bytes := sat_mul (env_u64 env "AXENO_MAX_FILE_MIB" DEFAULT_MAX_FILE_MIB) (1024 * 1024) in
  let max_total_file_bytes :=
    Z.max (sat_mul (env_u64 env "AXENO_MAX_TOTAL_FILE_MIB" DEFAULT_MAX_TOTAL_FILE_MIB) (1024 * 1024))
          max_file_bytes in
  let file_ttl_ms := sat_mul (env_u64 env "AXENO_FILE_TTL_HOURS" DEFAULT_FILE_TTL_HOURS) (60 * 60 * 1000) in
  let max_transfers := env_u64 env "AXENO_MAX_FILE_TRANSFERS" DEFAULT_MAX_FILE_TRANSFERS in
  let max_chunks := wrap32 (Z.max 1 (Z.min (div_ceil max_file_bytes MIN_FILE_CHUNK_BYTES) u32_max)) in
  {| max_file_bytes := max_file_bytes;
     max_total_file_bytes := max_total_file_bytes;
     file_ttl_ms := file_ttl_ms;
     max_transfers := max_transfers;
     max_chunks := max_chunks |}.

(** ** What any environment gives *)

(** What the stores need of their limits. *)
Record config_ok (c : FileConfig) : Prop := {
  ok_file : 0 < max_file_bytes c ≤ u64_max;
  ok_total : max_file_bytes c ≤ max_total_file_bytes c ≤ u64_max;
  ok_ttl : 0 < file_ttl_ms c ≤ u64_max;
  ok_transfers : 0 < max_transfers c ≤ u64_max;
  ok_chunks : 0 < max_chunks c ≤ u32_max;
}.

Lemma env_u64_range env key d : 0 < d ≤ u64_max → 0 < env_u64 env key d ≤ u64_max.
Proof.
  intros Hd. unfold env_u64. destruct (env key) as [v|]; [|done].
  destruct (parse_u64 (trim v)) as [n|] eqn:E; [|done].
  apply parse_u64_range in E as [? ?]. destruct (Z.ltb_spec 0 n); lia.
Qed.

Lemma sat_mul_pos a b : 0 < a → 0 < b → 0 < sat_mul a b ≤ u64_max.
Proof. unfold sat_mul, u64_max. nia. Qed.

Lemma div_ceil_spec a b : 0 ≤ a → 0 < b → (div_ceil a b - 1) * b < a ≤ div_ceil a b * b.
Proof.
  intros Ha Hb. unfold div_ceil. pose proof (Z.div_mod a b). pose proof (Z.mod_pos_bound a b).
  destruct (Z.eqb_spec (a mod b) 0); nia.
Qed.

Lemma max_chunks_eq env :
  max_chunks (from_env env)
  = Z.max 1 (Z.min (div_ceil (max_file_bytes (from_env env)) MIN_FILE_CHUNK_BYTES) u32_max).
Proof. simpl. apply wrap32_small. unfold u32_max. lia. Qed.

Lemma from_env_ok env : config_ok (from_env env).
Proof.
  assert (∀ k d m, 0 < d ≤ u64_max → 0 < m → 0 < sat_mul (env_u64 env k d) m ≤ u64_max) as H.
  { intros k d m Hd Hm. apply sat_mul_pos; [|done]. by apply env_u64_range. }
  split; try rewrite max_chunks_eq; simpl;
    repeat match goal with
           | |- context [sat_mul (env_u64 env ?k ?d) ?m] =>
               let z := fresh in let Hz := fresh in
               assert (0 < sat_mul (env_u64 env k d) m ≤ u64_max) as Hz
                 by (apply H; unfold u64_max; vm_compute; split; congruence);
               revert Hz; generalize (sat_mul (env_u64 env k d) m); intros z Hz
           end; try (unfold u32_max; lia).
  apply env_u64_range. unfold u64_max. vm_compute. split; congruence.
Qed.
