(* ===== verification/Util.v ===== *)
(** [util.rs]: time, hashing, input validation and proof of work, and what they
    guarantee.

    SHA-256 and hex encoding are third-party ([Hashing]); the atomic counter is
    the value it holds, and the retry loop around it is its effect, which [Atomics]
    justifies. *)
From Stdlib Require Import ZArith Lia Ascii String Strings.Byte.
From stdpp Require Import base strings list.
From S2P Require Import Prelude RustStd Config.

(** [sha2::Sha256::digest] and [hex::encode]. *)
Class Hashing := {
  sha256 : bytes → bytes;
  hex_encode : bytes → string;
  sha256_length : ∀ b, length (sha256 b) = 32%nat;
  hex_encode_length : ∀ b, String.length (hex_encode b) = (2 * length b)%nat;
}.

(** ** Time *)

Section Time.
Context {S E : Type}.

Definition now_ms : M S E Z := t ← read_clock; mret (wrap64 t).

Definition now_activity_ms : M S E Z :=
  now ← now_ms; mret (now - now mod MAILBOX_ACTIVITY_GRANULARITY_MS).

(** [.as_secs()] of a reading. *)
Definition now_secs : M S E Z := t ← read_clock; mret (wrap64 (t / 1000)).

Lemma wp_now_ms (Q : E + Z → S → io → Prop) s i :
  Q (inr (wrap64 (clock_reading i))) s (clock_tick i) → wp now_ms Q s i.
Proof. intros H. unfold now_ms. by wp_steps. Qed.
End Time.

(** The time the next [now_ms()] returns. *)
Abbreviation next_now i := (wrap64 (clock_reading i)).

(** ** Hashes and comparison *)

Definition byte_val (b : byte) : Z := Z.of_N (Byte.to_N b).

Definition as_bytes (s : string) : bytes := list_byte_of_string s.

Definition token_hash `{!Hashing} (token : string) : string := hex_encode (sha256 (as_bytes token)).

Definition str_vals (s : string) : list Z :=
  (λ c, Z.of_N (N_of_ascii c)) <$> list_ascii_of_string s.

Definition ct_eq (a b : string) : bool :=
  if slen a =? slen b then
    foldl (λ acc '(x, y), Z.lor acc (Z.lxor x y)) 0 (zip (str_vals a) (str_vals b)) =? 0
  else false.

(** [AtomicUsize], decreased without going below zero. *)
Definition atomic_sub_saturating (counter val : Z) : Z := counter -^ val.

(** ** Identifiers and tokens *)

Definition ascii_between (lo hi c : ascii) : bool :=
  (N_of_ascii lo <=? N_of_ascii c)%N && (N_of_ascii c <=? N_of_ascii hi)%N.

Definition id_char (c : ascii) : bool :=
  ascii_between "0" "9" c || ascii_between "A" "Z" c || ascii_between "a" "z" c
  || bool_decide (c = "-"%char) || bool_decide (c = "_"%char).

Definition valid_recipient_id (id : string) : bool :=
  starts_with "mbx_" id && ((36 <=? slen id) && (slen id <=? 128)) && str_forallb id_char id.

Definition valid_bundle_id (id : string) : bool :=
  ((16 <=? slen id) && (slen id <=? 128)) && str_forallb id_char id.

Definition valid_token (token : string) : bool :=
  ((16 <=? slen token) && (slen token <=? 128)) && str_forallb id_char token.

(** ** Proof of work *)

Fixpoint pow_hash_loop (bits : Z) (hash : bytes) : bool :=
  match hash with
  | [] => true
  | b :: r =>
      if bits =? 0 then true
      else if 8 <=? bits then
        if negb (byte_val b =? 0) then false else pow_hash_loop (bits - 8) r
      else Z.shiftr (byte_val b) (8 - bits) =? 0
  end.

Definition pow_hash_ok (hash : bytes) : bool := pow_hash_loop POW_LEADING_ZERO_BITS hash.

(** The string that is hashed. *)
Definition pow_input (recipient_id : string) (ts_window : Z) (nonce_part : string) : string :=
  recipient_id +:+ ":" +:+ dec ts_window +:+ ":" +:+ nonce_part.

Definition verify_pow `{!Hashing} {S E} (recipient_id nonce : string) : M S E bool :=
  secs ← now_secs;
  let current_window := secs / 600 in
  mret match split_once ":" nonce with
       | Some (ts_str, nonce_part) =>
           match parse_u64 ts_str with
           | Some ts_window =>
               if negb (ts_window =? current_window)
                  && negb (ts_window =? current_window -^ 1)
               then false
               else pow_hash_ok (sha256 (as_bytes (pow_input recipient_id ts_window nonce_part)))
           | None => false
           end
       | None => false
       end.

(** ** Facts *)

Lemma byte_val_range b : 0 ≤ byte_val b < 256.
Proof. unfold byte_val. pose proof (Byte.to_N_bounded b). lia. Qed.

Lemma lor_zero a b : Z.lor a b = 0 ↔ a = 0 ∧ b = 0.
Proof. apply Z.lor_eq_0_iff. Qed.

Lemma ct_fold_zero l acc :
  foldl (λ acc '(x, y), Z.lor acc (Z.lxor x y)) acc l = 0
  ↔ acc = 0 ∧ Forall (λ xy : Z * Z, xy.1 = xy.2) l.
Proof.
  revert acc. induction l as [|[x y] l IH]; intros acc; simpl.
  - rewrite Forall_nil. tauto.
  - rewrite IH, lor_zero, Z.lxor_eq_0_iff, Forall_cons. simpl. tauto.
Qed.

Lemma str_vals_inj a b : str_vals a = str_vals b → a = b.
Proof.
  unfold str_vals. intros H. rewrite <- (string_of_list_ascii_of_string a),
    <- (string_of_list_ascii_of_string b). f_equal.
  revert H. generalize (list_ascii_of_string a), (list_ascii_of_string b).
  induction l as [|x l IH]; intros [|y k]; simpl; intros H; simplify_eq/=; [done|].
  f_equal; [|auto]. rewrite <- (ascii_N_embedding x), <- (ascii_N_embedding y). f_equal. lia.
Qed.

Lemma zip_Forall_eq (l k : list Z) :
  length l = length k → Forall (λ xy : Z * Z, xy.1 = xy.2) (zip l k) → l = k.
Proof.
  revert k. induction l as [|x l IH]; intros [|y k]; simpl; intros Hl H; try done.
  apply Forall_cons in H as [Hxy H]. simpl in Hxy. f_equal; [done|]. apply IH; [lia|done].
Qed.

Lemma str_vals_length s : length (str_vals s) = String.length s.
Proof. unfold str_vals. rewrite length_fmap. by induction s; simpl; f_equal. Qed.

(** The branch-free comparison decides equality. *)
Lemma ct_eq_true a b : ct_eq a b = true ↔ a = b.
Proof.
  unfold ct_eq, slen. destruct (Z.eqb_spec (Z.of_nat (String.length a)) (Z.of_nat (String.length b))) as [Hl|Hl].
  - rewrite Z.eqb_eq, ct_fold_zero. split.
    + intros [_ H]. apply str_vals_inj, zip_Forall_eq; [|done].
      rewrite !str_vals_length. lia.
    + intros ->. split; [done|]. induction (str_vals b); simpl; by constructor.
  - split; [done|]. by intros ->.
Qed.

Lemma ct_eq_false a b : ct_eq a b = false ↔ a ≠ b.
Proof. rewrite <- not_true_iff_false, ct_eq_true. done. Qed.

Lemma id_char_no_colon id : str_forallb id_char id = true → no_char ":" id.
Proof. by apply str_forallb_no_char. Qed.

Lemma valid_recipient_no_colon id : valid_recipient_id id = true → no_char ":" id.
Proof. intros [_ H]%andb_prop. by apply id_char_no_colon. Qed.

Lemma valid_bundle_no_colon id : valid_bundle_id id = true → no_char ":" id.
Proof. intros [_ H]%andb_prop. by apply id_char_no_colon. Qed.

Lemma token_hash_nonempty `{!Hashing} t : token_hash t ≠ EmptyString.
Proof.
  unfold token_hash. intros Ht%(f_equal String.length).
  by rewrite hex_encode_length, sha256_length in Ht.
Qed.

(** A digest as the number its bytes write in base 256. *)
Fixpoint be_value (b : bytes) : Z :=
  match b with
  | [] => 0
  | x :: r => byte_val x * 256 ^ blen r + be_value r
  end.

Lemma blen_cons x r : blen (x :: r) = blen r + 1.
Proof. unfold blen. simpl. lia. Qed.

Lemma be_value_range b : 0 ≤ be_value b < 256 ^ blen b.
Proof.
  induction b as [|x r IH]; [done|]. rewrite blen_cons. simpl.
  pose proof (byte_val_range x). pose proof (blen_nonneg r).
  rewrite Z.pow_add_r by lia. nia.
Qed.

(** The first byte after the whole zero bytes. *)
Lemma pow_last_byte bits x r :
  0 < bits < 8 →
  Z.shiftr (byte_val x) (8 - bits) = 0 ↔ be_value (x :: r) < 2 ^ (8 * blen (x :: r) - bits).
Proof.
  intros Hb. pose proof (byte_val_range x). pose proof (blen_nonneg r).
  pose proof (be_value_range r). rewrite blen_cons. simpl.
  rewrite Z.shiftr_div_pow2 by lia.
  replace (8 * (blen r + 1) - bits) with ((8 - bits) + 8 * blen r) by lia.
  rewrite Z.pow_add_r by lia.
  replace (2 ^ (8 * blen r)) with (256 ^ blen r) by (change 256 with (2 ^ 8); by rewrite <- Z.pow_mul_r by lia).
  assert (0 < 2 ^ (8 - bits)) by (apply Z.pow_pos_nonneg; lia).
  rewrite Z.div_small_iff by lia. nia.
Qed.

Lemma pow_hash_loop_spec bits b :
  0 ≤ bits ≤ 8 * blen b →
  pow_hash_loop bits b = true ↔ be_value b < 2 ^ (8 * blen b - bits).
Proof.
  revert bits. induction b as [|x r IH]; intros bits Hb.
  - change (blen []) with 0 in *. replace bits with 0 by lia. done.
  - pose proof (be_value_range (x :: r)) as Hv. pose proof (byte_val_range x).
    pose proof (blen_nonneg r). cbn [pow_hash_loop].
    destruct (Z.eqb_spec bits 0) as [->|].
    { split; [intros _|done].
      rewrite Z.sub_0_r, Z.pow_mul_r by lia. change (2 ^ 8) with 256. lia. }
    destruct (Z.leb_spec 8 bits); [|rewrite Z.eqb_eq; apply pow_last_byte; lia].
    rewrite blen_cons in *. cbn [be_value] in *.
    replace (8 * (blen r + 1) - bits) with (8 * blen r - (bits - 8)) by lia.
    destruct (Z.eqb_spec (byte_val x) 0) as [->|Hx]; simpl.
    + by rewrite IH by lia.
    + split; [done|]. intros Hlt. exfalso.
      assert (2 ^ (8 * blen r - (bits - 8)) ≤ 2 ^ (8 * blen r)) by (apply Z.pow_le_mono_r; lia).
      rewrite (Z.pow_mul_r 2 8) in * by lia. change (2 ^ 8) with 256 in *.
      pose proof (be_value_range r). nia.
Qed.

(** What [config.rs] and [util.rs] guarantee: every environment gives usable
    limits, and the proof of work is a bound on a digest. *)

(** A concrete [Hashing]: the digest is the input backwards, cut or filled to 32
    bytes; the hex digits are two letters a byte. *)
Fixpoint letters (b : bytes) : string :=
  match b with
  | [] => EmptyString
  | x :: r => String (ascii_of_byte x) (String "." (letters r))
  end.

#[refine] Definition demo_hashing : Hashing := {|
  sha256 b := take 32 (rev b ++ replicate 32 Byte.x00);
  hex_encode := letters;
|}.
Proof.
  - intros b. rewrite length_take, length_app, length_replicate. lia.
  - induction b as [|x r IH]; simpl; [done|]. rewrite IH. lia.
Defined.

(** Whatever the environment holds (unset, unreadable, zero, not a number, over the range
    of u64), the file limits are positive, the total cap is at least one file, and the number of
    chunks is that of a largest file cut into the smallest chunks, at least one. *)
Theorem any_environment_is_usable env :
  config_ok (from_env env)
  ∧ max_chunks (from_env env)
    = Z.max 1 (Z.min (div_ceil (max_file_bytes (from_env env)) MIN_FILE_CHUNK_BYTES) u32_max).
Proof. split; [apply from_env_ok|apply max_chunks_eq]. Qed.

(** A proof of work is accepted exactly when its nonce is a decimal window (the current one
    or the one before) and a rest, and the digest of id, window and rest, read as a 256-bit
    number, is below 2^234. *)
Theorem verify_pow_is_a_digest_bound `{!Hashing} {S E} rid nonce (s : S) i :
  wp (E := E) (verify_pow rid nonce) (λ r s' i', s' = s ∧ i' = clock_tick i ∧ ∃ b, r = inr b ∧
    (b = true ↔ ∃ ts window rest, nonce = ts +:+ ":" +:+ rest ∧ no_char ":" ts ∧ parse_u64 ts = Some window
       ∧ (window = wrap64 (clock_reading i / 1000) / 600
          ∨ window = wrap64 (clock_reading i / 1000) / 600 -^ 1)
       ∧ be_value (sha256 (as_bytes (pow_input rid window rest))) < 2 ^ 234)) s i.
Proof.
  unfold verify_pow, now_secs. wp_steps. cbv zeta. split_and!; [done..|]. eexists. split; [done|].
  set (cur := wrap64 (clock_reading i / 1000) / 600).
  assert (∀ a b, no_char ":" a → split_once ":" (a +:+ ":" +:+ b) = Some (a, b)) as Happ
    by exact (split_once_app ":").
  destruct (split_once ":" nonce) as [[ts rest]|] eqn:Hs.
  2:{ split; [done|]. intros (ts & w & rest & -> & Hts & _). by rewrite (Happ ts rest Hts) in Hs. }
  apply split_once_Some in Hs as [-> Hts].
  assert (∀ ts', no_char ":" ts' → ∀ rest', ts +:+ ":" +:+ rest = ts' +:+ ":" +:+ rest' → ts' = ts ∧ rest' = rest) as Hinj.
  { intros ts' Hts' rest' Heq. pose proof (Happ ts rest Hts) as H1.
    rewrite Heq, (Happ ts' rest' Hts') in H1. by simplify_eq. }
  destruct (parse_u64 ts) as [w|] eqn:Hp.
  2:{ split; [done|]. intros (ts' & w & rest' & Heq & Hts' & Hp' & _). apply Hinj in Heq as [-> _]; [congruence|done]. }
  pose proof (pow_hash_loop_spec POW_LEADING_ZERO_BITS (sha256 (as_bytes (pow_input rid w rest)))) as Hspec.
  unfold blen in Hspec. rewrite sha256_length in Hspec. specialize (Hspec ltac:(unfold POW_LEADING_ZERO_BITS; lia)).
  change (8 * Z.of_nat 32 - POW_LEADING_ZERO_BITS) with 234 in Hspec. unfold pow_hash_ok.
  destruct (negb (w =? cur) && negb (w =? cur -^ 1)) eqn:Hw.
  - split; [done|]. apply andb_prop in Hw as [H1%negb_true_iff%Z.eqb_neq H2%negb_true_iff%Z.eqb_neq].
    intros (ts' & w' & rest' & Heq & Hts' & Hp' & Hw' & _). apply Hinj in Heq as [-> _]; [|done].
    rewrite Hp in Hp'. injection Hp' as <-. tauto.
  - rewrite Hspec. apply andb_false_iff in Hw. rewrite !negb_false_iff, !Z.eqb_eq in Hw. split.
    + intros Hlt. exists ts, w, rest. by split_and!.
    + intros (ts' & w' & rest' & Heq & Hts' & Hp' & _ & Hlt). apply Hinj in Heq as [-> ->]; [|done].
      by simplify_eq.
Qed.

(** A nonce whose digest is small, and one whose digest is not. *)
Definition demo_nonce : string := "0:" +:+ String "000" (String "000" (String "000" EmptyString)).

Example demo_nonce_ok :
  (verify_pow (H := demo_hashing) (E := ()) "id" demo_nonce () (Io [] [] [] [])).1.1 = inr true
  ∧ (verify_pow (H := demo_hashing) (E := ()) "id" "0:x" () (Io [] [] [] [])).1.1 = inr false.
Proof. split; vm_compute; reflexivity. Qed.
