(* ===== verification/Host.v ===== *)
(** The machine the relay runs on: its environment variables, its files and its
    random bytes, with the calls of [std::env], [std::fs] and [getrandom] that
    [persistence.rs], [main.rs], [update_check.rs] and [tor.rs] make; and what
    those files use of [str] besides [RustStd].

    A file is its bytes and the mode it was created with.  Every call may fail,
    by the script; a failed write leaves a prefix of its data, of a length that
    [torn] says.  Writing to a handle is writing to the path it was opened at. *)
From Stdlib Require Import ZArith Lia Ascii String.
From Stdlib Require Import Strings.Byte.
From stdpp Require Import base gmap strings list.
From S2P Require Import Prelude Redb RustStd Util.

(** ** Text *)

Definition is_cont (b : Z) : bool := (128 <=? b) && (b <=? 191).

Definition utf8_lead3 (a b : Z) : bool :=
  ((a =? 224) && ((160 <=? b) && (b <=? 191))) || (((225 <=? a) && (a <=? 236)) && is_cont b)
  || ((a =? 237) && ((128 <=? b) && (b <=? 159))) || (((238 <=? a) && (a <=? 239)) && is_cont b).

Definition utf8_lead4 (a b : Z) : bool :=
  ((a =? 240) && ((144 <=? b) && (b <=? 191))) || (((241 <=? a) && (a <=? 243)) && is_cont b)
  || ((a =? 244) && ((128 <=? b) && (b <=? 143))).

(** The check of [String::from_utf8]. *)
Fixpoint utf8_valid (l : list Z) : bool :=
  match l with
  | [] => true
  | a :: r =>
      if a <? 128 then utf8_valid r
      else match r with
           | [] => false
           | b :: r1 =>
               if (194 <=? a) && (a <=? 223) then is_cont b && utf8_valid r1
               else match r1 with
                    | [] => false
                    | c :: r2 =>
                        if utf8_lead3 a b then is_cont c && utf8_valid r2
                        else match r2 with
                             | [] => false
                             | d :: r3 => utf8_lead4 a b && is_cont c && is_cont d && utf8_valid r3
                             end
                    end
           end
  end.

Definition from_utf8 (b : bytes) : option string :=
  if utf8_valid (byte_val <$> b) then Some (string_of_list_byte b) else None.

(** [str::split_inclusive('\n')]: each piece, and whether a line feed ends it. *)
Fixpoint split_inclusive (s : string) : list (string * bool) :=
  match s with
  | EmptyString => []
  | String c r =>
      if decide (c = "010"%char) then (EmptyString, true) :: split_inclusive r
      else match split_inclusive r with
           | (p, b) :: rest => (String c p, b) :: rest
           | [] => [(String c EmptyString, false)]
           end
  end.

Definition ends_with (p s : string) : bool := starts_with (str_rev p) (str_rev s).

(** [str::strip_suffix]. *)
Definition strip_suffix (p s : string) : option string := str_rev <$> strip_prefix (str_rev p) (str_rev s).

(** [str::lines]. *)
Definition lines (s : string) : list string :=
  (λ '(p, ended), if (ended : bool) then default p (strip_suffix (String "013" EmptyString) p) else p)
  <$> split_inclusive s.

(** [&s[1 .. len - 1]], of a string of at least two bytes. *)
Definition inner (s : string) : string := String.substring 1 (String.length s - 2) s.

Definition to_ascii_lowercase (s : string) : string :=
  string_of_list_ascii ((λ c, if ascii_between "A" "Z" c then ascii_of_N (N_of_ascii c + 32) else c)
                        <$> list_ascii_of_string s).

(** [str::trim_start_matches(c)]. *)
Fixpoint trim_start_matches (c : ascii) (s : string) : string :=
  match s with
  | String x r => if decide (x = c) then trim_start_matches c r else s
  | EmptyString => EmptyString
  end.

(** [Path::join] with a relative name. *)
Definition join (dir name : string) : string :=
  if bool_decide (dir = EmptyString) || ends_with "/" dir then dir +:+ name else dir +:+ "/" +:+ name.

(** ** The machine *)

(** The value of an environment variable: [std::env::var] reads only Unicode,
    [var_os] sees any. *)
Inductive EnvValue := Unicode (s : string) | NotUnicode.

Record File := {
  content : bytes;
  mode : Z;
}.

Record Host := {
  environ : gmap string EnvValue;
  fs : gmap string File;
  random : list bytes;
  torn : list nat;
}.

Definition set_environ (e : gmap string EnvValue) (h : Host) : Host :=
  {| environ := e; fs := fs h; random := random h; torn := torn h |}.

Definition set_fs (f : gmap string File) (h : Host) : Host :=
  {| environ := environ h; fs := f; random := random h; torn := torn h |}.

Definition set_random (r : list bytes) (h : Host) : Host :=
  {| environ := environ h; fs := fs h; random := r; torn := torn h |}.

Definition set_torn (t : list nat) (h : Host) : Host :=
  {| environ := environ h; fs := fs h; random := random h; torn := t |}.

(** [std::env::var(key).ok()]. *)
Definition var (h : Host) (key : string) : option string :=
  match environ h !! key with Some (Unicode s) => Some s | _ => None end.

Section Calls.
Context {E : Type}.

(** [fs::read]: an error of the call, or no such file. *)
Definition fs_read (e : E) (path : string) : M Host E bytes :=
  _ ← io_call e;
  h ← get;
  match fs h !! path with Some f => mret (content f) | None => throw e end.

Definition read_to_string (e : E) (path : string) : M Host E string :=
  raw ← fs_read e path;
  match from_utf8 raw with Some s => mret s | None => throw e end.

(** [Path::exists]: [false] also when the call fails. *)
Definition path_exists (path : string) : M Host E bool :=
  r ← attempt (io_call tt);
  h ← get;
  mret (match r with inl _ => false | inr _ => bool_decide (is_Some (fs h !! path)) end).

(** [OpenOptions::new().write(true).create(true).truncate(true).mode(m).open]:
    the mode of a file that exists is kept. *)
Definition open_truncate (e : E) (m : Z) (path : string) : M Host E () :=
  _ ← io_call e;
  modify (λ h, set_fs (<[path := {| content := []; mode := match fs h !! path with Some f => mode f | None => m end |}]>
                         (fs h)) h).

(** [OpenOptions::new().write(true).create_new(true).mode(m).open]. *)
Definition create_new (e : E) (m : Z) (path : string) : M Host E () :=
  _ ← io_call e;
  h ← get;
  match fs h !! path with
  | Some _ => throw e
  | None => put (set_fs (<[path := {| content := []; mode := m |}]> (fs h)) h)
  end.

Definition append (path : string) (b : bytes) (h : Host) : Host :=
  set_fs (alter (λ f, {| content := content f ++ b; mode := mode f |}) path (fs h)) h.

(** [write_all]: an error leaves what was written before it. *)
Definition write_all (e : E) (path : string) (b : bytes) : M Host E () :=
  r ← attempt (io_call tt);
  match r with
  | inr _ => modify (append path b)
  | inl _ =>
      _ ← modify (λ h, set_torn (tl (torn h)) (append path (take (hd O (torn h)) b) h));
      throw e
  end.

Definition sync_all (e : E) : M Host E () := io_call e.

Definition rename (e : E) (from to : string) : M Host E () :=
  _ ← io_call e;
  h ← get;
  match fs h !! from with
  | Some f => put (set_fs (<[to := f]> (delete from (fs h))) h)
  | None => throw e
  end.

Definition remove_file (e : E) (path : string) : M Host E () :=
  _ ← io_call e;
  modify (λ h, set_fs (delete path (fs h)) h).

(** [getrandom] into a buffer of [n] bytes. *)
Definition getrandom (e : E) (n : nat) : M Host E bytes :=
  _ ← io_call e;
  h ← get;
  _ ← put (set_random (tl (random h)) h);
  mret (take n (hd [] (random h) ++ replicate n Byte.x00)).
End Calls.

(** ** Facts *)

Lemma utf8_valid_ascii l : Forall (λ a, a < 128) l → utf8_valid l = true.
Proof. induction 1 as [|a l Ha _ IH]; simpl; [done|]. by destruct (Z.ltb_spec a 128); [|lia]. Qed.

Lemma from_utf8_as_bytes s :
  Forall (λ a, a < 128) (byte_val <$> as_bytes s) → from_utf8 (as_bytes s) = Some s.
Proof.
  intros H. unfold from_utf8. rewrite utf8_valid_ascii by done. f_equal. apply string_of_list_byte_of_string.
Qed.

(** What [read_to_string] finds. *)
Definition readable (h : Host) (path : string) : option string := f ← fs h !! path; from_utf8 (content f).

Section Wp.
Context {E : Type}.
Implicit Types (h : Host) (i : io).

Lemma wp_fs_read i0 e path (Q : E + bytes → Host → io → Prop) h i :
  io_step i0 i →
  (∀ f i', io_step i0 i' → fs h !! path = Some f → Q (inr (content f)) h i') →
  (∀ i', io_step i0 i' → ¬ quiet i0 ∨ fs h !! path = None → Q (inl e) h i') →
  wp (fs_read e path) Q h i.
Proof.
  intros Hi H1 H2. unfold fs_read. wp_step. wp_io ltac:(by apply H2; [|left]). wp_steps.
  destruct (fs h !! path) as [f|] eqn:Hf; wp_steps; [by apply H1|]. apply H2; [done|by right].
Qed.

Lemma wp_read_to_string i0 e path (Q : E + string → Host → io → Prop) h i :
  io_step i0 i →
  (∀ t i', io_step i0 i' → readable h path = Some t → Q (inr t) h i') →
  (∀ i', io_step i0 i' → ¬ quiet i0 ∨ readable h path = None → Q (inl e) h i') →
  wp (read_to_string e path) Q h i.
Proof.
  intros Hi H1 H2. unfold read_to_string. wp_step. apply (wp_fs_read i0); [done|..]; cbn beta iota.
  - intros f i' Hi' Hf. unfold readable in *. rewrite Hf in *. simpl in *.
    destruct (from_utf8 (content f)) eqn:Ht; wp_steps; [by apply H1|apply H2; [done|by right]].
  - intros i' Hi' [?|Hf]; apply H2; try done; [by left|right]. unfold readable. by rewrite Hf.
Qed.

Lemma wp_path_exists i0 path (Q : E + bool → Host → io → Prop) h i :
  io_step i0 i →
  (∀ b i', io_step i0 i' → (b = true → is_Some (fs h !! path)) →
     (hd false (io_fail i) = false → b = bool_decide (is_Some (fs h !! path))) → Q (inr b) h i') →
  wp (path_exists path) Q h i.
Proof.
  intros Hi HQ. unfold path_exists. do 2 wp_step.
  assert (∀ r : list bool, r `suffix_of` io_fail i → io_step i0 (Io r (io_item i) (io_clock i) (io_send i))) as Hr.
  { intros r Hr. etrans; [exact Hi|]. by split. }
  unfold wp, io_call. destruct i as [[|[] fl] it ck sd]; simpl in *; apply HQ; try done.
  - by intros ?%bool_decide_eq_true.
  - apply Hr. by exists [true].
  - apply Hr. by exists [false].
  - by intros ?%bool_decide_eq_true.
Qed.

Lemma quiet_hd i0 i : io_step i0 i → quiet i0 → hd false (io_fail i) = false.
Proof. intros Hi Hq%(quiet_step _ _ Hi). unfold quiet in Hq. by destruct Hq. Qed.

Definition opened_truncated (m : Z) (path : string) h : Host :=
  set_fs (<[path := {| content := []; mode := match fs h !! path with Some f => mode f | None => m end |}]> (fs h)) h.

Lemma wp_open_truncate i0 e m path (Q : E + () → Host → io → Prop) h i :
  io_step i0 i →
  (∀ i', io_step i0 i' → Q (inr tt) (opened_truncated m path h) i') →
  (∀ i', io_step i0 i' → ¬ quiet i0 → Q (inl e) h i') →
  wp (open_truncate e m path) Q h i.
Proof. intros Hi H1 H2. unfold open_truncate. wp_step. wp_io ltac:(by apply H2). wp_steps. by apply H1. Qed.

Lemma wp_create_new i0 e m path (Q : E + () → Host → io → Prop) h i :
  io_step i0 i →
  (∀ i', io_step i0 i' → fs h !! path = None →
     Q (inr tt) (set_fs (<[path := {| content := []; mode := m |}]> (fs h)) h) i') →
  (∀ i', io_step i0 i' → ¬ quiet i0 ∨ is_Some (fs h !! path) → Q (inl e) h i') →
  wp (create_new e m path) Q h i.
Proof.
  intros Hi H1 H2. unfold create_new. wp_step. wp_io ltac:(by apply H2; [|left]). do 2 wp_step.
  destruct (fs h !! path) as [f|] eqn:Hf; wp_steps; [|by apply H1]. apply H2; [done|right]. by exists f.
Qed.

(** A failed write leaves a prefix of the data. *)
Lemma wp_write_all i0 e path b (Q : E + () → Host → io → Prop) h i :
  io_step i0 i →
  (∀ i', io_step i0 i' → Q (inr tt) (append path b h) i') →
  (∀ n t i', io_step i0 i' → ¬ quiet i0 → Q (inl e) (set_torn t (append path (take n b) h)) i') →
  wp (write_all e path b) Q h i.
Proof.
  intros Hi H1 H2. unfold write_all. do 2 wp_step. apply (wp_io_call_from i0); [done|..]; cbn beta iota.
  - intros i' Hi'. wp_steps. by apply H1.
  - intros Hq i' Hi'. wp_steps. by apply H2.
Qed.

Lemma wp_rename i0 e from to (Q : E + () → Host → io → Prop) h i f :
  io_step i0 i → fs h !! from = Some f →
  (∀ i', io_step i0 i' → Q (inr tt) (set_fs (<[to := f]> (delete from (fs h))) h) i') →
  (∀ i', io_step i0 i' → ¬ quiet i0 → Q (inl e) h i') →
  wp (rename e from to) Q h i.
Proof.
  intros Hi Hf H1 H2. unfold rename. wp_step. wp_io ltac:(by apply H2). wp_steps. rewrite Hf. wp_steps. by apply H1.
Qed.

Lemma wp_remove_file i0 e path (Q : E + () → Host → io → Prop) h i :
  io_step i0 i →
  (∀ i', io_step i0 i' → Q (inr tt) (set_fs (delete path (fs h)) h) i') →
  (∀ i', io_step i0 i' → ¬ quiet i0 → Q (inl e) h i') →
  wp (remove_file e path) Q h i.
Proof. intros Hi H1 H2. unfold remove_file. wp_step. wp_io ltac:(by apply H2). wp_steps. by apply H1. Qed.

Lemma wp_getrandom i0 e n (Q : E + bytes → Host → io → Prop) h i :
  io_step i0 i →
  (∀ b r i', io_step i0 i' → length b = n → Q (inr b) (set_random r h) i') →
  (∀ i', io_step i0 i' → ¬ quiet i0 → Q (inl e) h i') →
  wp (getrandom e n) Q h i.
Proof.
  intros Hi H1 H2. unfold getrandom. wp_step. wp_io ltac:(by apply H2). wp_steps.
  apply H1; [done|]. rewrite length_take, length_app, length_replicate. lia.
Qed.
End Wp.

(** ** Strings that [trim] leaves alone *)

(** A graphic ASCII character. *)
Definition plain (c : ascii) : bool := ascii_between "!" "~" c.

Definition head_plain (s : string) : bool := match s with String c _ => plain c | EmptyString => true end.

Lemma strip_any_plain ps s :
  forallb (λ p, match p with String c _ => negb (plain c) | EmptyString => false end) ps = true →
  head_plain s = true → strip_any ps s = None.
Proof.
  induction ps as [|p ps IH]; simpl; [done|]. intros [Hp Hps]%andb_prop Hs.
  destruct p as [|c p]; [done|]. destruct s as [|x s]; simpl in *; [by apply IH|].
  rewrite decide_False; [by apply IH|]. intros ->. by rewrite Hs in Hp.
Qed.

Lemma trim_fuel_none fuel ps s : strip_any ps s = None → trim_fuel fuel ps s = s.
Proof. intros H. destruct fuel; simpl; [done|]. by rewrite H. Qed.

Lemma str_rev_involutive s : str_rev (str_rev s) = s.
Proof.
  unfold str_rev. rewrite list_ascii_of_string_of_list_ascii, rev_involutive. apply string_of_list_ascii_of_string.
Qed.

Lemma trim_plain s : head_plain s = true → head_plain (str_rev s) = true → trim s = s.
Proof.
  intros H1 H2. unfold trim, trim_start, trim_end.
  rewrite (trim_fuel_none _ whitespace s) by (by apply strip_any_plain).
  rewrite trim_fuel_none by (by apply strip_any_plain). apply str_rev_involutive.
Qed.

Lemma str_forallb_list p s : str_forallb p s = forallb p (list_ascii_of_string s).
Proof. induction s as [|c s IH]; simpl; [done|]. by rewrite IH. Qed.

Lemma str_forallb_rev p s : str_forallb p (str_rev s) = str_forallb p s.
Proof.
  rewrite !str_forallb_list. unfold str_rev. rewrite list_ascii_of_string_of_list_ascii.
  induction (list_ascii_of_string s) as [|c l IH]; simpl; [done|].
  rewrite forallb_app, IH. simpl. rewrite andb_true_r. apply andb_comm.
Qed.

Lemma str_forallb_impl (p q : ascii → bool) s :
  (∀ c, p c = true → q c = true) → str_forallb p s = true → str_forallb q s = true.
Proof. intros H. induction s as [|c s IH]; simpl; [done|]. intros [Hc Hs]%andb_prop. by rewrite (H _ Hc), IH. Qed.

Lemma trim_all_plain s : str_forallb plain s = true → trim s = s.
Proof.
  assert (∀ t, str_forallb plain t = true → head_plain t = true) as H.
  { intros [|c t]; simpl; [done|]. by intros [? _]%andb_prop. }
  intros Hs. apply trim_plain; apply H; [done|]. by rewrite str_forallb_rev.
Qed.

Lemma byte_val_of_ascii c : byte_val (byte_of_ascii c) = Z.of_N (N_of_ascii c).
Proof. destruct c as [[] [] [] [] [] [] [] []]; reflexivity. Qed.

(** ASCII text is its own decoding. *)
Lemma from_utf8_ascii s : str_forallb (λ c, (N_of_ascii c <? 128)%N) s = true → from_utf8 (as_bytes s) = Some s.
Proof.
  intros H. apply from_utf8_as_bytes. unfold as_bytes, list_byte_of_string.
  change (map byte_of_ascii (list_ascii_of_string s)) with (byte_of_ascii <$> list_ascii_of_string s).
  rewrite str_forallb_list in H. induction (list_ascii_of_string s) as [|c l IH]; [constructor|].
  simpl in H. apply andb_prop in H as [Hc%N.ltb_lt Hl]. rewrite !fmap_cons. constructor; [|by apply IH].
  rewrite byte_val_of_ascii. lia.
Qed.

Lemma from_utf8_plain s : str_forallb plain s = true → from_utf8 (as_bytes s) = Some s.
Proof.
  intros H. apply from_utf8_ascii. eapply str_forallb_impl; [|exact H].
  intros c [_ Hc%N.leb_le]%andb_prop. apply N.ltb_lt. change (N_of_ascii "~") with 126%N in Hc. lia.
Qed.

Lemma str_length_app a b : String.length (a +:+ b) = (String.length a + String.length b)%nat.
Proof. induction a as [|c a IH]; simpl; [done|]. by rewrite IH. Qed.

Lemma join_inj dir a b : join dir a = join dir b → a = b.
Proof.
  unfold join. destruct (_ || _); [apply str_app_inj_l|]. by intros ?%str_app_inj_l%str_app_inj_l.
Qed.

Lemma str_app_assoc a b c : (a +:+ b) +:+ c = a +:+ (b +:+ c).
Proof. induction a as [|x a IH]; [done|]. exact (f_equal (String x) IH). Qed.

(** ** Lines *)

Lemma split_inclusive_line p r :
  no_char "010" p → split_inclusive (p +:+ String "010" r) = (p, true) :: split_inclusive r.
Proof.
  induction p as [|c p IH]; simpl; [done|]. intros [Hc%bool_decide_eq_false Hp]%orb_false_iff.
  rewrite decide_False by done. by rewrite IH.
Qed.

(** A text of whole lines. *)
Definition unlines (ls : list string) : string := foldr (λ l r, l +:+ String "010" r) EmptyString ls.

Lemma no_char_forallb c s : no_char c s ↔ str_forallb (λ x, negb (bool_decide (x = c))) s = true.
Proof.
  induction s as [|x s IH]; simpl; [done|]. rewrite orb_false_iff, andb_true_iff, IH, negb_true_iff. done.
Qed.

Lemma str_rev_no_char c s : no_char c (str_rev s) ↔ no_char c s.
Proof. rewrite !no_char_forallb. by rewrite str_forallb_rev. Qed.

Lemma lines_unlines ls :
  Forall (λ l, no_char "010" l ∧ no_char "013" l) ls → lines (unlines ls) = ls.
Proof.
  induction 1 as [|l ls [Hn Hr] _ IH]; [done|]. unfold lines. simpl. rewrite split_inclusive_line by done.
  simpl. f_equal; [|exact IH]. unfold strip_suffix. apply str_rev_no_char in Hr.
  destruct (str_rev l) as [|c t]; [done|]. apply orb_false_iff in Hr as [Hc%bool_decide_eq_false _].
  change (str_rev (String "013" EmptyString)) with (String "013" EmptyString). simpl. by rewrite decide_False by congruence.
Qed.
