(* ===== verification/Dotenv.v ===== *)
(** [load_dotenv] of [main.rs]: the operator's [.env] file, read into the process
    environment before anything else runs; then what it guarantees. *)
From Stdlib Require Import ZArith Lia Ascii String.
From stdpp Require Import base gmap strings list.
From S2P Require Import Prelude Redb RustStd Util Host.

(** What [std::env::set_var] does with a name or a value it cannot take. *)
Inductive panic := Panicked.

Definition nul : ascii := "000"%char.

Definition set_var (key value : string) : M Host panic () :=
  if bool_decide (key = EmptyString) || str_contains "=" key || str_contains nul key || str_contains nul value
  then throw Panicked
  else modify (λ h, set_environ (<[key := Unicode value]> (environ h)) h).

(** [std::env::var_os(key).is_none()]. *)
Definition var_os_is_none (h : Host) (key : string) : bool :=
  str_contains nul key || bool_decide (environ h !! key = None).

Definition dquote : string := String "034" EmptyString.

(** The value without its quotes, if a pair of them encloses it. *)
Definition unquote (value : string) : string :=
  if (2 <=? slen value)
     && ((starts_with dquote value && ends_with dquote value) || (starts_with "'" value && ends_with "'" value))
  then inner value
  else value.

(** The assignment a line makes, if any. *)
Definition parse_line (line : string) : option (string * string) :=
  let line := trim line in
  if bool_decide (line = EmptyString) || starts_with "#" line then None
  else
    let line := default line (strip_prefix "export " line) in
    match split_once "=" line with
    | None => None
    | Some (key, value) =>
        let key := trim key in
        if bool_decide (key = EmptyString) then None else Some (key, unquote (trim value))
    end.

Definition load_line (line : string) : M Host panic () :=
  match parse_line line with
  | None => mret tt
  | Some (key, value) =>
      h ← get;
      if var_os_is_none h key then set_var key value else mret tt
  end.

Definition load_dotenv : M Host panic () :=
  contents ← attempt (read_to_string Failed ".env");
  match contents with
  | inl _ => mret tt
  | inr contents => foldM (λ _ line, load_line line) tt (lines contents)
  end.

(** What [load_dotenv] guarantees: it only fills gaps of the environment, with
    the first assignment of each name, and quoted values are read as written. *)

(** The assignments of a text, and the one that counts for a name. *)
Definition assignments (t : string) : list (string * string) := omap parse_line (lines t).

Definition first_for (k : string) (l : list (string * string)) : option string := snd <$> head (filter (λ kv, kv.1 = k) l).

Definition filled (env : gmap string EnvValue) (l : list (string * string)) (k : string) : option EnvValue :=
  match env !! k with Some v => Some v | None => Unicode <$> first_for k l end.

Lemma first_for_snoc k l kv :
  first_for k (l ++ [kv]) = match first_for k l with Some v => Some v | None => if decide (kv.1 = k) then Some kv.2 else None end.
Proof.
  unfold first_for. rewrite filter_app. destruct (filter (λ kv, kv.1 = k) l) as [|x r]; [|done]. simpl.
  rewrite filter_cons. by case_decide.
Qed.

Definition no_nul (l : list (string * string)) : Prop := Forall (λ kv, no_char nul kv.1 ∧ no_char nul kv.2) l.

Lemma parse_line_key line k v : parse_line line = Some (k, v) → k ≠ EmptyString ∧ ∃ a, k = trim a ∧ no_char "=" a.
Proof.
  unfold parse_line. cbv zeta. destruct (_ || _); [done|].
  destruct (split_once "=" _) as [[key value]|] eqn:Hs; [|done]. case_bool_decide as Hk; [done|]. intros [= <- <-].
  split; [done|]. exists key. split; [done|]. by apply split_once_Some in Hs as [_ ?].
Qed.

(** Trimming adds no character. *)
Lemma strip_prefix_no_char c p s r : strip_prefix p s = Some r → no_char c s → no_char c r.
Proof.
  revert s. induction p as [|a p IH]; intros [|b s]; simpl; intros H Hs; simplify_eq; try done.
  case_decide; [|done]. apply orb_false_iff in Hs as [_ Hs]. by eapply IH.
Qed.

Lemma strip_any_no_char c ps s r : strip_any ps s = Some r → no_char c s → no_char c r.
Proof.
  induction ps as [|p ps IH]; simpl; [done|]. destruct (strip_prefix p s) eqn:Ep; [|done].
  intros [= <-]. by eapply strip_prefix_no_char.
Qed.

Lemma trim_fuel_no_char c fuel ps s : no_char c s → no_char c (trim_fuel fuel ps s).
Proof.
  revert s. induction fuel as [|fuel IH]; intros s Hs; simpl; [done|].
  destruct (strip_any ps s) as [r|] eqn:E; [|done]. apply IH. by eapply strip_any_no_char.
Qed.

Lemma trim_no_char c s : no_char c s → no_char c (trim s).
Proof.
  intros H. unfold trim, trim_end, trim_start. by apply str_rev_no_char, trim_fuel_no_char, str_rev_no_char, trim_fuel_no_char.
Qed.

Lemma load_line_wp line h i :
  (∀ k v, parse_line line = Some (k, v) → no_char nul k ∧ no_char nul v) →
  wp (load_line line) (λ r h' i', r = inr tt ∧ i' = i ∧ fs h' = fs h
    ∧ ∀ k, environ h' !! k = filled (environ h) (match parse_line line with Some kv => [kv] | None => [] end) k) h i.
Proof.
  intros Hn. unfold load_line. destruct (parse_line line) as [[key value]|] eqn:Hp.
  2:{ wp_steps. split_and!; try done. intros k. unfold filled, first_for. simpl. by destruct (environ h !! k). }
  destruct (Hn _ _ eq_refl) as [Hk Hv]. do 2 wp_step. unfold var_os_is_none. rewrite Hk. cbn [orb].
  pose proof (parse_line_key _ _ _ Hp) as (Hne & a & -> & Ha%trim_no_char).
  assert (∀ k, filled (environ h) [(trim a, value)] k
    = match environ h !! k with Some v => Some v | None => if decide (trim a = k) then Some (Unicode value) else None end) as Hf.
  { intros k. unfold filled, first_for. rewrite filter_cons. simpl. by repeat case_decide. }
  case_bool_decide as Hnone.
  - unfold set_var. rewrite Ha, Hk, Hv, bool_decide_eq_false_2 by done. cbn [orb]. wp_steps. split_and!; try done.
    intros k. rewrite Hf. simpl. rewrite lookup_insert. case_decide as E; [subst; by rewrite Hnone|]. by destruct (environ h !! k).
  - wp_steps. split_and!; try done. intros k. rewrite Hf. destruct (environ h !! k) eqn:Ek; [done|].
    by rewrite decide_False by congruence.
Qed.

Lemma filled_app env env' l1 l2 :
  (∀ k, env' !! k = filled env l1 k) → ∀ k, filled env' l2 k = filled env (l1 ++ l2) k.
Proof.
  intros He k. unfold filled. rewrite He. unfold filled. destruct (env !! k); [done|].
  unfold first_for. rewrite filter_app. by destruct (filter (λ kv, kv.1 = k) l1).
Qed.

Lemma load_lines_wp ls h i :
  no_nul (omap parse_line ls) →
  wp (foldM (λ _ line, load_line line) tt ls) (λ r h' i', r = inr tt ∧ i' = i ∧ fs h' = fs h
    ∧ ∀ k, environ h' !! k = filled (environ h) (omap parse_line ls) k) h i.
Proof.
  intros Hn. apply (wp_foldM _ (λ done _ h' i', i' = i ∧ fs h' = fs h
    ∧ ∀ k, environ h' !! k = filled (environ h) (omap parse_line done) k)).
  - split_and!; try done. intros k. unfold filled, first_for. simpl. by destruct (environ h !! k).
  - intros pre line rest [] h1 i1 -> (-> & Hfs & He). eapply wp_conseq; [apply load_line_wp|].
    + intros k v Hp. unfold no_nul in Hn. rewrite Forall_forall in Hn. apply (Hn (k, v)).
      apply list_elem_of_omap. exists line. split; [|done]. apply elem_of_app. right. left.
    + cbn beta. intros r h2 i2 (-> & -> & Hfs2 & He2). split_and!; [done|congruence|]. intros k.
      rewrite He2, (filled_app _ _ _ _ He), omap_app. simpl. by destruct (parse_line line).
  - intros [] h1 i1 (-> & ? & ?). by split_and!.
Qed.

Lemma load_dotenv_wp h i :
  (∀ t, readable h ".env" = Some t → no_nul (assignments t)) →
  wp load_dotenv (λ r h' _, r = inr tt ∧ fs h' = fs h
    ∧ (h' = h ∧ (readable h ".env" = None ∨ ¬ quiet i)
       ∨ ∃ t, readable h ".env" = Some t
          ∧ ∀ k, environ h' !! k = match environ h !! k with
                                   | Some v => Some v
                                   | None => Unicode <$> first_for k (assignments t)
                                   end)) h i.
Proof.
  intros Hn. unfold load_dotenv. do 2 wp_step. apply (wp_read_to_string i); [done|..]; cbn beta iota.
  - intros t i' _ Ht. eapply wp_conseq; [apply load_lines_wp; by apply Hn|]. cbn beta.
    intros r h' i'' (-> & _ & Hf & He). split_and!; [done|done|]. right. exists t. by split.
  - intros i' _ Hr. wp_steps. split_and!; [done|done|]. left. split; [done|]. by destruct Hr; [right|left].
Qed.

(** Loading the environment file never changes a variable that is set; every other one gets
    the value of the first line of the file that assigns it and nothing else is set; a missing
    or unreadable file changes nothing; and it does not panic if no assignment holds a zero
    byte. *)
Theorem dotenv_only_fills_gaps h i :
  (∀ t, readable h ".env" = Some t → no_nul (assignments t)) →
  wp load_dotenv (λ r h' _, r = inr tt ∧ fs h' = fs h
    ∧ (h' = h ∧ (readable h ".env" = None ∨ ¬ quiet i)
       ∨ ∃ t, readable h ".env" = Some t
          ∧ ∀ k, environ h' !! k = match environ h !! k with
                                   | Some v => Some v
                                   | None => Unicode <$> first_for k (assignments t)
                                   end)) h i.
Proof. apply load_dotenv_wp. Qed.

(** ** Reading back what was written *)

Definition newline : ascii := "010"%char.

Definition print_line (kv : string * string) : string := kv.1 +:+ "=" +:+ dquote +:+ kv.2 +:+ dquote.

Fixpoint print (l : list (string * string)) : string :=
  match l with
  | [] => EmptyString
  | kv :: r => print_line kv +:+ String newline (print r)
  end.

(** A name of graphic characters that starts no comment, and a value on one
    line. *)
Definition good_name (k : string) : Prop :=
  k ≠ EmptyString ∧ str_forallb plain k = true ∧ no_char "=" k ∧ strip_prefix "#" k = None.

Definition printable (kv : string * string) : Prop :=
  good_name kv.1 ∧ no_char newline kv.2 ∧ no_char nul kv.2.

Lemma str_rev_app a b : str_rev (a +:+ b) = str_rev b +:+ str_rev a.
Proof.
  assert (∀ l k, string_of_list_ascii (l ++ k) = string_of_list_ascii l +:+ string_of_list_ascii k) as H1.
  { induction l as [|c l IH]; intros k; simpl; [done|]. by rewrite IH. }
  assert (∀ s t, list_ascii_of_string (s +:+ t) = list_ascii_of_string s ++ list_ascii_of_string t) as H2.
  { induction s as [|c s IH]; intros t; simpl; [done|]. by rewrite IH. }
  unfold str_rev. by rewrite H2, rev_app_distr, H1.
Qed.

(** A line that ends in a quote. *)
Lemma ends_in_quote a : str_rev (a +:+ dquote) = String "034" (str_rev a).
Proof. by rewrite str_rev_app. Qed.

Lemma print_line_quote kv : print_line kv = (kv.1 +:+ "=" +:+ dquote +:+ kv.2) +:+ dquote.
Proof. unfold print_line. by rewrite !str_app_assoc. Qed.

Lemma plain_no_char (c : ascii) s : plain c = false → str_forallb plain s = true → no_char c s.
Proof. apply str_forallb_no_char. Qed.

Lemma lines_print l : Forall printable l → lines (print l) = print_line <$> l.
Proof.
  induction 1 as [|kv l (Hk & Hv & _) _ IH]; [done|]. unfold lines. simpl. rewrite split_inclusive_line.
  - simpl. f_equal; [|exact IH]. unfold strip_suffix. by rewrite print_line_quote, ends_in_quote.
  - change (no_char newline (print_line kv)). destruct Hk as (_ & Hp & _). unfold print_line. rewrite !str_contains_app, Hv.
    by rewrite (plain_no_char newline).
Qed.

(** ["export "] is no prefix of an assignment to a name without spaces. *)
Lemma strip_export p k t :
  no_char "=" p → no_char " " k → strip_prefix (p +:+ " ") (k +:+ "=" +:+ t) = None.
Proof.
  revert k. induction p as [|a p IH]; intros k Hp Hk.
  - destruct k as [|c k]; [done|]. simpl in *. apply orb_false_iff in Hk as [Hc%bool_decide_eq_false _].
    by rewrite decide_False.
  - apply orb_false_iff in Hp as [Ha%bool_decide_eq_false Hp]. destruct k as [|c k]; simpl; [by rewrite decide_False|].
    case_decide; [|done]. apply IH; [done|]. by apply orb_false_iff in Hk as [_ ?].
Qed.

Lemma substring_app n a b : n = String.length a → String.substring 0 n (a +:+ b) = a.
Proof. intros ->. induction a as [|c a IH]; simpl; [by destruct b|]. by rewrite IH. Qed.

Lemma unquote_quoted v : unquote (dquote +:+ v +:+ dquote) = v.
Proof.
  unfold unquote. assert (slen (dquote +:+ v +:+ dquote) = slen v + 2) as Hl.
  { unfold slen. rewrite !str_length_app. unfold dquote. simpl. lia. }
  pose proof (slen_nonneg v). rewrite Hl. destruct (Z.leb_spec 2 (slen v + 2)); [|lia].
  assert (starts_with dquote (dquote +:+ v +:+ dquote) = true) as ->
    by (apply bool_decide_eq_true; exists (v +:+ dquote); reflexivity).
  assert (ends_with dquote (dquote +:+ v +:+ dquote) = true) as ->.
  { unfold ends_with. rewrite <- str_app_assoc, ends_in_quote. apply bool_decide_eq_true.
    exists (str_rev (dquote +:+ v)). reflexivity. }
  cbn [andb orb]. unfold inner.
  change (String.substring 1 ?n (dquote +:+ ?w)) with (String.substring 0 n w).
  apply substring_app. rewrite !str_length_app. unfold dquote. simpl. lia.
Qed.

Lemma head_plain_app a b : a ≠ EmptyString → head_plain (a +:+ b) = head_plain a.
Proof. by destruct a. Qed.

Lemma parse_print_line kv : printable kv → parse_line (print_line kv) = Some kv.
Proof.
  destruct kv as [k v]. intros ((Hne & Hp & Heq & Hhash) & _ & _). unfold parse_line. cbv zeta. cbn [fst snd] in *.
  assert (head_plain k = true) as Hhead by (destruct k; [done|]; by apply andb_prop in Hp as [? _]).
  rewrite trim_plain.
  2:{ unfold print_line. by rewrite head_plain_app. }
  2:{ rewrite print_line_quote, ends_in_quote. done. }
  rewrite bool_decide_eq_false_2; [|unfold print_line; by destruct k].
  assert (starts_with "#" (print_line (k, v)) = false) as ->.
  { apply bool_decide_eq_false. unfold print_line. destruct k as [|c k]; [done|]. simpl in *.
    case_decide; [done|]. by intros [? ?]. }
  assert (strip_prefix "export " (print_line (k, v)) = None) as ->.
  { apply (strip_export "export" k); [done|]. by apply (plain_no_char " "). }
  cbn [orb default].
  assert (split_once "=" (print_line (k, v)) = Some (k, dquote +:+ v +:+ dquote)) as ->
    by exact (split_once_app "=" k (dquote +:+ v +:+ dquote) Heq).
  rewrite trim_all_plain by done.
  rewrite bool_decide_eq_false_2 by done.
  rewrite (trim_plain (dquote +:+ _)); [|done|].
  - by rewrite unquote_quoted.
  - by rewrite <- str_app_assoc, ends_in_quote.
Qed.

Lemma assignments_print l : Forall printable l → assignments (print l) = l.
Proof.
  intros Hl. unfold assignments. rewrite lines_print by done.
  induction Hl as [|kv l Hkv _ IH]; [done|]. rewrite fmap_cons.
  change (omap parse_line (print_line kv :: ?k))
    with (match parse_line (print_line kv) with Some y => y :: omap parse_line k | None => omap parse_line k end).
  by rewrite parse_print_line, IH.
Qed.

(** A file printed from a list of assignments, one quoted value a line, is read back as
    that list: each variable that is not set gets its first value, which may hold blanks,
    quotes, '#' and '='. *)
Theorem dotenv_reads_what_was_written l h i :
  Forall printable l → readable h ".env" = Some (print l) → quiet i →
  wp load_dotenv (λ r h' _, r = inr tt ∧ fs h' = fs h
    ∧ ∀ k, environ h' !! k = match environ h !! k with Some v => Some v | None => Unicode <$> first_for k l end) h i.
Proof.
  intros Hl Hr Hq. eapply wp_conseq; [apply load_dotenv_wp|].
  - intros t Ht. rewrite Hr in Ht. injection Ht as <-. rewrite assignments_print by done.
    eapply Forall_impl; [exact Hl|]. intros [k v] ((_ & Hp & _) & _ & Hv). split; [|done]. by apply (plain_no_char nul).
  - cbn beta. intros r h' i' (-> & Hf & [(-> & [?|?])|(t & Ht & He)]); [congruence|done|].
    rewrite Hr in Ht. injection Ht as <-. rewrite assignments_print in He by done. by split_and!.
Qed.

(** ** Witnesses *)

Definition demo_env : list (string * string) :=
  [("AXENO_KEY", "a 'key' # with quotes"); ("AXENO_BIND", "0.0.0.0:1"); ("AXENO_KEY", "second")]%string.

(** A machine with that file, and one variable already set. *)
Definition demo_machine : Host :=
  {| environ := {[ "AXENO_BIND"%string := Unicode "127.0.0.1:9" ]};
     fs := {[ ".env"%string := {| content := as_bytes (print demo_env); mode := 0 |} ]}; random := []; torn := [] |}.

Lemma demo_readable : readable demo_machine ".env" = Some (print demo_env).
Proof. vm_compute. reflexivity. Qed.

Lemma demo_printable : Forall printable demo_env.
Proof. repeat constructor; done. Qed.

Lemma dotenv_only_fills_gaps_witness :
  no_nul (assignments (print demo_env))
  ∧ wp load_dotenv (λ r h' _, r = inr tt ∧ fs h' = fs demo_machine) demo_machine (Io [] [] [] []).
Proof.
  assert (no_nul (assignments (print demo_env))) as Hn by (vm_compute; repeat constructor).
  split; [exact Hn|]. eapply wp_conseq.
  - apply (dotenv_only_fills_gaps demo_machine (Io [] [] [] [])). intros t Ht.
    rewrite demo_readable in Ht. injection Ht as <-. exact Hn.
  - by intros r h' i' (? & ? & _).
Defined.

Lemma dotenv_reads_what_was_written_witness :
  wp load_dotenv (λ r h' _, environ h' !! "AXENO_KEY"%string = Some (Unicode "a 'key' # with quotes")
    ∧ environ h' !! "AXENO_BIND"%string = Some (Unicode "127.0.0.1:9")) demo_machine (Io [] [] [] []).
Proof.
  eapply wp_conseq.
  - apply (dotenv_reads_what_was_written demo_env); [exact demo_printable|exact demo_readable|constructor].
  - intros r h' i' (_ & _ & He). by rewrite !He.
Defined.

(** ** Observed behaviour *)

(** Unquoted text after a closing quote, a comment say, makes the quotes part
    of the value. *)
Example comment_after_quotes :
  parse_line ("KEY=" +:+ dquote +:+ "v" +:+ dquote +:+ " # why") = Some ("KEY", dquote +:+ "v" +:+ dquote +:+ " # why")%string
  ∧ parse_line "  export KEY = 'v'  " = Some ("KEY", "v")%string ∧ parse_line "# KEY=v" = None.
Proof. vm_compute. split_and!; reflexivity. Qed.

(** A NUL in an assignment stops the relay before it starts. *)
Example nul_panics :
  let h := {| environ := ∅; random := []; torn := [];
              fs := {[ ".env"%string := {| content := as_bytes ("A=" +:+ String nul "b"); mode := 0 |} ]} |} in
  (load_dotenv h (Io [] [] [] [])).1.1 = inl Panicked.
Proof. vm_compute. reflexivity. Qed.
