(* ===== verification/Protocol.v ===== *)
(** [protocol.rs]: the frames exchanged over the WebSocket and the stored
    envelope.  [Uuid] is third-party: a type with a printer and a parser. *)
From Stdlib Require Import ZArith Ascii String.
From stdpp Require Import base strings list.
From S2P Require Import Prelude.

Class UuidLib := {
  Uuid : Type;
  uuid_eq_decision :: EqDecision Uuid;
  uuid_string : Uuid → string;
  uuid_parse : string → option Uuid;
  uuid_parse_string : ∀ u, uuid_parse (uuid_string u) = Some u;
  uuid_no_colon : ∀ u, no_char ":" (uuid_string u);
}.

Abbreviation RecipientId := string.

Section Frames.
Context `{!UuidLib}.

Record StoredEnvelope := {
  env_id : Uuid;
  env_to : RecipientId;
  envelope_type : string;
  ciphertext : string;
}.

Inductive ClientFrame :=
| Hello (recipient_id : RecipientId) (auth_token delivery_token : string)
    (protocol_min protocol_max protocol_version : option Z) (pow : option string) (cert_only : bool)
| SetDeliveryTokens (request_id : string) (tokens : list string)
| IssueSenderCertificate (request_id sender_uuid : string) (sender_device_id : Z)
    (sender_cert_public_b64 : string)
| SendEnvelope (client_ref : option string) (to : RecipientId) (delivery_token envelope_type ciphertext : string)
| UploadBundle (request_id bundle_id ciphertext : string) (expires_at_ms : Z) (pow : option string)
| FetchBundle (request_id bundle_id : string)
| UploadFileChunk (request_id transfer_id : string) (chunk_index total_chunks total_bytes : Z)
    (ciphertext : string) (pow : option string)
| FetchFileChunk (request_id transfer_id : string) (chunk_index : Z)
| DeleteTransfer (request_id transfer_id : string)
| Ack (ids : list Uuid)
| RetireMailbox
| Ping.

Inductive ServerFrame :=
| HelloOk (protocol_version min_supported current_protocol server_time_ms : Z)
    (trust_root_b64 : string) (max_file_bytes : Z)
| SenderCertificate (request_id certificate_b64 trust_root_b64 : string) (expires_at_ms : Z)
| BundleUploaded (request_id bundle_id : string) (expires_at_ms : Z)
| Bundle (request_id bundle_id ciphertext : string) (expires_at_ms : Z)
| FileChunkStored (request_id transfer_id : string) (chunk_index received_chunks total_chunks : Z)
| FileChunk (request_id transfer_id : string) (chunk_index total_chunks total_bytes : Z) (ciphertext : string)
| TransferDeleted (request_id transfer_id : string)
| FileError (request_id transfer_id code message : string)
| Envelope (envelope : StoredEnvelope)
| Synced (count : Z)
| SendOk (id : Uuid) (queued : bool) (client_ref : option string)
| SendError (client_ref : option string) (code message : string)
| DeliveryTokensSet (request_id : string) (active_count : Z)
| AckOk (removed : Z)
| Pong (server_time_ms : Z)
| Error (code message : string).

Definition err (code message : string) : ServerFrame := Error code message.

Definition send_err (client_ref : option string) (code message : string) : ServerFrame :=
  SendError client_ref code message.

Definition file_err (request_id transfer_id code message : string) : ServerFrame :=
  FileError request_id transfer_id code message.
End Frames.

(** A concrete [UuidLib] for the witnesses: a number in unary. *)
Fixpoint unary (n : nat) : string :=
  match n with O => EmptyString | S n' => String "a" (unary n') end.

Fixpoint of_unary (s : string) : option nat :=
  match s with
  | EmptyString => Some O
  | String c r => if decide (c = "a"%char) then S <$> of_unary r else None
  end.

#[refine] Definition unary_uuid : UuidLib := {|
  Uuid := nat;
  uuid_string := unary;
  uuid_parse := of_unary;
|}.
Proof.
  - induction u as [|u IH]; simpl; [done|]. by rewrite IH.
  - induction u as [|u IH]; simpl; [done|]. by rewrite IH.
Defined.
