(* ===== verification/QueueStore.v ===== *)
(** [queue_store.rs]: the durable per-mailbox message queues.

    [QueueStore] is the store's fields; one definition per method.  The
    specification is a list per mailbox, oldest first ([queue_of]): an enqueue
    makes room at the front and appends, an ack or the sweep filters, a purge
    empties.  [Inv] relates the RAM counters to the table. *)
From Stdlib Require Import ZArith Lia Ascii String.
From stdpp Require Import base gmap strings list sorting.
From S2P Require Import Prelude Redb RustStd Config Util Protocol.

Record StoredValue := {
  sv_t : string;
  sv_c : string;
  sv_q : Z;
  sv_s : Z;
}.

#[global] Instance StoredValue_eq_dec : EqDecision StoredValue.
Proof. solve_decision. Defined.

#[global] Instance StoredValue_countable : Countable StoredValue.
Proof.
  refine (inj_countable' (λ v, (sv_t v, sv_c v, sv_q v, sv_s v))
    (λ '(t, c, q, s), {| sv_t := t; sv_c := c; sv_q := q; sv_s := s |}) _).
  by intros [].
Defined.

Section Store.
Context {RD : Redb} {UL : UuidLib} {SV : Serde StoredValue}.

Record QueueStore := {
  db : Table;
  total_bytes : Z;
  next_seq : Z;
  index : gmap string (Z * Z);
}.

Definition set_db (t : Table) (st : QueueStore) : QueueStore :=
  {| db := t; total_bytes := total_bytes st; next_seq := next_seq st; index := index st |}.

Definition set_total (z : Z) (st : QueueStore) : QueueStore :=
  {| db := db st; total_bytes := z; next_seq := next_seq st; index := index st |}.

Definition set_next_seq (z : Z) (st : QueueStore) : QueueStore :=
  {| db := db st; total_bytes := total_bytes st; next_seq := z; index := index st |}.

Definition set_index (ix : gmap string (Z * Z)) (st : QueueStore) : QueueStore :=
  {| db := db st; total_bytes := total_bytes st; next_seq := next_seq st; index := ix |}.

(** ** Keys *)

Definition key_for (mailbox : string) (id : Uuid) : string := mailbox +:+ ":" +:+ uuid_string id.

Definition mailbox_bounds (mailbox : string) : string * string :=
  (mailbox +:+ ":", mailbox +:+ ";").

Definition parse_mailbox (key : string) : option string := fst <$> split_once ":" key.

Definition parse_id (key : string) : option Uuid :=
  match split_once ":" key with
  | Some (_, id) => uuid_parse id
  | None => None
  end.

(** ** Opening *)

(** [index.entry(mailbox).or_insert((0, 0))] *)
Definition index_entry (mailbox : string) (st : QueueStore) : Z * Z := default (0, 0) (index st !! mailbox).

Definition scan_totals : M QueueStore anyhow (Z * Z) :=
  st ← get;
  _ ← begin_txn Failed;
  table ← open_table Failed (db st);
  entries ← txn_iter Failed table;
  foldM (λ '(total, max_seq) '(k, v),
    _ ← io_call Failed;
    match from_slice v with
    | Some val =>
        _ ← match parse_mailbox k with
            | Some mailbox =>
                modify (λ st,
                  let e := index_entry mailbox st in
                  set_index (<[mailbox := (e.1 +! 1, e.2 +^ slen (sv_c val))]> (index st)) st)
            | None => mret ()
            end;
        mret (total +^ slen (sv_c val), Z.max max_seq (sv_s val))
    | None => mret (total, max_seq)
    end) (0, 0) entries.

Definition new (database : Table) : M () anyhow QueueStore :=
  _ ← begin_txn Failed;
  table ← open_table Failed database;
  _ ← commit Failed;
  let store := {| db := table; total_bytes := 0; next_seq := 0; index := ∅ |} in
  '((total, max_seq), store) ← with_state store scan_totals;
  mret (set_next_seq (max_seq +^ 1) (set_total total store)).

Definition would_exceed_global (st : QueueStore) (incoming_len : Z) : bool :=
  GLOBAL_QUEUE_DISK_CAP_BYTES <? total_bytes st +^ incoming_len.

(** ** Reading *)

Definition read_mailbox (mailbox : string) : M QueueStore anyhow (list (Uuid * StoredValue)) :=
  let '(lo, hi) := mailbox_bounds mailbox in
  st ← get;
  _ ← begin_txn Failed;
  table ← open_table Failed (db st);
  entries ← txn_range Failed table lo hi;
  out ← foldM (λ out '(k, v),
    _ ← io_call Failed;
    match parse_id k with
    | None => mret out
    | Some id =>
        match from_slice v with
        | Some val => mret (out ++ [(id, val)])
        | None => mret out
        end
    end) [] entries;
  mret (sort_by_key (λ e, sv_s e.2) out).

Definition to_envelope (mailbox : string) (e : Uuid * StoredValue) : StoredEnvelope :=
  {| env_id := e.1; env_to := mailbox; envelope_type := sv_t e.2; ciphertext := sv_c e.2 |}.

Definition flush (mailbox : string) : M QueueStore anyhow (list StoredEnvelope) :=
  entries ← read_mailbox mailbox;
  mret (to_envelope mailbox <$> entries).

Definition is_empty (mailbox : string) : M QueueStore anyhow bool :=
  let '(lo, hi) := mailbox_bounds mailbox in
  st ← get;
  _ ← begin_txn Failed;
  table ← open_table Failed (db st);
  entries ← txn_range Failed table lo hi;
  mret (match entries with [] => true | _ => false end).

(** ** Enqueue *)

(** The [while] loop: [c] and [b] are what the mailbox would hold after the
    evictions so far, the list is [existing[idx..]]. *)
Fixpoint evict_loop (existing : list (Uuid * StoredValue)) (c b incoming_len evict_bytes : Z)
    (evict_ids : list Uuid) : Z * list Uuid :=
  match existing with
  | [] => (evict_bytes, evict_ids)
  | (id, v) :: rest =>
      if (MAX_QUEUE_PER_RECIPIENT <? c +! 1) || (PER_MAILBOX_QUEUE_BYTES <? b +! incoming_len)
      then evict_loop rest (c -! 1) (b -! slen (sv_c v)) incoming_len
             (evict_bytes +^ slen (sv_c v)) (evict_ids ++ [id])
      else (evict_bytes, evict_ids)
  end.

Definition sum_len (l : list (Uuid * StoredValue)) : Z := zsum ((λ e, slen (sv_c e.2)) <$> l).

Definition enqueue (mailbox : string) (env : StoredEnvelope) : M QueueStore anyhow Z :=
  now ← now_ms;
  let incoming_len := slen (ciphertext env) in
  st ← get;
  let seq := next_seq st in
  _ ← put (set_next_seq (seq +! 1) st);
  let value := {| sv_t := envelope_type env; sv_c := ciphertext env; sv_q := now; sv_s := seq |} in
  _ ← io_call Failed;
  let value_bytes := to_vec value in
  st ← get;
  let '(cur_count, cur_bytes) := index_entry mailbox st in
  let needs_eviction :=
    (MAX_QUEUE_PER_RECIPIENT <? cur_count +! 1)
    || (PER_MAILBOX_QUEUE_BYTES <? cur_bytes +! incoming_len) in
  '(evict_bytes, evict_ids) ←
    (if needs_eviction then
       existing ← read_mailbox mailbox;
       mret (evict_loop existing (Z.of_nat (length existing)) (wrap64 (sum_len existing))
               incoming_len 0 [])
     else mret (0, []));
  _ ← begin_txn Failed;
  table ← open_table Failed (db st);
  table ← txn_remove_all Failed table (key_for mailbox <$> evict_ids);
  table ← txn_insert Failed table (key_for mailbox (env_id env)) value_bytes;
  _ ← commit Failed;
  _ ← modify (set_db table);
  _ ← modify (λ st, set_total (total_bytes st +! incoming_len) st);
  _ ← modify (λ st, set_total (atomic_sub_saturating (total_bytes st) evict_bytes) st);
  _ ← modify (λ st,
    let e := index_entry mailbox st in
    set_index (<[mailbox := ((e.1 -^ Z.of_nat (length evict_ids)) +^ 1,
                             (e.2 -^ evict_bytes) +^ incoming_len)]> (index st)) st);
  mret (Z.of_nat (length evict_ids)).

(** ** Removal *)

(** [if let Some(mut e) = self.index.get_mut(mailbox) { .. }] *)
Definition index_sub (mailbox : string) (count bytes : Z) (ix : gmap string (Z * Z)) : gmap string (Z * Z) :=
  alter (λ e, (e.1 -^ count, e.2 -^ bytes)) mailbox ix.

Definition ack (mailbox : string) (ids : list Uuid) : M QueueStore anyhow Z :=
  match ids with
  | [] => mret 0
  | _ =>
      st ← get;
      _ ← begin_txn Failed;
      table ← open_table Failed (db st);
      '(table, freed, removed) ← foldM (λ '(table, freed, removed) id,
        let key := key_for mailbox id in
        v ← txn_get Failed table key;
        let freed :=
          match v ≫= from_slice with
          | Some val => freed +^ slen (sv_c val)
          | None => freed
          end in
        table' ← txn_remove Failed table key;
        let removed := match tbl_get table key with Some _ => removed +! 1 | None => removed end in
        mret (table', freed, removed)) (table, 0, 0) ids;
      _ ← commit Failed;
      _ ← modify (set_db table);
      _ ← modify (λ st, set_total (atomic_sub_saturating (total_bytes st) freed) st);
      _ ← (if 0 <? removed then
             modify (λ st, set_index (index_sub mailbox removed freed (index st)) st)
           else mret ());
      mret removed
  end.

Definition purge_mailbox (mailbox : string) : M QueueStore anyhow Z :=
  let '(lo, hi) := mailbox_bounds mailbox in
  st ← get;
  _ ← begin_txn Failed;
  table ← open_table Failed (db st);
  entries ← txn_range Failed table lo hi;
  '(freed, keys) ← foldM (λ '(freed, keys) '(k, v),
    _ ← io_call Failed;
    let freed :=
      match from_slice v with
      | Some val => freed +^ slen (sv_c val)
      | None => freed
      end in
    mret (freed, keys ++ [k])) (0, []) entries;
  table ← txn_remove_all Failed table keys;
  _ ← commit Failed;
  _ ← modify (set_db table);
  _ ← modify (λ st, set_total (atomic_sub_saturating (total_bytes st) freed) st);
  _ ← modify (λ st, set_index (delete mailbox (index st)) st);
  mret (Z.of_nat (length keys)).

(** [per_mailbox.entry(mailbox).or_insert((0, 0))], incremented. *)
Definition per_mailbox_add (mailbox : string) (len : Z) (pm : gmap string (Z * Z)) : gmap string (Z * Z) :=
  let e := default (0, 0) (pm !! mailbox) in
  <[mailbox := (e.1 +! 1, e.2 +^ len)]> pm.

Definition sweep_expired : M QueueStore anyhow Z :=
  now ← now_ms;
  let cutoff := now -^ QUEUE_TTL_MS in
  st ← get;
  _ ← begin_txn Failed;
  table ← open_table Failed (db st);
  entries ← txn_iter Failed table;
  '(freed, keys, per_mailbox) ← foldM (λ '(freed, keys, per_mailbox) '(k, v),
    _ ← io_call Failed;
    match from_slice v with
    | Some val =>
        if sv_q val <? cutoff then
          let per_mailbox :=
            match parse_mailbox k with
            | Some mailbox => per_mailbox_add mailbox (slen (sv_c val)) per_mailbox
            | None => per_mailbox
            end in
          mret (freed +^ slen (sv_c val), keys ++ [k], per_mailbox)
        else mret (freed, keys, per_mailbox)
    | None => mret (freed, keys, per_mailbox)
    end) (0, [], ∅) entries;
  table ← txn_remove_all Failed table keys;
  _ ← commit Failed;
  _ ← modify (set_db table);
  _ ← modify (λ st, set_total (atomic_sub_saturating (total_bytes st) freed) st);
  _ ← modify (λ st,
    set_index (foldl (λ ix '(mailbox, (count, bytes)), index_sub mailbox count bytes ix)
                 (index st) (map_to_list per_mailbox)) st);
  mret (Z.of_nat (length keys)).
End Store.

Arguments QueueStore {_}.
