(* ===== verification/QueueFacts.v ===== *)
(** What the queue store guarantees.

    [queue_of] is the specification's view of a mailbox (a list, oldest first);
    [Inv] is the invariant of the store; [make_room] says which of the oldest
    entries an enqueue drops.  Every method is run symbolically once ([*_wp]):
    on a success the view changes as specified and [Inv] holds, an error happens
    only when a database call failed and leaves table and counters alone. *)
From Stdlib Require Import ZArith Lia Ascii String.
From stdpp Require Import base gmap strings list sorting.
From S2P Require Import Prelude Redb RustStd Config Util Protocol QueueStore.

Section Facts.
Context {RD : Redb} {UL : UuidLib} {SV : Serde StoredValue}.
Implicit Types (D : gmap string StoredValue) (mb : string) (st : QueueStore).

(** ** The specification's view *)

Definition entries st : gmap string StoredValue := decoded (db st).

Definition queue_entries mb D : list (Uuid * StoredValue) :=
  omap (λ kv, (λ id, (id, kv.2)) <$> parse_id kv.1) (map_to_list (owned mb D)).

Definition queue_of mb D : list (Uuid * StoredValue) :=
  sort_by_key (λ e, sv_s e.2) (queue_entries mb D).

Definition len (v : StoredValue) : Z := slen (sv_c v).

Definition count_of mb D : Z := msum (weigh mb (λ _, 1)) D.

Definition bytes_of mb D : Z := msum (weigh mb len) D.

Definition total_of D : Z := msum (λ _, len) D.

Record wf_entries D : Prop := {
  wf_keys : ∀ k v, D !! k = Some v → ∃ mb id, k = key_for mb id ∧ no_char ":" mb;
  wf_seq_inj : ∀ k1 k2 v1 v2,
    D !! k1 = Some v1 → D !! k2 = Some v2 → sv_s v1 = sv_s v2 → k1 = k2;
}.

Record Inv st : Prop := {
  inv_decodes : ∀ k v, tbl_get (db st) k = Some v → is_Some (from_slice v : option StoredValue);
  inv_wf : wf_entries (entries st);
  inv_seq : ∀ k v, entries st !! k = Some v → 0 ≤ sv_s v < next_seq st;
  inv_next : 0 ≤ next_seq st ≤ u64_max;
  inv_total : total_bytes st = total_of (entries st) ∧ total_of (entries st) ≤ u64_max;
  inv_index : ∀ mb, index_entry mb st = (count_of mb (entries st), bytes_of mb (entries st));
  inv_caps : ∀ mb, count_of mb (entries st) ≤ MAX_QUEUE_PER_RECIPIENT
                   ∧ bytes_of mb (entries st) ≤ PER_MAILBOX_QUEUE_BYTES;
}.

(** Whether one more envelope of [inc] bytes fits behind [q]. *)
Definition fits (inc : Z) (q : list (Uuid * StoredValue)) : Prop :=
  Z.of_nat (length q) + 1 ≤ MAX_QUEUE_PER_RECIPIENT ∧ sum_len q + inc ≤ PER_MAILBOX_QUEUE_BYTES.

#[global] Instance fits_dec inc q : Decision (fits inc q).
Proof. unfold fits. apply _. Defined.

(** Drops the oldest entries until the envelope fits. *)
Fixpoint make_room (inc : Z) (q : list (Uuid * StoredValue)) : list (Uuid * StoredValue) :=
  match q with
  | [] => []
  | _ :: q' => if decide (fits inc q) then q else make_room inc q'
  end.

Fixpoint evicted (inc : Z) (q : list (Uuid * StoredValue)) : list (Uuid * StoredValue) :=
  match q with
  | [] => []
  | e :: q' => if decide (fits inc q) then [] else e :: evicted inc q'
  end.

Lemma evicted_make_room inc q : evicted inc q ++ make_room inc q = q.
Proof. induction q as [|e q IH]; [done|]. cbn [evicted make_room]. case_decide; [done|]. simpl. by rewrite IH. Qed.

Lemma make_room_fits inc q : inc ≤ PER_MAILBOX_QUEUE_BYTES → fits inc (make_room inc q).
Proof.
  intros Hinc. induction q as [|e q IH]; cbn [make_room]; [|by case_decide].
  split; [done|]. unfold sum_len. simpl. lia.
Qed.

Lemma make_room_id inc q : fits inc q → make_room inc q = q ∧ evicted inc q = [].
Proof. destruct q as [|e q]; [done|]. cbn [make_room evicted]. intros. by rewrite !decide_True. Qed.

(** No evicted entry but the last could have stayed. *)
Lemma evicted_last inc q d e :
  evicted inc q = d ++ [e] → ¬ fits inc (e :: make_room inc q).
Proof.
  revert d. induction q as [|x q IH]; intros d; cbn [evicted make_room]; [by destruct d|].
  case_decide as Hfit; [by destruct d|]. destruct d as [|y d]; simpl; intros [= -> Hev].
  - pose proof (evicted_make_room inc q) as Hq. rewrite Hev in Hq. simpl in Hq. by rewrite Hq.
  - by apply (IH d).
Qed.

(** ** Keys *)

Lemma key_owner mb id : no_char ":" mb → owner (key_for mb id) = Some mb.
Proof. apply owner_app. Qed.

Lemma key_parse_id mb id : no_char ":" mb → parse_id (key_for mb id) = Some id.
Proof.
  intros Hmb. unfold parse_id, key_for. change (":" +:+ uuid_string id) with (String ":" (uuid_string id)).
  rewrite split_once_app by done. apply uuid_parse_string.
Qed.

Lemma key_inj mb id id' : no_char ":" mb → key_for mb id = key_for mb id' → id = id'.
Proof. intros Hmb Hk%(f_equal parse_id). rewrite !key_parse_id in Hk by done. congruence. Qed.

Lemma wf_owned D mb k v :
  wf_entries D → D !! k = Some v → owner k = Some mb → ∃ id, k = key_for mb id ∧ no_char ":" mb.
Proof.
  intros [Hk _] Hkv Ho. destruct (Hk _ _ Hkv) as (mb' & id & -> & Hmb).
  rewrite key_owner in Ho by done. simplify_eq. eauto.
Qed.

(** ** The view and the map *)

Lemma omap_NoDup {K A B} (f : K * A → option B) (l : list (K * A)) :
  NoDup l.*1 → (∀ x y z, x ∈ l → y ∈ l → f x = Some z → f y = Some z → x.1 = y.1) →
  NoDup (omap f l).
Proof.
  induction l as [|x l IH]; simpl; [constructor|]. intros [Hx Hl]%NoDup_cons Hf.
  assert (NoDup (omap f l)).
  { apply IH; [done|]. intros ????? . apply Hf; by right. }
  destruct (f x) as [z|] eqn:E; [|done]. constructor; [|done].
  intros (y & Hy & Hfy)%list_elem_of_omap. apply Hx.
  rewrite (Hf x y z); [by apply list_elem_of_fmap_2|left|by right|done|done].
Qed.

Lemma elem_queue_entries D mb id v :
  wf_entries D → no_char ":" mb →
  (id, v) ∈ queue_entries mb D ↔ D !! key_for mb id = Some v.
Proof.
  intros Hwf Hmb. unfold queue_entries. rewrite list_elem_of_omap. split.
  - intros ([k v'] & Hin & Hf). rewrite elem_of_map_to_list, owned_lookup_Some in Hin.
    destruct Hin as [Hkv Ho]. destruct (wf_owned _ _ _ _ Hwf Hkv Ho) as (id' & -> & _).
    simpl in Hf. rewrite key_parse_id in Hf by done. by simplify_eq/=.
  - intros Hkv. exists (key_for mb id, v). rewrite elem_of_map_to_list, owned_lookup_Some.
    rewrite key_owner by done. simpl. by rewrite key_parse_id.
Qed.

(** Any list of a mailbox's entries, sorted, is its queue. *)
Lemma sorted_is_queue D mb l :
  wf_entries D → no_char ":" mb → NoDup l →
  (∀ id v, (id, v) ∈ l ↔ D !! key_for mb id = Some v) →
  increasing (λ e, sv_s e.2) (sort_by_key (λ e, sv_s e.2) l).
Proof.
  intros Hwf Hmb Hnd Hl. apply sort_by_key_increasing. apply NoDup_fmap_2_strong; [|done].
  intros [id1 v1] [id2 v2] H1 H2 Hs. simpl in Hs. rewrite Hl in H1, H2.
  assert (id1 = id2) as -> by (eapply key_inj, (wf_seq_inj _ Hwf); done).
  congruence.
Qed.

Lemma queue_entries_NoDup D mb : wf_entries D → NoDup (queue_entries mb D).
Proof.
  intros Hwf. apply omap_NoDup; [apply NoDup_fst_map_to_list|].
  intros [k1 v1] [k2 v2] [id v] H1 H2 E1 E2. simpl in *.
  rewrite elem_of_map_to_list, owned_lookup_Some in H1, H2. destruct H1 as [H1 O1], H2 as [H2 O2].
  destruct (wf_owned _ _ _ _ Hwf H1 O1) as (id1 & -> & Hmb).
  destruct (wf_owned _ _ _ _ Hwf H2 O2) as (id2 & -> & _).
  rewrite key_parse_id in E1, E2 by done. by simplify_eq/=.
Qed.

Lemma queue_increasing D mb :
  wf_entries D → no_char ":" mb → increasing (λ e, sv_s e.2) (queue_of mb D).
Proof.
  intros Hwf Hmb. eapply sorted_is_queue; [done..|by apply queue_entries_NoDup|].
  intros. by apply elem_queue_entries.
Qed.

Lemma elem_queue D mb id v :
  wf_entries D → no_char ":" mb → (id, v) ∈ queue_of mb D ↔ D !! key_for mb id = Some v.
Proof.
  intros. unfold queue_of. rewrite sort_by_key_perm. by apply elem_queue_entries.
Qed.

(** An increasing list with the mailbox's entries is its queue. *)
Lemma queue_unique D mb l :
  wf_entries D → no_char ":" mb → increasing (λ e, sv_s e.2) l →
  (∀ id v, (id, v) ∈ l ↔ D !! key_for mb id = Some v) → queue_of mb D = l.
Proof.
  intros Hwf Hmb Hinc Hl. eapply increasing_ext; [by apply queue_increasing|done|].
  intros [id v]. by rewrite elem_queue, Hl.
Qed.

(** A mailbox's queue depends only on its own entries. *)
Lemma queue_ext D D' mb :
  wf_entries D → wf_entries D' → no_char ":" mb →
  (∀ id, D' !! key_for mb id = D !! key_for mb id) → queue_of mb D' = queue_of mb D.
Proof.
  intros Hwf Hwf' Hmb H. apply queue_unique; [done..|by apply queue_increasing|].
  intros id v. by rewrite elem_queue, H.
Qed.

Lemma queue_ids_NoDup D mb : wf_entries D → no_char ":" mb → NoDup (queue_of mb D).*1.
Proof.
  intros Hwf Hmb. apply NoDup_fmap_2_strong.
  - intros [id1 v1] [id2 v2] H1 H2 E. simpl in E. subst.
    rewrite elem_queue in H1, H2 by done. congruence.
  - eapply increasing_NoDup, queue_increasing; done.
Qed.

(** ** Sums over some of a mailbox's entries *)

Definition keys_of mb (l : list (Uuid * StoredValue)) : list string := key_for mb <$> l.*1.

Lemma keys_of_NoDup mb l : no_char ":" mb → NoDup l.*1 → NoDup (keys_of mb l).
Proof. intros Hmb. apply NoDup_fmap_2_strong. intros ?? _ _. by apply key_inj. Qed.

Lemma sum_contrib (f : string → StoredValue → Z) D mb l :
  (∀ e, e ∈ l → D !! key_for mb e.1 = Some e.2) →
  zsum (contrib f D <$> keys_of mb l) = zsum ((λ e, f (key_for mb e.1) e.2) <$> l).
Proof.
  unfold keys_of. induction l as [|e l IH]; intros Hl; [done|].
  rewrite !fmap_cons. cbn [zsum foldr]. f_equal; [|apply IH; intros; apply Hl; by right].
  unfold contrib. by rewrite (Hl e) by left.
Qed.

Lemma queue_entry D mb e :
  wf_entries D → no_char ":" mb → e ∈ queue_of mb D → D !! key_for mb e.1 = Some e.2.
Proof. destruct e as [id v]. intros ??. by rewrite elem_queue. Qed.

(** The sum over a whole mailbox is the sum over its queue. *)
Lemma msum_queue w D mb :
  wf_entries D → no_char ":" mb → msum (weigh mb w) D = zsum ((λ e, w e.2) <$> queue_of mb D).
Proof.
  intros Hwf Hmb.
  assert (zsum (contrib (weigh mb w) D <$> keys_of mb (queue_of mb D))
          = zsum ((λ e, w e.2) <$> queue_of mb D)) as Hsum.
  { rewrite sum_contrib by (intros; by apply queue_entry). f_equal.
    apply list_fmap_ext. intros j e _. unfold weigh. by rewrite key_owner, decide_True. }
  assert (msum (weigh mb w) (remove_keys (keys_of mb (queue_of mb D)) D) = 0) as Hrest.
  { apply msum_zero. intros k v (Hkv & Hk)%remove_keys_Some. unfold weigh. case_decide as Ho; [|done].
    destruct (wf_owned _ _ _ _ Hwf Hkv Ho) as (id & -> & _). destruct Hk.
    unfold keys_of. apply list_elem_of_fmap_2, (list_elem_of_fmap_2' fst _ (id, v)); [|done].
    by apply elem_queue. }
  rewrite msum_remove_keys in Hrest by (by apply keys_of_NoDup, queue_ids_NoDup). lia.
Qed.

Lemma count_queue D mb :
  wf_entries D → no_char ":" mb → count_of mb D = Z.of_nat (length (queue_of mb D)).
Proof. intros. unfold count_of. by rewrite msum_queue, zsum_ones. Qed.

Lemma bytes_queue D mb :
  wf_entries D → no_char ":" mb → bytes_of mb D = sum_len (queue_of mb D).
Proof. intros. unfold bytes_of. by rewrite msum_queue. Qed.

Lemma sum_len_nonneg q : 0 ≤ sum_len q.
Proof.
  apply zsum_nonneg, Forall_forall. intros z (e & -> & _)%list_elem_of_fmap. apply slen_nonneg.
Qed.

Lemma sum_len_app q q' : sum_len (q ++ q') = sum_len q + sum_len q'.
Proof. unfold sum_len. by rewrite fmap_app, zsum_app. Qed.

Lemma len_nonneg v : 0 ≤ len v.
Proof. apply slen_nonneg. Qed.

Lemma bytes_le_total mb D : 0 ≤ bytes_of mb D ≤ total_of D.
Proof.
  split; [apply msum_nonneg|apply msum_le]; intros k v _; apply weigh_range, len_nonneg.
Qed.

Lemma count_nonneg mb D : 0 ≤ count_of mb D.
Proof. apply msum_nonneg. intros. by apply weigh_range. Qed.

(** ** The eviction loop *)

Lemma evict_loop_spec inc q eb ids :
  0 ≤ inc → 0 ≤ eb → eb + sum_len q ≤ u64_max → sum_len q + inc ≤ u64_max →
  Z.of_nat (length q) + 1 ≤ u64_max →
  evict_loop q (Z.of_nat (length q)) (sum_len q) inc eb ids
  = (eb + sum_len (evicted inc q), ids ++ (evicted inc q).*1).
Proof.
  revert eb ids. induction q as [|[id v] q IH]; intros eb ids Hinc Heb H1 H2 H3.
  { simpl. unfold sum_len. simpl. rewrite app_nil_r. f_equal. lia. }
  assert (sum_len ((id, v) :: q) = len v + sum_len q) as Hs by done.
  assert (Z.of_nat (length ((id, v) :: q)) = Z.of_nat (length q) + 1) as Hl by (simpl; lia).
  pose proof (len_nonneg v). pose proof (sum_len_nonneg q).
  cbn [evict_loop evicted]. rewrite Hs, Hl in *.
  rewrite !wrap64_small by (unfold is_u64; lia).
  destruct (orb _ _) eqn:E.
  - rewrite decide_False.
    2:{ unfold fits. rewrite Hs, Hl. apply orb_true_iff in E. rewrite !Z.ltb_lt in E. lia. }
    change (slen (sv_c v)) with (len v).
    replace (Z.of_nat (length q) + 1 - 1) with (Z.of_nat (length q)) by lia.
    replace (len v + sum_len q - len v) with (sum_len q) by lia.
    rewrite !wrap64_small by (unfold is_u64; lia). rewrite sat_add_small by lia.
    rewrite IH by lia. simpl. rewrite <- app_assoc. f_equal.
    change (sum_len ((id, v) :: evicted inc q)) with (len v + sum_len (evicted inc q)). lia.
  - apply orb_false_iff in E. rewrite !Z.ltb_ge in E.
    rewrite decide_True by (unfold fits; rewrite Hs, Hl; lia).
    simpl. rewrite app_nil_r. f_equal. unfold sum_len. simpl. lia.
Qed.

(** ** What removals and an append do to the map, the view and the sums *)

Lemma wf_remove_keys D ks : wf_entries D → wf_entries (remove_keys ks D).
Proof.
  intros [Hk Hs]. split.
  - intros k v [Hkv _]%remove_keys_Some. eauto.
  - intros k1 k2 v1 v2 [H1 _]%remove_keys_Some [H2 _]%remove_keys_Some. eauto.
Qed.

(** Removing keys keeps the invariant when the counters become those of the
    smaller table. *)
Lemma Inv_remove st t ks tot ix :
  Inv st →
  (∀ k, tbl_get t k = if decide (k ∈ ks) then None else tbl_get (db st) k) →
  tot = total_of (remove_keys ks (entries st)) →
  (∀ mb, default (0, 0) (ix !! mb)
         = (count_of mb (remove_keys ks (entries st)), bytes_of mb (remove_keys ks (entries st)))) →
  let st' := {| db := t; total_bytes := tot; next_seq := next_seq st; index := ix |} in
  entries st' = remove_keys ks (entries st) ∧ Inv st'.
Proof.
  intros HI Ht Htot Hix st'.
  assert (entries st' = remove_keys ks (entries st)) as HD.
  { apply map_eq. intros k. apply option_eq. intros v. unfold entries, st'. simpl.
    rewrite remove_keys_Some, !decoded_lookup, Ht. case_decide; simpl; [|tauto].
    split; [done|tauto]. }
  assert (∀ mb w k v, (∀ v, 0 ≤ w v) → entries st !! k = Some v → 0 ≤ weigh mb w k v) as Hw.
  { intros mb w k v Hw _. by apply weigh_range. }
  split; [done|]. split; rewrite ?HD.
  - intros k v. simpl. rewrite Ht. case_decide; [done|]. apply (inv_decodes _ HI).
  - apply wf_remove_keys, HI.
  - intros k v [Hk _]%remove_keys_Some. by apply (inv_seq _ HI) in Hk.
  - apply HI.
  - split; [done|]. pose proof (inv_total _ HI) as [_ Hu].
    etrans; [|exact Hu]. apply msum_remove_keys_le. intros. apply len_nonneg.
  - apply Hix.
  - intros mb. pose proof (inv_caps _ HI mb) as [Hc Hb].
    split; (etrans; [|done]); apply msum_remove_keys_le; intros k v; apply Hw; intros;
      [lia|apply len_nonneg].
Qed.

(** Entries without their mailbox key are not in the view. *)
Lemma queue_remove_keys D mb ks (P : Uuid * StoredValue → Prop) `{∀ e, Decision (P e)} :
  wf_entries D → no_char ":" mb →
  (∀ id v, D !! key_for mb id = Some v → P (id, v) ↔ key_for mb id ∉ ks) →
  queue_of mb (remove_keys ks D) = filter P (queue_of mb D).
Proof.
  intros Hwf Hmb HP. apply queue_unique; [by apply wf_remove_keys|done| |].
  - by apply increasing_filter, queue_increasing.
  - intros id v. rewrite list_elem_of_filter, elem_queue, remove_keys_Some by done.
    split.
    + intros [H1 H2]. split; [done|]. by apply (HP id v H2).
    + intros [H1 H2]. split; [|done]. by apply (HP id v H1).
Qed.

Lemma wf_insert D mb id val :
  wf_entries D → no_char ":" mb → (∀ k v, D !! k = Some v → sv_s v ≠ sv_s val) →
  wf_entries (<[key_for mb id := val]> D).
Proof.
  intros [Hk Hs] Hmb Hval. split.
  - intros k v [[<- _]|[_ Hkv]]%lookup_insert_Some; eauto.
  - intros k1 k2 v1 v2 [[<- <-]|[_ H1]]%lookup_insert_Some [[<- <-]|[_ H2]]%lookup_insert_Some E;
      [done|by destruct (Hval _ _ H2)|by destruct (Hval _ _ H1)|eauto].
Qed.

Lemma queue_insert D mb id val :
  wf_entries D → no_char ":" mb → D !! key_for mb id = None →
  (∀ k v, D !! k = Some v → sv_s v < sv_s val) →
  queue_of mb (<[key_for mb id := val]> D) = queue_of mb D ++ [(id, val)].
Proof.
  intros Hwf Hmb Hnew Hval. apply queue_unique.
  - apply wf_insert; [done..|]. intros k v Hk%Hval. lia.
  - done.
  - apply increasing_snoc; [by apply queue_increasing|].
    intros [id' v'] Hin. apply elem_queue in Hin; [|done..]. by eapply Hval.
  - intros id' v'. rewrite elem_of_app, list_elem_of_singleton, elem_queue, lookup_insert_Some by done.
    split.
    + intros [Hin|[= -> ->]]; [|by left]. right. split; [|done].
      intros E. by rewrite <- E, Hnew in Hin.
    + intros [[E <-]|[_ Hin]]; [right|by left]. by apply key_inj in E as ->.
Qed.

(** The evicted entries are the front of the queue. *)
Lemma evicted_elem inc q e : e ∈ evicted inc q → e ∈ q.
Proof. intros He. rewrite <- (evicted_make_room inc q), elem_of_app. by left. Qed.

Lemma queue_evict D mb inc :
  wf_entries D → no_char ":" mb →
  queue_of mb (remove_keys (keys_of mb (evicted inc (queue_of mb D))) D)
  = make_room inc (queue_of mb D).
Proof.
  intros Hwf Hmb. set (q := queue_of mb D).
  pose proof (evicted_make_room inc q) as Hq. pose proof (queue_ids_NoDup D mb Hwf Hmb) as Hnd.
  fold q in Hnd. rewrite <- Hq, fmap_app, NoDup_app in Hnd. destruct Hnd as (_ & Hdis & _).
  apply queue_unique; [by apply wf_remove_keys|done| |].
  - pose proof (queue_increasing D mb Hwf Hmb) as Hinc. fold q in Hinc.
    rewrite <- Hq in Hinc. rewrite <- (drop_app_length (evicted inc q) (make_room inc q)).
    by apply increasing_drop.
  - intros id v. rewrite remove_keys_Some, <- elem_queue by done. fold q.
    assert (key_for mb id ∈ keys_of mb (evicted inc q) ↔ id ∈ (evicted inc q).*1) as Hk.
    { unfold keys_of. split; [|apply list_elem_of_fmap_2].
      intros (id' & E & ?)%list_elem_of_fmap. by apply key_inj in E as ->. }
    rewrite Hk. split.
    + intros Hin. split; [rewrite <- Hq, elem_of_app; by right|].
      intros Hin'. eapply Hdis; [done|]. by apply (list_elem_of_fmap_2' fst _ (id, v)).
    + intros [Hin Hnot]. rewrite <- Hq, elem_of_app in Hin. destruct Hin as [Hin|]; [|done].
      destruct Hnot. by apply (list_elem_of_fmap_2' fst _ (id, v)).
Qed.

Lemma msum_evict f D mb inc :
  wf_entries D → no_char ":" mb →
  msum f (remove_keys (keys_of mb (evicted inc (queue_of mb D))) D)
  = msum f D - zsum ((λ e, f (key_for mb e.1) e.2) <$> evicted inc (queue_of mb D)).
Proof.
  intros Hwf Hmb. rewrite msum_remove_keys, (sum_contrib _ D); [done| |].
  - intros e He. apply queue_entry; [done..|]. by eapply evicted_elem.
  - apply keys_of_NoDup; [done|].
    pose proof (queue_ids_NoDup D mb Hwf Hmb) as Hnd.
    rewrite <- (evicted_make_room inc (queue_of mb D)), fmap_app in Hnd.
    by apply NoDup_app in Hnd as (? & _).
Qed.

(** A sum over entries of one mailbox, weighed for a mailbox. *)
Lemma zsum_weigh mb mb' w (l : list (Uuid * StoredValue)) :
  no_char ":" mb →
  zsum ((λ e, weigh mb' w (key_for mb e.1) e.2) <$> l)
  = if decide (mb = mb') then zsum ((λ e, w e.2) <$> l) else 0.
Proof.
  intros Hmb. induction l as [|e l IH]; [by case_decide|].
  rewrite !fmap_cons, !zsum_cons, IH. unfold weigh. rewrite key_owner by done.
  repeat case_decide; simplify_eq; lia.
Qed.
End Facts.
