(* ===== verification/QueueRuns.v ===== *)
(** The methods of the queue store, run symbolically: each [*_wp] gives the
    state and the result of a method on a success and on a failed database
    call, with the invariant of [QueueFacts] kept. *)
From Stdlib Require Import ZArith Lia Ascii String.
From stdpp Require Import base gmap strings list sorting.
From S2P Require Import Prelude Redb RustStd Config Util Protocol QueueStore QueueFacts.

Section Runs.
Context {RD : Redb} {UL : UuidLib} {SV : Serde StoredValue}.
Implicit Types (D : gmap string StoredValue) (mb : string) (st : QueueStore).

(** ** Reading *)

Definition read_step (out : list (Uuid * StoredValue)) (kv : string * bytes) :=
  match parse_id kv.1 with
  | None => out
  | Some id => match from_slice kv.2 with Some val => out ++ [(id, val)] | None => out end
  end.

Definition read_entry (kv : string * bytes) : option (Uuid * StoredValue) :=
  id ← parse_id kv.1; val ← from_slice kv.2; Some (id, val).

Lemma foldl_read_step out l : foldl read_step out l = out ++ omap read_entry l.
Proof.
  revert out. induction l as [|kv l IH]; intros out; simpl; [by rewrite app_nil_r|].
  rewrite IH. unfold read_step, read_entry. destruct (parse_id kv.1) as [id|]; simpl; [|done].
  destruct (from_slice kv.2); simpl; [|done]. by rewrite <- app_assoc.
Qed.

Lemma read_entry_key st mb k b id v :
  wf_entries (entries st) → tbl_get (db st) k = Some b → owner k = Some mb →
  read_entry (k, b) = Some (id, v) → k = key_for mb id ∧ entries st !! k = Some v.
Proof.
  intros Hwf Hg Ho Hr. unfold read_entry in Hr. simpl in Hr.
  destruct (parse_id k) as [id'|] eqn:Ei; [|done]. simpl in Hr.
  destruct (from_slice b) as [v'|] eqn:Ev; [|done]. simplify_eq/=.
  assert (entries st !! k = Some v) as Hk by (unfold entries; by rewrite decoded_lookup, Hg).
  destruct (wf_owned (entries st) mb k v) as (id' & -> & Hmb); [done..|].
  rewrite key_parse_id in Ei by done. by simplify_eq.
Qed.

(** The range of a mailbox, decoded and sorted, is its queue. *)
Lemma range_queue st mb :
  wf_entries (entries st) → no_char ":" mb →
  sort_by_key (λ e, sv_s e.2) (omap read_entry (tbl_range (db st) (mb +:+ ":") (mb +:+ ";")))
  = queue_of mb (entries st).
Proof.
  intros Hwf Hmb. set (l := tbl_range _ _ _).
  assert (∀ k b, (k, b) ∈ l ↔ tbl_get (db st) k = Some b ∧ owner k = Some mb) as Hl.
  { intros k b. unfold l. rewrite range_owned, elem_of_map_to_list, owned_lookup_Some by done.
    by rewrite contents_lookup. }
  assert (∀ id v, (id, v) ∈ omap read_entry l ↔ entries st !! key_for mb id = Some v) as Helem.
  { intros id v. rewrite list_elem_of_omap. split.
    - intros ([k b] & [Hg Ho]%Hl & Hr). by destruct (read_entry_key st mb k b id v) as [-> ?].
    - unfold entries. rewrite decoded_lookup.
      destruct (tbl_get (db st) (key_for mb id)) as [b|] eqn:Hg; [|done]. simpl. intros Ev.
      exists (key_for mb id, b). split; [apply Hl; by rewrite key_owner|].
      unfold read_entry. simpl. rewrite key_parse_id by done. simpl. by rewrite Ev. }
  symmetry. apply queue_unique; [done..| |].
  - eapply sorted_is_queue; [done..| |done]. apply omap_NoDup.
    + unfold l. rewrite range_owned by done. apply NoDup_fst_map_to_list.
    + intros [k1 b1] [k2 b2] [id v] [H1 O1]%Hl [H2 O2]%Hl E1 E2. simpl.
      destruct (read_entry_key st mb k1 b1 id v) as [-> _]; [done..|].
      by destruct (read_entry_key st mb k2 b2 id v) as [-> _].
  - intros id v. by rewrite sort_by_key_perm.
Qed.

Lemma read_mailbox_wp i0 st mb i (Q : anyhow + list (Uuid * StoredValue) → QueueStore → io → Prop) :
  wf_entries (entries st) → no_char ":" mb → io_step i0 i →
  (∀ i', io_step i0 i' → Q (inr (queue_of mb (entries st))) st i') →
  (¬ quiet i0 → ∀ i', io_step i0 i' → Q (inl Failed) st i') →
  wp (read_mailbox mb) Q st i.
Proof.
  intros Hwf Hmb Hi H1 H2. unfold read_mailbox. simpl.
  wp_txn ltac:(by auto).
  eapply (wp_scan _ _ read_step Failed); [|exact Hi| |].
  - intros out [k v] Q' s i' Hw. unfold read_step in Hw. simpl in *.
    destruct (parse_id k); [destruct (from_slice v)|]; exact Hw.
  - intros i' Hi'. rewrite foldl_read_step, app_nil_l. wp_steps.
    rewrite range_queue by done. auto.
  - auto.
Qed.
Lemma flush_wp i0 st mb i (Q : anyhow + list StoredEnvelope → QueueStore → io → Prop) :
  wf_entries (entries st) → no_char ":" mb → io_step i0 i →
  (∀ i', io_step i0 i' → Q (inr (to_envelope mb <$> queue_of mb (entries st))) st i') →
  (¬ quiet i0 → ∀ i', io_step i0 i' → Q (inl Failed) st i') →
  wp (flush mb) Q st i.
Proof.
  intros Hwf Hmb Hi H1 H2. unfold flush. wp_step.
  apply (read_mailbox_wp i0); auto.
Qed.

(** [is_empty] looks at the raw range; with every value decodable that is the
    queue. *)
Lemma range_nil st mb :
  Inv st → no_char ":" mb →
  tbl_range (db st) (mb +:+ ":") (mb +:+ ";") = [] ↔ queue_of mb (entries st) = [].
Proof.
  intros HI Hmb. pose proof (inv_wf _ HI) as Hwf. split; intros Hn.
  - by rewrite <- (range_queue st) by done; rewrite Hn.
  - destruct (tbl_range _ _ _) as [|[k b] l] eqn:E; [done|exfalso].
    assert ((k, b) ∈ tbl_range (db st) (mb +:+ ":") (mb +:+ ";")) as Hin by (rewrite E; left).
    rewrite range_owned, elem_of_map_to_list, owned_lookup_Some, contents_lookup in Hin by done.
    destruct Hin as [Hg Ho]. destruct (inv_decodes _ HI _ _ Hg) as [v Hv].
    assert (entries st !! k = Some v) as Hk by (unfold entries; by rewrite decoded_lookup, Hg).
    destruct (wf_owned _ _ _ _ Hwf Hk Ho) as (id & -> & _).
    apply elem_queue in Hk; [|done..]. rewrite Hn in Hk. by apply not_elem_of_nil in Hk.
Qed.

Lemma is_empty_wp i0 st mb i (Q : anyhow + bool → QueueStore → io → Prop) :
  Inv st → no_char ":" mb → io_step i0 i →
  (∀ i', io_step i0 i' → Q (inr (bool_decide (queue_of mb (entries st) = []))) st i') →
  (¬ quiet i0 → ∀ i', io_step i0 i' → Q (inl Failed) st i') →
  wp (is_empty mb) Q st i.
Proof.
  intros HI Hmb Hi H1 H2. unfold is_empty. simpl. wp_txn ltac:(by auto).
  replace (match _ with [] => _ | _ => _ end)
    with (bool_decide (queue_of mb (entries st) = [])); [by auto|].
  pose proof (range_nil st mb HI Hmb) as Hn.
  destruct (tbl_range _ _ _); [by apply bool_decide_eq_true, Hn|].
  apply bool_decide_eq_false. rewrite <- Hn. done.
Qed.

(** ** Enqueue *)

Definition new_value (env : StoredEnvelope) (now seq : Z) : StoredValue :=
  {| sv_t := envelope_type env; sv_c := ciphertext env; sv_q := now; sv_s := seq |}.

(** What the caller of [enqueue] ensures: a usable mailbox id, a fresh
    envelope id, an envelope within the mailbox budget (a frame is far
    smaller), and counters that do not reach 2^64. *)
Record enqueue_pre st mb (env : StoredEnvelope) : Prop := {
  pre_mailbox : no_char ":" mb;
  pre_fresh : entries st !! key_for mb (env_id env) = None;
  pre_len : slen (ciphertext env) ≤ PER_MAILBOX_QUEUE_BYTES;
  pre_total : total_bytes st + slen (ciphertext env) ≤ u64_max;
  pre_seq : next_seq st < u64_max;
}.

#[global] Instance enqueue_pre_dec st mb env : Decision (enqueue_pre st mb env).
Proof.
  refine (cast_if (decide ((no_char ":" mb ∧ entries st !! key_for mb (env_id env) = None)
    ∧ slen (ciphertext env) ≤ PER_MAILBOX_QUEUE_BYTES
    ∧ total_bytes st + slen (ciphertext env) ≤ u64_max ∧ next_seq st < u64_max)));
    abstract (first [by destruct_and!; constructor | intros []; tauto]).
Defined.

(** The store after an enqueue that evicts [ev]. *)
Definition enqueued st mb env now (ev : list (Uuid * StoredValue)) : QueueStore :=
  let inc := slen (ciphertext env) in
  {| db := tbl_insert (foldl tbl_remove (db st) (keys_of mb ev)) (key_for mb (env_id env))
             (to_vec (new_value env now (next_seq st)));
     total_bytes := (total_bytes st +! inc) -^ sum_len ev;
     next_seq := next_seq st +! 1;
     index := <[mb := ((count_of mb (entries st) -^ Z.of_nat (length ev)) +^ 1,
                       (bytes_of mb (entries st) -^ sum_len ev) +^ inc)]> (index st) |}.

Section Enqueue.
Context (st : QueueStore) (mb : string) (env : StoredEnvelope) (now : Z).
Context (HI : Inv st) (Hpre : enqueue_pre st mb env).

Abbreviation inc := (slen (ciphertext env)).
Abbreviation q := (queue_of mb (entries st)).
Abbreviation ev := (evicted inc q).
Abbreviation val := (new_value env now (next_seq st)).
Abbreviation key := (key_for mb (env_id env)).
Let Hwf : wf_entries (entries st) := inv_wf _ HI.
Let Hmb : no_char ":" mb := pre_mailbox _ _ _ Hpre.

Lemma entries_enqueued :
  entries (enqueued st mb env now ev) = <[key := val]> (remove_keys (keys_of mb ev) (entries st)).
Proof. unfold entries. simpl. by rewrite decoded_insert, decoded_remove_all. Qed.

Lemma fresh_after_evict : remove_keys (keys_of mb ev) (entries st) !! key = None.
Proof.
  destruct (_ !! _) eqn:E; [|done]. apply remove_keys_Some in E as [E _].
  rewrite <- E. apply Hpre.
Qed.

Lemma seq_after_evict k v :
  remove_keys (keys_of mb ev) (entries st) !! k = Some v → sv_s v < sv_s val.
Proof. intros [E _]%remove_keys_Some. apply (inv_seq _ HI) in E. simpl. lia. Qed.

Lemma wf_enqueued : wf_entries (entries (enqueued st mb env now ev)).
Proof.
  rewrite entries_enqueued. apply wf_insert; [by apply wf_remove_keys|done|].
  intros k v E%seq_after_evict. lia.
Qed.

Lemma queue_enqueued :
  queue_of mb (entries (enqueued st mb env now ev)) = make_room inc q ++ [(env_id env, val)].
Proof.
  rewrite entries_enqueued, queue_insert.
  - by rewrite queue_evict.
  - by apply wf_remove_keys.
  - done.
  - apply fresh_after_evict.
  - apply seq_after_evict.
Qed.

Lemma queue_enqueued_other mb' :
  no_char ":" mb' → mb' ≠ mb →
  queue_of mb' (entries (enqueued st mb env now ev)) = queue_of mb' (entries st).
Proof.
  intros Hmb' Hne. apply queue_ext; [done|apply wf_enqueued|done|].
  intros id. rewrite entries_enqueued.
  assert (∀ id', key_for mb id' ≠ key_for mb' id) as Hk.
  { intros id' E%(f_equal owner). rewrite !key_owner in E by done. congruence. }
  rewrite lookup_insert_ne by apply Hk. apply option_eq. intros v.
  rewrite remove_keys_Some. split; [by intros [? _]|]. intros E. split; [done|].
  intros (id' & E' & _)%list_elem_of_fmap. by apply (Hk id').
Qed.

Lemma sum_enqueued f :
  msum f (entries (enqueued st mb env now ev))
  = msum f (entries st) - zsum ((λ e, f (key_for mb e.1) e.2) <$> ev) + f key val.
Proof.
  rewrite entries_enqueued, msum_insert_new by apply fresh_after_evict.
  rewrite msum_evict by done. lia.
Qed.

Lemma total_enqueued :
  total_of (entries (enqueued st mb env now ev)) = total_of (entries st) - sum_len ev + inc.
Proof. unfold total_of. rewrite sum_enqueued. done. Qed.

Lemma weigh_enqueued mb' w :
  msum (weigh mb' w) (entries (enqueued st mb env now ev))
  = msum (weigh mb' w) (entries st)
    + if decide (mb = mb') then w val - zsum ((λ e, w e.2) <$> ev) else 0.
Proof.
  rewrite sum_enqueued, zsum_weigh by done. unfold weigh at 2. rewrite key_owner by done.
  repeat case_decide; simplify_eq; lia.
Qed.

Lemma queue_split : q = ev ++ make_room inc q.
Proof. symmetry. apply evicted_make_room. Qed.

Lemma evicted_bounds :
  Z.of_nat (length ev) + Z.of_nat (length (make_room inc q)) = count_of mb (entries st)
  ∧ sum_len ev + sum_len (make_room inc q) = bytes_of mb (entries st)
  ∧ fits inc (make_room inc q).
Proof.
  rewrite count_queue, bytes_queue by done.
  pose proof (f_equal length queue_split) as H1. rewrite length_app in H1.
  pose proof (f_equal sum_len queue_split) as H2. rewrite sum_len_app in H2.
  split; [lia|]. split; [lia|]. apply make_room_fits, Hpre.
Qed.

Lemma Inv_enqueued : Inv (enqueued st mb env now ev).
Proof.
  pose proof (inv_total _ HI) as [Ht Hu]. pose proof (inv_next _ HI) as Hn.
  pose proof (pre_total _ _ _ Hpre) as Hp. pose proof (pre_seq _ _ _ Hpre) as Hs.
  pose proof evicted_bounds as (Hc & Hb & Hf1 & Hf2).
  pose proof (sum_len_nonneg ev). pose proof (sum_len_nonneg (make_room inc q)).
  pose proof (slen_nonneg (ciphertext env)) as Hinc.
  pose proof (bytes_le_total mb (entries st)) as Hbt.
  assert (next_seq (enqueued st mb env now ev) = next_seq st + 1) as Hnext.
  { simpl. apply wrap64_small. unfold is_u64. lia. }
  unfold MAX_QUEUE_PER_RECIPIENT, PER_MAILBOX_QUEUE_BYTES in *.
  split.
  - intros k v. simpl. rewrite tbl_get_insert, get_remove_all. case_decide.
    { intros [= <-]. rewrite from_slice_to_vec. eauto. }
    case_decide; [done|]. apply (inv_decodes _ HI).
  - apply wf_enqueued.
  - rewrite Hnext, entries_enqueued. intros k v [[_ <-]|[_ [E _]%remove_keys_Some]]%lookup_insert_Some.
    + simpl. lia.
    + apply (inv_seq _ HI) in E. lia.
  - rewrite Hnext. lia.
  - rewrite total_enqueued. cbn [enqueued total_bytes].
    rewrite wrap64_small by (unfold is_u64; lia). rewrite sat_sub_le by lia. lia.
  - intros mb'. unfold index_entry. cbn [enqueued index].
    unfold count_of, bytes_of. rewrite !weigh_enqueued, zsum_ones.
    rewrite lookup_insert. case_decide.
    + subst mb'. cbn [default id]. fold (count_of mb (entries st)) (bytes_of mb (entries st)).
      rewrite !sat_sub_le by lia. rewrite !sat_add_small by (unfold u64_max; lia).
      change (zsum _) with (sum_len ev). change (len val) with inc. f_equal; lia.
    + pose proof (inv_index _ HI mb') as Hix. unfold index_entry in Hix. rewrite Hix.
      rewrite !Z.add_0_r. done.
  - intros mb'. unfold count_of, bytes_of. rewrite !weigh_enqueued, zsum_ones.
    pose proof (inv_caps _ HI mb') as [Hc1 Hc2]. unfold count_of, bytes_of in *.
    case_decide; [subst mb'|by rewrite !Z.add_0_r].
    change (zsum (_ <$> ev)) with (sum_len ev). change (len val) with inc.
    unfold MAX_QUEUE_PER_RECIPIENT, PER_MAILBOX_QUEUE_BYTES. lia.
Qed.
End Enqueue.

Lemma enqueue_wp st mb env i :
  Inv st → enqueue_pre st mb env →
  let ev := evicted (slen (ciphertext env)) (queue_of mb (entries st)) in
  wp (enqueue mb env) (λ r st' i', io_step (clock_tick i) i' ∧
    match r with
    | inr n => n = Z.of_nat (length ev) ∧ st' = enqueued st mb env (next_now i) ev
    | inl _ => ¬ quiet i ∧ st' = set_next_seq (next_seq st + 1) st
    end) st i.
Proof.
  intros HI Hpre ev. pose proof (pre_mailbox _ _ _ Hpre) as Hmb.
  pose proof (inv_wf _ HI) as Hwf. pose proof (evicted_bounds st mb env HI Hpre) as (Hc & Hb & Hf).
  pose proof (inv_caps _ HI mb) as [Hc1 Hc2]. pose proof (bytes_le_total mb (entries st)) as Hbt.
  pose proof (count_nonneg mb (entries st)) as Hc0.
  pose proof (inv_total _ HI) as [_ Hu]. pose proof (pre_total _ _ _ Hpre).
  pose proof (pre_seq _ _ _ Hpre). pose proof (inv_next _ HI). pose proof (pre_len _ _ _ Hpre).
  pose proof (slen_nonneg (ciphertext env)).
  set (inc := slen (ciphertext env)) in *.
  rewrite count_queue, bytes_queue in * by done.
  assert (next_seq st +! 1 = next_seq st + 1) as Hseq by (apply wrap64_small; unfold is_u64; lia).
  set (st1 := set_next_seq (next_seq st + 1) st).
  assert (io_step (clock_tick i) (clock_tick i)) as Hi by done.
  unfold enqueue. wp_step. apply wp_now_ms. cbn beta iota. do 4 wp_step. rewrite Hseq. fold st1.
  wp_txn ltac:(by auto).
  change (index_entry mb st1) with (index_entry mb st). rewrite (inv_index _ HI mb), count_queue, bytes_queue by done.
  cbn beta iota. apply wp_bind.
  assert (∀ i', io_step (clock_tick i) i' →
    wp (if (MAX_QUEUE_PER_RECIPIENT <? Z.of_nat (length (queue_of mb (entries st))) +! 1)
           || (PER_MAILBOX_QUEUE_BYTES <? sum_len (queue_of mb (entries st)) +! inc)
        then existing ← read_mailbox mb;
             mret (evict_loop existing (Z.of_nat (length existing)) (wrap64 (sum_len existing)) inc 0 [])
        else mret (0, []))
      (λ r s' i'', io_step (clock_tick i) i'' ∧ s' = st1 ∧
         match r with
         | inr p => p = (sum_len ev, ev.*1)
         | inl e => e = Failed ∧ ¬ quiet i
         end) st1 i') as Hevict.
  { intros i' Hi'. unfold MAX_QUEUE_PER_RECIPIENT, PER_MAILBOX_QUEUE_BYTES in *.
    destruct (orb _ _) eqn:E.
    - apply wp_bind. apply (read_mailbox_wp (clock_tick i) st1); [done..| |by auto].
      intros i'' Hi''. cbn beta iota. apply wp_ret. split; [done|]. split; [done|].
      change (entries st1) with (entries st).
      rewrite wrap64_small by (unfold is_u64, u64_max; lia).
      rewrite evict_loop_spec by (unfold u64_max; lia). by rewrite Z.add_0_l.
    - apply orb_false_iff in E. rewrite !Z.ltb_ge in E.
      rewrite !wrap64_small in E by (unfold is_u64, u64_max; lia).
      apply wp_ret. split; [done|]. split; [done|].
      unfold ev. by rewrite (proj2 (make_room_id inc _ E)). }
  eapply wp_conseq; [by apply Hevict|]. cbn beta.
  clear Hi. intros r s' i' (Hi & -> & Hr). destruct r as [e|p]; [by destruct Hr|]. subst p. cbn beta iota.
  wp_txn ltac:(by auto). apply (wp_remove_all (clock_tick i)); [done| |by auto].
  clear Hi. intros i'' Hi. cbn beta iota. wp_txn ltac:(by auto).
  split; [done|]. rewrite length_fmap. split; [done|].
  unfold enqueued. cbn. unfold index_entry. cbn. rewrite Hseq.
  pose proof (inv_index _ HI mb) as Hix. unfold index_entry in Hix. by rewrite Hix.
Qed.
End Runs.
