(* ===== verification/QueueRemovals.v ===== *)
(** The removals of the queue store (ack, purge, TTL sweep) and its opening,
    run symbolically, with the invariant kept or established. *)
From Stdlib Require Import ZArith Lia Ascii String.
From stdpp Require Import base gmap strings list sorting.
From S2P Require Import Prelude Redb RustStd Config Util Protocol QueueStore QueueFacts QueueRuns.

Section Removals.
Context {RD : Redb} {UL : UuidLib} {SV : Serde StoredValue}.
Implicit Types (D : gmap string StoredValue) (mb : string) (st : QueueStore).

(** ** The index after a decrement *)

Lemma index_sub_entry mb mb' c b ix :
  let e := default (0, 0) (ix !! mb') in
  (mb' = mb → 0 ≤ c ≤ e.1 ∧ 0 ≤ b ≤ e.2) →
  default (0, 0) (index_sub mb c b ix !! mb') = if decide (mb' = mb) then (e.1 - c, e.2 - b) else e.
Proof.
  intros e Hb. unfold index_sub, e in *. rewrite lookup_alter. case_decide as E1; case_decide as E2; try congruence.
  specialize (Hb E2). clear E1. subst mb'. destruct (ix !! mb) as [[n m]|]; simpl in *.
  - rewrite !sat_sub_le by lia. done.
  - f_equal; lia.
Qed.

(** [per_mailbox] subtracted from the index, mailbox by mailbox. *)
Lemma index_sub_all (l : list (string * (Z * Z))) ix mb :
  NoDup l.*1 →
  foldl (λ ix '(mailbox, (count, bytes)), index_sub mailbox count bytes ix) ix l !! mb
  = match (list_to_map l : gmap string (Z * Z)) !! mb with
    | Some (c, b) => (λ e, (e.1 -^ c, e.2 -^ b)) <$> ix !! mb
    | None => ix !! mb
    end.
Proof.
  revert ix. induction l as [|[k [c b]] l IH]; intros ix; [done|]. simpl.
  intros [Hk Hl]%NoDup_cons. rewrite IH by done. unfold index_sub.
  rewrite lookup_insert, lookup_alter. case_decide; [|done].
  subst. by rewrite not_elem_of_list_to_map_1 by done.
Qed.

Lemma count_entries_nonneg D ks mb :
  0 ≤ count_of mb (remove_keys ks D) ≤ count_of mb D
  ∧ 0 ≤ bytes_of mb (remove_keys ks D) ≤ bytes_of mb D
  ∧ 0 ≤ total_of (remove_keys ks D) ≤ total_of D.
Proof.
  split; [|split]; apply msum_remove_keys_le; intros; try apply weigh_range; try apply len_nonneg; lia.
Qed.

(** The store after [ks], all of mailbox [mb], are removed. *)
Definition removed_from st mb ks (ix : gmap string (Z * Z)) : QueueStore :=
  {| db := foldl tbl_remove (db st) ks;
     total_bytes := total_bytes st -^ (total_of (entries st) - total_of (remove_keys ks (entries st)));
     next_seq := next_seq st;
     index := ix |}.

Lemma Inv_removed_from st mb ks ix :
  Inv st → (∀ k, k ∈ ks → owner k = Some mb) →
  default (0, 0) (ix !! mb)
  = (count_of mb (remove_keys ks (entries st)), bytes_of mb (remove_keys ks (entries st))) →
  (∀ mb', mb' ≠ mb → ix !! mb' = index st !! mb') →
  entries (removed_from st mb ks ix) = remove_keys ks (entries st) ∧ Inv (removed_from st mb ks ix).
Proof.
  intros HI Hks Hix Hother. pose proof (inv_total _ HI) as [Ht _].
  pose proof (count_entries_nonneg (entries st) ks mb) as (_ & _ & Hb).
  apply (Inv_remove st); [done|intros; apply get_remove_all| |].
  - rewrite sat_sub_le by lia. lia.
  - intros mb'. destruct (decide (mb' = mb)) as [->|Hne]; [done|].
    rewrite Hother by done. pose proof (inv_index _ HI mb') as Hm. unfold index_entry in Hm.
    rewrite Hm. unfold count_of, bytes_of. by rewrite !(weigh_remove_other mb) by done.
Qed.

(** ** Ack *)

Definition ack_keys mb (ids : list Uuid) : list string := key_for mb <$> ids.

Lemma ack_keys_owner mb ids k : no_char ":" mb → k ∈ ack_keys mb ids → owner k = Some mb.
Proof. intros Hmb (id & -> & _)%list_elem_of_fmap. by apply key_owner. Qed.

Lemma decoded_get D t ks mb k :
  (decoded t : gmap string StoredValue) = remove_keys ks D →
  (∀ k v, tbl_get t k = Some v → is_Some (from_slice v : option StoredValue)) → owner k = Some mb →
  match tbl_get t k ≫= from_slice with Some v => len v | None => 0 end = contrib (λ _, len) (remove_keys ks D) k
  ∧ match tbl_get t k with Some _ => 1 | None => 0 end = contrib (weigh mb (λ _, 1)) (remove_keys ks D) k
  ∧ (tbl_get t k = None → remove_keys ks D !! k = None).
Proof.
  intros Hd Hdec Ho. rewrite <- Hd. unfold contrib. rewrite decoded_lookup.
  destruct (tbl_get t k) as [b|] eqn:E; simpl; [|done].
  destruct (Hdec _ _ E) as [v ->]. unfold weigh. by rewrite decide_True.
Qed.

Lemma ack_wp i0 st mb ids i :
  Inv st → no_char ":" mb → io_step i0 i →
  wp (ack mb ids) (λ r st' i', io_step i0 i' ∧
    match r with
    | inr n => n = count_of mb (entries st) - count_of mb (entries st')
               ∧ entries st' = remove_keys (ack_keys mb ids) (entries st) ∧ Inv st'
    | inl _ => ¬ quiet i0 ∧ st' = st
    end) st i.
Proof.
  intros HI Hmb Hi. destruct ids as [|id0 ids0].
  { apply wp_ret. split; [done|]. unfold ack_keys. simpl. rewrite remove_keys_nil. split; [lia|done]. }
  unfold ack. generalize (id0 :: ids0). intros ids. clear id0 ids0.
  wp_txn ltac:(by auto).
  pose proof (inv_total _ HI) as [Ht Hu]. pose proof (inv_caps _ HI mb) as [Hcap _].
  unfold MAX_QUEUE_PER_RECIPIENT in Hcap. set (D := entries st) in *.
  apply (wp_foldM _ (λ done '(table, freed, removed) s i',
    table = foldl tbl_remove (db st) (ack_keys mb done)
    ∧ freed = total_of D - total_of (remove_keys (ack_keys mb done) D)
    ∧ removed = count_of mb D - count_of mb (remove_keys (ack_keys mb done) D)
    ∧ (removed = 0 → remove_keys (ack_keys mb done) D = D)
    ∧ s = st ∧ io_step i0 i')).
  - unfold ack_keys. simpl. rewrite remove_keys_nil. split_and!; try done; lia.
  - clear Hi. intros done id rest [[table freed] removed] s i' _ (-> & Hfr & Hrm & Hz & -> & Hi).
    set (ks := ack_keys mb done) in *. set (t := foldl tbl_remove (db st) ks) in *.
    destruct (decoded_get D t ks mb (key_for mb id)) as (Hlen & Hone & Hnone).
    { apply decoded_remove_all. }
    { intros k v. unfold t. rewrite get_remove_all. case_decide; [done|]. apply (inv_decodes _ HI). }
    { by apply key_owner. }
    assert (ack_keys mb (done ++ [id]) = ks ++ [key_for mb id]) as Hks
      by (unfold ack_keys, ks; by rewrite fmap_app).
    wp_txn ltac:(by auto). rewrite Hks.
    pose proof (count_entries_nonneg D ks mb) as (? & _ & ?).
    pose proof (count_entries_nonneg D (ks ++ [key_for mb id]) mb) as (Hc2 & _ & Ht2).
    rewrite remove_keys_snoc in *. unfold total_of, count_of in *. rewrite !msum_delete in *.
    split; [unfold t; by rewrite foldl_app|]. rewrite <- Hone, <- Hlen in *.
    destruct (tbl_get t (key_for mb id)) as [b|] eqn:E; simpl in *.
    + destruct (from_slice b) as [v|] eqn:Ev; simpl in *.
      * change (slen (sv_c v)) with (len v). rewrite sat_add_small by lia.
        rewrite wrap64_small by (unfold is_u64, u64_max; lia). split_and!; try done; lia.
      * rewrite wrap64_small by (unfold is_u64, u64_max; lia). split_and!; try done; lia.
    + rewrite (delete_id (remove_keys ks D)) by auto. split_and!; try done; lia.
  - clear Hi. intros [[table freed] removed] s i' (-> & Hfr & Hrm & Hz & -> & Hi).
    pose proof (ack_keys_owner mb ids) as Hown. set (ks := ack_keys mb ids) in *.
    cbn beta iota. wp_txn ltac:(by auto); cbn [set_db set_total set_index db total_bytes next_seq index];
      subst freed; (split; [done|]).
    + edestruct (Inv_removed_from st mb ks (index_sub mb removed (total_of D - total_of (remove_keys ks D)) (index st)))
        as [HD HI']; [done|auto| | |].
      * pose proof (inv_index _ HI mb) as Hix. unfold index_entry in Hix.
        pose proof (count_entries_nonneg D ks mb) as (? & ? & ?).
        pose proof (weigh_remove_own mb len D ks ltac:(auto)) as Hw.
        change (msum (λ _, len)) with total_of in Hw. change (msum (weigh mb len)) with (bytes_of mb) in Hw.
        rewrite index_sub_entry; rewrite Hix; simpl; fold D; [|intros _; lia].
        rewrite decide_True by done. f_equal; lia.
      * intros mb' Hne. unfold index_sub. by rewrite lookup_alter_ne by done.
      * refine (conj _ (conj HD HI')). rewrite Hrm. do 2 f_equal. symmetry. exact HD.
    + assert (removed = 0) as H0.
      { apply Z.ltb_ge in Heqb. pose proof (count_entries_nonneg D ks mb). lia. }
      edestruct (Inv_removed_from st mb ks (index st)) as [HD HI']; [done|auto| |done|].
      * fold D. rewrite (Hz H0). apply (inv_index _ HI).
      * refine (conj _ (conj HD HI')). rewrite Hrm. do 2 f_equal. symmetry. exact HD.
Qed.

(** ** Purge *)

Lemma contrib_decoded (f : string → StoredValue → Z) (t : Table) k b v :
  tbl_get t k = Some b → from_slice b = Some v → contrib f (decoded t) k = f k v.
Proof. intros Hg Hv. unfold contrib. rewrite decoded_lookup, Hg. simpl. by rewrite Hv. Qed.

Lemma freed_scan D l f0 ks0 :
  (∀ k b, (k, b) ∈ l → ∃ v : StoredValue, from_slice b = Some v ∧ D !! k = Some v) →
  0 ≤ f0 → f0 + zsum (contrib (λ _, len) D <$> l.*1) ≤ u64_max →
  foldl (λ '(freed, keys) '(k, v),
      (match from_slice v with Some val => freed +^ slen (sv_c val) | None => freed end, keys ++ [k]))
    (f0, ks0) l
  = (f0 + zsum (contrib (λ _, len) D <$> l.*1), ks0 ++ l.*1).
Proof.
  revert f0 ks0. induction l as [|[k b] l IH]; intros f0 ks0 Hl H0 Hu.
  { simpl. by rewrite app_nil_r, Z.add_0_r. }
  destruct (Hl k b) as (v & Hv & HD); [left|]. cbn [foldl]. rewrite Hv.
  rewrite !fmap_cons, zsum_cons in Hu |- *.
  assert (contrib (λ _, len) D k = len v) as Hc by (unfold contrib; by rewrite HD).
  change ((k, b).1) with k in *. change (slen (sv_c v)) with (len v). rewrite Hc in *.
  assert (0 ≤ zsum (contrib (λ _, len) D <$> l.*1)) as Hnn.
  { apply zsum_nonneg, Forall_forall. intros z (k' & -> & _)%list_elem_of_fmap.
    apply contrib_nonneg. intros. apply len_nonneg. }
  pose proof (len_nonneg v). rewrite sat_add_small by lia.
  rewrite IH; [|intros; apply Hl; by right|lia|lia]. rewrite <- app_assoc. f_equal. lia.
Qed.

(** The raw range of a mailbox. *)
Definition range_of mb st : list (string * bytes) := tbl_range (db st) (mb +:+ ":") (mb +:+ ";").

Lemma elem_range st mb k b :
  no_char ":" mb → (k, b) ∈ range_of mb st ↔ tbl_get (db st) k = Some b ∧ owner k = Some mb.
Proof.
  intros Hmb. unfold range_of.
  by rewrite range_owned, elem_of_map_to_list, owned_lookup_Some, contents_lookup by done.
Qed.

Lemma inv_entry st k b :
  Inv st → tbl_get (db st) k = Some b → ∃ v : StoredValue, from_slice b = Some v ∧ entries st !! k = Some v.
Proof.
  intros HI Hg. destruct (inv_decodes _ HI _ _ Hg) as [v Hv]. exists v. split; [done|].
  unfold entries. by rewrite decoded_lookup, Hg.
Qed.

Lemma entry_bytes st k v :
  entries st !! k = Some v → ∃ b, tbl_get (db st) k = Some b ∧ from_slice b = Some v.
Proof.
  unfold entries. rewrite decoded_lookup. destruct (tbl_get (db st) k) as [b|]; [|done]. eauto.
Qed.

Section Purge.
Context (st : QueueStore) (mb : string) (HI : Inv st) (Hmb : no_char ":" mb).

Abbreviation ks := (range_of mb st).*1.

Lemma purge_keys k : k ∈ ks ↔ owner k = Some mb ∧ is_Some (entries st !! k).
Proof.
  rewrite list_elem_of_fmap. split.
  - intros ([k' b] & -> & Hin). apply elem_range in Hin as [Hg Ho]; [|done].
    destruct (inv_entry st k' b) as (v & _ & ?); [done..|]. eauto.
  - intros (Ho & v & (b & Hg & _)%entry_bytes). exists (k, b). by rewrite elem_range.
Qed.

Lemma purge_keys_NoDup : NoDup ks.
Proof.
  unfold range_of. rewrite range_owned by done. apply NoDup_fst_map_to_list.
Qed.

Lemma purged_weight w : msum (weigh mb w) (remove_keys ks (entries st)) = 0.
Proof.
  apply msum_zero. intros k v [Hk Hn]%remove_keys_Some. unfold weigh. case_decide; [|done].
  destruct Hn. apply purge_keys. eauto.
Qed.

Lemma purge_count : Z.of_nat (length ks) = count_of mb (entries st).
Proof.
  pose proof (purged_weight (λ _, 1)) as Hz. rewrite msum_remove_keys in Hz by apply purge_keys_NoDup.
  assert (∀ l, (∀ k, k ∈ l → k ∈ ks) →
    zsum (contrib (weigh mb (λ _, 1)) (entries st) <$> l) = Z.of_nat (length l)) as Hlen.
  { induction l as [|k l IH]; intros Hl; [done|]. rewrite fmap_cons, zsum_cons, IH by (intros; apply Hl; by right).
    destruct (proj1 (purge_keys k)) as (Ho & v & Hv); [apply Hl; left|].
    unfold contrib, weigh. rewrite Hv, decide_True by done. simpl length. lia. }
  rewrite Hlen in Hz by done. unfold count_of. lia.
Qed.

Lemma purge_freed :
  zsum (contrib (λ _, len) (entries st) <$> ks)
  = total_of (entries st) - total_of (remove_keys ks (entries st)).
Proof. unfold total_of. rewrite msum_remove_keys by apply purge_keys_NoDup. lia. Qed.

(** The store after a purge. *)
Definition purged : QueueStore := removed_from st mb ks (delete mb (index st)).

Lemma Inv_purged : entries purged = remove_keys ks (entries st) ∧ Inv purged.
Proof.
  apply Inv_removed_from; [done| |..].
  - by intros k [? _]%purge_keys.
  - rewrite lookup_delete_eq. simpl. unfold count_of, bytes_of. by rewrite !purged_weight.
  - intros mb' Hne. by rewrite lookup_delete_ne by done.
Qed.
End Purge.

Lemma purge_wp i0 st mb i :
  Inv st → no_char ":" mb → io_step i0 i →
  wp (purge_mailbox mb) (λ r st' i', io_step i0 i' ∧
    match r with
    | inr n => n = count_of mb (entries st) ∧ st' = purged st mb
    | inl _ => ¬ quiet i0 ∧ st' = st
    end) st i.
Proof.
  intros HI Hmb Hi. unfold purge_mailbox. simpl. wp_txn ltac:(by auto).
  change (tbl_range (db st) (mb +:+ ":") (mb +:+ ";")) with (range_of mb st).
  eapply (wp_scan i0 _ (λ '(freed, keys) '(k, v),
      (match from_slice v with Some val => freed +^ slen (sv_c val) | None => freed end, keys ++ [k]))
      Failed); [by intros [??] [??]|done| |by auto].
  pose proof (inv_total _ HI) as [Ht Hu].
  assert (zsum (contrib (λ _, len) (entries st) <$> (range_of mb st).*1) ≤ total_of (entries st)) as Hsum.
  { apply contrib_sum_le; [intros; apply len_nonneg|by apply purge_keys_NoDup]. }
  clear Hi. intros i' Hi. rewrite (freed_scan (entries st)); [|..|lia].
  2:{ intros k b [Hg _]%elem_range; [|done]. by apply inv_entry. }
  2:{ lia. }
  cbn beta iota. wp_step. apply (wp_remove_all i0); [done| |by auto].
  clear Hi i'. intros i' Hi. cbn beta iota. wp_txn ltac:(by auto). split; [done|].
  rewrite app_nil_l, purge_count, purge_freed by done. split; [done|].
  unfold purged, removed_from. by rewrite Z.add_0_l.
Qed.
End Removals.

(** The whole-table scans of the queue store: the TTL sweep, and the scan that
    rebuilds the RAM counters when the store is opened.  Both tally a list of
    keys per mailbox ([tallied]). *)

Section Scans.
Context {RD : Redb} {UL : UuidLib} {SV : Serde StoredValue}.
Implicit Types (D : gmap string StoredValue) (mb : string) (st : QueueStore).

(** What opening needs of a table, whoever wrote it. *)
Record table_ok (t : Table) : Prop := {
  ok_decodes : ∀ k v, tbl_get t k = Some v → is_Some (from_slice v : option StoredValue);
  ok_wf : wf_entries (decoded t);
  ok_seq : ∀ k v, (decoded t : gmap string StoredValue) !! k = Some v → 0 ≤ sv_s v < u64_max;
  ok_total : total_of (decoded t) ≤ u64_max;
  ok_caps : ∀ mb, count_of mb (decoded t) ≤ MAX_QUEUE_PER_RECIPIENT
                  ∧ bytes_of mb (decoded t) ≤ PER_MAILBOX_QUEUE_BYTES;
}.

Lemma Inv_table_ok st : Inv st → table_ok (db st).
Proof.
  intros HI. split; try apply HI.
  intros k v Hk. apply (inv_seq _ HI) in Hk. pose proof (inv_next _ HI). lia.
Qed.

(** ** Keys picked by a predicate on the values *)

Definition picked (P : StoredValue → bool) (l : list (string * bytes)) : list string :=
  omap (λ kv, v ← from_slice kv.2; if P v then Some kv.1 else None) l.

Lemma picked_app P l l' : picked P (l ++ l') = picked P l ++ picked P l'.
Proof. apply omap_app. Qed.

Lemma picked_one P k b v :
  from_slice b = Some v → picked P [(k, b)] = if P v then [k] else [].
Proof. intros Hv. unfold picked. simpl. rewrite Hv. simpl. by destruct (P v). Qed.

Lemma elem_picked P l k :
  k ∈ picked P l ↔ ∃ b v, (k, b) ∈ l ∧ from_slice b = Some v ∧ P v = true.
Proof.
  unfold picked. rewrite list_elem_of_omap. split.
  - intros ([k' b] & Hin & Hf). simpl in Hf. destruct (from_slice b) as [v|] eqn:Hv; [|done].
    simpl in Hf. destruct (P v) eqn:HP; [|done]. simplify_eq. eauto.
  - intros (b & v & Hin & Hv & HP). exists (k, b). split; [done|]. simpl. rewrite Hv. simpl. by rewrite HP.
Qed.

Lemma picked_NoDup P l : NoDup l.*1 → NoDup (picked P l).
Proof.
  intros Hl. apply omap_NoDup; [done|]. intros [k1 b1] [k2 b2] k _ _ H1 H2. simpl in *.
  destruct (from_slice b1) as [v1|]; [|done]. destruct (from_slice b2) as [v2|]; [|done]. simpl in *.
  destruct (P v1), (P v2); congruence.
Qed.

(** ** Tallies *)

Definition tallied D (ks : list string) (pm : gmap string (Z * Z)) : Prop := ∀ mb,
  default (0, 0) (pm !! mb)
  = (zsum (contrib (weigh mb (λ _, 1)) D <$> ks), zsum (contrib (weigh mb len) D <$> ks)).

Lemma contrib_sum_snoc (f : string → StoredValue → Z) D ks k :
  zsum (contrib f D <$> ks ++ [k]) = zsum (contrib f D <$> ks) + contrib f D k.
Proof. rewrite fmap_app, zsum_app. simpl. lia. Qed.

Lemma tallied_snoc D ks pm k v mb :
  tallied D ks pm → D !! k = Some v → owner k = Some mb → NoDup (ks ++ [k]) →
  count_of mb D ≤ u64_max → bytes_of mb D ≤ u64_max →
  tallied D (ks ++ [k]) (per_mailbox_add mb (slen (sv_c v)) pm).
Proof.
  intros Hpm Hk Ho Hnd Hc Hb mb'. unfold per_mailbox_add. rewrite (Hpm mb). cbn [fst snd].
  rewrite lookup_insert, !contrib_sum_snoc.
  assert (∀ mb w, contrib (weigh mb w) D k = if decide (owner k = Some mb) then w v else 0) as Hcontrib.
  { intros mb'' w. unfold contrib. by rewrite Hk. }
  rewrite !Hcontrib. case_decide as E.
  - subst mb'. rewrite !decide_True by done. cbn [default id].
    pose proof (contrib_sum_le (weigh mb (λ _, 1)) (ks ++ [k]) D) as H1.
    pose proof (contrib_sum_le (weigh mb len) (ks ++ [k]) D) as H2.
    pose proof (contrib_sum_le (weigh mb (λ _, 1)) ks D) as H3.
    rewrite contrib_sum_snoc, Hcontrib, decide_True in H1, H2 by done.
    apply NoDup_app in Hnd as Hnd'. destruct Hnd' as [Hks _].
    specialize (H1 ltac:(intros; apply weigh_nonneg; intros; lia) Hnd).
    specialize (H2 ltac:(intros; apply weigh_nonneg, len_nonneg) Hnd).
    specialize (H3 ltac:(intros; apply weigh_nonneg; intros; lia) Hks).
    unfold count_of, bytes_of in *. change (slen (sv_c v)) with (len v).
    rewrite wrap64_small by (unfold is_u64; lia). by rewrite sat_add_small by lia.
  - rewrite !decide_False by congruence. rewrite !Z.add_0_r. apply Hpm.
Qed.

(** Subtracting the tally of the removed keys leaves the index of the rest. *)
Lemma index_after_tally D ks pm ix mb :
  NoDup ks → tallied D ks pm → default (0, 0) (ix !! mb) = (count_of mb D, bytes_of mb D) →
  default (0, 0) (foldl (λ ix '(mailbox, (count, bytes)), index_sub mailbox count bytes ix)
                    ix (map_to_list pm) !! mb)
  = (count_of mb (remove_keys ks D), bytes_of mb (remove_keys ks D)).
Proof.
  intros Hks Hpm Hix. rewrite index_sub_all by apply NoDup_fst_map_to_list. rewrite list_to_map_to_list.
  specialize (Hpm mb).
  pose proof (contrib_sum_le (weigh mb (λ _, 1)) ks D ltac:(intros; apply weigh_nonneg; intros; lia) Hks) as H1.
  pose proof (contrib_sum_le (weigh mb len) ks D ltac:(intros; apply weigh_nonneg, len_nonneg) Hks) as H2.
  unfold count_of, bytes_of in *. rewrite !msum_remove_keys by done.
  destruct (pm !! mb) as [[c b]|]; simpl in Hpm; injection Hpm as Hc Hb.
  - destruct (ix !! mb) as [[n m]|]; simpl in Hix |- *; injection Hix as Hn Hm.
    + rewrite !sat_sub_le by lia. f_equal; lia.
    + f_equal; lia.
  - rewrite Hix. f_equal; lia.
Qed.

(** ** The TTL sweep *)

Definition is_expired (cutoff : Z) (v : StoredValue) : bool := sv_q v <? cutoff.

(** The keys the sweep at [cutoff] removes. *)
Definition expired_keys (cutoff : Z) st : list string := picked (is_expired cutoff) (tbl_iter (db st)).

Lemma expired_keys_NoDup cutoff st : NoDup (expired_keys cutoff st).
Proof. apply picked_NoDup, tbl_iter_nodup. Qed.

Lemma elem_expired cutoff st k :
  k ∈ expired_keys cutoff st ↔ ∃ v, entries st !! k = Some v ∧ sv_q v < cutoff.
Proof.
  unfold expired_keys. rewrite elem_picked. split.
  - intros (b & v & Hg%tbl_iter_get & Hv & HP). exists v. unfold entries.
    rewrite decoded_lookup, Hg. simpl. split; [done|]. by apply Z.ltb_lt.
  - intros (v & (b & Hg & Hv)%entry_bytes & HP). exists b, v. rewrite tbl_iter_get.
    split_and!; [done..|]. by apply Z.ltb_lt.
Qed.

Lemma entries_unexpired cutoff st :
  remove_keys (expired_keys cutoff st) (entries st)
  = filter (λ kv, cutoff ≤ sv_q kv.2) (entries st).
Proof.
  apply map_eq. intros k. apply option_eq. intros v.
  rewrite remove_keys_Some, map_lookup_filter_Some, elem_expired. simpl. split; intros [Hk H]; (split; [done|]).
  - destruct (Z.le_gt_cases cutoff (sv_q v)); [done|]. destruct H. eauto.
  - intros (v' & Hv' & ?). simplify_eq. lia.
Qed.

(** The store after a sweep; [ix] is the corrected index. *)
Definition swept cutoff st ix : QueueStore :=
  let ks := expired_keys cutoff st in
  {| db := foldl tbl_remove (db st) ks;
     total_bytes := total_bytes st -^ (total_of (entries st) - total_of (remove_keys ks (entries st)));
     next_seq := next_seq st;
     index := ix |}.

Lemma Inv_swept cutoff st pm :
  Inv st → tallied (entries st) (expired_keys cutoff st) pm →
  let st' := swept cutoff st
    (foldl (λ ix '(mailbox, (count, bytes)), index_sub mailbox count bytes ix) (index st) (map_to_list pm)) in
  entries st' = remove_keys (expired_keys cutoff st) (entries st) ∧ Inv st'.
Proof.
  intros HI Hpm. pose proof (inv_total _ HI) as [Ht _].
  pose proof (count_entries_nonneg (entries st) (expired_keys cutoff st) "") as (_ & _ & Hb).
  apply (Inv_remove st); [done|intros; apply get_remove_all| |].
  - rewrite sat_sub_le by lia. lia.
  - intros mb. apply index_after_tally; [apply expired_keys_NoDup|done|apply (inv_index _ HI)].
Qed.

Lemma sweep_wp st i :
  Inv st →
  let cutoff := next_now i -^ QUEUE_TTL_MS in
  wp sweep_expired (λ r st' i', io_step (clock_tick i) i' ∧
    match r with
    | inr n => n = Z.of_nat (length (expired_keys cutoff st))
               ∧ entries st' = filter (λ kv, cutoff ≤ sv_q kv.2) (entries st) ∧ Inv st'
    | inl _ => ¬ quiet i ∧ st' = st
    end) st i.
Proof.
  intros HI cutoff. set (i0 := clock_tick i). assert (io_step i0 i0) as Hi by done.
  pose proof (inv_total _ HI) as [Ht Hu].
  unfold sweep_expired. wp_step. apply wp_now_ms. cbn beta iota. fold i0 cutoff. wp_txn ltac:(by auto).
  apply (wp_foldM _ (λ done '(freed, keys, pm) s i',
    freed = zsum (contrib (λ _, len) (entries st) <$> keys) ∧ keys = picked (is_expired cutoff) done
    ∧ tallied (entries st) keys pm ∧ s = st ∧ io_step i0 i')).
  - by split_and!.
  - clear Hi. intros done [k b] rest [[freed keys] pm] s i' Hl (-> & -> & Hpm & -> & Hi).
    wp_txn ltac:(by auto).
    destruct (inv_entry st k b) as (v & Hv & Hk); [done| |].
    { apply tbl_iter_get. rewrite Hl. apply elem_of_app. right. left. }
    rewrite picked_app, (picked_one _ k b v), Hv by done. change (is_expired cutoff v) with (sv_q v <? cutoff).
    destruct (sv_q v <? cutoff) eqn:Hexp; wp_step; [|by rewrite app_nil_r].
    destruct (wf_keys _ (inv_wf _ HI) _ _ Hk) as (mb & id & Hkey & Hmb).
    assert (owner k = Some mb) as Ho by (subst k; by apply key_owner).
    assert (NoDup (picked (is_expired cutoff) done ++ [k])) as Hnd.
    { pose proof (picked_NoDup (is_expired cutoff) (done ++ [(k, b)])) as H.
      rewrite picked_app, (picked_one _ k b v) in H by done.
      change (is_expired cutoff v) with (sv_q v <? cutoff) in H. rewrite Hexp in H. apply H.
      pose proof (tbl_iter_nodup (db st)) as Hn. rewrite Hl, cons_middle, app_assoc, fmap_app in Hn.
      by apply NoDup_app in Hn as [? _]. }
    pose proof (inv_caps _ HI mb) as [Hc1 Hc2]. unfold MAX_QUEUE_PER_RECIPIENT, PER_MAILBOX_QUEUE_BYTES in *.
    split_and!; [|done| |done|done].
    + assert (contrib (λ _, len) (entries st) k = len v) as Hck by (unfold contrib; by rewrite Hk).
      rewrite contrib_sum_snoc, Hck. change (slen (sv_c v)) with (len v).
      pose proof (contrib_sum_le (λ _, len) _ (entries st) (λ k a _, len_nonneg a) Hnd) as Hs.
      rewrite contrib_sum_snoc, Hck in Hs.
      unfold total_of in *. apply sat_add_small. lia.
    + unfold parse_mailbox. fold (owner k). rewrite Ho.
      apply tallied_snoc; try done; unfold u64_max; lia.
  - clear Hi. intros [[freed keys] pm] s i' (-> & -> & Hpm & -> & Hi). cbn beta iota.
    fold (expired_keys cutoff st) in *. wp_step.
    apply (wp_remove_all i0); [done| |by auto]. clear Hi i'. intros i' Hi. cbn beta iota.
    wp_txn ltac:(by auto). split; [done|]. split; [done|].
    rewrite <- entries_unexpired. pose proof (Inv_swept cutoff st pm HI Hpm) as [HD HI'].
    pose proof (msum_remove_keys (λ _, len) _ (entries st) (expired_keys_NoDup cutoff st)) as Hz.
    replace (zsum _) with (total_of (entries st) - total_of (remove_keys (expired_keys cutoff st) (entries st)))
      by (unfold total_of; lia).
    exact (conj HD HI').
Qed.

(** ** Opening *)

Section Opening.
Context (t : Table) (Hok : table_ok t).

Abbreviation D := (decoded t : gmap string StoredValue).
Abbreviation all := (λ _ : StoredValue, true).

Definition scanning (ix : gmap string (Z * Z)) : QueueStore :=
  {| db := t; total_bytes := 0; next_seq := 0; index := ix |}.

Lemma table_entry k b :
  tbl_get t k = Some b → ∃ v : StoredValue, from_slice b = Some v ∧ D !! k = Some v.
Proof.
  intros Hg. destruct (ok_decodes _ Hok _ _ Hg) as [v Hv]. exists v. split; [done|].
  by rewrite decoded_lookup, Hg.
Qed.

Lemma picked_all_NoDup l rest : tbl_iter t = l ++ rest → NoDup (picked all l).
Proof.
  intros Hl. apply picked_NoDup. pose proof (tbl_iter_nodup t) as H. rewrite Hl, fmap_app in H.
  by apply NoDup_app in H as [? _].
Qed.

Lemma picked_all k v : D !! k = Some v → k ∈ picked all (tbl_iter t).
Proof.
  rewrite decoded_lookup. destruct (tbl_get t k) as [b|] eqn:Hg; [|done]. simpl. intros Hv.
  apply elem_picked. exists b, v. by rewrite tbl_iter_get.
Qed.

(** What the scan knows after the entries [l]. *)
Record scanned (l : list (string * bytes)) (total max_seq : Z) (ix : gmap string (Z * Z)) : Prop := {
  scanned_total : total = zsum (contrib (λ _, len) D <$> picked all l);
  scanned_index : tallied D (picked all l) ix;
  scanned_max : 0 ≤ max_seq < u64_max;
  scanned_seq : ∀ k v, k ∈ picked all l → D !! k = Some v → sv_s v ≤ max_seq;
  scanned_least : ∀ b, 0 ≤ b → (∀ k v, D !! k = Some v → sv_s v ≤ b) → max_seq ≤ b;
}.

Lemma scanned_snoc l rest k b v total max_seq ix mb :
  tbl_iter t = l ++ (k, b) :: rest → from_slice b = Some v → D !! k = Some v → owner k = Some mb →
  scanned l total max_seq ix →
  scanned (l ++ [(k, b)]) (total +^ slen (sv_c v)) (Z.max max_seq (sv_s v))
    (per_mailbox_add mb (slen (sv_c v)) ix).
Proof.
  intros Hl Hv Hk Ho [-> Hix Hmax Hseq Hleast].
  pose proof (ok_seq _ Hok _ _ Hk). pose proof (ok_caps _ Hok mb) as [Hc1 Hc2].
  pose proof (ok_total _ Hok) as Hu. unfold MAX_QUEUE_PER_RECIPIENT, PER_MAILBOX_QUEUE_BYTES in *.
  assert (NoDup (picked all (l ++ [(k, b)]))) as Hnd.
  { apply (picked_all_NoDup _ rest). by rewrite <- app_assoc. }
  assert (contrib (λ _, len) D k = len v) as Hck by (unfold contrib; by rewrite Hk).
  pose proof (contrib_sum_le (λ _, len) _ D (λ k a _, len_nonneg a) Hnd) as Hs.
  rewrite picked_app, (picked_one _ k b v) in Hnd, Hs by done.
  rewrite contrib_sum_snoc, Hck in Hs. unfold total_of in Hu.
  split; rewrite ?picked_app, ?(picked_one _ k b v) by done.
  - rewrite contrib_sum_snoc, Hck. apply sat_add_small. change (slen (sv_c v)) with (len v). lia.
  - apply tallied_snoc; try done; unfold u64_max; lia.
  - lia.
  - intros k' v' [Hin| ->%list_elem_of_singleton]%elem_of_app Hk'.
    + pose proof (Hseq _ _ Hin Hk'). lia.
    + simplify_eq. lia.
  - intros z Hz Hle. pose proof (Hleast _ Hz Hle). pose proof (Hle _ _ Hk). lia.
Qed.

(** The store that [new] returns. *)
Lemma scanned_Inv total max_seq ix :
  scanned (tbl_iter t) total max_seq ix →
  Inv (set_next_seq (max_seq +^ 1) (set_total total (scanning ix))).
Proof.
  intros [-> Hix Hmax Hseq _].
  assert (NoDup (picked all (tbl_iter t))) as Hnd by (apply (picked_all_NoDup _ []); by rewrite app_nil_r).
  assert (∀ f, zsum (contrib f D <$> picked all (tbl_iter t)) = msum f D) as Hall.
  { intros f. apply contrib_sum_all; [done|]. intros k v. apply picked_all. }
  assert (max_seq +^ 1 = max_seq + 1) as Hn by (apply sat_add_small; lia).
  split; cbn [set_next_seq set_total scanning db total_bytes next_seq index]; rewrite ?Hn.
  - apply Hok.
  - apply Hok.
  - intros k v Hk. pose proof (ok_seq _ Hok _ _ Hk). pose proof (Hseq _ _ (picked_all _ _ Hk) Hk). lia.
  - lia.
  - split; [apply Hall|apply Hok].
  - intros mb. unfold index_entry. simpl. rewrite Hix, !Hall. done.
  - apply Hok.
Qed.

Lemma scan_totals_wp i0 i :
  io_step i0 i →
  wp scan_totals (λ r s i', io_step i0 i' ∧
    match r with
    | inr (total, max_seq) => ∃ ix, s = scanning ix ∧ scanned (tbl_iter t) total max_seq ix
    | inl _ => ¬ quiet i0
    end) (scanning ∅) i.
Proof.
  intros Hi. unfold scan_totals. wp_txn ltac:(by auto).
  apply (wp_foldM _ (λ done '(total, max_seq) s i',
    io_step i0 i' ∧ ∃ ix, s = scanning ix ∧ scanned done total max_seq ix)).
  - split; [done|]. exists ∅. split; [done|]. split; try done. by intros k v ?%not_elem_of_nil.
  - clear Hi. intros done [k b] rest [total max_seq] s i' Hl (Hi & ix & -> & Hsc).
    change (db (scanning ∅)) with t in Hl. wp_txn ltac:(by auto).
    destruct (table_entry k b) as (v & Hv & Hk).
    { apply tbl_iter_get. rewrite Hl. apply elem_of_app. right. left. }
    destruct (wf_keys _ (ok_wf _ Hok) _ _ Hk) as (mb & id & Hkey & Hmb).
    assert (owner k = Some mb) as Ho by (subst k; by apply key_owner).
    rewrite Hv. unfold parse_mailbox. fold (owner k). rewrite Ho. wp_steps. split; [done|].
    eexists. split; [done|]. by eapply scanned_snoc.
  - clear Hi. intros [total max_seq] s i' (Hi & ix & -> & Hsc). split; [done|]. eauto.
Qed.

Lemma new_wp i0 i :
  io_step i0 i →
  wp (new t) (λ r _ i', io_step i0 i' ∧
    match r with
    | inr st => db st = t ∧ Inv st
        ∧ ∀ b, 0 ≤ b → (∀ k v, D !! k = Some v → sv_s v ≤ b) → next_seq st ≤ b + 1
    | inl _ => ¬ quiet i0
    end) () i.
Proof.
  intros Hi. unfold new. wp_txn ltac:(by auto). eapply wp_conseq; [by apply scan_totals_wp|].
  cbn beta. clear Hi. intros [e|[total max_seq]] s i' [Hi H]; [done|].
  destruct H as (ix & -> & Hsc). cbn beta iota. wp_steps. split; [done|]. split; [done|].
  split; [by apply scanned_Inv|]. intros b Hb Hle. simpl. destruct Hsc as [_ _ Hmax _ Hleast].
  specialize (Hleast b Hb Hle). rewrite sat_add_small; lia.
Qed.
End Opening.
End Scans.
