(* ===== verification/QueueSpec.v ===== *)
(** The contract of the queue store: a list of messages per mailbox.

    [Queues] is the abstract state, [spec_step] what each operation may do to it
    and answer, and [exec] the operation of the store.  [step_refines] is the
    simulation, one operation at a time; [runs] executes sequences of
    operations, a restart of the relay being one of them. *)
From Stdlib Require Import ZArith Lia Ascii String.
From stdpp Require Import base gmap strings list sorting.
From S2P Require Import Prelude Redb RustStd Config Util Protocol QueueStore QueueFacts QueueRuns QueueRemovals.

Section Spec.
Context {RD : Redb} {UL : UuidLib} {SV : Serde StoredValue}.
Implicit Types (mb : string) (st : QueueStore).

(** ** The abstract state *)

Record Message := {
  msg_id : Uuid;
  msg_type : string;
  msg_ct : string;
  msg_at : Z;
}.

Definition Queues : Type := string → list Message.

Implicit Types (a : Queues) (q : list Message).

Definition view (e : Uuid * StoredValue) : Message :=
  {| msg_id := e.1; msg_type := sv_t e.2; msg_ct := sv_c e.2; msg_at := sv_q e.2 |}.

Definition abs st : Queues := λ mb, view <$> queue_of mb (entries st).

Definition msg_bytes q : Z := zsum ((λ m, slen (msg_ct m)) <$> q).

Definition has_room (inc : Z) q : Prop :=
  Z.of_nat (length q) + 1 ≤ MAX_QUEUE_PER_RECIPIENT ∧ msg_bytes q + inc ≤ PER_MAILBOX_QUEUE_BYTES.

#[global] Instance has_room_dec inc q : Decision (has_room inc q).
Proof. unfold has_room. apply _. Defined.

(** The longest suffix behind which [inc] bytes fit. *)
Fixpoint keep_newest (inc : Z) q : list Message :=
  match q with
  | [] => []
  | _ :: q' => if decide (has_room inc q) then q else keep_newest inc q'
  end.

(** ** Operations *)

Inductive op :=
| OpEnqueue mb (env : StoredEnvelope)
| OpFlush mb
| OpIsEmpty mb
| OpAck mb (ids : list Uuid)
| OpPurge mb
| OpSweep
| OpReopen.

Inductive answer :=
| Count (n : Z)
| Envelopes (l : list StoredEnvelope)
| Truth (b : bool)
| Done
| Refused.

Definition envelope_of mb (m : Message) : StoredEnvelope :=
  {| env_id := msg_id m; env_to := mb; envelope_type := msg_type m; ciphertext := msg_ct m |}.

Definition message_of (env : StoredEnvelope) (now : Z) : Message :=
  {| msg_id := env_id env; msg_type := envelope_type env; msg_ct := ciphertext env; msg_at := now |}.

(** What an operation at time [now] answers and leaves behind.  A failed
    database call refuses the operation and changes nothing. *)
Inductive spec_step (now : Z) : op → Queues → answer → Queues → Prop :=
| spec_refused o a a' : (∀ m, a' m = a m) → spec_step now o a Refused a'
| spec_enqueue mb env a a' n :
    let kept := keep_newest (slen (ciphertext env)) (a mb) in
    a' mb = kept ++ [message_of env now] → (∀ m, m ≠ mb → a' m = a m) →
    n = Z.of_nat (length (a mb)) - Z.of_nat (length kept) →
    spec_step now (OpEnqueue mb env) a (Count n) a'
| spec_flush mb a a' :
    (∀ m, a' m = a m) → spec_step now (OpFlush mb) a (Envelopes (envelope_of mb <$> a mb)) a'
| spec_is_empty mb a a' :
    (∀ m, a' m = a m) → spec_step now (OpIsEmpty mb) a (Truth (bool_decide (a mb = []))) a'
| spec_ack mb ids a a' n :
    a' mb = filter (λ m, msg_id m ∉ ids) (a mb) → (∀ m, m ≠ mb → a' m = a m) →
    n = Z.of_nat (length (a mb)) - Z.of_nat (length (a' mb)) →
    spec_step now (OpAck mb ids) a (Count n) a'
| spec_purge mb a a' n :
    a' mb = [] → (∀ m, m ≠ mb → a' m = a m) → n = Z.of_nat (length (a mb)) →
    spec_step now (OpPurge mb) a (Count n) a'
| spec_sweep a a' n :
    (∀ m, a' m = filter (λ x, now -^ QUEUE_TTL_MS ≤ msg_at x) (a m)) →
    spec_step now OpSweep a (Count n) a'
| spec_reopen a a' : (∀ m, a' m = a m) → spec_step now OpReopen a Done a'.

Definition answered {A} (f : A → answer) (x : (anyhow + A) * QueueStore * io) : answer * QueueStore * io :=
  match x with
  | (inr r, st, i) => (f r, st, i)
  | (inl _, st, i) => (Refused, st, i)
  end.

Definition exec (o : op) st (i : io) : answer * QueueStore * io :=
  match o with
  | OpEnqueue mb env => answered Count (enqueue mb env st i)
  | OpFlush mb => answered Envelopes (flush mb st i)
  | OpIsEmpty mb => answered Truth (is_empty mb st i)
  | OpAck mb ids => answered Count (ack mb ids st i)
  | OpPurge mb => answered Count (purge_mailbox mb st i)
  | OpSweep => answered Count (sweep_expired st i)
  | OpReopen =>
      match new (db st) () i with
      | (inr st', _, i') => (Done, st', i')
      | (inl _, _, i') => (Refused, st, i')
      end
  end.

(** What the callers of the store ensure. *)
Definition op_pre (o : op) st : Prop :=
  match o with
  | OpEnqueue mb env => enqueue_pre st mb env
  | OpFlush mb | OpIsEmpty mb | OpAck mb _ | OpPurge mb => no_char ":" mb
  | OpSweep | OpReopen => True
  end.

Inductive runs : QueueStore → io → list (op * answer) → QueueStore → io → Prop :=
| runs_nil st i : runs st i [] st i
| runs_cons st i o ans st1 i1 tr st2 i2 :
    op_pre o st → exec o st i = (ans, st1, i1) → runs st1 i1 tr st2 i2 →
    runs st i ((o, ans) :: tr) st2 i2.

(** The same, as a function of the script. *)
Fixpoint exec_all (ops : list op) st (i : io) : list (op * answer) * QueueStore * io :=
  match ops with
  | [] => ([], st, i)
  | o :: r =>
      let '(ans, st1, i1) := exec o st i in
      let '(tr, st2, i2) := exec_all r st1 i1 in ((o, ans) :: tr, st2, i2)
  end.

Fixpoint pre_all (ops : list op) st (i : io) : Prop :=
  match ops with
  | [] => True
  | o :: r => op_pre o st ∧ let '(_, st1, i1) := exec o st i in pre_all r st1 i1
  end.

Inductive spec_run : Queues → list (op * answer) → Queues → Prop :=
| spec_run_nil a : spec_run a [] a
| spec_run_cons now o ans tr a a1 a2 :
    spec_step now o a ans a1 → spec_run a1 tr a2 → spec_run a ((o, ans) :: tr) a2.

#[global] Instance op_pre_dec o st : Decision (op_pre o st).
Proof. destruct o; cbn [op_pre]; apply _. Defined.

#[global] Instance pre_all_dec ops st i : Decision (pre_all ops st i).
Proof.
  revert st i. induction ops as [|o ops IH]; intros st i; cbn [pre_all]; [apply _|].
  destruct (exec o st i) as [[? st1] i1]. apply _.
Defined.

Lemma exec_all_runs ops st i tr st' i' :
  pre_all ops st i → exec_all ops st i = (tr, st', i') → runs st i tr st' i'.
Proof.
  revert st i tr. induction ops as [|o ops IH]; simpl; intros st i tr; [intros _ [= <- <- <-]; constructor|].
  destruct (exec o st i) as [[ans st1] i1] eqn:E1. destruct (exec_all ops st1 i1) as [[tr1 st2] i2] eqn:E2.
  intros [Hpre Hall] [= <- <- <-]. econstructor; [done..|]. by apply IH.
Qed.

(** ** The views correspond *)

Lemma msg_bytes_view l : msg_bytes (view <$> l) = sum_len l.
Proof. unfold msg_bytes, sum_len. by rewrite <- list_fmap_compose. Qed.

Lemma keep_newest_view inc l : keep_newest inc (view <$> l) = view <$> make_room inc l.
Proof.
  induction l as [|e l IH]; [done|]. rewrite fmap_cons. cbn [keep_newest make_room].
  rewrite <- fmap_cons.
  assert (has_room inc (view <$> e :: l) ↔ fits inc (e :: l)) as Hiff.
  { unfold has_room, fits. by rewrite msg_bytes_view, length_fmap. }
  repeat case_decide; [done|tauto|tauto|done].
Qed.

Lemma evicted_minimal inc l d m :
  view <$> evicted inc l = d ++ [m] → ¬ has_room inc (m :: (view <$> make_room inc l)).
Proof.
  intros (d' & l' & -> & Hm & Hl)%fmap_app_inv. destruct l' as [|e [|]]; simplify_eq/=.
  apply evicted_last in Hl. unfold has_room. unfold fits in Hl. rewrite <- fmap_cons.
  by rewrite msg_bytes_view, length_fmap.
Qed.

Lemma filter_length_split {A} (P : A → Prop) `{∀ x, Decision (P x)} (l : list A) :
  length (filter P l) = (length l - length (filter (λ x, ¬ P x) l))%nat
  ∧ (length (filter (λ x, ¬ P x) l) ≤ length l)%nat.
Proof.
  induction l as [|x l IH]; [done|]. rewrite !filter_cons. repeat case_decide; simpl; try done; lia.
Qed.

Lemma filter_view (P : Message → Prop) (Q : Uuid * StoredValue → Prop)
    `{∀ m, Decision (P m)} `{∀ e, Decision (Q e)} (l : list (Uuid * StoredValue)) :
  (∀ e, P (view e) ↔ Q e) → filter P (view <$> l) = view <$> filter Q l.
Proof.
  intros HPQ. induction l as [|e l IH]; [done|]. rewrite fmap_cons, !filter_cons, IH.
  repeat case_decide; try done; [by rewrite HPQ in *|by rewrite HPQ in *].
Qed.

(** A name with a colon names no mailbox: its queue is always empty. *)
Lemma queue_colon mb D : ¬ no_char ":" mb → queue_of mb D = [].
Proof.
  intros Hmb. unfold queue_of, queue_entries.
  replace (owned mb D) with (∅ : gmap string StoredValue); [by rewrite map_to_list_empty|].
  symmetry. apply map_empty. intros k. apply map_lookup_filter_None. right. intros v _ Ho.
  by apply owner_Some in Ho as [? _].
Qed.

Lemma queue_eq_all D D' mb0 :
  (∀ mb, no_char ":" mb → mb ≠ mb0 → queue_of mb D' = queue_of mb D) →
  ∀ mb, mb ≠ mb0 → view <$> queue_of mb D' = view <$> queue_of mb D.
Proof.
  intros H mb Hne. f_equal. destruct (decide (no_char ":" mb)); [auto|]. by rewrite !queue_colon.
Qed.

Lemma removed_other mb mb' D ks :
  wf_entries D → no_char ":" mb' → mb' ≠ mb → (∀ k, k ∈ ks → owner k = Some mb) →
  queue_of mb' (remove_keys ks D) = queue_of mb' D.
Proof.
  intros Hwf Hmb' Hne Hks. apply queue_ext; [done|by apply wf_remove_keys|done|].
  intros id. apply option_eq. intros v. rewrite remove_keys_Some. split; [by intros [? _]|].
  intros Hv. split; [done|]. intros Hin%Hks. rewrite key_owner in Hin by done. congruence.
Qed.

(** ** Each operation implements its specification *)

Lemma enqueue_sim st mb env i ans st' i' :
  Inv st → enqueue_pre st mb env → answered Count (enqueue mb env st i) = (ans, st', i') →
  Inv st' ∧ spec_step (next_now i) (OpEnqueue mb env) (abs st) ans (abs st') ∧ (quiet i → ans ≠ Refused).
Proof.
  intros HI Hpre Hrun. pose proof (enqueue_wp st mb env i HI Hpre) as Hwp. simpl in Hwp. unfold wp in Hwp.
  destruct (enqueue mb env st i) as [[[e|n] s1] i1]; simpl in Hrun; simplify_eq; destruct Hwp as [_ Hr].
  - destruct Hr as [Hq ->]. split_and!; [|by apply spec_refused|done].
    pose proof (inv_next _ HI). pose proof (pre_seq _ _ _ Hpre).
    split; try apply HI; cbn [set_next_seq next_seq]; [|lia].
    intros k v Hk%(inv_seq _ HI). lia.
  - destruct Hr as [-> ->]. split; [by apply Inv_enqueued|]. split; [|done].
    assert (keep_newest (slen (ciphertext env)) (abs st mb)
            = view <$> make_room (slen (ciphertext env)) (queue_of mb (entries st))) as Hkeep by apply keep_newest_view.
    pose proof (queue_split st mb env) as Hsplit. apply (f_equal length) in Hsplit. rewrite length_app in Hsplit.
    apply spec_enqueue; rewrite ?Hkeep.
    + unfold abs. by rewrite queue_enqueued, fmap_app.
    + apply queue_eq_all. intros. by apply queue_enqueued_other.
    + unfold abs. rewrite !length_fmap. lia.
Qed.

Lemma ack_sim st mb ids i ans st' i' :
  Inv st → no_char ":" mb → answered Count (ack mb ids st i) = (ans, st', i') →
  Inv st' ∧ spec_step (next_now i) (OpAck mb ids) (abs st) ans (abs st') ∧ (quiet i → ans ≠ Refused).
Proof.
  intros HI Hmb Hrun. pose proof (ack_wp i st mb ids i HI Hmb ltac:(done)) as Hwp. unfold wp in Hwp.
  destruct (ack mb ids st i) as [[[e|n] s1] i1]; simpl in Hrun; simplify_eq; destruct Hwp as [_ Hr].
  - destruct Hr as [Hq ->]. split_and!; [done|by apply spec_refused|done].
  - destruct Hr as (-> & HD & HI'). pose proof (inv_wf _ HI) as Hwf. split; [done|]. split; [|done].
    assert (queue_of mb (entries st') = filter (λ e, e.1 ∉ ids) (queue_of mb (entries st))) as Hq.
    { rewrite HD. apply queue_remove_keys; [done..|]. intros id v _. simpl. unfold ack_keys.
      rewrite list_elem_of_fmap. split; intros Hn; intros H; apply Hn; [|eauto].
      destruct H as (id' & E & ?). by apply key_inj in E as ->. }
    apply spec_ack.
    + unfold abs. rewrite Hq. symmetry. by apply filter_view.
    + apply queue_eq_all. intros mb' ? Hne. rewrite HD. apply (removed_other mb); try done.
      intros k. by apply ack_keys_owner.
    + unfold abs. rewrite !length_fmap, !count_queue; [done|apply HI'|done..].
Qed.

Lemma purge_sim st mb i ans st' i' :
  Inv st → no_char ":" mb → answered Count (purge_mailbox mb st i) = (ans, st', i') →
  Inv st' ∧ spec_step (next_now i) (OpPurge mb) (abs st) ans (abs st') ∧ (quiet i → ans ≠ Refused).
Proof.
  intros HI Hmb Hrun. pose proof (purge_wp i st mb i HI Hmb ltac:(done)) as Hwp. unfold wp in Hwp.
  destruct (purge_mailbox mb st i) as [[[e|n] s1] i1]; simpl in Hrun; simplify_eq; destruct Hwp as [_ Hr].
  - destruct Hr as [Hq ->]. split_and!; [done|by apply spec_refused|done].
  - destruct Hr as [-> ->]. pose proof (inv_wf _ HI) as Hwf. pose proof (Inv_purged st mb HI Hmb) as [HD HI'].
    split; [done|]. split; [|done].
    apply spec_purge.
    + unfold abs. pose proof (count_queue _ mb (inv_wf _ HI') Hmb) as Hc. rewrite HD in Hc |- *.
      unfold count_of in Hc. rewrite purged_weight in Hc by done.
      destruct (queue_of mb _); [done|]. simpl in Hc. lia.
    + apply queue_eq_all. intros mb' ? Hne. rewrite HD. apply (removed_other mb); try done.
      intros k [? _]%purge_keys; done.
    + unfold abs. by rewrite length_fmap, count_queue.
Qed.

Lemma sweep_sim st i ans st' i' :
  Inv st → answered Count (sweep_expired st i) = (ans, st', i') →
  Inv st' ∧ spec_step (next_now i) OpSweep (abs st) ans (abs st') ∧ (quiet i → ans ≠ Refused).
Proof.
  intros HI Hrun. pose proof (sweep_wp st i HI) as Hwp. simpl in Hwp. unfold wp in Hwp.
  destruct (sweep_expired st i) as [[[e|n] s1] i1]; simpl in Hrun; simplify_eq; destruct Hwp as [_ Hr].
  - destruct Hr as [Hq ->]. split_and!; [done|by apply spec_refused|done].
  - destruct Hr as (-> & HD & HI'). split; [done|]. split; [|done].
    apply spec_sweep. intros mb. unfold abs.
    rewrite (filter_view _ (λ e, next_now i -^ QUEUE_TTL_MS ≤ sv_q e.2)) by done.
    f_equal. destruct (decide (no_char ":" mb)) as [Hmb|]; [|by rewrite !queue_colon].
    rewrite HD, <- entries_unexpired. apply queue_remove_keys; [apply HI|done|].
    intros id v Hk. rewrite elem_expired. simpl. split.
    + intros Hle (v' & Hv' & Hlt). simplify_eq. lia.
    + intros Hn. destruct (Z.le_gt_cases (next_now i -^ QUEUE_TTL_MS) (sv_q v)); [done|].
      destruct Hn. eauto.
Qed.

Lemma read_sim {A} (m : M QueueStore anyhow A) (f : A → answer) o (x : A) st i ans st' i' :
  Inv st → wp m (λ r s _, s = st ∧ match r with inr a => a = x | inl _ => ¬ quiet i end) st i →
  (∀ a', (∀ m, a' m = abs st m) → spec_step (next_now i) o (abs st) (f x) a') →
  f x ≠ Refused →
  answered f (m st i) = (ans, st', i') →
  Inv st' ∧ spec_step (next_now i) o (abs st) ans (abs st') ∧ (quiet i → ans ≠ Refused).
Proof.
  intros HI Hwp Hspec Hf Hrun. unfold wp in Hwp.
  destruct (m st i) as [[[e|r] s1] i1]; simpl in Hrun; simplify_eq; destruct Hwp as [-> Hr].
  - split_and!; [done|by apply spec_refused|done].
  - subst r. split_and!; [done| |done]. by apply Hspec.
Qed.

Lemma step_refines o st i ans st' i' :
  Inv st → op_pre o st → exec o st i = (ans, st', i') →
  Inv st' ∧ spec_step (next_now i) o (abs st) ans (abs st') ∧ (quiet i → ans ≠ Refused).
Proof.
  intros HI Hpre Hrun. destruct o as [mb env|mb|mb|mb ids|mb| |]; cbn [exec op_pre] in *.
  - by eapply enqueue_sim.
  - eapply (read_sim _ Envelopes _ (to_envelope mb <$> queue_of mb (entries st))); [done| | |done|done].
    + apply (flush_wp i); try done; apply HI.
    + intros a' Ha. replace (to_envelope mb <$> _) with (envelope_of mb <$> abs st mb); [by apply spec_flush|].
      unfold abs. by rewrite <- list_fmap_compose.
  - eapply (read_sim _ Truth _ (bool_decide (queue_of mb (entries st) = []))); [done| | |done|done].
    + by apply (is_empty_wp i).
    + intros a' Ha. erewrite bool_decide_ext; [by apply spec_is_empty|].
      unfold abs. by destruct (queue_of _ _).
  - by eapply ack_sim.
  - by eapply purge_sim.
  - by eapply sweep_sim.
  - pose proof (new_wp (db st) (Inv_table_ok st HI) i i ltac:(done)) as Hwp. unfold wp in Hwp.
    destruct (new (db st) () i) as [[[e|st1] s1] i1]; simplify_eq; destruct Hwp as [_ Hr].
    + split_and!; [done|by apply spec_refused|done].
    + destruct Hr as (Hdb & HI' & _). split_and!; [done| |done]. apply spec_reopen.
      intros mb. unfold abs, entries. by rewrite Hdb.
Qed.

Lemma runs_refine st i tr st' i' :
  runs st i tr st' i' → Inv st → Inv st' ∧ spec_run (abs st) tr (abs st').
Proof.
  induction 1 as [|st i o ans st1 i1 tr st2 i2 Hpre Hrun _ IH]; intros HI; [split; [done|constructor]|].
  destruct (step_refines _ _ _ _ _ _ HI Hpre Hrun) as (HI1 & Hstep & _).
  destruct (IH HI1) as [HI2 Hrest]. split; [done|]. by econstructor.
Qed.
(** ** What a caller needs to know of each operation *)

Lemma purge_effect i0 mb st i :
  Inv st → no_char ":" mb → io_step i0 i →
  wp (purge_mailbox mb) (λ r st' i', io_step i0 i' ∧ Inv st' ∧ (∀ m, m ≠ mb → abs st' m = abs st m) ∧
    match r with inr _ => abs st' mb = [] | inl _ => ¬ quiet i0 ∧ st' = st end) st i.
Proof.
  intros HI Hmb Hi. pose proof (purge_wp i0 st mb i HI Hmb Hi) as Hwp. unfold wp in *.
  pose proof (purge_sim st mb i) as Hsim.
  destruct (purge_mailbox mb st i) as [[[e|n] st'] i']; destruct Hwp as [Hi' Hr]; split; try done.
  - by destruct Hr as [? ->].
  - destruct (Hsim _ _ _ HI Hmb eq_refl) as (HI' & Hs & _). inversion Hs; subst. done.
Qed.

Lemma ack_effect i0 mb ids st i :
  Inv st → no_char ":" mb → io_step i0 i →
  wp (ack mb ids) (λ r st' i', io_step i0 i' ∧ Inv st' ∧ (∀ m, m ≠ mb → abs st' m = abs st m) ∧
    match r with
    | inr n => abs st' mb = filter (λ m, msg_id m ∉ ids) (abs st mb)
               ∧ n = Z.of_nat (length (abs st mb)) - Z.of_nat (length (abs st' mb))
    | inl _ => ¬ quiet i0 ∧ st' = st
    end) st i.
Proof.
  intros HI Hmb Hi. pose proof (ack_wp i0 st mb ids i HI Hmb Hi) as Hwp. unfold wp in *.
  pose proof (ack_sim st mb ids i) as Hsim.
  destruct (ack mb ids st i) as [[[e|n] st'] i']; destruct Hwp as [Hi' Hr]; split; try done.
  - by destruct Hr as [? ->].
  - destruct (Hsim _ _ _ HI Hmb eq_refl) as (HI' & Hs & _). inversion Hs; subst. done.
Qed.

Lemma enqueue_effect mb env st i :
  Inv st → enqueue_pre st mb env →
  wp (enqueue mb env) (λ r st' i', io_later i i' ∧ Inv st' ∧ (∀ m, m ≠ mb → abs st' m = abs st m) ∧
    match r with
    | inr _ => abs st' mb = keep_newest (slen (ciphertext env)) (abs st mb) ++ [message_of env (next_now i)]
    | inl _ => ¬ quiet i ∧ abs st' mb = abs st mb
    end) st i.
Proof.
  intros HI Hpre. pose proof (enqueue_wp st mb env i HI Hpre) as Hwp. cbv zeta in Hwp. unfold wp in *.
  pose proof (enqueue_sim st mb env i) as Hsim.
  destruct (enqueue mb env st i) as [[[e|n] st'] i']; destruct Hwp as [Hi' Hr];
    (split; [etrans; [apply tick_later|by apply step_later]|]).
  - destruct (Hsim _ _ _ HI Hpre eq_refl) as (HI' & _ & _). destruct Hr as [Hq ->]. by split_and!.
  - destruct (Hsim _ _ _ HI Hpre eq_refl) as (HI' & Hs & _). inversion Hs; subst. done.
Qed.

Lemma sweep_effect st i :
  Inv st →
  wp sweep_expired (λ r st' i', io_later i i' ∧ Inv st' ∧
    match r with
    | inr _ => ∀ m, abs st' m = filter (λ x, next_now i -^ QUEUE_TTL_MS ≤ msg_at x) (abs st m)
    | inl _ => ¬ quiet i ∧ st' = st
    end) st i.
Proof.
  intros HI. pose proof (sweep_wp st i HI) as Hwp. cbv zeta in Hwp. unfold wp in *. pose proof (sweep_sim st i) as Hsim.
  destruct (sweep_expired st i) as [[[e|n] st'] i']; destruct Hwp as [Hi' Hr];
    (split; [etrans; [apply tick_later|by apply step_later]|]).
  - by destruct Hr as [? ->].
  - destruct (Hsim _ _ _ HI eq_refl) as (HI' & Hs & _). inversion Hs; subst. done.
Qed.
End Spec.
