(* ===== verification/QueueProps.v ===== *)
(** What the queue store guarantees to the relay: the properties of
    [queue_store.rs], over every database, uuid library and codec that satisfy
    their interfaces, each with a concrete instance. *)
From Stdlib Require Import ZArith Lia Ascii String.
From stdpp Require Import base gmap strings list sorting.
From S2P Require Import Prelude Redb RustStd Config Util Protocol QueueStore QueueFacts QueueRuns QueueRemovals.
From S2P Require Import QueueSpec.

(** ** A concrete store *)

Definition demo_serde : Serde StoredValue := serde_countable StoredValue.

Definition calm : io := Io [] [] [] [].

Definition at_time (t : Z) : io := Io [] [] [t] [].

Section Demo.
#[local] Existing Instances gmap_redb unary_uuid demo_serde.

Definition empty_queues : QueueStore := {| db := tbl_empty; total_bytes := 0; next_seq := 1; index := ∅ |}.

Definition demo_env : StoredEnvelope :=
  {| env_id := 1%nat; env_to := "mbx_a"; envelope_type := "msg"; ciphertext := "c1" |}.

Definition demo_env2 : StoredEnvelope :=
  {| env_id := 2%nat; env_to := "mbx_a"; envelope_type := "msg"; ciphertext := "c2" |}.

(** The store with [demo_env] queued at time 5. *)
Definition demo_queues : QueueStore := enqueued empty_queues "mbx_a" demo_env 5 [].

Lemma entries_empty : entries empty_queues = ∅.
Proof. apply decoded_empty. Qed.

Lemma Inv_empty_queues : Inv empty_queues.
Proof.
  split; rewrite ?entries_empty.
  - intros k v. change (tbl_get tbl_empty k = Some v → is_Some (from_slice v : option StoredValue)).
    by rewrite tbl_get_empty.
  - split; [intros k v|intros k1 k2 v1 v2]; by rewrite lookup_empty.
  - intros k v. by rewrite lookup_empty.
  - done.
  - done.
  - intros mb. done.
  - intros mb. done.
Qed.

Lemma demo_pre : enqueue_pre empty_queues "mbx_a" demo_env.
Proof. by split. Qed.

Lemma Inv_demo_queues : Inv demo_queues.
Proof. apply (Inv_enqueued empty_queues "mbx_a" demo_env 5 Inv_empty_queues demo_pre). Qed.

Lemma demo_pre2 : enqueue_pre demo_queues "mbx_a" demo_env2.
Proof. by split. Qed.
End Demo.

Section Props.
Context {RD : Redb} {UL : UuidLib} {SV : Serde StoredValue}.
Implicit Types (mb : string) (st : QueueStore).

(** C24. Any sequence of queue operations, database failures and restarts included, keeps the
    store's invariant and is a run of the specification in which a mailbox is a list of
    messages: an enqueue drops the oldest and appends, an ack and the sweep filter, a purge
    empties, a refused operation changes nothing. *)
Theorem queue_runs_refine_spec st i tr st' i' :
  runs st i tr st' i' → Inv st → Inv st' ∧ spec_run (abs st) tr (abs st').
Proof. apply runs_refine. Qed.

(** C36. After any sequence of operations every mailbox holds at most 500 messages and 8 MiB,
    its message ids are distinct, and the RAM index and byte total are the true counts of what
    is on disk. *)
Theorem queue_caps_hold st i tr st' i' mb :
  runs st i tr st' i' → Inv st → no_char ":" mb →
  Z.of_nat (length (abs st' mb)) ≤ MAX_QUEUE_PER_RECIPIENT
  ∧ msg_bytes (abs st' mb) ≤ PER_MAILBOX_QUEUE_BYTES
  ∧ index_entry mb st' = (Z.of_nat (length (abs st' mb)), msg_bytes (abs st' mb))
  ∧ total_bytes st' = total_of (entries st')
  ∧ NoDup (msg_id <$> abs st' mb).
Proof.
  intros Hruns HI Hmb. apply runs_refine in Hruns as [HI' _]; [|done].
  pose proof (inv_wf _ HI') as Hwf. pose proof (inv_caps _ HI' mb) as [Hc Hb].
  rewrite (inv_index _ HI'). rewrite count_queue, bytes_queue in * by done.
  unfold abs. rewrite length_fmap, msg_bytes_view. split_and!; try done; [apply (inv_total _ HI')|].
  rewrite <- list_fmap_compose. by apply queue_ids_NoDup.
Qed.

(** An enqueue that succeeds appends its envelope behind the newest messages of the
    mailbox, drops the oldest ones and no more than needed, returns how many it dropped, and
    touches no other mailbox; one that fails (only when a database call failed) leaves table,
    byte total and index alone. *)
Theorem enqueue_appends st mb env i :
  Inv st → enqueue_pre st mb env →
  wp (enqueue mb env) (λ r st' _,
    match r with
    | inr n => ∃ dropped kept,
        abs st mb = dropped ++ kept ∧ abs st' mb = kept ++ [message_of env (next_now i)]
        ∧ n = Z.of_nat (length dropped)
        ∧ (∀ d m, dropped = d ++ [m] → ¬ has_room (slen (ciphertext env)) (m :: kept))
        ∧ (∀ mb', mb' ≠ mb → abs st' mb' = abs st mb')
        ∧ total_bytes st' = total_bytes st - msg_bytes dropped + slen (ciphertext env)
    | inl _ => ¬ quiet i ∧ db st' = db st ∧ total_bytes st' = total_bytes st ∧ index st' = index st
    end) st i.
Proof.
  intros HI Hpre. eapply wp_conseq; [by apply enqueue_wp|]. cbn beta.
  intros [e|n] st' i' [_ Hr]; [by destruct Hr as [? ->]|]. destruct Hr as [-> ->].
  exists (view <$> evicted (slen (ciphertext env)) (queue_of mb (entries st))),
         (view <$> make_room (slen (ciphertext env)) (queue_of mb (entries st))).
  pose proof (inv_total _ (Inv_enqueued st mb env (next_now i) HI Hpre)) as [-> _].
  rewrite total_enqueued by done. pose proof (inv_total _ HI) as [-> _].
  split_and!.
  - unfold abs. by rewrite <- fmap_app, evicted_make_room.
  - unfold abs. by rewrite queue_enqueued, fmap_app.
  - by rewrite length_fmap.
  - apply evicted_minimal.
  - apply queue_eq_all. intros. by apply queue_enqueued_other.
  - by rewrite msg_bytes_view.
Qed.

(** A flush is read-only and returns every queued envelope of the mailbox, each once, in
    the order of their sequence numbers. *)
Theorem flush_returns_queue st mb i :
  Inv st → no_char ":" mb →
  wp (flush mb) (λ r st' _, st' = st ∧
    match r with
    | inr l => l = to_envelope mb <$> queue_of mb (entries st)
               ∧ increasing (λ e, sv_s e.2) (queue_of mb (entries st))
               ∧ ∀ id v, (id, v) ∈ queue_of mb (entries st) ↔ entries st !! key_for mb id = Some v
    | inl _ => ¬ quiet i
    end) st i.
Proof.
  intros HI Hmb. pose proof (inv_wf _ HI) as Hwf. apply (flush_wp i); [done..| |done].
  intros i' _. split_and!; [done..|by apply queue_increasing|]. intros. by apply elem_queue.
Qed.

(** An ack removes exactly the messages whose ids it names from exactly that mailbox and
    answers how many of them were queued; a failed one changes nothing. *)
Theorem ack_removes_exactly st mb ids i :
  Inv st → no_char ":" mb →
  wp (ack mb ids) (λ r st' _,
    match r with
    | inr n => abs st' mb = filter (λ m, msg_id m ∉ ids) (abs st mb)
               ∧ n = Z.of_nat (length (filter (λ m, msg_id m ∈ ids) (abs st mb)))
               ∧ (∀ mb', mb' ≠ mb → abs st' mb' = abs st mb') ∧ Inv st'
    | inl _ => ¬ quiet i ∧ st' = st
    end) st i.
Proof.
  intros HI Hmb. unfold wp. pose proof (ack_wp i st mb ids i HI Hmb ltac:(done)) as Hwp. unfold wp in Hwp.
  destruct (ack mb ids st i) as [[[e|n] st'] i'] eqn:Hrun; destruct Hwp as [_ Hr]; [done|].
  destruct (ack_sim st mb ids i (Count n) st' i') as (HI' & Hs & _); [done..|by rewrite Hrun|].
  inversion Hs as [| | | |? ? ? ? ? Ha Hother Hn| | |]; subst.
  split_and!; [done| |done|done].
  rewrite Ha. pose proof (filter_length_split (λ m, msg_id m ∈ ids) (abs st mb)) as [H1 H2].
  cbv beta in H1, H2. lia.
Qed.

(** The queue sweep removes exactly the messages older than the TTL, in every mailbox, and
    keeps the counters true. *)
Theorem sweep_removes_exactly_expired st i :
  Inv st →
  wp sweep_expired (λ r st' _,
    match r with
    | inr _ => (∀ mb, abs st' mb = filter (λ m, next_now i -^ QUEUE_TTL_MS ≤ msg_at m) (abs st mb)) ∧ Inv st'
    | inl _ => ¬ quiet i ∧ st' = st
    end) st i.
Proof.
  intros HI. unfold wp. pose proof (sweep_wp st i HI) as Hwp. simpl in Hwp. unfold wp in Hwp.
  destruct (sweep_expired st i) as [[[e|n] st'] i'] eqn:Hrun; destruct Hwp as [_ Hr]; [done|].
  destruct (sweep_sim st i (Count n) st' i') as (HI' & Hs & _); [done..|by rewrite Hrun|].
  inversion Hs; subst. done.
Qed.

(** Opening the queue store on any well-formed table rebuilds the byte total and the
    per-mailbox index, and continues with a sequence number above every stored one. *)
Theorem reopen_rebuilds t i :
  table_ok t →
  wp (new t) (λ r _ _,
    match r with
    | inr st => db st = t ∧ Inv st ∧ total_bytes st = total_of (decoded t)
                ∧ (∀ mb, index_entry mb st = (count_of mb (decoded t), bytes_of mb (decoded t)))
                ∧ (∀ k v, (decoded t : gmap string StoredValue) !! k = Some v → sv_s v < next_seq st)
    | inl _ => ¬ quiet i
    end) () i.
Proof.
  intros Hok. eapply wp_conseq; [by apply (new_wp t Hok i)|]. cbn beta. intros [e|st] _ i' [_ Hr]; [done|].
  destruct Hr as (<- & HI & _). split_and!; [done..|apply (inv_total _ HI)|apply (inv_index _ HI)|].
  intros k v Hk. by apply (inv_seq _ HI) in Hk as [_ ?].
Qed.
End Props.

(** ** Witnesses *)

Section Witnesses.
#[local] Existing Instances gmap_redb unary_uuid demo_serde.

Definition demo_ops : list op :=
  [OpEnqueue "mbx_a" demo_env; OpEnqueue "mbx_a" demo_env2; OpFlush "mbx_a"; OpAck "mbx_a" [1%nat];
   OpReopen; OpSweep; OpPurge "mbx_a"].

Definition demo_outcome := exec_all demo_ops empty_queues calm.

Lemma demo_answers :
  demo_outcome.1.1.*2 = [Count 0; Count 0; Envelopes [demo_env; demo_env2]; Count 1; Done; Count 0; Count 1].
Proof. vm_compute. reflexivity. Qed.

Lemma demo_runs : runs empty_queues calm demo_outcome.1.1 demo_outcome.1.2 demo_outcome.2.
Proof.
  apply (exec_all_runs demo_ops).
  - apply (bool_decide_unpack (pre_all demo_ops empty_queues calm)). vm_compute. exact I.
  - unfold demo_outcome. by destruct (exec_all demo_ops empty_queues calm) as [[]].
Qed.

Lemma queue_runs_refine_spec_witness :
  runs empty_queues calm demo_outcome.1.1 demo_outcome.1.2 demo_outcome.2
  ∧ Inv demo_outcome.1.2 ∧ spec_run (abs empty_queues) demo_outcome.1.1 (abs demo_outcome.1.2).
Proof. split; [exact demo_runs|]. exact (queue_runs_refine_spec _ _ _ _ _ demo_runs Inv_empty_queues). Defined.

Lemma queue_caps_hold_witness : Z.of_nat (length (abs demo_outcome.1.2 "mbx_a")) ≤ MAX_QUEUE_PER_RECIPIENT.
Proof. apply (queue_caps_hold _ _ _ _ _ "mbx_a" demo_runs Inv_empty_queues). reflexivity. Defined.

Lemma enqueue_appends_witness :
  (enqueue "mbx_a" demo_env2 demo_queues (at_time 7)).1.1 = inr 0
  ∧ wp (enqueue "mbx_a" demo_env2) (λ r st' _,
      ∀ n, r = inr n → ∃ d k, abs demo_queues "mbx_a" = d ++ k ∧ abs st' "mbx_a" = k ++ [message_of demo_env2 7])
      demo_queues (at_time 7).
Proof.
  split; [vm_compute; reflexivity|].
  eapply wp_conseq; [exact (enqueue_appends demo_queues "mbx_a" demo_env2 (at_time 7) Inv_demo_queues demo_pre2)|].
  intros r st' i' H n ->. destruct H as (d & k & H1 & H2 & _). exists d, k. split; [exact H1|exact H2].
Defined.

Lemma flush_returns_queue_witness :
  (flush "mbx_a" demo_queues calm).1.1 = inr [demo_env]
  ∧ wp (flush "mbx_a") (λ r st' _, st' = demo_queues) demo_queues calm.
Proof.
  split; [vm_compute; reflexivity|].
  eapply wp_conseq; [exact (flush_returns_queue demo_queues "mbx_a" calm Inv_demo_queues eq_refl)|].
  intros r st' i' [H _]. exact H.
Defined.

Lemma ack_removes_exactly_witness :
  (ack "mbx_a" [1%nat; 9%nat] demo_queues calm).1.1 = inr 1
  ∧ wp (ack "mbx_a" [1%nat; 9%nat]) (λ r st' _, ∀ n, r = inr n →
      abs st' "mbx_a" = filter (λ m, msg_id m ∉ [1%nat; 9%nat]) (abs demo_queues "mbx_a")) demo_queues calm.
Proof.
  split; [vm_compute; reflexivity|].
  eapply wp_conseq; [exact (ack_removes_exactly demo_queues "mbx_a" [1%nat; 9%nat] calm Inv_demo_queues eq_refl)|].
  intros r st' i' H n ->. exact (proj1 H).
Defined.

Lemma sweep_removes_exactly_expired_witness :
  (sweep_expired demo_queues (at_time (6 + QUEUE_TTL_MS))).1.1 = inr 1
  ∧ wp sweep_expired (λ r st' _, ∀ n, r = inr n → abs st' "mbx_a" = []) demo_queues (at_time (6 + QUEUE_TTL_MS)).
Proof.
  split; [vm_compute; reflexivity|].
  eapply wp_conseq; [exact (sweep_removes_exactly_expired demo_queues (at_time (6 + QUEUE_TTL_MS)) Inv_demo_queues)|].
  intros r st' i' H n ->. rewrite (proj1 H "mbx_a"). vm_compute. reflexivity.
Defined.

Lemma reopen_rebuilds_witness :
  wp (new (db demo_queues)) (λ r _ _, ∃ st, r = inr st ∧ total_bytes st = 2) () calm.
Proof.
  eapply wp_conseq; [exact (reopen_rebuilds (db demo_queues) calm (Inv_table_ok _ Inv_demo_queues))|].
  intros [e|st] st' i' H; [destruct H; constructor|]. exists st. split; [reflexivity|].
  destruct H as (_ & _ & -> & _). vm_compute. reflexivity.
Defined.
End Witnesses.
