(* ===== verification/FileStore.v ===== *)
(** [file_store.rs]: the durable store of chunked file transfers.

    Two tables of the shared database, the transfers' metadata and their chunks,
    with a RAM cache of the metadata and two counters for the caps.  A write
    transaction works on copies of the two tables; the copies become current at
    the commit. *)
From Stdlib Require Import ZArith Lia Ascii String.
From stdpp Require Import base gmap strings list.
From S2P Require Import Prelude Redb RustStd Config Util.

Record FileMeta := {
  total_chunks : Z;
  total_bytes : Z;
  stored_bytes : Z;
  received_chunks : Z;
  created_at_ms : Z;
}.

#[global] Instance FileMeta_eq_dec : EqDecision FileMeta.
Proof. solve_decision. Defined.

#[global] Instance FileMeta_countable : Countable FileMeta.
Proof.
  refine (inj_countable' (λ m, (total_chunks m, total_bytes m, stored_bytes m, received_chunks m, created_at_ms m))
    (λ '(tc, tb, sb, rc, ca), {| total_chunks := tc; total_bytes := tb; stored_bytes := sb;
                                received_chunks := rc; created_at_ms := ca |}) _).
  by intros [].
Defined.

Inductive FileReject := TooLarge | Full | BadRequest | NotFound.

#[global] Instance FileReject_eq_dec : EqDecision FileReject.
Proof. solve_decision. Defined.

Definition code (r : FileReject) : string :=
  match r with
  | TooLarge => "file_too_large"
  | Full => "relay_full"
  | BadRequest => "bad_request"
  | NotFound => "not_found"
  end.

Definition message (r : FileReject) : string :=
  match r with
  | TooLarge => "file exceeds this relay's size limit"
  | Full => "relay file storage is full"
  | BadRequest => "malformed file transfer request"
  | NotFound => "file transfer not found or expired"
  end.

Record StoredChunk := {
  sc_received_chunks : Z;
  sc_total_chunks : Z;
}.

Record FetchedChunk := {
  data : bytes;
  fc_total_chunks : Z;
  fc_total_bytes : Z;
}.

Definition chunk_key (transfer_id : string) (chunk_index : Z) : string :=
  transfer_id +:+ ":" +:+ dec chunk_index.

Definition chunk_bounds (transfer_id : string) : string * string :=
  (transfer_id +:+ ":", transfer_id +:+ ";").

(** The two local variables of [write_chunk] that its closure sets. *)
Record Settle := {
  reserved_add : Z;
  release_after_commit : Z;
}.

Section Store.
Context {RD : Redb} {SM : Serde FileMeta}.

Record FileStore := {
  file_meta : Table;
  file_chunks : Table;
  config : FileConfig;
  meta : gmap string FileMeta;
  reserved_bytes : Z;
  transfer_count : Z;
}.

Definition set_tables (mt ct : Table) (st : FileStore) : FileStore :=
  {| file_meta := mt; file_chunks := ct; config := config st; meta := meta st;
     reserved_bytes := reserved_bytes st; transfer_count := transfer_count st |}.

Definition set_meta (m : gmap string FileMeta) (st : FileStore) : FileStore :=
  {| file_meta := file_meta st; file_chunks := file_chunks st; config := config st; meta := m;
     reserved_bytes := reserved_bytes st; transfer_count := transfer_count st |}.

Definition set_reserved (z : Z) (st : FileStore) : FileStore :=
  {| file_meta := file_meta st; file_chunks := file_chunks st; config := config st; meta := meta st;
     reserved_bytes := z; transfer_count := transfer_count st |}.

Definition set_count (z : Z) (st : FileStore) : FileStore :=
  {| file_meta := file_meta st; file_chunks := file_chunks st; config := config st; meta := meta st;
     reserved_bytes := reserved_bytes st; transfer_count := z |}.

(** ** Counters *)

Definition reserve_slot : M FileStore FileReject () :=
  st ← get;
  let cur := transfer_count st in
  if max_transfers (config st) <=? cur then throw Full
  else put (set_count (cur +! 1) st).

Definition try_reserve_bytes (amount : Z) : M FileStore FileReject () :=
  st ← get;
  let next := reserved_bytes st +^ amount in
  if max_total_file_bytes (config st) <? next then throw Full
  else put (set_reserved next st).

(** [fetch_sub] wraps. *)
Definition release_slot {E : Type} : M FileStore E () :=
  modify (λ st, set_count (transfer_count st -! 1) st).

Definition release_bytes {E : Type} (amount : Z) : M FileStore E () :=
  modify (λ st, set_reserved (reserved_bytes st -^ amount) st).

(** ** Opening *)

Definition scan_meta {E : Type} (e : E) : M FileStore E () :=
  st ← get;
  _ ← begin_txn e;
  table ← open_table e (file_meta st);
  entries ← txn_iter e table;
  '(reserved, count) ← foldM (λ '(reserved, count) '(k, v),
    _ ← io_call e;
    match from_slice v with
    | Some m =>
        _ ← modify (λ st, set_meta (<[k := m]> (meta st)) st);
        mret (reserved +^ stored_bytes m, count +! 1)
    | None => mret (reserved, count)
    end) (0, 0) entries;
  _ ← modify (set_reserved reserved);
  modify (set_count count).

Definition new {E : Type} (e : E) (mt ct : Table) (cfg : FileConfig) : M () E FileStore :=
  _ ← begin_txn e;
  mt ← open_table e mt;
  ct ← open_table e ct;
  _ ← commit e;
  let store := {| file_meta := mt; file_chunks := ct; config := cfg; meta := ∅;
                  reserved_bytes := 0; transfer_count := 0 |} in
  '(_, store) ← with_state store (scan_meta e);
  mret store.

(** ** Storing *)

(** A call on the store from inside the closure. *)
Definition self {E A} (m : M FileStore E A) : M (FileStore * Settle) E A :=
  zoom fst (λ t s, (t, s.2)) m.

Definition set_local (l : Settle) : M (FileStore * Settle) FileReject () := modify (λ s, (s.1, l)).

(** The metadata the write starts from. *)
Definition load_meta {S} (meta_table : Table) (transfer_id : string) (tc tb : Z) (creating : bool)
    : M S FileReject FileMeta :=
  if creating then
    now ← now_ms;
    mret {| total_chunks := tc; total_bytes := tb; stored_bytes := 0; received_chunks := 0;
            created_at_ms := now |}
  else
    v ← txn_get Full meta_table transfer_id;
    match v with
    | Some b => match from_slice b with Some m => mret m | None => throw NotFound end
    | None => throw NotFound
    end.

(** The closure of [write_chunk]: also returns the transaction's two tables. *)
Definition write_body (transfer_id : string) (chunk_index tc tb : Z) (dat : bytes) (data_len : Z)
    (creating : bool) : M (FileStore * Settle) FileReject (Table * Table * Z * Z * Z) :=
  s ← get;
  let st := s.1 in
  meta_table ← open_table Full (file_meta st);
  chunk_table ← open_table Full (file_chunks st);
  m ← load_meta meta_table transfer_id tc tb creating;
  let key := chunk_key transfer_id chunk_index in
  prev ← txn_get Full chunk_table key;
  let prev_len := match prev with Some b => blen b | None => 0 end in
  let new_stored := (stored_bytes m -! prev_len) +! data_len in
  if (total_bytes m <? new_stored) || (max_file_bytes (config st) <? new_stored)
  then throw BadRequest
  else
    _ ← (if prev_len <? data_len then
           _ ← self (try_reserve_bytes (data_len -! prev_len));
           set_local {| reserved_add := data_len -! prev_len; release_after_commit := 0 |}
         else
           set_local {| reserved_add := 0; release_after_commit := prev_len -! data_len |});
    let m := {| total_chunks := total_chunks m; total_bytes := total_bytes m; stored_bytes := new_stored;
                received_chunks := if prev_len =? 0 then wrap32 (received_chunks m + 1) else received_chunks m;
                created_at_ms := created_at_ms m |} in
    chunk_table ← txn_insert Full chunk_table key dat;
    _ ← io_call Full;
    let meta_bytes := to_vec m in
    meta_table ← txn_insert Full meta_table transfer_id meta_bytes;
    mret (meta_table, chunk_table, received_chunks m, stored_bytes m, created_at_ms m).

Definition release_if (amount : Z) : M FileStore FileReject () :=
  if 0 <? amount then release_bytes amount else mret ().

(** The cache entry after a commit: [or_insert], then advanced. *)
Definition mirror (transfer_id : string) (m : FileMeta) (cache : gmap string FileMeta) : gmap string FileMeta :=
  let e := default m (cache !! transfer_id) in
  <[transfer_id :=
      if received_chunks e <=? received_chunks m
      then {| total_chunks := total_chunks e; total_bytes := total_bytes e; stored_bytes := stored_bytes m;
              received_chunks := received_chunks m; created_at_ms := created_at_ms e |}
      else e]> cache.

Definition write_chunk (transfer_id : string) (chunk_index tc tb : Z) (dat : bytes) (data_len : Z)
    (creating : bool) : M FileStore FileReject StoredChunk :=
  _ ← begin_txn Full;
  '(write, settle) ← with_local {| reserved_add := 0; release_after_commit := 0 |}
    (write_body transfer_id chunk_index tc tb dat data_len creating);
  '(meta_table, chunk_table, received, stored, created_at) ←
    (match write with
     | inr v => mret v
     | inl e => _ ← release_if (reserved_add settle); throw e
     end);
  committed ← attempt (commit Full);
  _ ← (match committed with
       | inr _ => mret ()
       | inl _ => _ ← release_if (reserved_add settle); throw Full
       end);
  _ ← modify (set_tables meta_table chunk_table);
  _ ← release_if (release_after_commit settle);
  _ ← modify (λ st, set_meta (mirror transfer_id
        {| total_chunks := tc; total_bytes := tb; stored_bytes := stored; received_chunks := received;
           created_at_ms := created_at |} (meta st)) st);
  mret {| sc_received_chunks := received; sc_total_chunks := tc |}.

Definition store_chunk (transfer_id : string) (chunk_index tc tb : Z) (dat : bytes)
    : M FileStore FileReject StoredChunk :=
  st ← get;
  if bool_decide (dat = []) || (tc =? 0) || (max_chunks (config st) <? tc) || (tc <=? chunk_index)
  then throw BadRequest
  else if (tb =? 0) || (max_file_bytes (config st) <? tb)
  then throw TooLarge
  else
    let data_len := blen dat in
    creating ←
      (match meta st !! transfer_id with
       | Some m =>
           if negb (total_chunks m =? tc) || negb (total_bytes m =? tb) then throw BadRequest
           else mret false
       | None =>
           if negb (chunk_index =? 0) then throw NotFound
           else
             now ← now_ms;
             _ ← modify (λ st, set_meta (<[transfer_id :=
                   {| total_chunks := tc; total_bytes := tb; stored_bytes := 0; received_chunks := 0;
                      created_at_ms := now |}]> (meta st)) st);
             mret true
       end);
    _ ← (if (creating : bool) then
           r ← attempt reserve_slot;
           match r with
           | inr _ => mret ()
           | inl e => _ ← modify (λ st, set_meta (delete transfer_id (meta st)) st); throw e
           end
         else mret ());
    result ← attempt (write_chunk transfer_id chunk_index tc tb dat data_len creating);
    _ ← (match result with
         | inl _ =>
             if (creating : bool) then
               _ ← release_slot;
               modify (λ st, set_meta (delete transfer_id (meta st)) st)
             else mret ()
         | inr _ => mret ()
         end);
    lift result.

(** ** Fetching *)

Definition fetch_chunk (transfer_id : string) (chunk_index : Z) : M FileStore FileReject FetchedChunk :=
  st ← get;
  match meta st !! transfer_id with
  | None => throw NotFound
  | Some m =>
      if total_chunks m <=? chunk_index then throw BadRequest
      else
        _ ← begin_txn NotFound;
        table ← open_table NotFound (file_chunks st);
        v ← txn_get NotFound table (chunk_key transfer_id chunk_index);
        match v with
        | Some b => mret {| data := b; fc_total_chunks := total_chunks m; fc_total_bytes := total_bytes m |}
        | None => throw NotFound
        end
  end.

(** ** Deletion and expiry *)

(** [filter_map(|e| e.ok().map(..))]: an unreadable item is skipped. *)
Definition ok_keys {E : Type} (entries : list (string * bytes)) : M FileStore E (list string) :=
  foldM (λ keys '(k, _), ok ← item_ok; mret (if (ok : bool) then keys ++ [k] else keys)) [] entries.

Definition delete_transfer {E : Type} (err : E) (transfer_id : string) : M FileStore E bool :=
  let '(lo, hi) := chunk_bounds transfer_id in
  st ← get;
  _ ← begin_txn err;
  meta_table ← open_table err (file_meta st);
  v ← txn_get err meta_table transfer_id;
  let '(stored, existed) :=
    match v with
    | Some b => (match from_slice b with Some m => stored_bytes m | None => 0 end, true)
    | None => (0, false)
    end in
  meta_table ← txn_remove err meta_table transfer_id;
  chunk_table ← open_table err (file_chunks st);
  entries ← txn_range err chunk_table lo hi;
  keys ← ok_keys entries;
  chunk_table ← txn_remove_all err chunk_table keys;
  _ ← commit err;
  _ ← modify (set_tables meta_table chunk_table);
  _ ← (if (existed : bool) then
         _ ← modify (λ st, set_meta (delete transfer_id (meta st)) st);
         _ ← release_slot;
         release_bytes stored
       else mret ());
  mret existed.

Definition is_expired (cfg : FileConfig) (now : Z) (m : FileMeta) : bool :=
  let full_cutoff := now -^ file_ttl_ms cfg in
  let incomplete_cutoff := now -^ Z.min INCOMPLETE_FILE_TTL_MS (file_ttl_ms cfg) in
  let cutoff := if total_chunks m <=? received_chunks m then full_cutoff else incomplete_cutoff in
  created_at_ms m <? cutoff.

Definition expired_ids (cfg : FileConfig) (now : Z) (cache : gmap string FileMeta) : list string :=
  (filter (λ e, Is_true (is_expired cfg now e.2)) (map_to_list cache)).*1.

Definition sweep_expired {E : Type} (err : E) : M FileStore E Z :=
  now ← now_ms;
  st ← get;
  foldM (λ removed id,
    existed ← delete_transfer err id;
    mret (if (existed : bool) then removed +! 1 else removed)) 0 (expired_ids (config st) now (meta st)).
End Store.

Arguments FileStore {_}.
