(* ===== verification/FileFacts.v ===== *)
(** The invariant of the file store and the states its operations reach.

    On disk a transfer is its metadata and its chunks ([metas], [chunks]); the
    cache agrees with the metadata up to the creation time ([meta_agree]), and
    the counters are sums over it.  The second part runs an upload. *)
From Stdlib Require Import ZArith Lia Ascii String.
From stdpp Require Import base gmap strings list list_numbers.
From S2P Require Import Prelude Redb RustStd Config Util FileStore.

Section Facts.
Context {RD : Redb} {SM : Serde FileMeta}.
Implicit Types (st : FileStore) (id : string) (m c : FileMeta) (MM : gmap string FileMeta) (CC : gmap string bytes).

Definition metas st : gmap string FileMeta := decoded (file_meta st).

Definition chunks st : gmap string bytes := contents (file_chunks st).

Definition count_of id CC : Z := msum (weigh id (λ _, 1)) CC.

Definition bytes_of id CC : Z := msum (weigh id blen) CC.

Definition total_stored MM : Z := msum (λ _, stored_bytes) MM.

(** Equal but for the creation time. *)
Definition meta_agree m m' : Prop :=
  total_chunks m = total_chunks m' ∧ total_bytes m = total_bytes m'
  ∧ stored_bytes m = stored_bytes m' ∧ received_chunks m = received_chunks m'.

Record wf_meta m : Prop := {
  wf_total_chunks : 0 < total_chunks m ≤ u32_max;
  wf_total_bytes : 0 < total_bytes m ≤ u64_max;
  wf_stored : stored_bytes m ≤ total_bytes m;
}.

(** The two tables belong together. *)
Record wf_files MM CC : Prop := {
  wf_metas : ∀ id m, MM !! id = Some m → no_char ":" id ∧ wf_meta m;
  wf_chunks : ∀ k b, CC !! k = Some b → b ≠ [] ∧
    ∃ id idx m, k = chunk_key id idx ∧ MM !! id = Some m ∧ 0 ≤ idx < total_chunks m;
  wf_counts : ∀ id m, MM !! id = Some m → stored_bytes m = bytes_of id CC ∧ received_chunks m = count_of id CC;
}.

Record Inv st : Prop := {
  inv_decodes : ∀ k v, tbl_get (file_meta st) k = Some v → is_Some (from_slice v : option FileMeta);
  inv_wf : wf_files (metas st) (chunks st);
  inv_cache : ∀ id, option_Forall2 meta_agree (meta st !! id) (metas st !! id);
  inv_reserved : reserved_bytes st = total_stored (metas st) ∧ total_stored (metas st) ≤ u64_max;
  inv_count : transfer_count st = Z.of_nat (size (metas st)) ∧ Z.of_nat (size (metas st)) ≤ u64_max;
  inv_config : config_ok (config st);
}.

(** The caps of the operator's configuration. *)
Record Caps st : Prop := {
  cap_bytes : total_stored (metas st) ≤ max_total_file_bytes (config st);
  cap_count : Z.of_nat (size (metas st)) ≤ max_transfers (config st);
  cap_file : ∀ id m, metas st !! id = Some m →
    stored_bytes m ≤ max_file_bytes (config st) ∧ total_chunks m ≤ max_chunks (config st);
}.

(** ** Keys *)

Lemma chunk_owner id idx : no_char ":" id → owner (chunk_key id idx) = Some id.
Proof. apply owner_app. Qed.

Lemma chunk_key_inj id idx idx' :
  0 ≤ idx → 0 ≤ idx' → chunk_key id idx = chunk_key id idx' → idx = idx'.
Proof.
  unfold chunk_key. intros ?? E%str_app_inj_l%str_app_inj_l. by apply dec_inj.
Qed.

Definition all_keys id (n : Z) : list string := chunk_key id <$> seqZ 0 n.

Lemma all_keys_NoDup id n : NoDup (all_keys id n).
Proof.
  apply NoDup_fmap_2_strong; [|apply NoDup_seqZ]. intros x y Hx%elem_of_seqZ Hy%elem_of_seqZ.
  apply chunk_key_inj; lia.
Qed.

Lemma elem_all_keys id n k : k ∈ all_keys id n ↔ ∃ idx, k = chunk_key id idx ∧ 0 ≤ idx < n.
Proof.
  unfold all_keys. rewrite list_elem_of_fmap. setoid_rewrite elem_of_seqZ.
  split; intros (idx & -> & ?); exists idx; split; (done || lia).
Qed.

(** ** Counting chunks *)

Lemma owned_chunk MM CC id k b :
  wf_files MM CC → CC !! k = Some b → owner k = Some id →
  ∃ idx m, k = chunk_key id idx ∧ MM !! id = Some m ∧ 0 ≤ idx < total_chunks m.
Proof.
  intros Hwf Hk Ho. destruct (wf_chunks _ _ Hwf _ _ Hk) as (_ & id' & idx & m & -> & Hm & ?).
  destruct (wf_metas _ _ Hwf _ _ Hm) as [Hid _]. rewrite chunk_owner in Ho by done. simplify_eq. eauto.
Qed.

Lemma no_meta_no_chunk MM CC id k b :
  wf_files MM CC → MM !! id = None → CC !! k = Some b → owner k ≠ Some id.
Proof. intros Hwf Hn Hk Ho. destruct (owned_chunk _ _ _ _ _ Hwf Hk Ho) as (? & ? & ? & ? & ?). congruence. Qed.

(** The chunks of a transfer lie among its [total_chunks] keys. *)
Lemma count_by_keys (w : bytes → Z) MM CC id m :
  wf_files MM CC → MM !! id = Some m →
  msum (weigh id w) CC = zsum (contrib (weigh id w) CC <$> all_keys id (total_chunks m)).
Proof.
  intros Hwf Hm. pose proof (msum_remove_keys (weigh id w) _ CC (all_keys_NoDup id (total_chunks m))) as Hr.
  rewrite weigh_none in Hr; [lia|].
  intros k b [Hk Hn]%remove_keys_Some Ho. apply Hn, elem_all_keys.
  destruct (owned_chunk _ _ _ _ _ Hwf Hk Ho) as (idx & m' & -> & Hm' & ?). simplify_eq. eauto.
Qed.

Lemma count_indicator CC id n :
  Forall (λ z, z = 0 ∨ z = 1) (contrib (weigh id (λ _, 1)) CC <$> all_keys id n).
Proof.
  apply Forall_forall. intros z (k & -> & _)%list_elem_of_fmap. unfold contrib, weigh.
  destruct (CC !! k); [case_decide|]; auto.
Qed.

Lemma count_range MM CC id m :
  wf_files MM CC → MM !! id = Some m → 0 ≤ count_of id CC ≤ total_chunks m.
Proof.
  intros Hwf Hm. pose proof (wf_total_chunks _ (proj2 (wf_metas _ _ Hwf _ _ Hm))).
  split; [apply msum_nonneg; intros; by apply weigh_range|].
  unfold count_of. rewrite (count_by_keys _ _ _ _ _ Hwf Hm).
  pose proof (zsum_indicator _ (count_indicator CC id (total_chunks m))) as [Hle _].
  unfold all_keys in *. rewrite !length_fmap, length_seqZ in Hle. lia.
Qed.

(** All chunks counted: all present. *)
Lemma count_full MM CC id m idx :
  wf_files MM CC → MM !! id = Some m → count_of id CC = total_chunks m → 0 ≤ idx < total_chunks m →
  is_Some (CC !! chunk_key id idx).
Proof.
  intros Hwf Hm Hc Hidx. pose proof (zsum_indicator _ (count_indicator CC id (total_chunks m))) as [_ Hall].
  unfold count_of in Hc. rewrite (count_by_keys _ _ _ _ _ Hwf Hm) in Hc.
  assert (length (contrib (weigh id (λ _, 1)) CC <$> all_keys id (total_chunks m)) = Z.to_nat (total_chunks m)) as Hl.
  { unfold all_keys. by rewrite !length_fmap, length_seqZ. }
  rewrite Hl in Hall. specialize (Hall ltac:(lia)). rewrite Forall_forall in Hall.
  destruct (CC !! chunk_key id idx) eqn:E; [done|].
  assert (contrib (weigh id (λ _, 1)) CC (chunk_key id idx) = 1) as H1.
  { apply Hall, list_elem_of_fmap_2, elem_all_keys. eauto. }
  unfold contrib in H1. by rewrite E in H1.
Qed.

Lemma bytes_nonneg id CC : 0 ≤ bytes_of id CC.
Proof. apply msum_nonneg. intros. apply weigh_nonneg, blen_nonneg. Qed.

Lemma stored_nonneg MM CC id m : wf_files MM CC → MM !! id = Some m → 0 ≤ stored_bytes m.
Proof. intros Hwf Hm. rewrite (proj1 (wf_counts _ _ Hwf _ _ Hm)). apply bytes_nonneg. Qed.

Lemma stored_le_total MM CC id m : wf_files MM CC → MM !! id = Some m → stored_bytes m ≤ total_stored MM.
Proof.
  intros Hwf Hm. pose proof (msum_contrib_le (λ _, stored_bytes) MM id) as Hle.
  unfold contrib in Hle. rewrite Hm in Hle. apply Hle. intros k a Hk. by eapply stored_nonneg.
Qed.

Lemma prev_le_bytes id CC k b : CC !! k = Some b → owner k = Some id → blen b ≤ bytes_of id CC.
Proof.
  intros Hk Ho. assert (contrib (weigh id blen) CC k = blen b) as <-.
  { unfold contrib, weigh. by rewrite Hk, decide_True. }
  apply msum_contrib_le. intros. apply weigh_nonneg, blen_nonneg.
Qed.

(** ** Storing a chunk *)

Definition prev_len CC id idx : Z := match CC !! chunk_key id idx with Some b => blen b | None => 0 end.

(** The metadata after a chunk of [len] bytes replaces one of [prev] bytes
    (0: there was none). *)
Definition grow m (prev len : Z) : FileMeta :=
  {| total_chunks := total_chunks m; total_bytes := total_bytes m;
     stored_bytes := stored_bytes m - prev + len;
     received_chunks := if prev =? 0 then received_chunks m + 1 else received_chunks m;
     created_at_ms := created_at_ms m |}.

(** [m] is what the write starts from: the transfer's metadata, or that of a
    transfer being created. *)
Definition starts_from MM id m : Prop :=
  match MM !! id with
  | Some m' => m' = m
  | None => stored_bytes m = 0 ∧ received_chunks m = 0
  end.

Section Stored.
Context (MM : gmap string FileMeta) (CC : gmap string bytes).
Context (id : string) (idx : Z) (m : FileMeta) (dat : bytes).
Context (Hwf : wf_files MM CC) (Hbase : starts_from MM id m) (Hid : no_char ":" id).
Context (Hdat : dat ≠ []) (Hidx : 0 ≤ idx < total_chunks m).
Context (Htc : 0 < total_chunks m ≤ u32_max) (Htb : 0 < total_bytes m ≤ u64_max).
Context (Hfit : stored_bytes m - prev_len CC id idx + blen dat ≤ total_bytes m).

Abbreviation prev := (prev_len CC id idx).
Abbreviation key := (chunk_key id idx).
Abbreviation m' := (grow m prev (blen dat)).

Lemma base_counts : stored_bytes m = bytes_of id CC ∧ received_chunks m = count_of id CC.
Proof.
  unfold starts_from in Hbase. destruct (MM !! id) as [m0|] eqn:E.
  - subst m0. by apply (wf_counts _ _ Hwf).
  - destruct Hbase as [-> ->]. unfold bytes_of, count_of.
    rewrite !weigh_none; [done|..]; intros k b Hk; by eapply no_meta_no_chunk.
Qed.

Lemma prev_range : 0 ≤ prev ≤ stored_bytes m.
Proof.
  rewrite (proj1 base_counts). unfold prev_len. destruct (CC !! key) eqn:E.
  - split; [apply blen_nonneg|]. eapply prev_le_bytes; [done|by apply chunk_owner].
  - split; [done|apply bytes_nonneg].
Qed.

Lemma prev_zero : prev = 0 ↔ CC !! key = None.
Proof.
  unfold prev_len. destruct (CC !! key) as [b|] eqn:E; [|done].
  apply (wf_chunks _ _ Hwf) in E as [Hb _]. apply blen_pos in Hb. split; [lia|done].
Qed.

Lemma bytes_stored : bytes_of id (<[key:=dat]> CC) = stored_bytes m'.
Proof.
  unfold bytes_of. rewrite weigh_insert_own by (by apply chunk_owner). simpl.
  by rewrite (proj1 base_counts).
Qed.

Lemma count_stored : count_of id (<[key:=dat]> CC) = received_chunks m'.
Proof.
  unfold count_of. rewrite weigh_insert_own by (by apply chunk_owner). simpl.
  rewrite (proj2 base_counts). pose proof prev_zero as Hz. unfold count_of.
  destruct (Z.eqb_spec prev 0), (CC !! key); try lia.
  - by apply Hz in e.
  - by destruct n; apply Hz.
Qed.

Lemma wf_files_stored : wf_files (<[id:=m']> MM) (<[key:=dat]> CC).
Proof.
  split.
  - intros id' m0 [[<- <-]|[_ H]]%lookup_insert_Some; [|by apply (wf_metas _ _ Hwf)].
    split; [done|]. by split.
  - intros k b [[<- <-]|[Hk H]]%lookup_insert_Some.
    + split; [done|]. exists id, idx, m'. by rewrite lookup_insert_eq.
    + apply (wf_chunks _ _ Hwf) in H as (Hb & id' & idx' & m0 & -> & Hm & ?). split; [done|].
      destruct (decide (id' = id)) as [->|].
      * exists id, idx', m'. rewrite lookup_insert_eq. unfold starts_from in Hbase. rewrite Hm in Hbase.
        by subst m0.
      * exists id', idx', m0. by rewrite lookup_insert_ne by done.
  - intros id' m0 [[<- <-]|[Hne H]]%lookup_insert_Some; [by rewrite bytes_stored, count_stored|].
    unfold bytes_of, count_of. rewrite !weigh_insert_other; [by apply (wf_counts _ _ Hwf)|..];
      rewrite chunk_owner by done; congruence.
Qed.

(** The count of received chunks stays within the declared total. *)
Lemma received_stored : 0 < received_chunks m' ≤ total_chunks m.
Proof.
  pose proof (count_range _ _ id m' wf_files_stored (lookup_insert_eq _ _ _)) as [_ Hle].
  rewrite count_stored in Hle. split; [|done]. simpl in *.
  rewrite (proj2 base_counts) in *. pose proof prev_zero as Hz.
  destruct (Z.eqb_spec prev 0).
  - enough (0 ≤ count_of id CC) by lia. apply msum_nonneg. intros. by apply weigh_range.
  - pose proof (msum_contrib_le (weigh id (λ _, 1)) CC key) as Hc.
    destruct (CC !! key) as [b|] eqn:E; [|tauto].
    assert (contrib (weigh id (λ _, 1)) CC key = 1) as H1.
    { unfold contrib, weigh. by rewrite E, decide_True by (by apply chunk_owner). }
    rewrite H1 in Hc. unfold count_of. specialize (Hc ltac:(intros; by apply weigh_range)). lia.
Qed.

Lemma total_stored_insert :
  total_stored (<[id:=m']> MM) = total_stored MM - prev + blen dat.
Proof.
  unfold total_stored. rewrite msum_insert. unfold contrib. unfold starts_from in Hbase.
  destruct (MM !! id); [subst|destruct Hbase as [H0 _]]; simpl; lia.
Qed.

Lemma size_insert :
  Z.of_nat (size (<[id:=m']> MM)) = Z.of_nat (size MM) + match MM !! id with None => 1 | Some _ => 0 end.
Proof.
  destruct (MM !! id) eqn:E.
  - rewrite map_size_insert_Some by eauto. lia.
  - rewrite map_size_insert_None by done. lia.
Qed.
End Stored.
End Facts.

(** The operations of the file store, run symbolically.  [verdict] is the
    decision [store_chunk] takes, [stored_state] the store it reaches when it
    accepts; a refusal or a failure leaves the store as it was. *)

Section Runs.
Context {RD : Redb} {SM : Serde FileMeta}.
Implicit Types (st s : FileStore) (id : string) (m c : FileMeta).

(** ** The decision *)

(** Whether [len] bytes in place of [prev] fit a transfer that holds [stored]
    of its declared [tb], and the store that holds [reserved]. *)
Definition size_verdict (cfg : FileConfig) (reserved tb stored prev len : Z) : option FileReject :=
  if (tb <? stored - prev + len) || (max_file_bytes cfg <? stored - prev + len) then Some BadRequest
  else if (prev <? len) && (max_total_file_bytes cfg <? reserved + (len - prev)) then Some Full
  else None.

Definition verdict st id (idx tc tb : Z) (dat : bytes) : option FileReject :=
  if bool_decide (dat = []) || (tc =? 0) || (max_chunks (config st) <? tc) || (tc <=? idx) then Some BadRequest
  else if (tb =? 0) || (max_file_bytes (config st) <? tb) then Some TooLarge
  else match metas st !! id with
       | Some m =>
           if negb (total_chunks m =? tc) || negb (total_bytes m =? tb) then Some BadRequest
           else size_verdict (config st) (total_stored (metas st)) tb (stored_bytes m)
                  (prev_len (chunks st) id idx) (blen dat)
       | None =>
           if negb (idx =? 0) then Some NotFound
           else if max_transfers (config st) <=? Z.of_nat (size (metas st)) then Some Full
           else size_verdict (config st) (total_stored (metas st)) tb 0 0 (blen dat)
       end.

(** ** The closure of [write_chunk] *)

Lemma txn_prev s id idx :
  match tbl_get (file_chunks s) (chunk_key id idx) with Some b => blen b | None => 0 end
  = prev_len (chunks s) id idx.
Proof. unfold prev_len, chunks. by rewrite contents_lookup. Qed.

Record no_wrap s m (p len : Z) : Prop := {
  nw_prev : 0 ≤ p ≤ stored_bytes m;
  nw_len : 0 ≤ len;
  nw_stored : stored_bytes m + len ≤ u64_max;
  nw_reserved : 0 ≤ reserved_bytes s ∧ reserved_bytes s + len ≤ u64_max;
  nw_held : p ≤ reserved_bytes s;
  nw_received : 0 ≤ received_chunks m ∧ (p = 0 → received_chunks m + 1 ≤ u32_max);
}.

Definition meta_source s id tc tb (creating : bool) (now : Z) m : Prop :=
  if creating
  then m = {| total_chunks := tc; total_bytes := tb; stored_bytes := 0; received_chunks := 0; created_at_ms := now |}
  else tbl_get (file_meta s) id ≫= from_slice = Some m.

Definition no_locals : Settle := {| reserved_add := 0; release_after_commit := 0 |}.

(** What the closure leaves behind, in the store and in its locals. *)
Definition body_post i0 s id idx dat m
    (r : FileReject + Table * Table * Z * Z * Z) (sl : FileStore * Settle) (i' : io) : Prop :=
  let p := prev_len (chunks s) id idx in
  let v := size_verdict (config s) (reserved_bytes s) (total_bytes m) (stored_bytes m) p (blen dat) in
  io_later i0 i' ∧
  match r with
  | inr (mt, ct, rc, sb, ca) =>
      let m' := grow m p (blen dat) in
      v = None ∧ mt = tbl_insert (file_meta s) id (to_vec m')
      ∧ ct = tbl_insert (file_chunks s) (chunk_key id idx) dat
      ∧ rc = received_chunks m' ∧ sb = stored_bytes m' ∧ ca = created_at_ms m'
      ∧ sl = (set_reserved (reserved_bytes s + Z.max 0 (blen dat - p)) s,
              {| reserved_add := Z.max 0 (blen dat - p); release_after_commit := Z.max 0 (p - blen dat) |})
  | inl e =>
      0 ≤ reserved_add sl.2 ∧ sl.1 = set_reserved (reserved_bytes s + reserved_add sl.2) s
      ∧ (0 < reserved_add sl.2 → reserved_bytes s + reserved_add sl.2 ≤ max_total_file_bytes (config s))
      ∧ (v = Some e ∨ ¬ quiet i0 ∧ e = Full)
  end.

Lemma set_reserved_id s : set_reserved (reserved_bytes s + 0) s = s.
Proof. rewrite Z.add_0_r. by destruct s. Qed.

Lemma body_failed i0 s id idx dat m i' :
  ¬ quiet i0 → io_later i0 i' → body_post i0 s id idx dat m (inl Full) (s, no_locals) i'.
Proof. intros Hq Hi. split; [done|]. simpl. rewrite set_reserved_id. split_and!; [done|done|lia|by right]. Qed.

Lemma load_meta_wp {S} i0 (s0 : S) s id tc tb creating m i :
  meta_source s id tc tb creating (next_now i0) m → io_step i0 i →
  wp (load_meta (file_meta s) id tc tb creating) (λ r z j, z = s0 ∧
    ∃ j0, io_later i0 j0 ∧ io_step j0 j ∧
      match r with inr m' => m' = m | inl e => ¬ quiet i0 ∧ e = Full end) s0 i.
Proof.
  intros Hm Hi. unfold load_meta, meta_source in *. destruct creating; cbn beta iota.
  - wp_step. apply wp_now_ms. wp_step. split; [done|]. exists (clock_tick i0).
    split; [apply tick_later|]. split; [by apply step_tick|]. subst m. by rewrite (step_reading i0 i).
  - wp_txn ltac:(split; [done|]; exists i0; by split_and!).
    destruct (tbl_get (file_meta s) id) as [b|]; [|done]. simpl in Hm. rewrite Hm. wp_step.
    split; [done|]. by exists i0.
Qed.

(** The branch that reserves bytes or notes what to release. *)
Lemma settle_wp j0 s (p len : Z) i :
  0 ≤ p → 0 ≤ len → p ≤ u64_max → 0 ≤ reserved_bytes s ∧ reserved_bytes s + len ≤ u64_max → io_step j0 i →
  wp (if p <? len then
        _ ← self (try_reserve_bytes (len -! p));
        set_local {| reserved_add := len -! p; release_after_commit := 0 |}
      else set_local {| reserved_add := 0; release_after_commit := p -! len |})
    (λ r sl i', io_step j0 i' ∧
      let full := (p <? len) && (max_total_file_bytes (config s) <? reserved_bytes s + (len - p)) in
      match r with
      | inr _ => sl = (set_reserved (reserved_bytes s + Z.max 0 (len - p)) s,
                       {| reserved_add := Z.max 0 (len - p); release_after_commit := Z.max 0 (p - len) |})
                 ∧ (if full then Some Full else None) = None
      | inl e => e = Full ∧ sl = (s, no_locals) ∧ (if full then Some Full else None) = Some Full
      end) (s, no_locals) i.
Proof.
  intros Hp Hl Hu [Hr0 Hr] Hi. destruct (Z.ltb_spec p len); cbn beta iota; simpl.
  - rewrite wrap64_small by (unfold is_u64; lia). unfold self, try_reserve_bytes. do 4 wp_step.
    cbv zeta. cbn [fst]. rewrite sat_add_small by lia.
    destruct (Z.ltb_spec (max_total_file_bytes (config s)) (reserved_bytes s + (len - p))); wp_steps; [by split_and!|].
    split; [done|]. simpl. rewrite !Z.max_r by lia. rewrite (Z.max_l 0 (p - len)) by lia. done.
  - rewrite wrap64_small by (unfold is_u64; lia). unfold set_local. wp_step. split; [done|]. simpl.
    rewrite (Z.max_l 0 (len - p)), set_reserved_id by lia. rewrite Z.max_r by lia. done.
Qed.

Lemma write_body_wp i0 s id idx tc tb dat creating m i :
  meta_source s id tc tb creating (next_now i0) m →
  no_wrap s m (prev_len (chunks s) id idx) (blen dat) →
  io_step i0 i →
  wp (write_body id idx tc tb dat (blen dat) creating) (body_post i0 s id idx dat m) (s, no_locals) i.
Proof.
  intros Hm Hnw Hi. unfold write_body.
  wp_txn ltac:(apply body_failed; eauto using step_later).
  eapply wp_conseq; [by eapply load_meta_wp|]. cbn beta. clear Hi.
  intros r s' i' (-> & j0 & Hj0 & Hi & Hr).
  assert (∀ i', io_step j0 i' → io_later i0 i') as Hlater.
  { intros j Hj%step_later. by etrans. }
  assert (¬ quiet j0 → ¬ quiet i0) as Hq by (intros H1 H2; by apply H1, (quiet_later i0)).
  destruct r as [e|m']; [destruct Hr as [? ->]; apply body_failed; auto|]. subst m'. cbn [fst snd].
  unfold txn_get. do 2 wp_step. wp_io ltac:(apply body_failed; auto). wp_step. cbv zeta. rewrite txn_prev.
  set (p := prev_len (chunks s) id idx) in *. destruct Hnw as [Hp Hl Hst [Hr0 Hr] _ Hrc].
  rewrite (wrap64_small (stored_bytes m - p)) by (unfold is_u64; lia).
  rewrite (wrap64_small (stored_bytes m - p + blen dat)) by (unfold is_u64; lia).
  wp_step.
  { wp_step. split; [auto|]. simpl. rewrite set_reserved_id. split_and!; [done|done|lia|]. left.
    unfold size_verdict. fold p. by rewrite Heqb. }
  assert (∀ v, (if (p <? blen dat) && (max_total_file_bytes (config s) <? reserved_bytes s + (blen dat - p))
                then Some Full else None) = v →
    size_verdict (config s) (reserved_bytes s) (total_bytes m) (stored_bytes m) p (blen dat) = v) as Hv.
  { intros v <-. unfold size_verdict. by rewrite Heqb. }
  apply wp_bind. eapply wp_conseq; [by apply (settle_wp j0 s p (blen dat)); try done; lia|].
  cbn beta. clear Hi. intros r sl i'' [Hi Hr']. destruct r as [e|[]].
  { destruct Hr' as (-> & -> & Hv'). split; [auto|]. simpl. rewrite set_reserved_id.
    split_and!; [done|done|lia|]. left. by apply Hv. }
  destruct Hr' as [-> Hv'].
  assert (0 < Z.max 0 (blen dat - p) →
    reserved_bytes s + Z.max 0 (blen dat - p) ≤ max_total_file_bytes (config s)) as Hcap.
  { intros ?. rewrite Z.max_r by lia. destruct (Z.ltb_spec p (blen dat)); [|lia].
    by destruct (Z.ltb_spec (max_total_file_bytes (config s)) (reserved_bytes s + (blen dat - p))). }
  wp_txn ltac:(split; [by auto|]; split_and!; [simpl; lia|done|exact Hcap|right; by auto]).
  split; [auto|]. fold p. split; [by apply Hv|].
  assert (wrap32 (received_chunks m + 1) = received_chunks m + 1 ∨ p ≠ 0) as Hw.
  { destruct (decide (p = 0)) as [H0|]; [left|by right]. apply wrap32_small. destruct Hrc as [? Hrc]. specialize (Hrc H0). lia. }
  unfold grow. destruct (Z.eqb_spec p 0); [|done]. destruct Hw as [-> |]; done.
Qed.

(** ** [write_chunk] *)

(** The store once a chunk is written; [m] and [c] are the metadata on disk
    and in the cache before it. *)
Definition written s id idx dat m c : FileStore :=
  let p := prev_len (chunks s) id idx in
  {| file_meta := tbl_insert (file_meta s) id (to_vec (grow m p (blen dat)));
     file_chunks := tbl_insert (file_chunks s) (chunk_key id idx) dat;
     config := config s;
     meta := <[id := grow c p (blen dat)]> (meta s);
     reserved_bytes := reserved_bytes s - p + blen dat;
     transfer_count := transfer_count s |}.

Lemma release_added s (a : Z) : 0 ≤ reserved_bytes s → 0 ≤ a →
  set_reserved (reserved_bytes s + a -^ a) (set_reserved (reserved_bytes s + a) s) = s.
Proof. intros. rewrite sat_sub_le by lia. replace (reserved_bytes s + a - a) with (reserved_bytes s) by lia. by destruct s. Qed.

Lemma release_if_wp s a (Q : FileReject + () → FileStore → io → Prop) i :
  0 ≤ a → 0 ≤ reserved_bytes s →
  Q (inr ()) (set_reserved (reserved_bytes s -^ a) s) i → wp (release_if a) Q s i.
Proof.
  intros Ha Hr HQ. unfold release_if, release_bytes. destruct (Z.ltb_spec 0 a); wp_step; [done|].
  replace a with 0 in HQ by lia. rewrite sat_sub_le, Z.sub_0_r in HQ by lia. by destruct s.
Qed.

Lemma mirror_grow cache id m c p len tc tb :
  cache !! id = Some c → meta_agree c m →
  let m' := grow m p len in
  mirror id {| total_chunks := tc; total_bytes := tb; stored_bytes := stored_bytes m';
               received_chunks := received_chunks m'; created_at_ms := created_at_ms m' |} cache
  = <[id := grow c p len]> cache.
Proof.
  intros Hc (_ & _ & Hs & Hr). unfold mirror. rewrite Hc. simpl. unfold grow. rewrite Hs, Hr.
  destruct (p =? 0); rewrite (proj2 (Z.leb_le _ _)) by lia; done.
Qed.

Lemma write_chunk_wp i0 s id idx tc tb dat creating m c i :
  meta_source s id tc tb creating (next_now i0) m → meta s !! id = Some c → meta_agree c m →
  no_wrap s m (prev_len (chunks s) id idx) (blen dat) → io_step i0 i →
  wp (write_chunk id idx tc tb dat (blen dat) creating) (λ r s' i', io_later i0 i' ∧
    let p := prev_len (chunks s) id idx in
    let v := size_verdict (config s) (reserved_bytes s) (total_bytes m) (stored_bytes m) p (blen dat) in
    match r with
    | inr sc => v = None ∧ s' = written s id idx dat m c
                ∧ sc = {| sc_received_chunks := received_chunks (grow m p (blen dat)); sc_total_chunks := tc |}
    | inl e => s' = s ∧ (v = Some e ∨ ¬ quiet i0 ∧ e = Full)
    end) s i.
Proof.
  intros Hm Hc Hag Hnw Hi. unfold write_chunk.
  unfold begin_txn. wp_step. wp_io ltac:(split; [by apply step_later|auto]).
  wp_step. wp_step. fold no_locals. eapply wp_conseq; [by apply write_body_wp|]. cbn beta. clear Hi.
  set (p := prev_len (chunks s) id idx). destruct Hnw as [Hp Hl Hst [Hr0 Hr] Hhd _].
  intros r [s' l] i' [Hi Hpost]. cbn [fst snd] in *. fold p in Hpost.
  destruct r as [e|[[[[mt ct] rc] sb] ca]]; cbn beta iota zeta.
  - destruct Hpost as (Ha & -> & _ & Hv). wp_step. wp_step. apply release_if_wp; [done|simpl in *; lia|].
    cbn beta iota. wp_step. split; [done|]. split; [by apply release_added|done].
  - destruct Hpost as (Hv & -> & -> & -> & -> & -> & [= -> ->]). wp_step. wp_step. cbn beta iota.
    unfold commit. do 2 wp_step. apply wp_io_call.
    + intros i2 Hi2%step_later. wp_steps. apply release_if_wp; [simpl; lia|simpl; lia|].
      cbn beta iota. wp_steps. split; [by etrans|]. split; [done|]. split; [|done].
      unfold set_meta, set_tables, set_reserved, written. cbn [file_meta file_chunks config meta reserved_bytes transfer_count].
      fold p. f_equal; [by apply mirror_grow|]. cbn [release_after_commit]. unfold sat_sub. lia.
    + intros Hq i2 Hi2%step_later. wp_steps. apply release_if_wp; [simpl; lia|simpl; lia|].
      cbn beta iota. wp_step. split; [by etrans|]. split; [apply release_added; lia|].
      right. split; [|done]. intros Hq'. by eapply Hq, quiet_later.
Qed.
End Runs.
