(* ===== verification/FileWrites.v ===== *)
(** [store_chunk] as a whole: the state it reaches when the verdict is to
    accept, the invariant and the caps there, and the refusals, which leave the
    store exactly as it was. *)
From Stdlib Require Import ZArith Lia Ascii String.
From stdpp Require Import base gmap strings list list_numbers.
From S2P Require Import Prelude Redb RustStd Config Util FileStore FileFacts.

Section Writes.
Context {RD : Redb} {SM : Serde FileMeta}.
Implicit Types (st s : FileStore) (id : string) (m c : FileMeta).

(** What the caller of [store_chunk] ensures: an id without a colon, unsigned
    numbers, and byte counts that do not reach 2^64. *)
Record store_pre st id (idx tc tb : Z) (dat : bytes) : Prop := {
  pre_id : no_char ":" id;
  pre_nat : 0 ≤ idx ∧ 0 ≤ tc ∧ 0 ≤ tb;
  pre_file : max_file_bytes (config st) + blen dat ≤ u64_max;
  pre_reserved : reserved_bytes st + blen dat ≤ u64_max;
}.

#[global] Instance store_pre_dec st id idx tc tb dat : Decision (store_pre st id idx tc tb dat).
Proof.
  refine (cast_if (decide (no_char ":" id ∧ (0 ≤ idx ∧ 0 ≤ tc ∧ 0 ≤ tb)
    ∧ max_file_bytes (config st) + blen dat ≤ u64_max ∧ reserved_bytes st + blen dat ≤ u64_max)));
    abstract (first [by destruct_and!; constructor | intros []; tauto]).
Defined.

Definition fresh_meta (tc tb now : Z) : FileMeta :=
  {| total_chunks := tc; total_bytes := tb; stored_bytes := 0; received_chunks := 0; created_at_ms := now |}.

(** The metadata before the write; the two clock readings of a creation are
    the cache's and the disk's. *)
Definition disk_base st id tc tb (now : Z) : FileMeta := default (fresh_meta tc tb now) (metas st !! id).

Definition cache_base st id tc tb (now : Z) : FileMeta := default (fresh_meta tc tb now) (meta st !! id).

(** The store with the transfer id claimed. *)
Definition claimed st id tc tb (now : Z) : FileStore :=
  match metas st !! id with
  | Some _ => st
  | None => set_count (transfer_count st + 1) (set_meta (<[id := fresh_meta tc tb now]> (meta st)) st)
  end.

Definition stored_state st id idx tc tb dat (i : io) : FileStore :=
  written (claimed st id tc tb (next_now i)) id idx dat
    (disk_base st id tc tb (next_now (clock_tick i))) (cache_base st id tc tb (next_now i)).

(** ** What an acceptance implies *)

Lemma meta_agree_refl m : meta_agree m m.
Proof. done. Qed.

Lemma meta_agree_grow c m p len : meta_agree c m → meta_agree (grow c p len) (grow m p len).
Proof. intros (H1 & H2 & H3 & H4). unfold meta_agree, grow. simpl. rewrite H1, H2, H3, H4. done. Qed.

Lemma bases_agree st id tc tb now now' :
  Inv st → meta_agree (cache_base st id tc tb now) (disk_base st id tc tb now').
Proof. intros HI. unfold cache_base, disk_base. by destruct (inv_cache _ HI id). Qed.

Lemma fresh_prev st id idx : Inv st → metas st !! id = None → no_char ":" id → prev_len (chunks st) id idx = 0.
Proof.
  intros HI Hn Hid. unfold prev_len. destruct (chunks st !! _) eqn:E; [|done].
  eapply no_meta_no_chunk in E; [|apply HI|done]. by rewrite chunk_owner in E.
Qed.

Record accepts st id idx tc tb dat m : Prop := {
  acc_dat : dat ≠ [];
  acc_tc : 0 < tc ≤ max_chunks (config st);
  acc_idx : 0 ≤ idx < tc;
  acc_tb : 0 < tb ≤ max_file_bytes (config st);
  acc_base : starts_from (metas st) id m;
  acc_shape : total_chunks m = tc ∧ total_bytes m = tb;
  acc_stored : stored_bytes m - prev_len (chunks st) id idx + blen dat ≤ tb;
  acc_total : prev_len (chunks st) id idx < blen dat →
    total_stored (metas st) + (blen dat - prev_len (chunks st) id idx) ≤ max_total_file_bytes (config st);
  acc_count : metas st !! id = None → Z.of_nat (size (metas st)) < max_transfers (config st);
}.

Lemma size_verdict_None cfg reserved tb stored prev len :
  size_verdict cfg reserved tb stored prev len = None →
  stored - prev + len ≤ tb ∧ (prev < len → reserved + (len - prev) ≤ max_total_file_bytes cfg).
Proof.
  unfold size_verdict. intros H. repeat case_match; try done.
  apply orb_false_iff in H0 as [H0 H2]. apply andb_false_iff in H1. rewrite !Z.ltb_ge in *. lia.
Qed.

Lemma verdict_accepts st id idx tc tb dat now :
  Inv st → store_pre st id idx tc tb dat → verdict st id idx tc tb dat = None →
  accepts st id idx tc tb dat (disk_base st id tc tb now).
Proof.
  intros HI [Hid (H1 & H2 & H3) _ _] Hv. unfold verdict in Hv.
  destruct (_ || _) eqn:E1 in Hv; [done|]. destruct (_ || _) eqn:E2 in Hv; [done|].
  rewrite !orb_false_iff, bool_decide_eq_false in E1. rewrite orb_false_iff in E2.
  destruct E1 as [[[Hd E1] E1'] E1''], E2 as [E2 E2']. rewrite ?Z.eqb_neq, ?Z.ltb_ge, ?Z.leb_gt in *.
  unfold disk_base, starts_from. destruct (metas st !! id) as [m|] eqn:Em; simpl.
  - destruct (_ || _) eqn:E3 in Hv; [done|]. rewrite orb_false_iff, !negb_false_iff, !Z.eqb_eq in E3.
    apply size_verdict_None in Hv as [??]. split; try done; try lia. { unfold starts_from. by rewrite Em. } by rewrite Em.
  - destruct (negb _) eqn:E3 in Hv; [done|]. destruct (_ <=? _) eqn:E4 in Hv; [done|].
    apply size_verdict_None in Hv as [Hv1 Hv2]. apply Z.leb_gt in E4.
    pose proof (fresh_prev st id idx HI Em Hid) as Hp.
    split; simpl; rewrite ?Hp; try done; try lia. unfold starts_from. by rewrite Em.
Qed.

(** ** The store after an acceptance *)

Section Accepted.
Context (st : FileStore) (id : string) (idx tc tb : Z) (dat : bytes) (i : io).
Context (HI : Inv st) (Hpre : store_pre st id idx tc tb dat).
Context (Hv : verdict st id idx tc tb dat = None).

Abbreviation m := (disk_base st id tc tb (next_now (clock_tick i))).
Abbreviation c := (cache_base st id tc tb (next_now i)).
Abbreviation prev := (prev_len (chunks st) id idx).
Abbreviation st' := (stored_state st id idx tc tb dat i).
Let Hacc : accepts st id idx tc tb dat m := verdict_accepts st id idx tc tb dat _ HI Hpre Hv.
Let Hwf : wf_files (metas st) (chunks st) := inv_wf _ HI.
Let Hid : no_char ":" id := pre_id _ _ _ _ _ _ Hpre.

Lemma claimed_fields now :
  let s := claimed st id tc tb now in
  file_meta s = file_meta st ∧ file_chunks s = file_chunks st ∧ config s = config st
  ∧ reserved_bytes s = reserved_bytes st
  ∧ meta s !! id = Some (cache_base st id tc tb now)
  ∧ (∀ id', id' ≠ id → meta s !! id' = meta st !! id')
  ∧ transfer_count s = transfer_count st + match metas st !! id with None => 1 | Some _ => 0 end.
Proof.
  unfold claimed, cache_base. pose proof (inv_cache _ HI id) as Hc.
  destruct (metas st !! id) as [m0|] eqn:E; inversion Hc as [c0 ? ? Hc1|Hc1]; subst; simpl.
  - split_and!; try done. lia.
  - rewrite lookup_insert_eq. split_and!; try done. intros id' Hne. by rewrite lookup_insert_ne.
Qed.

Lemma metas_stored : metas st' = <[id := grow m prev (blen dat)]> (metas st).
Proof.
  unfold metas at 1, stored_state, written. simpl. rewrite decoded_insert. unfold metas, chunks.
  destruct (claimed_fields (next_now i)) as (-> & -> & _). done.
Qed.

Lemma chunks_stored : chunks st' = <[chunk_key id idx := dat]> (chunks st).
Proof.
  unfold chunks at 1, stored_state, written. simpl. rewrite contents_insert. unfold chunks.
  by destruct (claimed_fields (next_now i)) as (_ & -> & _).
Qed.

Lemma stored_facts :
  0 ≤ idx < total_chunks m ∧ 0 < total_chunks m ≤ u32_max ∧ 0 < total_bytes m ≤ u64_max
  ∧ stored_bytes m - prev + blen dat ≤ total_bytes m.
Proof.
  destruct Hacc as [_ Htc Hidx Htb _ [-> ->] Hfit _ _]. pose proof (inv_config _ HI) as [Hf _ _ _ Hc]. lia.
Qed.

Lemma wf_stored_state : wf_files (metas st') (chunks st').
Proof.
  rewrite metas_stored, chunks_stored. destruct stored_facts as (? & ? & ? & ?).
  apply wf_files_stored; try done; apply Hacc.
Qed.

Lemma total_stored_state : total_stored (metas st') = total_stored (metas st) - prev + blen dat.
Proof. rewrite metas_stored. apply total_stored_insert, Hacc. Qed.

Lemma prev_held : 0 ≤ prev ≤ stored_bytes m ∧ stored_bytes m ≤ total_stored (metas st).
Proof.
  split; [by apply prev_range with (MM := metas st); [| apply Hacc|]|].
  pose proof (acc_base _ _ _ _ _ _ _ Hacc) as Hb. unfold starts_from in Hb.
  destruct (metas st !! id) as [m0|] eqn:E.
  - subst m0. by eapply stored_le_total.
  - destruct Hb as [-> _]. apply msum_nonneg. intros. by eapply stored_nonneg.
Qed.

Lemma Inv_stored : Inv st'.
Proof.
  destruct (claimed_fields (next_now i)) as (Hm & Hc & Hcfg & Hr & Hid' & Hother & Hcount).
  pose proof (inv_reserved _ HI) as [Hres Hu]. pose proof (pre_reserved _ _ _ _ _ _ Hpre) as Hp.
  pose proof (inv_count _ HI) as [Hct Hcu]. pose proof prev_held as [? _]. pose proof (blen_nonneg dat).
  split.
  - intros k v. unfold stored_state, written. simpl. rewrite Hm, tbl_get_insert. case_decide.
    + intros [= <-]. rewrite from_slice_to_vec. eauto.
    + apply (inv_decodes _ HI).
  - apply wf_stored_state.
  - intros id'. rewrite metas_stored. unfold stored_state, written. cbn [meta].
    destruct (decide (id' = id)) as [->|Hne].
    + rewrite !lookup_insert_eq. constructor. unfold chunks. rewrite Hc. fold (chunks st).
      by apply meta_agree_grow, bases_agree.
    + rewrite !lookup_insert_ne, Hother by done. apply (inv_cache _ HI).
  - rewrite total_stored_state. unfold stored_state, written. cbn [reserved_bytes].
    unfold chunks at 1. rewrite Hc, Hr. fold (chunks st). lia.
  - rewrite metas_stored, size_insert. unfold stored_state, written. cbn [transfer_count]. rewrite Hcount.
    split; [lia|]. pose proof (ok_transfers _ (inv_config _ HI)).
    destruct (metas st !! id) eqn:E; [lia|]. pose proof (acc_count _ _ _ _ _ _ _ Hacc E). lia.
  - unfold stored_state, written. cbn [config]. rewrite Hcfg. apply HI.
Qed.

Lemma Caps_stored : Caps st → Caps st'.
Proof.
  intros [Hb Hc Hf]. destruct (claimed_fields (next_now i)) as (_ & _ & Hcfg & _).
  assert (config st' = config st) as Hcfg' by done.
  pose proof (acc_shape _ _ _ _ _ _ _ Hacc) as [Hs1 Hs2].
  split; rewrite ?Hcfg'.
  - rewrite total_stored_state. destruct (Z.le_gt_cases (blen dat) prev); [lia|].
    pose proof (acc_total _ _ _ _ _ _ _ Hacc). lia.
  - rewrite metas_stored, size_insert. destruct (metas st !! id) eqn:E; [lia|].
    pose proof (acc_count _ _ _ _ _ _ _ Hacc E). lia.
  - rewrite metas_stored. intros id' m0 [[<- <-]|[_ H]]%lookup_insert_Some; [|by apply (Hf id')].
    simpl. rewrite Hs1. pose proof (acc_stored _ _ _ _ _ _ _ Hacc).
    pose proof (acc_tb _ _ _ _ _ _ _ Hacc). pose proof (acc_tc _ _ _ _ _ _ _ Hacc). lia.
Qed.
End Accepted.

(** ** The same chunk again *)

Lemma grow_again m p len : len ≠ 0 → grow (grow m p len) len len = grow m p len.
Proof.
  intros Hlen. unfold grow. simpl. rewrite (proj2 (Z.eqb_neq len 0)) by done.
  f_equal. lia.
Qed.

Section Again.
Context (st : FileStore) (id : string) (idx tc tb : Z) (dat : bytes) (i : io).
Context (HI : Inv st) (Hpre : store_pre st id idx tc tb dat).
Context (Hv : verdict st id idx tc tb dat = None).

Abbreviation st1 := (stored_state st id idx tc tb dat i).
Abbreviation m := (disk_base st id tc tb (next_now (clock_tick i))).
Let Hacc : accepts st id idx tc tb dat m := verdict_accepts st id idx tc tb dat _ HI Hpre Hv.

Lemma prev_again : prev_len (chunks st1) id idx = blen dat.
Proof. unfold prev_len. by rewrite chunks_stored, lookup_insert_eq. Qed.

Lemma meta_again : metas st1 !! id = Some (grow m (prev_len (chunks st) id idx) (blen dat)).
Proof. rewrite metas_stored by done. apply lookup_insert_eq. Qed.

Lemma verdict_again : verdict st1 id idx tc tb dat = None.
Proof.
  unfold verdict. rewrite prev_again, meta_again.
  destruct (claimed_fields st id tc tb HI (next_now i)) as (_ & _ & Hcfg & _).
  assert (config st1 = config st) as -> by done.
  destruct Hacc as [Hd Htc Hidx Htb _ [Hm1 Hm2] Hst _ _]. simpl. rewrite Hm1, Hm2, !Z.eqb_refl.
  rewrite (bool_decide_eq_false_2 _ Hd), !(proj2 (Z.eqb_neq _ _)), !(proj2 (Z.ltb_ge _ _)),
    (proj2 (Z.leb_gt _ _)) by lia. simpl.
  unfold size_verdict. rewrite !(proj2 (Z.ltb_ge _ _)) by lia. done.
Qed.

Lemma stored_again j :
  store_pre st1 id idx tc tb dat →
  metas (stored_state st1 id idx tc tb dat j) = metas st1
  ∧ chunks (stored_state st1 id idx tc tb dat j) = chunks st1.
Proof.
  intros Hpre1. pose proof (Inv_stored st id idx tc tb dat i HI Hpre Hv) as HI1.
  rewrite (metas_stored st1), (chunks_stored st1) by (done || apply verdict_again). rewrite prev_again.
  unfold disk_base at 1. rewrite meta_again. simpl.
  pose proof (blen_pos dat (acc_dat _ _ _ _ _ _ _ Hacc)).
  rewrite grow_again by lia. split; apply insert_id; [apply meta_again|].
  rewrite chunks_stored by done. apply lookup_insert_eq.
Qed.
End Again.

(** ** The run *)

Lemma unclaim st id x : meta st !! id = None →
  set_meta (delete id (<[id:=x]> (meta st))) st = st.
Proof. intros H. rewrite delete_insert_id by done. by destruct st. Qed.

Lemma store_no_wrap st id idx tc tb dat now now' m :
  Inv st → store_pre st id idx tc tb dat → tb ≤ max_file_bytes (config st) →
  m = disk_base st id tc tb now → (metas st !! id = None ∨ total_bytes m = tb) → 0 ≤ idx < total_chunks m →
  no_wrap (claimed st id tc tb now') m (prev_len (chunks st) id idx) (blen dat).
Proof.
  intros HI Hpre Htb Hm Hshape Hidx. pose proof (inv_wf _ HI) as Hwf. pose proof (pre_id _ _ _ _ _ _ Hpre) as Hid.
  pose proof (inv_reserved _ HI) as [Hr _]. pose proof (pre_file _ _ _ _ _ _ Hpre).
  pose proof (pre_reserved _ _ _ _ _ _ Hpre). pose proof (blen_nonneg dat).
  destruct (claimed_fields st id tc tb HI now') as (_ & _ & _ & Hres & _).
  assert (0 ≤ total_stored (metas st)) as Hts.
  { apply msum_nonneg. intros. by eapply stored_nonneg. }
  subst m. unfold disk_base in *. destruct (metas st !! id) as [m0|] eqn:E; simpl in *.
  - destruct Hshape as [|Hshape]; [done|].
    assert (starts_from (metas st) id m0) as Hb by (unfold starts_from; by rewrite E).
    pose proof (prev_range _ _ _ idx _ Hwf Hb Hid) as Hp.
    pose proof (stored_le_total _ _ _ _ Hwf E). pose proof (wf_metas _ _ Hwf _ _ E) as [_ [Hw1 Hw2 Hw3]].
    pose proof (count_range _ _ _ _ Hwf E) as Hc. rewrite <- (proj2 (wf_counts _ _ Hwf _ _ E)) in Hc.
    split; rewrite ?Hres; try lia. split; [lia|]. intros Hz.
    apply (prev_zero _ _ _ idx Hwf) in Hz.
    enough (received_chunks m0 ≠ total_chunks m0) by lia. intros Heq.
    rewrite (proj2 (wf_counts _ _ Hwf _ _ E)) in Heq.
    destruct (count_full _ _ _ _ idx Hwf E Heq Hidx) as [? ?]. congruence.
  - rewrite (fresh_prev st id idx) by done. split; rewrite ?Hres; simpl; try lia. unfold u32_max. lia.
Qed.

Lemma unclaim_all st id tc tb now :
  Inv st → metas st !! id = None →
  let s := claimed st id tc tb now in
  set_meta (delete id (meta s)) (set_count (transfer_count s -! 1) s) = st.
Proof.
  intros HI Hn. unfold claimed. rewrite Hn. simpl.
  pose proof (inv_cache _ HI id) as Hc. rewrite Hn in Hc. inversion Hc as [|Hm].
  pose proof (inv_count _ HI) as [Hcnt Hcu].
  rewrite delete_insert_id by done. replace (transfer_count st + 1 - 1) with (transfer_count st) by lia.
  rewrite wrap64_small by (unfold is_u64; lia). by destruct st.
Qed.

Definition store_post st id idx tc tb dat i (r : FileReject + StoredChunk) (st' : FileStore) (i' : io) : Prop :=
  io_later i i' ∧
  match r with
  | inr sc =>
      let m := disk_base st id tc tb (next_now (clock_tick i)) in
      verdict st id idx tc tb dat = None ∧ st' = stored_state st id idx tc tb dat i
      ∧ sc = {| sc_received_chunks := received_chunks (grow m (prev_len (chunks st) id idx) (blen dat));
                sc_total_chunks := tc |}
  | inl e => st' = st ∧ (verdict st id idx tc tb dat = Some e ∨ ¬ quiet i ∧ e = Full)
  end.

(** From the claimed id on: the write, and the release of the claim when it
    fails. *)
Lemma store_tail_wp st id idx tc tb dat (creating : bool) i i1 :
  Inv st → store_pre st id idx tc tb dat → tb ≤ max_file_bytes (config st) → 0 ≤ idx < tc →
  creating = bool_decide (metas st !! id = None) → i1 = (if creating then clock_tick i else i) →
  (∀ m, metas st !! id = Some m → total_chunks m = tc ∧ total_bytes m = tb) →
  (let m := disk_base st id tc tb 0 in
   size_verdict (config st) (total_stored (metas st)) tb (stored_bytes m) (prev_len (chunks st) id idx) (blen dat)
   = verdict st id idx tc tb dat) →
  wp (result ← attempt (write_chunk id idx tc tb dat (blen dat) creating);
      _ ← (match result with
           | inl _ =>
               if creating then
                 _ ← release_slot;
                 modify (λ st, set_meta (delete id (meta st)) st)
               else mret ()
           | inr _ => mret ()
           end);
      lift result) (store_post st id idx tc tb dat i) (claimed st id tc tb (next_now i)) i1.
Proof.
  intros HI Hpre Htb Hidx Hcr Hi1 Hshape Hv. set (s := claimed st id tc tb (next_now i)).
  destruct (claimed_fields st id tc tb HI (next_now i)) as (Hfm & Hfc & Hcfg & Hres & Hmid & _).
  fold s in Hfm, Hfc, Hcfg, Hres, Hmid. set (m := disk_base st id tc tb (next_now (clock_tick i))).
  assert (metas st !! id = None ∨ total_bytes m = tb) as Htm.
  { unfold m, disk_base. destruct (metas st !! id) eqn:E; [right|by left]. simpl. by apply Hshape. }
  assert (total_chunks m = tc ∧ total_bytes m = tb) as [Hmtc Hmtb].
  { unfold m, disk_base. destruct (metas st !! id) eqn:E; [by apply Hshape|done]. }
  assert (io_later i i1) as Hi1' by (subst i1; destruct creating; [apply tick_later|done]).
  assert (chunks s = chunks st) as Hch by (unfold chunks; by rewrite Hfc).
  do 2 wp_step. eapply wp_conseq.
  { apply (write_chunk_wp i1 s id idx tc tb dat creating m (cache_base st id tc tb (next_now i))); [|done| | |done].
    - unfold meta_source, m, disk_base. rewrite Hfm. subst creating i1.
      case_bool_decide as Hn; [by rewrite Hn|].
      change (tbl_get (file_meta st) id ≫= from_slice = Some (default (fresh_meta tc tb (next_now (clock_tick i))) (metas st !! id))).
      unfold metas. rewrite decoded_lookup. unfold metas in Hn. rewrite decoded_lookup in Hn.
      by destruct (tbl_get (file_meta st) id ≫= from_slice).
    - by apply bases_agree.
    - rewrite Hch. apply (store_no_wrap _ _ idx tc tb _ (next_now (clock_tick i))); try done. by rewrite Hmtc. }
  cbv beta zeta. rewrite Hch, Hcfg, Hres, (proj1 (inv_reserved _ HI)), Hmtb.
  replace (size_verdict _ _ _ _ _ _) with (verdict st id idx tc tb dat).
  2:{ rewrite <- Hv. unfold m, disk_base. by destruct (metas st !! id). }
  intros r s' i' [Hi' Hr]. assert (io_later i i') as Hii by (by etrans).
  assert (¬ quiet i1 → ¬ quiet i) as Hq by (intros H1 H2; by apply H1, (quiet_later i)).
  destruct r as [e|sc].
  - destruct Hr as [-> Hr]. wp_step. subst creating. case_bool_decide as Hn.
    + unfold release_slot. wp_step. wp_step. wp_step. wp_step. split; [done|].
      split; [by apply unclaim_all|]. destruct Hr as [?|[? ->]]; auto.
    + wp_step. wp_step. split; [done|]. split; [|destruct Hr as [?|[? ->]]; auto].
      unfold s, claimed. by destruct (metas st !! id).
  - destruct Hr as (Hvd & -> & ->). wp_steps. split; [done|]. done.
Qed.

Lemma store_chunk_wp st id idx tc tb dat i :
  Inv st → store_pre st id idx tc tb dat →
  wp (store_chunk id idx tc tb dat) (store_post st id idx tc tb dat i) st i.
Proof.
  intros HI Hpre. unfold store_chunk. do 2 wp_step.
  destruct (bool_decide (dat = []) || (tc =? 0) || (max_chunks (config st) <? tc) || (tc <=? idx)) eqn:E1.
  { wp_step. split; [done|]. split; [done|]. left. unfold verdict. by rewrite E1. }
  destruct ((tb =? 0) || (max_file_bytes (config st) <? tb)) eqn:E2.
  { wp_step. split; [done|]. split; [done|]. left. unfold verdict. by rewrite E1, E2. }
  assert (0 ≤ idx < tc) as Hidx.
  { apply orb_false_iff in E1 as [_ E1%Z.leb_gt]. pose proof (pre_nat _ _ _ _ _ _ Hpre). lia. }
  assert (tb ≤ max_file_bytes (config st)) as Htb by (apply orb_false_iff in E2 as [_ E2%Z.ltb_ge]; done).
  cbv zeta. pose proof (inv_cache _ HI id) as Hcache.
  destruct (metas st !! id) as [m|] eqn:Em; inversion Hcache as [c ? (Hc1 & Hc2 & _) Hc|Hc]; subst.
  - wp_step. rewrite Hc1, Hc2. wp_step.
    { wp_step. split; [done|]. split; [done|]. left. unfold verdict. by rewrite E1, E2, Em, Heqb. }
    wp_step. assert (claimed st id tc tb (next_now i) = st) as Hcl by (unfold claimed; by rewrite Em).
    pose proof (store_tail_wp st id idx tc tb dat false i i HI Hpre Htb Hidx) as Htail. rewrite Hcl in Htail.
    wp_step. wp_step. apply Htail; [by rewrite Em|done| |].
    + rewrite Em. intros ? [= <-]. apply orb_false_iff in Heqb. by rewrite !negb_false_iff, !Z.eqb_eq in Heqb.
    + unfold verdict, disk_base. by rewrite E1, E2, Em, Heqb.
  - wp_step. wp_step.
    { wp_step. split; [done|]. split; [done|]. left. unfold verdict. by rewrite E1, E2, Em, Heqb. }
    wp_step. apply wp_now_ms. wp_steps. unfold reserve_slot. do 2 wp_step. cbv zeta.
    cbn [set_meta transfer_count config]. pose proof (inv_count _ HI) as [Hcnt Hcu].
    pose proof (ok_transfers _ (inv_config _ HI)).
    destruct (Z.leb_spec (max_transfers (config st)) (transfer_count st)) as [Hfull|Hfree]; cbn beta iota.
    { wp_steps. split; [apply tick_later|]. split; [by apply (unclaim st id (fresh_meta tc tb (next_now i)))|]. left. unfold verdict.
      rewrite E1, E2, Em, Heqb. by rewrite (proj2 (Z.leb_le _ _)) by lia. }
    rewrite wrap64_small by (unfold is_u64; lia). do 2 wp_step.
    assert (claimed st id tc tb (next_now i)
            = set_count (transfer_count st + 1) (set_meta (<[id := fresh_meta tc tb (next_now i)]> (meta st)) st)) as Hcl
      by (unfold claimed; by rewrite Em).
    pose proof (store_tail_wp st id idx tc tb dat true i (clock_tick i) HI Hpre Htb Hidx) as Htail.
    rewrite Hcl in Htail. unfold wp in Htail. unfold wp. apply Htail; [by rewrite Em|done|by rewrite Em|].
    unfold verdict, disk_base. rewrite E1, E2, Em, Heqb, (proj2 (Z.leb_gt _ _)) by lia. simpl.
    by rewrite (fresh_prev st id idx) by (done || apply Hpre).
Qed.
End Writes.
