(* ===== verification/FileRemovals.v ===== *)
(** Fetching, deleting and expiring transfers, and opening the store. *)
From Stdlib Require Import ZArith Lia Ascii String.
From stdpp Require Import base gmap strings list list_numbers.
From S2P Require Import Prelude Redb RustStd Config Util FileStore FileFacts FileWrites.

Section Removals.
Context {RD : Redb} {SM : Serde FileMeta}.
Implicit Types (st s : FileStore) (id : string) (m c : FileMeta).

(** ** Fetching *)

(** What a fetch answers when no database call fails. *)
Definition fetched st id (idx : Z) : FileReject + FetchedChunk :=
  match metas st !! id with
  | None => inl NotFound
  | Some m =>
      if total_chunks m <=? idx then inl BadRequest
      else match chunks st !! chunk_key id idx with
           | Some b => inr {| data := b; fc_total_chunks := total_chunks m; fc_total_bytes := total_bytes m |}
           | None => inl NotFound
           end
  end.

Lemma fetch_wp i0 st id idx i :
  Inv st → io_step i0 i →
  wp (fetch_chunk id idx) (λ r st' i', io_step i0 i' ∧ st' = st ∧
    (r = fetched st id idx ∨ ¬ quiet i0 ∧ r = inl NotFound)) st i.
Proof.
  intros HI Hi. unfold fetch_chunk, fetched. wp_step. wp_step.
  destruct (inv_cache _ HI id) as [c m (H1 & H2 & _)|]; [|wp_step; by auto].
  rewrite H1, H2. wp_step; [wp_step; by auto|]. wp_txn ltac:(by auto).
  unfold chunks. rewrite contents_lookup. destruct (tbl_get _ _); wp_step; by auto.
Qed.

(** ** Deletion *)

Definition range_of id st : list (string * bytes) := tbl_range (file_chunks st) (id +:+ ":") (id +:+ ";").

Lemma elem_chunk_range id st k b :
  no_char ":" id → (k, b) ∈ range_of id st ↔ chunks st !! k = Some b ∧ owner k = Some id.
Proof. intros Hid. unfold range_of, chunks. by rewrite range_owned, elem_of_map_to_list, owned_lookup_Some. Qed.

Lemma range_keys id st k :
  no_char ":" id → k ∈ (range_of id st).*1 ↔ owner k = Some id ∧ is_Some (chunks st !! k).
Proof.
  intros Hid. rewrite list_elem_of_fmap. split.
  - intros ([k' b] & -> & [H ?]%elem_chunk_range); [|done]. eauto.
  - intros (Ho & b & Hk). exists (k, b). by rewrite elem_chunk_range.
Qed.

Definition held st id : Z := match metas st !! id with Some m => stored_bytes m | None => 0 end.

Definition deleted st id (keys : list string) : FileStore :=
  {| file_meta := tbl_remove (file_meta st) id;
     file_chunks := foldl tbl_remove (file_chunks st) keys;
     config := config st;
     meta := delete id (meta st);
     reserved_bytes := reserved_bytes st - held st id;
     transfer_count := transfer_count st - match metas st !! id with Some _ => 1 | None => 0 end |}.

Lemma metas_deleted st id keys : metas (deleted st id keys) = delete id (metas st).
Proof. apply decoded_remove. Qed.

Lemma chunks_removed t ks : contents (foldl tbl_remove t ks) = remove_keys ks (contents t).
Proof.
  apply map_eq. intros k. apply option_eq. intros a.
  rewrite contents_lookup, get_remove_all, remove_keys_Some, contents_lookup. case_decide; [|tauto].
  split; [done|tauto].
Qed.

Lemma chunks_deleted st id keys : chunks (deleted st id keys) = remove_keys keys (chunks st).
Proof. apply chunks_removed. Qed.

(** Removing a transfer and its chunks. *)
Lemma wf_files_delete MM CC id ks :
  wf_files MM CC → (∀ k, k ∈ ks ↔ owner k = Some id ∧ is_Some (CC !! k)) →
  wf_files (delete id MM) (remove_keys ks CC).
Proof.
  intros Hwf Hks. split.
  - intros id' m [_ H]%lookup_delete_Some. by apply (wf_metas _ _ Hwf).
  - intros k b [Hk Hn]%remove_keys_Some. destruct (wf_chunks _ _ Hwf _ _ Hk) as (Hb & id' & idx & m & -> & Hm & ?).
    split; [done|]. exists id', idx, m. split; [done|]. split; [|done]. rewrite lookup_delete_ne; [done|].
    intros <-. apply Hn, Hks. split; [|eauto]. apply chunk_owner. by apply (wf_metas _ _ Hwf) in Hm as [? _].
  - intros id' m [Hne H]%lookup_delete_Some. destruct (wf_counts _ _ Hwf _ _ H) as [-> ->].
    unfold bytes_of, count_of. rewrite !(weigh_remove_other id) by (done || by intros k [? _]%Hks). done.
Qed.

Lemma held_range st id : Inv st → 0 ≤ held st id ≤ reserved_bytes st.
Proof.
  intros HI. pose proof (inv_wf _ HI) as Hwf. pose proof (inv_reserved _ HI) as [-> _]. unfold held.
  destruct (metas st !! id) eqn:E; [split; [by eapply stored_nonneg|by eapply stored_le_total]|].
  split; [done|]. apply msum_nonneg. intros. by eapply stored_nonneg.
Qed.

Lemma total_deleted st id : total_stored (delete id (metas st)) = total_stored (metas st) - held st id.
Proof. unfold total_stored. rewrite msum_delete. unfold contrib, held. by destruct (metas st !! id). Qed.

Lemma size_deleted st id :
  Z.of_nat (size (delete id (metas st)))
  = Z.of_nat (size (metas st)) - match metas st !! id with Some _ => 1 | None => 0 end.
Proof.
  pose proof (msum_delete (λ _ _, 1) (metas st) id) as H. rewrite !msum_size in H. rewrite H.
  unfold contrib. by destruct (metas st !! id).
Qed.

Lemma Inv_deleted st id ks :
  Inv st → (∀ k, k ∈ ks ↔ owner k = Some id ∧ is_Some (chunks st !! k)) →
  Inv (deleted st id ks) ∧ (Caps st → Caps (deleted st id ks)).
Proof.
  intros HI Hks. pose proof (held_range st id HI) as Hh.
  pose proof (inv_reserved _ HI) as [Hr Hu]. pose proof (inv_count _ HI) as [Hc Hcu].
  assert (0 ≤ match metas st !! id with Some _ => 1 | None => 0 end) by (by destruct (metas st !! id)).
  split.
  - split; rewrite ?metas_deleted, ?chunks_deleted, ?total_deleted, ?size_deleted.
    + intros k v. simpl. rewrite tbl_get_remove. case_decide; [done|]. apply (inv_decodes _ HI).
    + apply wf_files_delete; [apply HI|done].
    + intros id'. simpl. rewrite !lookup_delete. case_decide; [constructor|apply (inv_cache _ HI)].
    + simpl. lia.
    + simpl. lia.
    + apply HI.
  - intros [H1 H2 H3]. split; rewrite ?metas_deleted, ?total_deleted, ?size_deleted; simpl; [lia|lia|].
    intros id' m [_ Hm]%lookup_delete_Some. by apply (H3 id').
Qed.

(** The keys read from the range: all of them when no item is an error. *)
Lemma ok_keys_wp {E} i0 l (Q : E + list string → FileStore → io → Prop) s i :
  io_step i0 i →
  (∀ ks i', io_step i0 i' → (items_fine i0 → ks = l.*1) → (∀ k, k ∈ ks → k ∈ l.*1) → Q (inr ks) s i') →
  wp (ok_keys l) Q s i.
Proof.
  intros Hi HQ. apply (wp_foldM _ (λ done ks z i', io_step i0 i' ∧ z = s
    ∧ (items_fine i0 → ks = done.*1) ∧ (∀ k, k ∈ ks → k ∈ done.*1))).
  - split_and!; done.
  - clear Hi. intros done [k b] rest ks z i' _ (Hi & -> & Hks & Hsub). apply wp_bind, wp_item_ok.
    + intros i2 Hi2. wp_step. split; [by etrans|]. split; [done|]. rewrite fmap_app. split.
      * intros Hf. by rewrite Hks.
      * intros k'. rewrite !elem_of_app. intros [?|?]; [left; auto|by right].
    + intros Hf i2 Hi2. wp_step. split; [by etrans|]. split; [done|]. rewrite fmap_app. split.
      * intros Hf'. destruct Hf. by eapply items_fine_step.
      * intros k' Hk. rewrite elem_of_app. left. auto.
  - clear Hi. intros ks z i' (Hi & -> & Hks & Hsub). by apply HQ.
Qed.

(** The state after a deletion that removed the chunks [ks]: all of them when
    no item of the range is an error. *)
Lemma delete_wp {E} i0 (err : E) st id i :
  Inv st → no_char ":" id → io_step i0 i →
  wp (delete_transfer err id) (λ r st' i', io_step i0 i' ∧
    match r with
    | inr existed => existed = bool_decide (is_Some (metas st !! id))
        ∧ ∃ ks, st' = deleted st id ks ∧ (items_fine i0 → ks = (range_of id st).*1)
    | inl _ => ¬ quiet i0 ∧ st' = st
    end) st i.
Proof.
  intros HI Hid Hi. unfold delete_transfer. simpl. wp_step. wp_step.
  unfold begin_txn, open_table, txn_get, txn_remove, txn_range, commit.
  repeat first [wp_io ltac:(by auto) | wp_step].
  assert (match tbl_get (file_meta st) id with
          | Some b => (match from_slice b with Some m => stored_bytes m | None => 0 end, true)
          | None => (0, false)
          end = (held st id, bool_decide (is_Some (metas st !! id)))) as ->.
  { unfold held, metas. rewrite decoded_lookup. destruct (tbl_get (file_meta st) id) as [b|] eqn:Hg; [|done].
    destruct (inv_decodes _ HI _ _ Hg) as [m Hm]. simpl. rewrite Hm. by rewrite bool_decide_eq_true_2. }
  cbn beta iota. repeat first [wp_io ltac:(by auto) | wp_step]. fold (range_of id st).
  apply (ok_keys_wp i0); [done|]. clear Hi. intros ks i' Hi Hks _. cbn beta iota. wp_step.
  apply (wp_remove_all i0); [done| |by auto]. clear Hi i'. intros i' Hi. cbn beta iota.
  wp_step. wp_io ltac:(by auto). unfold release_slot, release_bytes.
  pose proof (held_range st id HI) as Hh. pose proof (inv_count _ HI) as [Hc Hcu].
  pose proof (inv_cache _ HI id) as Hcache. unfold deleted, held in *.
  wp_steps; (split; [done|]; split; [done|]; exists ks; split; [|done]); simpl.
  - apply bool_decide_eq_true in Heqb as [m Hm]. rewrite Hm in *.
    assert (0 < size (metas st))%nat as Hpos.
    { destruct (decide (size (metas st) = 0%nat)) as [Hz|]; [|lia].
      apply map_size_empty_iff in Hz. by rewrite Hz, lookup_empty in Hm. }
    unfold set_reserved, set_count, set_meta, set_tables. simpl.
    rewrite wrap64_small by (unfold is_u64; lia). rewrite sat_sub_le by lia. done.
  - apply bool_decide_eq_false in Heqb. destruct (metas st !! id); [by destruct Heqb|].
    inversion Hcache as [|Hn]. unfold set_tables. f_equal; [|lia..]. by rewrite delete_id.
Qed.

(** A deletion that could read every chunk key. *)
Lemma deleted_fine st id ks :
  Inv st → no_char ":" id → ks = (range_of id st).*1 →
  Inv (deleted st id ks) ∧ (Caps st → Caps (deleted st id ks))
  ∧ (∀ k, chunks (deleted st id ks) !! k = if decide (owner k = Some id) then None else chunks st !! k).
Proof.
  intros HI Hid ->. destruct (Inv_deleted st id (range_of id st).*1 HI) as [HI' HC].
  { intros k. by apply range_keys. }
  split_and!; [done..|]. intros k. rewrite chunks_deleted. apply option_eq. intros b.
  rewrite remove_keys_Some, range_keys by done. case_decide as Ho.
  - split; [|done]. intros [Hk Hn]. destruct Hn. eauto.
  - split; [by intros [? _]|]. intros Hk. split; [done|]. by intros [? _].
Qed.

(** ** Expiry *)

(** [st'] is [st] without the transfers [ids]. *)
Record without st (ids : list string) st' : Prop := {
  wo_inv : Inv st';
  wo_caps : Caps st → Caps st';
  wo_config : config st' = config st;
  wo_metas : ∀ id, metas st' !! id = if decide (id ∈ ids) then None else metas st !! id;
  wo_chunks : ∀ id idx, no_char ":" id →
    chunks st' !! chunk_key id idx = if decide (id ∈ ids) then None else chunks st !! chunk_key id idx;
}.

Lemma without_nil st : Inv st → without st [] st.
Proof. by split. Qed.

Lemma without_snoc st ids s id :
  no_char ":" id → without st ids s → without st (ids ++ [id]) (deleted s id (range_of id s).*1).
Proof.
  intros Hid [HI HC Hcfg Hm Hch]. destruct (deleted_fine s id _ HI Hid eq_refl) as (HI' & HC' & Hch').
  split; [done|auto|done| |].
  - intros id'. rewrite metas_deleted, lookup_delete, Hm. 
    repeat case_decide; rewrite elem_of_app, list_elem_of_singleton in *; naive_solver.
  - intros id' idx Hid'. rewrite Hch', Hch, chunk_owner by done.
    repeat case_decide; rewrite elem_of_app, list_elem_of_singleton in *; naive_solver.
Qed.

Lemma elem_expired_ids cfg now cache id :
  id ∈ expired_ids cfg now cache ↔ ∃ c, cache !! id = Some c ∧ is_expired cfg now c = true.
Proof.
  unfold expired_ids. rewrite list_elem_of_fmap. setoid_rewrite list_elem_of_filter. split.
  - intros ([k c] & -> & He & Hin%elem_of_map_to_list). exists c. by rewrite <- Is_true_true.
  - intros (c & Hc & He). exists (id, c). rewrite elem_of_map_to_list. split_and!; [done| |done].
    by apply Is_true_true.
Qed.

Lemma expired_NoDup cfg now cache : NoDup (expired_ids cfg now cache).
Proof.
  unfold expired_ids. apply NoDup_fmap_2_strong; [|apply NoDup_filter, NoDup_map_to_list].
  intros [k1 c1] [k2 c2] [_ H1%elem_of_map_to_list]%list_elem_of_filter
    [_ H2%elem_of_map_to_list]%list_elem_of_filter. simpl. intros ->. congruence.
Qed.

Lemma cached_meta st id c : Inv st → meta st !! id = Some c → ∃ m, metas st !! id = Some m ∧ meta_agree c m.
Proof. intros HI Hc. pose proof (inv_cache _ HI id) as H. rewrite Hc in H. inversion H. eauto. Qed.

Lemma NoDup_size {A} (l : list string) (M : gmap string A) :
  NoDup l → (∀ k, k ∈ l → is_Some (M !! k)) → (length l ≤ size M)%nat.
Proof.
  intros Hl HM. pose proof (contrib_sum_le (λ _ _, 1) l M ltac:(lia) Hl) as [_ Hle]. rewrite msum_size in Hle.
  assert (zsum (contrib (λ _ _, 1) M <$> l) = zsum ((λ _, 1) <$> l)) as E; [|rewrite E, zsum_ones in Hle; lia].
  f_equal. apply list_fmap_ext. intros i k Hk%list_elem_of_lookup_2. unfold contrib.
  by destruct (HM k Hk) as [? ->].
Qed.

Lemma sweep_files_wp {E} (err : E) st i :
  Inv st → items_fine i →
  let ids := expired_ids (config st) (next_now i) (meta st) in
  wp (sweep_expired err) (λ r st' i', io_later i i' ∧
    match r with
    | inr n => n = Z.of_nat (length ids) ∧ without st ids st'
    | inl _ => ¬ quiet i ∧ ∃ done, done `prefix_of` ids ∧ without st done st'
    end) st i.
Proof.
  intros HI Hfine ids. unfold sweep_expired. wp_step. apply wp_now_ms. cbn beta iota. do 2 wp_step. fold ids.
  assert (∀ id, id ∈ ids → no_char ":" id ∧ is_Some (metas st !! id)) as Hids.
  { intros id (c & Hc & _)%elem_expired_ids. destruct (cached_meta _ _ _ HI Hc) as (m & Hm & _).
    split; [by apply (wf_metas _ _ (inv_wf _ HI) _ m)|eauto]. }
  pose proof (expired_NoDup (config st) (next_now i) (meta st)) as Hnd. fold ids in Hnd.
  pose proof (inv_count _ HI) as [_ Hu].
  assert (length ids ≤ size (metas st))%nat as Hlen by (apply NoDup_size; [done|intros; by apply Hids]).
  apply (wp_foldM _ (λ done n s i', io_step (clock_tick i) i' ∧ n = Z.of_nat (length done) ∧ without st done s)).
  - split; [done|]. split; [done|]. by apply without_nil.
  - intros done id rest n s i' Hl (Hi & -> & Hwo).
    destruct (Hids id) as [Hid Hsome]; [rewrite Hl, elem_of_app; right; left|].
    wp_step. eapply wp_conseq; [by apply (delete_wp (clock_tick i)); [apply Hwo|..]|]. cbn beta.
    intros [e|ex] s' i2 [Hi2 Hr].
    + destruct Hr as [Hq ->]. split; [etrans; [apply tick_later|by apply step_later]|]. split; [done|].
      exists done. split; [|done]. rewrite Hl. by eexists.
    + destruct Hr as (-> & ks & -> & Hks). rewrite (Hks Hfine). rewrite (wo_metas _ _ _ Hwo), decide_False.
      2:{ intros Hin. rewrite Hl, NoDup_app in Hnd. destruct Hnd as (_ & Hnd & _). apply (Hnd id Hin). left. }
      rewrite bool_decide_eq_true_2 by done. wp_step. split; [done|]. rewrite length_app. simpl.
      assert (length done < length ids)%nat by (rewrite Hl, length_app; simpl; lia).
      split; [rewrite wrap64_small; [lia|unfold is_u64; lia]|]. by apply without_snoc.
  - intros n s i' (Hi & -> & Hwo). split; [|done]. etrans; [apply tick_later|by apply step_later].
Qed.

(** ** Opening *)

(** What opening needs of the two tables, whoever wrote them. *)
Record tables_ok (mt ct : Table) : Prop := {
  to_decodes : ∀ k v, tbl_get mt k = Some v → is_Some (from_slice v : option FileMeta);
  to_wf : wf_files (decoded mt) (contents ct);
  to_total : total_stored (decoded mt) ≤ u64_max;
  to_size : Z.of_nat (size (decoded mt : gmap string FileMeta)) ≤ u64_max;
}.

Lemma Inv_tables_ok st : Inv st → tables_ok (file_meta st) (file_chunks st).
Proof. intros HI. split; apply HI. Qed.

Section Opening.
Context (mt ct : Table) (cfg : FileConfig) (Hok : tables_ok mt ct) (Hcfg : config_ok cfg).

Abbreviation MM := (decoded mt : gmap string FileMeta).

Definition opening (cache : gmap string FileMeta) (reserved count : Z) : FileStore :=
  {| file_meta := mt; file_chunks := ct; config := cfg; meta := cache;
     reserved_bytes := reserved; transfer_count := count |}.

Record scanned (ks : list string) (cache : gmap string FileMeta) (reserved count : Z) : Prop := {
  sc_cache : ∀ k, cache !! k = if decide (k ∈ ks) then MM !! k else None;
  sc_reserved : reserved = zsum (contrib (λ _, stored_bytes) MM <$> ks);
  sc_count : count = Z.of_nat (length ks);
}.

Lemma stored_pos k m : MM !! k = Some m → 0 ≤ stored_bytes m.
Proof. apply stored_nonneg with (CC := contents ct), Hok. Qed.

Lemma scanned_meta_snoc ks k m cache reserved count :
  NoDup (ks ++ [k]) → (∀ k', k' ∈ ks ++ [k] → is_Some (MM !! k')) → MM !! k = Some m →
  scanned ks cache reserved count →
  scanned (ks ++ [k]) (<[k:=m]> cache) (reserved +^ stored_bytes m) (count +! 1).
Proof.
  intros Hnd Hin Hk [Hc -> ->].
  assert (contrib (λ _, stored_bytes) MM k = stored_bytes m) as Hck by (unfold contrib; by rewrite Hk).
  pose proof (contrib_sum_le (λ _, stored_bytes) (ks ++ [k]) MM stored_pos Hnd) as [_ Hle].
  pose proof (NoDup_size _ MM Hnd Hin) as Hsz. pose proof (to_total _ _ Hok) as Hu. pose proof (to_size _ _ Hok).
  rewrite fmap_app, zsum_app in Hle. simpl in Hle. rewrite Hck in Hle. unfold total_stored in Hu.
  rewrite length_app in Hsz. simpl in Hsz. split.
  - intros k'. rewrite lookup_insert. case_decide as E1; case_decide as E2; try done.
    + congruence.
    + destruct E2. rewrite elem_of_app, list_elem_of_singleton. auto.
    + rewrite Hc, decide_True; [done|]. rewrite elem_of_app, list_elem_of_singleton in E2. naive_solver.
    + rewrite Hc, decide_False; [done|]. intros ?. apply E2, elem_of_app. auto.
  - rewrite sat_add_small by lia. rewrite fmap_app, zsum_app. simpl. lia.
  - rewrite length_app, wrap64_small by (unfold is_u64; lia). simpl. lia.
Qed.

Lemma opened_Inv ks cache reserved count :
  (∀ k, k ∈ ks ↔ is_Some (MM !! k)) → NoDup ks → scanned ks cache reserved count →
  cache = MM ∧ Inv (opening cache reserved count).
Proof.
  intros Hks Hnd [Hc -> ->].
  assert (cache = MM) as ->.
  { apply map_eq. intros k. rewrite Hc. case_decide as Hin; [done|]. rewrite Hks in Hin.
    symmetry. by apply eq_None_not_Some. }
  assert (zsum (contrib (λ _, stored_bytes) MM <$> ks) = total_stored MM) as Hsum.
  { apply contrib_sum_all; [done|]. intros k m Hk. apply Hks. eauto. }
  assert (Z.of_nat (length ks) = Z.of_nat (size MM)) as Hlen.
  { rewrite <- zsum_ones. rewrite <- msum_size.
    rewrite <- (contrib_sum_all (λ _ _, 1) ks MM Hnd) by (intros k m Hk; apply Hks; eauto). f_equal.
    apply list_fmap_ext. intros i k Hk%list_elem_of_lookup_2%Hks. unfold contrib. by destruct Hk as [? ->]. }
  split; [done|]. split; try apply Hok; try done.
  - intros id. change (metas (opening MM (zsum (contrib (λ _, stored_bytes) MM <$> ks)) (Z.of_nat (length ks)))) with MM.
    simpl. destruct (MM !! id); by constructor.
  - split; [done|apply Hok].
  - split; [done|apply Hok].
Qed.

Lemma iter_decoded k b : (k, b) ∈ tbl_iter mt → ∃ m, from_slice b = Some m ∧ MM !! k = Some m.
Proof.
  intros Hg%tbl_iter_get. destruct (to_decodes _ _ Hok _ _ Hg) as [m Hm]. exists m. split; [done|].
  by rewrite decoded_lookup, Hg.
Qed.

Lemma iter_keys k : k ∈ (tbl_iter mt).*1 ↔ is_Some (MM !! k).
Proof.
  rewrite list_elem_of_fmap. split.
  - intros ([k' b] & -> & (m & _ & ?)%iter_decoded). eauto.
  - rewrite decoded_lookup. destruct (tbl_get mt k) as [b|] eqn:Hg; [|intros [? ?]; done].
    intros _. exists (k, b). by rewrite tbl_iter_get.
Qed.

Lemma scan_meta_wp {E} i0 (e : E) i :
  io_step i0 i →
  wp (scan_meta e) (λ r s i', io_step i0 i' ∧
    match r with
    | inr _ => ∃ reserved count, s = opening MM reserved count ∧ Inv s
    | inl _ => ¬ quiet i0
    end) (opening ∅ 0 0) i.
Proof.
  intros Hi. unfold scan_meta. wp_txn ltac:(by auto).
  change (tbl_iter (file_meta (opening ∅ 0 0))) with (tbl_iter mt).
  apply (wp_foldM _ (λ done '(reserved, count) s i', io_step i0 i' ∧
    ∃ cache, s = opening cache 0 0 ∧ scanned done.*1 cache reserved count)).
  - split; [done|]. exists ∅. split; [done|]. by split.
  - clear Hi. intros done [k b] rest [reserved count] s i' Hl (Hi & cache & -> & Hsc).
    wp_txn ltac:(by auto). destruct (iter_decoded k b) as (m & Hm & Hk).
    { rewrite Hl, elem_of_app. right. left. }
    rewrite Hm. wp_steps. split; [done|]. exists (<[k:=m]> cache). split; [done|].
    pose proof (tbl_iter_nodup mt) as Hnd. rewrite Hl, cons_middle, app_assoc, fmap_app, fmap_app in Hnd.
    rewrite fmap_app. apply scanned_meta_snoc; [by apply NoDup_app in Hnd as [? _]| |done|done].
    intros k' Hk'. apply iter_keys. rewrite Hl, cons_middle, app_assoc, !fmap_app. apply elem_of_app. by left.
  - clear Hi. intros [reserved count] s i' (Hi & cache & -> & Hsc). wp_steps. split; [done|].
    destruct (opened_Inv _ _ _ _ iter_keys (tbl_iter_nodup mt) Hsc) as [-> HI]. by exists reserved, count.
Qed.

Lemma open_files_wp {E} i0 (e : E) i :
  io_step i0 i →
  wp (new e mt ct cfg) (λ r _ i', io_step i0 i' ∧
    match r with
    | inr st => file_meta st = mt ∧ file_chunks st = ct ∧ config st = cfg ∧ meta st = MM ∧ Inv st
    | inl _ => ¬ quiet i0
    end) () i.
Proof.
  intros Hi. unfold new. wp_txn ltac:(by auto). eapply wp_conseq; [by apply scan_meta_wp|].
  cbn beta. clear Hi. intros [e'|[]] s i' [Hi H]; [done|].
  destruct H as (reserved & count & -> & HI). cbn beta iota. wp_steps. by split_and!.
Qed.
End Opening.
End Removals.
