(* ===== verification/FileProps.v ===== *)
(** What the file store guarantees: the properties of [file_store.rs], over
    every database and codec that satisfy their interfaces, each with a concrete
    instance. *)
From Stdlib Require Import ZArith Lia Ascii String.
From stdpp Require Import base gmap strings list list_numbers.
From S2P Require Import Prelude Redb RustStd Config Util FileStore FileFacts FileWrites FileRemovals.

(** ** A concrete store *)

Section Demo.
#[local] Existing Instance gmap_redb.

Definition meta_serde : Serde FileMeta := serde_countable FileMeta.

#[local] Existing Instance meta_serde.

Definition demo_config : FileConfig :=
  {| max_file_bytes := 100; max_total_file_bytes := 150; file_ttl_ms := 1000; max_transfers := 2; max_chunks := 4 |}.

Definition empty_files : FileStore :=
  {| file_meta := tbl_empty; file_chunks := tbl_empty; config := demo_config; meta := ∅;
     reserved_bytes := 0; transfer_count := 0 |}.

Lemma Inv_empty_files : Inv empty_files ∧ Caps empty_files.
Proof.
  assert (metas empty_files = ∅) as Hm by apply decoded_empty.
  assert (chunks empty_files = ∅) as Hc by apply contents_empty.
  split; split; rewrite ?Hm, ?Hc; try done.
  intros id. constructor.
Qed.

Definition dat1 : bytes := [Byte.x61; Byte.x62; Byte.x63].

Definition dat2 : bytes := [Byte.x64].

Definition calm : io := Io [] [] [] [].

(** The clock of the two readings a creation makes. *)
Definition clocks : io := Io [] [] [5; 7] [].

(** [dat1] stored as chunk 0 of a two-chunk transfer. *)
Definition demo_files : FileStore := (store_chunk "id0" 0 2 10 dat1 empty_files clocks).1.2.

(** .. and [dat2] as chunk 1. *)
Definition demo_full : FileStore := (store_chunk "id0" 1 2 10 dat2 demo_files calm).1.2.

Lemma Inv_store st id idx tc tb dat i :
  Inv st → store_pre st id idx tc tb dat → Caps st →
  Inv (store_chunk id idx tc tb dat st i).1.2 ∧ Caps (store_chunk id idx tc tb dat st i).1.2.
Proof.
  intros HI Hpre HC. pose proof (store_chunk_wp st id idx tc tb dat i HI Hpre) as H. unfold wp in H.
  destruct (store_chunk id idx tc tb dat st i) as [[[e|sc] st'] i']; destruct H as [_ H]; simpl.
  - by destruct H as [-> _].
  - destruct H as (Hv & -> & _). split; [by apply Inv_stored|by apply Caps_stored].
Qed.

Lemma pre_demo1 : store_pre empty_files "id0" 0 2 10 dat1.
Proof. refine (bool_decide_unpack _ _). vm_compute. exact I. Qed.

Lemma pre_demo2 : store_pre demo_files "id0" 1 2 10 dat2.
Proof. refine (bool_decide_unpack _ _). vm_compute. exact I. Qed.

Lemma Inv_demo_files : Inv demo_files ∧ Caps demo_files.
Proof. destruct Inv_empty_files. apply Inv_store; [done|apply pre_demo1|done]. Qed.

Lemma Inv_demo_full : Inv demo_full ∧ Caps demo_full.
Proof. destruct Inv_demo_files. apply Inv_store; [done|apply pre_demo2|done]. Qed.
End Demo.

Section Props.
Context {RD : Redb} {SM : Serde FileMeta}.
Implicit Types (st : FileStore) (id : string).

(** C26. Storing a chunk keeps the file store's invariant and the operator's caps on every path:
    on success exactly the one chunk is written, the received count is the number of stored
    chunks and the reserved bytes move by the difference; on any error the store is exactly as
    before. *)
Theorem store_chunk_keeps_accounts st id idx tc tb dat i :
  Inv st → Caps st → store_pre st id idx tc tb dat →
  wp (store_chunk id idx tc tb dat) (λ r st' _, Inv st' ∧ Caps st' ∧
    match r with
    | inr sc => chunks st' = <[chunk_key id idx := dat]> (chunks st)
                ∧ (∀ id', id' ≠ id → metas st' !! id' = metas st !! id')
                ∧ sc_received_chunks sc = count_of id (chunks st')
                ∧ reserved_bytes st' = reserved_bytes st - prev_len (chunks st) id idx + blen dat
    | inl _ => st' = st
    end) st i.
Proof.
  intros HI HC Hpre. eapply wp_conseq; [by apply store_chunk_wp|]. intros [e|sc] st' i' [_ H].
  - by destruct H as [-> _].
  - destruct H as (Hv & -> & ->).
    assert (Inv (stored_state st id idx tc tb dat i)) as HI' by (by apply Inv_stored).
    split; [done|]. split; [by apply Caps_stored|].
    split; [by apply chunks_stored|]. split_and!.
    + intros id' Hne. rewrite metas_stored by done. by rewrite lookup_insert_ne.
    + rewrite <- (proj2 (wf_counts _ _ (inv_wf _ HI') id (grow (disk_base st id tc tb (next_now (clock_tick i)))
        (prev_len (chunks st) id idx) (blen dat)) ltac:(rewrite metas_stored by done; apply lookup_insert_eq))). done.
    + rewrite (proj1 (inv_reserved _ HI')), (proj1 (inv_reserved _ HI)). by apply total_stored_state.
Qed.

(** C39. When no database call fails, storing a chunk is refused exactly in the cases of the
    decision table (shape, size, consistency with the transfer, unknown transfer, transfer
    count, declared size, global byte cap) and with its error; a failing database call can only
    add the error Full. *)
Theorem store_chunk_decides st id idx tc tb dat i :
  Inv st → store_pre st id idx tc tb dat →
  wp (store_chunk id idx tc tb dat) (λ r _ _,
    (quiet i → ∀ e, r = inl e ↔ verdict st id idx tc tb dat = Some e)
    ∧ (∀ e, r = inl e → verdict st id idx tc tb dat = Some e ∨ e = Full)) st i.
Proof.
  intros HI Hpre. eapply wp_conseq; [by apply store_chunk_wp|]. intros [e|sc] st' i' [_ H].
  - destruct H as [_ H]. split; [|intros ? [= <-]; destruct H as [?|[_ ?]]; auto].
    intros Hq e'. destruct H as [Hv|[? _]]; [|done]. rewrite Hv. split; congruence.
  - destruct H as (Hv & _). split; [|done]. intros _ e. rewrite Hv. done.
Qed.


(** Uploading the same chunk again succeeds and changes neither the metadata, the chunks
    nor the counters: retries are not double-counted. *)
Theorem reupload_changes_nothing st id idx tc tb dat i j :
  Inv st → store_pre st id idx tc tb dat →
  (let st1 := stored_state st id idx tc tb dat i in
   verdict st id idx tc tb dat = None → store_pre st1 id idx tc tb dat →
   wp (store_chunk id idx tc tb dat) (λ r st2 _,
     metas st2 = metas st1 ∧ chunks st2 = chunks st1 ∧ reserved_bytes st2 = reserved_bytes st1
     ∧ transfer_count st2 = transfer_count st1
     ∧ (quiet j → r = inr {| sc_received_chunks := count_of id (chunks st1); sc_total_chunks := tc |})) st1 j).
Proof.
  intros HI Hpre st1 Hv Hpre1. pose proof (Inv_stored st id idx tc tb dat i HI Hpre Hv) as HI1. fold st1 in HI1.
  pose proof (verdict_again st id idx tc tb dat i HI Hpre Hv) as Hv1. fold st1 in Hv1.
  assert (∀ i', metas (stored_state st1 id idx tc tb dat i') = metas st1
                ∧ chunks (stored_state st1 id idx tc tb dat i') = chunks st1) as Hsame
    by (intros; by apply stored_again).
  eapply wp_conseq; [by apply store_chunk_wp|]. intros [e|sc] st2 i' [_ H].
  - destruct H as [-> H]. split_and!; try done. destruct H as [?|[??]]; [congruence|done].
  - destruct H as (_ & -> & ->). destruct (Hsame j) as [Hm Hc].
    pose proof (Inv_stored st1 id idx tc tb dat j HI1 Hpre1 Hv1) as HI2.
    split_and!; [done|done| | |].
    + by rewrite (proj1 (inv_reserved _ HI2)), (proj1 (inv_reserved _ HI1)), Hm.
    + by rewrite (proj1 (inv_count _ HI2)), (proj1 (inv_count _ HI1)), Hm.
    + intros _. do 2 f_equal.
      assert (metas (stored_state st1 id idx tc tb dat j) !! id
              = Some (grow (disk_base st1 id tc tb (next_now (clock_tick j))) (prev_len (chunks st1) id idx) (blen dat)))
        as Hl by (rewrite metas_stored by done; apply lookup_insert_eq).
      apply (wf_counts _ _ (inv_wf _ HI2)) in Hl as [_ Hcnt]. by rewrite Hc in Hcnt.
Qed.

(** When the received count of a transfer equals its declared number of chunks, every chunk
    is present, non-empty and returned by a fetch, and the stored bytes are their sum, within
    the declared size. *)
Theorem complete_transfer_is_readable st id m idx i :
  Inv st → metas st !! id = Some m → received_chunks m = total_chunks m → 0 ≤ idx < total_chunks m →
  wp (fetch_chunk id idx) (λ r st' _, st' = st ∧ (quiet i → ∃ f, r = inr f ∧ data f ≠ []
      ∧ chunks st !! chunk_key id idx = Some (data f)
      ∧ fc_total_chunks f = total_chunks m ∧ fc_total_bytes f = total_bytes m)
    ∧ bytes_of id (chunks st) = stored_bytes m ∧ stored_bytes m ≤ total_bytes m) st i.
Proof.
  intros HI Hm Hfull Hidx. pose proof (inv_wf _ HI) as Hwf.
  destruct (wf_counts _ _ Hwf _ _ Hm) as [Hb Hc]. destruct (wf_metas _ _ Hwf _ _ Hm) as [_ [_ _ Hle]].
  eapply wp_conseq; [by apply (fetch_wp i)|]. intros r s i' (_ & -> & Hr).
  split; [done|]. split; [|by rewrite <- Hb]. intros Hq. destruct Hr as [->|[? _]]; [|done].
  destruct (count_full _ _ _ _ idx Hwf Hm) as [b Hk]; [congruence|done|].
  unfold fetched. rewrite Hm, Hk, (proj2 (Z.leb_gt _ _)) by lia. eexists. split; [done|].
  split; [|done]. by apply (wf_chunks _ _ Hwf) in Hk as [? _].
Qed.

(** When no item of its chunk range is unreadable, deleting a transfer removes its metadata
    and all its chunks and nothing else, releases exactly the bytes it held and says whether it
    existed; a failed deletion changes nothing. *)
Theorem delete_removes_one_transfer {E} (err : E) st id i :
  Inv st → Caps st → no_char ":" id → items_fine i →
  wp (delete_transfer err id) (λ r st' _,
    match r with
    | inr existed => existed = bool_decide (is_Some (metas st !! id)) ∧ Inv st' ∧ Caps st'
        ∧ metas st' = delete id (metas st)
        ∧ (∀ k, chunks st' !! k = if decide (owner k = Some id) then None else chunks st !! k)
        ∧ reserved_bytes st' = reserved_bytes st - bytes_of id (chunks st)
    | inl _ => ¬ quiet i ∧ st' = st
    end) st i.
Proof.
  intros HI HC Hid Hf. eapply wp_conseq; [by apply (delete_wp i)|]. intros [e|ex] st' i' [_ Hr]; [done|].
  destruct Hr as (-> & ks & -> & Hks). destruct (deleted_fine st id ks HI Hid (Hks Hf)) as (HI' & HC' & Hch).
  split_and!; [done|done|auto|apply metas_deleted|done|].
  simpl. f_equal. unfold held. destruct (metas st !! id) as [m|] eqn:E1.
  - by apply (wf_counts _ _ (inv_wf _ HI)) in E1 as [? _].
  - unfold bytes_of. symmetry. apply weigh_none. intros k b Hk. eapply no_meta_no_chunk; [apply HI|done..].
Qed.

(** The file sweep removes exactly the transfers whose cached creation time is past their
    window (the operator's TTL when complete, at most one hour when not) and leaves every other
    one untouched, also when it stops at an error. *)
Theorem sweep_removes_exactly_expired_transfers {E} (err : E) st i :
  Inv st → Caps st → items_fine i →
  wp (sweep_expired err) (λ r st' _, Inv st' ∧ Caps st' ∧
    let gone id := ∃ c, meta st !! id = Some c ∧
      created_at_ms c < next_now i -^ (if total_chunks c <=? received_chunks c
                                       then file_ttl_ms (config st)
                                       else Z.min INCOMPLETE_FILE_TTL_MS (file_ttl_ms (config st))) in
    match r with
    | inr _ => ∀ id, (gone id → metas st' !! id = None)
        ∧ (¬ gone id → metas st' !! id = metas st !! id
             ∧ ∀ idx, no_char ":" id → chunks st' !! chunk_key id idx = chunks st !! chunk_key id idx)
    | inl _ => ¬ quiet i ∧ ∀ id, ¬ gone id → metas st' !! id = metas st !! id
    end) st i.
Proof.
  intros HI HC Hf. eapply wp_conseq; [by apply sweep_files_wp|]. intros r st' i' [_ Hr]. cbv zeta.
  assert (∀ id, id ∈ expired_ids (config st) (next_now i) (meta st) ↔
    ∃ c, meta st !! id = Some c ∧
      created_at_ms c < next_now i -^ (if total_chunks c <=? received_chunks c then file_ttl_ms (config st)
                                       else Z.min INCOMPLETE_FILE_TTL_MS (file_ttl_ms (config st)))) as Hex.
  { intros id. rewrite elem_expired_ids. unfold is_expired. setoid_rewrite Z.ltb_lt.
    split; intros (c & Hc & He); exists c; (split; [done|]); by case_match. }
  destruct r as [e|n].
  - destruct Hr as (Hq & done & Hpre & [HI' HC' _ Hm _]). split_and!; [done|auto|done|].
    intros id Hn. rewrite Hm, decide_False; [done|]. intros Hin. apply Hn, Hex. destruct Hpre as [rest ->].
    rewrite elem_of_app. by left.
  - destruct Hr as (-> & [HI' HC' _ Hm Hch]). split_and!; [done|auto|]. intros id. split.
    + intros Hg%Hex. by rewrite Hm, decide_True.
    + intros Hg. rewrite <- Hex in Hg. rewrite Hm, decide_False by done. split; [done|].
      intros idx Hid. by rewrite Hch, decide_False.
Qed.

(** Opening the file store on any consistent pair of tables rebuilds the cache, the
    reserved bytes and the transfer count from disk. *)
Theorem reopened_store_is_consistent {E} (err : E) mt ct cfg i :
  tables_ok mt ct → config_ok cfg →
  wp (new err mt ct cfg) (λ r _ _,
    match r with
    | inr st => Inv st ∧ file_meta st = mt ∧ file_chunks st = ct ∧ meta st = decoded mt
                ∧ reserved_bytes st = total_stored (decoded mt)
                ∧ transfer_count st = Z.of_nat (size (decoded mt : gmap string FileMeta))
    | inl _ => ¬ quiet i
    end) () i.
Proof.
  intros Hok Hcfg. eapply wp_conseq; [by apply (open_files_wp mt ct cfg Hok Hcfg i)|].
  intros [e|st] _ i' [_ Hr]; [done|]. destruct Hr as (<- & <- & _ & Hm & HI).
  split_and!; try done; apply HI.
Qed.
End Props.

(** ** Witnesses *)

Section Witnesses.
#[local] Existing Instances gmap_redb meta_serde.

Lemma store_chunk_keeps_accounts_witness :
  Inv empty_files ∧ wp (store_chunk "id0" 0 2 10 dat1) (λ _ st' _, Inv st' ∧ Caps st') empty_files clocks.
Proof.
  split; [exact (proj1 Inv_empty_files)|].
  eapply wp_conseq; [exact (store_chunk_keeps_accounts empty_files "id0" 0 2 10 dat1 clocks
    (proj1 Inv_empty_files) (proj2 Inv_empty_files) pre_demo1)|].
  intros r st' i' (H1 & H2 & _). exact (conj H1 H2).
Defined.

Lemma store_chunk_decides_witness :
  verdict demo_files "id0" 1 2 10 dat2 = None
  ∧ wp (store_chunk "id0" 1 2 10 dat2) (λ r _ _, ∀ e, r = inl e ↔ verdict demo_files "id0" 1 2 10 dat2 = Some e)
      demo_files calm.
Proof.
  split; [vm_compute; reflexivity|].
  eapply wp_conseq; [exact (store_chunk_decides demo_files "id0" 1 2 10 dat2 calm (proj1 Inv_demo_files) pre_demo2)|].
  intros r st' i' [H _]. apply H. constructor.
Defined.


Lemma reupload_changes_nothing_witness :
  wp (store_chunk "id0" 0 2 10 dat1) (λ r _ _, r = inr {| sc_received_chunks := 1; sc_total_chunks := 2 |})
    (stored_state empty_files "id0" 0 2 10 dat1 clocks) calm.
Proof.
  assert (verdict empty_files "id0" 0 2 10 dat1 = None) as Hv by (vm_compute; reflexivity).
  assert (store_pre (stored_state empty_files "id0" 0 2 10 dat1 clocks) "id0" 0 2 10 dat1) as Hpre
    by (refine (bool_decide_unpack _ _); vm_compute; exact I).
  eapply wp_conseq; [exact (reupload_changes_nothing empty_files "id0" 0 2 10 dat1 clocks calm
    (proj1 Inv_empty_files) pre_demo1 Hv Hpre)|].
  intros r st' i' (_ & _ & _ & _ & H). rewrite H by constructor. vm_compute. reflexivity.
Defined.

Lemma complete_transfer_is_readable_witness :
  wp (fetch_chunk "id0" 1) (λ r _ _, ∃ f, r = inr f ∧ data f = dat2) demo_full calm.
Proof.
  assert (∃ m, metas demo_full !! "id0" = Some m ∧ received_chunks m = total_chunks m ∧ total_chunks m = 2)
    as (m & Hm & Hfull & Htc) by (eexists; vm_compute; repeat split; reflexivity).
  eapply wp_conseq; [exact (complete_transfer_is_readable demo_full "id0" m 1 calm (proj1 Inv_demo_full) Hm Hfull
    ltac:(lia))|].
  intros r st' i' (_ & H & _). destruct (H ltac:(constructor)) as (f & Hr & _ & Hf & _).
  exists f. split; [exact Hr|].
  assert (chunks demo_full !! chunk_key "id0" 1 = Some dat2) as Hd by (vm_compute; reflexivity). congruence.
Defined.

Lemma delete_removes_one_transfer_witness :
  (delete_transfer () "id0" demo_full calm).1.1 = inr true
  ∧ wp (delete_transfer () "id0") (λ _ st' _, metas st' !! "id0" = None) demo_full calm.
Proof.
  split; [vm_compute; reflexivity|].
  eapply wp_conseq; [exact (delete_removes_one_transfer () demo_full "id0" calm (proj1 Inv_demo_full)
    (proj2 Inv_demo_full) eq_refl ltac:(constructor))|].
  intros [e|b] st' i' H; [destruct H as [H _]; destruct H; constructor|].
  destruct H as (_ & _ & _ & -> & _). apply lookup_delete_eq.
Defined.

(** Past the incomplete window, here clamped to the operator's TTL. *)
Lemma sweep_removes_exactly_expired_transfers_witness :
  (sweep_expired () demo_files (Io [] [] [2000] [])).1.1 = inr 1
  ∧ wp (sweep_expired ()) (λ _ st' _, Inv st') demo_files (Io [] [] [2000] []).
Proof.
  split; [vm_compute; reflexivity|].
  eapply wp_conseq; [exact (sweep_removes_exactly_expired_transfers () demo_files (Io [] [] [2000] [])
    (proj1 Inv_demo_files) (proj2 Inv_demo_files) ltac:(constructor))|].
  intros r st' i' [H _]. exact H.
Defined.

Lemma reopened_store_is_consistent_witness :
  wp (new () (file_meta demo_full) (file_chunks demo_full) demo_config)
    (λ r _ _, ∃ st, r = inr st ∧ reserved_bytes st = 4) () calm.
Proof.
  eapply wp_conseq; [exact (reopened_store_is_consistent () (file_meta demo_full) (file_chunks demo_full) demo_config
    calm (Inv_tables_ok _ (proj1 Inv_demo_full)) (inv_config _ (proj1 Inv_empty_files)))|].
  intros [e|st] s i' H; [destruct H; constructor|]. exists st. split; [reflexivity|].
  destruct H as (_ & _ & _ & _ & -> & _). vm_compute. reflexivity.
Defined.

(** ** Two divergences *)

(** The cached creation time is the first clock reading of the creation, the
    durable one the second. *)
Example created_at_diverges :
  created_at_ms <$> meta demo_files !! "id0" = Some 5 ∧ created_at_ms <$> metas demo_files !! "id0" = Some 7.
Proof. split; vm_compute; reflexivity. Qed.

(** A deletion whose range yields one unreadable item reports success and
    leaves that chunk behind, without its metadata. *)
Example delete_can_orphan_a_chunk :
  let '(r, st', _) := delete_transfer () "id0" demo_full (Io [] [true] [] []) in
  r = inr true ∧ metas st' !! "id0" = None ∧ size (chunks st') = 1%nat ∧ reserved_bytes st' = 0.
Proof. vm_compute. repeat split; reflexivity. Qed.
End Witnesses.
