(* ===== verification/Mailbox.v ===== *)
(** [state.rs]: the records of a mailbox and of a hosted invite bundle, and the
    mailbox's delivery-token list. *)
From Stdlib Require Import ZArith Lia Ascii String.
From stdpp Require Import base gmap strings list.
From S2P Require Import Prelude Config Util.

Record MailboxAuth := {
  receive_auth_hash : string;
  delivery_token_hash : string;
  delivery_token_hashes : list string;
  last_active_ms : Z;
}.

#[global] Instance MailboxAuth_eq_dec : EqDecision MailboxAuth.
Proof. solve_decision. Defined.

#[global] Instance MailboxAuth_countable : Countable MailboxAuth.
Proof.
  refine (inj_countable' (λ a, (receive_auth_hash a, delivery_token_hash a, delivery_token_hashes a, last_active_ms a))
    (λ '(r, d, l, t), {| receive_auth_hash := r; delivery_token_hash := d; delivery_token_hashes := l;
                        last_active_ms := t |}) _).
  by intros [].
Defined.

Record HostedBundle := {
  bundle_key : string;
  bundle_ciphertext : string;
  bundle_created_at_ms : Z;
  bundle_expires_at_ms : Z;
}.

#[global] Instance HostedBundle_eq_dec : EqDecision HostedBundle.
Proof. solve_decision. Defined.

#[global] Instance HostedBundle_countable : Countable HostedBundle.
Proof.
  refine (inj_countable' (λ b, (bundle_key b, bundle_ciphertext b, bundle_created_at_ms b, bundle_expires_at_ms b))
    (λ '(i, c, a, e), {| bundle_key := i; bundle_ciphertext := c; bundle_created_at_ms := a;
                        bundle_expires_at_ms := e |}) _).
  by intros [].
Defined.

Definition touch (now : Z) (a : MailboxAuth) : MailboxAuth :=
  {| receive_auth_hash := receive_auth_hash a; delivery_token_hash := delivery_token_hash a;
     delivery_token_hashes := delivery_token_hashes a; last_active_ms := now |}.

(** [MailboxAuth::new]; the clock is the caller's. *)
Definition new_mailbox {S E} (auth_hash delivery_hash : string) : M S E MailboxAuth :=
  now ← now_activity_ms;
  mret {| receive_auth_hash := auth_hash; delivery_token_hash := delivery_hash;
          delivery_token_hashes := [delivery_hash]; last_active_ms := now |}.

Definition accepts_delivery_hash (a : MailboxAuth) (hash : string) : bool :=
  ct_eq (delivery_token_hash a) hash || existsb (λ h, ct_eq h hash) (delivery_token_hashes a).

(** Also whether the list changed. *)
Definition ensure_delivery_hash (hash : string) (a : MailboxAuth) : bool * MailboxAuth :=
  let first := if bool_decide (delivery_token_hash a = EmptyString) then hash else delivery_token_hash a in
  let with_hashes l := {| receive_auth_hash := receive_auth_hash a; delivery_token_hash := first;
                          delivery_token_hashes := l; last_active_ms := last_active_ms a |} in
  if bool_decide (hash ∈ delivery_token_hashes a) then (false, with_hashes (delivery_token_hashes a))
  else
    let kept := if (MAX_DELIVERY_TOKENS_PER_MAILBOX <=? length (delivery_token_hashes a))%nat
                then tail (delivery_token_hashes a) else delivery_token_hashes a in
    (true, with_hashes (kept ++ [hash])).

(** The first occurrences, in order. *)
Definition dedup (hashes : list string) : list string :=
  foldl (λ out hash, if bool_decide (hash ∈ out) then out else out ++ [hash]) [] hashes.

Definition replace_delivery_hashes (hashes : list string) (a : MailboxAuth) : MailboxAuth :=
  let out := dedup (take MAX_DELIVERY_TOKENS_PER_MAILBOX hashes) in
  {| receive_auth_hash := receive_auth_hash a; delivery_token_hash := default EmptyString (head out);
     delivery_token_hashes := out; last_active_ms := last_active_ms a |}.

(** ** Facts *)

(** What stays true of every mailbox: at most 64 distinct delivery hashes. *)
Record wf_auth (a : MailboxAuth) : Prop := {
  wf_hashes_len : (length (delivery_token_hashes a) ≤ MAX_DELIVERY_TOKENS_PER_MAILBOX)%nat;
  wf_hashes_nodup : NoDup (delivery_token_hashes a);
}.

Lemma accepts_spec a hash :
  accepts_delivery_hash a hash = true ↔ hash = delivery_token_hash a ∨ hash ∈ delivery_token_hashes a.
Proof.
  unfold accepts_delivery_hash. rewrite orb_true_iff, ct_eq_true, existsb_exists. split.
  - intros [?|(h & Hin & ->%ct_eq_true)]; [by left|right; by apply list_elem_of_In].
  - intros [?|Hin]; [by left|right]. exists hash. split; [by apply list_elem_of_In|by apply ct_eq_true].
Qed.

Lemma dedup_spec hashes :
  NoDup (dedup hashes) ∧ (length (dedup hashes) ≤ length hashes)%nat ∧ (∀ h, h ∈ dedup hashes ↔ h ∈ hashes)
  ∧ head (dedup hashes) = head hashes.
Proof.
  unfold dedup. induction hashes as [|x l IH] using rev_ind; [split_and!; try done; constructor|].
  rewrite foldl_app. simpl. set (out := foldl _ [] l) in *. destruct IH as (Hnd & Hlen & Hin & Hhd).
  case_bool_decide as Hx.
  - rewrite length_app. split_and!; [done|lia| |].
    + intros h. rewrite elem_of_app, list_elem_of_singleton, <- Hin. split; [by left|]. by intros [?| ->].
    + destruct l as [|y l]; [|done]. apply Hin in Hx. by apply not_elem_of_nil in Hx.
  - rewrite !length_app. split_and!.
    + apply NoDup_app. split_and!; [done| |apply NoDup_singleton]. by intros h Hh ->%list_elem_of_singleton.
    + simpl. lia.
    + intros h. by rewrite !elem_of_app, Hin.
    + destruct out as [|z out], l as [|y l]; done.
Qed.

Lemma wf_new auth_hash delivery_hash now :
  wf_auth {| receive_auth_hash := auth_hash; delivery_token_hash := delivery_hash;
             delivery_token_hashes := [delivery_hash]; last_active_ms := now |}.
Proof. split; [unfold MAX_DELIVERY_TOKENS_PER_MAILBOX; simpl; lia|apply NoDup_singleton]. Qed.

Lemma wf_touch now a : wf_auth a → wf_auth (touch now a).
Proof. by intros [??]. Qed.

Lemma wf_ensure hash a : wf_auth a → wf_auth (ensure_delivery_hash hash a).2.
Proof.
  intros [Hl Hn]. unfold ensure_delivery_hash. case_bool_decide as Hin; [by split|].
  set (kept := if (_ <=? _)%nat then _ else _).
  assert (length kept < MAX_DELIVERY_TOKENS_PER_MAILBOX ∧ NoDup kept ∧ hash ∉ kept)%nat as (Hlen & Hnd & Hk).
  { unfold kept, MAX_DELIVERY_TOKENS_PER_MAILBOX in *.
    destruct (Nat.leb_spec 64 (length (delivery_token_hashes a))); [|by split_and!; [lia|..]].
    destruct (delivery_token_hashes a) as [|x l]; simpl in *; [lia|]. apply NoDup_cons in Hn as [_ Hn].
    split_and!; [lia|done|]. intros ?. apply Hin. by right. }
  split; simpl.
  - rewrite length_app. simpl. lia.
  - apply NoDup_app. split_and!; [done| |apply NoDup_singleton]. by intros h Hh ->%list_elem_of_singleton.
Qed.

Lemma wf_replace hashes a : wf_auth (replace_delivery_hashes hashes a).
Proof.
  destruct (dedup_spec (take MAX_DELIVERY_TOKENS_PER_MAILBOX hashes)) as (Hnd & Hlen & _).
  split; [|done]. simpl. rewrite length_take in Hlen. lia.
Qed.

(** The hash just ensured is accepted. *)
Lemma ensure_accepts hash a : accepts_delivery_hash (ensure_delivery_hash hash a).2 hash = true.
Proof.
  apply accepts_spec. unfold ensure_delivery_hash. case_bool_decide as Hin; simpl; [by right|].
  right. apply elem_of_app. right. by apply list_elem_of_singleton.
Qed.

(** After a replacement exactly the given hashes (the first 64) are accepted,
    when there is one. *)
Lemma replace_accepts hashes a h :
  hashes ≠ [] →
  accepts_delivery_hash (replace_delivery_hashes hashes a) h = true
  ↔ h ∈ take MAX_DELIVERY_TOKENS_PER_MAILBOX hashes.
Proof.
  intros Hne. rewrite accepts_spec. simpl.
  destruct (dedup_spec (take MAX_DELIVERY_TOKENS_PER_MAILBOX hashes)) as (_ & _ & Hin & Hhd).
  rewrite Hin, Hhd. split; [|by right]. intros [->|?]; [|done].
  destruct hashes as [|x l]; [done|]. simpl. left.
Qed.
