(* ===== verification/MetaStore.v ===== *)
(** [meta_store.rs]: the durable tables of mailbox auth records and invite
    bundles, written in batches from the dirty sets. *)
From Stdlib Require Import ZArith Lia Ascii String.
From stdpp Require Import base gmap strings list.
From S2P Require Import Prelude Redb Config Util Mailbox.

Section Store.
Context {RD : Redb} {SA : Serde MailboxAuth} {SB : Serde HostedBundle}.

Record MetaStore := {
  auth_table : Table;
  bundle_table : Table;
}.

Definition set_auth_table (t : Table) (st : MetaStore) : MetaStore :=
  {| auth_table := t; bundle_table := bundle_table st |}.

Definition set_bundle_table (t : Table) (st : MetaStore) : MetaStore :=
  {| auth_table := auth_table st; bundle_table := t |}.

Definition new (auth bundles : Table) : M () anyhow MetaStore :=
  _ ← begin_txn Failed;
  auth ← open_table Failed auth;
  bundles ← open_table Failed bundles;
  _ ← commit Failed;
  mret {| auth_table := auth; bundle_table := bundles |}.

Definition load_all_auth : M MetaStore anyhow (list (string * MailboxAuth)) :=
  st ← get;
  _ ← begin_txn Failed;
  table ← open_table Failed (auth_table st);
  entries ← txn_iter Failed table;
  foldM (λ out '(k, v),
    _ ← io_call Failed;
    mret (match from_slice v with Some auth => out ++ [(k, auth)] | None => out end)) [] entries.

Definition load_all_bundles : M MetaStore anyhow (list HostedBundle) :=
  st ← get;
  _ ← begin_txn Failed;
  table ← open_table Failed (bundle_table st);
  entries ← txn_iter Failed table;
  foldM (λ out '(_, v),
    _ ← io_call Failed;
    mret (match from_slice v with Some bundle => out ++ [bundle] | None => out end)) [] entries.

Definition auth_is_empty : M MetaStore anyhow bool :=
  st ← get;
  _ ← begin_txn Failed;
  table ← open_table Failed (auth_table st);
  entries ← txn_iter Failed table;
  mret (match entries with [] => true | _ => false end).

Definition bundles_is_empty : M MetaStore anyhow bool :=
  st ← get;
  _ ← begin_txn Failed;
  table ← open_table Failed (bundle_table st);
  entries ← txn_iter Failed table;
  mret (match entries with [] => true | _ => false end).

(** One item of a batch: [Some] upserts, [None] deletes. *)
Definition apply_item {A} `{!Serde A} (table : Table) (item : string * option A) : M MetaStore anyhow Table :=
  match item.2 with
  | Some a =>
      _ ← io_call Failed;
      txn_insert Failed table item.1 (to_vec a)
  | None => txn_remove Failed table item.1
  end.

Definition flush_auth (items : list (string * option MailboxAuth)) : M MetaStore anyhow () :=
  match items with
  | [] => mret ()
  | _ =>
      st ← get;
      _ ← begin_txn Failed;
      table ← open_table Failed (auth_table st);
      table ← foldM apply_item table items;
      _ ← commit Failed;
      modify (set_auth_table table)
  end.

Definition flush_bundles (items : list (string * option HostedBundle)) : M MetaStore anyhow () :=
  match items with
  | [] => mret ()
  | _ =>
      st ← get;
      _ ← begin_txn Failed;
      table ← open_table Failed (bundle_table st);
      table ← foldM apply_item table items;
      _ ← commit Failed;
      modify (set_bundle_table table)
  end.

(** ** Facts *)

(** The effect of a batch on the decoded table. *)
Definition apply_batch {A} (m : gmap string A) (items : list (string * option A)) : gmap string A :=
  foldl (λ m item, partial_alter (λ _, item.2) item.1 m) m items.

Definition put_item {A} `{!Serde A} (t : Table) (item : string * option A) : Table :=
  match item.2 with Some a => tbl_insert t item.1 (to_vec a) | None => tbl_remove t item.1 end.

Lemma decoded_put {A} `{!Serde A} t (item : string * option A) :
  decoded (put_item t item) = partial_alter (λ _, item.2) item.1 (decoded t : gmap string A).
Proof.
  unfold put_item. destruct item as [k [a|]]; simpl; [apply decoded_insert|apply decoded_remove].
Qed.

Lemma decoded_batch {A} `{!Serde A} t (items : list (string * option A)) :
  decoded (foldl put_item t items) = apply_batch (decoded t) items.
Proof.
  unfold apply_batch. revert t. induction items as [|x l IH]; intros t; [done|]. simpl. by rewrite IH, decoded_put.
Qed.

(** A batch with the current value of each of its keys. *)
Lemma apply_batch_current {A} (m cur : gmap string A) (keys : list string) k :
  apply_batch m ((λ k, (k, cur !! k)) <$> keys) !! k = if decide (k ∈ keys) then cur !! k else m !! k.
Proof.
  unfold apply_batch. revert m. induction keys as [|x l IH]; intros m; [done|].
  rewrite fmap_cons. cbn [foldl]. rewrite IH. cbn [fst snd].
  destruct (decide (k ∈ l)) as [Hin|Hin].
  - rewrite decide_True; [done|]. by right.
  - destruct (decide (x = k)) as [->|Hne].
    + rewrite decide_True by left. by rewrite lookup_partial_alter_eq.
    + rewrite lookup_partial_alter_ne by done. rewrite decide_False; [done|]. by intros [?|?]%elem_of_cons.
Qed.

Lemma apply_items_wp {A} `{!Serde A} i0 t (items : list (string * option A))
    (Q : anyhow + Table → MetaStore → io → Prop) st i :
  io_step i0 i →
  (∀ i', io_step i0 i' → Q (inr (foldl put_item t items)) st i') →
  (¬ quiet i0 → ∀ i', io_step i0 i' → Q (inl Failed) st i') →
  wp (foldM apply_item t items) Q st i.
Proof.
  intros Hi H1 H2. apply (wp_foldM _ (λ done t' s i', t' = foldl put_item t done ∧ s = st ∧ io_step i0 i')).
  - done.
  - clear Hi. intros pre [k [a|]] rest t' s i' _ (-> & -> & Hi); unfold apply_item, put_item; cbn [fst snd].
    all: wp_txn ltac:(by auto). all: by rewrite foldl_app.
  - intros t' s i' (-> & -> & ?). auto.
Qed.

Lemma flush_auth_wp i0 items st i (Q : anyhow + () → MetaStore → io → Prop) :
  io_step i0 i →
  (∀ st' i', io_step i0 i' → decoded (auth_table st') = apply_batch (decoded (auth_table st)) items →
     bundle_table st' = bundle_table st → Q (inr ()) st' i') →
  (¬ quiet i0 → ∀ i', io_step i0 i' → Q (inl Failed) st i') →
  wp (flush_auth items) Q st i.
Proof.
  intros Hi H1 H2. unfold flush_auth. destruct items as [|x l]; [apply wp_ret; by apply H1|].
  revert H1. generalize (x :: l). intros items H1. wp_txn ltac:(by auto).
  apply (apply_items_wp i0); [done| |by auto]. clear Hi. intros i' Hi. cbn beta iota. wp_txn ltac:(by auto).
  apply H1; [done|apply decoded_batch|done].
Qed.

Lemma flush_bundles_wp i0 items st i (Q : anyhow + () → MetaStore → io → Prop) :
  io_step i0 i →
  (∀ st' i', io_step i0 i' → decoded (bundle_table st') = apply_batch (decoded (bundle_table st)) items →
     auth_table st' = auth_table st → Q (inr ()) st' i') →
  (¬ quiet i0 → ∀ i', io_step i0 i' → Q (inl Failed) st i') →
  wp (flush_bundles items) Q st i.
Proof.
  intros Hi H1 H2. unfold flush_bundles. destruct items as [|x l]; [apply wp_ret; by apply H1|].
  revert H1. generalize (x :: l). intros items H1. wp_txn ltac:(by auto).
  apply (apply_items_wp i0); [done| |by auto]. clear Hi. intros i' Hi. cbn beta iota. wp_txn ltac:(by auto).
  apply H1; [done|apply decoded_batch|done].
Qed.

(** The decodable entries of a table, in its order. *)
Definition decodable {A} `{!Serde A} (l : list (string * bytes)) : list (string * A) :=
  omap (λ kv, (λ a, (kv.1, a)) <$> from_slice kv.2) l.

Lemma elem_decodable {A} `{!Serde A} t k (a : A) :
  (k, a) ∈ decodable (tbl_iter t) ↔ (decoded t : gmap string A) !! k = Some a.
Proof.
  unfold decodable. rewrite list_elem_of_omap, decoded_lookup. split.
  - intros ([k' b] & Hin%tbl_iter_get & Hf). simpl in Hf.
    destruct (from_slice b) eqn:Hb; simplify_eq/=. by rewrite Hin.
  - destruct (tbl_get t k) as [b|] eqn:Hg; [|done]. simpl. intros Hb. exists (k, b).
    rewrite tbl_iter_get. split; [done|]. simpl. by rewrite Hb.
Qed.

Lemma decodable_NoDup {A} `{!Serde A} t : NoDup (decodable (tbl_iter t) : list (string * A)).*1.
Proof.
  pose proof (tbl_iter_nodup t) as Hnd. unfold decodable. induction (tbl_iter t) as [|[k b] l IH]; [constructor|].
  simpl in *. apply NoDup_cons in Hnd as [Hk Hl]. destruct (from_slice b) as [a|]; simpl; [|auto].
  constructor; [|auto]. intros ([k' a'] & Heq & ([k2 b2] & Hin & Hf)%list_elem_of_omap)%list_elem_of_fmap.
  simpl in *. subst k'. apply Hk. destruct (from_slice b2); simplify_eq/=. by apply (list_elem_of_fmap_2' fst _ (k, b2)).
Qed.

Lemma decodable_snoc {A} `{!Serde A} l k b :
  decodable (l ++ [(k, b)])
  = match (from_slice b : option A) with Some a => decodable l ++ [(k, a)] | None => decodable l end.
Proof.
  unfold decodable. rewrite omap_app. simpl. destruct (from_slice b); simpl; [done|]. by rewrite app_nil_r.
Qed.

Lemma load_all_auth_wp i0 st i (Q : anyhow + list (string * MailboxAuth) → MetaStore → io → Prop) :
  io_step i0 i →
  (∀ i', io_step i0 i' → Q (inr (decodable (tbl_iter (auth_table st)))) st i') →
  (¬ quiet i0 → ∀ i', io_step i0 i' → Q (inl Failed) st i') →
  wp load_all_auth Q st i.
Proof.
  intros Hi H1 H2. unfold load_all_auth. wp_txn ltac:(by auto).
  apply (wp_foldM _ (λ done out s i', out = decodable done ∧ s = st ∧ io_step i0 i')).
  - done.
  - clear Hi. intros done [k b] rest out s i' _ (-> & -> & Hi). wp_txn ltac:(by auto). by rewrite decodable_snoc.
  - intros out s i' (-> & -> & ?). auto.
Qed.

Lemma load_all_bundles_wp i0 st i (Q : anyhow + list HostedBundle → MetaStore → io → Prop) :
  io_step i0 i →
  (∀ i', io_step i0 i' → Q (inr (decodable (tbl_iter (bundle_table st))).*2) st i') →
  (¬ quiet i0 → ∀ i', io_step i0 i' → Q (inl Failed) st i') →
  wp load_all_bundles Q st i.
Proof.
  intros Hi H1 H2. unfold load_all_bundles. wp_txn ltac:(by auto).
  apply (wp_foldM _ (λ done out s i', out = (decodable done).*2 ∧ s = st ∧ io_step i0 i')).
  - done.
  - clear Hi. intros done [k b] rest out s i' _ (-> & -> & Hi). wp_txn ltac:(by auto). rewrite decodable_snoc.
    destruct (from_slice b); [|done]. by rewrite fmap_app.
  - intros out s i' (-> & -> & ?). auto.
Qed.

(** Whether a table has an entry; migration runs only when there is none. *)
Lemma no_items t : tbl_iter t = [] ↔ contents t = ∅.
Proof.
  pose proof (iter_contents t) as Hp. split.
  - intros He. rewrite He in Hp. by apply map_to_list_empty_iff, Permutation_nil.
  - intros He. rewrite He, map_to_list_empty in Hp. by rewrite (Permutation_nil (symmetry Hp)).
Qed.

Lemma auth_is_empty_wp i0 st i (Q : anyhow + bool → MetaStore → io → Prop) :
  io_step i0 i →
  (∀ i' b, io_step i0 i' → (b = true ↔ contents (auth_table st) = ∅) → Q (inr b) st i') →
  (¬ quiet i0 → ∀ i', io_step i0 i' → Q (inl Failed) st i') →
  wp auth_is_empty Q st i.
Proof.
  intros Hi H1 H2. unfold auth_is_empty. wp_txn ltac:(by auto). apply H1; [done|].
  rewrite <- no_items. by destruct (tbl_iter _).
Qed.

Lemma bundles_is_empty_wp i0 st i (Q : anyhow + bool → MetaStore → io → Prop) :
  io_step i0 i →
  (∀ i' b, io_step i0 i' → (b = true ↔ contents (bundle_table st) = ∅) → Q (inr b) st i') →
  (¬ quiet i0 → ∀ i', io_step i0 i' → Q (inl Failed) st i') →
  wp bundles_is_empty Q st i.
Proof.
  intros Hi H1 H2. unfold bundles_is_empty. wp_txn ltac:(by auto). apply H1; [done|].
  rewrite <- no_items. by destruct (tbl_iter _).
Qed.
End Store.

Arguments MetaStore {_}.
