(* ===== verification/Signal.v ===== *)
(** The third-party cryptography the handlers call: libsignal's keys and sender
    certificates, and base64. *)
From Stdlib Require Import ZArith Ascii String.
From stdpp Require Import base strings list.
From S2P Require Import Prelude.

(** [base64::STANDARD_NO_PAD]. *)
Class Base64 := {
  b64_encode : bytes → string;
  b64_decode : string → option bytes;
  b64_decode_encode : ∀ b, b64_decode (b64_encode b) = Some b;
  b64_decode_shorter : ∀ s b, b64_decode s = Some b → blen b ≤ slen s;
}.

(** [libsignal_protocol]: a certificate carries what it was made for. *)
Class LibSignal := {
  PublicKey : Type;
  PrivateKey : Type;
  ServerCertificate : Type;
  SenderCertificate : Type;
  DeviceId : Type;
  Rng : Type;

  public_key_deserialize : bytes → string + PublicKey;
  device_id : Z → option DeviceId;
  sender_certificate_new :
    string → PublicKey → DeviceId → Z → ServerCertificate → PrivateKey → Rng → string + SenderCertificate;
  sender_certificate_serialized : SenderCertificate → string + bytes;

  cert_sender_uuid : SenderCertificate → string;
  cert_key : SenderCertificate → PublicKey;
  cert_expiration : SenderCertificate → Z;
  sender_certificate_new_fields : ∀ uuid key dev exp sc sk rng cert,
    sender_certificate_new uuid key dev exp sc sk rng = inr cert →
    cert_sender_uuid cert = uuid ∧ cert_key cert = key ∧ cert_expiration cert = exp;
}.

(** The relay's signing material, kept in memory. *)
Record ServerCrypto `{!LibSignal} := {
  trust_root_public_b64 : string;
  server_certificate : ServerCertificate;
  server_signing_private : PrivateKey;
}.

(** The write end of a connection's outbound channel, by its identity
    ([Sender::same_channel]). *)
Abbreviation ClientTx := nat.
