(* ===== verification/Persistence.v ===== *)
(** [persistence.rs]: the relay's state file, and the encryption of its private
    keys at rest.

    libsignal's key pairs, Argon2, ChaCha20-Poly1305 and hex are third-party:
    classes with their documented laws.  The branches for systems that are not
    Unix are left out. *)
From Stdlib Require Import ZArith Lia Ascii String.
From stdpp Require Import base gmap strings list.
From S2P Require Import Prelude Redb RustStd Config Util Host Protocol Mailbox Signal.

(** [libsignal_protocol::KeyPair], [ServerCertificate::new] and the generator. *)
Class SigningKeys {LS : LibSignal} := {
  rng_from_seed : bytes → Rng;
  keypair_generate : Rng → (PublicKey * PrivateKey) * Rng;
  keypair_from : bytes → bytes → option (PublicKey * PrivateKey);
  public_key_serialize : PublicKey → bytes;
  private_key_serialize : PrivateKey → bytes;
  server_certificate_new : Z → PublicKey → PrivateKey → Rng → option ServerCertificate;
  keypair_from_serialize : ∀ pub priv,
    keypair_from (public_key_serialize pub) (private_key_serialize priv) = Some (pub, priv);
}.

(** [argon2] with its default parameters, and [chacha20poly1305]. *)
Class Cipher := {
  argon2_hash : bytes → bytes → option bytes;
  chacha_encrypt : bytes → bytes → bytes → option bytes;
  chacha_decrypt : bytes → bytes → bytes → option bytes;
  chacha_decrypt_encrypt : ∀ key nonce plain sealed,
    chacha_encrypt key nonce plain = Some sealed → chacha_decrypt key nonce sealed = Some plain;
}.

Definition hex_digit (c : ascii) : bool := ascii_between "0" "9" c || ascii_between "a" "f" c.

(** [hex::decode]. *)
Class HexDecode {HA : Hashing} := {
  hex_decode : string → option bytes;
  hex_decode_encode : ∀ b, hex_decode (hex_encode b) = Some b;
  hex_encode_digits : ∀ b, str_forallb hex_digit (hex_encode b) = true;
}.

(** ** The state file *)

Record EncryptedCryptoBlob := {
  salt : string;
  nonce : string;
  sealed : string;
}.

Record DiskCrypto := {
  trust_root_public : bytes;
  trust_root_private : bytes;
  server_signing_public : bytes;
  server_signing_private_bytes : bytes;
}.

Section Persistence.
Context {UL : UuidLib} {LS : LibSignal} {SK : SigningKeys} {B6 : Base64}.
Context {HA : Hashing} {HX : HexDecode} {CI : Cipher}.

Record DiskState := {
  crypto : option DiskCrypto;
  encrypted_crypto : option EncryptedCryptoBlob;
  mailbox_auth : list (RecipientId * MailboxAuth);
  queues : list (RecipientId * list StoredEnvelope);
  bundles : list HostedBundle;
}.

Definition default_state : DiskState :=
  {| crypto := None; encrypted_crypto := None; mailbox_auth := []; queues := []; bundles := [] |}.

Definition set_crypto (c : option DiskCrypto) (d : DiskState) : DiskState :=
  {| crypto := c; encrypted_crypto := encrypted_crypto d; mailbox_auth := mailbox_auth d;
     queues := queues d; bundles := bundles d |}.

Context {SC : Serde DiskCrypto} {SD : Serde DiskState}.

(** [?] on an [Option] or a [Result] of a pure call. *)
Definition or_fail {S A : Type} (o : option A) : M S anyhow A :=
  match o with Some a => mret a | None => throw Failed end.

(** ** The keys *)

Definition fresh_rng : M Host anyhow Rng :=
  seed ← getrandom Failed 32;
  mret (rng_from_seed seed).

(** The state file as it is updated in memory, and the relay's keys. *)
Definition init_server_crypto (disk : DiskState) : M Host anyhow (ServerCrypto * DiskState) :=
  rng ← fresh_rng;
  '(trust_root, server_signing, rng, disk) ←
    (match crypto disk with
     | Some saved =>
         trust_root ← or_fail (keypair_from (trust_root_public saved) (trust_root_private saved));
         server_signing ← or_fail (keypair_from (server_signing_public saved) (server_signing_private_bytes saved));
         mret (trust_root, server_signing, rng, disk)
     | None =>
         let '(trust_root, rng) := keypair_generate rng in
         let '(server_signing, rng) := keypair_generate rng in
         mret (trust_root, server_signing, rng,
           set_crypto (Some {| trust_root_public := public_key_serialize trust_root.1;
                               trust_root_private := private_key_serialize trust_root.2;
                               server_signing_public := public_key_serialize server_signing.1;
                               server_signing_private_bytes := private_key_serialize server_signing.2 |}) disk)
     end);
  certificate ← or_fail (server_certificate_new 1 server_signing.1 trust_root.2 rng);
  mret ({| trust_root_public_b64 := b64_encode (public_key_serialize trust_root.1);
           server_certificate := certificate;
           server_signing_private := server_signing.2 |}, disk).

(** ** Encryption at rest *)

Definition derive_key_from_env (env_key : string) (salt : bytes) : option bytes :=
  argon2_hash (as_bytes env_key) salt.

Definition encrypt_disk_crypto (c : DiskCrypto) (env_key : string) : M Host anyhow EncryptedCryptoBlob :=
  salt ← getrandom Failed 16;
  key ← or_fail (derive_key_from_env env_key salt);
  nonce_bytes ← getrandom Failed 12;
  _ ← io_call Failed;
  ciphertext ← or_fail (chacha_encrypt key nonce_bytes (to_vec c));
  mret {| salt := hex_encode salt; nonce := hex_encode nonce_bytes; sealed := hex_encode ciphertext |}.

Definition decrypt_disk_crypto (blob : EncryptedCryptoBlob) (env_key : string) : option DiskCrypto :=
  salt ← hex_decode (salt blob);
  key ← derive_key_from_env env_key salt;
  nonce_bytes ← hex_decode (nonce blob);
  if negb (blen nonce_bytes =? 12) then None
  else
    ciphertext ← hex_decode (sealed blob);
    plaintext ← chacha_decrypt key nonce_bytes ciphertext;
    from_slice plaintext.

(** [0o600]. *)
Definition private_mode : Z := 6 * 8 * 8.

Definition key_path (data_dir : string) : string := join data_dir "relay-key".

(** A variable that is set and not empty. *)
Definition nonempty_var (h : Host) (key : string) : option string :=
  match var h key with
  | Some k => if bool_decide (k = EmptyString) then None else Some k
  | None => None
  end.

Definition generate_key (data_dir : string) : M Host anyhow string :=
  raw ← getrandom Failed 32;
  let secret := hex_encode raw in
  _ ← open_truncate Failed private_mode (key_path data_dir);
  _ ← write_all Failed (key_path data_dir) (as_bytes secret);
  _ ← sync_all Failed;
  mret secret.

Definition relay_encryption_key (data_dir : string) : M Host anyhow string :=
  h ← get;
  match nonempty_var h "AXENO_KEY" with
  | Some k => mret k
  | None =>
      match nonempty_var h "AXENO_KEY_FILE" with
      | Some path =>
          raw ← read_to_string Failed path;
          let secret := trim raw in
          if bool_decide (secret = EmptyString) then throw Failed else mret secret
      | None =>
          existing ← attempt (read_to_string Failed (key_path data_dir));
          match existing with
          | inr text =>
              let trimmed := trim text in
              if bool_decide (trimmed = EmptyString) then generate_key data_dir else mret trimmed
          | inl _ => generate_key data_dir
          end
      end
  end.

(** ** Loading and saving *)

Definition disk_state_path (data_dir : string) : string := join data_dir "relay-state.json".

Definition load_disk_state (data_dir : string) : M Host anyhow DiskState :=
  let path := disk_state_path data_dir in
  there ← path_exists path;
  if negb there then mret default_state
  else
    raw ← fs_read Failed path;
    state ← or_fail (from_slice raw);
    match encrypted_crypto state with
    | Some blob =>
        env_key ← relay_encryption_key data_dir;
        c ← or_fail (decrypt_disk_crypto blob env_key);
        mret (set_crypto (Some c) state)
    | None => mret state
    end.

(** The temporary file beside the state file; [u] is a fresh identifier. *)
Definition tmp_path (data_dir : string) (u : Uuid) : string :=
  join data_dir ("relay-state.json." +:+ uuid_string u +:+ ".tmp").

Definition save_disk_state (data_dir : string) (u : Uuid) (state : DiskState) : M Host anyhow () :=
  let path := disk_state_path data_dir in
  let tmp := tmp_path data_dir u in
  _ ← io_call Failed;
  let raw := to_vec state in
  _ ← create_new Failed private_mode tmp;
  _ ← write_all Failed tmp raw;
  _ ← sync_all Failed;
  renamed ← attempt (rename Failed tmp path);
  match renamed with
  | inl e =>
      _ ← attempt (remove_file Failed tmp);
      throw e
  | inr _ =>
      (* the directory is opened and synced, if it can be *)
      _ ← attempt (_ ← io_call Failed; sync_all Failed);
      mret tt
  end.

Definition prune_disk_state (disk : DiskState) : M Host anyhow DiskState :=
  now ← now_ms;
  mret {| crypto := crypto disk;
          encrypted_crypto := encrypted_crypto disk;
          mailbox_auth := (λ '(rid, auth), (rid,
            if bool_decide (delivery_token_hashes auth = []) && negb (bool_decide (delivery_token_hash auth = EmptyString))
            then {| receive_auth_hash := receive_auth_hash auth; delivery_token_hash := delivery_token_hash auth;
                    delivery_token_hashes := [delivery_token_hash auth]; last_active_ms := last_active_ms auth |}
            else auth)) <$> mailbox_auth disk;
          queues := queues disk;
          bundles := filter (λ b, now < bundle_expires_at_ms b) (bundles disk) |}.

Definition persist_crypto (data_dir : string) (u : Uuid) (disk_crypto : DiskCrypto) : M Host anyhow () :=
  env_key ← relay_encryption_key data_dir;
  blob ← encrypt_disk_crypto disk_crypto env_key;
  save_disk_state data_dir u
    {| crypto := None; encrypted_crypto := Some blob; mailbox_auth := []; queues := []; bundles := [] |}.
End Persistence.
