(* ===== verification/PersistenceFacts.v ===== *)
(** The calls of [persistence.rs], run symbolically.

    [key_of] is the at-rest secret that stands, if there is one; [opens] says
    that an encrypted blob holds given keys under it. *)
From Stdlib Require Import ZArith Lia Ascii String.
From stdpp Require Import base gmap strings list.
From S2P Require Import Prelude Redb RustStd Config Util Host Protocol Mailbox Signal Persistence.

Section Facts.
Context {UL : UuidLib} {LS : LibSignal} {SK : SigningKeys} {B6 : Base64}.
Context {HA : Hashing} {HX : HexDecode} {CI : Cipher}.
Context {SC : Serde DiskCrypto} {SD : Serde DiskState}.
Implicit Types (h : Host) (i : io) (dd : string) (u : Uuid).

(** ** Paths *)

Lemma state_not_key dd : disk_state_path dd ≠ key_path dd.
Proof. by intros ?%join_inj. Qed.

Lemma state_not_tmp dd u : disk_state_path dd ≠ tmp_path dd u.
Proof.
  intros H%join_inj%(f_equal String.length). revert H. generalize (uuid_string u). intros s.
  rewrite !str_length_app. simpl. lia.
Qed.

Lemma key_not_tmp dd u : key_path dd ≠ tmp_path dd u.
Proof. by intros ?%join_inj. Qed.

(** ** The at-rest secret *)

(** The trimmed text of a file, if it is readable and not blank. *)
Definition secret_in h (path : string) : option string :=
  t ← readable h path; if bool_decide (trim t = EmptyString) then None else Some (trim t).

Definition key_of h dd : option string :=
  match nonempty_var h "AXENO_KEY" with
  | Some k => Some k
  | None =>
      match nonempty_var h "AXENO_KEY_FILE" with
      | Some path => secret_in h path
      | None => secret_in h (key_path dd)
      end
  end.

(** The secret comes from the local key file, nothing else being configured. *)
Definition local_key h : Prop := nonempty_var h "AXENO_KEY" = None ∧ nonempty_var h "AXENO_KEY_FILE" = None.

Lemma hex_plain b : str_forallb plain (hex_encode b) = true.
Proof.
  eapply str_forallb_impl; [|apply hex_encode_digits].
  intros [[] [] [] [] [] [] [] []]; vm_compute; congruence.
Qed.

Lemma readable_fs h path f t : fs h !! path = Some f → from_utf8 (content f) = Some t → readable h path = Some t.
Proof. intros H1 H2. unfold readable. by rewrite H1. Qed.

Lemma secret_in_hex h path f b :
  fs h !! path = Some f → content f = as_bytes (hex_encode b) → b ≠ [] → secret_in h path = Some (hex_encode b).
Proof.
  intros Hf Hc Hb. unfold secret_in.
  rewrite (readable_fs h path f (hex_encode b)); [|done|rewrite Hc; apply from_utf8_plain, hex_plain]. simpl.
  rewrite (trim_all_plain (hex_encode b)) by apply hex_plain.
  rewrite bool_decide_eq_false_2; [done|]. intros He%(f_equal String.length).
  rewrite hex_encode_length in He. by destruct b.
Qed.

Lemma key_of_local h dd : local_key h → key_of h dd = secret_in h (key_path dd).
Proof. intros [H1 H2]. unfold key_of. by rewrite H1, H2. Qed.

(** A freshly generated secret is in the key file, readable by its owner only
    unless the file was there already. *)
Lemma generate_key_wp i0 dd h i :
  io_step i0 i → local_key h →
  wp (generate_key dd) (λ r h' i', io_step i0 i' ∧ environ h' = environ h
    ∧ (∀ p, p ≠ key_path dd → fs h' !! p = fs h !! p)
    ∧ match r with
      | inr k => key_of h' dd = Some k ∧ String.length k = 64%nat
          ∧ ∃ f, fs h' !! key_path dd = Some f ∧ content f = as_bytes k
              ∧ mode f = match fs h !! key_path dd with Some f0 => mode f0 | None => private_mode end
      | inl _ => ¬ quiet i0
      end) h i.
Proof.
  intros Hi Hl. unfold generate_key. wp_step. apply (wp_getrandom i0); [done|..]; cbn beta iota.
  2:{ intros i' Hi' Hq. by split_and!. }
  intros raw r i1 Hi1 Hraw. cbv zeta. wp_step. apply (wp_open_truncate i0); [done|..]; cbn beta iota.
  2:{ intros i' Hi' Hq. by split_and!. }
  intros i2 Hi2. wp_step. apply (wp_write_all i0); [done|..]; cbn beta iota.
  2:{ intros n t i' Hi' Hq. split_and!; [done|done| |done]. intros p Hp. simpl.
      by rewrite lookup_alter_ne, lookup_insert_ne by done. }
  intros i3 Hi3. wp_step.
  assert (fs (append (key_path dd) (as_bytes (hex_encode raw)) (opened_truncated private_mode (key_path dd) (set_random r h)))
            !! key_path dd
          = Some {| content := as_bytes (hex_encode raw);
                    mode := match fs h !! key_path dd with Some f0 => mode f0 | None => private_mode end |}) as Hf.
  { simpl. by rewrite lookup_alter_eq, lookup_insert_eq. }
  unfold sync_all. wp_io ltac:(split_and!; [done|done| |done]; intros p Hp; simpl;
    by rewrite lookup_alter_ne, lookup_insert_ne by done).
  wp_steps. split_and!; [done|done|..].
  - intros p Hp. simpl. by rewrite lookup_alter_ne, lookup_insert_ne by done.
  - rewrite key_of_local by done. eapply secret_in_hex; [exact Hf|done|]. by intros ->.
  - rewrite hex_encode_length, Hraw. done.
  - eexists. split; [exact Hf|done].
Qed.

(** A new secret [k] is in the local key file. *)
Definition new_key h dd h' (k : string) : Prop :=
  key_of h' dd = Some k ∧ String.length k = 64%nat
  ∧ ∃ f, fs h' !! key_path dd = Some f ∧ content f = as_bytes k
      ∧ mode f = match fs h !! key_path dd with Some f0 => mode f0 | None => private_mode end.

(** The secret that stands is returned and nothing changes; a new one is made
    only for the local key file, when it does not stand or could not be read. *)
Definition key_post i0 dd h (r : anyhow + string) h' i' : Prop :=
  io_step i0 i' ∧ environ h' = environ h ∧ (∀ p, p ≠ key_path dd → fs h' !! p = fs h !! p)
  ∧ match r with
    | inr k => (key_of h dd = Some k ∧ h' = h)
        ∨ (local_key h ∧ (key_of h dd = None ∨ ¬ quiet i0) ∧ new_key h dd h' k)
    | inl _ => ¬ quiet i0 ∨ (key_of h dd = None ∧ ¬ local_key h ∧ h' = h)
    end.

Lemma generate_key_post i0 dd h i :
  io_step i0 i → local_key h → key_of h dd = None ∨ ¬ quiet i0 → wp (generate_key dd) (key_post i0 dd h) h i.
Proof.
  intros Hi Hl Hno. eapply wp_conseq; [by apply (generate_key_wp i0)|]. cbn beta.
  intros [e|k] h' i'' (H1 & H2 & H3 & H4); (split; [done|split; [done|split; [done|]]]); [by left|by right].
Qed.

Lemma relay_encryption_key_wp i0 dd h i :
  io_step i0 i → wp (relay_encryption_key dd) (key_post i0 dd h) h i.
Proof.
  intros Hi. unfold relay_encryption_key. do 2 wp_step.
  pose proof (λ i' H, generate_key_post i0 dd h i' H) as Hgen. unfold key_post, key_of, local_key in *.
  destruct (nonempty_var h "AXENO_KEY") as [k|]; [wp_steps; split_and!; try done; by left|].
  destruct (nonempty_var h "AXENO_KEY_FILE") as [path|].
  - wp_step. apply (wp_read_to_string i0); [done|..]; cbn beta iota zeta; unfold secret_in.
    + intros t i' Hi' ->. simpl. case_bool_decide as Hb; wp_steps; split_and!; try done; [|by left].
      right. by split_and!; [|intros [_ ?]|].
    + intros i' Hi' [?|Hr]; split_and!; try done; [by left|right]. rewrite Hr.
      by split_and!; [|intros [_ ?]|].
  - do 2 wp_step. apply (wp_read_to_string i0); [done|..]; cbn beta iota zeta; unfold secret_in in *.
    + intros t i' Hi' Ht. rewrite Ht in *. simpl in *. case_bool_decide as Hb; [by apply Hgen; [| |left]|].
      wp_steps. split_and!; try done. by left.
    + intros i' Hi' [?|Hr]; (apply Hgen; [done|done|]); [by right|left]. by rewrite Hr.
Qed.

(** ** Encryption *)

(** [blob] holds [c] under the secret [k]. *)
Definition opens (blob : EncryptedCryptoBlob) (k : string) (c : DiskCrypto) : Prop :=
  decrypt_disk_crypto blob k = Some c.

(** Argon2 takes any secret with a salt of 16 bytes, and the cipher any text. *)
Definition seals : Prop :=
  (∀ secret s, length s = 16%nat → is_Some (argon2_hash secret s)) ∧ ∀ key n p, is_Some (chacha_encrypt key n p).

Lemma encrypt_wp i0 c k h i :
  io_step i0 i →
  wp (encrypt_disk_crypto c k) (λ r h' i', io_step i0 i' ∧ fs h' = fs h ∧ environ h' = environ h
    ∧ match r with inr blob => opens blob k c | inl _ => ¬ quiet i0 ∨ ¬ seals end) h i.
Proof.
  intros Hi. unfold encrypt_disk_crypto. wp_step. apply (wp_getrandom i0); [done|..]; cbn beta iota; [|intros i' Hi' Hq; split_and!; auto].
  intros s r1 i1 Hi1 Hsalt. wp_step. unfold or_fail at 1. destruct (derive_key_from_env k s) as [key|] eqn:Hk.
  2:{ wp_steps. split_and!; try done. right. intros [Ha _]. destruct (Ha (as_bytes k) s Hsalt) as [? H]. unfold derive_key_from_env in Hk. congruence. }
  do 2 wp_step. apply (wp_getrandom i0); [done|..]; cbn beta iota; [|intros i' Hi' Hq; split_and!; auto].
  intros n r2 i2 Hi2 Hn. wp_step. wp_io ltac:(split_and!; auto). wp_step. unfold or_fail.
  destruct (chacha_encrypt key n (to_vec c)) as [sealed_bytes|] eqn:Hs.
  2:{ wp_steps. split_and!; try done. right. intros [_ Ha]. destruct (Ha key n (to_vec c)). congruence. }
  wp_steps. split_and!; [done..|]. unfold opens, decrypt_disk_crypto. simpl.
  unfold derive_key_from_env in *. rewrite !hex_decode_encode. simpl. rewrite Hk. simpl.
  unfold blen. rewrite Hn. simpl.
  rewrite (chacha_decrypt_encrypt _ _ _ _ Hs). simpl. apply from_slice_to_vec.
Qed.

(** ** The state file *)

(** Saving replaces the state file as a whole, or leaves it as it was. *)
Lemma save_wp i0 dd u d h i :
  io_step i0 i →
  wp (save_disk_state dd u d) (λ r h' i', io_step i0 i' ∧ environ h' = environ h
    ∧ match r with
      | inr _ => fs h' = <[disk_state_path dd := {| content := to_vec d; mode := private_mode |}]> (fs h)
      | inl _ => (∀ p, p ≠ tmp_path dd u → fs h' !! p = fs h !! p)
          ∧ (is_Some (fs h !! tmp_path dd u) → fs h' = fs h) ∧ (¬ quiet i0 ∨ is_Some (fs h !! tmp_path dd u))
      end) h i.
Proof.
  intros Hi. unfold save_disk_state. wp_step. wp_io ltac:(split_and!; try done; by left). cbv zeta.
  wp_step. apply (wp_create_new i0); [done|..]; cbn beta iota; [|intros i' Hi' Hq; by split_and!].
  intros j1 Hj1 Hnone.
  assert (∀ (f : File → File) g p, p ≠ tmp_path dd u →
    alter f (tmp_path dd u) (<[tmp_path dd u := g]> (fs h)) !! p = fs h !! p) as Hp.
  { intros f g p Hp. by rewrite lookup_alter_ne, lookup_insert_ne by done. }
  assert (¬ is_Some (fs h !! tmp_path dd u)) as Hex by (rewrite Hnone; by intros [? ?]).
  wp_step. apply (wp_write_all i0); [done|..]; cbn beta iota; simpl.
  2:{ intros n t i' Hi' Hq. split_and!; try done; first [by left | by apply Hp]. }
  intros j2 Hj2. wp_step. unfold sync_all at 1.
  wp_io ltac:(split_and!; try done; first [by left | by apply Hp]).
  wp_step. wp_step. eapply (wp_rename i0); [done| |..]; cbn beta iota; simpl.
  { rewrite lookup_alter_eq, lookup_insert_eq. reflexivity. }
  - intros j3 Hj3.
    assert (∀ h' i', io_step i0 i' → fs h' = <[disk_state_path dd := {| content := to_vec d; mode := private_mode |}]> (fs h) →
      environ h' = environ h → wp (E := anyhow) (_ ← attempt (E := anyhow) (_ ← io_call Failed; sync_all Failed); mret tt)
      (λ r h' i', io_step i0 i' ∧ environ h' = environ h ∧ match r with
        | inr _ => fs h' = <[disk_state_path dd := {| content := to_vec d; mode := private_mode |}]> (fs h)
        | inl _ => (∀ p, p ≠ tmp_path dd u → fs h' !! p = fs h !! p)
          ∧ (is_Some (fs h !! tmp_path dd u) → fs h' = fs h) ∧ (¬ quiet i0 ∨ is_Some (fs h !! tmp_path dd u))
        end) h' i') as Hend.
    { clear -Hi. intros h' i' Hi' Hf He. do 2 wp_step. wp_step. wp_io ltac:(by wp_steps). unfold sync_all.
      wp_io ltac:(by wp_steps). by wp_steps. }
    apply Hend; [done| |done]. simpl. rewrite alter_insert_eq, delete_insert_id by done. done.
  - intros j3 Hj3 Hq. do 2 wp_step. apply (wp_remove_file i0); [done|..]; cbn beta iota; simpl.
    + intros i' Hi'. wp_steps. split_and!; try done; [|by left].
      intros p Hne. simpl. rewrite lookup_delete_ne by done. by apply Hp.
    + intros i' Hi' _. wp_steps. split_and!; try done; first [by left | by apply Hp].
Qed.
(** What [persist_crypto] writes. *)
Definition keys_file (blob : EncryptedCryptoBlob) : DiskState :=
  {| crypto := None; encrypted_crypto := Some blob; mailbox_auth := []; queues := []; bundles := [] |}.

(** The secret is not configured to be the state file itself. *)
Definition key_elsewhere h dd : Prop := nonempty_var h "AXENO_KEY_FILE" ≠ Some (disk_state_path dd).

Lemma key_of_ext h h' dd :
  environ h' = environ h → key_elsewhere h dd →
  (∀ p, p ≠ disk_state_path dd → fs h' !! p = fs h !! p) → key_of h' dd = key_of h dd.
Proof.
  intros He Hk Hf. unfold key_of, key_elsewhere in *.
  assert (∀ v, nonempty_var h' v = nonempty_var h v) as Hv by (intros v; unfold nonempty_var, var; by rewrite He).
  rewrite !Hv. destruct (nonempty_var h "AXENO_KEY"); [done|].
  assert (∀ p, p ≠ disk_state_path dd → secret_in h' p = secret_in h p) as Hs.
  { intros p Hp. unfold secret_in, readable. by rewrite Hf. }
  destruct (nonempty_var h "AXENO_KEY_FILE") as [path|]; apply Hs; [congruence|].
  by intros ?%eq_sym%state_not_key.
Qed.

(** The keys are written encrypted only, under the secret that stands. *)
Lemma persist_wp i0 dd u c h i :
  io_step i0 i → key_elsewhere h dd →
  wp (persist_crypto dd u c) (λ r h' i', io_step i0 i' ∧ environ h' = environ h
    ∧ match r with
      | inr _ => (∀ p, p ≠ disk_state_path dd → p ≠ key_path dd → fs h' !! p = fs h !! p)
          ∧ ∃ blob k, fs h' !! disk_state_path dd = Some {| content := to_vec (keys_file blob); mode := private_mode |}
              ∧ opens blob k c ∧ key_of h' dd = Some k ∧ (quiet i0 → ∀ k', key_of h dd = Some k' → k = k')
      | inl _ => (∀ p, p ≠ tmp_path dd u → p ≠ key_path dd → fs h' !! p = fs h !! p)
          ∧ (¬ quiet i0 ∨ ¬ seals ∨ is_Some (fs h !! tmp_path dd u) ∨ (key_of h dd = None ∧ ¬ local_key h))
      end) h i.
Proof.
  intros Hi Hk. unfold persist_crypto. wp_step. eapply wp_conseq; [by apply (relay_encryption_key_wp i0)|].
  cbn beta. intros [e|k] h1 i1 (Hi1 & He1 & Hf1 & Hr).
  { split_and!; auto. destruct Hr as [?|(? & ? & _)]; auto. }
  assert (key_of h1 dd = Some k) as Hkey by (by destruct Hr as [[? ->]|(_ & _ & ? & _)]).
  wp_step. eapply wp_conseq; [by apply (encrypt_wp i0)|].
  cbn beta. intros [e|blob] h2 i2 (Hi2 & Hf2 & He2 & Hopen); (assert (environ h2 = environ h) as He by congruence).
  { split_and!; try done; [|destruct Hopen; auto]. intros p _ Hp. rewrite Hf2. by apply Hf1. }
  eapply wp_conseq; [by apply (save_wp i0)|]. cbn beta.
  intros [e|[]] h3 i3 (Hi3 & He3 & Hsave); (split; [done|split; [congruence|]]).
  - destruct Hsave as (Hp & _ & Hno). split.
    + intros p Hpt Hpk. rewrite Hp by done. rewrite Hf2. by apply Hf1.
    + destruct Hno as [?|Ht]; [by left|]. rewrite Hf2, Hf1 in Ht by (apply not_eq_sym, key_not_tmp). auto.
  - rewrite Hsave, Hf2. split.
    + intros p Hps Hpk. rewrite lookup_insert_ne by done. by apply Hf1.
    + exists blob, k. rewrite lookup_insert_eq. split_and!; [done|done| |].
      * rewrite <- Hkey. apply key_of_ext; [congruence| |].
        -- unfold key_elsewhere, nonempty_var, var in *. by rewrite He1.
        -- intros p Hp. by rewrite Hsave, Hf2, lookup_insert_ne.
      * intros Hq k' Hk'. destruct Hr as [[Hk0 _]|(_ & [Hk0|?] & _)]; [|congruence|done]. rewrite Hk0 in Hk'. by simplify_eq.
Qed.

(** What loading changes, and where its result comes from. *)
Lemma load_wp i0 dd h i :
  io_step i0 i →
  wp (load_disk_state dd) (λ r h' i', io_step i0 i' ∧ environ h' = environ h
    ∧ (∀ p, p ≠ key_path dd → fs h' !! p = fs h !! p)
    ∧ ∀ d, r = inr d →
        (d = default_state ∧ (fs h !! disk_state_path dd = None ∨ hd false (io_fail i) = true))
        ∨ ∃ f d0, fs h !! disk_state_path dd = Some f ∧ from_slice (content f) = Some d0
            ∧ match encrypted_crypto d0 with
              | Some blob => ∃ c k, d = set_crypto (Some c) d0 ∧ opens blob k c
                  ∧ (key_of h dd = Some k ∨ local_key h ∧ (key_of h dd = None ∨ ¬ quiet i0))
              | None => d = d0
              end) h i.
Proof.
  intros Hi. unfold load_disk_state. cbv zeta. wp_step. apply (wp_path_exists i0); [done|]. cbn beta iota.
  intros b i1 Hi1 Hb Hqb. destruct b; cbn [negb].
  2:{ wp_steps. split_and!; try done. intros d [= <-]. left. split; [done|].
      destruct (fs h !! disk_state_path dd) eqn:Hf; [right|by left].
      destruct (hd false (io_fail i)); [done|]. specialize (Hqb eq_refl). symmetry in Hqb.
      apply bool_decide_eq_false in Hqb. destruct Hqb. by eexists. }
  wp_step. apply (wp_fs_read i0); [done|..]; cbn beta iota; [|intros i' Hi' _; by split_and!].
  intros f i2 Hi2 Hf. wp_step. unfold or_fail at 1. destruct (from_slice (content f)) as [d0|] eqn:Hd; wp_step; [|by split_and!].
  destruct (encrypted_crypto d0) as [blob|] eqn:Hbl.
  2:{ wp_steps. split_and!; try done. intros d [= <-]. right. exists f, d0. by rewrite Hbl. }
  wp_step. eapply wp_conseq; [by apply (relay_encryption_key_wp i0)|]. cbn beta.
  intros [e|k] h1 i3 (Hi3 & He3 & Hf3 & Hr); [split_and!; try done|].
  wp_step. unfold or_fail. destruct (decrypt_disk_crypto blob k) as [c|] eqn:Hc; wp_steps; [|by split_and!].
  split_and!; try done. intros d [= <-]. right. exists f, d0. rewrite Hbl. split_and!; try done.
  exists c, k. split_and!; [done|done|]. by destruct Hr as [[? _]|(? & ? & _)]; [left|right].
Qed.

(** On a machine where no call fails, a state file with keys under the secret
    that stands is loaded, and nothing changes. *)
Lemma load_quiet_wp i0 dd h i f d0 blob k c :
  io_step i0 i → quiet i0 → fs h !! disk_state_path dd = Some f → from_slice (content f) = Some d0 →
  encrypted_crypto d0 = Some blob → key_of h dd = Some k → opens blob k c →
  wp (load_disk_state dd) (λ r h' i', io_step i0 i' ∧ h' = h ∧ r = inr (set_crypto (Some c) d0)) h i.
Proof.
  intros Hi Hq Hf Hd Hbl Hk Hc. unfold load_disk_state. cbv zeta. wp_step.
  apply (wp_path_exists i0); [done|]. cbn beta iota. intros b i1 Hi1 _ Hb.
  rewrite Hb, bool_decide_eq_true_2 by (by eapply quiet_hd || by eexists). cbn [negb].
  wp_step. apply (wp_fs_read i0); [done|..]; cbn beta iota.
  2:{ intros i' Hi' [?|?]; [done|congruence]. }
  intros f' i2 Hi2 Hf'. rewrite Hf in Hf'. injection Hf' as <-. wp_step. rewrite Hd. unfold or_fail at 1. wp_step.
  rewrite Hbl. wp_step. eapply wp_conseq; [by apply (relay_encryption_key_wp i0)|]. cbn beta.
  intros [e|k'] h1 i3 (Hi3 & _ & _ & Hr); [exfalso; destruct Hr as [?|[? _]]; [done|congruence]|].
  destruct Hr as [[Hk' ->]|(_ & [Hk'|?] & _)]; [|congruence|done]. rewrite Hk in Hk'. injection Hk' as <-.
  wp_step. unfold or_fail. unfold opens in Hc. rewrite Hc. wp_steps. by split_and!.
Qed.

(** ** The keys *)

(** The public identity and the signing key that [c] stands for. *)
Definition identity (c : DiskCrypto) (sc : ServerCrypto) : Prop :=
  ∃ root signing, keypair_from (trust_root_public c) (trust_root_private c) = Some root
    ∧ keypair_from (server_signing_public c) (server_signing_private_bytes c) = Some signing
    ∧ trust_root_public_b64 sc = b64_encode (public_key_serialize root.1)
    ∧ server_signing_private sc = signing.2
    ∧ ∃ rng, server_certificate_new 1 signing.1 root.2 rng = Some (server_certificate sc).

Lemma identity_unique c sc sc' :
  identity c sc → identity c sc' →
  trust_root_public_b64 sc' = trust_root_public_b64 sc ∧ server_signing_private sc' = server_signing_private sc.
Proof.
  intros (r & s & Hr & Hs & H1 & H2 & _) (r' & s' & Hr' & Hs' & H1' & H2' & _). rewrite Hr in Hr'. rewrite Hs in Hs'.
  simplify_eq. by rewrite H1, H1', H2, H2'.
Qed.

(** Any key pair certifies any key. *)
Definition certifies : Prop := ∀ pub priv rng, is_Some (server_certificate_new 1 pub priv rng).

(** Saved keys that libsignal reads back. *)
Definition usable (o : option DiskCrypto) : Prop :=
  match o with
  | Some c => is_Some (keypair_from (trust_root_public c) (trust_root_private c))
              ∧ is_Some (keypair_from (server_signing_public c) (server_signing_private_bytes c))
  | None => True
  end.

(** Saved keys are taken as they are; without them a new pair of keys is made
    and recorded. *)
Lemma init_wp i0 d h i :
  io_step i0 i →
  wp (init_server_crypto d) (λ r h' i', io_step i0 i' ∧ fs h' = fs h ∧ environ h' = environ h
    ∧ match r with
      | inr (sc, d') => ∃ c, d' = set_crypto (Some c) d ∧ identity c sc ∧ (crypto d = None ∨ crypto d = Some c)
      | inl _ => ¬ quiet i0 ∨ ¬ usable (crypto d) ∨ ¬ certifies
      end) h i.
Proof.
  intros Hi. unfold init_server_crypto, fresh_rng. do 2 wp_step.
  apply (wp_getrandom i0); [done|..]; cbn beta iota; [|intros i' Hi' Hq; split_and!; auto].
  intros seed r i1 Hi1 _. wp_steps. unfold certifies, usable. destruct (crypto d) as [c|] eqn:Hd.
  - wp_step. unfold or_fail. destruct (keypair_from (trust_root_public c) _) as [root|] eqn:Hr; wp_step.
    2:{ split_and!; try done. right. left. by intros [[? ?] _]. }
    destruct (keypair_from (server_signing_public c) _) as [signing|] eqn:Hs; do 2 wp_step.
    2:{ split_and!; try done. right. left. by intros [_ [? ?]]. }
    wp_step. destruct (server_certificate_new 1 signing.1 root.2 _) as [cert|] eqn:Hc; wp_steps.
    2:{ split_and!; try done. right. right. intros Ha. eapply eq_None_not_Some; [exact Hc|apply Ha]. }
    split_and!; try done. exists c. split; [destruct d; simpl in *; by subst|]. split; [|by right].
    exists root, signing. split_and!; try done. by eexists.
  - destruct (keypair_generate (rng_from_seed seed)) as [root rng1]. destruct (keypair_generate rng1) as [signing rng2].
    wp_steps. unfold or_fail.
    destruct (server_certificate_new 1 signing.1 root.2 rng2) as [cert|] eqn:Hc; wp_steps.
    2:{ split_and!; try done. right. right. intros Ha. eapply eq_None_not_Some; [exact Hc|apply Ha]. }
    split_and!; try done. eexists. split; [done|]. split; [|by left].
    exists root, signing. simpl. destruct root, signing. rewrite !keypair_from_serialize. split_and!; try done. by eexists.
Qed.
End Facts.
