(* ===== verification/State.v ===== *)
(** [state.rs]: the relay's shared state and the operations on it.

    [AppState] is the struct of the same name: the three durable stores, the RAM
    caches in front of the mailbox and bundle tables with their dirty sets, the
    routing table of live sockets, and the counters.  One definition per method;
    the garbage collection is split where other operations may run between its
    snapshot and its removals. *)
From Stdlib Require Import ZArith Lia Ascii String.
From stdpp Require Import base gmap strings list.
From S2P Require Import Prelude Redb RustStd Config Util Protocol Mailbox Signal.
From S2P Require QueueStore.
From S2P Require FileStore.
From S2P Require MetaStore.

Abbreviation QueueStore := QueueStore.QueueStore.
Abbreviation MetaStore := MetaStore.MetaStore.
Abbreviation FileStore := FileStore.FileStore.

Section State.
Context {RD : Redb} {UL : UuidLib} {LS : LibSignal}.
Context {SV : Serde QueueStore.StoredValue} {SM : Serde FileStore.FileMeta}.
Context {SA : Serde MailboxAuth} {SB : Serde HostedBundle}.

Record AppState := {
  queues : QueueStore;
  meta_store : MetaStore;
  files : FileStore;
  file_config : FileConfig;
  online : gmap RecipientId ClientTx;
  mailbox_auth : gmap RecipientId MailboxAuth;
  mailbox_count : Z;
  bundles : gmap string HostedBundle;
  total_bundle_bytes : Z;
  send_rate : gmap RecipientId (Z * Z);
  crypto : ServerCrypto;
  dirty_auth : gset RecipientId;
  dirty_bundles : gset string;
  conn_count : Z;
  last_bundle_prune_ms : Z;
}.

Definition set_queues (x : QueueStore) (s : AppState) : AppState :=
  {| queues := x; meta_store := meta_store s; files := files s; file_config := file_config s; online
     := online s; mailbox_auth := mailbox_auth s; mailbox_count := mailbox_count s; bundles :=
     bundles s; total_bundle_bytes := total_bundle_bytes s; send_rate := send_rate s; crypto :=
     crypto s; dirty_auth := dirty_auth s; dirty_bundles := dirty_bundles s; conn_count :=
     conn_count s; last_bundle_prune_ms := last_bundle_prune_ms s |}.

Definition set_meta_store (x : MetaStore) (s : AppState) : AppState :=
  {| queues := queues s; meta_store := x; files := files s; file_config := file_config s; online :=
     online s; mailbox_auth := mailbox_auth s; mailbox_count := mailbox_count s; bundles := bundles
     s; total_bundle_bytes := total_bundle_bytes s; send_rate := send_rate s; crypto := crypto s;
     dirty_auth := dirty_auth s; dirty_bundles := dirty_bundles s; conn_count := conn_count s;
     last_bundle_prune_ms := last_bundle_prune_ms s |}.

Definition set_files (x : FileStore) (s : AppState) : AppState :=
  {| queues := queues s; meta_store := meta_store s; files := x; file_config := file_config s;
     online := online s; mailbox_auth := mailbox_auth s; mailbox_count := mailbox_count s; bundles
     := bundles s; total_bundle_bytes := total_bundle_bytes s; send_rate := send_rate s; crypto :=
     crypto s; dirty_auth := dirty_auth s; dirty_bundles := dirty_bundles s; conn_count :=
     conn_count s; last_bundle_prune_ms := last_bundle_prune_ms s |}.

Definition set_online (x : gmap RecipientId ClientTx) (s : AppState) : AppState :=
  {| queues := queues s; meta_store := meta_store s; files := files s; file_config := file_config s;
     online := x; mailbox_auth := mailbox_auth s; mailbox_count := mailbox_count s; bundles :=
     bundles s; total_bundle_bytes := total_bundle_bytes s; send_rate := send_rate s; crypto :=
     crypto s; dirty_auth := dirty_auth s; dirty_bundles := dirty_bundles s; conn_count :=
     conn_count s; last_bundle_prune_ms := last_bundle_prune_ms s |}.

Definition set_mailbox_auth (x : gmap RecipientId MailboxAuth) (s : AppState) : AppState :=
  {| queues := queues s; meta_store := meta_store s; files := files s; file_config := file_config s;
     online := online s; mailbox_auth := x; mailbox_count := mailbox_count s; bundles := bundles s;
     total_bundle_bytes := total_bundle_bytes s; send_rate := send_rate s; crypto := crypto s;
     dirty_auth := dirty_auth s; dirty_bundles := dirty_bundles s; conn_count := conn_count s;
     last_bundle_prune_ms := last_bundle_prune_ms s |}.

Definition set_mailbox_count (x : Z) (s : AppState) : AppState :=
  {| queues := queues s; meta_store := meta_store s; files := files s; file_config := file_config s;
     online := online s; mailbox_auth := mailbox_auth s; mailbox_count := x; bundles := bundles s;
     total_bundle_bytes := total_bundle_bytes s; send_rate := send_rate s; crypto := crypto s;
     dirty_auth := dirty_auth s; dirty_bundles := dirty_bundles s; conn_count := conn_count s;
     last_bundle_prune_ms := last_bundle_prune_ms s |}.

Definition set_bundles (x : gmap string HostedBundle) (s : AppState) : AppState :=
  {| queues := queues s; meta_store := meta_store s; files := files s; file_config := file_config s;
     online := online s; mailbox_auth := mailbox_auth s; mailbox_count := mailbox_count s; bundles
     := x; total_bundle_bytes := total_bundle_bytes s; send_rate := send_rate s; crypto := crypto s;
     dirty_auth := dirty_auth s; dirty_bundles := dirty_bundles s; conn_count := conn_count s;
     last_bundle_prune_ms := last_bundle_prune_ms s |}.

Definition set_total_bundle_bytes (x : Z) (s : AppState) : AppState :=
  {| queues := queues s; meta_store := meta_store s; files := files s; file_config := file_config s;
     online := online s; mailbox_auth := mailbox_auth s; mailbox_count := mailbox_count s; bundles
     := bundles s; total_bundle_bytes := x; send_rate := send_rate s; crypto := crypto s; dirty_auth
     := dirty_auth s; dirty_bundles := dirty_bundles s; conn_count := conn_count s;
     last_bundle_prune_ms := last_bundle_prune_ms s |}.

Definition set_send_rate (x : gmap RecipientId (Z * Z)) (s : AppState) : AppState :=
  {| queues := queues s; meta_store := meta_store s; files := files s; file_config := file_config s;
     online := online s; mailbox_auth := mailbox_auth s; mailbox_count := mailbox_count s; bundles
     := bundles s; total_bundle_bytes := total_bundle_bytes s; send_rate := x; crypto := crypto s;
     dirty_auth := dirty_auth s; dirty_bundles := dirty_bundles s; conn_count := conn_count s;
     last_bundle_prune_ms := last_bundle_prune_ms s |}.

Definition set_dirty_auth (x : gset RecipientId) (s : AppState) : AppState :=
  {| queues := queues s; meta_store := meta_store s; files := files s; file_config := file_config s;
     online := online s; mailbox_auth := mailbox_auth s; mailbox_count := mailbox_count s; bundles
     := bundles s; total_bundle_bytes := total_bundle_bytes s; send_rate := send_rate s; crypto :=
     crypto s; dirty_auth := x; dirty_bundles := dirty_bundles s; conn_count := conn_count s;
     last_bundle_prune_ms := last_bundle_prune_ms s |}.

Definition set_dirty_bundles (x : gset string) (s : AppState) : AppState :=
  {| queues := queues s; meta_store := meta_store s; files := files s; file_config := file_config s;
     online := online s; mailbox_auth := mailbox_auth s; mailbox_count := mailbox_count s; bundles
     := bundles s; total_bundle_bytes := total_bundle_bytes s; send_rate := send_rate s; crypto :=
     crypto s; dirty_auth := dirty_auth s; dirty_bundles := x; conn_count := conn_count s;
     last_bundle_prune_ms := last_bundle_prune_ms s |}.

Definition set_conn_count (x : Z) (s : AppState) : AppState :=
  {| queues := queues s; meta_store := meta_store s; files := files s; file_config := file_config s;
     online := online s; mailbox_auth := mailbox_auth s; mailbox_count := mailbox_count s; bundles
     := bundles s; total_bundle_bytes := total_bundle_bytes s; send_rate := send_rate s; crypto :=
     crypto s; dirty_auth := dirty_auth s; dirty_bundles := dirty_bundles s; conn_count := x;
     last_bundle_prune_ms := last_bundle_prune_ms s |}.

Definition set_last_bundle_prune_ms (x : Z) (s : AppState) : AppState :=
  {| queues := queues s; meta_store := meta_store s; files := files s; file_config := file_config s;
     online := online s; mailbox_auth := mailbox_auth s; mailbox_count := mailbox_count s; bundles
     := bundles s; total_bundle_bytes := total_bundle_bytes s; send_rate := send_rate s; crypto :=
     crypto s; dirty_auth := dirty_auth s; dirty_bundles := dirty_bundles s; conn_count :=
     conn_count s; last_bundle_prune_ms := x |}.

(** ** Start *)

Definition build (meta : MetaStore) (queues : QueueStore) (files : FileStore) (file_config : FileConfig)
    (crypto : ServerCrypto) : M () anyhow AppState :=
  load_now ← now_activity_ms;
  '(auths, meta) ← with_state meta MetaStore.load_all_auth;
  let mailbox_auth := foldl (λ m '(rid, auth),
    <[rid := if last_active_ms auth =? 0 then touch load_now auth else auth]> m) ∅ auths in
  '(loaded, meta) ← with_state meta MetaStore.load_all_bundles;
  let '(bundles, bundle_bytes) := foldl (λ '(m, bytes) bundle,
    (<[bundle_key bundle := bundle]> m, bytes +^ slen (bundle_ciphertext bundle))) (∅, 0) loaded in
  mret {| queues := queues; meta_store := meta; files := files; file_config := file_config; online := ∅;
          mailbox_auth := mailbox_auth; mailbox_count := Z.of_nat (size mailbox_auth); bundles := bundles;
          total_bundle_bytes := bundle_bytes; send_rate := ∅; crypto := crypto; dirty_auth := ∅;
          dirty_bundles := ∅; conn_count := 0; last_bundle_prune_ms := 0 |}.

(** ** Write-back *)

Definition mark_auth_dirty {E : Type} (rid : string) : M AppState E () :=
  modify (λ s, set_dirty_auth ({[rid]} ∪ dirty_auth s) s).

Definition mark_bundle_dirty {E : Type} (id : string) : M AppState E () :=
  modify (λ s, set_dirty_bundles ({[id]} ∪ dirty_bundles s) s).

Definition take_dirty_auth {E : Type} (keys : list string) : M AppState E (list (string * option MailboxAuth)) :=
  foldM (λ batch k,
    _ ← modify (λ s, set_dirty_auth (dirty_auth s ∖ {[k]}) s);
    s ← get;
    mret (batch ++ [(k, mailbox_auth s !! k)])) [] keys.

Definition take_dirty_bundles {E : Type} (keys : list string) : M AppState E (list (string * option HostedBundle)) :=
  foldM (λ batch k,
    _ ← modify (λ s, set_dirty_bundles (dirty_bundles s ∖ {[k]}) s);
    s ← get;
    mret (batch ++ [(k, bundles s !! k)])) [] keys.

Definition flush_dirty_meta : M AppState anyhow () :=
  s ← get;
  auth_batch ← take_dirty_auth (elements (dirty_auth s));
  _ ← zoom meta_store set_meta_store (MetaStore.flush_auth auth_batch);
  s ← get;
  bundle_batch ← take_dirty_bundles (elements (dirty_bundles s));
  zoom meta_store set_meta_store (MetaStore.flush_bundles bundle_batch).

(** ** Admission *)

Definition reserve_mailbox_slot {E : Type} : M AppState E bool :=
  s ← get;
  let current := mailbox_count s in
  if MAX_MAILBOXES <=? current then mret false
  else
    _ ← put (set_mailbox_count (current +! 1) s);
    mret true.

(** The decision at time [now] from the window's entry: the new entry, and
    whether the send is allowed. *)
Definition rate_step (now : Z) (entry : option (Z * Z)) : (Z * Z) * bool :=
  let '(window_start, count) := default (now, 0) entry in
  if RATE_WINDOW_MS <? now -^ window_start then ((now, 1), true)
  else if MAX_SENDS_PER_DEST_PER_WINDOW <=? count then ((window_start, count), false)
  else ((window_start, wrap32 (count + 1)), true).

Definition allow_dest_send {E : Type} (to : string) : M AppState E bool :=
  now ← now_ms;
  s ← get;
  let '(entry, allowed) := rate_step now (send_rate s !! to) in
  _ ← put (set_send_rate (<[to := entry]> (send_rate s)) s);
  mret allowed.

(** ** Bundles *)

Definition expired_bundles (now : Z) (m : gmap string HostedBundle) : list (string * Z) :=
  (λ kv, (kv.1, slen (bundle_ciphertext kv.2)))
  <$> filter (λ kv, bundle_expires_at_ms kv.2 ≤ now) (map_to_list m).

Definition prune_expired_bundles {E : Type} : M AppState E () :=
  now ← now_ms;
  s ← get;
  let last := last_bundle_prune_ms s in
  if (now -^ last <? BUNDLE_PRUNE_MIN_INTERVAL_MS) && negb (last =? 0) then mret ()
  else
    _ ← put (set_last_bundle_prune_ms now s);
    s ← get;
    match expired_bundles now (bundles s) with
    | [] => mret ()
    | expired =>
        freed ← foldM (λ freed '(id, len),
          s ← get;
          match bundles s !! id with
          | Some _ =>
              _ ← put (set_bundles (delete id (bundles s)) s);
              _ ← mark_bundle_dirty id;
              mret (freed +^ len)
          | None => mret freed
          end) 0 expired;
        modify (λ s, set_total_bundle_bytes (atomic_sub_saturating (total_bundle_bytes s) freed) s)
    end.

(** ** Garbage collection *)

Definition idle (now : Z) (auth : MailboxAuth) : bool := MAILBOX_IDLE_TTL_MS <? now -^ last_active_ms auth.

Definition gc_candidates (now : Z) (m : gmap string MailboxAuth) : list string :=
  (filter (λ kv, Is_true (idle now kv.2)) (map_to_list m)).*1.

Definition contains_online (rid : string) (s : AppState) : bool :=
  match online s !! rid with Some _ => true | None => false end.

(** The snapshot: the time, and the idle mailboxes with an empty queue and no
    live socket. *)
Definition gc_snapshot {E : Type} : M AppState E (Z * list string) :=
  now ← now_ms;
  s ← get;
  stale ← foldM (λ stale rid,
    r ← attempt (zoom queues set_queues (QueueStore.is_empty rid));
    let queue_empty := match r with inr b => b | inl _ => true end in
    s ← get;
    mret (if queue_empty && negb (contains_online rid s) then stale ++ [rid] else stale))
    [] (gc_candidates now (mailbox_auth s));
  mret (now, stale).

(** One removal, with the re-check of [remove_if]. *)
Definition gc_collect_one {E : Type} (now : Z) (rid : string) : M AppState E bool :=
  s ← get;
  let collected :=
    match mailbox_auth s !! rid with
    | Some auth => idle now auth && negb (contains_online rid s)
    | None => false
    end in
  if collected then
    _ ← put (set_mailbox_auth (delete rid (mailbox_auth s)) s);
    _ ← modify (λ s, set_mailbox_count (mailbox_count s -! 1) s);
    _ ← mark_auth_dirty rid;
    _ ← attempt (zoom queues set_queues (QueueStore.purge_mailbox rid));
    _ ← modify (λ s, set_send_rate (delete rid (send_rate s)) s);
    mret true
  else mret false.

Definition gc_collect {E : Type} (now : Z) (stale : list string) : M AppState E Z :=
  foldM (λ removed rid,
    collected ← gc_collect_one now rid;
    mret (if (collected : bool) then removed +! 1 else removed)) 0 stale.

Definition gc_idle_mailboxes {E : Type} : M AppState E Z :=
  '(now, stale) ← gc_snapshot;
  gc_collect now stale.
End State.
