(* ===== verification/Atomics.v ===== *)
(** The retry loops around the relay's shared counters, thread by thread.

    [atomic_sub_saturating] ([util.rs]), [reserve_mailbox_slot] ([state.rs]),
    [reserve_slot], [try_reserve_bytes] and [release_bytes] ([file_store.rs])
    load an atomic counter and swap in a new value if nobody changed it
    meanwhile.  Elsewhere these operations are their effect; here each is a
    thread of single loads and compare-exchanges, and a schedule says which
    thread moves next.  [runs_linearize] gives back the effects, in the order in
    which the threads took them, and [effort_bounded] bounds the retries. *)
From Stdlib Require Import ZArith Lia Ascii String.
From stdpp Require Import base gmap strings list.
From S2P Require Import Prelude Redb RustStd Config Util Protocol Mailbox Signal State.
From S2P Require FileStore.

(** ** Threads *)

(** Where a thread is: before its load, holding the value it read, or returned
    (with [true] for a unit or an [Ok]). *)
Inductive pc :=
  | Loading
  | Holds (cur : Z)
  | Returned (ok : bool).

#[global] Instance pc_eq_dec : EqDecision pc.
Proof. solve_decision. Defined.

(** [compare_exchange] of [cur] with [next]; [spurious] is a failure that
    [compare_exchange_weak] may report although the values agree. *)
Definition compare_exchange (v cur next : Z) (spurious : bool) : bool * Z :=
  if (v =? cur) && negb spurious then (true, next) else (false, v).

(** One step of a thread of each function, from the counter's value [v]. *)
Definition atomic_sub_saturating_step (val : Z) (p : pc) (spurious : bool) (v : Z) : pc * Z :=
  match p with
  | Loading => (Holds v, v)
  | Holds current =>
      match compare_exchange v current (current -^ val) spurious with
      | (true, v') => (Returned true, v')
      | (false, observed) => (Holds observed, observed)
      end
  | Returned _ => (p, v)
  end.

Definition reserve_mailbox_slot_step (p : pc) (v : Z) : pc * Z :=
  match p with
  | Loading => if MAX_MAILBOXES <=? v then (Returned false, v) else (Holds v, v)
  | Holds current =>
      match compare_exchange v current (current +! 1) false with
      | (true, v') => (Returned true, v')
      | (false, v') => (Loading, v')
      end
  | Returned _ => (p, v)
  end.

Definition reserve_slot_step (max_transfers : Z) (p : pc) (v : Z) : pc * Z :=
  match p with
  | Loading => if max_transfers <=? v then (Returned false, v) else (Holds v, v)
  | Holds cur =>
      match compare_exchange v cur (cur +! 1) false with
      | (true, v') => (Returned true, v')
      | (false, v') => (Loading, v')
      end
  | Returned _ => (p, v)
  end.

Definition try_reserve_bytes_step (cap amount : Z) (p : pc) (v : Z) : pc * Z :=
  match p with
  | Loading => if cap <? v +^ amount then (Returned false, v) else (Holds v, v)
  | Holds cur =>
      match compare_exchange v cur (cur +^ amount) false with
      | (true, v') => (Returned true, v')
      | (false, v') => (Loading, v')
      end
  | Returned _ => (p, v)
  end.

Definition release_bytes_step (amount : Z) (p : pc) (spurious : bool) (v : Z) : pc * Z :=
  match p with
  | Loading => (Holds v, v)
  | Holds cur =>
      match compare_exchange v cur (cur -^ amount) spurious with
      | (true, v') => (Returned true, v')
      | (false, observed) => (Holds observed, observed)
      end
  | Returned _ => (p, v)
  end.

(** What a thread may do to a counter; [FetchAdd] and [FetchSub] are single
    instructions. *)
Inductive op :=
  | AtomicSubSaturating (val : Z)
  | ReserveMailboxSlot
  | ReserveSlot (max_transfers : Z)
  | TryReserveBytes (cap amount : Z)
  | ReleaseBytes (amount : Z)
  | FetchAdd (val : Z)
  | FetchSub (val : Z).

Definition thread_step (o : op) (p : pc) (spurious : bool) (v : Z) : pc * Z :=
  match o with
  | AtomicSubSaturating val => atomic_sub_saturating_step val p spurious v
  | ReserveMailboxSlot => reserve_mailbox_slot_step p v
  | ReserveSlot max_transfers => reserve_slot_step max_transfers p v
  | TryReserveBytes cap amount => try_reserve_bytes_step cap amount p v
  | ReleaseBytes amount => release_bytes_step amount p spurious v
  | FetchAdd val => match p with Returned _ => (p, v) | _ => (Returned true, v +! val) end
  | FetchSub val => match p with Returned _ => (p, v) | _ => (Returned true, v -! val) end
  end.

(** A counter and the threads at work on it. *)
Record Machine := {
  counter : Z;
  threads : list (op * pc);
}.

Definition start (v : Z) (ops : list op) : Machine :=
  {| counter := v; threads := (λ o, (o, Loading)) <$> ops |}.

(** A move: which thread runs, and whether its weak exchange fails by itself. *)
Abbreviation move := (nat * bool)%type.

Definition step (m : Machine) (a : move) : Machine :=
  match threads m !! a.1 with
  | Some (o, p) =>
      let '(p', v') := thread_step o p a.2 (counter m) in
      {| counter := v'; threads := <[a.1 := (o, p')]> (threads m) |}
  | None => m
  end.

Definition run (m : Machine) (schedule : list move) : Machine := foldl step m schedule.

(** ** The specification: one indivisible update *)

Definition atomic (o : op) (v : Z) : Z * bool :=
  match o with
  | AtomicSubSaturating val => (atomic_sub_saturating v val, true)
  | ReserveMailboxSlot => if MAX_MAILBOXES <=? v then (v, false) else (v +! 1, true)
  | ReserveSlot max_transfers => if max_transfers <=? v then (v, false) else (v +! 1, true)
  | TryReserveBytes cap amount => if cap <? v +^ amount then (v, false) else (v +^ amount, true)
  | ReleaseBytes amount => (v -^ amount, true)
  | FetchAdd val => (v +! val, true)
  | FetchSub val => (v -! val, true)
  end.

(** The threads [order], one after the other: the counter, and what each
    returned. *)
Fixpoint replay (ops : list op) (order : list nat) (v : Z) : Z * list (nat * bool) :=
  match order with
  | [] => (v, [])
  | k :: rest =>
      match ops !! k with
      | Some o =>
          let '(v', ok) := atomic o v in
          let '(w, results) := replay ops rest v' in (w, (k, ok) :: results)
      | None => replay ops rest v
      end
  end.

Lemma replay_snoc ops order k o v w rs :
  ops !! k = Some o → replay ops order v = (w, rs) →
  replay ops (order ++ [k]) v = ((atomic o w).1, rs ++ [(k, (atomic o w).2)]).
Proof.
  intros Ho. revert v rs. induction order as [|j order IH]; intros v rs; simpl.
  - intros H. simplify_eq. rewrite Ho. by destruct (atomic o w).
  - destruct (ops !! j) as [oj|]; [|apply IH]. destruct (atomic oj v) as [v' ok].
    destruct (replay ops order v') as [w' rs'] eqn:E. intros H. simplify_eq. by rewrite (IH _ _ E).
Qed.

(** What every update keeps, a replay keeps. *)
Lemma replay_keeps (I : Z → Prop) ops order v :
  (∀ o w, o ∈ ops → I w → I (atomic o w).1) → I v → I (replay ops order v).1.
Proof.
  intros HI. revert v. induction order as [|k order IH]; intros v Hv; simpl; [done|].
  destruct (ops !! k) as [o|] eqn:E; [|auto]. apply list_elem_of_lookup_2 in E.
  specialize (HI _ _ E Hv). destruct (atomic o v) as [v' ok]. specialize (IH v' HI).
  destruct (replay ops order v'). exact IH.
Qed.

(** ** Linearization *)

(** A value that is held was accepted when it was read. *)
Definition sound (o : op) (p : pc) : Prop :=
  match p with Holds cur => (atomic o cur).2 = true | _ => True end.

Definition is_returned (p : pc) : bool := match p with Returned _ => true | _ => false end.

(** A step of a thread either leaves the counter alone and does not return, or
    is the whole update, on the value the counter has at that moment. *)
Lemma thread_step_spec o p sp v :
  is_returned p = false → sound o p →
  let '(p', v') := thread_step o p sp v in
  (is_returned p' = false ∧ v' = v ∧ sound o p') ∨ (∃ ok, p' = Returned ok ∧ atomic o v = (v', ok)).
Proof.
  destruct p as [|cur|ok]; intros Hp Hs; [..|done]; destruct o; simpl in *;
    unfold compare_exchange, atomic_sub_saturating in *;
    repeat (match goal with
            | |- context [?a <=? ?b] => destruct (Z.leb_spec a b)
            | |- context [?a <? ?b] => destruct (Z.ltb_spec a b)
            | |- context [?a =? ?b] => destruct (Z.eqb_spec a b) as [->|]
            | |- context [negb sp] => destruct sp
            | H : context [if ?b then _ else _] |- _ => destruct b eqn:?
            end; simpl in *); try done; try lia;
    first [left; by split_and! | right; eexists; by split].
Qed.

(** The machine after the threads named by [results] took their updates, in
    that order. *)
Record linear (ops : list op) (v : Z) (m : Machine) (results : list (nat * bool)) : Prop := {
  lin_ops : (threads m).*1 = ops;
  lin_nodup : NoDup results.*1;
  lin_replay : replay ops results.*1 v = (counter m, results);
  lin_results : ∀ k ok, (k, ok) ∈ results ↔ ∃ o, threads m !! k = Some (o, Returned ok);
  lin_sound : ∀ k o p, threads m !! k = Some (o, p) → sound o p;
}.

Lemma start_loading ops v k o p : threads (start v ops) !! k = Some (o, p) → p = Loading.
Proof. simpl. rewrite list_lookup_fmap. by intros (? & _ & [= -> ->])%fmap_Some. Qed.

Lemma linear_start ops v : linear ops v (start v ops) [].
Proof.
  split; simpl.
  - rewrite <- list_fmap_compose. apply list_fmap_id.
  - constructor.
  - done.
  - intros k ok. rewrite elem_of_nil. split; [done|]. intros (o & H). by apply start_loading in H.
  - intros k o p H. by apply start_loading in H as ->.
Qed.

Section Insert.
Context (l : list (op * pc)) (k : nat) (o : op) (p p' : pc) (Hk : l !! k = Some (o, p)).

Lemma insert_ops : (<[k := (o, p')]> l).*1 = l.*1.
Proof. rewrite list_fmap_insert. apply list_insert_id. by rewrite list_lookup_fmap, Hk. Qed.

Lemma insert_lookup j x : <[k := (o, p')]> l !! j = Some x ↔ (j = k ∧ x = (o, p')) ∨ (j ≠ k ∧ l !! j = Some x).
Proof.
  assert (k < length l)%nat by (by eapply lookup_lt_Some).
  destruct (decide (j = k)) as [->|Hj].
  - rewrite list_lookup_insert_eq by done. split; [intros [= <-]; by left|]. by intros [[_ ->]|[? _]].
  - rewrite list_lookup_insert_ne by done. split; [by right|]. by intros [[? _]|[_ ?]].
Qed.

Lemma insert_returned j ok :
  is_returned p = false →
  (∃ o', <[k := (o, p')]> l !! j = Some (o', Returned ok))
  ↔ (j = k ∧ p' = Returned ok) ∨ ∃ o', l !! j = Some (o', Returned ok).
Proof.
  intros Hp. setoid_rewrite insert_lookup. split.
  - intros (o' & [[-> [= -> ->]]|[_ H]]); [by left|right; by exists o'].
  - intros [[-> ->]|(o' & H)]; [exists o; by left|]. exists o'. right. split; [|done].
    intros ->. rewrite Hk in H. by simplify_eq.
Qed.

Lemma insert_sound :
  sound o p' → (∀ j o' q, l !! j = Some (o', q) → sound o' q) →
  ∀ j o' q, <[k := (o, p')]> l !! j = Some (o', q) → sound o' q.
Proof. intros Hs Hl j o' q [[-> [= -> ->]]|[_ H]]%insert_lookup; [done|by eapply Hl]. Qed.
End Insert.

Lemma step_returned m a o ok : threads m !! a.1 = Some (o, Returned ok) → step m a = m.
Proof.
  intros Hk. unfold step. rewrite Hk.
  replace (thread_step o (Returned ok) a.2 (counter m)) with (Returned ok, counter m) by (by destruct o).
  rewrite list_insert_id by done. by destruct m.
Qed.

Lemma linear_step ops v m a results :
  linear ops v m results → ∃ results', linear ops v (step m a) results'.
Proof.
  intros HL. destruct (threads m !! a.1) as [[o p]|] eqn:Hk; [|exists results; unfold step; by rewrite Hk].
  destruct (is_returned p) eqn:Hp.
  { destruct p; try done. exists results. by rewrite (step_returned _ _ _ _ Hk). }
  pose proof HL as [Hops Hnd Hrep Hres Hsound]. unfold step. rewrite Hk.
  pose proof (thread_step_spec o p a.2 (counter m) Hp (Hsound _ _ _ Hk)) as Hstep.
  destruct (thread_step o p a.2 (counter m)) as [p' v'].
  destruct Hstep as [(Hp' & -> & Hs')|(ok & -> & Hat)].
  - exists results. split; simpl; [|done..| |].
    + by rewrite (insert_ops _ _ _ p).
    + intros k ok. rewrite Hres, (insert_returned _ _ _ p) by done. split; [by right|]. by intros [[-> ->]|?].
    + by apply (insert_sound _ _ _ p).
  - exists (results ++ [(a.1, ok)]).
    assert (ops !! a.1 = Some o) as Ho by (rewrite <- Hops, list_lookup_fmap; by rewrite Hk).
    split; simpl; rewrite ?fmap_app; change ([(a.1, ok)].*1) with [a.1].
    + by rewrite (insert_ops _ _ _ p).
    + apply NoDup_app. split_and!; [done| |apply NoDup_singleton]. intros k Hin ->%list_elem_of_singleton.
      apply list_elem_of_fmap in Hin as ([k' ok'] & Hk' & [o' H]%Hres). simpl in Hk'. subst. rewrite Hk in H. by simplify_eq.
    + by rewrite (replay_snoc _ _ _ _ _ _ _ Ho Hrep), Hat.
    + intros k ok'. rewrite elem_of_app, list_elem_of_singleton, Hres, (insert_returned _ _ _ p) by done. naive_solver.
    + by apply (insert_sound _ _ _ p).
Qed.

Lemma linear_run ops v m sched results :
  linear ops v m results → ∃ results', linear ops v (run m sched) results'.
Proof.
  revert m results. induction sched as [|a sched IH]; intros m results HL; [by eauto|].
  destruct (linear_step _ _ _ a _ HL) as (results' & HL'). apply (IH _ _ HL').
Qed.

(** ** Progress

    A retry means that another thread has taken its update: a thread that holds
    a stale value pays for its retry with that update.  [potential] is what is
    still to be done at most; [effort] counts the moves of threads that have not
    returned, spurious failures aside. *)
Definition cost (v : Z) (t : op * pc) : nat :=
  match t.2 with
  | Loading => 2
  | Holds cur => if v =? cur then 1 else 3
  | Returned _ => 0
  end.

Definition live (l : list (op * pc)) : nat := sum_list_with (λ t, if is_returned t.2 then 0 else 1)%nat l.

Definition potential (m : Machine) : nat :=
  (sum_list_with (cost (counter m)) (threads m) + 2 * length (threads m) * live (threads m))%nat.

Definition moves_live (m : Machine) (a : move) : bool :=
  match threads m !! a.1 with Some (_, p) => negb (is_returned p) && negb a.2 | None => false end.

Fixpoint effort (m : Machine) (sched : list move) : nat :=
  match sched with
  | [] => 0
  | a :: rest => (if moves_live m a then 1 else 0) + effort (step m a) rest
  end.

Lemma sum_insert {A} (f : A → nat) (l : list A) k x y :
  l !! k = Some x → (sum_list_with f (<[k := y]> l) + f x = sum_list_with f l + f y)%nat.
Proof.
  revert k. induction l as [|z l IH]; intros [|k] Hk; simpl in *; simplify_eq; [lia|].
  specialize (IH _ Hk). lia.
Qed.

Lemma cost_change v v' l : (sum_list_with (cost v') l ≤ sum_list_with (cost v) l + 2 * length l)%nat.
Proof.
  induction l as [|[o p] l IH]; simpl; [done|]. unfold cost at 1 3. simpl.
  destruct p as [|cur|]; [lia| |lia]. destruct (v =? cur), (v' =? cur); lia.
Qed.

Lemma cost_live v o p : is_returned p = false → (1 ≤ cost v (o, p) ≤ 3)%nat.
Proof. unfold cost. simpl. destruct p as [|cur|]; [lia| |done]. destruct (v =? cur); lia. Qed.

(** A step that does not return and that no spurious failure spoiled makes its
    thread cheaper; a spoiled one makes it no dearer. *)
Lemma thread_step_cost o p sp v p' :
  is_returned p = false → is_returned p' = false → thread_step o p sp v = (p', v) →
  (cost v (o, p') + (if sp then 0 else 1) ≤ cost v (o, p))%nat.
Proof.
  intros Hp Hp' Hs. unfold cost. destruct p as [|cur|]; [..|done]; destruct o; simpl in *;
    unfold compare_exchange in *;
    repeat (match goal with
            | H : context [?a <=? ?b] |- _ => destruct (Z.leb_spec a b)
            | H : context [?a <? ?b] |- _ => destruct (Z.ltb_spec a b)
            | H : context [if (?a =? ?b) && _ then _ else _] |- _ => destruct (Z.eqb_spec a b) as [->|]
            | H : context [negb sp] |- _ => destruct sp
            | H : (_, _) = (_, _) |- _ => injection H as <-
            end; simpl in *; try done); rewrite ?Z.eqb_refl; try destruct sp; lia.
Qed.

Lemma step_length m a : length (threads (step m a)) = length (threads m).
Proof.
  unfold step. destruct (threads m !! a.1) as [[o p]|]; [|done].
  destruct (thread_step o p a.2 (counter m)). simpl. apply length_insert.
Qed.

Lemma potential_step ops v m a results :
  linear ops v m results →
  (potential (step m a) + (if moves_live m a then 1 else 0) ≤ potential m)%nat.
Proof.
  intros HL. unfold moves_live. destruct (threads m !! a.1) as [[o p]|] eqn:Hk.
  2:{ unfold step. rewrite Hk. lia. }
  destruct (is_returned p) eqn:Hp.
  { destruct p; try done. rewrite (step_returned _ _ _ _ Hk). simpl. lia. }
  unfold potential. rewrite step_length. unfold step. rewrite Hk. unfold live.
  pose proof (thread_step_spec o p a.2 (counter m) Hp (lin_sound _ _ _ _ HL _ _ _ Hk)) as Hstep.
  pose proof (λ p', thread_step_cost o p a.2 (counter m) p' Hp) as Hcost.
  destruct (thread_step o p a.2 (counter m)) as [p' v']. cbn [counter threads].
  pose proof (sum_insert (cost v') _ _ _ (o, p') Hk) as Hc.
  pose proof (sum_insert (λ t, if is_returned t.2 then 0 else 1)%nat _ _ _ (o, p') Hk) as Hl.
  simpl in Hl. rewrite Hp in Hl.
  destruct Hstep as [(Hp' & -> & _)|(ok & -> & _)].
  - specialize (Hcost p' Hp' eq_refl). rewrite Hp' in Hl. destruct a.2; simpl in *; lia.
  - pose proof (cost_change (counter m) v' (threads m)). pose proof (cost_live v' o p Hp).
    change (cost v' (o, Returned ok)) with 0%nat in Hc. simpl in Hl.
    set (f := λ t : op * pc, if is_returned t.2 then 0%nat else 1%nat) in *.
    assert (sum_list_with f (threads m) = S (sum_list_with f (<[a.1 := (o, Returned ok)]> (threads m)))) as -> by lia. destruct a.2; simpl; lia.
Qed.

Lemma effort_potential ops v m sched results :
  linear ops v m results → (effort m sched + potential (run m sched) ≤ potential m)%nat.
Proof.
  revert m results. induction sched as [|a sched IH]; intros m results HL; simpl; [lia|].
  pose proof (potential_step _ _ _ a _ HL). destruct (linear_step _ _ _ a _ HL) as (results' & HL').
  specialize (IH _ _ HL'). lia.
Qed.

Lemma potential_start v ops : potential (start v ops) = (2 * length ops * (length ops + 1))%nat.
Proof.
  unfold potential, live. simpl. rewrite length_fmap.
  assert (∀ f, (∀ o, f (o, Loading) = f (FetchAdd 0, Loading)) →
    sum_list_with f ((λ o, (o, Loading)) <$> ops) = (f (FetchAdd 0, Loading) * length ops)%nat) as H.
  { intros f Hf. clear v. induction ops as [|o l IH]; [simpl; lia|]. rewrite fmap_cons. cbn [sum_list_with length]. rewrite IH, Hf. lia. }
  rewrite !H by done. unfold cost. simpl. lia.
Qed.

(** Fairness: a round gives every thread a move that does not fail by itself. *)
Definition covers (n : nat) (round : list move) : Prop := ∀ k, (k < n)%nat → (k, false) ∈ round.

Lemma run_app m s1 s2 : run m (s1 ++ s2) = run (run m s1) s2.
Proof. apply foldl_app. Qed.

Lemma effort_app m s1 s2 : effort m (s1 ++ s2) = (effort m s1 + effort (run m s1) s2)%nat.
Proof. revert m. induction s1 as [|a s1 IH]; intros m; simpl; [done|]. rewrite IH. lia. Qed.

Lemma step_stays_returned m a k o ok :
  threads m !! k = Some (o, Returned ok) → threads (step m a) !! k = Some (o, Returned ok).
Proof.
  intros Hk. destruct (decide (a.1 = k)) as [<-|Hne]; [by rewrite (step_returned _ _ _ _ Hk)|].
  unfold step. destruct (threads m !! a.1) as [[o' p]|]; [|done].
  destruct (thread_step o' p a.2 (counter m)). simpl. by rewrite list_lookup_insert_ne.
Qed.

Lemma run_stays_returned m sched k o ok :
  threads m !! k = Some (o, Returned ok) → threads (run m sched) !! k = Some (o, Returned ok).
Proof.
  revert m. induction sched as [|a sched IH]; intros m Hk; [done|]. by apply IH, step_stays_returned.
Qed.

Lemma run_length m sched : length (threads (run m sched)) = length (threads m).
Proof.
  revert m. induction sched as [|a sched IH]; intros m; [done|]. cbn [run foldl]. rewrite <- (step_length m a). apply IH.
Qed.

Definition all_returned (m : Machine) : bool := forallb (λ t, is_returned t.2) (threads m).

Lemma not_all_returned m :
  all_returned m = false → ∃ k o p, threads m !! k = Some (o, p) ∧ is_returned p = false.
Proof.
  unfold all_returned. induction (threads m) as [|[o p] l IH]; simpl; [done|].
  destruct (is_returned p) eqn:Hp; simpl; [|intros _; by exists O, o, p].
  intros H. destruct (IH H) as (k & o' & p' & Hk & Hp'). by exists (S k), o', p'.
Qed.

(** A round that gives a move to a thread that is still running is no waste. *)
Lemma round_effort m round k o p :
  (k, false) ∈ round → threads (run m round) !! k = Some (o, p) → is_returned p = false → (1 ≤ effort m round)%nat.
Proof.
  intros (r1 & r2 & ->)%list_elem_of_split Hk Hp. rewrite effort_app. cbn [effort]. rewrite run_app in Hk.
  cbn [run foldl] in Hk. unfold moves_live at 1. cbn [fst snd negb].
  assert (∃ t, threads (run m r1) !! k = Some t) as [[o' p'] Hk'].
  { apply lookup_lt_is_Some. rewrite run_length.
    apply lookup_lt_Some in Hk. change (foldl step (step (run m r1) (k, false)) r2) with (run (step (run m r1) (k, false)) r2) in Hk.
    by rewrite run_length, step_length, run_length in Hk. }
  rewrite Hk'. destruct (is_returned p') eqn:Hp'; simpl; [|lia].
  destruct p' as [| |ok]; try done. exfalso.
  apply (step_stays_returned _ (k, false)), (run_stays_returned _ r2) in Hk'.
  unfold run in *. rewrite Hk' in Hk. by simplify_eq.
Qed.

Lemma rounds_effort m rounds k o p :
  Forall (λ r, (k, false) ∈ r) rounds →
  threads (run m (concat rounds)) !! k = Some (o, p) → is_returned p = false →
  (length rounds ≤ effort m (concat rounds))%nat.
Proof.
  revert m. induction rounds as [|r rounds IH]; intros m Hr Hk Hp; simpl; [lia|].
  apply Forall_cons in Hr as [Hr Hrs]. rewrite effort_app. cbn [concat] in Hk. rewrite run_app in Hk.
  specialize (IH _ Hrs Hk Hp).
  assert (∃ t, threads (run m r) !! k = Some t) as [[o' p'] Hk'].
  { apply lookup_lt_is_Some. apply lookup_lt_Some in Hk. by rewrite run_length in Hk. }
  destruct (is_returned p') eqn:Hp'.
  - destruct p' as [| |ok]; try done. apply (run_stays_returned _ (concat rounds)) in Hk'.
    rewrite Hk' in Hk. by simplify_eq.
  - pose proof (round_effort _ _ _ _ _ Hr Hk' Hp'). lia.
Qed.

(** ** Accounts

    What an update adds to the counter when it is granted, and what it gives
    back. *)
Definition delta (o : op) : Z :=
  match o with
  | AtomicSubSaturating val => - val
  | ReserveMailboxSlot | ReserveSlot _ => 1
  | TryReserveBytes _ amount => amount
  | ReleaseBytes amount => - amount
  | FetchAdd val => val
  | FetchSub val => - val
  end.

Definition gain (ops : list op) (r : nat * bool) : Z :=
  if r.2 then match ops !! r.1 with Some o => delta o | None => 0 end else 0.

Definition given_back (ops : list op) (k : nat) : Z :=
  match ops !! k with Some o => Z.max 0 (- delta o) | None => 0 end.

(** A counter with a cap: reservations that check it, and releases. *)
Definition budget_op (cap : Z) (o : op) : Prop :=
  match o with
  | ReserveMailboxSlot => cap = MAX_MAILBOXES
  | ReserveSlot max_transfers => cap = max_transfers
  | TryReserveBytes c amount => cap = c ∧ 0 ≤ amount
  | AtomicSubSaturating val | ReleaseBytes val | FetchSub val => 0 ≤ val
  | FetchAdd _ => False
  end.

Lemma atomic_account cap o v :
  budget_op cap o → 0 ≤ Z.max 0 (- delta o) ≤ v → v ≤ cap < u64_max →
  let '(v', ok) := atomic o v in
  v' = v + (if ok then delta o else 0) ∧ v' ≤ cap.
Proof.
  assert (u64_max = 18446744073709551615) as Hu by reflexivity. intros Ho Hv Hc.
  assert (∀ z, 0 ≤ z ≤ u64_max → wrap64 z = z) as Hw by (intros; by apply wrap64_small).
  destruct o; simpl in *; unfold atomic_sub_saturating, sat_sub, sat_add in *; try done.
  - split; lia.
  - destruct (Z.leb_spec MAX_MAILBOXES v); [lia|]. rewrite Hw by lia. lia.
  - destruct (Z.leb_spec max_transfers v); [lia|]. rewrite Hw by lia. lia.
  - destruct (Z.ltb_spec cap0 (Z.min (v + amount) u64_max)); [lia|]. split; lia.
  - split; lia.
  - rewrite Hw by lia. lia.
Qed.

Lemma replay_accounts cap ops order v :
  Forall (budget_op cap) ops → zsum (given_back ops <$> order) ≤ v ≤ cap → cap < u64_max →
  let '(w, results) := replay ops order v in
  w = v + zsum (gain ops <$> results) ∧ 0 ≤ w ≤ cap.
Proof.
  intros Hops. revert v. induction order as [|k order IH]; intros v Hv Hc.
  { simpl in *. lia. }
  rewrite fmap_cons, zsum_cons in Hv. cbn [replay]. unfold given_back at 1 in Hv.
  assert (0 ≤ zsum (given_back ops <$> order)) as Hpos.
  { apply zsum_nonneg, Forall_fmap, Forall_true. intros j. unfold compose, given_back. destruct (ops !! j); lia. }
  destruct (ops !! k) as [o|] eqn:Ho; [|by apply IH].
  pose proof (atomic_account cap o v (Forall_lookup_1 _ _ _ _ Hops Ho) ltac:(lia) ltac:(lia)) as Hat.
  destruct (atomic o v) as [v' ok]. destruct Hat as [Hv' Hcap].
  specialize (IH v' ltac:(destruct ok; lia) Hc). destruct (replay ops order v') as [w results].
  rewrite fmap_cons, zsum_cons. unfold gain at 1. cbn [fst snd]. rewrite Ho. destruct ok; lia.
Qed.

Lemma zsum_submseteq (l k : list Z) : l ⊆+ k → Forall (λ z, 0 ≤ z) k → zsum l ≤ zsum k.
Proof.
  intros (r & Hr)%submseteq_Permutation Hk. rewrite Hr, zsum_app.
  rewrite Hr in Hk. apply Forall_app in Hk as [_ Hk]. pose proof (zsum_nonneg r Hk). lia.
Qed.

Definition total_given_back (ops : list op) : Z := zsum ((λ o, Z.max 0 (- delta o)) <$> ops).

Lemma given_back_total ops order :
  NoDup order → (∀ k, k ∈ order → (k < length ops)%nat) → zsum (given_back ops <$> order) ≤ total_given_back ops.
Proof.
  intros Hnd Hlt. unfold total_given_back.
  replace ((λ o, Z.max 0 (- delta o)) <$> ops) with (given_back ops <$> seq 0 (length ops)).
  - apply zsum_submseteq.
    + apply fmap_submseteq, NoDup_submseteq; [done|]. intros k Hk. apply elem_of_seq. specialize (Hlt _ Hk). lia.
    + apply Forall_fmap, Forall_true. intros j. unfold compose, given_back. destruct (ops !! j); lia.
  - apply list_eq. intros k. rewrite !list_lookup_fmap. destruct (decide (k < length ops)%nat) as [Hk|Hk].
    + rewrite lookup_seq_lt by done. simpl. unfold given_back. destruct (lookup_lt_is_Some_2 _ _ Hk) as [o ->]. done.
    + rewrite lookup_seq_ge, lookup_ge_None_2 by lia. done.
Qed.

(** ** Admission of connections

    [accept] adds first and takes back when the old value was at the cap, so the
    counter may stand above it for a moment. *)
Inductive admission := Arriving | Overshot | Serving | Left.

Definition admission_step (a : admission) (v : Z) : admission * Z :=
  match a with
  | Arriving => (if MAX_CONNECTIONS <=? v then Overshot else Serving, v +! 1)
  | Overshot => (Left, v -! 1)
  | Serving => (Left, v -! 1)
  | Left => (Left, v)
  end.

Definition admission_move (m : Z * list admission) (k : nat) : Z * list admission :=
  match m.2 !! k with
  | Some a => let '(a', v') := admission_step a m.1 in (v', <[k := a']> m.2)
  | None => m
  end.

Definition admitted (l : list admission) : nat :=
  sum_list_with (λ a, match a with Serving => 1 | _ => 0 end)%nat l.

Definition counted (l : list admission) : nat :=
  sum_list_with (λ a, match a with Serving | Overshot => 1 | _ => 0 end)%nat l.

Lemma admitted_counted l : (admitted l ≤ counted l ≤ length l)%nat.
Proof. induction l as [|a l IH]; simpl; [done|]. unfold admitted, counted in *. destruct a; lia. Qed.

Lemma admit_invariant v l k :
  Z.of_nat (length l) ≤ u64_max → v = Z.of_nat (counted l) → Z.of_nat (admitted l) ≤ MAX_CONNECTIONS →
  let '(v', l') := admission_move (v, l) k in
  length l' = length l ∧ v' = Z.of_nat (counted l') ∧ Z.of_nat (admitted l') ≤ MAX_CONNECTIONS.
Proof.
  intros Hl Hv Ha. unfold admission_move. cbn [fst snd]. destruct (l !! k) as [a|] eqn:Hk; [|done].
  destruct (admission_step a v) as [a' v'] eqn:Hs.
  pose proof (sum_insert (λ a, match a with Serving => 1 | _ => 0 end)%nat _ _ _ a' Hk) as H1.
  pose proof (sum_insert (λ a, match a with Serving | Overshot => 1 | _ => 0 end)%nat _ _ _ a' Hk) as H2.
  rewrite length_insert. pose proof (admitted_counted (<[k := a']> l)) as H3. rewrite length_insert in H3.
  pose proof (admitted_counted l) as H4.
  change (sum_list_with _ (<[k := a']> l)) with (admitted (<[k := a']> l)) in H1 at 1.
  fold (admitted l) in H1. fold (counted (<[k := a']> l)) in H2. fold (counted l) in H2.
  split; [done|]. unfold admission_step in Hs.
  destruct a; [destruct (Z.leb_spec MAX_CONNECTIONS v)|..]; injection Hs as <- <-;
    try rewrite (wrap64_small (_ + _)) by (unfold is_u64; lia);
    try rewrite (wrap64_small (_ - _)) by (unfold is_u64; lia); lia.
Qed.
