(* ===== verification/AtomicsProps.v ===== *)
(** What the retry loops guarantee: every interleaving is a sequence of whole
    updates, the accounts stay exact and under their caps, and every fair
    schedule finishes. *)
From Stdlib Require Import ZArith Lia Ascii String.
From stdpp Require Import base gmap strings list.
From S2P Require Import Prelude Redb RustStd Config Util Protocol Mailbox Signal State Atomics.
From S2P Require FileStore.

Section Props.
Context {RD : Redb} {UL : UuidLib} {LS : LibSignal}.
Context {SV : Serde QueueStore.StoredValue} {SM : Serde FileStore.FileMeta}.

(** The updates of [atomic] are the operations on counters that the stores and
    the shared state are modelled with. *)
Lemma atomic_is_reserve_mailbox_slot {E} (s : AppState) i :
  reserve_mailbox_slot (E := E) s i
  = let '(v, ok) := atomic ReserveMailboxSlot (mailbox_count s) in (inr ok, set_mailbox_count v s, i).
Proof.
  unfold reserve_mailbox_slot, atomic, mbind, M_bind, get. cbv zeta.
  destruct (MAX_MAILBOXES <=? mailbox_count s); [|done]. by destruct s.
Qed.

Lemma atomic_is_reserve_slot (st : FileStore) i :
  FileStore.reserve_slot st i
  = let '(v, ok) := atomic (ReserveSlot (max_transfers (FileStore.config st))) (FileStore.transfer_count st) in
    (if ok then inr () else inl FileStore.Full, FileStore.set_count v st, i).
Proof.
  unfold FileStore.reserve_slot, atomic, mbind, M_bind, get. cbv zeta.
  destruct (_ <=? _); [|done]. by destruct st.
Qed.

Lemma atomic_is_try_reserve_bytes (st : FileStore) amount i :
  FileStore.try_reserve_bytes amount st i
  = let '(v, ok) := atomic (TryReserveBytes (max_total_file_bytes (FileStore.config st)) amount)
                      (FileStore.reserved_bytes st) in
    (if ok then inr () else inl FileStore.Full, FileStore.set_reserved v st, i).
Proof.
  unfold FileStore.try_reserve_bytes, atomic, mbind, M_bind, get. cbv zeta.
  destruct (_ <? _); [|done]. by destruct st.
Qed.

Lemma atomic_is_release {E} (st : FileStore) amount i :
  FileStore.release_bytes (E := E) amount st i
  = (inr (), FileStore.set_reserved (atomic (ReleaseBytes amount) (FileStore.reserved_bytes st)).1 st, i)
  ∧ FileStore.release_slot (E := E) st i
  = (inr (), FileStore.set_count (atomic (FetchSub 1) (FileStore.transfer_count st)).1 st, i).
Proof. done. Qed.

(** C27. Under every schedule of any number of threads in the retry loops of one counter, weak
    exchanges failing spuriously included, the counter and the results of the threads that have
    returned are those of running these calls one at a time, in some order, as indivisible
    updates; a thread still in its loop has changed nothing. *)
Theorem loops_are_atomic ops v schedule :
  let m := run (start v ops) schedule in
  ∃ results, NoDup results.*1 ∧ replay ops results.*1 v = (counter m, results)
    ∧ (∀ k ok, (k, ok) ∈ results ↔ ∃ o, threads m !! k = Some (o, Returned ok)).
Proof.
  cbv zeta. destruct (linear_run ops v _ schedule _ (linear_start ops v)) as (results & HL).
  exists results. split_and!; apply HL.
Qed.

(** C31. When every reservation has the cap and the releases together give back no more than is
    held at the start, the counter is between zero and the cap after every schedule, and it is
    its start plus exactly what the returned calls reserved and released: no addition wraps and
    no floor is reached. *)
Theorem accounts_stay_exact cap ops v schedule :
  Forall (budget_op cap) ops → total_given_back ops ≤ v ≤ cap → cap < u64_max →
  let m := run (start v ops) schedule in
  0 ≤ counter m ≤ cap
  ∧ ∃ results, NoDup results.*1 ∧ (∀ k ok, (k, ok) ∈ results ↔ ∃ o, threads m !! k = Some (o, Returned ok))
    ∧ counter m = v + zsum (gain ops <$> results).
Proof.
  intros Hops Hv Hcap. cbv zeta.
  destruct (linear_run ops v _ schedule _ (linear_start ops v)) as (results & HL).
  assert (zsum (given_back ops <$> results.*1) ≤ total_given_back ops) as Hgb.
  { apply given_back_total; [apply HL|]. intros k ([k' ok] & -> & Hin)%list_elem_of_fmap.
    apply (lin_results _ _ _ _ HL) in Hin as [o Hk]. rewrite <- (lin_ops _ _ _ _ HL), length_fmap.
    by eapply lookup_lt_Some. }
  assert (zsum (given_back ops <$> results.*1) ≤ v ≤ cap) as Hrange by (destruct Hv; split; [by etrans|done]).
  pose proof (replay_accounts cap ops results.*1 v Hops Hrange Hcap) as Hrep. clear Hrange.
  rewrite (lin_replay _ _ _ _ HL) in Hrep. destruct Hrep as [Heq Hrange].
  split; [done|]. exists results. split_and!; [apply HL|apply HL|done].
Qed.

(** C35. Under every schedule that keeps letting each thread run, every call returns within a
    number of rounds quadratic in the number of threads: an exchange fails only because another
    one succeeded. *)
Theorem fair_schedules_finish ops v rounds :
  Forall (covers (length ops)) rounds →
  (2 * length ops * (length ops + 1) < length rounds)%nat →
  all_returned (run (start v ops) (concat rounds)) = true.
Proof.
  intros Hr Hlen. destruct (all_returned _) eqn:Hall; [done|exfalso].
  apply not_all_returned in Hall as (k & o & p & Hk & Hp).
  assert (k < length ops)%nat as Hlt.
  { apply lookup_lt_Some in Hk. rewrite run_length in Hk. simpl in Hk. by rewrite length_fmap in Hk. }
  assert (Forall (λ r, (k, false) ∈ r) rounds) as Hr'.
  { eapply Forall_impl; [exact Hr|]. intros r Hc. by apply Hc. }
  pose proof (rounds_effort _ _ _ _ _ Hr' Hk Hp) as He.
  pose proof (effort_potential ops v _ (concat rounds) _ (linear_start ops v)) as Hp'.
  rewrite potential_start in Hp'. lia.
Qed.

(** Although a connection is counted before it is checked against the cap, under every
    interleaving of arrivals, refusals and departures at most MAX_CONNECTIONS are admitted at a
    time, and the counter is the number of those admitted or about to be turned away. *)
Theorem admitted_stay_capped n schedule :
  Z.of_nat n ≤ u64_max →
  let '(v, l) := foldl admission_move (0, replicate n Arriving) schedule in
  Z.of_nat (admitted l) ≤ MAX_CONNECTIONS ∧ v = Z.of_nat (counted l).
Proof.
  intros Hn.
  assert (∀ l v, Z.of_nat (length l) ≤ u64_max → v = Z.of_nat (counted l) → Z.of_nat (admitted l) ≤ MAX_CONNECTIONS →
    let '(v', l') := foldl admission_move (v, l) schedule in Z.of_nat (admitted l') ≤ MAX_CONNECTIONS ∧ v' = Z.of_nat (counted l'))
    as H.
  { induction schedule as [|k schedule IH]; intros l v Hl Hv Ha; [done|]. cbn [foldl].
    pose proof (admit_invariant v l k Hl Hv Ha) as Hi. destruct (admission_move (v, l) k) as [v' l'].
    destruct Hi as (Hl' & Hv' & Ha'). apply IH; [by rewrite Hl'|done..]. }
  assert (admitted (replicate n Arriving) = 0%nat ∧ counted (replicate n Arriving) = 0%nat) as [H1 H2].
  { clear. by induction n. }
  apply H; rewrite ?length_replicate, ?H1, ?H2; done.
Qed.
End Props.

(** ** Witnesses *)

(** Two threads that reserve one of the last two units while a third releases
    one, interleaved. *)
Definition demo_ops : list op := [ReserveMailboxSlot; AtomicSubSaturating 3; ReserveMailboxSlot].

Definition demo_schedule : list move :=
  [(0, false); (2, false); (1, false); (0, false); (2, false); (1, false); (1, true); (1, false); (2, false); (2, false)]%nat.

Example demo_contention :
  run (start 49999 demo_ops) demo_schedule
  = {| counter := 49998; threads := [(ReserveMailboxSlot, Returned true); (AtomicSubSaturating 3, Returned true);
                                     (ReserveMailboxSlot, Returned true)] |}.
Proof. vm_compute. reflexivity. Qed.

Lemma accounts_stay_exact_witness :
  Forall (budget_op MAX_MAILBOXES) demo_ops ∧ 0 ≤ counter (run (start 49999 demo_ops) demo_schedule) ≤ MAX_MAILBOXES.
Proof.
  assert (Forall (budget_op MAX_MAILBOXES) demo_ops) as H by (repeat constructor; done).
  split; [exact H|]. refine (proj1 (accounts_stay_exact MAX_MAILBOXES demo_ops 49999 demo_schedule H _ _)).
  - vm_compute. split; congruence.
  - reflexivity.
Defined.

Lemma fair_schedules_finish_witness :
  all_returned (run (start 49999 demo_ops) (concat (replicate 25 [(0, false); (1, false); (2, false)]%nat))) = true.
Proof.
  apply fair_schedules_finish.
  - apply Forall_replicate. intros k Hk. simpl in Hk. rewrite !elem_of_cons.
    destruct k as [|[|[|k]]]; [by left|by right; left|by right; right; left|lia].
  - vm_compute. lia.
Defined.

Lemma admitted_stay_capped_witness :
  let '(v, l) := foldl admission_move (0, replicate 3 Arriving) [0; 1; 0; 2]%nat in
  l = [Left; Serving; Serving] ∧ Z.of_nat (admitted l) ≤ MAX_CONNECTIONS.
Proof.
  split; [reflexivity|]. refine (proj1 (admitted_stay_capped 3 [0; 1; 0; 2]%nat _)). vm_compute. congruence.
Defined.

(** ** Observed behaviour *)

(** The byte cap of the hosted bundles is checked by a load and the bytes are
    added later ([on_upload_bundle]): not a reservation. *)
Definition upload_bytes_step (bundle_len : Z) (p : pc) (v : Z) : pc * Z :=
  match p with
  | Loading => if MAX_TOTAL_BUNDLE_BYTES <? v +^ bundle_len then (Returned false, v) else (Holds v, v)
  | Holds _ => (Returned true, v +! bundle_len)
  | Returned _ => (p, v)
  end.

(** Two uploads that both pass the check before either adds its bytes take the
    total over the cap. *)
Example concurrent_uploads_overshoot :
  let len := MAX_BUNDLE_BYTES in
  let v0 := MAX_TOTAL_BUNDLE_BYTES - len in
  let '(p1, v1) := upload_bytes_step len Loading v0 in
  let '(p2, v2) := upload_bytes_step len Loading v1 in
  let '(p1, v3) := upload_bytes_step len p1 v2 in
  let '(p2, v4) := upload_bytes_step len p2 v3 in
  p1 = Returned true ∧ p2 = Returned true ∧ MAX_TOTAL_BUNDLE_BYTES < v4.
Proof. vm_compute. split_and!; reflexivity. Qed.
