(* ===== verification/StateFacts.v ===== *)
(** The invariant of the shared state, the coherence of its caches with the
    durable tables, and what the state's operations do to both.

    Two mailbox records are equivalent when they differ only in their activity
    time: that is what the write-back keeps coherent. *)
From Stdlib Require Import ZArith Lia Ascii String.
From stdpp Require Import base gmap strings list.
From S2P Require Import Prelude Redb RustStd Config Util Protocol Mailbox Signal State.
From S2P Require QueueStore.
From S2P Require QueueFacts.
From S2P Require FileStore.
From S2P Require FileFacts.
From S2P Require MetaStore.

#[global] Instance MailboxAuth_equiv : Equiv MailboxAuth := λ a b,
  receive_auth_hash a = receive_auth_hash b ∧ delivery_token_hash a = delivery_token_hash b
  ∧ delivery_token_hashes a = delivery_token_hashes b.

#[global] Instance MailboxAuth_equivalence : Equivalence (≡@{MailboxAuth}).
Proof.
  split.
  - intros a. by split_and!.
  - intros a b (H1 & H2 & H3). by split_and!.
  - intros a b c (H1 & H2 & H3) (H4 & H5 & H6). split_and!; congruence.
Qed.

#[global] Instance touch_proper now : Proper ((≡) ==> (≡)) (touch now).
Proof. by intros a b ?. Qed.

#[global] Instance accepts_proper : Proper ((≡) ==> (=) ==> (=)) accepts_delivery_hash.
Proof. intros a b (_ & H1 & H2) h ? <-. unfold accepts_delivery_hash. by rewrite H1, H2. Qed.

#[global] Instance ensure_proper h : Proper ((≡) ==> prod_relation (=) (≡)) (ensure_delivery_hash h).
Proof.
  intros a b (H1 & H2 & H3). unfold ensure_delivery_hash. rewrite H1, H2, H3.
  case_bool_decide; (split; [done|unfold equiv, MailboxAuth_equiv; simpl; by rewrite ?H1, ?H3]).
Qed.

#[global] Instance replace_proper hs : Proper ((≡) ==> (≡)) (replace_delivery_hashes hs).
Proof. intros a b (H1 & _ & _). by split_and!. Qed.

#[global] Instance wf_auth_proper : Proper ((≡) ==> iff) wf_auth.
Proof. intros a b (_ & _ & H). split; intros [Hl Hn]; split; congruence. Qed.

Lemma touch_equiv now a : touch now a ≡ a.
Proof. by split_and!. Qed.

Section Facts.
Context {RD : Redb} {UL : UuidLib} {LS : LibSignal}.
Context {SV : Serde QueueStore.StoredValue} {SM : Serde FileStore.FileMeta}.
Context {SA : Serde MailboxAuth} {SB : Serde HostedBundle}.
Implicit Types (s : AppState) (rid : string).

Definition durable_auth s : gmap string MailboxAuth := decoded (MetaStore.auth_table (meta_store s)).

Definition durable_bundles s : gmap string HostedBundle := decoded (MetaStore.bundle_table (meta_store s)).

Definition bundle_bytes (m : gmap string HostedBundle) : Z := msum (λ _ b, slen (bundle_ciphertext b)) m.

(** A table of mailboxes as the handlers leave it. *)
Definition wf_mailboxes (m : gmap string MailboxAuth) : Prop :=
  ∀ rid a, m !! rid = Some a → no_char ":" rid ∧ wf_auth a.

Definition keyed_bundles (m : gmap string HostedBundle) : Prop :=
  ∀ id b, m !! id = Some b → bundle_key b = id.

Record AppInv s : Prop := {
  ai_queues : QueueFacts.Inv (queues s);
  ai_files : FileFacts.Inv (files s);
  ai_file_caps : FileFacts.Caps (files s);
  ai_count : mailbox_count s = Z.of_nat (size (mailbox_auth s)) ∧ mailbox_count s ≤ u64_max;
  ai_bytes : total_bundle_bytes s = bundle_bytes (bundles s) ∧ total_bundle_bytes s ≤ u64_max;
  ai_auth : wf_mailboxes (mailbox_auth s);
  ai_bundles : keyed_bundles (bundles s);
  ai_rate : ∀ to w c, send_rate s !! to = Some (w, c) → 0 ≤ c ≤ MAX_SENDS_PER_DEST_PER_WINDOW;
}.

(** Outside the dirty sets the durable tables are up to date. *)
Record Coherent s : Prop := {
  co_auth : ∀ rid, rid ∉ dirty_auth s → durable_auth s !! rid ≡ mailbox_auth s !! rid;
  co_bundles : ∀ id, id ∉ dirty_bundles s → durable_bundles s !! id = bundles s !! id;
}.

Lemma AppInv_mark_auth s x : AppInv s → AppInv (set_dirty_auth x s).
Proof. by intros []. Qed.

Lemma AppInv_mark_bundles s x : AppInv s → AppInv (set_dirty_bundles x s).
Proof. by intros []. Qed.

Lemma AppInv_meta s x : AppInv s → AppInv (set_meta_store x s).
Proof. by intros []. Qed.

Lemma AppInv_online s x : AppInv s → AppInv (set_online x s).
Proof. by intros []. Qed.

(** ** The flush *)

Lemma take_dirty_auth_wp {E} keys s i (Q : E + list (string * option MailboxAuth) → AppState → io → Prop) :
  Q (inr ((λ k, (k, mailbox_auth s !! k)) <$> keys)) (set_dirty_auth (dirty_auth s ∖ list_to_set keys) s) i →
  wp (take_dirty_auth keys) Q s i.
Proof.
  intros HQ. apply (wp_foldM _ (λ pre batch s' i',
    batch = (λ k, (k, mailbox_auth s !! k)) <$> pre
    ∧ s' = set_dirty_auth (dirty_auth s ∖ list_to_set pre) s ∧ i' = i)).
  - split_and!; try done. rewrite list_to_set_nil, difference_empty_L. by destruct s.
  - intros pre k rest batch s' i' _ (-> & -> & ->). wp_steps. rewrite fmap_app. split_and!; try done.
    rewrite list_to_set_app_L. unfold set_dirty_auth. simpl. f_equal.
    by rewrite difference_difference_l_L, union_empty_r_L.
  - intros batch s' i' (-> & -> & ->). done.
Qed.

Lemma take_dirty_bundles_wp {E} keys s i (Q : E + list (string * option HostedBundle) → AppState → io → Prop) :
  Q (inr ((λ k, (k, bundles s !! k)) <$> keys)) (set_dirty_bundles (dirty_bundles s ∖ list_to_set keys) s) i →
  wp (take_dirty_bundles keys) Q s i.
Proof.
  intros HQ. apply (wp_foldM _ (λ pre batch s' i',
    batch = (λ k, (k, bundles s !! k)) <$> pre
    ∧ s' = set_dirty_bundles (dirty_bundles s ∖ list_to_set pre) s ∧ i' = i)).
  - split_and!; try done. rewrite list_to_set_nil, difference_empty_L. by destruct s.
  - intros pre k rest batch s' i' _ (-> & -> & ->). wp_steps. rewrite fmap_app. split_and!; try done.
    rewrite list_to_set_app_L. unfold set_dirty_bundles. simpl. f_equal.
    by rewrite difference_difference_l_L, union_empty_r_L.
  - intros batch s' i' (-> & -> & ->). done.
Qed.

(** What a flush reads and writes besides the tables and the dirty sets. *)
Definition same_ram s s' : Prop :=
  queues s' = queues s ∧ files s' = files s ∧ file_config s' = file_config s ∧ online s' = online s
  ∧ mailbox_auth s' = mailbox_auth s ∧ mailbox_count s' = mailbox_count s ∧ bundles s' = bundles s
  ∧ total_bundle_bytes s' = total_bundle_bytes s ∧ send_rate s' = send_rate s ∧ crypto s' = crypto s.

Lemma AppInv_same_ram s s' : same_ram s s' → AppInv s → AppInv s'.
Proof.
  intros (H1 & H2 & H3 & H4 & H5 & H6 & H7 & H8 & H9 & H10) [].
  split; rewrite ?H1, ?H2, ?H5, ?H6, ?H7, ?H8, ?H9; done.
Qed.

Lemma flush_dirty_meta_wp i0 s i :
  io_step i0 i →
  wp flush_dirty_meta (λ r s' i', io_step i0 i' ∧ same_ram s s' ∧
    match r with
    | inr _ => dirty_auth s' = ∅ ∧ dirty_bundles s' = ∅ ∧ (Coherent s → Coherent s')
    | inl _ => ¬ quiet i0
    end) s i.
Proof.
  intros Hi. unfold flush_dirty_meta. do 2 wp_step. wp_step. apply take_dirty_auth_wp. cbn beta iota.
  rewrite list_to_set_elements_L, difference_diag_L. do 2 wp_step.
  apply (MetaStore.flush_auth_wp i0); [done| |].
  2:{ intros Hq i' Hi'. split; [done|]. split; [|done]. by split_and!. }
  clear Hi. intros m1 i1 Hi Ha Hb. cbn beta iota. do 2 wp_step. wp_step. apply take_dirty_bundles_wp. cbn beta iota.
  cbn [dirty_bundles set_meta_store set_dirty_auth bundles].
  rewrite list_to_set_elements_L, difference_diag_L. wp_step.
  apply (MetaStore.flush_bundles_wp i0); [done| |].
  2:{ intros Hq i' Hi'. split; [done|]. split; [|done]. by split_and!. }
  clear Hi. intros m2 i2 Hi Hb2 Ha2. split; [done|]. split; [by split_and!|]. split; [done|]. split; [done|].
  intros [Hca Hcb]. split.
  - intros rid _. unfold durable_auth. cbn [meta_store set_meta_store mailbox_auth]. rewrite Ha2.
    change (decoded (MetaStore.auth_table m1) !! rid ≡ mailbox_auth s !! rid).
    rewrite Ha, MetaStore.apply_batch_current. case_decide as Hin; [done|].
    apply Hca. intros Hd. apply Hin. by apply elem_of_elements.
  - intros id _. unfold durable_bundles. cbn [meta_store set_meta_store bundles]. rewrite Hb2.
    rewrite MetaStore.apply_batch_current. case_decide as Hin; [done|].
    change (decoded (MetaStore.bundle_table m1) !! id = bundles s !! id). rewrite Hb.
    apply Hcb. intros Hd. apply Hin. by apply elem_of_elements.
Qed.
(** ** Start *)

Lemma decoded_list {A} `{!Serde A} t : list_to_map (MetaStore.decodable (tbl_iter t)) = (decoded t : gmap string A).
Proof.
  apply map_eq. intros k. apply option_eq. intros a.
  rewrite <- elem_of_list_to_map by apply MetaStore.decodable_NoDup. apply MetaStore.elem_decodable.
Qed.

(** The reading as the records keep it. *)
Definition activity_of (now : Z) : Z := now - now mod MAILBOX_ACTIVITY_GRANULARITY_MS.

(** A record never touched counts as active now. *)
Definition refresh (now : Z) (a : MailboxAuth) : MailboxAuth := if last_active_ms a =? 0 then touch now a else a.

Lemma refresh_equiv now a : refresh now a ≡ a.
Proof. unfold refresh. case_match; [apply touch_equiv|done]. Qed.

Lemma load_auth_fold now (l : list (string * MailboxAuth)) :
  NoDup l.*1 →
  foldl (λ m '(rid, auth), <[rid := if last_active_ms auth =? 0 then touch now auth else auth]> m) ∅ l
  = refresh now <$> (list_to_map l : gmap string MailboxAuth).
Proof.
  induction l as [|[k a] l IH] using rev_ind; [intros _; symmetry; apply fmap_empty|].
  rewrite fmap_app. intros (Hl & Hk & _)%NoDup_app. rewrite foldl_app, IH by done. cbn [foldl].
  rewrite list_to_map_snoc by (intros Hin; apply (Hk k Hin); left). by rewrite fmap_insert.
Qed.

Lemma load_bundles_fold (D : gmap string HostedBundle) (l : list (string * HostedBundle)) :
  (∀ k b, (k, b) ∈ l → D !! k = Some b) → keyed_bundles D → NoDup l.*1 → bundle_bytes D ≤ u64_max →
  foldl (λ '(m, bytes) bundle, (<[bundle_key bundle := bundle]> m, bytes +^ slen (bundle_ciphertext bundle))) (∅ : gmap string HostedBundle, 0) l.*2
  = (list_to_map l, zsum (contrib (λ _ b, slen (bundle_ciphertext b)) D <$> l.*1)).
Proof.
  intros Hin Hkey Hnd Hu. induction l as [|[k b] l IH] using rev_ind; [done|].
  pose proof Hnd as Hnd'. rewrite (fmap_app fst) in Hnd'. apply NoDup_app in Hnd' as (Hl & Hk & _).
  rewrite (fmap_app snd), foldl_app, IH; [|intros; apply Hin, elem_of_app; by left|done].
  assert (D !! k = Some b) as HD by (apply Hin, elem_of_app; right; left).
  cbn [foldl fmap list_fmap snd]. rewrite (Hkey _ _ HD), list_to_map_snoc by (intros H; apply (Hk k H); left).
  f_equal. pose proof (contrib_sum_le (λ _ b, slen (bundle_ciphertext b)) _ D ltac:(intros; apply slen_nonneg) Hnd) as [_ Hle].
  rewrite !fmap_app, zsum_app in *. simpl in *. unfold contrib at 2 in Hle. unfold contrib at 3. rewrite HD in *.
  unfold bundle_bytes in Hu. rewrite sat_add_small by lia. lia.
Qed.

(** What a start needs of the stores it is given. *)
Record start_ok (meta : MetaStore) (q : QueueStore) (f : FileStore) : Prop := {
  st_queues : QueueFacts.Inv q;
  st_files : FileFacts.Inv f;
  st_caps : FileFacts.Caps f;
  st_auth : wf_mailboxes (decoded (MetaStore.auth_table meta));
  st_size : Z.of_nat (size (decoded (MetaStore.auth_table meta) : gmap string MailboxAuth)) ≤ u64_max;
  st_bundles : keyed_bundles (decoded (MetaStore.bundle_table meta));
  st_bytes : bundle_bytes (decoded (MetaStore.bundle_table meta)) ≤ u64_max;
}.

(** A relay with nothing left to write back can be started again. *)
Lemma start_ok_clean meta s :
  AppInv s → (decoded (MetaStore.auth_table meta) : gmap string MailboxAuth) ≡ mailbox_auth s →
  decoded (MetaStore.bundle_table meta) = bundles s → start_ok meta (queues s) (files s).
Proof.
  intros HI Ha Hb. split; rewrite ?Hb; try apply HI.
  - intros rid a Hk. pose proof (Ha rid) as Hr. rewrite Hk in Hr. inversion Hr as [? b Hab Hx Hy|]; subst.
    symmetry in Hy. destruct (ai_auth _ HI _ _ Hy) as [Hcol Hwf]. split; [done|]. by rewrite Hab.
  - pose proof (ai_count _ HI) as [Hc Hu]. rewrite <- size_dom.
    replace (dom (decoded (MetaStore.auth_table meta) : gmap string MailboxAuth)) with (dom (mailbox_auth s)).
    { rewrite size_dom. lia. }
    apply set_eq. intros rid. rewrite !elem_of_dom. destruct (Ha rid); split; intros [? [=]]; by eexists.
  - pose proof (ai_bytes _ HI) as [Hc Hu]. lia.
Qed.

Lemma build_wp i0 meta q f cfg cr i :
  start_ok meta q f → i0 = clock_tick i →
  wp (build meta q f cfg cr) (λ r _ i', io_step i0 i' ∧
    match r with
    | inr s => AppInv s ∧ Coherent s ∧ meta_store s = meta ∧ queues s = q ∧ files s = f
               ∧ mailbox_auth s ≡ durable_auth s ∧ bundles s = durable_bundles s
               ∧ dirty_auth s = ∅ ∧ dirty_bundles s = ∅ ∧ crypto s = cr ∧ file_config s = cfg
               ∧ mailbox_auth s = refresh (activity_of (next_now i)) <$> durable_auth s
    | inl _ => ¬ quiet i0
    end) () i.
Proof.
  intros [Hq Hf Hc Ha Hs Hb Hy] ->. assert (io_step (clock_tick i) (clock_tick i)) as Hi by done.
  unfold build, now_activity_ms. wp_step. wp_step. apply wp_now_ms. cbn beta iota. do 3 wp_step.
  apply (MetaStore.load_all_auth_wp (clock_tick i)); [done| |by auto].
  clear Hi. intros i1 Hi. cbn beta iota zeta. do 2 wp_step.
  apply (MetaStore.load_all_bundles_wp (clock_tick i)); [done| |by auto].
  clear Hi. intros i2 Hi. cbn beta iota zeta.
  rewrite load_auth_fold by apply MetaStore.decodable_NoDup.
  rewrite (load_bundles_fold (decoded (MetaStore.bundle_table meta))); [|by intros k b ?%MetaStore.elem_decodable|done| |done].
  2:{ apply MetaStore.decodable_NoDup. }
  rewrite !decoded_list. wp_step. split; [done|].
  set (now := next_now i - next_now i mod MAILBOX_ACTIVITY_GRANULARITY_MS).
  set (D := decoded (MetaStore.auth_table meta) : gmap string MailboxAuth) in *.
  assert (refresh now <$> D ≡ D) as Hequiv.
  { intros k. rewrite lookup_fmap. destruct (D !! k) as [a|]; simpl; constructor. apply refresh_equiv. }
  split.
  { split; try done; simpl.
    - rewrite map_size_fmap. done.
    - pose proof (contrib_sum_all (λ _ b, slen (bundle_ciphertext b))
        (MetaStore.decodable (tbl_iter (MetaStore.bundle_table meta))).*1 (decoded (MetaStore.bundle_table meta) : gmap string HostedBundle)) as Hsum.
      rewrite Hsum; [done|apply MetaStore.decodable_NoDup|].
      intros k b Hk. apply (list_elem_of_fmap_2' fst _ (k, b)); [|done]. by apply MetaStore.elem_decodable.
    - intros rid a. rewrite lookup_fmap, fmap_Some. intros (a0 & Hk & ->). destruct (Ha _ _ Hk) as [Hrid Hwf].
      split; [done|]. by rewrite refresh_equiv. }
  split.
  { split; [|done]. intros rid _. change (D !! rid ≡ (refresh now <$> D) !! rid). symmetry. apply Hequiv. }
  by split_and!.
Qed.
End Facts.
