(* ===== verification/StateOps.v ===== *)
(** The per-destination send limit, then pruning and garbage collection.

    The send limit: at most 120 accepted sends per window, and
    at most 240 in any interval as long as a window, while the clock does not go
    back. *)
From Stdlib Require Import ZArith Lia Ascii String.
From stdpp Require Import base gmap strings list sorting.
From S2P Require Import Prelude Redb RustStd Config Util Protocol Mailbox Signal State StateFacts.
From S2P Require QueueStore.
From S2P Require QueueFacts.
From S2P Require QueueRuns.
From S2P Require QueueRemovals.
From S2P Require QueueSpec.
From S2P Require FileStore.
From S2P Require MetaStore.

(** ** A window with a limit *)

Definition in_interval (a b t : Z) : Prop := a ≤ t ≤ b.

#[global] Instance in_interval_dec a b t : Decision (in_interval a b t).
Proof. unfold in_interval. apply _. Defined.

Definition within (a b : Z) (l : list Z) : Z := Z.of_nat (length (filter (in_interval a b) l)).

Lemma within_nonneg a b l : 0 ≤ within a b l.
Proof. unfold within. lia. Qed.

Lemma within_cons a b t l :
  within a b (t :: l) = (if decide (in_interval a b t) then 1 else 0) + within a b l.
Proof. unfold within. rewrite filter_cons. case_decide; simpl length; lia. Qed.

(** Times that never go back, from [w] on. *)
Fixpoint from (w : Z) (times : list Z) : Prop :=
  match times with
  | [] => True
  | t :: r => w ≤ t ≤ u64_max ∧ from t r
  end.

Lemma from_weaken w w' times : w ≤ w' → from w' times → from w times.
Proof. intros Hw. destruct times; simpl; [done|]. intuition lia. Qed.

Section Window.
Context (limit : Z) (Hlimit : 1 ≤ limit).

(** The first event of a window opens it; up to [limit] pass. *)
Definition window_step (now : Z) (e : Z * Z) : (Z * Z) * bool :=
  if decide (e.1 + RATE_WINDOW_MS < now) then ((now, 1), true)
  else if decide (e.2 = limit) then (e, false)
  else ((e.1, e.2 + 1), true).

(** Those of the events at [times] that pass. *)
Fixpoint passed (e : Z * Z) (times : list Z) : list Z :=
  match times with
  | [] => []
  | t :: r =>
      let '(e', ok) := window_step t e in
      if (ok : bool) then t :: passed e' r else passed e' r
  end.

(** Nothing passes in an interval before the times. *)
Lemma passed_later e a b w times : b < w → from w times → within a b (passed e times) = 0.
Proof.
  intros Hb Hf. revert e w Hb Hf. induction times as [|t r IH]; intros e w Hb Hf; [done|]. destruct Hf as [Ht Hr].
  cbn [passed]. destruct (window_step t e) as [e' []]; [|apply (IH _ t); [lia|done]].
  rewrite within_cons, decide_False by (unfold in_interval; lia). by rewrite (IH _ t) by (done || lia).
Qed.

(** Within the current window at most what is left of it. *)
Lemma passed_one_window w c a b w0 times :
  0 ≤ c ≤ limit → b ≤ w + RATE_WINDOW_MS → from w0 times → within a b (passed (w, c) times) ≤ limit - c.
Proof.
  revert w0 c. induction times as [|t r IH]; intros w0 c Hc Hb Hf; [unfold within; simpl; lia|].
  destruct Hf as [Ht Hr]. cbn [passed]. unfold window_step. cbn [fst snd].
  destruct (decide (w + RATE_WINDOW_MS < t)).
  - (* past the window, hence past [b] *)
    rewrite within_cons, decide_False by (unfold in_interval; lia). rewrite (passed_later _ a b t) by (done || lia). lia.
  - destruct (decide (c = limit)).
    + by apply (IH t).
    + rewrite within_cons. pose proof (IH t (c + 1) ltac:(lia) Hb Hr). case_decide; lia.
Qed.

(** Up to two window lengths after the start: the rest of this window and one
    more. *)
Lemma passed_two_windows w c a b w0 times :
  0 ≤ c ≤ limit → b ≤ w + 2 * RATE_WINDOW_MS → from w0 times → within a b (passed (w, c) times) ≤ 2 * limit - c.
Proof.
  revert w0 c. induction times as [|t r IH]; intros w0 c Hc Hb Hf; [unfold within; simpl; lia|].
  destruct Hf as [Ht Hr]. cbn [passed]. unfold window_step. cbn [fst snd].
  destruct (decide (w + RATE_WINDOW_MS < t)).
  - rewrite within_cons. pose proof (passed_one_window t 1 a b t r ltac:(lia) ltac:(lia) Hr). case_decide; lia.
  - destruct (decide (c = limit)).
    + by apply (IH t).
    + rewrite within_cons. pose proof (IH t (c + 1) ltac:(lia) Hb Hr). case_decide; lia.
Qed.

(** Any interval of the length of a window, wherever the window in force begins. *)
Lemma passed_any_interval w c a w0 times :
  0 ≤ c ≤ limit → from w0 times → within a (a + RATE_WINDOW_MS) (passed (w, c) times) ≤ 2 * limit.
Proof.
  revert w0 w c. induction times as [|t r IH]; intros w0 w c Hc Hf; [unfold within; simpl; lia|].
  destruct (Z.le_gt_cases a (w + RATE_WINDOW_MS)) as [Ha|Ha].
  { pose proof (passed_two_windows w c a (a + RATE_WINDOW_MS) w0 (t :: r) Hc ltac:(lia) Hf). lia. }
  destruct Hf as [Ht Hr]. cbn [passed]. unfold window_step. cbn [fst snd].
  destruct (decide (w + RATE_WINDOW_MS < t)).
  - rewrite within_cons. destruct (Z.le_gt_cases a t) as [Hat|Hat].
    + pose proof (passed_one_window t 1 a (a + RATE_WINDOW_MS) t r ltac:(lia) ltac:(lia) Hr).
      case_decide; lia.
    + rewrite decide_False by (unfold in_interval; lia). apply (IH t); [lia|done].
  - destruct (decide (c = limit)); [by apply (IH t)|].
    rewrite within_cons, decide_False by (unfold in_interval; lia). apply (IH t); [lia|done].
Qed.
End Window.

(** ** Sends to a destination *)

(** The accepted ones of the sends tried at [times]. *)
Fixpoint accepted (entry : option (Z * Z)) (times : list Z) : list Z :=
  match times with
  | [] => []
  | t :: r =>
      let '(entry', ok) := rate_step t entry in
      if (ok : bool) then t :: accepted (Some entry') r else accepted (Some entry') r
  end.

Lemma rate_step_window w c t :
  0 ≤ c ≤ MAX_SENDS_PER_DEST_PER_WINDOW →
  rate_step t (Some (w, c)) = window_step MAX_SENDS_PER_DEST_PER_WINDOW t (w, c).
Proof.
  intros Hc. unfold rate_step, window_step, sat_sub, MAX_SENDS_PER_DEST_PER_WINDOW, RATE_WINDOW_MS in *. simpl.
  destruct (Z.ltb_spec (60 * 1000) (Z.max (t - w) 0)), (decide (w + 60 * 1000 < t)); try lia; [done|].
  destruct (Z.leb_spec 120 c), (decide (c = 120)); try lia; [by subst|].
  by rewrite wrap32_small by (unfold u32_max; lia).
Qed.

Lemma accepted_passed w c times :
  0 ≤ c ≤ MAX_SENDS_PER_DEST_PER_WINDOW →
  accepted (Some (w, c)) times = passed MAX_SENDS_PER_DEST_PER_WINDOW (w, c) times.
Proof.
  revert w c. induction times as [|t r IH]; intros w c Hc; [done|].
  cbn [accepted passed]. rewrite rate_step_window by done. unfold window_step. cbn [fst snd].
  case_decide; [f_equal; apply IH; unfold MAX_SENDS_PER_DEST_PER_WINDOW; lia|].
  case_decide; [by apply IH|f_equal; apply IH; lia].
Qed.

Lemma rate_step_fresh t : rate_step t None = ((t, 1), true).
Proof. unfold rate_step. simpl. unfold sat_sub. rewrite Z.sub_diag. done. Qed.

(** In any interval of the length of a window, whatever the entry was. *)
Lemma accepted_bound entry a w0 times :
  (∀ w c, entry = Some (w, c) → 0 ≤ c ≤ MAX_SENDS_PER_DEST_PER_WINDOW) → from w0 times →
  within a (a + RATE_WINDOW_MS) (accepted entry times) ≤ 2 * MAX_SENDS_PER_DEST_PER_WINDOW.
Proof.
  intros He Hf. destruct entry as [[w c]|].
  { rewrite accepted_passed by by eapply He. eapply passed_any_interval; [done|by eapply He|exact Hf]. }
  destruct times as [|t r]; [unfold within, MAX_SENDS_PER_DEST_PER_WINDOW; simpl; lia|].
  assert (accepted None (t :: r) = accepted (Some (t, 0)) (t :: r)) as ->.
  { cbn [accepted]. rewrite rate_step_fresh. unfold rate_step. simpl. unfold sat_sub. by rewrite Z.sub_diag. }
  rewrite accepted_passed by done. eapply passed_any_interval; [done|done|exact Hf].
Qed.

Lemma from_sorted w times : Sorted Z.le times → Forall (λ t, w ≤ t ≤ u64_max) times → from w times.
Proof.
  revert w. induction times as [|t r IH]; intros w Hs Hf; [done|]. apply Forall_cons in Hf as [Ht Hf].
  split; [done|]. apply Sorted_StronglySorted in Hs; [|intros ?; lia]. apply StronglySorted_inv in Hs as [Hs Hle].
  apply IH; [by apply StronglySorted_Sorted|]. rewrite !Forall_forall in *. intros x Hx. specialize (Hf x Hx).
  specialize (Hle x Hx). lia.
Qed.

(** The entry after sends tried at [times]. *)
Definition rate_after (entry : option (Z * Z)) (times : list Z) : option (Z * Z) :=
  foldl (λ e t, Some (rate_step t e).1) entry times.

Lemma accepted_app entry l k : accepted entry (l ++ k) = accepted entry l ++ accepted (rate_after entry l) k.
Proof.
  revert entry. induction l as [|t r IH]; intros entry; cbn [accepted app]; [done|].
  unfold rate_after. cbn [foldl]. destruct (rate_step t entry) as [e []]; rewrite IH; simpl; by rewrite <- ?app_comm_cons.
Qed.

(** Of sends that were tried, the times of those that were allowed. *)
Definition accepted_of (l : list (Z * bool)) : list Z := (filter (λ x, Is_true x.2) l).*1.

Lemma accepted_of_app l k : accepted_of (l ++ k) = accepted_of l ++ accepted_of k.
Proof. unfold accepted_of. by rewrite filter_app, fmap_app. Qed.

(** Pruning of invite bundles and garbage collection of idle mailboxes, run
    symbolically on the shared state. *)

Section Ops.
Context {RD : Redb} {UL : UuidLib} {LS : LibSignal}.
Context {SV : Serde QueueStore.StoredValue} {SM : Serde FileStore.FileMeta}.
Context {SA : Serde MailboxAuth} {SB : Serde HostedBundle}.
Implicit Types (s : AppState) (rid : string).

(** ** Bundles *)

Definition live (now : Z) (m : gmap string HostedBundle) : gmap string HostedBundle :=
  filter (λ kv, now < bundle_expires_at_ms kv.2) m.

Definition pruned (now : Z) s : AppState :=
  set_total_bundle_bytes (bundle_bytes (live now (bundles s)))
    (set_bundles (live now (bundles s))
      (set_dirty_bundles (list_to_set (expired_bundles now (bundles s)).*1 ∪ dirty_bundles s)
        (set_last_bundle_prune_ms now s))).

Lemma elem_expired_bundles now m id len :
  (id, len) ∈ expired_bundles now m
  ↔ ∃ b, m !! id = Some b ∧ bundle_expires_at_ms b ≤ now ∧ len = slen (bundle_ciphertext b).
Proof.
  unfold expired_bundles. rewrite list_elem_of_fmap. setoid_rewrite list_elem_of_filter. split.
  - intros ([k b] & [= -> ->] & He & Hin%elem_of_map_to_list). eauto.
  - intros (b & Hb & He & ->). exists (id, b). by rewrite elem_of_map_to_list.
Qed.

Lemma expired_bundles_NoDup now m : NoDup (expired_bundles now m).*1.
Proof.
  unfold expired_bundles. rewrite <- list_fmap_compose.
  apply NoDup_fmap_2_strong; [|apply NoDup_filter, NoDup_map_to_list].
  intros [k1 b1] [k2 b2] [_ H1%elem_of_map_to_list]%list_elem_of_filter
    [_ H2%elem_of_map_to_list]%list_elem_of_filter. simpl. intros ->. congruence.
Qed.

Lemma live_remove now m : live now m = remove_keys (expired_bundles now m).*1 m.
Proof.
  apply map_eq. intros k. apply option_eq. intros b. unfold live.
  rewrite map_lookup_filter_Some, remove_keys_Some. simpl. split; intros [Hk H]; (split; [done|]).
  - intros ([id len] & -> & (b' & Hb' & ? & _)%elem_expired_bundles)%list_elem_of_fmap. simpl in *. simplify_eq. lia.
  - destruct (Z.lt_ge_cases now (bundle_expires_at_ms b)); [done|]. destruct H.
    apply (list_elem_of_fmap_2' fst _ (k, slen (bundle_ciphertext b))); [|done]. apply elem_expired_bundles. eauto.
Qed.

Lemma freed_expired now m :
  zsum (expired_bundles now m).*2 = bundle_bytes m - bundle_bytes (live now m).
Proof.
  rewrite live_remove. unfold bundle_bytes. rewrite msum_remove_keys by apply expired_bundles_NoDup.
  assert (contrib (λ _ b, slen (bundle_ciphertext b)) m <$> (expired_bundles now m).*1 = (expired_bundles now m).*2) as ->; [|lia].
  rewrite <- list_fmap_compose. apply list_fmap_ext. intros i [id len] Hin%list_elem_of_lookup_2.
  apply elem_expired_bundles in Hin as (b & Hb & _ & ->). simpl. unfold contrib. by rewrite Hb.
Qed.

Lemma bundle_bytes_nonneg m : 0 ≤ bundle_bytes m.
Proof. apply msum_nonneg. intros. apply slen_nonneg. Qed.

Lemma live_le now m : bundle_bytes (live now m) ≤ bundle_bytes m.
Proof. rewrite live_remove. apply msum_remove_keys_le. intros. apply slen_nonneg. Qed.

(** When the prune runs it keeps exactly the live bundles. *)
Lemma prune_wp {E} s i (Q : E + () → AppState → io → Prop) :
  AppInv s →
  (last_bundle_prune_ms s ≠ 0 → next_now i -^ last_bundle_prune_ms s < BUNDLE_PRUNE_MIN_INTERVAL_MS →
   Q (inr ()) s (clock_tick i)) →
  (Q (inr ()) (pruned (next_now i) s) (clock_tick i)) →
  wp prune_expired_bundles Q s i.
Proof.
  intros HI Hskip Hrun. set (now := next_now i) in *. pose proof (ai_bytes _ HI) as [Hb Hu].
  unfold prune_expired_bundles. wp_step. apply wp_now_ms. fold now. cbn beta iota. do 2 wp_step. cbv zeta.
  wp_step.
  { match goal with H : _ && _ = true |- _ => apply andb_prop in H as [?%Z.ltb_lt ?%negb_true_iff%Z.eqb_neq] end.
    wp_step. auto. }
  do 4 wp_step. cbn [bundles set_last_bundle_prune_ms].
  pose proof (freed_expired now (bundles s)) as Hfr. pose proof (live_le now (bundles s)) as Hle.
  pose proof (bundle_bytes_nonneg (live now (bundles s))) as Hnn.
  pose proof (expired_bundles_NoDup now (bundles s)) as Hnd. pose proof (live_remove now (bundles s)) as Hlive.
  destruct (expired_bundles now (bundles s)) as [|x0 l0] eqn:Hexp.
  { wp_step. unfold pruned in Hrun. rewrite Hexp in Hrun. simpl in Hrun. cbn [fmap list_fmap] in Hlive. rewrite remove_keys_nil in Hlive.
    rewrite Hlive, <- Hb, union_empty_l_L in Hrun. by destruct s. }
  rewrite <- Hexp in Hfr, Hnd, Hlive |- *. clear x0 l0 Hexp. set (l := expired_bundles now (bundles s)) in *.
  wp_step.
  apply (wp_foldM _ (λ pre freed s' i', i' = clock_tick i ∧ freed = zsum pre.*2 ∧
    s' = set_bundles (remove_keys pre.*1 (bundles s))
           (set_dirty_bundles (list_to_set pre.*1 ∪ dirty_bundles s) (set_last_bundle_prune_ms now s)))).
  - split; [done|]. split; [done|]. simpl. rewrite remove_keys_nil, union_empty_l_L. by destruct s.
  - intros pre [id len] rest freed s' i' Hl (-> & -> & ->). do 2 wp_step. cbn [bundles set_bundles].
    assert ((id, len) ∈ l) as Hin by (rewrite Hl, elem_of_app; right; left).
    apply elem_expired_bundles in Hin as (b & Hbk & Hex & ->).
    assert (remove_keys pre.*1 (bundles s) !! id = Some b) as Hrk.
    { apply remove_keys_Some. split; [done|]. rewrite Hl, fmap_app, NoDup_app in Hnd.
      destruct Hnd as (_ & Hd & _). intros Hp. apply (Hd id Hp). left. }
    rewrite Hrk. wp_steps. unfold mark_bundle_dirty. wp_steps.
    assert (zsum pre.*2 + slen (bundle_ciphertext b) ≤ bundle_bytes (bundles s)) as Hbound.
    { assert (0 ≤ zsum rest.*2) as Hrest.
      { apply zsum_nonneg, Forall_forall. intros z ([k n] & -> & Hk)%list_elem_of_fmap.
        assert ((k, n) ∈ l) as (? & _ & _ & ->)%elem_expired_bundles
          by (rewrite Hl, elem_of_app; right; by right). apply slen_nonneg. }
      rewrite Hl, fmap_app, fmap_cons, zsum_app, zsum_cons in Hfr. simpl in Hfr. lia. }
    split; [done|]. rewrite sat_add_small by lia. rewrite !fmap_app, zsum_app. split; [simpl; lia|].
    rewrite list_to_set_app_L. simpl. rewrite remove_keys_snoc. unfold set_dirty_bundles, set_bundles. simpl.
    f_equal.
    by rewrite union_empty_r_L, (union_comm_L _ {[id]}), union_assoc_L.
  - intros freed s' i' (-> & -> & ->). wp_step. unfold pruned in Hrun. fold l in Hrun.
    unfold atomic_sub_saturating. cbn [total_bundle_bytes set_bundles set_dirty_bundles set_last_bundle_prune_ms].
    rewrite Hfr, sat_sub_le by lia. rewrite <- Hlive.
    replace (total_bundle_bytes s - _) with (bundle_bytes (live now (bundles s))) by lia. done.
Qed.

Lemma AppInv_pruned now s : AppInv s → AppInv (pruned now s).
Proof.
  intros []. split; try done; simpl.
  - split; [done|]. pose proof (live_le now (bundles s)). lia.
  - intros id b [Hb _]%map_lookup_filter_Some. by apply ai_bundles.
Qed.

Lemma Coherent_pruned now s : Coherent s → Coherent (pruned now s).
Proof.
  intros [Ha Hb]. split; [done|]. intros id. simpl. intros [Hn Hd]%not_elem_of_union.
  change (durable_bundles s !! id = live now (bundles s) !! id). rewrite (Hb id Hd), live_remove.
  apply option_eq. intros b. rewrite remove_keys_Some. rewrite elem_of_list_to_set in Hn. tauto.
Qed.
(** ** Garbage collection *)

(** What one collection leaves behind. *)
Record collected (rid : string) s s' : Prop := {
  gc_inv : AppInv s';
  gc_coherent : Coherent s → Coherent s';
  gc_auth : mailbox_auth s' = delete rid (mailbox_auth s);
  gc_online : online s' = online s;
  gc_queue : ∀ mb, mb ≠ rid → QueueSpec.abs (queues s') mb = QueueSpec.abs (queues s) mb;
  gc_bundles : bundles s' = bundles s;
  gc_files : files s' = files s;
  gc_purged : QueueSpec.abs (queues s') rid = [] ∨ QueueSpec.abs (queues s') rid = QueueSpec.abs (queues s) rid;
}.

(** Idle for longer than the TTL, and no live socket. *)
Definition collectable (now : Z) s rid : Prop :=
  ∃ a, mailbox_auth s !! rid = Some a ∧ MAILBOX_IDLE_TTL_MS < now -^ last_active_ms a ∧ online s !! rid = None.

Lemma size_delete_lookup `{Countable K} {A} (m : gmap K A) k a :
  m !! k = Some a → Z.of_nat (size (delete k m)) = Z.of_nat (size m) - 1.
Proof.
  intros Hk. pose proof (msum_delete (λ _ _, 1) m k) as Hd. rewrite !msum_size in Hd. rewrite Hd.
  unfold contrib. by rewrite Hk.
Qed.

Lemma contains_online_false rid s : contains_online rid s = false ↔ online s !! rid = None.
Proof. unfold contains_online. by destruct (online s !! rid). Qed.

Lemma gc_collect_one_wp {E} i0 now rid s i :
  AppInv s → io_step i0 i →
  wp (gc_collect_one (E := E) now rid) (λ r s' i', io_step i0 i' ∧
    match r with
    | inr true => collectable now s rid ∧ collected rid s s'
    | inr false => s' = s ∧ ¬ collectable now s rid
    | inl _ => False
    end) s i.
Proof.
  intros HI Hi. unfold gc_collect_one. do 2 wp_step. cbv zeta.
  destruct (mailbox_auth s !! rid) as [a|] eqn:Ha.
  2:{ wp_step. split; [done|]. split; [done|]. intros (a & Ha' & _). congruence. }
  destruct (idle now a && negb (contains_online rid s)) eqn:Hc; cbn beta iota.
  2:{ wp_step. split; [done|]. split; [done|]. intros (a' & Ha' & Hidle & Hon). simplify_eq.
      unfold idle in Hc. rewrite (proj2 (Z.ltb_lt _ _) Hidle), (proj2 (contains_online_false rid s) Hon) in Hc. done. }
  apply andb_prop in Hc as [Hidle%Z.ltb_lt Hon%negb_true_iff%contains_online_false].
  destruct (ai_auth _ HI _ _ Ha) as [Hrid _]. pose proof (ai_count _ HI) as [Hcnt Hcu].
  pose proof (size_delete_lookup _ _ _ Ha) as Hsz.
  do 4 wp_step. unfold mark_auth_dirty. do 4 wp_step. wp_step.
  eapply wp_conseq; [by apply (QueueSpec.purge_effect i0); [apply HI|..]|]. cbn beta.
  clear Hi. intros r q' i' (Hi & Hq & Hother & Hown). wp_steps. split; [done|].
  split; [by exists a|]. destruct HI.
  split; try done; simpl.
  - split; try done; simpl.
    + rewrite wrap64_small by (unfold is_u64; lia). lia.
    + intros rid' a' [_ H]%lookup_delete_Some. by apply ai_auth.
    + intros to w c [_ H]%lookup_delete_Some. by eapply ai_rate.
  - intros [Hca Hcb]. split; [|done]. intros rid'. simpl. intros [Hne Hd]%not_elem_of_union.
    rewrite lookup_delete_ne; [by apply Hca|]. intros ->. by apply Hne, elem_of_singleton.
  - destruct r as [e|n]; [right; by destruct Hown as [_ ->]|by left].
Qed.

(** The mailboxes a collection of [stale] started in [s] leaves. *)
Definition survivors (now : Z) (stale : list string) s : gmap string MailboxAuth :=
  filter (λ kv, ¬ (kv.1 ∈ stale ∧ MAILBOX_IDLE_TTL_MS < now -^ last_active_ms kv.2 ∧ online s !! kv.1 = None))
    (mailbox_auth s).

Lemma survivors_nil now s : survivors now [] s = mailbox_auth s.
Proof. apply map_filter_id. intros k a _ [H _]. by apply not_elem_of_nil in H. Qed.

Lemma survivors_same now s s' stale :
  mailbox_auth s' = mailbox_auth s → online s' = online s → survivors now stale s' = survivors now stale s.
Proof. intros H1 H2. unfold survivors. by rewrite H1, H2. Qed.

Lemma survivors_snoc now pre rid s (b : bool) :
  (if b then collectable now s rid else rid ∈ pre ∨ ¬ collectable now s rid) →
  survivors now (pre ++ [rid]) s = (if b then delete rid (survivors now pre s) else survivors now pre s).
Proof.
  intros Hb. apply map_eq. intros k. apply option_eq. intros a. destruct b.
  - rewrite lookup_delete_Some. unfold survivors. rewrite !map_lookup_filter_Some. simpl.
    rewrite elem_of_app, list_elem_of_singleton. destruct Hb as (a0 & Ha0 & Hi & Ho). split.
    + intros [Hk Hn]. split; [intros ->; simplify_eq; tauto|tauto].
    + intros (Hne & Hk & Hn). split; [done|]. intros ([?| ->] & ?); [tauto|done].
  - unfold survivors. rewrite !map_lookup_filter_Some. simpl. rewrite elem_of_app, list_elem_of_singleton. split.
    + intros [Hk Hn]. split; [done|tauto].
    + intros [Hk Hn]. split; [done|]. intros ([?| ->] & Hi & Ho); [tauto|].
      destruct Hb as [Hp|Hc]; [tauto|]. apply Hc. by exists a.
Qed.

Lemma survivors_step now pre rid s s1 (b : bool) s2 :
  mailbox_auth s1 = survivors now pre s → online s1 = online s →
  (if b then collectable now s1 rid ∧ mailbox_auth s2 = delete rid (mailbox_auth s1)
   else s2 = s1 ∧ ¬ collectable now s1 rid) →
  mailbox_auth s2 = survivors now (pre ++ [rid]) s.
Proof.
  intros Ha Ho Hb. rewrite (survivors_snoc now pre rid s b).
  { destruct b; [destruct Hb as [_ ->]|destruct Hb as [-> _]]; by rewrite Ha. }
  destruct b.
  - destruct Hb as [(a & Hk & Hi & Hoff) _]. exists a. rewrite Ha in Hk. apply map_lookup_filter_Some in Hk as [Hk _].
    by rewrite <- Ho.
  - destruct Hb as [_ Hc]. destruct (decide (rid ∈ pre)) as [|Hp]; [by left|right].
    intros (a & Hk & Hi & Hoff). apply Hc. exists a. rewrite Ho, Ha. split_and!; [|done..].
    apply map_lookup_filter_Some. split; [done|]. by intros [? _].
Qed.

Lemma gc_collect_wp {E} i0 now stale s i :
  AppInv s → io_step i0 i →
  wp (gc_collect (E := E) now stale) (λ r s' i', io_step i0 i' ∧
    r = inr (Z.of_nat (size (mailbox_auth s)) - Z.of_nat (size (mailbox_auth s')))
    ∧ AppInv s' ∧ (Coherent s → Coherent s')
    ∧ mailbox_auth s' = survivors now stale s ∧ online s' = online s
    ∧ (∀ mb, survivors now stale s !! mb = mailbox_auth s !! mb →
         QueueSpec.abs (queues s') mb = QueueSpec.abs (queues s) mb)
    ∧ (∀ mb, QueueSpec.abs (queues s') mb = [] ∨ QueueSpec.abs (queues s') mb = QueueSpec.abs (queues s) mb)
    ∧ bundles s' = bundles s ∧ files s' = files s) s i.
Proof.
  intros HI Hi. unfold gc_collect.
  apply (wp_foldM _ (λ pre removed s' i', io_step i0 i'
    ∧ removed = Z.of_nat (size (mailbox_auth s)) - Z.of_nat (size (mailbox_auth s'))
    ∧ (0 ≤ removed) ∧ AppInv s' ∧ (Coherent s → Coherent s')
    ∧ mailbox_auth s' = survivors now pre s ∧ online s' = online s
    ∧ (∀ mb, survivors now pre s !! mb = mailbox_auth s !! mb →
         QueueSpec.abs (queues s') mb = QueueSpec.abs (queues s) mb)
    ∧ (∀ mb, QueueSpec.abs (queues s') mb = [] ∨ QueueSpec.abs (queues s') mb = QueueSpec.abs (queues s) mb)
    ∧ bundles s' = bundles s ∧ files s' = files s)).
  - rewrite survivors_nil. split_and!; try done; [lia|by right].
  - intros pre rid rest removed s1 i1 _ (Hi1 & Hrem & Hpos & HI1 & Hc1 & Ha1 & Ho1 & Hq1 & Hp1 & Hb1 & Hf1).
    wp_step. eapply wp_conseq; [by apply (gc_collect_one_wp i0)|]. cbn beta.
    intros [e|b] s2 i2 [Hi2 H2]; [done|]. wp_step.
    assert (mailbox_auth s2 = survivors now (pre ++ [rid]) s) as Ha2.
    { apply (survivors_step now pre rid s s1 b s2 Ha1 Ho1). destruct b; [|done].
      destruct H2 as [? []]. done. }
    destruct b.
    + destruct H2 as [Hcoll [HI2 Hc2 Hd2 Ho2 Hq2 Hb2 Hf2 Hp2]].
      destruct Hcoll as (a & Hk & _). pose proof (size_delete_lookup _ _ _ Hk) as Hsz. rewrite <- Hd2 in Hsz.
      pose proof (ai_count _ HI) as [Hn Hu].
      rewrite wrap64_small by (unfold is_u64; lia).
      split_and!; [done|lia|lia|done|by auto|done|congruence| | |congruence..].
      2:{ intros mb. destruct (decide (mb = rid)) as [->|Hne]; [|by rewrite Hq2].
          destruct Hp2 as [?| ->]; [by left|done]. }
      intros mb Hmb. rewrite <- Ha2, Hd2, Ha1 in Hmb.
      destruct (decide (mb = rid)) as [->|Hne].
      * exfalso. rewrite lookup_delete_eq in Hmb. rewrite Ha1 in Hk.
        apply map_lookup_filter_Some in Hk as [Hk _]. congruence.
      * rewrite lookup_delete_ne in Hmb by done. rewrite Hq2 by done. by apply Hq1.
    + destruct H2 as [-> _]. split_and!; try done; try (by right). intros mb Hmb. apply Hq1. by rewrite <- Ha1, Ha2.
  - intros removed s' i' (H1 & H2 & _ & H3 & H4 & H5 & H6 & H7 & H8 & H9 & H10). subst removed. by split_and!.
Qed.

(** The snapshot reads the queues and changes nothing; a mailbox it lists is
    idle, offline, and its queue was empty or unreadable. *)
Lemma gc_snapshot_wp {E} s i :
  AppInv s →
  wp (gc_snapshot (E := E)) (λ r s' i', io_step (clock_tick i) i' ∧ s' = s ∧
    match r with
    | inr (now, stale) => now = next_now i ∧
        ∀ rid, rid ∈ stale → collectable now s rid ∧ (quiet i → QueueSpec.abs (queues s) rid = [])
    | inl _ => False
    end) s i.
Proof.
  intros HI. unfold gc_snapshot. wp_step. apply wp_now_ms. cbn beta iota. do 3 wp_step.
  apply (wp_foldM _ (λ pre stale s' i', io_step (clock_tick i) i' ∧ s' = s ∧
    ∀ rid, rid ∈ stale → collectable (next_now i) s rid ∧ (quiet i → QueueSpec.abs (queues s) rid = []))).
  - split_and!; try done. intros rid H. by apply not_elem_of_nil in H.
  - intros pre rid rest stale s1 i1 Hl (Hi1 & -> & Hst).
    assert (rid ∈ gc_candidates (next_now i) (mailbox_auth s)) as Hin by (rewrite Hl, elem_of_app; right; left).
    unfold gc_candidates in Hin. apply list_elem_of_fmap in Hin as ([k a] & -> & [Hidle Hk%elem_of_map_to_list]%list_elem_of_filter).
    simpl in *. destruct (ai_auth _ HI _ _ Hk) as [Hcol _].
    assert (collectable (next_now i) s k ∨ online s !! k ≠ None) as Hc.
    { destruct (online s !! k) eqn:Ho; [by right|left]. exists a. split_and!; [done| |done].
      unfold idle in Hidle. by apply Is_true_true, Z.ltb_lt in Hidle. }
    assert (∀ b : bool, (b = true → quiet i → QueueSpec.abs (queues s) k = []) →
      ∀ rid, rid ∈ (if b && negb (contains_online k s) then stale ++ [k] else stale) →
        collectable (next_now i) s rid ∧ (quiet i → QueueSpec.abs (queues s) rid = [])) as Hadd.
    { intros b Hb rid. destruct (b && negb (contains_online k s)) eqn:Hbc; [|apply Hst].
      apply andb_prop in Hbc as [-> Hoff%negb_true_iff%contains_online_false].
      intros [Hin| ->%list_elem_of_singleton]%elem_of_app; [by apply Hst|]. destruct Hc; [auto|done]. }
    do 3 wp_step. apply (QueueRuns.is_empty_wp (clock_tick i)); [apply HI|done|done|..]; cbn beta iota zeta.
    + intros i2 Hi2. do 2 wp_step. wp_step. split; [done|]. split; [by destruct s|].
      replace (set_queues (queues s) s) with s by by destruct s. apply Hadd. intros Hb%bool_decide_eq_true _.
      unfold QueueSpec.abs. by rewrite Hb.
    + intros Hnq i2 Hi2. do 2 wp_step. wp_step. split; [done|]. split; [by destruct s|].
      replace (set_queues (queues s) s) with s by by destruct s. apply Hadd. intros _ Hq. destruct Hnq. by apply quiet_tick.
  - intros stale s' i' (H1 & -> & H2). wp_step. done.
Qed.
End Ops.
