(* ===== verification/StateProps.v ===== *)
(** What [state.rs] guarantees: garbage collection and pruning remove only what
    they may, and the write-back loses nothing across a restart. *)
From Stdlib Require Import ZArith Lia Ascii String.
From stdpp Require Import base gmap strings list.
From S2P Require Import Prelude Redb RustStd Config Util Protocol Mailbox Signal State StateFacts StateOps.
From S2P Require QueueStore.
From S2P Require QueueFacts.
From S2P Require QueueRuns.
From S2P Require QueueSpec.
From S2P Require QueueProps.
From S2P Require FileStore.
From S2P Require FileProps.
From S2P Require MetaStore.

(** ** A concrete relay *)

(** A concrete [LibSignal]: a certificate is the list of what it certifies. *)
#[refine] Definition demo_signal : LibSignal := {|
  PublicKey := bytes;
  PrivateKey := ();
  ServerCertificate := ();
  SenderCertificate := (string * bytes * Z)%type;
  DeviceId := Z;
  Rng := ();
  public_key_deserialize b := inr b;
  device_id d := Some d;
  sender_certificate_new uuid key _ exp _ _ _ := inr (uuid, key, exp);
  sender_certificate_serialized c := inr c.1.2;
  cert_sender_uuid c := c.1.1;
  cert_key c := c.1.2;
  cert_expiration c := c.2;
|}.
Proof. intros uuid key dev exp sc sk rng cert [= <-]. done. Defined.

Definition auth_serde : Serde MailboxAuth := serde_countable MailboxAuth.

Definition bundle_serde : Serde HostedBundle := serde_countable HostedBundle.

Section Demo.
#[local] Existing Instances gmap_redb unary_uuid demo_signal demo_hashing QueueProps.demo_serde FileProps.meta_serde
  auth_serde bundle_serde.

Definition demo_crypto : ServerCrypto :=
  {| trust_root_public_b64 := "root"; server_certificate := (); server_signing_private := () |}.

Definition demo_rid : string := "mbx_aaaaaaaaaaaaaaaaaaaaaaaaaaaaaaaa".

Definition demo_auth : MailboxAuth :=
  {| receive_auth_hash := token_hash "auth_aaaaaaaaaaa"; delivery_token_hash := token_hash "send_aaaaaaaaaaa";
     delivery_token_hashes := [token_hash "send_aaaaaaaaaaa"]; last_active_ms := 0 |}.

Definition demo_bundle : HostedBundle :=
  {| bundle_key := "bundle_aaaaaaaaa"; bundle_ciphertext := "c"; bundle_created_at_ms := 0;
     bundle_expires_at_ms := 1000 |}.

(** A relay with one mailbox, idle since the epoch, and one invite bundle; both
    not yet written back. *)
Definition demo_state : AppState := {|
  queues := QueueProps.empty_queues;
  meta_store := {| MetaStore.auth_table := tbl_empty; MetaStore.bundle_table := tbl_empty |};
  files := FileProps.empty_files;
  file_config := FileProps.demo_config;
  online := ∅;
  mailbox_auth := {[ demo_rid := demo_auth ]};
  mailbox_count := 1;
  bundles := {[ "bundle_aaaaaaaaa" := demo_bundle ]};
  total_bundle_bytes := 1;
  send_rate := ∅;
  crypto := demo_crypto;
  dirty_auth := {[ demo_rid ]};
  dirty_bundles := {[ "bundle_aaaaaaaaa" ]};
  conn_count := 0;
  last_bundle_prune_ms := 0;
|}.

Lemma AppInv_demo : AppInv demo_state.
Proof.
  split; simpl.
  - apply QueueProps.Inv_empty_queues.
  - apply FileProps.Inv_empty_files.
  - apply FileProps.Inv_empty_files.
  - by rewrite map_size_singleton.
  - vm_compute. split; [done|congruence].
  - intros rid a [<- <-]%lookup_singleton_Some. split; [by vm_compute|]. apply (wf_new _ _ 0).
  - intros id b [<- <-]%lookup_singleton_Some. done.
  - intros to w c Hr. by rewrite lookup_empty in Hr.
Qed.

Lemma Coherent_demo : Coherent demo_state.
Proof.
  split.
  - intros rid Hd. change (decoded tbl_empty !! rid ≡ ({[ demo_rid := demo_auth ]} : gmap string _) !! rid).
    rewrite decoded_empty, lookup_empty, lookup_singleton_ne; [done|]. intros <-. by apply Hd, elem_of_singleton.
  - intros id Hd. change (decoded tbl_empty !! id = ({[ "bundle_aaaaaaaaa" := demo_bundle ]} : gmap string _) !! id).
    rewrite decoded_empty, lookup_empty, lookup_singleton_ne; [done|]. intros <-. by apply Hd, elem_of_singleton.
Qed.
End Demo.

Section Props.
Context {RD : Redb} {UL : UuidLib} {LS : LibSignal}.
Context {SV : Serde QueueStore.StoredValue} {SM : Serde FileStore.FileMeta}.
Context {SA : Serde MailboxAuth} {SB : Serde HostedBundle}.
Implicit Types (s : AppState) (rid : string).

(** C38. Collecting any list of candidates, from whatever state the other operations left since
    the snapshot, removes exactly those that are still idle past the TTL and offline, leaves the
    queues of all others untouched, and keeps the invariant, the coherence and the count. *)
Theorem gc_collects_only_idle {E} now stale s i :
  AppInv s →
  wp (gc_collect (E := E) now stale) (λ r s' _, AppInv s' ∧ (Coherent s → Coherent s')
    ∧ (∀ rid a, mailbox_auth s' !! rid = Some a ↔ mailbox_auth s !! rid = Some a
         ∧ ¬ (rid ∈ stale ∧ MAILBOX_IDLE_TTL_MS < now -^ last_active_ms a ∧ online s !! rid = None))
    ∧ (∀ rid, mailbox_auth s' !! rid = mailbox_auth s !! rid →
         QueueSpec.abs (queues s') rid = QueueSpec.abs (queues s) rid)
    ∧ r = inr (Z.of_nat (size (mailbox_auth s)) - Z.of_nat (size (mailbox_auth s')))
    ∧ online s' = online s ∧ bundles s' = bundles s ∧ files s' = files s) s i.
Proof.
  intros HI. eapply wp_conseq; [by apply (gc_collect_wp i)|]. cbn beta.
  intros r s' i' (_ & -> & HI' & Hc & Ha & Ho & Hq & _ & Hb & Hf). split_and!; try done.
  - intros rid a. rewrite Ha. apply map_lookup_filter_Some.
  - intros rid Hrid. apply Hq. by rewrite <- Ha.
Qed.

(** A garbage collection run with no failing database call changes the queue of no mailbox.
    *)
Theorem gc_loses_no_message {E} s i :
  AppInv s → quiet i →
  wp (gc_idle_mailboxes (E := E)) (λ r s' _,
    (∃ n, r = inr n) ∧ ∀ mb, QueueSpec.abs (queues s') mb = QueueSpec.abs (queues s) mb) s i.
Proof.
  intros HI Hqi. unfold gc_idle_mailboxes. wp_step. eapply wp_conseq; [by apply gc_snapshot_wp|]. cbn beta.
  intros [e|[now stale]] s1 i1 (Hi & -> & Hst); [done|]. destruct Hst as [-> Hst].
  eapply wp_conseq; [by apply (gc_collect_wp i1)|]. cbn beta.
  intros r s' i' (_ & -> & _ & _ & Ha & _ & Hq & Hp & _). split; [by eexists|]. intros mb.
  destruct (decide (mb ∈ stale)) as [Hin|Hin].
  - destruct (Hst _ Hin) as [_ Hempty]. rewrite (Hempty Hqi). destruct (Hp mb) as [?|Heq]; [done|]. by rewrite Heq, Hempty.
  - apply Hq. apply option_eq. intros a. unfold survivors. rewrite map_lookup_filter_Some. simpl. tauto.
Qed.

(** A prune either is skipped by its minimum interval, changing nothing, or keeps exactly
    the bundles that have not expired; the byte total stays the true sum. *)
Theorem prune_keeps_exactly_live {E} s i :
  AppInv s →
  wp (prune_expired_bundles (E := E)) (λ r s' _, r = inr () ∧ AppInv s' ∧ (Coherent s → Coherent s')
    ∧ (s' = s ∧ next_now i -^ last_bundle_prune_ms s < BUNDLE_PRUNE_MIN_INTERVAL_MS
       ∨ ∀ id b, bundles s' !! id = Some b ↔ bundles s !! id = Some b ∧ next_now i < bundle_expires_at_ms b)
    ∧ total_bundle_bytes s' = bundle_bytes (bundles s')
    ∧ queues s' = queues s ∧ files s' = files s ∧ mailbox_auth s' = mailbox_auth s ∧ online s' = online s) s i.
Proof.
  intros HI. apply prune_wp; [done| |].
  - intros _ Hlt. split_and!; try done; [by left|apply HI].
  - split_and!; try done; [by apply AppInv_pruned|apply Coherent_pruned|].
    right. intros id b. apply map_lookup_filter_Some.
Qed.

(** C32. After a flush that succeeds, a restart from the tables recovers every mailbox record
    (up to its activity time), every bundle, the counters, and both stores; a flush or a start
    fails only when a database call failed. *)
Theorem restart_after_flush s i j :
  AppInv s → Coherent s →
  wp flush_dirty_meta (λ r s1 _,
    match r with
    | inr _ => wp (build (meta_store s1) (queues s) (files s) (file_config s) (crypto s)) (λ r' _ _,
        match r' with
        | inr t => AppInv t ∧ Coherent t ∧ mailbox_auth t ≡ mailbox_auth s ∧ bundles t = bundles s
                   ∧ mailbox_count t = mailbox_count s ∧ total_bundle_bytes t = total_bundle_bytes s
                   ∧ queues t = queues s ∧ files t = files s
        | inl _ => ¬ quiet (clock_tick j)
        end) () j
    | inl _ => ¬ quiet i
    end) s i.
Proof.
  intros HI HC. eapply wp_conseq; [by apply (flush_dirty_meta_wp i)|]. cbn beta.
  intros [e|u] s1 i1 (_ & Hram & Hr); [done|]. destruct Hr as (Hda & Hdb & HC1). specialize (HC1 HC).
  pose proof Hram as (Hq & Hf & _ & _ & Ha & Hn & Hb & Hy & _).
  assert (durable_auth s1 ≡ mailbox_auth s) as Hauth.
  { intros rid. rewrite <- Ha. apply HC1. rewrite Hda. apply not_elem_of_empty. }
  assert (durable_bundles s1 = bundles s) as Hbun.
  { apply map_eq. intros id. rewrite <- Hb. apply HC1. rewrite Hdb. apply not_elem_of_empty. }
  assert (Z.of_nat (size (durable_auth s1)) = Z.of_nat (size (mailbox_auth s))) as Hsz.
  { rewrite <- !size_dom. do 2 f_equal. apply set_eq. intros rid. rewrite !elem_of_dom.
    destruct (Hauth rid); split; intros [? [=]]; by eexists. }
  pose proof (ai_count _ HI) as [Hcnt Hcu]. pose proof (ai_bytes _ HI) as [Hby Hbu].
  eapply wp_conseq; [apply (build_wp (clock_tick j)); [|done]|].
  { by apply start_ok_clean. }
  cbn beta. intros [e|t] s' i' [_ Ht]; [done|].
  destruct Ht as (HIt & HCt & Hm & Hqt & Hft & Hat & Hbt & _).
  assert (durable_auth t = durable_auth s1) as Hdt by (unfold durable_auth; by rewrite Hm).
  assert (durable_bundles t = durable_bundles s1) as Hdb' by (unfold durable_bundles; by rewrite Hm).
  rewrite Hdt in Hat. rewrite Hdb', Hbun in Hbt.
  assert (mailbox_auth t ≡ mailbox_auth s) as Hts by (by etrans).
  split_and!; try done.
  - pose proof (ai_count _ HIt) as [-> _]. rewrite Hcnt, <- !size_dom. do 2 f_equal. apply set_eq.
    intros rid. rewrite !elem_of_dom. destruct (Hts rid); split; intros [? [=]]; by eexists.
  - pose proof (ai_bytes _ HIt) as [-> _]. by rewrite Hbt.
Qed.

End Props.

(** ** Witnesses *)

Section Witnesses.
#[local] Existing Instances gmap_redb unary_uuid demo_signal demo_hashing QueueProps.demo_serde FileProps.meta_serde
  auth_serde bundle_serde.

(** Past the idle time of [demo_rid]. *)
Definition demo_late : io := QueueProps.at_time 3000000000.

Lemma gc_collects_only_idle_witness :
  mailbox_auth (gc_collect (E := ()) 3000000000 [demo_rid] demo_state QueueProps.calm).1.2 = ∅
  ∧ wp (gc_collect (E := ()) 3000000000 [demo_rid]) (λ _ s' _, AppInv s') demo_state QueueProps.calm.
Proof.
  split; [by vm_compute|].
  eapply wp_conseq; [exact (gc_collects_only_idle 3000000000 [demo_rid] demo_state QueueProps.calm AppInv_demo)|].
  by intros r s' i' [? _].
Defined.

Lemma gc_loses_no_message_witness :
  mailbox_auth (gc_idle_mailboxes (E := ()) demo_state demo_late).1.2 = ∅
  ∧ wp (gc_idle_mailboxes (E := ())) (λ _ s' _, ∀ mb, QueueSpec.abs (queues s') mb = QueueSpec.abs (queues demo_state) mb)
      demo_state demo_late.
Proof.
  split; [by vm_compute|].
  eapply wp_conseq; [exact (gc_loses_no_message demo_state demo_late AppInv_demo (Forall_nil_2 _))|].
  by intros r s' i' [_ ?].
Defined.

Lemma prune_keeps_exactly_live_witness :
  bundles (prune_expired_bundles (E := ()) demo_state demo_late).1.2 = ∅
  ∧ wp (prune_expired_bundles (E := ())) (λ _ s' _, AppInv s') demo_state demo_late.
Proof.
  split; [by vm_compute|].
  eapply wp_conseq; [exact (prune_keeps_exactly_live demo_state demo_late AppInv_demo)|].
  by intros r s' i' (_ & ? & _).
Defined.

Lemma restart_after_flush_witness :
  wp flush_dirty_meta (λ r s1 _, ∃ u, r = inr u ∧
    wp (build (meta_store s1) (queues demo_state) (files demo_state) (file_config demo_state) (crypto demo_state))
      (λ r' _ _, ∃ t, r' = inr t ∧ mailbox_auth t ≡ mailbox_auth demo_state ∧ bundles t = bundles demo_state)
      () QueueProps.calm) demo_state QueueProps.calm.
Proof.
  eapply wp_conseq; [exact (restart_after_flush demo_state QueueProps.calm QueueProps.calm AppInv_demo Coherent_demo)|].
  intros [e|u] s1 i1 H; [destruct H; constructor|]. exists u. split; [done|].
  eapply wp_conseq; [exact H|]. intros [e|t] s' i' Ht; [destruct Ht; constructor|].
  destruct Ht as (_ & _ & ? & ? & _). by exists t.
Defined.

(** ** Observed behaviour *)

(** A flush whose write fails has already emptied the dirty set: the mailbox is
    in memory only, and nothing will write it. *)
Example failed_flush_forgets_the_write :
  let s' := (flush_dirty_meta demo_state (Io [true] [] [] [])).1.2 in
  dirty_auth s' = ∅ ∧ mailbox_auth s' !! demo_rid = Some demo_auth ∧ durable_auth s' !! demo_rid = None.
Proof. vm_compute. split_and!; reflexivity. Qed.

(** [demo_state] with a message waiting for [demo_rid]. *)
Definition demo_waiting : AppState :=
  set_queues (QueueRuns.enqueued QueueProps.empty_queues demo_rid
    {| env_id := 1%nat; env_to := demo_rid; envelope_type := "msg"; ciphertext := "c1" |} 5 []) demo_state.

(** When the queue of an idle mailbox cannot be read, it counts as empty: the
    mailbox is collected and its message purged. *)
Example unreadable_queue_is_purged :
  length (QueueSpec.abs (queues demo_waiting) demo_rid) = 1%nat
  ∧ QueueSpec.abs (queues (gc_idle_mailboxes (E := ()) demo_waiting (Io [true] [] [3000000000] [])).1.2) demo_rid = []
  ∧ QueueSpec.abs (queues (gc_idle_mailboxes (E := ()) demo_waiting demo_late).1.2) demo_rid
    = QueueSpec.abs (queues demo_waiting) demo_rid.
Proof. vm_compute. split_and!; reflexivity. Qed.

(** A 65th token pushes the first one off the list, but it stays accepted as the
    mailbox's [delivery_token_hash]. *)
Example evicted_first_token_still_accepted :
  let a := replace_delivery_hashes ((λ n, dec (Z.of_nat n)) <$> seq 0 64) demo_auth in
  let a' := (ensure_delivery_hash "new" a).2 in
  length (delivery_token_hashes a') = 64%nat ∧ bool_decide ("0"%string ∈ delivery_token_hashes a') = false
  ∧ accepts_delivery_hash a' "0" = true.
Proof. vm_compute. split_and!; reflexivity. Qed.
End Witnesses.
