(* ===== verification/Ws.v ===== *)
(** [ws.rs]: one WebSocket connection, from the accept to the teardown.

    A [Session] is the relay's shared state, the connection's own variables and
    the log of the frames accepted by outbound channels, each with its channel.
    A handler is a definition per [ClientFrame]; what it draws from the operating
    system (a fresh envelope id, a seeded generator) is an argument. *)
From Stdlib Require Import ZArith Lia Ascii String.
From stdpp Require Import base gmap strings list.
From S2P Require Import Prelude Redb RustStd Config Util Protocol Mailbox Signal State.
From S2P Require QueueStore.
From S2P Require FileStore.

(** ** Frames as text *)

(** What a frame read from a text of [n] bytes satisfies: its numbers have their
    type's width, its strings are no longer than the text. *)
Definition frame_fits `{!UuidLib} (n : Z) (f : ClientFrame) : Prop :=
  match f with
  | UploadBundle _ _ ciphertext expires_at_ms _ => slen ciphertext ≤ n ∧ is_u64 expires_at_ms
  | SendEnvelope _ _ _ _ ciphertext => slen ciphertext ≤ n
  | UploadFileChunk _ _ chunk_index total_chunks total_bytes ciphertext _ =>
      0 ≤ chunk_index ≤ u32_max ∧ 0 ≤ total_chunks ≤ u32_max ∧ is_u64 total_bytes ∧ slen ciphertext ≤ n
  | FetchFileChunk _ _ chunk_index => 0 ≤ chunk_index ≤ u32_max
  | _ => True
  end.

(** [serde_json::from_str::<ClientFrame>]. *)
Class Json `{!UuidLib} := {
  parse_frame : string → string + ClientFrame;
  parse_fits : ∀ text f, parse_frame text = inr f → frame_fits (slen text) f;
}.

Section Ws.
Context {RD : Redb} {UL : UuidLib} {LS : LibSignal} {HS : Hashing} {B6 : Base64} {JS : Json}.
Context {SV : Serde QueueStore.StoredValue} {SM : Serde FileStore.FileMeta}.
Context {SA : Serde MailboxAuth} {SB : Serde HostedBundle}.

(** ** The connection *)

Record Conn := {
  tx : ClientTx;
  recipient_id : option RecipientId;
  window_start_ms : Z;
  frame_count : Z;
}.

Record Session := {
  app : AppState;
  conn : Conn;
  sent : list (ClientTx * ServerFrame);
}.

Definition set_app (a : AppState) (s : Session) : Session := {| app := a; conn := conn s; sent := sent s |}.

Definition set_conn (c : Conn) (s : Session) : Session := {| app := app s; conn := c; sent := sent s |}.

Definition set_sent (l : list (ClientTx * ServerFrame)) (s : Session) : Session :=
  {| app := app s; conn := conn s; sent := l |}.

Definition set_recipient_id (rid : RecipientId) (c : Conn) : Conn :=
  {| tx := tx c; recipient_id := Some rid; window_start_ms := window_start_ms c; frame_count := frame_count c |}.

Definition set_window (start count : Z) (c : Conn) : Conn :=
  {| tx := tx c; recipient_id := recipient_id c; window_start_ms := start; frame_count := count |}.

(** What the loop does after a frame. *)
Inductive Flow := Continue | Break.

(** [Uuid::new_v4()] and [fresh_rng()]. *)
Record Draws := {
  draw_uuid : Uuid;
  draw_rng : string + Rng;
}.

(** [chan.try_send(frame)]: refused by a full or closed channel. *)
Definition try_send {E : Type} (chan : ClientTx) (frame : ServerFrame) : M Session E bool :=
  ok ← send_ok;
  if (ok : bool) then
    _ ← modify (λ s, set_sent (sent s ++ [(chan, frame)]) s);
    mret true
  else mret false.

(** [chan.send(frame).await]: waits for room, refused by a closed channel. *)
Definition send_await {E : Type} (chan : ClientTx) (frame : ServerFrame) : M Session E bool := try_send chan frame.

(** [let _ = tx.try_send(frame); continue]. *)
Definition reply {E : Type} (frame : ServerFrame) : M Session E Flow :=
  s ← get;
  _ ← try_send (tx (conn s)) frame;
  mret Continue.

(** An operation of the shared state. *)
Definition on_app {E A : Type} (m : M AppState E A) : M Session E A := zoom app set_app m.

Definition on_queues {E A : Type} (m : M QueueStore E A) : M Session E A := on_app (zoom queues set_queues m).

Definition on_files {E A : Type} (m : M FileStore E A) : M Session E A := on_app (zoom files set_files m).

(** [spawn_blocking(..).await]: [None] when the task could not be joined, here a
    task that did not start. *)
Definition spawn_blocking {E E' A : Type} (m : M Session E A) : M Session E' (option (E + A)) :=
  joined ← attempt (io_call tt);
  match joined with
  | inr _ => r ← attempt m; mret (Some r)
  | inl _ => mret None
  end.

Definition not_registered : ServerFrame := err "not_registered" "send hello first".

(** ** Hello *)

(** The version both sides speak, or none. *)
Definition negotiate (protocol_min protocol_max protocol_version : option Z) : option Z :=
  let client_min := default (default PROTOCOL_VERSION protocol_version) protocol_min in
  let client_max := default (default PROTOCOL_VERSION protocol_version) protocol_max in
  let selected := Z.min PROTOCOL_VERSION client_max in
  if (selected <? PROTOCOL_MIN_SUPPORTED) || (selected <? client_min) then None else Some selected.

Definition hello_rejected : ServerFrame :=
  err "hello_rejected" "mailbox authentication or proof of work failed".

(** The entry of the mailbox: refused with a frame, or updated. *)
Definition enter_mailbox {E : Type} (rid auth_hash delivery_hash : string) (pow : option string)
    : M AppState E (ServerFrame + ()) :=
  s ← get;
  match mailbox_auth s !! rid with
  | Some existing =>
      if negb (ct_eq (receive_auth_hash existing) auth_hash) then mret (inl hello_rejected)
      else
        now ← now_activity_ms;
        let auth := (ensure_delivery_hash delivery_hash (touch now existing)).2 in
        _ ← modify (λ s, set_mailbox_auth (<[rid := auth]> (mailbox_auth s)) s);
        mret (inr ())
  | None =>
      valid_pow ← match pow with Some n => verify_pow rid n | None => mret false end;
      if negb valid_pow then mret (inl hello_rejected)
      else
        reserved ← reserve_mailbox_slot;
        if negb reserved then mret (inl (err "relay_full" "relay mailbox limit reached"))
        else
          auth ← new_mailbox auth_hash delivery_hash;
          _ ← modify (λ s, set_mailbox_auth (<[rid := auth]> (mailbox_auth s)) s);
          mret (inr ())
  end.

(** Sends the backlog until the channel closes; the number sent. *)
Fixpoint deliver {E : Type} (chan : ClientTx) (envs : list StoredEnvelope) (delivered : Z) : M Session E Z :=
  match envs with
  | [] => mret delivered
  | env :: rest =>
      ok ← send_await chan (Envelope env);
      if (ok : bool) then deliver chan rest (delivered +! 1) else mret delivered
  end.

Definition flush_backlog {E : Type} (rid : string) : M Session E Z :=
  s ← get;
  flushed ← spawn_blocking (on_queues (QueueStore.flush rid));
  match flushed with
  | Some (inr envs) => deliver (tx (conn s)) envs 0
  | _ => mret 0
  end.

Definition on_hello {E : Type} (rid auth_token delivery_token : string)
    (protocol_min protocol_max protocol_version : option Z) (pow : option string) (cert_only : bool)
    : M Session E Flow :=
  match negotiate protocol_min protocol_max protocol_version with
  | None => reply (err "protocol_mismatch" "no common relay protocol version")
  | Some selected =>
      if negb (valid_recipient_id rid) || negb (valid_token auth_token) || negb (valid_token delivery_token)
      then reply (err "bad_hello" "invalid mailbox or token")
      else
        entered ← on_app (enter_mailbox rid (token_hash auth_token) (token_hash delivery_token) pow);
        match entered with
        | inl refusal => reply refusal
        | inr _ =>
            _ ← on_app (mark_auth_dirty rid);
            _ ← modify (λ s, set_conn (set_recipient_id rid (conn s)) s);
            now ← now_ms;
            s ← get;
            _ ← reply (HelloOk selected PROTOCOL_MIN_SUPPORTED PROTOCOL_VERSION now
                         (trust_root_public_b64 (crypto (app s))) (max_file_bytes (file_config (app s))));
            if cert_only then mret Continue
            else
              _ ← modify (λ s, set_app (set_online (<[rid := tx (conn s)]> (online (app s))) (app s)) s);
              delivered ← flush_backlog rid;
              if 6 <=? selected then
                s ← get;
                _ ← send_await (tx (conn s)) (Synced delivered);
                mret Continue
              else mret Continue
        end
  end.

(** ** Tokens and certificates *)

Definition on_set_delivery_tokens {E : Type} (request_id : string) (tokens : list string) : M Session E Flow :=
  s ← get;
  match recipient_id (conn s) with
  | None => reply not_registered
  | Some rid =>
      if bool_decide (tokens = []) || (MAX_DELIVERY_TOKENS_PER_MAILBOX <? length tokens)%nat
         || negb (forallb valid_token tokens)
      then reply (err "bad_tokens" "invalid delivery-token allowlist")
      else
        match mailbox_auth (app s) !! rid with
        | Some auth =>
            let auth := replace_delivery_hashes (token_hash <$> tokens) auth in
            let active_count := Z.of_nat (length (delivery_token_hashes auth)) in
            _ ← on_app (modify (λ s, set_mailbox_auth (<[rid := auth]> (mailbox_auth s)) s));
            _ ← on_app (mark_auth_dirty rid);
            reply (DeliveryTokensSet request_id active_count)
        | None => reply (err "not_registered" "mailbox auth missing")
        end
  end.

Definition issue_sender_certificate {S : Type} (crypto : ServerCrypto) (rng : string + Rng)
    (request_id sender_uuid : string) (sender_device_id : Z) (sender_cert_public_b64 : string)
    : M S string ServerFrame :=
  if negb (valid_recipient_id sender_uuid) || (sender_device_id =? 0) || (127 <? sender_device_id)
  then throw "invalid sender certificate request"%string
  else if 64 <? slen sender_cert_public_b64 then throw "sender certificate public key is too large"%string
  else
    cert_key_bytes ← lift (match b64_decode sender_cert_public_b64 with
                           | Some b => inr b
                           | None => inl "bad sender certificate public key encoding"%string
                           end);
    sender_public ← lift (match public_key_deserialize cert_key_bytes with
                          | inr k => inr k
                          | inl e => inl ("bad sender certificate public key: " +:+ e)
                          end);
    rng ← lift rng;
    now ← now_ms;
    let expires_at_ms := now +^ SENDER_CERT_TTL_MS in
    sender_device ← lift (match device_id sender_device_id with
                          | Some d => inr d
                          | None => inl "bad device id"%string
                          end);
    cert ← lift (match sender_certificate_new sender_uuid sender_public sender_device expires_at_ms
                         (server_certificate crypto) (server_signing_private crypto) rng with
                 | inr c => inr c
                 | inl e => inl ("sender certificate signing failed: " +:+ e)
                 end);
    cert_bytes ← lift (match sender_certificate_serialized cert with
                       | inr b => inr b
                       | inl e => inl ("could not serialize sender certificate: " +:+ e)
                       end);
    mret (Protocol.SenderCertificate request_id (b64_encode cert_bytes) (trust_root_public_b64 crypto) expires_at_ms).

Definition on_issue_sender_certificate {E : Type} (rng : string + Rng) (request_id sender_uuid : string)
    (sender_device_id : Z) (sender_cert_public_b64 : string) : M Session E Flow :=
  s ← get;
  match recipient_id (conn s) with
  | None => reply not_registered
  | Some registered_rid =>
      if negb (bool_decide (sender_uuid = registered_rid)) then
        reply (err "cert_denied" "sender certificate can only be issued for your authenticated mailbox")
      else
        issued ← attempt (issue_sender_certificate (crypto (app s)) rng request_id sender_uuid sender_device_id
                            sender_cert_public_b64);
        match issued with
        | inr frame => reply frame
        | inl e => reply (err "cert_failed" e)
        end
  end.

(** ** Sending *)

(** [delivered_live]: the live route is tried, and dropped when it refuses. *)
Definition deliver_live {E : Type} (to : string) (env : StoredEnvelope) : M Session E bool :=
  s ← get;
  match online (app s) !! to with
  | Some live =>
      sent ← try_send live (Envelope env);
      if (sent : bool) then mret true
      else
        _ ← on_app (modify (λ s, set_online (delete to (online s)) s));
        mret false
  | None => mret false
  end.

(** The destination's entry accepts the token, and its lease is renewed. *)
Definition authorize_delivery {E : Type} (to delivery_token : string) : M AppState E bool :=
  s ← get;
  match mailbox_auth s !! to with
  | None => mret false
  | Some auth =>
      if negb (accepts_delivery_hash auth (token_hash delivery_token)) then mret false
      else
        now ← now_activity_ms;
        _ ← put (set_mailbox_auth (<[to := touch now auth]> (mailbox_auth s)) s);
        mret true
  end.

(** The durable copy, when the store has room, and the sender's answer. *)
Definition queue_envelope {E : Type} (client_ref : option string) (to : string) (env : StoredEnvelope)
    (delivered_live : bool) : M Session E Flow :=
  s ← get;
  if QueueStore.would_exceed_global (queues (app s)) (slen (ciphertext env)) then
    if delivered_live then reply (SendOk (env_id env) false client_ref)
    else reply (send_err client_ref "relay_full" "relay queue storage limit reached")
  else
    stored ← spawn_blocking (on_queues (QueueStore.enqueue to env));
    let enqueued := match stored with Some (inr _) => true | _ => false end in
    _ ← on_app (mark_auth_dirty to);
    if enqueued || delivered_live then reply (SendOk (env_id env) (negb delivered_live) client_ref)
    else reply (send_err client_ref "relay_error" "could not persist message for offline delivery").

Definition on_send_envelope {E : Type} (fresh : Uuid) (client_ref : option string)
    (to delivery_token envelope_type ciphertext : string) : M Session E Flow :=
  if negb (valid_recipient_id to) || negb (valid_token delivery_token) then
    reply (send_err client_ref "bad_send" "invalid destination or delivery token")
  else if 32 <? slen envelope_type then
    reply (send_err client_ref "bad_envelope" "envelope type too long")
  else
    authorized ← on_app (authorize_delivery to delivery_token);
    if negb authorized then reply (send_err client_ref "delivery_denied" "delivery token rejected")
    else
      allowed ← on_app (allow_dest_send to);
      if negb allowed then reply (send_err client_ref "rate_limited" "too many sends to this destination")
      else
        let env := {| env_id := fresh; env_to := to; Protocol.envelope_type := envelope_type;
                      Protocol.ciphertext := ciphertext |} in
        delivered_live ← deliver_live to env;
        queue_envelope client_ref to env delivered_live.

(** ** Invite bundles *)

(** The reply to an upload under the id of a live bundle. *)
Definition existing_reply (now : Z) (request_id bundle_id ciphertext : string) (existing : option HostedBundle)
    : option ServerFrame :=
  match existing with
  | Some b =>
      if bundle_expires_at_ms b <=? now then None
      else if bool_decide (bundle_ciphertext b = ciphertext) then
        Some (BundleUploaded request_id bundle_id (bundle_expires_at_ms b))
      else Some (err "bundle_exists" "an invite bundle with this id already exists")
  | None => None
  end.

Definition insert_bundle {E : Type} (now : Z) (bundle_id ciphertext : string) (expires_at_ms : Z)
    : M AppState E Z :=
  let bundle_len := slen ciphertext in
  let max_expires := now +^ MAX_BUNDLE_TTL_MS in
  let expires := Z.max (Z.min expires_at_ms max_expires) (now +^ 60000) in
  let bundle := {| bundle_key := bundle_id; bundle_ciphertext := ciphertext; bundle_created_at_ms := now;
                   bundle_expires_at_ms := expires |} in
  s ← get;
  _ ← put (set_bundles (<[bundle_id := bundle]> (bundles s)) s);
  _ ← match bundles s !! bundle_id with
      | Some old => modify (λ s, set_total_bundle_bytes
                      (atomic_sub_saturating (total_bundle_bytes s) (slen (bundle_ciphertext old))) s)
      | None => mret ()
      end;
  _ ← modify (λ s, set_total_bundle_bytes (total_bundle_bytes s +! bundle_len) s);
  _ ← mark_bundle_dirty bundle_id;
  mret expires.

Definition on_upload_bundle {E : Type} (request_id bundle_id ciphertext : string) (expires_at_ms : Z)
    (pow : option string) : M Session E Flow :=
  if negb (valid_bundle_id bundle_id) || (MAX_BUNDLE_BYTES <? slen ciphertext) then
    reply (err "bad_bundle" "invalid invite bundle")
  else
    valid_pow ← match pow with Some n => verify_pow bundle_id n | None => mret false end;
    if negb valid_pow then reply (err "bad_pow" "invalid proof of work for invite bundle upload")
    else
      _ ← on_app prune_expired_bundles;
      now ← now_ms;
      s ← get;
      match existing_reply now request_id bundle_id ciphertext (bundles (app s) !! bundle_id) with
      | Some frame => reply frame
      | None =>
          if MAX_BUNDLES <=? Z.of_nat (size (bundles (app s))) then
            reply (err "relay_full" "relay invite bundle limit reached")
          else if MAX_TOTAL_BUNDLE_BYTES <? total_bundle_bytes (app s) +^ slen ciphertext then
            reply (err "relay_full" "relay invite bundle storage limit reached")
          else
            now ← now_ms;
            expires ← on_app (insert_bundle now bundle_id ciphertext expires_at_ms);
            reply (BundleUploaded request_id bundle_id expires)
      end.

Definition on_fetch_bundle {E : Type} (request_id bundle_id : string) : M Session E Flow :=
  _ ← on_app prune_expired_bundles;
  now ← now_ms;
  s ← get;
  let not_found := reply (err "bundle_not_found" "invite bundle was not found or has expired") in
  match bundles (app s) !! bundle_id with
  | Some bundle =>
      if now <? bundle_expires_at_ms bundle then
        reply (Bundle request_id (bundle_key bundle) (bundle_ciphertext bundle) (bundle_expires_at_ms bundle))
      else not_found
  | None => not_found
  end.

(** ** File transfers *)

Definition on_upload_file_chunk {E : Type} (request_id transfer_id : string)
    (chunk_index total_chunks total_bytes : Z) (ciphertext : string) (pow : option string) : M Session E Flow :=
  let refuse code message := reply (file_err request_id transfer_id code message) in
  if negb (valid_bundle_id transfer_id) then refuse "bad_request"%string "invalid transfer id"%string
  else
    match b64_decode ciphertext with
    | None => refuse "bad_request"%string "invalid chunk encoding"%string
    | Some raw =>
        pow_ok ← (if chunk_index =? 0 then
                    match pow with Some n => verify_pow transfer_id n | None => mret false end
                  else mret true);
        if negb pow_ok then refuse "pow_required"%string "invalid proof of work for new file transfer"%string
        else
          result ← spawn_blocking (on_files (FileStore.store_chunk transfer_id chunk_index total_chunks total_bytes raw));
          match result with
          | Some (inr stored) =>
              reply (FileChunkStored request_id transfer_id chunk_index (FileStore.sc_received_chunks stored)
                       (FileStore.sc_total_chunks stored))
          | Some (inl reject) => refuse (FileStore.code reject) (FileStore.message reject)
          | None => refuse "relay_full"%string "could not store file chunk"%string
          end
    end.

Definition on_fetch_file_chunk {E : Type} (request_id transfer_id : string) (chunk_index : Z) : M Session E Flow :=
  let refuse code message := reply (file_err request_id transfer_id code message) in
  if negb (valid_bundle_id transfer_id) then refuse "bad_request"%string "invalid transfer id"%string
  else
    result ← spawn_blocking (on_files (FileStore.fetch_chunk transfer_id chunk_index));
    match result with
    | Some (inr chunk) =>
        reply (FileChunk request_id transfer_id chunk_index (FileStore.fc_total_chunks chunk)
                 (FileStore.fc_total_bytes chunk) (b64_encode (FileStore.data chunk)))
    | Some (inl reject) => refuse (FileStore.code reject) (FileStore.message reject)
    | None => refuse "not_found"%string "could not read file chunk"%string
    end.

Definition on_delete_transfer {E : Type} (request_id transfer_id : string) : M Session E Flow :=
  if negb (valid_bundle_id transfer_id) then
    reply (file_err request_id transfer_id "bad_request" "invalid transfer id")
  else
    _ ← spawn_blocking (on_files (FileStore.delete_transfer Failed transfer_id));
    reply (TransferDeleted request_id transfer_id).

(** ** The queue's owner *)

Definition on_ack {E : Type} (ids : list Uuid) : M Session E Flow :=
  s ← get;
  match recipient_id (conn s) with
  | None => reply not_registered
  | Some rid =>
      acked ← spawn_blocking (on_queues (QueueStore.ack rid ids));
      let removed := match acked with Some (inr n) => n | _ => 0 end in
      reply (AckOk removed)
  end.

Definition on_retire_mailbox {E : Type} : M Session E Flow :=
  s ← get;
  match recipient_id (conn s) with
  | None => reply not_registered
  | Some rid =>
      _ ← on_app (
        s ← get;
        match mailbox_auth s !! rid with
        | Some _ =>
            _ ← put (set_mailbox_auth (delete rid (mailbox_auth s)) s);
            modify (λ s, set_mailbox_count (mailbox_count s -! 1) s)
        | None => mret ()
        end);
      _ ← spawn_blocking (on_queues (QueueStore.purge_mailbox rid));
      _ ← on_app (modify (λ s, set_send_rate (delete rid (send_rate s)) s));
      _ ← on_app (modify (λ s, set_online (delete rid (online s)) s));
      _ ← on_app (mark_auth_dirty rid);
      _ ← reply (AckOk 0);
      mret Break
  end.

Definition on_ping {E : Type} : M Session E Flow :=
  now ← now_ms;
  reply (Pong now).

(** ** The loop *)

Definition on_frame {E : Type} (d : Draws) (frame : ClientFrame) : M Session E Flow :=
  match frame with
  | Hello rid auth_token delivery_token protocol_min protocol_max protocol_version pow cert_only =>
      on_hello rid auth_token delivery_token protocol_min protocol_max protocol_version pow cert_only
  | SetDeliveryTokens request_id tokens => on_set_delivery_tokens request_id tokens
  | IssueSenderCertificate request_id sender_uuid sender_device_id sender_cert_public_b64 =>
      on_issue_sender_certificate (draw_rng d) request_id sender_uuid sender_device_id sender_cert_public_b64
  | SendEnvelope client_ref to delivery_token envelope_type ciphertext =>
      on_send_envelope (draw_uuid d) client_ref to delivery_token envelope_type ciphertext
  | UploadBundle request_id bundle_id ciphertext expires_at_ms pow =>
      on_upload_bundle request_id bundle_id ciphertext expires_at_ms pow
  | FetchBundle request_id bundle_id => on_fetch_bundle request_id bundle_id
  | UploadFileChunk request_id transfer_id chunk_index total_chunks total_bytes ciphertext pow =>
      on_upload_file_chunk request_id transfer_id chunk_index total_chunks total_bytes ciphertext pow
  | FetchFileChunk request_id transfer_id chunk_index => on_fetch_file_chunk request_id transfer_id chunk_index
  | DeleteTransfer request_id transfer_id => on_delete_transfer request_id transfer_id
  | Ack ids => on_ack ids
  | RetireMailbox => on_retire_mailbox
  | Ping => on_ping
  end.

(** The frame budget at time [now]: the window and the count, this frame
    included. *)
Definition count_frame (now : Z) (c : Conn) : Conn :=
  let '(start, count) := if RATE_WINDOW_MS <? now -^ window_start_ms c then (now, 0)
                         else (window_start_ms c, frame_count c) in
  set_window start (Z.min (count + 1) u32_max) c.

Definition on_text {E : Type} (d : Draws) (text : string) : M Session E Flow :=
  now ← now_ms;
  _ ← modify (λ s, set_conn (count_frame now (conn s)) s);
  s ← get;
  if MAX_FRAMES_PER_WINDOW <? frame_count (conn s) then reply (err "rate_limited" "too many frames on this socket")
  else if MAX_FRAME_BYTES <? slen text then reply (err "too_large" "frame too large")
  else
    match parse_frame text with
    | inr frame => on_frame d frame
    | inl e => reply (err "bad_json" e)
    end.

(** What the read half yields: a text, another kind of message, or the end of
    the stream (closed, an error, or idle for too long). *)
Inductive Incoming := Text (text : string) | OtherMessage | Stop.

Definition on_incoming {E : Type} (d : Draws) (incoming : Incoming) : M Session E Flow :=
  match incoming with
  | Text text => on_text d text
  | OtherMessage => mret Continue
  | Stop => mret Break
  end.

(** One turn per item the socket yields; a stream that has no more ends. *)
Fixpoint serve {E : Type} (input : list (Draws * Incoming)) : M Session E () :=
  match input with
  | [] => mret ()
  | (d, incoming) :: rest =>
      flow ← on_incoming d incoming;
      match flow with
      | Continue => serve rest
      | Break => mret ()
      end
  end.

(** ** Accept and teardown *)

(** Whether the connection got a slot. *)
Definition accept {E : Type} : M AppState E bool :=
  s ← get;
  let previous := conn_count s in
  _ ← put (set_conn_count (previous +! 1) s);
  if MAX_CONNECTIONS <=? previous then
    _ ← modify (λ s, set_conn_count (conn_count s -! 1) s);
    mret false
  else mret true.

(** Only an entry that still points at this socket is removed. *)
Definition teardown {E : Type} : M Session E () :=
  s ← get;
  match recipient_id (conn s) with
  | None => mret ()
  | Some rid =>
      let remove_this_socket :=
        match online (app s) !! rid with Some live => bool_decide (live = tx (conn s)) | None => false end in
      if remove_this_socket then on_app (modify (λ s, set_online (delete rid (online s)) s)) else mret ()
  end.

(** The whole life of a connection on the fresh channel [chan]: the frames it
    made channels accept. *)
Definition handle_socket {E : Type} (chan : ClientTx) (input : list (Draws * Incoming))
    : M AppState E (list (ClientTx * ServerFrame)) :=
  accepted ← accept;
  if negb accepted then mret []
  else
    now ← now_ms;
    s ← get;
    let session := {| app := s; conn := {| tx := chan; recipient_id := None; window_start_ms := now;
                                           frame_count := 0 |}; sent := [] |} in
    '(_, session) ← with_state session (_ ← serve input; teardown);
    _ ← put (app session);
    _ ← modify (λ s, set_conn_count (conn_count s -! 1) s);
    mret (sent session).
End Ws.
