(* ===== verification/WsFacts.v ===== *)
(** What no frame ever changes, whatever its environment does: the connection's
    frame budget and the relay's connection count.

    [preserves g v m]: run from a state where [g] is [v], [m] ends in one.  The
    rules below follow the shape of a computation, so a handler is a matter of
    [preserve].  The second part is the invariant of a connection. *)
From Stdlib Require Import ZArith Lia Ascii String.
From stdpp Require Import base gmap strings list.
From S2P Require Import Prelude Redb RustStd Config Util Protocol Mailbox Signal State StateFacts StateOps Ws.
From S2P Require QueueStore.
From S2P Require QueueFacts.
From S2P Require QueueRuns.
From S2P Require QueueSpec.
From S2P Require FileStore.
From S2P Require FileFacts.
From S2P Require FileWrites.
From S2P Require FileRemovals.
From S2P Require MetaStore.

Section Rules.
Context {S E B : Type} (g : S → B) (v : B).

Definition preserves {A} (m : M S E A) : Prop := ∀ s i, g s = v → g (m s i).1.2 = v.

Lemma preserves_ret {A} (a : A) : preserves (mret a).
Proof. by intros s i Hs. Qed.

Lemma preserves_throw {A} (e : E) : preserves (throw (A := A) e).
Proof. by intros s i Hs. Qed.

Lemma preserves_bind {A C} (m : M S E A) (k : A → M S E C) :
  preserves m → (∀ a, preserves (k a)) → preserves (m ≫= k).
Proof.
  intros Hm Hk s i Hs. unfold mbind, M_bind. specialize (Hm s i Hs).
  destruct (m s i) as [[[e|a] s'] i']; [done|]. by apply Hk.
Qed.

(** The state read is one where [g] is [v]. *)
Lemma preserves_get {A} (k : S → M S E A) : (∀ s, g s = v → preserves (k s)) → preserves (get ≫= k).
Proof. intros Hk s i Hs. by apply Hk. Qed.

Lemma preserves_put s' : g s' = v → preserves (put s').
Proof. by intros H s i _. Qed.

Lemma preserves_modify h : (∀ s, g s = v → g (h s) = v) → preserves (modify h).
Proof. intros H s i. apply H. Qed.

Lemma preserves_io_call e : preserves (io_call e).
Proof. intros s i. unfold io_call. by destruct (io_fail i) as [|[] ?]. Qed.

Lemma preserves_read_clock : preserves (read_clock (E := E)).
Proof. by intros s i Hs. Qed.

Lemma preserves_send_ok : preserves (send_ok (E := E)).
Proof. intros s i. unfold send_ok. by destruct (io_send i) as [|[] ?]. Qed.

Lemma preserves_lift {A} (r : E + A) : preserves (lift r).
Proof. by intros s i Hs. Qed.

Lemma preserves_foldM {A C} (h : C → A → M S E C) l : (∀ c a, preserves (h c a)) → ∀ c, preserves (foldM h c l).
Proof.
  intros Hh. induction l as [|a l IH]; intros c; simpl; [apply preserves_ret|]. apply preserves_bind; [apply Hh|apply IH].
Qed.

(** A part of the state that [g] does not look at. *)
Lemma preserves_zoom_other {T A} (getter : S → T) setter (m : M T E A) :
  (∀ t s, g (setter t s) = g s) → preserves (zoom getter setter m).
Proof. intros H s i Hs. unfold zoom. destruct (m (getter s) i) as [[r t'] i']. simpl. by rewrite H. Qed.
End Rules.

Lemma preserves_attempt {S E E' B A} (g : S → B) v (m : M S E A) :
  preserves g v m → preserves g v (attempt (E' := E') m).
Proof. intros H s i Hs. specialize (H s i Hs). unfold attempt. by destruct (m s i) as [[r s'] i']. Qed.

Lemma preserves_zoom {S T E B A} (g : S → B) (h : T → B) v getter setter (m : M T E A) :
  (∀ s, h (getter s) = g s) → (∀ t s, g (setter t s) = h t) → preserves h v m → preserves g v (zoom getter setter m).
Proof.
  intros H1 H2 H s i Hs. unfold zoom. rewrite <- (H1 s) in Hs. specialize (H _ i Hs).
  destruct (m (getter s) i) as [[r t'] i']. simpl in *. by rewrite H2.
Qed.

Create HintDb preserve discriminated.
#[export] Hint Resolve preserves_ret preserves_throw preserves_io_call preserves_read_clock preserves_send_ok preserves_lift : preserve.

(** Splits a computation down to its primitive steps. *)
Ltac preserve :=
  repeat first
    [ solve [eauto with preserve nocore]
    | progress cbv zeta
    | lazymatch goal with
      | |- preserves _ _ (get ≫= _) => apply preserves_get; intros
      | |- preserves _ _ (_ ≫= _) => apply preserves_bind; [|intros]
      | |- preserves _ _ (put _) => apply preserves_put
      | |- preserves _ _ (modify _) => apply preserves_modify; intros
      | |- preserves _ _ (attempt _) => apply preserves_attempt
      | |- preserves _ _ (foldM _ _ _) => apply preserves_foldM; intros
      | |- preserves _ _ (match ?x with _ => _ end) => destruct x
      end
    | assumption ].

Section Handlers.
Context {RD : Redb} {UL : UuidLib} {LS : LibSignal} {HS : Hashing} {B6 : Base64} {JS : Json}.
Context {SV : Serde QueueStore.StoredValue} {SM : Serde FileStore.FileMeta}.
Context {SA : Serde MailboxAuth} {SB : Serde HostedBundle}.
Implicit Types (s : Session) (a : AppState).
Context {E : Type}.

(** What is observed: the frame budget and the connection count. *)
Definition budget s : Z * Z * Z := (window_start_ms (conn s), frame_count (conn s), conn_count (app s)).

Lemma preserves_try_send v chan fr : preserves budget v (try_send (E := E) chan fr).
Proof. unfold try_send. preserve. Qed.

Lemma preserves_on_app v {A} (op : M AppState E A) : preserves conn_count v.2 op → preserves budget v (on_app op).
Proof.
  intros H s i Hs. unfold on_app, zoom. specialize (H (app s) i). destruct (op (app s) i) as [[r a'] i'].
  simpl in *. unfold budget in *. simpl. rewrite H by (by rewrite <- Hs). destruct v as [[v1 v2] v3]. simpl. congruence.
Qed.
End Handlers.

Section Handlers2.
Context {RD : Redb} {UL : UuidLib} {LS : LibSignal} {HS : Hashing} {B6 : Base64} {JS : Json}.
Context {SV : Serde QueueStore.StoredValue} {SM : Serde FileStore.FileMeta}.
Context {SA : Serde MailboxAuth} {SB : Serde HostedBundle}.
Implicit Types (s : Session) (a : AppState).
Context {E : Type}.

Lemma preserves_reply v fr : preserves budget v (reply (E := E) fr).
Proof. unfold reply. pose proof (preserves_try_send (E := E)). preserve. Qed.

Lemma preserves_spawn v {E' A} (op : M Session E' A) : preserves budget v op → preserves budget v (spawn_blocking (E' := E) op).
Proof. intros H. unfold spawn_blocking. preserve. Qed.

Lemma preserves_on_queues v {A} (op : M QueueStore E A) : preserves budget v (on_queues op).
Proof. apply preserves_on_app. by apply preserves_zoom_other. Qed.

Lemma preserves_on_files v {A} (op : M FileStore E A) : preserves budget v (on_files op).
Proof. apply preserves_on_app. by apply preserves_zoom_other. Qed.

Lemma preserves_now {S B} (g : S → B) v : preserves g v (now_ms (E := E)).
Proof. unfold now_ms. preserve. Qed.

Lemma preserves_activity {S B} (g : S → B) v : preserves g v (now_activity_ms (E := E)).
Proof. unfold now_activity_ms. pose proof (@preserves_now). preserve. Qed.

Lemma preserves_pow {S B} (g : S → B) v rid nonce : preserves g v (verify_pow (E := E) rid nonce).
Proof. unfold verify_pow, now_secs. preserve. Qed.

Lemma preserves_mark_auth v rid : preserves conn_count v (mark_auth_dirty (E := E) rid).
Proof. unfold mark_auth_dirty. preserve. Qed.

Lemma preserves_mark_bundle v id : preserves conn_count v (mark_bundle_dirty (E := E) id).
Proof. unfold mark_bundle_dirty. preserve. Qed.
End Handlers2.

#[export] Hint Resolve preserves_try_send preserves_reply preserves_on_queues preserves_on_files preserves_now
  preserves_activity preserves_pow preserves_mark_auth preserves_mark_bundle : preserve.

Section Frames.
Context {RD : Redb} {UL : UuidLib} {LS : LibSignal} {HS : Hashing} {B6 : Base64} {JS : Json}.
Context {SV : Serde QueueStore.StoredValue} {SM : Serde FileStore.FileMeta}.
Context {SA : Serde MailboxAuth} {SB : Serde HostedBundle}.
Context {E : Type}.

Lemma preserves_enter v rid ah dh pow : preserves conn_count v (enter_mailbox (E := E) rid ah dh pow).
Proof. unfold enter_mailbox, reserve_mailbox_slot, new_mailbox. preserve. Qed.

Lemma preserves_authorize v to tok : preserves conn_count v (authorize_delivery (E := E) to tok).
Proof. unfold authorize_delivery. preserve. Qed.

Lemma preserves_allow v to : preserves conn_count v (allow_dest_send (E := E) to).
Proof. unfold allow_dest_send. preserve. Qed.

Lemma preserves_prune v : preserves conn_count v (prune_expired_bundles (E := E)).
Proof. unfold prune_expired_bundles. preserve. Qed.

Lemma preserves_insert_bundle v now id ct exp : preserves conn_count v (insert_bundle (E := E) now id ct exp).
Proof. unfold insert_bundle. preserve. Qed.

Lemma preserves_deliver v chan envs n : preserves budget v (deliver (E := E) chan envs n).
Proof. revert n. induction envs as [|env rest IH]; intros n; simpl; unfold send_await; preserve. Qed.

Lemma preserves_issue {S B} (g : S → B) v cr rng req uuid dev key :
  preserves g v (issue_sender_certificate cr rng req uuid dev key).
Proof. unfold issue_sender_certificate. pose proof (@preserves_now). preserve. Qed.
End Frames.

#[export] Hint Resolve preserves_enter preserves_authorize preserves_allow preserves_prune preserves_insert_bundle
  preserves_deliver preserves_issue : preserve.

Section Turns.
Context {RD : Redb} {UL : UuidLib} {LS : LibSignal} {HS : Hashing} {B6 : Base64} {JS : Json}.
Context {SV : Serde QueueStore.StoredValue} {SM : Serde FileStore.FileMeta}.
Context {SA : Serde MailboxAuth} {SB : Serde HostedBundle}.
Implicit Types (s : Session).
Context {E : Type}.

Ltac handler := repeat first [progress preserve | apply preserves_on_app | apply preserves_spawn].

Lemma preserves_flush v rid : preserves budget v (flush_backlog (E := E) rid).
Proof. unfold flush_backlog. handler. Qed.

Lemma preserves_queue_envelope v cr to env live : preserves budget v (queue_envelope (E := E) cr to env live).
Proof. unfold queue_envelope. handler. Qed.

Lemma preserves_deliver_live v to env : preserves budget v (deliver_live (E := E) to env).
Proof. unfold deliver_live. handler. Qed.

#[local] Hint Resolve preserves_flush preserves_queue_envelope preserves_deliver_live : preserve.

Lemma preserves_frame v d f : preserves budget v (on_frame (E := E) d f).
Proof.
  destruct f; unfold on_frame, on_hello, on_set_delivery_tokens, on_issue_sender_certificate, on_send_envelope,
    on_upload_bundle, on_fetch_bundle, on_upload_file_chunk, on_fetch_file_chunk, on_delete_transfer, on_ack,
    on_retire_mailbox, on_ping; handler.
Qed.
End Turns.

(** What a connection's steps may do to the shared state.

    [keeps W P X T s s'] is the frame rule of the handlers: from [s] to [s'] the
    invariant, the caps and the coherence of the caches are kept (but for the
    mailboxes [W], not yet marked dirty), mailboxes outside [P] and transfers
    outside [X] are untouched, and no bundle that outlives [T] changes.  It is a
    preorder, so a handler keeps what its parts keep. *)

(** Every reading of the clock is at most [T]. *)
Definition clock_below (T : Z) (i : io) : Prop := Forall (λ t, t ≤ T) (io_clock i).

(** Every channel accepts what it is offered. *)
Definition channels_open (i : io) : Prop := Forall (λ b, b = false) (io_send i).

Lemma clock_below_later T i i' : io_later i i' → clock_below T i → clock_below T i'.
Proof. intros [_ _ H _]. by apply Forall_suffix. Qed.

Lemma channels_open_later i i' : io_later i i' → channels_open i → channels_open i'.
Proof. intros [_ _ _ H]. by apply Forall_suffix. Qed.

Lemma next_now_below T i : 0 ≤ T ≤ u64_max → clock_below T i → 0 ≤ next_now i ≤ T.
Proof.
  unfold clock_below, clock_reading. intros HT Hc.
  assert (Z.max 0 (hd 0 (io_clock i)) ≤ T) as H.
  { destruct (io_clock i) as [|t l]; simpl; [lia|]. apply Forall_cons in Hc as [? _]. lia. }
  rewrite wrap64_small; unfold is_u64; lia.
Qed.

#[export] Hint Resolve clock_below_later channels_open_later quiet_later items_fine_later step_later tick_later : relay.

Section Keeps.
Context {RD : Redb} {UL : UuidLib} {LS : LibSignal} {HS : Hashing} {B6 : Base64} {JS : Json}.
Context {SV : Serde QueueStore.StoredValue} {SM : Serde FileStore.FileMeta}.
Context {SA : Serde MailboxAuth} {SB : Serde HostedBundle}.
Implicit Types (s : AppState) (rid m id : string) (W : gset string) (P X : string → Prop) (T : Z).

(** ** The frame rule *)

Record same_mailbox m s s' : Prop := {
  sm_auth : mailbox_auth s' !! m = mailbox_auth s !! m;
  sm_online : online s' !! m = online s !! m;
  sm_rate : send_rate s' !! m = send_rate s !! m;
  sm_queue : QueueSpec.abs (queues s') m = QueueSpec.abs (queues s) m;
}.

#[global] Instance same_mailbox_preorder m : PreOrder (same_mailbox m).
Proof. split; [by split|]. intros ??? [] []. split; congruence. Qed.

Record same_transfer id s s' : Prop := {
  st_meta : FileFacts.metas (files s') !! id = FileFacts.metas (files s) !! id;
  st_chunks : ∀ k, owner k = Some id → FileFacts.chunks (files s') !! k = FileFacts.chunks (files s) !! k;
}.

#[global] Instance same_transfer_preorder id : PreOrder (same_transfer id).
Proof.
  split; [by split|]. intros ??? [H1 H2] [H3 H4]. split; [congruence|]. intros k Hk. by rewrite H4, H2.
Qed.

(** The relay-wide caps on what the handlers admit. *)
Record admitted s : Prop := {
  ad_mailboxes : mailbox_count s ≤ MAX_MAILBOXES;
  ad_bundles : Z.of_nat (size (bundles s)) ≤ MAX_BUNDLES;
  ad_bytes : total_bundle_bytes s ≤ MAX_TOTAL_BUNDLE_BYTES;
}.

(** Coherent once the mailboxes [D] are marked dirty. *)
Definition coherent_but (D : gset string) s : Prop := Coherent (set_dirty_auth (D ∪ dirty_auth s) s).

Record keeps W P X T s s' : Prop := {
  k_inv : AppInv s → AppInv s';
  k_coherent : ∀ D, W ⊆ D → coherent_but D s → coherent_but D s';
  k_admitted : AppInv s → admitted s → admitted s';
  k_mailbox : ∀ m, ¬ P m → same_mailbox m s s';
  k_transfer : ∀ id, ¬ X id → same_transfer id s s';
  k_bundle : ∀ id b, bundles s !! id = Some b → T < bundle_expires_at_ms b → bundles s' !! id = Some b;
  k_config : file_config s' = file_config s ∧ crypto s' = crypto s ∧ conn_count s' = conn_count s
             ∧ FileStore.config (files s') = FileStore.config (files s);
}.

#[global] Instance keeps_preorder W P X T : PreOrder (keeps W P X T).
Proof.
  split; [by split|]. intros s1 s2 s3 [] [? ? ? ? ? ? (H1 & H2 & H3 & H4)]. split; [auto|eauto|auto| | |auto|].
  - intros m Hm. etrans; eauto.
  - intros id Hid. etrans; eauto.
  - destruct k_config0 as (E1 & E2 & E3 & E4). by rewrite H1, H2, H3, H4.
Qed.

Lemma keeps_weaken W W' P P' X X' T s s' :
  W ⊆ W' → (∀ m, P m → P' m) → (∀ id, X id → X' id) → keeps W P X T s s' → keeps W' P' X' T s s'.
Proof.
  intros HW HP HX []. split; try done; [|by eauto..].
  intros D HD. apply k_coherent0. by etrans.
Qed.

Lemma coherent_but_empty s : coherent_but ∅ s ↔ Coherent s.
Proof. unfold coherent_but. rewrite union_empty_l_L. by destruct s. Qed.

(** The pending mailbox is marked at the end. *)
Lemma keeps_marked rid P X T s s' :
  keeps {[rid]} P X T s s' → keeps ∅ P X T s (set_dirty_auth ({[rid]} ∪ dirty_auth s') s').
Proof.
  intros [Hi Hc Ha Hm Ht Hb Hk]. split.
  - intros HI. apply AppInv_mark_auth. auto.
  - intros D _ HD. unfold coherent_but. simpl.
    assert (coherent_but ({[rid]} ∪ D) s') as Hs'.
    { apply Hc; [apply union_subseteq_l|]. destruct HD as [Hda Hdb]. split; [|done]. intros r. simpl.
      rewrite !not_elem_of_union. intros Hr. apply Hda. simpl. rewrite not_elem_of_union. tauto. }
    unfold coherent_but in Hs'. rewrite (union_comm_L {[rid]} D), <- union_assoc_L in Hs'. by destruct s'.
  - intros HI Had. by destruct (Ha HI Had).
  - intros m Hn. destruct (Hm m Hn). by split.
  - intros id Hn. destruct (Ht id Hn). by split.
  - done.
  - done.
Qed.

(** ** Updates of one part *)

Lemma keeps_mark_auth W P X T s rid : keeps W P X T s (set_dirty_auth ({[rid]} ∪ dirty_auth s) s).
Proof.
  split; try done; [by apply AppInv_mark_auth| |by intros ? []].
  intros D _ [Hda Hdb]. split; [|done]. intros r. simpl. rewrite !not_elem_of_union. intros Hr. apply Hda. simpl.
  rewrite not_elem_of_union. tauto.
Qed.

Lemma keeps_online W P X T s rid o :
  P rid → (∀ m, m ≠ rid → o !! m = online s !! m) → keeps W P X T s (set_online o s).
Proof.
  intros HP Ho. split; try done; [by apply AppInv_online|by intros D _ []|by intros ? []|].
  intros m Hm. split; try done. apply Ho. congruence.
Qed.

Lemma keeps_send_rate W P X T s rid r :
  P rid → (∀ m, m ≠ rid → r !! m = send_rate s !! m) →
  (∀ w c, r !! rid = Some (w, c) → 0 ≤ c ≤ MAX_SENDS_PER_DEST_PER_WINDOW ∨ send_rate s !! rid = Some (w, c)) →
  keeps W P X T s (set_send_rate r s).
Proof.
  intros HP Ho Hr. split; try done; [|by intros D _ []|by intros ? []|].
  - intros []. split; try done. intros to w c. simpl. intros Hto. destruct (decide (to = rid)) as [->|Hne].
    + destruct (Hr w c Hto); [done|by eapply ai_rate].
    + rewrite Ho in Hto by done. by eapply ai_rate.
  - intros m Hm. split; try done. apply Ho. congruence.
Qed.

Lemma keeps_queues W P X T s rid q :
  P rid → (AppInv s → QueueFacts.Inv q) → (∀ m, m ≠ rid → QueueSpec.abs q m = QueueSpec.abs (queues s) m) →
  keeps W P X T s (set_queues q s).
Proof.
  intros HP Hq Ho. split; try done; [|by intros D _ []|by intros ? []|].
  - intros HI. specialize (Hq HI). destruct HI. by split.
  - intros m Hm. split; try done. apply Ho. congruence.
Qed.

Lemma keeps_files W P X T s id f :
  X id → (AppInv s → FileFacts.Inv f ∧ FileFacts.Caps f) → FileStore.config f = FileStore.config (files s) →
  (∀ id', id' ≠ id → same_transfer id' s (set_files f s)) →
  keeps W P X T s (set_files f s).
Proof.
  intros HX Hf Hc Ho. split; try done; [|by intros D _ []|by intros ? []|].
  - intros HI. destruct (Hf HI). destruct HI. by split.
  - intros id' Hid. apply Ho. congruence.
Qed.

(** A mailbox's record replaced or added, its count with it. *)
Lemma keeps_auth W P X T s rid a n :
  P rid → (rid ∈ W ∨ ∃ a0, mailbox_auth s !! rid = Some a0 ∧ a ≡ a0) →
  (AppInv s → no_char ":" rid ∧ wf_auth a) →
  n = match mailbox_auth s !! rid with Some _ => mailbox_count s | None => mailbox_count s + 1 end →
  (mailbox_auth s !! rid = None → mailbox_count s < MAX_MAILBOXES) →
  keeps W P X T s (set_mailbox_auth (<[rid := a]> (mailbox_auth s)) (set_mailbox_count n s)).
Proof.
  intros HP HW Hwf Hn Hroom. split; try done.
  - intros HI. destruct (Hwf HI). destruct HI. split; try done; simpl.
    + rewrite map_size_insert. destruct (mailbox_auth s !! rid) eqn:E; [by subst|].
      specialize (Hroom eq_refl). unfold MAX_MAILBOXES, u64_max in *. lia.
    + intros r a' [[<- <-]|[_ Hr]]%lookup_insert_Some; [done|by apply ai_auth].
  - intros D HD [Hda Hdb]. split; [|done]. intros r. simpl. intros Hr. specialize (Hda r Hr). simpl in Hda.
    destruct (decide (r = rid)) as [->|Hne].
    + destruct HW as [HW|(a0 & Ha0 & Heq)]; [destruct Hr; by apply elem_of_union_l, HD|].
      change (durable_auth s !! rid ≡ <[rid:=a]> (mailbox_auth s) !! rid).
      rewrite lookup_insert_eq. etrans; [exact Hda|]. rewrite Ha0. constructor. by symmetry.
    + change (durable_auth s !! r ≡ <[rid:=a]> (mailbox_auth s) !! r).
      by rewrite lookup_insert_ne by congruence.
  - intros _ []. split; try done. simpl. destruct (mailbox_auth s !! rid); subst; [done|]. specialize (Hroom eq_refl). lia.
  - intros m Hm. split; try done. apply lookup_insert_ne. congruence.
Qed.

(** A mailbox removed. *)
Lemma keeps_auth_removed W P X T s rid a :
  P rid → rid ∈ W → mailbox_auth s !! rid = Some a →
  keeps W P X T s (set_mailbox_count (mailbox_count s -! 1) (set_mailbox_auth (delete rid (mailbox_auth s)) s)).
Proof.
  intros HP HW Ha. split; try done.
  - intros []. pose proof (size_delete_lookup _ _ _ Ha) as Hsz. split; try done; simpl.
    + rewrite wrap64_small; unfold is_u64; lia.
    + intros r a' [_ Hr]%lookup_delete_Some. by apply ai_auth.
  - intros D HD [Hda Hdb]. split; [|done]. intros r. simpl. intros Hr. specialize (Hda r Hr). simpl in Hda.
    change (durable_auth s !! r ≡ delete rid (mailbox_auth s) !! r).
    rewrite lookup_delete_ne; [done|]. set_solver.
  - intros [] []. pose proof (size_delete_lookup _ _ _ Ha). split; try done; simpl.
    rewrite wrap64_small; unfold is_u64; lia.
  - intros m Hm. split; try done. apply lookup_delete_ne. congruence.
Qed.

Lemma size_live now (bs : gmap string HostedBundle) : (size (live now bs) ≤ size bs)%nat.
Proof. rewrite <- !size_dom. apply subseteq_size, dom_filter_subseteq. Qed.

Lemma keeps_pruned W P X T s now : now ≤ T → keeps W P X T s (pruned now s).
Proof.
  intros Hnow. split; try done.
  - apply AppInv_pruned.
  - intros D _ HD. apply (Coherent_pruned now) in HD. exact HD.
  - intros HI [Hm Hb Hy]. pose proof (size_live now (bundles s)). pose proof (live_le now (bundles s)).
    pose proof (ai_bytes _ HI) as [? _]. split; simpl; [done|lia|lia].
  - intros id b Hb Ht. simpl. apply map_lookup_filter_Some. split; [done|]. simpl. lia.
Qed.

(** A new bundle, in the place of none or of an expired one. *)
Definition with_bundle (b : HostedBundle) s : AppState :=
  set_dirty_bundles ({[bundle_key b]} ∪ dirty_bundles s)
    (set_total_bundle_bytes (bundle_bytes (<[bundle_key b := b]> (bundles s)))
      (set_bundles (<[bundle_key b := b]> (bundles s)) s)).

Lemma bundle_bytes_insert id b (bs : gmap string HostedBundle) :
  bundle_bytes (<[id := b]> bs)
  = bundle_bytes bs - match bs !! id with Some old => slen (bundle_ciphertext old) | None => 0 end
    + slen (bundle_ciphertext b).
Proof. unfold bundle_bytes. by rewrite msum_insert. Qed.

Lemma keeps_with_bundle W P X T s b :
  total_bundle_bytes s + slen (bundle_ciphertext b) ≤ MAX_TOTAL_BUNDLE_BYTES →
  Z.of_nat (size (bundles s)) < MAX_BUNDLES →
  (∀ old, bundles s !! bundle_key b = Some old → bundle_expires_at_ms old ≤ T) →
  keeps W P X T s (with_bundle b s).
Proof.
  intros Hroom Hn Hold.
  assert (AppInv s → bundle_bytes (<[bundle_key b := b]> (bundles s)) ≤ MAX_TOTAL_BUNDLE_BYTES) as Hy.
  { intros HI. rewrite bundle_bytes_insert. pose proof (ai_bytes _ HI) as [<- _].
    destruct (bundles s !! bundle_key b) as [old|]; [pose proof (slen_nonneg (bundle_ciphertext old))|]; lia. }
  split; try done.
  - intros HI. specialize (Hy HI). destruct HI. split; try done; simpl.
    + split; [done|]. unfold MAX_TOTAL_BUNDLE_BYTES, u64_max in *. lia.
    + intros id b' [[<- <-]|[_ Hb]]%lookup_insert_Some; [done|by apply ai_bundles].
  - intros D _ [Hda Hdb]. split; [done|]. intros id. simpl. intros [Hne Hid]%not_elem_of_union.
    change (durable_bundles s !! id = <[bundle_key b := b]> (bundles s) !! id).
    rewrite lookup_insert_ne; [by apply Hdb|]. intros <-. by apply Hne, elem_of_singleton.
  - intros HI [Hm Hb _]. split; simpl; [done| |by apply Hy].
    pose proof (map_size_insert (bundle_key b) b (bundles s)) as Hsz. unfold size in *.
    destruct (bundles s !! bundle_key b); simpl in Hsz; rewrite Hsz; lia.
  - intros id b' Hb Ht. simpl. rewrite lookup_insert_ne; [done|]. intros <-. specialize (Hold _ Hb). lia.
Qed.

(** The file store's operations. *)
Lemma keeps_stored W P X T s id idx tc tb dat i :
  AppInv s → X id → FileWrites.store_pre (files s) id idx tc tb dat →
  FileFacts.verdict (files s) id idx tc tb dat = None →
  keeps W P X T s (set_files (FileWrites.stored_state (files s) id idx tc tb dat i) s).
Proof.
  intros HI HX Hpre Hv. pose proof (ai_files _ HI) as HF. apply (keeps_files W P X T s id).
  - done.
  - intros _. split; [by apply FileWrites.Inv_stored|apply FileWrites.Caps_stored; try done; apply HI].
  - unfold FileWrites.stored_state, FileWrites.claimed. by case_match.
  - intros id' Hne. split; cbn [files set_files].
    + rewrite FileWrites.metas_stored by done. by rewrite lookup_insert_ne.
    + intros k Hk. rewrite FileWrites.chunks_stored by done. rewrite lookup_insert_ne; [done|]. intros <-.
      rewrite FileFacts.chunk_owner in Hk by apply Hpre. congruence.
Qed.

Lemma keeps_deleted W P X T s id :
  AppInv s → X id → no_char ":" id →
  keeps W P X T s (set_files (FileRemovals.deleted (files s) id (FileRemovals.range_of id (files s)).*1) s).
Proof.
  intros HI HX Hid. pose proof (ai_files _ HI) as HF.
  destruct (FileRemovals.deleted_fine (files s) id _ HF Hid eq_refl) as (HF' & HC & Hch).
  apply (keeps_files W P X T s id).
  - done.
  - intros _. split; [done|]. apply HC, HI.
  - done.
  - intros id' Hne. split; cbn [files set_files].
    + rewrite FileRemovals.metas_deleted. by rewrite lookup_delete_ne.
    + intros k Hk. rewrite Hch. rewrite decide_False; [done|congruence].
Qed.
End Keeps.
