(* ===== verification/WsRuns.v ===== *)
(** The steps of a connection, run symbolically.

    [passes] says what a handler has done so far: its effect on the shared state
    is within the frame rule, and every frame it made a channel accept is one it
    may emit.  Each rule below runs one operation from a state reached so far
    and hands on the state it reaches. *)
From Stdlib Require Import ZArith Lia Ascii String.
From stdpp Require Import base gmap strings list.
From S2P Require Import Prelude Redb RustStd Config Util Protocol Mailbox Signal State StateFacts StateOps Ws WsFacts.
From S2P Require QueueStore.
From S2P Require QueueFacts.
From S2P Require QueueRuns.
From S2P Require QueueSpec.
From S2P Require FileStore.
From S2P Require FileFacts.
From S2P Require FileWrites.
From S2P Require FileRemovals.

Section Runs.
Context {RD : Redb} {UL : UuidLib} {LS : LibSignal} {HS : Hashing} {B6 : Base64} {JS : Json}.
Context {SV : Serde QueueStore.StoredValue} {SM : Serde FileStore.FileMeta}.
Context {SA : Serde MailboxAuth} {SB : Serde HostedBundle}.
Implicit Types (s : Session) (a : AppState) (rid m id : string) (W : gset string) (f : ServerFrame).
Context {E : Type}.

(** ** The session's own operations *)

(** [s] after [chan] accepted the frames [l]. *)
Definition logged (chan : ClientTx) (l : list ServerFrame) s : Session :=
  set_sent (sent s ++ ((λ f, (chan, f)) <$> l)) s.

Lemma logged_nil chan s : logged chan [] s = s.
Proof. unfold logged. rewrite fmap_nil, app_nil_r. by destruct s. Qed.

Lemma logged_app chan l k s : logged chan k (logged chan l s) = logged chan (l ++ k) s.
Proof. unfold logged, set_sent. simpl. by rewrite fmap_app, app_assoc. Qed.

Lemma wp_try_send chan f (Q : E + bool → Session → io → Prop) s i :
  (∀ i', io_later i i' → Q (inr true) (logged chan [f] s) i') →
  (∀ i', io_later i i' → ¬ channels_open i → Q (inr false) s i') →
  wp (try_send chan f) Q s i.
Proof.
  intros H1 H2. unfold try_send. wp_step. unfold wp at 1, send_ok.
  destruct i as [fa it cl [|[] r]]; cbn -[wp mbind].
  - wp_steps. by apply H1.
  - wp_steps. apply H2; [split; try done; by exists [true]|]. intros Ho. inversion Ho. done.
  - wp_steps. apply H1. split; try done. by exists [false].
Qed.

Lemma wp_reply f (Q : E + Flow → Session → io → Prop) s i :
  (∀ l i', io_later i i' → l = [f] ∨ l = [] ∧ ¬ channels_open i → Q (inr Continue) (logged (tx (conn s)) l s) i') →
  wp (reply f) Q s i.
Proof.
  intros H. unfold reply. do 3 wp_step. apply wp_try_send.
  - intros i' Hi. wp_step. apply H; [done|by left].
  - intros i' Hi Hc. wp_step. rewrite <- (logged_nil (tx (conn s)) s). apply H; [done|by right].
Qed.

Lemma wp_on_app {A} (op : M AppState E A) (Q : E + A → Session → io → Prop) s i :
  wp op (λ r a i', Q r (set_app a s) i') (app s) i → wp (on_app op) Q s i.
Proof. intros H. unfold on_app. by wp_step. Qed.

Lemma wp_spawn {E' A} (op : M Session E' A) (Q : E + option (E' + A) → Session → io → Prop) s i :
  (∀ i', io_later i i' → wp op (λ r s' i'', Q (inr (Some r)) s' i'') s i') →
  (∀ i', io_later i i' → ¬ quiet i → Q (inr None) s i') →
  wp (spawn_blocking op) Q s i.
Proof.
  intros H1 H2. unfold spawn_blocking. do 2 wp_step. apply (wp_io_call_from i); [done|..]; cbn beta iota.
  - intros i' Hi. do 2 wp_step. eapply wp_conseq; [by apply H1, step_later|]. cbn beta. intros r s' i'' Hr. by wp_step.
  - intros Hq i' Hi. wp_step. apply H2; [by apply step_later|done].
Qed.

(** ** Proof of work *)

Definition pow_verdict rid (nonce : string) (i : io) : bool :=
  match (verify_pow (S := ()) (E := ()) rid nonce () i).1.1 with inr b => b | inl _ => false end.

Definition pow_given (pow : option string) rid (i : io) : bool :=
  match pow with Some n => pow_verdict rid n i | None => false end.

Lemma wp_pow_exact {S} (pow : option string) rid (Q : E + bool → S → io → Prop) (s : S) i :
  (∀ i', i' = i ∨ i' = clock_tick i → Q (inr (pow_given pow rid i)) s i') →
  wp (match pow with Some n => verify_pow rid n | None => mret false end) Q s i.
Proof.
  intros H. unfold pow_given, pow_verdict. destruct pow as [n|]; [|wp_step; apply H; by left].
  unfold verify_pow, now_secs. wp_steps. apply H. by right.
Qed.

Lemma wp_pow {S} (pow : option string) rid (Q : E + bool → S → io → Prop) (s : S) i :
  (∀ i', io_later i i' → Q (inr (pow_given pow rid i)) s i') →
  wp (match pow with Some n => verify_pow rid n | None => mret false end) Q s i.
Proof. intros H. apply wp_pow_exact. intros i' [->| ->]; apply H; [done|apply tick_later]. Qed.

(** ** What a handler has done so far *)

Record passes W (P X : string → Prop) (T : Z) (R : ClientTx → ServerFrame → Prop) s i s' i' : Prop := {
  ps_later : io_later i i';
  ps_keeps : keeps W P X T (app s) (app s');
  ps_tx : tx (conn s') = tx (conn s);
  ps_rid : recipient_id (conn s') = recipient_id (conn s)
           ∨ ∃ rid, recipient_id (conn s') = Some rid ∧ P rid ∧ valid_recipient_id rid = true;
  ps_sent : ∃ l, sent s' = sent s ++ l ∧ Forall (λ cf, R cf.1 cf.2) l;
}.

Lemma passes_refl W P X T R s i : passes W P X T R s i s i.
Proof. split; try done; [by left|]. exists []. by rewrite app_nil_r. Qed.

Lemma passes_trans W P X T R s1 i1 s2 i2 s3 i3 :
  passes W P X T R s1 i1 s2 i2 → passes W P X T R s2 i2 s3 i3 → passes W P X T R s1 i1 s3 i3.
Proof.
  intros [H1 H2 H3 H4 (l & Hl & HR)] [H1' H2' H3' H4' (k & Hk & HR')].
  split; [by etrans|by etrans|congruence| |].
  - destruct H4' as [Heq|?]; [|by right]. destruct H4 as [<-|?]; [by left|right]. by rewrite Heq.
  - exists (l ++ k). rewrite app_assoc, <- Hl. split; [done|]. by apply Forall_app.
Qed.

(** Reading the clock, calling foreign code. *)
Lemma passes_later W P X T R s i s' i1 i2 :
  passes W P X T R s i s' i1 → io_later i1 i2 → passes W P X T R s i s' i2.
Proof. intros [] H. split; [by etrans|done..]. Qed.

Lemma passes_app W P X T R s i s' a' i' :
  passes W P X T R s i s' i' → keeps W P X T (app s') a' → passes W P X T R s i (set_app a' s') i'.
Proof. intros [] Hk. split; try done. simpl. by etrans. Qed.

Lemma passes_logged W P X T R s i s' i' l :
  passes W P X T R s i s' i' → Forall (R (tx (conn s))) l → passes W P X T R s i (logged (tx (conn s')) l s') i'.
Proof.
  intros [? ? Htx ? (k & Hk & HR)] Hl. split; try done.
  exists (k ++ ((λ f, (tx (conn s'), f)) <$> l)). simpl. rewrite Hk, app_assoc. split; [done|].
  apply Forall_app. split; [done|]. apply Forall_fmap. rewrite Htx. exact Hl.
Qed.

Lemma passes_marked P X T R rid s i s' i' :
  passes {[rid]} P X T R s i s' i' →
  passes ∅ P X T R s i (set_app (set_dirty_auth ({[rid]} ∪ dirty_auth (app s')) (app s')) s') i'.
Proof. intros []. split; try done. simpl. by apply keeps_marked. Qed.

Lemma passes_registered W P X T R rid s i s' i' :
  passes W P X T R s i s' i' → P rid → valid_recipient_id rid = true →
  passes W P X T R s i (set_conn (set_recipient_id rid (conn s')) s') i'.
Proof. intros [] HP Hv. split; try done. right. by exists rid. Qed.

(** ** Rules *)

Lemma reply_pass W P X T R f s0 i0 s i (Q : E + Flow → Session → io → Prop) :
  passes W P X T R s0 i0 s i → R (tx (conn s0)) f →
  (∀ s' i', passes W P X T R s0 i0 s' i' → app s' = app s → conn s' = conn s → Q (inr Continue) s' i') →
  wp (reply f) Q s i.
Proof.
  intros Hp Hf H. apply wp_reply. intros l i' Hi Hl. apply H; [|done..].
  apply passes_later with i; [|done]. apply passes_logged; [done|]. destruct Hl as [->|[-> _]]; [|done]. by apply Forall_singleton.
Qed.

(** The backlog goes to this connection, a prefix of it if the channel closes. *)
Lemma deliver_pass W P X T R s0 i0 envs n s i (Q : E + Z → Session → io → Prop) :
  passes W P X T R s0 i0 s i → Forall (λ env, R (tx (conn s0)) (Envelope env)) envs →
  (∀ n' s' i', passes W P X T R s0 i0 s' i' → app s' = app s → conn s' = conn s → Q (inr n') s' i') →
  wp (deliver (tx (conn s)) envs n) Q s i.
Proof.
  intros Hp Hall. revert n s i Hp. induction Hall as [|env rest Henv _ IH]; intros n s i Hp H; cbn [deliver].
  { wp_step. by apply H. }
  wp_step. apply wp_try_send.
  - intros i' Hi. cbn beta iota. change (tx (conn s)) with (tx (conn (logged (tx (conn s)) [Envelope env] s))) at 1.
    apply IH; [|done]. eapply passes_later; [|done]. apply passes_logged; [done|]. by apply Forall_singleton.
  - intros i' Hi _. cbn beta iota. wp_step. apply H; [by eapply passes_later|done..].
Qed.
End Runs.

(** The operations of the shared state that the handlers are made of, each with
    its outcomes and, for each outcome, what it keeps. *)

(** [now_activity_ms()]. *)
Abbreviation next_activity i := (next_now i - next_now i mod MAILBOX_ACTIVITY_GRANULARITY_MS).

Section Ops.
Context {RD : Redb} {UL : UuidLib} {LS : LibSignal} {HS : Hashing} {B6 : Base64} {JS : Json}.
Context {SV : Serde QueueStore.StoredValue} {SM : Serde FileStore.FileMeta}.
Context {SA : Serde MailboxAuth} {SB : Serde HostedBundle}.
Implicit Types (s : AppState) (rid m id : string) (W : gset string).
Context {E : Type}.

Lemma wp_now_activity {S} (Q : E + Z → S → io → Prop) (s : S) i :
  Q (inr (next_activity i)) s (clock_tick i) → wp now_activity_ms Q s i.
Proof. intros H. unfold now_activity_ms. wp_step. apply wp_now_ms. by wp_step. Qed.

(** ** Registration *)

(** The record [a] of the mailbox and the mailbox count [n] after a Hello that
    is let in. *)
Definition entered rid (auth_hash delivery_hash : string) (pow : option string) s i (a : MailboxAuth) (n : Z) : Prop :=
  match mailbox_auth s !! rid with
  | Some a0 => receive_auth_hash a0 = auth_hash ∧ n = mailbox_count s
               ∧ a = (ensure_delivery_hash delivery_hash (touch (next_activity i) a0)).2
  | None => pow_given pow rid i = true ∧ mailbox_count s < MAX_MAILBOXES ∧ n = mailbox_count s + 1
            ∧ ∃ now, a = {| receive_auth_hash := auth_hash; delivery_token_hash := delivery_hash;
                            delivery_token_hashes := [delivery_hash]; last_active_ms := now |}
  end.

(** Neither the owner's token nor a proof of work for a free mailbox. *)
Definition turned_away rid (auth_hash : string) (pow : option string) s i : Prop :=
  match mailbox_auth s !! rid with
  | Some a0 => receive_auth_hash a0 ≠ auth_hash
  | None => pow_given pow rid i = false
  end.

Lemma wp_enter rid (auth_hash delivery_hash : string) pow (Q : E + (ServerFrame + ()) → AppState → io → Prop) s i :
  mailbox_count s ≤ u64_max → 0 ≤ mailbox_count s →
  (∀ i', io_later i i' → turned_away rid auth_hash pow s i → Q (inr (inl hello_rejected)) s i') →
  (∀ i', io_later i i' → mailbox_auth s !! rid = None → pow_given pow rid i = true → MAX_MAILBOXES ≤ mailbox_count s →
     Q (inr (inl (err "relay_full" "relay mailbox limit reached"))) s i') →
  (∀ a n i', io_later i i' → entered rid auth_hash delivery_hash pow s i a n →
     Q (inr (inr ())) (set_mailbox_auth (<[rid := a]> (mailbox_auth s)) (set_mailbox_count n s)) i') →
  wp (enter_mailbox rid auth_hash delivery_hash pow) Q s i.
Proof.
  intros Hu Hn H1 H2 H3. unfold enter_mailbox, turned_away, entered in *. do 2 wp_step.
  destruct (mailbox_auth s !! rid) as [a0|] eqn:Ha.
  - destruct (ct_eq _ _) eqn:Hct; cbn [negb]; cbn beta iota.
    + apply ct_eq_true in Hct. wp_step. apply wp_now_activity. cbn beta iota zeta. wp_steps.
      replace (set_mailbox_auth _ s) with (set_mailbox_auth (<[rid := (ensure_delivery_hash delivery_hash (touch (next_activity i) a0)).2]>
        (mailbox_auth s)) (set_mailbox_count (mailbox_count s) s)) by by destruct s.
      apply H3; [apply tick_later|by split_and!].
    + apply ct_eq_false in Hct. wp_step. by apply H1.
  - wp_step. apply wp_pow. intros i1 Hi1. cbn beta iota. destruct (pow_given pow rid i) eqn:Hpow; cbn [negb]; cbn beta iota.
    2:{ wp_step. by apply H1. }
    wp_step. unfold reserve_mailbox_slot. do 2 wp_step. cbv zeta.
    destruct (Z.leb_spec MAX_MAILBOXES (mailbox_count s)) as [Hfull|Hroom].
    + wp_step. cbn [negb]. cbn beta iota. wp_step. by apply H2.
    + do 3 wp_step. cbn [negb]. cbn beta iota. wp_step. unfold new_mailbox. wp_step. apply wp_now_activity. cbn beta iota. wp_steps.
      rewrite (wrap64_small (mailbox_count s + 1)) by (unfold is_u64, MAX_MAILBOXES, u64_max in *; lia).
      apply H3; [etrans; [done|apply tick_later]|]. split_and!; try done. by eexists.
Qed.

Lemma keeps_entered rid ah dh pow W (P X : string → Prop) T s i a n :
  AppInv s → P rid → rid ∈ W → no_char ":" rid → entered rid ah dh pow s i a n →
  keeps W P X T s (set_mailbox_auth (<[rid := a]> (mailbox_auth s)) (set_mailbox_count n s)).
Proof.
  intros HI HP HW Hcol Hent. unfold entered in Hent. apply keeps_auth; try done; [by left|..].
  - intros _. split; [done|]. destruct (mailbox_auth s !! rid) as [a0|] eqn:Ha.
    + destruct Hent as (_ & _ & ->). apply wf_ensure, wf_touch. by apply (ai_auth _ HI rid).
    + destruct Hent as (_ & _ & _ & now & ->). apply wf_new.
  - destruct (mailbox_auth s !! rid); by destruct_and?.
  - intros Ha. rewrite Ha in Hent. tauto.
Qed.

(** ** Delivery *)

Lemma wp_authorize to tok (Q : E + bool → AppState → io → Prop) s i :
  ((∀ a, mailbox_auth s !! to = Some a → accepts_delivery_hash a (token_hash tok) = false) → Q (inr false) s i) →
  (∀ a, mailbox_auth s !! to = Some a → accepts_delivery_hash a (token_hash tok) = true →
     Q (inr true) (set_mailbox_auth (<[to := touch (next_activity i) a]> (mailbox_auth s)) s) (clock_tick i)) →
  wp (authorize_delivery to tok) Q s i.
Proof.
  intros H1 H2. unfold authorize_delivery. do 2 wp_step. destruct (mailbox_auth s !! to) as [a|] eqn:Ha.
  - destruct (accepts_delivery_hash a _) eqn:Hacc; cbn [negb]; cbn beta iota.
    + wp_step. apply wp_now_activity. cbn beta iota. do 3 wp_step. by apply H2.
    + wp_step. apply H1. by intros ? [= <-].
  - wp_step. by apply H1.
Qed.

Lemma keeps_touched W (P X : string → Prop) T s to a now :
  AppInv s → P to → mailbox_auth s !! to = Some a →
  keeps W P X T s (set_mailbox_auth (<[to := touch now a]> (mailbox_auth s)) s).
Proof.
  intros HI HP Ha.
  replace (set_mailbox_auth _ s) with (set_mailbox_auth (<[to := touch now a]> (mailbox_auth s)) (set_mailbox_count (mailbox_count s) s)) by by destruct s.
  apply keeps_auth; [done|right; by exists a| |by rewrite Ha|by rewrite Ha].
  intros _. destruct (ai_auth _ HI _ _ Ha). split; [done|by apply wf_touch].
Qed.

Lemma wp_allow to (Q : E + bool → AppState → io → Prop) s i :
  (∀ e ok, rate_step (next_now i) (send_rate s !! to) = (e, ok) →
     Q (inr ok) (set_send_rate (<[to := e]> (send_rate s)) s) (clock_tick i)) →
  wp (allow_dest_send to) Q s i.
Proof.
  intros H. unfold allow_dest_send. wp_step. apply wp_now_ms. cbn beta iota. do 2 wp_step.
  destruct (rate_step _ _) as [e ok] eqn:Hr. wp_steps. by apply H.
Qed.

Lemma rate_step_range now e e' ok :
  (∀ w c, e = Some (w, c) → 0 ≤ c ≤ MAX_SENDS_PER_DEST_PER_WINDOW) → rate_step now e = (e', ok) →
  0 ≤ e'.2 ≤ MAX_SENDS_PER_DEST_PER_WINDOW.
Proof.
  intros He. unfold rate_step. destruct e as [[w c]|]; simpl.
  - specialize (He w c eq_refl). unfold MAX_SENDS_PER_DEST_PER_WINDOW in *.
    destruct (_ <? _); [intros [= <- _]; simpl; lia|]. destruct (Z.leb_spec 120 c); intros [= <- _]; simpl; [lia|].
    rewrite wrap32_small by (unfold u32_max; lia). lia.
  - destruct (_ <? _); intros [= <- _]; done.
Qed.

Lemma keeps_allowed W (P X : string → Prop) T s to e ok now :
  AppInv s → P to → rate_step now (send_rate s !! to) = (e, ok) →
  keeps W P X T s (set_send_rate (<[to := e]> (send_rate s)) s).
Proof.
  intros HI HP Hr. apply (keeps_send_rate W P X T s to).
  - done.
  - intros m Hm. by apply lookup_insert_ne.
  - intros w c. rewrite lookup_insert_eq. intros [= ->]. left.
    by apply (rate_step_range _ _ _ _ (ai_rate _ HI to) Hr).
Qed.

(** ** Bundles *)

Definition new_bundle (now : Z) id (ct : string) (expires_at_ms : Z) : HostedBundle :=
  {| bundle_key := id; bundle_ciphertext := ct; bundle_created_at_ms := now;
     bundle_expires_at_ms := Z.max (Z.min expires_at_ms (now +^ MAX_BUNDLE_TTL_MS)) (now +^ 60000) |}.

Lemma wp_insert_bundle now id ct expires_at_ms (Q : E + Z → AppState → io → Prop) s i :
  AppInv s → total_bundle_bytes s + slen ct ≤ MAX_TOTAL_BUNDLE_BYTES →
  (let b := new_bundle now id ct expires_at_ms in Q (inr (bundle_expires_at_ms b)) (with_bundle b s) i) →
  wp (insert_bundle now id ct expires_at_ms) Q s i.
Proof.
  intros HI Hroom H. cbv zeta in H. pose proof (ai_bytes _ HI) as [Hy _].
  pose proof (bundle_bytes_nonneg (bundles s)) as Hnn. pose proof (slen_nonneg ct) as Hct.
  unfold insert_bundle. cbv zeta. do 5 wp_step. set (b := new_bundle now id ct expires_at_ms) in *.
  assert (∀ t, t = bundle_bytes (<[bundle_key b := b]> (bundles s)) →
    wp (_ ← modify (λ s, set_total_bundle_bytes (total_bundle_bytes s +! slen ct) s); _ ← mark_bundle_dirty id; mret (bundle_expires_at_ms b))
      Q (set_total_bundle_bytes (t - slen ct) (set_bundles (<[id := b]> (bundles s)) s)) i) as Hend.
  { intros t Ht. unfold mark_bundle_dirty. wp_steps. cbn [total_bundle_bytes set_total_bundle_bytes].
    unfold with_bundle in H. rewrite <- Ht in H.
    assert (bundle_bytes (<[bundle_key b := b]> (bundles s)) ≤ MAX_TOTAL_BUNDLE_BYTES ∧ 0 ≤ bundle_bytes (<[bundle_key b := b]> (bundles s))) as [Hle Hge].
    { split; [|apply bundle_bytes_nonneg]. rewrite bundle_bytes_insert. cbn [bundle_ciphertext b new_bundle].
      destruct (bundles s !! _) as [old|]; [pose proof (slen_nonneg (bundle_ciphertext old))|]; lia. }
    replace (t - slen ct +! slen ct) with t; [exact H|].
    rewrite Z.sub_add, wrap64_small; [done|]. unfold is_u64, u64_max, MAX_TOTAL_BUNDLE_BYTES in *. lia. }
  pose proof (bundle_bytes_insert (bundle_key b) b (bundles s)) as Hins. cbn [bundle_ciphertext bundle_key b new_bundle] in Hins.
  pose proof (msum_contrib_le (λ _ b, slen (bundle_ciphertext b)) (bundles s) id ltac:(intros; apply slen_nonneg)) as Hle.
  unfold contrib in Hle. fold (bundle_bytes (bundles s)) in Hle.
  destruct (bundles s !! id) as [old|] eqn:Hold.
  - wp_step. wp_step. cbn [total_bundle_bytes set_bundles]. unfold atomic_sub_saturating. rewrite sat_sub_le by lia.
    specialize (Hend _ eq_refl). cbn [bundle_key b new_bundle] in Hend. rewrite Hins in Hend.
    replace (bundle_bytes (bundles s) - slen (bundle_ciphertext old) + slen ct - slen ct)
      with (total_bundle_bytes s - slen (bundle_ciphertext old)) in Hend by lia. exact Hend.
  - wp_step. wp_step. specialize (Hend _ eq_refl). cbn [bundle_key b new_bundle] in Hend. rewrite Hins in Hend.
    replace (bundle_bytes (bundles s) - 0 + slen ct - slen ct) with (total_bundle_bytes s) in Hend by lia.
    by destruct s.
Qed.
End Ops.
