(* ===== verification/WsFrames.v ===== *)
(** Every handler keeps the frame rule: what each [ClientFrame] may touch and
    emit, and that it does no more. *)
From Stdlib Require Import ZArith Lia Ascii String.
From stdpp Require Import base gmap strings list.
From S2P Require Import Prelude Redb RustStd Config Util Protocol Mailbox Signal State StateFacts StateOps Ws WsFacts.
From S2P Require Import WsRuns.
From S2P Require QueueStore.
From S2P Require QueueFacts.
From S2P Require QueueRuns.
From S2P Require QueueSpec.
From S2P Require FileStore.
From S2P Require FileFacts.
From S2P Require FileWrites.
From S2P Require FileRemovals.

Section Frames.
Context {RD : Redb} {UL : UuidLib} {LS : LibSignal} {HS : Hashing} {B6 : Base64} {JS : Json}.
Context {SV : Serde QueueStore.StoredValue} {SM : Serde FileStore.FileMeta}.
Context {SA : Serde MailboxAuth} {SB : Serde HostedBundle}.
Implicit Types (s : Session) (rid m id : string) (f : ClientFrame).
Context {E : Type}.

(** ** What a frame is entitled to *)

(** The mailboxes it may touch: its own, by the owner's token or a proof of work
    at Hello and by the registration afterwards; a destination, by one of its
    delivery tokens. *)
Definition touches f s (i : io) m : Prop :=
  match f with
  | Hello rid auth_token _ _ _ _ pow _ =>
      m = rid ∧ ¬ turned_away rid (token_hash auth_token) pow (app s) i
  | SetDeliveryTokens _ _ | Ack _ | RetireMailbox => recipient_id (conn s) = Some m
  | SendEnvelope _ to delivery_token _ _ =>
      m = to ∧ ∃ a, mailbox_auth (app s) !! m = Some a ∧ accepts_delivery_hash a (token_hash delivery_token) = true
  | _ => False
  end.

(** The transfers it names. *)
Definition names f id : Prop :=
  match f with
  | UploadFileChunk _ transfer_id _ _ _ _ _ | DeleteTransfer _ transfer_id => id = transfer_id
  | _ => False
  end.

Definition is_hello f : bool := match f with Hello _ _ _ _ _ _ _ _ => true | _ => false end.

(** What may reach a channel: envelopes only of a mailbox the frame touches, to
    its live route or, after Hello, to this connection; the rest to this
    connection. *)
Definition emits f s (i : io) (chan : ClientTx) (fr : ServerFrame) : Prop :=
  match fr with
  | Envelope env => touches f s i (env_to env) ∧ (is_hello f = true ∧ chan = tx (conn s) ∨ online (app s) !! env_to env = Some chan)
  | _ => chan = tx (conn s)
  end.

(** A connection between two frames. *)
Record SessionInv s : Prop := {
  si_app : AppInv (app s);
  si_rid : ∀ rid, recipient_id (conn s) = Some rid → valid_recipient_id rid = true;
}.

(** What the environment of a frame is assumed to be. *)
Record frame_pre (T : Z) (d : Draws) f s i : Prop := {
  fp_fits : frame_fits MAX_FRAME_BYTES f;
  fp_fresh : ∀ to, QueueFacts.entries (queues (app s)) !! QueueStore.key_for to (draw_uuid d) = None;
  fp_seq : QueueStore.next_seq (queues (app s)) < u64_max;
  fp_limits : max_total_file_bytes (FileStore.config (files (app s))) + MAX_FRAME_BYTES ≤ u64_max;
  fp_items : items_fine i;
  fp_time : 0 ≤ T ≤ u64_max;
  fp_clock : clock_below T i;
}.

(** What a frame did. *)
Definition served T f s i (r : E + Flow) s' (i' : io) : Prop :=
  (∃ flow, r = inr flow) ∧ passes ∅ (touches f s i) (names f) T (emits f s i) s i s' i'.

Section Frame.
Context (T : Z) (d : Draws) (f : ClientFrame) (s : Session) (i : io).
Context (HI : SessionInv s) (Hpre : frame_pre T d f s i).

Abbreviation P := (touches f s i).
Abbreviation R := (emits f s i).
Abbreviation sofar W := (passes W P (names f) T R s i).

Lemma sofar_inv W s1 i1 : sofar W s1 i1 → AppInv (app s1).
Proof. intros Hp. apply (k_inv _ _ _ _ _ _ (ps_keeps _ _ _ _ _ _ _ _ _ Hp)), HI. Qed.

Lemma sofar_clock W s1 i1 : sofar W s1 i1 → 0 ≤ next_now i1 ≤ T.
Proof.
  intros Hp. apply next_now_below; [apply Hpre|].
  eapply clock_below_later; [apply (ps_later _ _ _ _ _ _ _ _ _ Hp)|apply Hpre].
Qed.

Lemma sofar_start W : sofar W s i.
Proof. apply passes_refl. Qed.

(** A reply that is no envelope is always allowed; it ends the handler. *)
Lemma reply_ends (fr : ServerFrame) s1 i1 :
  sofar ∅ s1 i1 → (∀ env, fr ≠ Envelope env) →
  wp (reply fr) (served T f s i) s1 i1.
Proof.
  intros Hp Hfr. eapply reply_pass; [exact Hp|destruct fr; try done; exfalso; by eapply Hfr|].
  intros s' i' Hp' _ _. split; [by eexists|done].
Qed.

(** An operation on the queue of a mailbox the frame touches. *)
Lemma queue_pass W rid q s1 i1 i2 :
  sofar W s1 i1 → io_later i1 i2 → P rid → QueueFacts.Inv q →
  (∀ m, m ≠ rid → QueueSpec.abs q m = QueueSpec.abs (queues (app s1)) m) →
  sofar W (set_app (set_queues q (app s1)) s1) i2.
Proof.
  intros Hp Hi HP Hq Ho. eapply passes_app; [by eapply passes_later|]. by apply (keeps_queues _ _ _ _ _ rid).
Qed.

Lemma prune_pass W s1 i1 (Q : E + () → Session → io → Prop) :
  sofar W s1 i1 →
  (∀ a', sofar W (set_app a' s1) (clock_tick i1) → a' = app s1 ∨ a' = pruned (next_now i1) (app s1) →
     Q (inr ()) (set_app a' s1) (clock_tick i1)) →
  wp (on_app prune_expired_bundles) Q s1 i1.
Proof.
  intros Hp H. apply wp_on_app. pose proof (sofar_inv _ _ _ Hp) as HA. pose proof (sofar_clock _ _ _ Hp) as [_ Hc].
  assert (sofar W s1 (clock_tick i1)) as Hp' by (eapply passes_later; [done|apply tick_later]).
  apply prune_wp; [done| |].
  - intros _ _. apply H; [|by left]. by apply passes_app.
  - apply H; [|by right]. apply passes_app; [done|]. by apply keeps_pruned.
Qed.
End Frame.

(** ** The handlers *)

Lemma ping_served T d s i :
  SessionInv s → frame_pre T d Ping s i → wp on_ping (served T Ping s i) s i.
Proof.
  intros HI Hpre. unfold on_ping. wp_step. apply wp_now_ms. cbn beta iota.
  apply reply_ends; [|done]. eapply passes_later; [apply sofar_start|apply tick_later].
Qed.

Lemma set_tokens_served T d req tokens s i :
  let f := SetDeliveryTokens req tokens in
  SessionInv s → frame_pre T d f s i → wp (on_set_delivery_tokens req tokens) (served T f s i) s i.
Proof.
  intros f HI Hpre. unfold on_set_delivery_tokens. do 2 wp_step. pose proof (sofar_start T f s i) as Hp.
  destruct (recipient_id (conn s)) as [rid|] eqn:Hrid; [|by apply reply_ends].
  destruct (_ || _) eqn:Hbad; [by apply reply_ends|].
  destruct (mailbox_auth (app s) !! rid) as [a|] eqn:Ha; [|by apply reply_ends]. cbv zeta.
  assert (touches f s i rid) as HP by exact Hrid.
  set (a' := replace_delivery_hashes (token_hash <$> tokens) a).
  wp_step. apply wp_on_app. wp_step. wp_step. apply wp_on_app. unfold mark_auth_dirty. wp_step.
  apply reply_ends; [|done]. apply (passes_marked _ _ _ _ rid _ _ (set_app _ s)).
  apply passes_app; [apply passes_refl|].
  replace (set_mailbox_auth _ (app s)) with (set_mailbox_auth (<[rid := a']> (mailbox_auth (app s)))
    (set_mailbox_count (mailbox_count (app s)) (app s))) by by destruct (app s).
  apply keeps_auth; [done|left; by apply elem_of_singleton| |by rewrite Ha|by rewrite Ha].
  intros _. split; [by apply valid_recipient_no_colon, HI|apply wf_replace].
Qed.

Lemma issue_wp {S} cr rng req uuid dev key (st : S) i :
  wp (issue_sender_certificate cr rng req uuid dev key) (λ r st' i', st' = st ∧ io_later i i' ∧
    match r with
    | inr fr => ∃ kb k rn dn cert cb, b64_decode key = Some kb ∧ public_key_deserialize kb = inr k ∧ rng = inr rn
        ∧ device_id dev = Some dn ∧ dev ≠ 0 ∧ dev ≤ 127 ∧ valid_recipient_id uuid = true
        ∧ sender_certificate_new uuid k dn (next_now i +^ SENDER_CERT_TTL_MS) (server_certificate cr)
            (server_signing_private cr) rn = inr cert
        ∧ sender_certificate_serialized cert = inr cb
        ∧ fr = Protocol.SenderCertificate req (b64_encode cb) (trust_root_public_b64 cr) (next_now i +^ SENDER_CERT_TTL_MS)
    | inl _ => True
    end) st i.
Proof.
  unfold issue_sender_certificate.
  destruct (negb (valid_recipient_id uuid) || (dev =? 0) || (127 <? dev)) eqn:Hg; [by wp_step|].
  rewrite !orb_false_iff, negb_false_iff in Hg. destruct Hg as [[Hv H0] H1].
  wp_step; [by wp_step|].
  wp_step. wp_step. destruct (b64_decode key) as [kb|] eqn:Hk; [|done].
  wp_step. wp_step. destruct (public_key_deserialize kb) as [e|k] eqn:Hpk; [done|].
  wp_step. wp_step. destruct rng as [e|rn]; [done|].
  wp_step. apply wp_now_ms. cbn beta iota zeta. assert (io_later i (clock_tick i)) as Hi by apply tick_later.
  wp_step. wp_step. destruct (device_id dev) as [dn|] eqn:Hd; [|done].
  wp_step. wp_step. destruct (sender_certificate_new _ _ _ _ _ _ _) as [e|cert] eqn:Hc; [done|].
  wp_step. wp_step. destruct (sender_certificate_serialized cert) as [e|cb] eqn:Hs; [done|].
  wp_step. split_and!; [done..|]. exists kb, k, rn, dn, cert, cb. split_and!; try done; try lia.
Qed.

Lemma issue_served T d req uuid dev key s i :
  let f := IssueSenderCertificate req uuid dev key in
  SessionInv s → frame_pre T d f s i →
  wp (on_issue_sender_certificate (draw_rng d) req uuid dev key) (served T f s i) s i.
Proof.
  intros f HI Hpre. unfold on_issue_sender_certificate. do 2 wp_step. pose proof (sofar_start T f s i) as Hp.
  destruct (recipient_id (conn s)) as [rid|] eqn:Hrid; [|by apply reply_ends].
  wp_step; [by apply reply_ends|]. do 2 wp_step. eapply wp_conseq; [apply issue_wp|]. cbn beta.
  intros [e|fr] s' i' (-> & Hi & Hr); cbn beta iota; (apply reply_ends; [by eapply passes_later|]); [done|].
  destruct Hr as (? & ? & ? & ? & ? & ? & _ & _ & _ & _ & _ & _ & _ & _ & _ & ->). done.
Qed.

Lemma ack_served T d ids s i :
  let f := Ack ids in
  SessionInv s → frame_pre T d f s i → wp (on_ack ids) (served T f s i) s i.
Proof.
  intros f HI Hpre. unfold on_ack. do 2 wp_step. pose proof (sofar_start T f s i) as Hp.
  destruct (recipient_id (conn s)) as [rid|] eqn:Hrid; [|by apply reply_ends].
  assert (touches f s i rid) as HP by exact Hrid.
  assert (no_char ":" rid) as Hcol by by apply valid_recipient_no_colon, HI.
  wp_step. apply wp_spawn.
  - intros i1 Hi1. unfold on_queues. apply wp_on_app. wp_step.
    eapply wp_conseq; [apply (QueueSpec.ack_effect i1); [apply HI|done..]|]. cbn beta.
    intros r q i2 (Hi2 & Hq & Ho & _). cbn beta iota zeta. apply reply_ends; [|done].
    eapply queue_pass; [exact (Hp _)| |exact HP|exact Hq|exact Ho]. etrans; [done|by apply step_later].
  - intros i1 Hi1 _. cbn beta iota zeta. apply reply_ends; [by eapply passes_later|done].
Qed.

(** Removing the mailbox's record, and its count. *)
Lemma forget_pass T rid s0 i0 P X R s i (Q : E + () → Session → io → Prop) :
  passes {[rid]} P X T R s0 i0 s i → P rid →
  (∀ a', passes {[rid]} P X T R s0 i0 (set_app a' s) i → mailbox_auth a' = delete rid (mailbox_auth (app s)) →
     queues a' = queues (app s) → online a' = online (app s) → send_rate a' = send_rate (app s) →
     Q (inr ()) (set_app a' s) i) →
  wp (on_app (
        a ← get;
        match mailbox_auth a !! rid with
        | Some _ =>
            _ ← put (set_mailbox_auth (delete rid (mailbox_auth a)) a);
            modify (λ a, set_mailbox_count (mailbox_count a -! 1) a)
        | None => mret ()
        end)) Q s i.
Proof.
  intros Hp HP H. apply wp_on_app. do 2 wp_step. destruct (mailbox_auth (app s) !! rid) as [a|] eqn:Ha.
  - do 3 wp_step. apply H; [|done..]. apply passes_app; [done|]. apply (keeps_auth_removed _ _ _ _ (app s) rid a); [done|by apply elem_of_singleton|done].
  - wp_step. apply H; [by apply passes_app| |done..]. by rewrite delete_id.
Qed.

Lemma retire_served T d s i :
  SessionInv s → frame_pre T d RetireMailbox s i → wp on_retire_mailbox (served T RetireMailbox s i) s i.
Proof.
  intros HI Hpre. set (f := RetireMailbox). unfold on_retire_mailbox. do 2 wp_step. pose proof (sofar_start T f s i) as Hp.
  destruct (recipient_id (conn s)) as [rid|] eqn:Hrid; [|by apply reply_ends].
  assert (touches f s i rid) as HP by exact Hrid.
  assert (no_char ":" rid) as Hcol by by apply valid_recipient_no_colon, HI.
  wp_step. eapply (forget_pass T); [exact (Hp _)|exact HP|]. clear Hp. intros a1 Hp _ _ _ _. cbn beta iota.
  assert (∀ s2 i2, passes {[rid]} (touches f s i) (names f) T (emits f s i) s i s2 i2 →
    wp (_ ← on_app (modify (λ a, set_send_rate (delete rid (send_rate a)) a));
        _ ← on_app (modify (λ a, set_online (delete rid (online a)) a));
        _ ← on_app (mark_auth_dirty rid);
        _ ← reply (AckOk 0);
        mret Break) (served T f s i) s2 i2) as Hend.
  { intros s2 i2 Hp2. wp_step. apply wp_on_app. wp_step. wp_step. apply wp_on_app. wp_step. wp_step.
    apply wp_on_app. unfold mark_auth_dirty. wp_step. wp_step.
    apply (reply_pass ∅ (touches f s i) (names f) T (emits f s i) (AckOk 0) s i); [|done|].
    - apply (passes_marked _ _ _ _ rid _ _ (set_app _ s2)). apply passes_app; [done|].
      etrans; [apply (keeps_send_rate _ _ _ _ _ rid (delete rid (send_rate (app s2))))|].
      + exact HP.
      + intros m Hm. by rewrite lookup_delete_ne.
      + intros w c. by rewrite lookup_delete_eq.
      + apply (keeps_online _ _ _ _ _ rid); [exact HP|]. intros m Hm. by rewrite lookup_delete_ne.
    - intros s3 i3 Hp3 _ _. wp_step. split; [by eexists|done]. }
  wp_step. apply wp_spawn.
  - intros i1 Hi1. unfold on_queues. apply wp_on_app. wp_step.
    eapply wp_conseq; [apply (QueueSpec.purge_effect i1); [|done..]|]; cbn beta.
    { eapply ai_queues. by eapply sofar_inv in Hp. }
    intros r q i2 (Hi2 & Hq & Ho & _). cbn beta iota. apply Hend.
    eapply queue_pass; [exact Hp| |exact HP|exact Hq|exact Ho]. etrans; [done|by apply step_later].
  - intros i1 Hi1 _. cbn beta iota. apply Hend. by eapply passes_later.
Qed.

(** ** File transfers *)

Lemma upload_store_pre T d req id idx tc tb ct pow s i raw :
  let f := UploadFileChunk req id idx tc tb ct pow in
  SessionInv s → frame_pre T d f s i → valid_bundle_id id = true → b64_decode ct = Some raw →
  FileWrites.store_pre (files (app s)) id idx tc tb raw.
Proof.
  intros f HI Hpre Hid Hraw.
  pose proof (fp_fits _ _ _ _ _ Hpre) as Hfits. simpl in Hfits. destruct Hfits as (? & ? & [? ?] & Hct).
  pose proof (b64_decode_shorter _ _ Hraw). pose proof (fp_limits _ _ _ _ _ Hpre).
  pose proof (ai_files _ (si_app _ HI)) as HF. pose proof (FileFacts.inv_config _ HF) as [_ Hc _ _ _].
  pose proof (FileFacts.inv_reserved _ HF) as [Hres _]. pose proof (FileFacts.cap_bytes _ (ai_file_caps _ (si_app _ HI))).
  split; [by apply valid_bundle_no_colon|lia|lia|lia].
Qed.

Lemma upload_chunk_served T d req id idx tc tb ct pow s i :
  let f := UploadFileChunk req id idx tc tb ct pow in
  SessionInv s → frame_pre T d f s i → wp (on_upload_file_chunk req id idx tc tb ct pow) (served T f s i) s i.
Proof.
  intros f HI Hpre. unfold on_upload_file_chunk. pose proof (sofar_start T f s i) as Hp.
  destruct (valid_bundle_id id) eqn:Hid; cbn [negb]; cbn beta iota; [|by apply reply_ends].
  destruct (b64_decode ct) as [raw|] eqn:Hraw; [|by apply reply_ends].
  pose proof (upload_store_pre T d req id idx tc tb ct pow s i raw HI Hpre Hid Hraw) as Hstore.
  assert (∀ i1, io_later i i1 → wp (result ← spawn_blocking (on_files (FileStore.store_chunk id idx tc tb raw));
          match result with
          | Some (inr stored) =>
              reply (FileChunkStored req id idx (FileStore.sc_received_chunks stored) (FileStore.sc_total_chunks stored))
          | Some (inl reject) => reply (file_err req id (FileStore.code reject) (FileStore.message reject))
          | None => reply (file_err req id "relay_full" "could not store file chunk")
          end) (served T f s i) s i1) as Hend.
  { intros i1 Hi1. wp_step. apply wp_spawn.
    - intros i2 Hi2. unfold on_files. apply wp_on_app. wp_step.
      eapply wp_conseq; [apply FileWrites.store_chunk_wp; [apply HI|done]|]. cbn beta.
      intros [e|sc] q i3 [Hi3 Hr]; cbn beta iota zeta; (apply reply_ends; [|done]);
        (eapply passes_later with i1; [|by etrans]); (apply passes_app; [by eapply passes_later|]).
      + destruct Hr as [-> _]. by destruct (app s).
      + destruct Hr as (Hv & -> & _). by apply keeps_stored; [apply HI|..].
    - intros i2 Hi2 _. cbn beta iota. apply reply_ends; [|done]. eapply passes_later; [done|by etrans]. }
  wp_step. destruct (idx =? 0).
  - apply wp_pow. intros i1 Hi1. cbn beta iota. destruct (pow_given pow id i); cbn [negb]; cbn beta iota; [by apply Hend|].
    apply reply_ends; [by eapply passes_later|done].
  - wp_step. cbn [negb]. cbn beta iota. by apply Hend.
Qed.

Lemma fetch_chunk_served T d req id idx s i :
  let f := FetchFileChunk req id idx in
  SessionInv s → frame_pre T d f s i → wp (on_fetch_file_chunk req id idx) (served T f s i) s i.
Proof.
  intros f HI Hpre. unfold on_fetch_file_chunk. pose proof (sofar_start T f s i) as Hp.
  destruct (valid_bundle_id id) eqn:Hid; cbn [negb]; cbn beta iota; [|by apply reply_ends].
  wp_step. apply wp_spawn.
  - intros i1 Hi1. unfold on_files. apply wp_on_app. wp_step.
    eapply wp_conseq; [apply (FileRemovals.fetch_wp i1); [apply HI|done]|]. cbn beta.
    intros r q i2 (Hi2 & -> & _). cbn beta iota.
    replace (set_app (set_files (files (app s)) (app s)) s) with s by by destruct s as [[] ? ?].
    assert (passes ∅ (touches f s i) (names f) T (emits f s i) s i s i2) as Hp2.
    { eapply passes_later; [done|]. etrans; [done|by apply step_later]. }
    destruct r as [e|c]; by apply reply_ends.
  - intros i1 Hi1 _. cbn beta iota. apply reply_ends; [by eapply passes_later|done].
Qed.

Lemma delete_served T d req id s i :
  let f := DeleteTransfer req id in
  SessionInv s → frame_pre T d f s i → wp (on_delete_transfer req id) (served T f s i) s i.
Proof.
  intros f HI Hpre. unfold on_delete_transfer. pose proof (sofar_start T f s i) as Hp.
  destruct (valid_bundle_id id) eqn:Hid; cbn [negb]; cbn beta iota; [|by apply reply_ends].
  assert (no_char ":" id) as Hcol by by apply valid_bundle_no_colon.
  wp_step. apply wp_spawn.
  - intros i1 Hi1. unfold on_files. apply wp_on_app. wp_step.
    eapply wp_conseq; [apply (FileRemovals.delete_wp i1); [apply HI|done..]|]. cbn beta.
    intros r q i2 (Hi2 & Hr). cbn beta iota. apply reply_ends; [|done].
    eapply passes_later with i; [|etrans; [done|by apply step_later]]. apply passes_app; [done|].
    destruct r as [e|b]; [destruct Hr as [_ ->]; by destruct (app s)|].
    destruct Hr as (_ & ks & -> & Hks). rewrite Hks; [by apply keeps_deleted; [apply HI|..]|].
    eapply items_fine_later; [done|apply Hpre].
  - intros i1 Hi1 _. cbn beta iota. apply reply_ends; [by eapply passes_later|done].
Qed.

(** ** Bundles *)

Lemma fetch_bundle_served T d req id s i :
  let f := FetchBundle req id in
  SessionInv s → frame_pre T d f s i → wp (on_fetch_bundle req id) (served T f s i) s i.
Proof.
  intros f HI Hpre. unfold on_fetch_bundle. pose proof (sofar_start T f s i) as Hp.
  wp_step. apply (prune_pass T d f s i HI Hpre ∅); [done|]. intros a' Hp1 _. cbn beta iota.
  wp_step. apply wp_now_ms. cbn beta iota. do 2 wp_step. cbv zeta.
  assert (passes ∅ (touches f s i) (names f) T (emits f s i) s i (set_app a' s) (clock_tick (clock_tick i))) as Hp2.
  { eapply passes_later; [done|apply tick_later]. }
  destruct (bundles _ !! id) as [b|]; [|by apply reply_ends]. destruct (_ <? _); by apply reply_ends.
Qed.

Lemma upload_bundle_served T d req id ct exp pow s i :
  let f := UploadBundle req id ct exp pow in
  SessionInv s → frame_pre T d f s i → wp (on_upload_bundle req id ct exp pow) (served T f s i) s i.
Proof.
  intros f HI Hpre. unfold on_upload_bundle. pose proof (sofar_start T f s i) as Hp.
  wp_step; [by apply reply_ends|]. wp_step. apply wp_pow. intros i1 Hi1. cbn beta iota.
  assert (passes ∅ (touches f s i) (names f) T (emits f s i) s i s i1) as Hp1 by by eapply passes_later.
  wp_step; [by apply reply_ends|]. wp_step.
  apply (prune_pass T d f s i HI Hpre ∅); [done|]. intros a' Hp2 _. cbn beta iota.
  set (i2 := clock_tick i1) in *. set (s2 := set_app a' s) in *.
  wp_step. apply wp_now_ms. cbn beta iota. do 2 wp_step.
  assert (∀ i3, io_later i2 i3 → passes ∅ (touches f s i) (names f) T (emits f s i) s i s2 i3) as Hp3.
  { intros i3 Hi3. by eapply passes_later. }
  pose proof (sofar_clock T d f s i Hpre ∅ s2 i2 Hp2) as [_ Hnow].
  pose proof (sofar_inv T f s i HI ∅ s2 i2 Hp2) as HA.
  assert (io_later i2 (clock_tick i2)) as Ht by apply tick_later.
  destruct (existing_reply (next_now i2) req id ct (bundles (app s2) !! id)) as [fr|] eqn:Hex.
  { apply reply_ends; [by apply Hp3|]. intros env ->. unfold existing_reply in Hex. by repeat case_match. }
  wp_step; [apply reply_ends; [by apply Hp3|done]|]. wp_step; [apply reply_ends; [by apply Hp3|done]|].
  rename Heqb1 into Hcount, Heqb2 into Hbytes. apply Z.leb_gt in Hcount. apply Z.ltb_ge in Hbytes.
  assert (total_bundle_bytes (app s2) + slen ct ≤ MAX_TOTAL_BUNDLE_BYTES) as Hroom.
  { unfold sat_add, u64_max, MAX_TOTAL_BUNDLE_BYTES in *. lia. }
  wp_step. apply wp_now_ms. cbn beta iota. wp_step. apply wp_on_app.
  apply wp_insert_bundle; [done..|]. cbv zeta. cbn beta iota. apply reply_ends; [|done].
  apply passes_app; [apply Hp3; etrans; [exact Ht|apply tick_later]|].
  apply keeps_with_bundle; [exact Hroom|exact Hcount|].
  intros old Hold. change (bundle_key _) with id in Hold. unfold existing_reply in Hex. rewrite Hold in Hex.
  destruct (Z.leb_spec (bundle_expires_at_ms old) (next_now i2)); [lia|]. by case_bool_decide.
Qed.

(** ** Sending *)

(** What [enqueue] needs, once the global cap is checked. *)
Lemma send_enqueue_pre T d cr to tok ty ct s i a' q env :
  let f := SendEnvelope cr to tok ty ct in
  frame_pre T d f s i → valid_recipient_id to = true → AppInv a' → q = queues (app s) → queues a' = q →
  env = {| env_id := draw_uuid d; env_to := to; envelope_type := ty; ciphertext := ct |} →
  QueueStore.would_exceed_global q (slen ct) = false →
  QueueRuns.enqueue_pre q to env.
Proof.
  intros f Hpre Hto HA -> Hq -> Hcap. unfold QueueStore.would_exceed_global in Hcap. apply Z.ltb_ge in Hcap.
  pose proof (fp_fits _ _ _ _ _ Hpre) as Hfits. simpl in Hfits.
  split; simpl.
  - by apply valid_recipient_no_colon.
  - apply (fp_fresh _ _ _ _ _ Hpre).
  - unfold MAX_FRAME_BYTES, PER_MAILBOX_QUEUE_BYTES in *. lia.
  - unfold sat_add, u64_max, GLOBAL_QUEUE_DISK_CAP_BYTES in *. lia.
  - apply (fp_seq _ _ _ _ _ Hpre).
Qed.

(** The live route: tried first, dropped when it refuses. *)
Lemma live_pass T f s0 i0 to env s i (Q : E + bool → Session → io → Prop) :
  passes ∅ (touches f s0 i0) (names f) T (emits f s0 i0) s0 i0 s i → env_to env = to → touches f s0 i0 to →
  online (app s) = online (app s0) →
  (∀ live i', passes ∅ (touches f s0 i0) (names f) T (emits f s0 i0) s0 i0 (logged live [Envelope env] s) i' →
     online (app s0) !! to = Some live → Q (inr true) (logged live [Envelope env] s) i') →
  (∀ o i', let s' := set_app (set_online o (app s)) s in
     passes ∅ (touches f s0 i0) (names f) T (emits f s0 i0) s0 i0 s' i' →
     (online (app s0) !! to = None ∨ ¬ channels_open i) → Q (inr false) s' i') →
  wp (deliver_live to env) Q s i.
Proof.
  intros Hp Henv HP Hon H1 H2. unfold deliver_live. do 2 wp_step. rewrite Hon.
  destruct (online (app s0) !! to) as [live|] eqn:Hlive.
  - wp_step. apply wp_try_send.
    + intros i' Hi. wp_step. apply H1; [|done]. destruct Hp as [? ? ? ? (k & Hk & HR)].
      split; try done; [by etrans|]. exists (k ++ [(live, Envelope env)]). simpl. rewrite Hk, app_assoc. split; [done|].
      apply Forall_app. split; [done|]. apply Forall_singleton. simpl. rewrite Henv. split; [done|by right].
    + intros i' Hi Hc. wp_step. apply wp_on_app. wp_step. wp_step. apply H2; [|by right].
      apply passes_app; [by eapply passes_later|]. apply (keeps_online _ _ _ _ _ to); [done|].
      intros m Hm. by rewrite lookup_delete_ne.
  - wp_step. specialize (H2 (online (app s)) i). cbv zeta in H2.
    replace (set_app (set_online (online (app s)) (app s)) s) with s in H2 by by destruct s as [[] ? ?].
    apply H2; [done|by left].
Qed.

Lemma queue_envelope_served T d cr to tok ty ct s i (live : bool) s3 i3 :
  let f := SendEnvelope cr to tok ty ct in
  let env := {| env_id := draw_uuid d; env_to := to; envelope_type := ty; ciphertext := ct |} in
  SessionInv s → frame_pre T d f s i → valid_recipient_id to = true → touches f s i to →
  passes ∅ (touches f s i) (names f) T (emits f s i) s i s3 i3 → queues (app s3) = queues (app s) →
  wp (queue_envelope cr to env live) (served T f s i) s3 i3.
Proof.
  intros f env HI Hpre Hto HP Hp3 Hq. unfold queue_envelope. do 2 wp_step. rewrite Hq.
  destruct (QueueStore.would_exceed_global (queues (app s)) (slen (ciphertext env))) eqn:Hcap; cbn beta iota.
  { destruct live; by apply reply_ends. }
  pose proof (sofar_inv T f s i HI ∅ s3 i3 Hp3) as HA.
  assert (∀ s4 i4 (b : bool), passes ∅ (touches f s i) (names f) T (emits f s i) s i s4 i4 →
    wp (_ ← on_app (mark_auth_dirty to);
        if b || live then reply (SendOk (env_id env) (negb live) cr)
        else reply (send_err cr "relay_error" "could not persist message for offline delivery"))
      (served T f s i) s4 i4) as Hmark.
  { intros s4 i4 b Hp4. wp_step. apply wp_on_app. unfold mark_auth_dirty. wp_step.
    assert (passes ∅ (touches f s i) (names f) T (emits f s i) s i
      (set_app (set_dirty_auth ({[to]} ∪ dirty_auth (app s4)) (app s4)) s4) i4) as Hp5.
    { apply passes_app; [done|]. apply keeps_mark_auth. }
    destruct (b || live); by apply reply_ends. }
  wp_step. apply wp_spawn.
  - intros i4 Hi4. unfold on_queues. apply wp_on_app. wp_step.
    eapply wp_conseq; [apply QueueSpec.enqueue_effect; [apply HA|]|].
    { rewrite Hq. by eapply send_enqueue_pre. }
    cbn beta. intros r q i5 (Hi5 & Hqi & Ho & _). cbn beta iota zeta. apply Hmark.
    eapply queue_pass; [exact Hp3| |exact HP|exact Hqi|exact Ho]. by etrans.
  - intros i4 Hi4 _. cbn beta iota zeta. apply (Hmark _ _ false). by eapply passes_later.
Qed.

Lemma send_served T d cr to tok ty ct s i :
  let f := SendEnvelope cr to tok ty ct in
  SessionInv s → frame_pre T d f s i →
  wp (on_send_envelope (draw_uuid d) cr to tok ty ct) (served T f s i) s i.
Proof.
  intros f HI Hpre. unfold on_send_envelope. pose proof (sofar_start T f s i) as Hp.
  wp_step; [by apply reply_ends|]. apply orb_false_iff in Heqb as [Hto%negb_false_iff _].
  wp_step; [by apply reply_ends|]. wp_step. apply wp_on_app. apply wp_authorize.
  { intros _. replace (set_app (app s) s) with s by by destruct s. cbn beta iota. by apply reply_ends. }
  intros a Ha Hacc. cbn beta iota. cbn [negb]. cbn beta iota.
  assert (touches f s i to) as HP by (split; [done|by exists a]).
  set (s1 := set_app _ s).
  assert (passes ∅ (touches f s i) (names f) T (emits f s i) s i s1 (clock_tick i)) as Hp1.
  { apply passes_app; [eapply passes_later; [done|apply tick_later]|]. by apply keeps_touched; [apply HI|..]. }
  wp_step. apply wp_on_app. apply wp_allow. intros e ok Hrate. cbn beta iota. set (s2 := set_app _ s1).
  assert (passes ∅ (touches f s i) (names f) T (emits f s i) s i s2 (clock_tick (clock_tick i))) as Hp2.
  { apply passes_app; [eapply passes_later; [done|apply tick_later]|]. eapply keeps_allowed; [by eapply sofar_inv in Hp1|done..]. }
  destruct ok; cbn [negb]; cbn beta iota; [|by apply reply_ends].
  cbv zeta. wp_step. apply (live_pass T f s i to); [exact Hp2|done|exact HP|done| |].
  - intros live i3 Hp3 _. cbn beta iota. by apply (queue_envelope_served T d cr to tok ty ct s i true).
  - intros o i3 s3 Hp3 _. cbn beta iota. by apply (queue_envelope_served T d cr to tok ty ct s i false).
Qed.

(** ** Hello *)

Lemma flush_backlog_pass T f s0 i0 rid s i (Q : E + Z → Session → io → Prop) :
  passes ∅ (touches f s0 i0) (names f) T (emits f s0 i0) s0 i0 s i → AppInv (app s) → no_char ":" rid → touches f s0 i0 rid → is_hello f = true →
  (∀ n s' i', passes ∅ (touches f s0 i0) (names f) T (emits f s0 i0) s0 i0 s' i' → Q (inr n) s' i') →
  wp (flush_backlog rid) Q s i.
Proof.
  intros Hp HA Hcol HP Hh H. unfold flush_backlog. do 3 wp_step. apply wp_spawn.
  - intros i1 Hi1. unfold on_queues. apply wp_on_app. wp_step.
    replace (set_app (set_queues (queues (app s)) (app s)) s) with s by by destruct s as [[] ? ?].
    apply (QueueRuns.flush_wp i1); [apply QueueFacts.inv_wf, HA|done|done| |].
    + intros i2 Hi2. cbn beta iota. replace (set_app (set_queues (queues (app s)) (app s)) s) with s by by destruct s as [[] ? ?].
      eapply deliver_pass.
      * eapply passes_later; [done|]. etrans; [done|by apply step_later].
      * apply Forall_fmap, Forall_true. intros [uid v]. simpl. split; [exact HP|by left].
      * intros n s' i' Hp' _ _. by eapply H.
    + intros _ i2 Hi2. cbn beta iota. replace (set_app (set_queues (queues (app s)) (app s)) s) with s by by destruct s as [[] ? ?].
      wp_step. apply H. eapply passes_later; [done|]. etrans; [done|by apply step_later].
  - intros i1 Hi1 _. cbn beta iota. wp_step. apply H. by eapply passes_later.
Qed.

Lemma hello_served T d rid atok dtok pmin pmax pver pow co s i :
  let f := Hello rid atok dtok pmin pmax pver pow co in
  SessionInv s → frame_pre T d f s i → wp (on_hello rid atok dtok pmin pmax pver pow co) (served T f s i) s i.
Proof.
  intros f HI Hpre. unfold on_hello. pose proof (sofar_start T f s i) as Hp.
  destruct (negotiate pmin pmax pver) as [selected|]; [|by apply reply_ends].
  wp_step; [by apply reply_ends|]. apply orb_false_iff in Heqb as [[Hrid%negb_false_iff _]%orb_false_iff _].
  pose proof (ai_count _ (si_app _ HI)) as [Hn Hu].
  wp_step. apply wp_on_app. apply wp_enter; [done|lia| | |].
  { intros i1 Hi1 _. replace (set_app (app s) s) with s by by destruct s. cbn beta iota. apply reply_ends; [by eapply passes_later|done]. }
  { intros i1 Hi1 _ _ _. replace (set_app (app s) s) with s by by destruct s. cbn beta iota. apply reply_ends; [by eapply passes_later|done]. }
  intros a n i1 Hi1 Hent. cbn beta iota.
  assert (touches f s i rid) as HP.
  { split; [done|]. unfold entered in Hent. unfold turned_away.
    destruct (mailbox_auth (app s) !! rid) as [a0|]; [destruct Hent as [<- _]; auto|]. destruct Hent as [-> _]. done. }
  assert (no_char ":" rid) as Hcol by by apply valid_recipient_no_colon.
  wp_step. apply wp_on_app. unfold mark_auth_dirty. do 3 wp_step. set (s1 := set_conn _ _).
  assert (passes ∅ (touches f s i) (names f) T (emits f s i) s i s1 i1) as Hp1.
  { apply (passes_registered _ _ _ _ _ rid _ _ (set_app _ _)); [|exact HP|done].
    apply (passes_marked _ _ _ _ rid _ _ (set_app _ s)). apply passes_app; [by eapply passes_later|].
    eapply keeps_entered; [apply HI|exact HP|by apply elem_of_singleton|done|exact Hent]. }
  wp_step. apply wp_now_ms. cbn beta iota. do 3 wp_step.
  apply (reply_pass ∅ (touches f s i) (names f) T (emits f s i) _ s i); [eapply passes_later; [done|apply tick_later]|done|].
  intros s2 i2 Hp2 Happ2 Hconn2. wp_step; [wp_step; split; [by eexists|done]|]. wp_step. wp_step.
  set (s3 := set_app _ s2).
  assert (passes ∅ (touches f s i) (names f) T (emits f s i) s i s3 i2) as Hp3.
  { apply passes_app; [done|]. apply (keeps_online _ _ _ _ _ rid); [exact HP|]. intros m Hm. by rewrite lookup_insert_ne. }
  wp_step. apply (flush_backlog_pass T f s i); [done|by eapply sofar_inv in Hp3|done|exact HP|done|].
  intros k s4 i4 Hp4. cbn beta iota. wp_step; [|wp_step; split; [by eexists|done]].
  do 3 wp_step. unfold send_await. apply wp_try_send; intros; wp_step; (split; [by eexists|]).
  - eapply passes_later; [|done]. apply passes_logged; [done|]. by apply Forall_singleton.
  - by eapply passes_later.
Qed.

(** ** Any frame *)

Lemma frame_served T d f s i :
  SessionInv s → frame_pre T d f s i → wp (on_frame d f) (served T f s i) s i.
Proof.
  intros HI Hpre. destruct f; simpl.
  - by apply (hello_served T d).
  - by apply (set_tokens_served T d).
  - by apply (issue_served T d).
  - by apply (send_served T d).
  - by apply (upload_bundle_served T d).
  - by apply (fetch_bundle_served T d).
  - by apply (upload_chunk_served T d).
  - by apply (fetch_chunk_served T d).
  - by apply (delete_served T d).
  - by apply (ack_served T d).
  - by apply (retire_served T d).
  - by apply (ping_served T d).
Qed.

Lemma served_inv T f s i r s' i' : SessionInv s → served T f s i r s' i' → SessionInv s'.
Proof.
  intros HI [_ Hp]. split; [by eapply sofar_inv in Hp|]. intros rid Hrid.
  destruct (ps_rid _ _ _ _ _ _ _ _ _ Hp) as [Heq|(rid' & Hr & _ & Hv)]; [|by simplify_eq].
  apply HI. congruence.
Qed.
End Frames.
