(* ===== verification/WsDemo.v ===== *)
(** A concrete connection, for the examples and the instances of the theorems. *)
From Stdlib Require Import ZArith Lia Ascii String.
From stdpp Require Import base gmap strings list.
From S2P Require Import Prelude Redb RustStd Config Util Protocol Mailbox Signal State StateFacts StateOps StateProps.
From S2P Require Import Ws WsFacts WsRuns WsFrames.
From S2P Require QueueStore.
From S2P Require QueueFacts.
From S2P Require QueueProps.
From S2P Require FileStore.
From S2P Require FileProps.

(** Base64 replaced by the bytes themselves. *)
#[refine] Definition demo_base64 : Base64 := {|
  b64_encode := string_of_list_byte;
  b64_decode s := Some (list_byte_of_string s);
|}.
Proof.
  - intros b. by rewrite list_byte_of_string_of_list_byte.
  - intros s b [= <-]. unfold blen, slen, list_byte_of_string. rewrite length_map. by induction s; simpl; lia.
Defined.

Section Demo.
#[local] Existing Instances gmap_redb unary_uuid demo_signal demo_hashing demo_base64 QueueProps.demo_serde FileProps.meta_serde
  auth_serde bundle_serde.

(** A second mailbox, free in [demo_state]. *)
Definition other_rid : string := "mbx_bbbbbbbbbbbbbbbbbbbbbbbbbbbbbbbb".

Definition demo_hello (rid : string) : ClientFrame :=
  Hello rid "auth_aaaaaaaaaaa" "send_aaaaaaaaaaa" None None None (Some demo_nonce) false.

Definition demo_send : ClientFrame := SendEnvelope (Some "ref"%string) demo_rid "send_aaaaaaaaaaa" "msg" "c1".

Definition demo_upload : ClientFrame := UploadBundle "req" "bundle_bbbbbbbbb" "c2" 5000 (Some demo_nonce).

Definition demo_chunk : ClientFrame := UploadFileChunk "req" "transfer_aaaaaaa" 0 2 10 "abc" (Some demo_nonce).

(** The texts of the frames above; any other text is no frame. *)
Definition demo_texts : list (string * ClientFrame) :=
  [("hello"%string, demo_hello demo_rid); ("other"%string, demo_hello other_rid); ("ping"%string, Ping);
   ("send"%string, demo_send); ("ack"%string, Ack [7%nat]); ("retire"%string, RetireMailbox);
   ("claim"%string, Hello demo_rid "auth_ccccccccccc" "send_aaaaaaaaaaa" None None None (Some demo_nonce) false);
   ("fetch"%string, FetchBundle "req" "bundle_aaaaaaaaa");
   ("upload"%string, UploadBundle "req" "bundle_aaaaaaaaa" "c2" 5000 (Some demo_nonce))].

Fixpoint find_frame (text : string) (l : list (string * ClientFrame)) : option ClientFrame :=
  match l with
  | [] => None
  | (t, f) :: r => if decide (text = t) then Some f else find_frame text r
  end.

#[refine] Definition demo_json : Json := {|
  parse_frame text := match find_frame text demo_texts with Some f => inr f | None => inl "bad"%string end;
|}.
Proof. intros text f. unfold find_frame, demo_texts. repeat case_decide; intros [= <-]; subst; first [done | by vm_compute]. Defined.

Definition demo_draws : Draws := {| draw_uuid := 7%nat; draw_rng := inr () |}.

(** [demo_rid]'s own connection, on channel 1. *)
Definition demo_session : Session :=
  {| app := demo_state; conn := {| tx := 1%nat; recipient_id := Some demo_rid; window_start_ms := 0; frame_count := 0 |};
     sent := [] |}.

(** A connection before its Hello, on channel 2. *)
Definition stranger : Session :=
  {| app := demo_state; conn := {| tx := 2%nat; recipient_id := None; window_start_ms := 0; frame_count := 0 |};
     sent := [] |}.

Definition at_ten : io := Io [] [] [10; 10; 10; 10] [].

Lemma demo_session_inv : SessionInv demo_session.
Proof. split; [apply AppInv_demo|]. by intros rid [= <-]. Qed.

Lemma stranger_inv : SessionInv stranger.
Proof. split; [apply AppInv_demo|done]. Qed.

Lemma demo_frame_pre f s :
  app s = demo_state → frame_fits MAX_FRAME_BYTES f → frame_pre 100 demo_draws f s at_ten.
Proof.
  intros Ha Hf. split; rewrite ?Ha; try done.
  - constructor.
  - unfold clock_below. simpl. repeat constructor; lia.
Qed.
End Demo.
