(* ===== verification/PersistenceProps.v ===== *)
(** What [persistence.rs] guarantees: the relay's private keys are on disk only
    encrypted, survive restarts, and no failure leaves half a state file. *)
From Stdlib Require Import ZArith Lia Ascii String.
From Stdlib Require Import Strings.Byte.
From stdpp Require Import base gmap strings list.
From S2P Require Import Prelude Redb RustStd Config Util Host Protocol Mailbox Signal Persistence PersistenceFacts.
From S2P Require QueueProps.
From S2P Require StateProps.
From S2P Require WsDemo.

Section Props.
Context {UL : UuidLib} {LS : LibSignal} {SK : SigningKeys} {B6 : Base64}.
Context {HA : Hashing} {HX : HexDecode} {CI : Cipher}.
Context {SC : Serde DiskCrypto} {SD : Serde DiskState}.
Implicit Types (h : Host) (i j : io) (dd : string) (u : Uuid) (c : DiskCrypto).


(** The secret that encrypts the keys is AXENO_KEY if set and not empty, else the trimmed
    contents of the file AXENO_KEY_FILE names, which must not be empty, else the trimmed
    relay-key file, and only when that cannot be read or is empty a fresh 256-bit one in hex,
    which is written there; the first two change no file. *)
Theorem secret_is_resolved_in_order dd h i :
  wp (relay_encryption_key dd) (λ r h1 _,
    match nonempty_var h "AXENO_KEY", nonempty_var h "AXENO_KEY_FILE" with
    | Some k, _ => r = inr k ∧ h1 = h
    | None, Some path =>
        h1 = h ∧ match r with
                 | inr k => ∃ t, readable h path = Some t ∧ k = trim t ∧ k ≠ EmptyString
                 | inl _ => ¬ quiet i ∨ secret_in h path = None
                 end
    | None, None =>
        (∀ p, p ≠ key_path dd → fs h1 !! p = fs h !! p)
        ∧ match r with
          | inr k => (secret_in h (key_path dd) = Some k ∧ h1 = h)
              ∨ ((secret_in h (key_path dd) = None ∨ ¬ quiet i) ∧ String.length k = 64%nat
                 ∧ secret_in h1 (key_path dd) = Some k)
          | inl _ => ¬ quiet i
          end
    end) h i.
Proof.
  destruct (nonempty_var h "AXENO_KEY") as [k|] eqn:H1.
  { unfold relay_encryption_key. do 2 wp_step. rewrite H1. by wp_steps. }
  destruct (nonempty_var h "AXENO_KEY_FILE") as [path|] eqn:H2.
  - unfold relay_encryption_key. do 2 wp_step. rewrite H1, H2. wp_step.
    apply (wp_read_to_string i); [done|..]; cbn beta iota zeta; unfold secret_in.
    + intros t i' Hi' Ht. rewrite Ht. case_bool_decide as Hb; wp_steps; (split; [done|]).
      * right. simpl. by rewrite bool_decide_eq_true_2.
      * by exists t.
    + intros i' Hi' [?|Hr]; (split; [done|]); [by left|right]. by rewrite Hr.
  - eapply wp_conseq; [by apply (relay_encryption_key_wp i)|]. cbn beta.
    intros [e|k] h1 i1 (_ & He & Hf & Hr); (split; [done|]).
    + destruct Hr as [?|(_ & Hnl & _)]; [done|]. by destruct Hnl.
    + rewrite <- key_of_local by done. destruct Hr as [?|(_ & Hno & Hkey & Hlen & _)]; [by left|right].
      split_and!; [done|done|]. rewrite <- key_of_local; [done|].
      split; unfold nonempty_var, var; by rewrite He.
Qed.

(** When persisting the keys fails, every file but its temporary one and the generated key
    is as it was, the old state file in particular; when it succeeds, only the state file is
    replaced, by one that decrypts to the keys under the current secret. *)
Theorem failed_save_changes_nothing dd u c h i :
  key_elsewhere h dd →
  wp (persist_crypto dd u c) (λ r h1 _, environ h1 = environ h
    ∧ match r with
      | inl _ => ∀ p, p ≠ tmp_path dd u → p ≠ key_path dd → fs h1 !! p = fs h !! p
      | inr _ => (∀ p, p ≠ disk_state_path dd → p ≠ key_path dd → fs h1 !! p = fs h !! p)
          ∧ ∃ blob k, fs h1 !! disk_state_path dd = Some {| content := to_vec (keys_file blob); mode := private_mode |}
              ∧ decrypt_disk_crypto blob k = Some c ∧ key_of h1 dd = Some k
      end) h i.
Proof.
  intros Hk. eapply wp_conseq; [by apply (persist_wp i)|]. cbn beta.
  intros [e|x] h1 i1 (_ & He & Hr); (split; [done|]); [apply Hr|].
  destruct Hr as (Hf & blob & k & Hs & Ho & Hkey & _). split; [done|]. by exists blob, k.
Qed.
End Props.

(** ** A concrete machine *)

(** [hex] itself. *)
Definition hex_char (n : Z) : ascii := ascii_of_N (Z.to_N (if n <? 10 then 48 + n else 87 + n)).

Definition hex_value (c : ascii) : option Z :=
  let v := Z.of_N (N_of_ascii c) in
  if ascii_between "0" "9" c then Some (v - 48) else if ascii_between "a" "f" c then Some (v - 87) else None.

Fixpoint to_hex (b : bytes) : string :=
  match b with
  | [] => EmptyString
  | x :: r => String (hex_char (byte_val x / 16)) (String (hex_char (byte_val x mod 16)) (to_hex r))
  end.

Fixpoint of_hex (s : string) : option bytes :=
  match s with
  | EmptyString => Some []
  | String a (String b r) =>
      x ← hex_value a; y ← hex_value b; z ← Byte.of_N (Z.to_N (16 * x + y)); l ← of_hex r; Some (z :: l)
  | _ => None
  end.

#[refine] Definition hex_hashing : Hashing := {|
  sha256 b := take 32 (rev b ++ replicate 32 Byte.x00);
  hex_encode := to_hex;
|}.
Proof.
  - intros b. rewrite length_take, length_app, length_replicate. lia.
  - induction b as [|x r IH]; simpl; [done|]. rewrite IH. lia.
Defined.

#[refine] Definition hex_codec : @HexDecode hex_hashing := {| hex_decode := of_hex |}.
Proof.
  - assert (∀ x r, of_hex (to_hex (x :: r)) = l ← of_hex (to_hex r); Some (x :: l)) as H.
    { intros x r. destruct x; reflexivity. }
    intros b. change (of_hex (to_hex b) = Some b). induction b as [|x r IH]; [done|]. by rewrite H, IH.
  - intros b. change (str_forallb hex_digit (to_hex b) = true). induction b as [|x r IH]; [done|].
    simpl. rewrite IH, !andb_true_r. destruct x; reflexivity.
Defined.

(** Key pairs made of the generator's seed; a seal is the key, the nonce and the
    text backwards. *)
Section Keys.
#[local] Existing Instance StateProps.demo_signal.

#[refine] Definition demo_keys : SigningKeys := {|
  rng_from_seed _ := ();
  keypair_generate _ := (([Byte.x01], ()), ());
  keypair_from pub priv := if bool_decide (priv = [Byte.x02]) then Some (pub, ()) else None;
  public_key_serialize b := b;
  private_key_serialize _ := [Byte.x02];
  server_certificate_new _ _ _ _ := Some ();
|}.
Proof. by intros pub []. Defined.
End Keys.

#[refine] Definition demo_cipher : Cipher := {|
  argon2_hash secret salt := if (8 <=? blen salt) then Some (secret ++ salt) else None;
  chacha_encrypt key n plain := Some (key ++ n ++ rev plain);
  chacha_decrypt key n sealed :=
    if bool_decide (take (length (key ++ n)) sealed = key ++ n) then Some (rev (drop (length (key ++ n)) sealed)) else None;
|}.
Proof.
  intros key n plain sealed [= <-]. rewrite app_assoc, take_app_length, drop_app_length.
  by rewrite bool_decide_eq_true_2, rev_involutive.
Defined.

#[global] Instance byte_countable : Countable Byte.byte.
Proof. refine (inj_countable Byte.to_N Byte.of_N _). apply Byte.of_to_N. Defined.

#[global] Instance DiskCrypto_eq_dec : EqDecision DiskCrypto.
Proof. solve_decision. Defined.

#[global] Instance DiskCrypto_countable : Countable DiskCrypto.
Proof.
  refine (inj_countable' (λ c, (trust_root_public c, trust_root_private c, server_signing_public c,
                                server_signing_private_bytes c))
    (λ '(a, b, c, d), {| trust_root_public := a; trust_root_private := b; server_signing_public := c;
                         server_signing_private_bytes := d |}) _).
  by intros [].
Defined.

#[global] Instance Blob_eq_dec : EqDecision EncryptedCryptoBlob.
Proof. solve_decision. Defined.

#[global] Instance Blob_countable : Countable EncryptedCryptoBlob.
Proof.
  refine (inj_countable' (λ b, (salt b, nonce b, sealed b)) (λ '(a, b, c), {| salt := a; nonce := b; sealed := c |}) _).
  by intros [].
Defined.

Section Demo.
#[local] Existing Instances unary_uuid StateProps.demo_signal demo_keys WsDemo.demo_base64 hex_hashing hex_codec demo_cipher.

#[global] Instance Envelope_eq_dec : EqDecision StoredEnvelope.
Proof. solve_decision. Defined.

#[global] Instance Envelope_countable : Countable StoredEnvelope.
Proof.
  refine (inj_countable' (λ e, (env_id e, env_to e, envelope_type e, ciphertext e))
    (λ '(a, b, c, d), {| env_id := a; env_to := b; envelope_type := c; ciphertext := d |}) _).
  by intros [].
Defined.

#[global] Instance DiskState_eq_dec : EqDecision DiskState.
Proof. solve_decision. Defined.

#[global] Instance DiskState_countable : Countable DiskState.
Proof.
  refine (inj_countable' (λ d, (crypto d, encrypted_crypto d, mailbox_auth d, queues d, bundles d))
    (λ '(a, b, c, d, e), {| crypto := a; encrypted_crypto := b; mailbox_auth := c; queues := d; bundles := e |}) _).
  by intros [].
Defined.

Definition crypto_serde : Serde DiskCrypto := serde_countable DiskCrypto.

Definition state_serde : Serde DiskState := serde_countable DiskState.

#[local] Existing Instances crypto_serde state_serde.

(** A fresh machine, where nothing is configured. *)
Definition bare_host : Host := {| environ := ∅; fs := ∅; random := []; torn := [] |}.

Definition demo_crypto_keys : DiskCrypto :=
  {| trust_root_public := [Byte.x01]; trust_root_private := [Byte.x02];
     server_signing_public := [Byte.x01]; server_signing_private_bytes := [Byte.x02] |}.

Lemma bare_elsewhere : key_elsewhere bare_host "data".
Proof. done. Qed.

Example demo_persist_runs :
  let '(r, h, _) := persist_crypto "data" 0%nat demo_crypto_keys bare_host QueueProps.calm in
  r = inr () ∧ (content <$> fs h !! "data/relay-key") = Some (as_bytes (to_hex (replicate 32 Byte.x00))).
Proof. vm_compute. split; reflexivity. Qed.
(** The machine after the keys were saved once. *)
Definition saved_host : Host := (persist_crypto "data" 0%nat demo_crypto_keys bare_host QueueProps.calm).1.2.


(** The rename fails: the state file is not there, as before. *)
Lemma failed_save_changes_nothing_witness :
  let script := Io [false; false; false; false; false; false; false; false; false; false; false; true] [] [] [] in
  (persist_crypto "data" 0%nat demo_crypto_keys bare_host script).1.1 = inl Failed
  ∧ wp (persist_crypto "data" 0%nat demo_crypto_keys) (λ _ h1 _, environ h1 = ∅) bare_host script.
Proof.
  cbv zeta. split; [vm_compute; reflexivity|].
  eapply wp_conseq; [exact (failed_save_changes_nothing "data" 0%nat demo_crypto_keys bare_host _ bare_elsewhere)|].
  by intros r h1 i1 [-> _].
Defined.

(** ** Observed behaviour *)

(** One failed read of the key file while the state file is loaded replaces the
    key: the keys it encrypts are lost for good. *)
Example unreadable_key_is_replaced :
  let other := set_random [replicate 32 Byte.x11] saved_host in
  let '(r, h, _) := load_disk_state "data" other (Io [false; false; true] [] [] []) in
  r = inl Failed ∧ fs h !! "data/relay-key" ≠ fs saved_host !! "data/relay-key"
  ∧ (load_disk_state "data" h QueueProps.calm).1.1 = inl Failed
  ∧ (load_disk_state "data" other QueueProps.calm).1.1 ≠ inl Failed.
Proof. vm_compute. split_and!; congruence. Qed.

(** A write of a new key that fails after one byte leaves that byte as the key
    of the next start. *)
Example torn_key_is_used :
  let start := {| environ := ∅; fs := ∅; random := []; torn := [1%nat] |} in
  let '(r, h, _) := relay_encryption_key "data" start (Io [false; false; false; true] [] [] []) in
  r = inl Failed ∧ (relay_encryption_key "data" h QueueProps.calm).1.1 = inr "0"%string.
Proof. vm_compute. split; reflexivity. Qed.

(** A failed look at the state file counts as no state file: the relay starts
    with new keys and overwrites the old ones. *)
Example unseen_state_is_forgotten :
  (load_disk_state "data" saved_host (Io [true] [] [] [])).1.1 = inr default_state
  ∧ (load_disk_state "data" saved_host QueueProps.calm).1.1 ≠ inr default_state.
Proof. vm_compute. split; congruence. Qed.
End Demo.
