(* ===== verification/Main.v ===== *)
(** [main.rs]: how the relay starts, from its files and tables to its shared
    state.

    [Machine] is what outlives a process: the host, and the stores by their
    tables (what else a store holds in memory is rebuilt when it is opened).
    [async_main] is modelled up to the point where the state is built; binding
    the listener, the router and the spawned tasks are tokio's and axum's.  The
    body of each background task is the method of the shared state or the store
    it calls. *)
From Stdlib Require Import ZArith Lia Ascii String.
From stdpp Require Import base gmap strings list sorting.
From S2P Require Import Prelude Redb RustStd Config Util Host Protocol QueueStore QueueFacts QueueRuns QueueSpec.
From S2P Require Import Mailbox Signal State.
From S2P Require FileStore.
From S2P Require MetaStore.
From S2P Require Persistence.

(** How a start fails: an [Err] of [main], or a panic. *)
Inductive BootError := Err | Panic.

Section Main.
Context {RD : Redb} {UL : UuidLib} {LS : LibSignal} {SK : Persistence.SigningKeys} {B6 : Base64}.
Context {HA : Hashing} {HX : Persistence.HexDecode} {CI : Persistence.Cipher}.
Context {SV : Serde QueueStore.StoredValue} {SM : Serde FileStore.FileMeta}.
Context {SA : Serde MailboxAuth} {SB : Serde HostedBundle}.
Context {SC : Serde Persistence.DiskCrypto} {SD : Serde Persistence.DiskState}.

Record Machine := {
  host : Host;
  queue_db : QueueStore;
  meta_db : MetaStore;
  file_db : FileStore;
}.

Definition set_host (h : Host) (m : Machine) : Machine :=
  {| host := h; queue_db := queue_db m; meta_db := meta_db m; file_db := file_db m |}.

Definition set_queue_db (q : QueueStore) (m : Machine) : Machine :=
  {| host := host m; queue_db := q; meta_db := meta_db m; file_db := file_db m |}.

Definition set_meta_db (x : MetaStore) (m : Machine) : Machine :=
  {| host := host m; queue_db := queue_db m; meta_db := x; file_db := file_db m |}.

Definition set_file_db (f : FileStore) (m : Machine) : Machine :=
  {| host := host m; queue_db := queue_db m; meta_db := meta_db m; file_db := f |}.

(** [m?] in [async_main]. *)
Definition question {S A} (m : M S anyhow A) : M S BootError A :=
  r ← attempt m;
  match r with inr a => mret a | inl _ => throw Err end.

Definition on_host {A} (m : M Host anyhow A) : M Machine BootError A := question (zoom host set_host m).

Definition on_meta {A} (m : M MetaStore anyhow A) : M Machine BootError A := question (zoom meta_db set_meta_db m).

(** A constructor of a store. *)
Definition opening {A} (m : M () anyhow A) : M Machine BootError A := question (zoom (λ _, tt) (λ _ s, s) m).

Definition open_stores : M Machine BootError FileConfig :=
  _ ← question (io_call Failed);
  m ← get;
  queues ← opening (QueueStore.new (QueueStore.db (queue_db m)));
  _ ← modify (set_queue_db queues);
  meta ← opening (MetaStore.new (MetaStore.auth_table (meta_db m)) (MetaStore.bundle_table (meta_db m)));
  _ ← modify (set_meta_db meta);
  let file_config := from_env (var (host m)) in
  files ← opening (FileStore.new Failed (FileStore.file_meta (file_db m)) (FileStore.file_chunks (file_db m)) file_config);
  _ ← modify (set_file_db files);
  mret file_config.

Definition legacy_queued (disk : Persistence.DiskState) : Z :=
  zsum ((λ kv, Z.of_nat (length kv.2)) <$> Persistence.queues disk).

(** [let _ = queues.enqueue(rid, env)]: its error is dropped. *)
Definition migrate_queues (disk : Persistence.DiskState) : M Machine BootError () :=
  if 0 <? legacy_queued disk then
    foldM (λ _ '(rid, envs),
      foldM (λ _ env, _ ← attempt (zoom queue_db set_queue_db (QueueStore.enqueue rid env)); mret tt) tt envs)
      tt (Persistence.queues disk)
  else mret tt.

Definition migrate_auth (disk : Persistence.DiskState) : M Machine BootError () :=
  empty ← on_meta MetaStore.auth_is_empty;
  if (empty : bool) && negb (bool_decide (Persistence.mailbox_auth disk = []))
  then on_meta (MetaStore.flush_auth ((λ '(k, v), (k, Some v)) <$> Persistence.mailbox_auth disk))
  else mret tt.

Definition migrate_bundles (disk : Persistence.DiskState) : M Machine BootError () :=
  empty ← on_meta MetaStore.bundles_is_empty;
  if (empty : bool) && negb (match Persistence.bundles disk with [] => true | _ => false end)
  then on_meta (MetaStore.flush_bundles ((λ b, (bundle_key b, Some b)) <$> Persistence.bundles disk))
  else mret tt.

Definition data_dir_of (h : Host) : string := default "axeno-relay-data"%string (var h "AXENO_DATA_DIR").

(** The start, up to the shared state.  [u] is the identifier in the name of the
    temporary file of the save. *)
Definition boot (u : Uuid) : M Machine BootError AppState :=
  m ← get;
  let data_dir := data_dir_of (host m) in
  (* fs::create_dir_all *)
  _ ← question (io_call Failed);
  disk ← on_host (Persistence.load_disk_state data_dir);
  '(crypto, disk) ← on_host (Persistence.init_server_crypto disk);
  disk ← on_host (Persistence.prune_disk_state disk);
  file_config ← open_stores;
  _ ← migrate_queues disk;
  _ ← migrate_auth disk;
  _ ← migrate_bundles disk;
  disk_crypto ← match Persistence.crypto disk with Some c => mret c | None => throw Panic end;
  _ ← on_host (Persistence.persist_crypto data_dir u disk_crypto);
  m ← get;
  opening (build (meta_db m) (queue_db m) (file_db m) file_config crypto).

(** What a process leaves for the next one. *)
Definition machine_of (h : Host) (s : AppState) : Machine :=
  {| host := h; queue_db := queues s; meta_db := meta_store s; file_db := files s |}.
End Main.

(** The migration of the queues of the old state file, run symbolically: a loop
    of enqueues whose errors are dropped. *)

Section Migration.
Context {RD : Redb} {UL : UuidLib} {SV : Serde StoredValue}.
Implicit Types (mb : string) (st : QueueStore) (env : StoredEnvelope) (l : list (string * StoredEnvelope)).

(** One enqueue, on the abstract queue. *)
Lemma enqueue_abs_wp st mb env i :
  Inv st → enqueue_pre st mb env →
  wp (enqueue mb env) (λ r st' i', io_later i i' ∧ Inv st' ∧ next_seq st' = next_seq st + 1
    ∧ total_bytes st' ≤ total_bytes st + slen (ciphertext env)
    ∧ (∀ k, is_Some (entries st' !! k) → is_Some (entries st !! k) ∨ k = key_for mb (env_id env))
    ∧ match r with
      | inr _ => abs st' mb = keep_newest (slen (ciphertext env)) (abs st mb) ++ [message_of env (next_now i)]
                 ∧ ∀ m, m ≠ mb → abs st' m = abs st m
      | inl _ => ¬ quiet i ∧ ∀ m, abs st' m = abs st m
      end) st i.
Proof.
  intros HI Hpre. pose proof (inv_next _ HI) as Hn. pose proof (pre_seq _ _ _ Hpre) as Hs.
  pose proof (slen_nonneg (ciphertext env)) as Hl.
  eapply wp_conseq; [by apply enqueue_wp|]. cbn beta. intros r st' i' [Hi Hr].
  assert (io_later i i') as Hlater by (etrans; [apply tick_later|by apply step_later]).
  split; [done|]. destruct r as [e|n].
  - destruct Hr as [Hq ->]. split_and!; try done; [|simpl; lia|by left].
    split; try apply HI; cbn [set_next_seq next_seq]; [|lia]. intros k v Hk%(inv_seq _ HI). lia.
  - destruct Hr as [_ ->]. pose proof (Inv_enqueued st mb env (next_now i) HI Hpre) as HI'. split_and!; [done|..].
    + simpl. apply wrap64_small. unfold is_u64. lia.
    + destruct (inv_total _ HI') as [-> _]. rewrite total_enqueued by done. destruct (inv_total _ HI) as [-> _].
      pose proof (sum_len_nonneg (evicted (slen (ciphertext env)) (queue_of mb (entries st)))). lia.
    + intros k. rewrite entries_enqueued. destruct (decide (k = key_for mb (env_id env))) as [->|Hk]; [by right|left].
      rewrite lookup_insert_ne in H by done. destruct H as [v [H _]%remove_keys_Some]. by exists v.
    + unfold abs. rewrite queue_enqueued, fmap_app by done. by rewrite <- keep_newest_view.
    + apply queue_eq_all. intros. by apply queue_enqueued_other.
Qed.

(** A message without the time it was queued. *)
Definition body (m : Message) : Uuid * string * string := (msg_id m, msg_type m, msg_ct m).

Definition env_body (env : StoredEnvelope) : Uuid * string * string := (env_id env, envelope_type env, ciphertext env).

Definition body_len (b : Uuid * string * string) : Z := slen b.2.

Definition for_mailbox mb l : list StoredEnvelope := snd <$> filter (λ x, x.1 = mb) l.

(** The bodies fit in a mailbox together. *)
Definition together (bs : list (Uuid * string * string)) : Prop :=
  Z.of_nat (length bs) ≤ MAX_QUEUE_PER_RECIPIENT ∧ zsum (body_len <$> bs) ≤ PER_MAILBOX_QUEUE_BYTES.

Lemma msg_bytes_body q : msg_bytes q = zsum (body_len <$> (body <$> q)).
Proof. unfold msg_bytes. by rewrite <- list_fmap_compose. Qed.

Lemma keep_all q env : together (body <$> q ++ [message_of env 0]) → keep_newest (slen (ciphertext env)) q = q.
Proof.
  intros [Hl Hb]. rewrite length_fmap, length_app in Hl. rewrite !fmap_app, zsum_app, <- msg_bytes_body in Hb.
  change (zsum (body_len <$> (body <$> [message_of env 0]))) with (slen (ciphertext env) + 0) in Hb. simpl in Hl.
  destruct q as [|m q]; [done|]. unfold keep_newest. rewrite decide_True; [done|]. split; simpl in *; lia.
Qed.

Lemma together_prefix bs cs : together (bs ++ cs) → together bs.
Proof.
  intros [Hl Hb]. rewrite length_app in Hl. rewrite fmap_app, zsum_app in Hb.
  assert (0 ≤ zsum (body_len <$> cs)).
  { apply zsum_nonneg, Forall_fmap, Forall_true. intros b. apply slen_nonneg. }
  split; lia.
Qed.

(** What the loop needs of the envelopes [l]: distinct keys, not in the store,
    and sizes that keep the counters in range. *)
Record queues_pre st l : Prop := {
  qp_names : Forall (λ x, no_char ":" x.1 ∧ slen (ciphertext x.2) ≤ PER_MAILBOX_QUEUE_BYTES) l;
  qp_keys : NoDup ((λ x, key_for x.1 (env_id x.2)) <$> l);
  qp_fresh : Forall (λ x, entries st !! key_for x.1 (env_id x.2) = None) l;
  qp_bytes : total_bytes st + zsum ((λ x, slen (ciphertext x.2)) <$> l) ≤ u64_max;
  qp_seq : next_seq st + Z.of_nat (length l) ≤ u64_max;
}.

(** After [done], on a script that was [i0]. *)
Record migrated (i0 : io) st0 (done : list (string * StoredEnvelope)) st i : Prop := {
  mg_later : io_later i0 i;
  mg_inv : Inv st;
  mg_seq : next_seq st = next_seq st0 + Z.of_nat (length done);
  mg_bytes : total_bytes st ≤ total_bytes st0 + zsum ((λ x, slen (ciphertext x.2)) <$> done);
  mg_keys : ∀ k, is_Some (entries st !! k) → is_Some (entries st0 !! k) ∨ k ∈ (λ x, key_for x.1 (env_id x.2)) <$> done;
  mg_abs : quiet i0 → ∀ mb, together ((body <$> abs st0 mb) ++ (env_body <$> for_mailbox mb done)) →
    body <$> abs st mb = (body <$> abs st0 mb) ++ (env_body <$> for_mailbox mb done);
  mg_rest : ∀ mb, for_mailbox mb done = [] → abs st mb = abs st0 mb;
}.

Lemma migrated_start i0 st : Inv st → migrated i0 st [] st i0.
Proof.
  intros HI. split; try done.
  - simpl. lia.
  - simpl. lia.
  - by left.
  - intros _ mb _. simpl. by rewrite app_nil_r.
Qed.

Lemma for_mailbox_snoc mb l x :
  for_mailbox mb (l ++ [x]) = for_mailbox mb l ++ if decide (x.1 = mb) then [x.2] else [].
Proof. unfold for_mailbox. rewrite filter_app, fmap_app, filter_cons. by case_decide. Qed.

Lemma migrate_one_wp i0 st0 l done mb env rest st i :
  Inv st0 → queues_pre st0 l → l = done ++ (mb, env) :: rest → migrated i0 st0 done st i →
  wp (enqueue mb env) (λ _ st' i', migrated i0 st0 (done ++ [(mb, env)]) st' i') st i.
Proof.
  intros HI0 [Hnames Hkeys Hfresh Hbytes Hseq] -> [Hlater HI Hs Hb Hk Habs Hrest0].
  rewrite !Forall_app, !Forall_cons in Hnames, Hfresh. rewrite !fmap_app, fmap_cons in Hkeys.
  rewrite !fmap_app, fmap_cons, zsum_app, zsum_cons in Hbytes. rewrite length_app in Hseq. simpl in *.
  destruct Hnames as (_ & [Hmb Hlen] & _). destruct Hfresh as (_ & Hfr & _).
  assert (0 ≤ zsum ((λ x, slen (ciphertext x.2)) <$> rest)) as Hrest.
  { apply zsum_nonneg, Forall_fmap, Forall_true. intros x. apply slen_nonneg. }
  assert (enqueue_pre st mb env) as Hpre.
  { split; [done| |done|lia|lia]. destruct (entries st !! key_for mb (env_id env)) eqn:E; [exfalso|done].
    destruct (Hk (key_for mb (env_id env)) ltac:(by eexists)) as [[v Hv]|Hin]; [congruence|].
    apply NoDup_app in Hkeys as (_ & Hdis & _). apply (Hdis _ Hin). left. }
  eapply wp_conseq; [by apply enqueue_abs_wp|]. cbn beta.
  intros r st' i' (Hi & HI' & Hs' & Hb' & Hk' & Hr). split; [by etrans|done|..].
  - rewrite length_app. simpl. lia.
  - rewrite fmap_app, zsum_app. simpl. lia.
  - intros k Hin. rewrite fmap_app, elem_of_app. destruct (Hk' _ Hin) as [Ho| ->]; [|by right; right; left].
    destruct (Hk _ Ho); [by left|by right; left].
  - intros Hq m Ht. rewrite for_mailbox_snoc in Ht |- *. cbn [fst snd] in *.
    assert (quiet i) as Hqi by (by eapply quiet_later).
    destruct r as [e|n]; [by destruct Hr as [? _]|]. destruct Hr as [Hmine Hother].
    case_decide as Hm; [subst m|].
    + rewrite fmap_app, app_assoc in Ht |- *. pose proof (Habs Hq mb (together_prefix _ _ Ht)) as Hold.
      rewrite Hmine, keep_all; [by rewrite fmap_app, Hold|]. by rewrite fmap_app, Hold.
    + rewrite app_nil_r in Ht |- *. rewrite Hother by done. by apply Habs.
  - intros m. rewrite for_mailbox_snoc. cbn [fst snd]. case_decide as Hm; [by intros [_ ?]%app_eq_nil|].
    rewrite app_nil_r. intros Ht. rewrite <- Hrest0 by done. destruct r as [e|n]; apply Hr. done.
Qed.

(** The envelopes of the file, in the order of the loops. *)
Definition tagged mb (envs : list StoredEnvelope) : list (string * StoredEnvelope) := (λ e, (mb, e)) <$> envs.

Definition flat (kvs : list (string * list StoredEnvelope)) : list (string * StoredEnvelope) :=
  concat ((λ kv, tagged kv.1 kv.2) <$> kvs).

Lemma for_mailbox_tagged mb k envs : for_mailbox mb (tagged k envs) = if decide (k = mb) then envs else [].
Proof.
  unfold for_mailbox, tagged. induction envs as [|e envs IH]; [by case_decide|].
  rewrite fmap_cons, filter_cons. cbn [fst]. case_decide; [|done]. rewrite fmap_cons. cbn [snd]. by rewrite IH.
Qed.

Lemma flat_app a b : flat (a ++ b) = flat a ++ flat b.
Proof. unfold flat. by rewrite fmap_app, concat_app. Qed.

Lemma flat_cons mb envs kvs : flat ((mb, envs) :: kvs) = tagged mb envs ++ flat kvs.
Proof. done. Qed.

Lemma tagged_app mb a b : tagged mb (a ++ b) = tagged mb a ++ tagged mb b.
Proof. apply fmap_app. Qed.
End Migration.
