(* ===== verification/MainFacts.v ===== *)
(** The start of the relay, run symbolically: what each stage of [boot] does to
    the machine.

    [loads] is the state the state file stands for, [legacy_auth] and
    [legacy_bundles] what the migrations make of it; [machine_ok] and [legacy_ok]
    are what a start needs of the stores and of the legacy data. *)
From Stdlib Require Import ZArith Lia Ascii String.
From stdpp Require Import base gmap strings list.
From S2P Require Import Prelude Redb RustStd Config Util Host Protocol Mailbox Signal PersistenceFacts State.
From S2P Require Import StateFacts Main.
From S2P Require QueueStore.
From S2P Require QueueFacts.
From S2P Require QueueRemovals.
From S2P Require QueueSpec.
From S2P Require FileStore.
From S2P Require FileFacts.
From S2P Require FileRemovals.
From S2P Require MetaStore.
From S2P Require Persistence.

Section Facts.
Context {RD : Redb} {UL : UuidLib} {LS : LibSignal} {SK : Persistence.SigningKeys} {B6 : Base64}.
Context {HA : Hashing} {HX : Persistence.HexDecode} {CI : Persistence.Cipher}.
Context {SV : Serde QueueStore.StoredValue} {SM : Serde FileStore.FileMeta}.
Context {SA : Serde MailboxAuth} {SB : Serde HostedBundle}.
Context {SC : Serde Persistence.DiskCrypto} {SD : Serde Persistence.DiskState}.
Implicit Types (h : Host) (m : Machine) (dd : string) (u : Uuid) (d : Persistence.DiskState).

(** ** Lifting *)

(** The outcome of a call whose error is [main]'s. *)
Definition asked {A} (r : anyhow + A) : BootError + A := match r with inr a => inr a | inl _ => inl Err end.

Lemma question_wp {S A} (c : M S anyhow A) (Q : BootError + A → S → io → Prop) s i :
  wp c (λ r s' i', Q (asked r) s' i') s i → wp (question c) Q s i.
Proof.
  intros H. unfold question. do 2 wp_step. eapply wp_conseq; [exact H|]. cbn beta.
  intros [e|a] s' i' HQ; by wp_steps.
Qed.

Lemma on_host_wp {A} (c : M Host anyhow A) (Q : BootError + A → Machine → io → Prop) m i :
  wp c (λ r h' i', Q (asked r) (set_host h' m) i') (host m) i → wp (on_host c) Q m i.
Proof. intros H. apply question_wp. by wp_step. Qed.

Lemma on_meta_wp {A} (c : M MetaStore anyhow A) (Q : BootError + A → Machine → io → Prop) m i :
  wp c (λ r x' i', Q (asked r) (set_meta_db x' m) i') (meta_db m) i → wp (on_meta c) Q m i.
Proof. intros H. apply question_wp. by wp_step. Qed.

Lemma opening_wp {A} (c : M () anyhow A) (Q : BootError + A → Machine → io → Prop) m i :
  wp c (λ r _ i', Q (asked r) m i') () i → wp (opening c) Q m i.
Proof. intros H. apply question_wp. by wp_step. Qed.

(** ** The state file *)

(** What loading the state file gives when no call fails. *)
Definition loads h dd d : Prop :=
  match fs h !! Persistence.disk_state_path dd with
  | None => d = Persistence.default_state
  | Some f => ∃ d0, from_slice (content f) = Some d0
      ∧ match Persistence.encrypted_crypto d0 with
        | None => d = d0
        | Some blob => ∃ c k, key_of h dd = Some k ∧ opens blob k c ∧ d = Persistence.set_crypto (Some c) d0
        end
  end.

Lemma loads_wp i0 dd d h i :
  io_step i0 i → quiet i0 → loads h dd d →
  wp (Persistence.load_disk_state dd) (λ r h' i', io_step i0 i' ∧ h' = h ∧ r = inr d) h i.
Proof.
  intros Hi Hq Hl. unfold loads in Hl. destruct (fs h !! _) as [f|] eqn:Hf.
  - destruct Hl as (d0 & Hd & Hl). destruct (Persistence.encrypted_crypto d0) as [blob|] eqn:Hbl.
    + destruct Hl as (c & k & Hk & Ho & ->). by eapply load_quiet_wp.
    + subst d. unfold Persistence.load_disk_state. cbv zeta. wp_step. apply (wp_path_exists i0); [done|]. cbn beta iota.
      intros b i1 Hi1 _ Hb. rewrite Hb, bool_decide_eq_true_2 by (by eapply quiet_hd || by eexists). cbn [negb].
      wp_step. apply (wp_fs_read i0); [done|..]; cbn beta iota; [|intros i' Hi' [?|?]; [done|congruence]].
      intros f' i2 Hi2 Hf'. simplify_eq. wp_step. rewrite Hd. unfold Persistence.or_fail. wp_step. rewrite Hbl. by wp_steps.
  - subst d. unfold Persistence.load_disk_state. cbv zeta. wp_step. apply (wp_path_exists i0); [done|]. cbn beta iota.
    intros b i1 Hi1 _ Hb. rewrite Hb, bool_decide_eq_false_2; [by wp_steps|rewrite Hf; by intros [? ?]|by eapply quiet_hd].
Qed.

(** A legacy record gets its list of delivery hashes. *)
Definition upgrade (a : MailboxAuth) : MailboxAuth :=
  if bool_decide (delivery_token_hashes a = []) && negb (bool_decide (delivery_token_hash a = EmptyString))
  then {| receive_auth_hash := receive_auth_hash a; delivery_token_hash := delivery_token_hash a;
          delivery_token_hashes := [delivery_token_hash a]; last_active_ms := last_active_ms a |}
  else a.

Definition pruned (now : Z) d : Persistence.DiskState :=
  {| Persistence.crypto := Persistence.crypto d; Persistence.encrypted_crypto := Persistence.encrypted_crypto d;
     Persistence.mailbox_auth := (λ x, (x.1, upgrade x.2)) <$> Persistence.mailbox_auth d;
     Persistence.queues := Persistence.queues d;
     Persistence.bundles := filter (λ b, now < bundle_expires_at_ms b) (Persistence.bundles d) |}.

Lemma prune_disk_wp d h i :
  wp (Persistence.prune_disk_state d) (λ r h' i', r = inr (pruned (next_now i) d) ∧ h' = h ∧ i' = clock_tick i) h i.
Proof.
  unfold Persistence.prune_disk_state. wp_step. apply wp_now_ms. cbn beta iota. wp_steps. split_and!; try done.
  unfold pruned. do 2 f_equal. apply list_fmap_ext. by intros k [rid a] _.
Qed.

(** ** The migrations *)

(** Later entries of the list replace earlier ones of the same key. *)
Definition from_list {A} (l : list (string * A)) : gmap string A := foldl (λ acc '(k, a), <[k := a]> acc) ∅ l.

Definition legacy_auth d : gmap string MailboxAuth := from_list (Persistence.mailbox_auth d).

Definition legacy_bundles d : gmap string HostedBundle := from_list ((λ b, (bundle_key b, b)) <$> Persistence.bundles d).

(** A table after the migration of [l]: only an empty one is written. *)
Definition after {A} `{!Serde A} (t : Table) (l : gmap string A) : gmap string A :=
  if decide (contents t = ∅) then l else decoded t.

Lemma decoded_no_items {A} `{!Serde A} (t : Table) : contents t = ∅ → decoded t = (∅ : gmap string A).
Proof.
  intros H. apply map_eq. intros k. rewrite lookup_empty, decoded_lookup. destruct (tbl_get t k) as [b|] eqn:Hg; [|done].
  rewrite <- contents_lookup, H in Hg. by rewrite lookup_empty in Hg.
Qed.

Lemma apply_batch_list {A} (l : list (string * A)) (m0 : gmap string A) :
  MetaStore.apply_batch m0 ((λ '(k, a), (k, Some a)) <$> l) = foldl (λ acc '(k, a), <[k := a]> acc) m0 l.
Proof. revert m0. induction l as [|[k a] l IH]; intros m0; [done|]. apply IH. Qed.

Lemma migrate_auth_wp i0 d m i :
  io_step i0 i →
  wp (migrate_auth d) (λ r m' i', io_step i0 i' ∧ ∃ x, m' = set_meta_db x m
    ∧ MetaStore.bundle_table x = MetaStore.bundle_table (meta_db m)
    ∧ match r with
      | inr _ => decoded (MetaStore.auth_table x) = after (MetaStore.auth_table (meta_db m)) (legacy_auth d)
      | inl e => e = Err ∧ ¬ quiet i0 ∧ x = meta_db m
      end) m i.
Proof.
  intros Hi. assert (m = set_meta_db (meta_db m) m) as Hm by (by destruct m).
  unfold migrate_auth. wp_step. apply on_meta_wp, (MetaStore.auth_is_empty_wp i0); [done|..]; unfold asked; cbn beta iota.
  2:{ intros Hq i' Hi'. split; [done|]. by exists (meta_db m). }
  intros i1 b Hi1 Hb. unfold after, legacy_auth, from_list. rewrite <- apply_batch_list.
  destruct b; cbn [andb].
  2:{ wp_steps. split; [done|]. exists (meta_db m). split_and!; [done|done|]. case_decide as Hc; [|done]. by apply Hb in Hc. }
  assert (contents (MetaStore.auth_table (meta_db m)) = ∅) as Hc by (by apply Hb).
  rewrite decide_True by done. rewrite <- (decoded_no_items (MetaStore.auth_table (meta_db m))) by done.
  case_bool_decide as Hl; cbn [negb].
  { rewrite Hl. wp_steps. split; [done|]. by exists (meta_db m). }
  apply on_meta_wp, (MetaStore.flush_auth_wp i0); [done|..]; cbn beta iota.
  - intros x i' Hi' Ha Hbt. split; [done|]. by exists x.
  - intros Hq i' Hi'. split; [done|]. by exists (meta_db m).
Qed.

Lemma migrate_bundles_wp i0 d m i :
  io_step i0 i →
  wp (migrate_bundles d) (λ r m' i', io_step i0 i' ∧ ∃ x, m' = set_meta_db x m
    ∧ MetaStore.auth_table x = MetaStore.auth_table (meta_db m)
    ∧ match r with
      | inr _ => decoded (MetaStore.bundle_table x) = after (MetaStore.bundle_table (meta_db m)) (legacy_bundles d)
      | inl e => e = Err ∧ ¬ quiet i0 ∧ x = meta_db m
      end) m i.
Proof.
  intros Hi. assert (m = set_meta_db (meta_db m) m) as Hm by (by destruct m).
  unfold migrate_bundles. wp_step. apply on_meta_wp, (MetaStore.bundles_is_empty_wp i0); [done|..]; unfold asked; cbn beta iota.
  2:{ intros Hq i' Hi'. split; [done|]. by exists (meta_db m). }
  intros i1 b Hi1 Hb. unfold after, legacy_bundles, from_list. rewrite <- apply_batch_list, <- list_fmap_compose.
  destruct b; cbn [andb].
  2:{ wp_steps. split; [done|]. exists (meta_db m). split_and!; [done|done|]. case_decide as Hc; [|done]. by apply Hb in Hc. }
  assert (contents (MetaStore.bundle_table (meta_db m)) = ∅) as Hc by (by apply Hb).
  rewrite decide_True by done. rewrite <- (decoded_no_items (MetaStore.bundle_table (meta_db m))) by done.
  destruct (Persistence.bundles d) as [|b0 l] eqn:Hl; cbn [negb].
  { wp_steps. split; [done|]. by exists (meta_db m). }
  apply on_meta_wp, (MetaStore.flush_bundles_wp i0); [done|..]; cbn beta iota.
  - intros x i' Hi' Ha Hbt. split; [done|]. by exists x.
  - intros Hq i' Hi'. split; [done|]. by exists (meta_db m).
Qed.

(** ** Opening the stores *)

Definition stored_queues m : gmap string QueueStore.StoredValue := decoded (QueueStore.db (queue_db m)).

Definition stored_auth m : gmap string MailboxAuth := decoded (MetaStore.auth_table (meta_db m)).

Definition stored_bundles m : gmap string HostedBundle := decoded (MetaStore.bundle_table (meta_db m)).

(** The stored transfers fit the operator's configuration. *)
Record fits (cfg : FileConfig) (t : Table) : Prop := {
  fits_bytes : FileFacts.total_stored (decoded t) ≤ max_total_file_bytes cfg;
  fits_count : Z.of_nat (size (decoded t : gmap string FileStore.FileMeta)) ≤ max_transfers cfg;
  fits_file : ∀ id x, (decoded t : gmap string FileStore.FileMeta) !! id = Some x →
    FileStore.stored_bytes x ≤ max_file_bytes cfg ∧ FileStore.total_chunks x ≤ max_chunks cfg;
}.

(** What a start needs of the tables, whoever wrote them. *)
Record machine_ok m : Prop := {
  mk_queues : QueueRemovals.table_ok (QueueStore.db (queue_db m));
  mk_files : FileRemovals.tables_ok (FileStore.file_meta (file_db m)) (FileStore.file_chunks (file_db m));
  mk_caps : fits (from_env (var (host m))) (FileStore.file_meta (file_db m));
  mk_auth : wf_mailboxes (stored_auth m);
  mk_size : Z.of_nat (size (stored_auth m)) ≤ u64_max;
  mk_bundles : keyed_bundles (stored_bundles m);
  mk_bytes : bundle_bytes (stored_bundles m) ≤ u64_max;
}.

(** The stores that [open_stores] leaves. *)
Record opened m m' : Prop := {
  op_host : host m' = host m;
  op_meta : meta_db m' = meta_db m;
  op_queues : QueueStore.db (queue_db m') = QueueStore.db (queue_db m);
  op_queues_ok : QueueFacts.Inv (queue_db m');
  op_seq : ∀ b, 0 ≤ b → (∀ k v, stored_queues m !! k = Some v → QueueStore.sv_s v ≤ b) → QueueStore.next_seq (queue_db m') ≤ b + 1;
  op_files : FileStore.file_meta (file_db m') = FileStore.file_meta (file_db m);
  op_chunks : FileStore.file_chunks (file_db m') = FileStore.file_chunks (file_db m);
  op_files_ok : FileFacts.Inv (file_db m');
  op_caps : FileFacts.Caps (file_db m');
  op_config : FileStore.config (file_db m') = from_env (var (host m));
}.

(** Opening the metadata leaves its tables. *)
Lemma meta_new_wp i0 x i :
  io_step i0 i →
  wp (MetaStore.new (MetaStore.auth_table x) (MetaStore.bundle_table x))
    (λ r _ i', io_step i0 i' ∧ match r with inr x' => x' = x | inl _ => ¬ quiet i0 end) () i.
Proof. intros Hi. unfold MetaStore.new. wp_txn ltac:(by auto). by destruct x. Qed.

Lemma fits_caps cfg t st :
  fits cfg t → FileStore.file_meta st = t → FileStore.config st = cfg → FileFacts.Caps st.
Proof. by intros [] <- <-. Qed.

Lemma open_stores_wp i0 m i :
  io_step i0 i → machine_ok m →
  wp open_stores (λ r m' i', io_step i0 i' ∧ match r with
    | inr cfg => opened m m' ∧ cfg = from_env (var (host m))
    | inl e => e = Err ∧ ¬ quiet i0
    end) m i.
Proof.
  intros Hi Hok. unfold open_stores. wp_step. apply question_wp, (wp_io_call_from i0); [done| |by intros Hq i' Hi'].
  intros i1 Hi1. unfold asked. cbn beta iota. do 3 wp_step.
  apply opening_wp. eapply wp_conseq; [by apply (QueueRemovals.new_wp _ (mk_queues _ Hok) i0)|]. cbn beta.
  intros [e|q] _ i2 [Hi2 Hq]; unfold asked; cbn beta iota; [done|]. destruct Hq as (Hdb & HI & Hseq). do 3 wp_step.
  apply opening_wp. eapply wp_conseq; [by apply (meta_new_wp i0 (meta_db m))|]. cbn beta.
  intros [e|x] _ i3 [Hi3 Hx]; unfold asked; cbn beta iota; [done|]. subst x. do 2 wp_step. cbv zeta. wp_step.
  apply opening_wp. eapply wp_conseq.
  { by apply (FileRemovals.open_files_wp _ _ (from_env (var (host m))) (mk_files _ Hok) (from_env_ok _) i0). }
  cbn beta. intros [e|f] _ i4 [Hi4 Hf]; unfold asked; cbn beta iota; [done|]. destruct Hf as (Hm & Hch & Hc & _ & HIf).
  wp_steps. split; [done|]. split; [|done]. split; try done. eapply fits_caps; [apply Hok|done|done].
Qed.

(** ** The queues *)

(** The messages a mailbox holds. *)
Definition stored_abs m : QueueSpec.Queues := QueueSpec.abs (queue_db m).

(** What the migrations need of the legacy data. *)
Record legacy_ok m d : Prop := {
  lo_names : Forall (λ x, no_char ":" x.1 ∧ slen (ciphertext x.2) ≤ PER_MAILBOX_QUEUE_BYTES) (flat (Persistence.queues d));
  lo_keys : NoDup ((λ x, QueueStore.key_for x.1 (env_id x.2)) <$> flat (Persistence.queues d));
  lo_fresh : Forall (λ x, stored_queues m !! QueueStore.key_for x.1 (env_id x.2) = None) (flat (Persistence.queues d));
  lo_bytes : QueueFacts.total_of (stored_queues m)
             + zsum ((λ x, slen (ciphertext x.2)) <$> flat (Persistence.queues d)) ≤ u64_max;
  lo_seq : ∃ b, 0 ≤ b ∧ (∀ k v, stored_queues m !! k = Some v → QueueStore.sv_s v ≤ b)
             ∧ b + 1 + Z.of_nat (length (flat (Persistence.queues d))) ≤ u64_max;
  lo_auth : Forall (λ x, no_char ":" x.1 ∧ wf_auth x.2) (Persistence.mailbox_auth d);
  lo_size : Z.of_nat (length (Persistence.mailbox_auth d)) ≤ u64_max;
  lo_bundles : zsum ((λ b, slen (bundle_ciphertext b)) <$> Persistence.bundles d) ≤ u64_max;
}.

Lemma legacy_queues_pre m d m' : opened m m' → legacy_ok m d → queues_pre (queue_db m') (flat (Persistence.queues d)).
Proof.
  intros Ho [Hn Hk Hf Hb (b & Hb0 & Hle & Hs) _ _ _]. pose proof (op_seq _ _ Ho b Hb0 Hle).
  assert (QueueFacts.entries (queue_db m') = stored_queues m) as He by (unfold QueueFacts.entries; by rewrite (op_queues _ _ Ho)).
  split; [done|done|by rewrite He| |lia]. destruct (QueueFacts.inv_total _ (op_queues_ok _ _ Ho)) as [-> _]. by rewrite He.
Qed.

Lemma legacy_queued_flat d : legacy_queued d = Z.of_nat (length (flat (Persistence.queues d))).
Proof.
  unfold legacy_queued, flat. induction (Persistence.queues d) as [|[k l] r IH]; [done|].
  rewrite !fmap_cons, zsum_cons. cbn [concat]. rewrite length_app, Nat2Z.inj_add, IH. f_equal. cbn. by rewrite length_fmap.
Qed.

(** The loops of the migration: the errors of the enqueues are dropped. *)
Lemma migrate_queues_wp d m i :
  QueueFacts.Inv (queue_db m) → queues_pre (queue_db m) (flat (Persistence.queues d)) →
  wp (migrate_queues d) (λ r m' i', r = inr tt ∧ ∃ q, m' = set_queue_db q m
    ∧ migrated i (queue_db m) (flat (Persistence.queues d)) q i') m i.
Proof.
  intros HI Hpre. assert (m = set_queue_db (queue_db m) m) as Hm by (by destruct m).
  unfold migrate_queues. rewrite legacy_queued_flat. destruct (Z.ltb_spec 0 (Z.of_nat (length (flat (Persistence.queues d))))) as [_|Hl].
  2:{ destruct (flat (Persistence.queues d)) eqn:Hf; [|simpl in Hl; lia]. wp_steps. split; [done|]. exists (queue_db m).
      split; [done|by apply migrated_start]. }
  apply (wp_foldM _ (λ done _ m' i', ∃ q, m' = set_queue_db q m ∧ migrated i (queue_db m) (flat done) q i')).
  - exists (queue_db m). split; [done|by apply migrated_start].
  - intros done [mb envs] rest [] m1 i1 Hl (q & -> & Hq).
    apply (wp_foldM _ (λ pre _ m' i', ∃ q, m' = set_queue_db q m ∧ migrated i (queue_db m) (flat done ++ tagged mb pre) q i')).
    + exists q. by rewrite app_nil_r.
    + intros pre env post [] m2 i2 He (q2 & -> & Hq2). do 2 wp_step. wp_step. eapply wp_conseq.
      * apply (migrate_one_wp i (queue_db m) (flat (Persistence.queues d)) (flat done ++ tagged mb pre) mb env (tagged mb post ++ flat rest));
          [done|done| |exact Hq2].
        by rewrite Hl, flat_app, He, flat_cons, tagged_app, <- !app_assoc.
      * cbn beta. intros r q3 i3 Hq3. wp_steps. exists q3. by rewrite tagged_app, app_assoc.
    + intros [] m3 i3 (q3 & -> & Hq3). exists q3. rewrite flat_app, flat_cons. unfold flat at 2. simpl. by rewrite app_nil_r.
  - intros [] m' i' (q & -> & Hq). split; [done|]. by exists q.
Qed.

(** ** The stores at the end of the migrations *)

Lemma from_list_snoc {A} (l : list (string * A)) k a : from_list (l ++ [(k, a)]) = <[k := a]> (from_list l).
Proof. unfold from_list. by rewrite foldl_app. Qed.

Lemma from_list_elem {A} (l : list (string * A)) k a : from_list l !! k = Some a → (k, a) ∈ l.
Proof.
  induction l as [|[k' a'] l IH] using rev_ind; [done|]. rewrite from_list_snoc, elem_of_app, list_elem_of_singleton.
  intros [[-> ->]|[_ H]]%lookup_insert_Some; [by right|left; by apply IH].
Qed.

Lemma from_list_size {A} (l : list (string * A)) : (size (from_list l) ≤ length l)%nat.
Proof.
  induction l as [|[k a] l IH] using rev_ind; [done|]. rewrite from_list_snoc, length_app. simpl.
  rewrite map_size_insert. destruct (_ !! k); simpl in *; lia.
Qed.

Lemma from_list_sum {A} (f : A → Z) (l : list (string * A)) :
  (∀ a, 0 ≤ f a) → msum (λ _, f) (from_list l) ≤ zsum ((λ x, f x.2) <$> l).
Proof.
  intros Hf. induction l as [|[k a] l IH] using rev_ind; [done|].
  rewrite from_list_snoc, msum_insert, fmap_app, zsum_app. simpl.
  assert (0 ≤ contrib (λ _, f) (from_list l) k) by (unfold contrib; by case_match). lia.
Qed.

Lemma wf_upgrade a : wf_auth a → wf_auth (upgrade a).
Proof.
  intros H. unfold upgrade. destruct (_ && _); [|done]. split; simpl; [unfold MAX_DELIVERY_TOKENS_PER_MAILBOX; lia|apply NoDup_singleton].
Qed.

Lemma filter_sum_le {A} (P : A → Prop) `{!∀ x, Decision (P x)} (f : A → Z) (l : list A) :
  (∀ a, 0 ≤ f a) → zsum (f <$> filter P l) ≤ zsum (f <$> l).
Proof.
  intros Hf. induction l as [|a l IH]; [done|]. rewrite filter_cons. pose proof (Hf a).
  case_decide; rewrite ?fmap_cons, ?zsum_cons; lia.
Qed.

(** The tables as the migrations leave them. *)
Definition final_auth now m d : gmap string MailboxAuth := after (MetaStore.auth_table (meta_db m)) (legacy_auth (pruned now d)).

Definition final_bundles now m d : gmap string HostedBundle :=
  after (MetaStore.bundle_table (meta_db m)) (legacy_bundles (pruned now d)).

Lemma final_auth_ok now m d :
  machine_ok m → legacy_ok m d → wf_mailboxes (final_auth now m d) ∧ Z.of_nat (size (final_auth now m d)) ≤ u64_max.
Proof.
  intros Hm Hl. unfold final_auth, after. case_decide; [|split; apply Hm]. unfold legacy_auth. simpl. split.
  - intros rid a Hin%from_list_elem%list_elem_of_fmap. destruct Hin as ([rid' a'] & [= -> ->] & Hin).
    pose proof (proj1 (Forall_forall _ _) (lo_auth _ _ Hl) _ Hin) as [Hr Ha]. split; [done|by apply wf_upgrade].
  - pose proof (from_list_size ((λ x, (x.1, upgrade x.2)) <$> Persistence.mailbox_auth d)) as Hs.
    rewrite length_fmap in Hs. pose proof (lo_size _ _ Hl). lia.
Qed.

Lemma final_bundles_ok now m d :
  machine_ok m → legacy_ok m d → keyed_bundles (final_bundles now m d) ∧ bundle_bytes (final_bundles now m d) ≤ u64_max.
Proof.
  intros Hm Hl. unfold final_bundles, after. case_decide; [|split; apply Hm]. unfold legacy_bundles. simpl. split.
  - intros id b Hin%from_list_elem%list_elem_of_fmap. by destruct Hin as (b' & [= -> ->] & _).
  - unfold bundle_bytes. pose proof (from_list_sum (λ b, slen (bundle_ciphertext b))
      ((λ b, (bundle_key b, b)) <$> filter (λ b, now < bundle_expires_at_ms b) (Persistence.bundles d)) (λ b, slen_nonneg _)) as Hs.
    rewrite <- list_fmap_compose in Hs.
    pose proof (filter_sum_le (λ b, now < bundle_expires_at_ms b) (λ b, slen (bundle_ciphertext b)) (Persistence.bundles d)
      (λ b, slen_nonneg _)) as Hf.
    pose proof (lo_bundles _ _ Hl). change (compose _ _) with (λ b, slen (bundle_ciphertext b)) in Hs. lia.
Qed.
End Facts.
