(* ===== verification/MainRuns.v ===== *)
(** Whole starts: a start on a machine where no call fails, and what any start
    leaves of the machine. *)
From Stdlib Require Import ZArith Lia Ascii String.
From stdpp Require Import base gmap strings list.
From S2P Require Import Prelude Redb RustStd Config Util Host Protocol Mailbox Signal PersistenceFacts State.
From S2P Require Import StateFacts Main MainFacts.
From S2P Require QueueStore.
From S2P Require QueueFacts.
From S2P Require QueueRemovals.
From S2P Require QueueSpec.
From S2P Require FileStore.
From S2P Require FileRemovals.
From S2P Require MetaStore.
From S2P Require Persistence.

Section Runs.
Context {RD : Redb} {UL : UuidLib} {LS : LibSignal} {SK : Persistence.SigningKeys} {B6 : Base64}.
Context {HA : Hashing} {HX : Persistence.HexDecode} {CI : Persistence.Cipher}.
Context {SV : Serde QueueStore.StoredValue} {SM : Serde FileStore.FileMeta}.
Context {SA : Serde MailboxAuth} {SB : Serde HostedBundle}.
Context {SC : Serde Persistence.DiskCrypto} {SD : Serde Persistence.DiskState}.
Implicit Types (h : Host) (m : Machine) (dd : string) (u : Uuid) (d : Persistence.DiskState) (s : AppState).

Abbreviation state_file h dd := (fs h !! Persistence.disk_state_path dd).

(** The state file of [h] holds the keys [c], and nothing else, under the secret
    that stands. *)
Definition holds_keys h dd (c : Persistence.DiskCrypto) : Prop :=
  ∃ blob k, state_file h dd = Some {| content := to_vec (keys_file blob); mode := Persistence.private_mode |}
    ∧ opens blob k c ∧ key_of h dd = Some k.

Lemma holds_keys_loads h dd c :
  holds_keys h dd c → ∃ blob, loads h dd (Persistence.set_crypto (Some c) (keys_file blob)).
Proof.
  intros (blob & k & Hf & Ho & Hk). exists blob. unfold loads. rewrite Hf. exists (keys_file blob).
  split; [apply from_slice_to_vec|]. by exists c, k.
Qed.

(** What a start needs: the libraries do their work, the state file can be read
    with the secret that stands, and the stores and the legacy data are sound. *)
Record ready m u d : Prop := {
  rd_seals : seals;
  rd_certifies : certifies;
  rd_loads : loads (host m) (data_dir_of (host m)) d;
  rd_usable : usable (Persistence.crypto d);
  rd_secret : is_Some (key_of (host m) (data_dir_of (host m))) ∨ local_key (host m);
  rd_elsewhere : key_elsewhere (host m) (data_dir_of (host m));
  rd_tmp : fs (host m) !! Persistence.tmp_path (data_dir_of (host m)) u = None;
  rd_machine : machine_ok m;
  rd_legacy : legacy_ok m d;
}.

(** A start with no failing call succeeds: the shared state holds what the
    stores and the old state file held, and the state file is rewritten with the
    encrypted keys alone. *)
Definition started m d (now : Z) s m' : Prop :=
  environ (host m') = environ (host m)
  ∧ AppInv s ∧ Coherent s ∧ dirty_auth s = ∅ ∧ dirty_bundles s = ∅
  ∧ file_config s = from_env (var (host m)) ∧ FileStore.config (files s) = from_env (var (host m))
  ∧ mailbox_auth s ≡ final_auth now m d ∧ bundles s = final_bundles now m d
  ∧ (∀ mb, together ((body <$> stored_abs m mb) ++ (env_body <$> for_mailbox mb (flat (Persistence.queues d)))) →
       body <$> QueueSpec.abs (queues s) mb
       = (body <$> stored_abs m mb) ++ (env_body <$> for_mailbox mb (flat (Persistence.queues d))))
  ∧ (∀ mb, for_mailbox mb (flat (Persistence.queues d)) = [] → QueueSpec.abs (queues s) mb = stored_abs m mb)
  ∧ FileStore.file_meta (files s) = FileStore.file_meta (file_db m)
  ∧ FileStore.file_chunks (files s) = FileStore.file_chunks (file_db m)
  ∧ ∃ c, identity c (crypto s) ∧ (Persistence.crypto d = None ∨ Persistence.crypto d = Some c)
      ∧ holds_keys (host m') (data_dir_of (host m)) c.

(** The records in memory are those of the table [D]; one without a time of last
    activity has that of a reading of the clock. *)
Definition loaded (i : io) (D : gmap string MailboxAuth) s : Prop :=
  ∃ j, io_later i j ∧ mailbox_auth s = refresh (activity_of (next_now j)) <$> D.

Lemma key_elsewhere_env h h' dd : environ h' = environ h → key_elsewhere h dd → key_elsewhere h' dd.
Proof. intros He. unfold key_elsewhere, Persistence.nonempty_var, var. by rewrite He. Qed.

(** The machine [m'] once its stores are opened and the migrations are done. *)
Record settled m d (now : Z) m' : Prop := {
  se_host : host m' = host m;
  se_start : start_ok (meta_db m') (queue_db m') (file_db m');
  se_auth : stored_auth m' = final_auth now m d;
  se_bundles : stored_bundles m' = final_bundles now m d;
  se_queues : ∀ mb,
    together ((body <$> stored_abs m mb) ++ (env_body <$> for_mailbox mb (flat (Persistence.queues d)))) →
    body <$> stored_abs m' mb = (body <$> stored_abs m mb) ++ (env_body <$> for_mailbox mb (flat (Persistence.queues d)));
  se_rest : ∀ mb, for_mailbox mb (flat (Persistence.queues d)) = [] → stored_abs m' mb = stored_abs m mb;
  se_files : FileStore.file_meta (file_db m') = FileStore.file_meta (file_db m);
  se_chunks : FileStore.file_chunks (file_db m') = FileStore.file_chunks (file_db m);
  se_config : FileStore.config (file_db m') = from_env (var (host m));
}.

(** The stages after the state file is loaded and pruned; [k] is what follows. *)
Lemma boot_stores_wp {A} (k : FileConfig → M Machine BootError A) (Q : BootError + A → Machine → io → Prop) m d now i :
  machine_ok m → legacy_ok m d → quiet i →
  (∀ m' i', io_later i i' → settled m d now m' → wp (k (from_env (var (host m)))) Q m' i') →
  wp (file_config ← open_stores;
      _ ← migrate_queues (pruned now d);
      _ ← migrate_auth (pruned now d);
      _ ← migrate_bundles (pruned now d);
      k file_config) Q m i.
Proof.
  intros Hok Hleg Hq HQ.
  wp_step. eapply wp_conseq; [by apply (open_stores_wp i)|]. cbn beta. intros [e|cfg] m1 i1 [Hi1 H1]; [by destruct H1|].
  destruct H1 as [Hop ->]. assert (quiet i1) as Hq1 by eauto with relay.
  wp_step. eapply wp_conseq.
  { apply (migrate_queues_wp (pruned now d) m1 i1); [apply Hop|by apply (legacy_queues_pre m d)]. }
  cbn beta. intros r m2 i2 (-> & q & -> & Hmq). cbn beta iota.
  assert (quiet i2) as Hq2 by (eapply quiet_later; [apply Hmq|done]).
  wp_step. eapply wp_conseq; [by apply (migrate_auth_wp i2)|]. cbn beta.
  intros [e|[]] m3 i3 (Hi3 & x & -> & Hbt & Ha); [by destruct Ha as (_ & ? & _)|].
  wp_step. eapply wp_conseq; [apply (migrate_bundles_wp i2); exact Hi3|]. cbn beta.
  intros [e|[]] m4 i4 (Hi4 & y & -> & Hat & Hb); [by destruct Hb as (_ & ? & _)|].
  cbn [host meta_db queue_db file_db set_meta_db set_queue_db] in *.
  rewrite (op_meta _ _ Hop) in *.
  assert (decoded (MetaStore.auth_table y) = final_auth now m d) as Hfa by (by rewrite Hat, Ha).
  assert (decoded (MetaStore.bundle_table y) = final_bundles now m d) as Hfb by (by rewrite Hb, Hbt).
  destruct (final_auth_ok now m d Hok Hleg) as [Ha1 Ha2]. destruct (final_bundles_ok now m d Hok Hleg) as [Hb1 Hb2].
  apply HQ.
  { etrans; [by apply step_later|]. etrans; [apply Hmq|]. by apply step_later. }
  split; try done; try apply Hop.
  - change (start_ok y q (file_db m1)). split; rewrite ?Hfa, ?Hfb; try done; [apply Hmq|apply Hop|apply Hop].
  - intros mb Ht. assert (stored_abs m = QueueSpec.abs (queue_db m1)) as Hs.
    { unfold stored_abs, QueueSpec.abs, QueueFacts.entries. by rewrite (op_queues _ _ Hop). }
    rewrite Hs in Ht |- *. by apply (mg_abs _ _ _ _ _ Hmq Hq1).
  - intros mb Ht. etrans; [by apply (mg_rest _ _ _ _ _ Hmq)|].
    unfold stored_abs, QueueSpec.abs, QueueFacts.entries. by rewrite (op_queues _ _ Hop).
Qed.

Lemma machine_ok_host h m : environ h = environ (host m) → machine_ok m → machine_ok (set_host h m).
Proof. intros He []. split; try done. unfold var in *. simpl. by rewrite He. Qed.

Lemma legacy_ok_crypto m h c d : legacy_ok m d → legacy_ok (set_host h m) (Persistence.set_crypto c d).
Proof. by intros []. Qed.

Lemma boot_wp m u d i :
  ready m u d → quiet i →
  wp (boot u) (λ r m' i', io_later i i' ∧ ∃ s, r = inr s ∧ started m d (next_now i) s m'
    ∧ loaded i (final_auth (next_now i) m d) s) m i.
Proof.
  intros Hr Hq. set (dd := data_dir_of (host m)). unfold boot. do 2 wp_step. cbv zeta. fold dd.
  wp_step. apply question_wp, (wp_io_call_from i); [done| |done]. intros i1 Hi1. unfold asked at 1. cbn beta iota.
  assert (quiet i1) as Hq1 by eauto with relay.
  wp_step. apply on_host_wp. eapply wp_conseq; [apply (loads_wp i); [done|done|apply Hr]|]. cbn beta.
  intros r h2 i2 (Hi2 & -> & ->). unfold asked at 1. cbn beta iota.
  wp_step. apply on_host_wp. eapply wp_conseq; [by apply (init_wp i)|]. cbn beta.
  intros [e|[sc d']] h3 i3 (Hi3 & Hf3 & He3 & Hid); unfold asked at 1; cbn beta iota.
  { exfalso. destruct Hid as [?|[Hu|Hc]]; [done|by apply Hu, Hr|by apply Hc, Hr]. }
  destruct Hid as (c & -> & Hid & Hcr). wp_step. apply on_host_wp. eapply wp_conseq; [apply prune_disk_wp|]. cbn beta.
  intros r h4 i4 (-> & -> & ->). unfold asked at 1. cbn beta iota.
  match goal with |- wp _ _ ?m0 _ => change m0 with (set_host h3 m) end.
  apply (boot_stores_wp _ _ _ (Persistence.set_crypto (Some c) d)).
  { apply machine_ok_host; [done|apply Hr]. }
  { apply legacy_ok_crypto, Hr. }
  { eauto with relay. }
  intros m5 i5 Hi5 Hse. assert (quiet i5) as Hq5 by (eapply quiet_later; [exact Hi5|]; eauto with relay).
  cbn [Persistence.crypto pruned Persistence.set_crypto]. do 2 wp_step.
  pose proof (se_host _ _ _ _ Hse) as Hh5. cbn [host set_host] in Hh5.
  assert (key_of h3 dd = key_of (host m) dd) as Hkey by (apply key_of_ext; [done|apply Hr|by intros p _; rewrite Hf3]).
  wp_step. apply on_host_wp. rewrite Hh5. eapply wp_conseq.
  { apply (persist_wp i5); [done|]. eapply key_elsewhere_env; [exact He3|apply Hr]. }
  cbn beta. intros [e|[]] h6 i6 (Hi6 & He6 & Hp); unfold asked at 1; cbn beta iota.
  { exfalso. destruct Hp as [_ [?|[Hs|[Ht|[Hn Hl]]]]]; [done|by apply Hs, Hr| |].
    - pose proof (rd_tmp _ _ _ Hr) as Hn. fold dd in Hn. rewrite Hf3 in Ht. destruct Ht as [f Ht].
      change (fs (host m) !! Persistence.tmp_path dd u = Some f) in Ht. congruence.
    - destruct (rd_secret _ _ _ Hr) as [[k Hk]|Hk]; [fold dd in Hk; congruence|]. apply Hl.
      destruct Hk. split; unfold Persistence.nonempty_var, var in *; by rewrite He3. }
  destruct Hp as (_ & blob & k & Hsf & Ho & Hk & _). do 2 wp_step. apply opening_wp.
  cbn [meta_db queue_db file_db set_host]. eapply wp_conseq; [by apply (build_wp (clock_tick i6)), eq_refl; apply Hse|]. cbn beta.
  intros [e|s] _ i7 [Hi7 Hs]; unfold asked; cbn beta iota.
  { exfalso. apply Hs. eauto with relay. }
  destruct Hs as (HI & HC & Hm & Hqu & Hfi & Hau & Hbu & Hda & Hdb & Hcr' & Hcfg & Hre). split.
  { etrans; [by apply step_later|]. etrans; [apply tick_later|]. etrans; [exact Hi5|].
    etrans; [by apply step_later|]. etrans; [apply tick_later|by apply step_later]. }
  exists s. split; [done|]. assert (next_now i3 = next_now i) as Hnow.
  { f_equal. by apply step_reading. }
  rewrite Hnow in Hse. destruct Hse as [_ _ Hsa Hsb Hsq Hsr Hsf1 Hsf2 Hsc]. split.
  2:{ exists i6. split.
      - etrans; [by apply step_later|]. etrans; [apply tick_later|]. etrans; [exact Hi5|]. by apply step_later.
      - rewrite Hre. unfold durable_auth. rewrite Hm. unfold stored_auth in Hsa. by rewrite Hsa. }
  unfold started. split_and!; try done.
  - cbn [host set_host]. by rewrite He6, He3.
  - rewrite Hcfg. unfold var. cbn [host set_host]. by rewrite He3.
  - rewrite Hfi, Hsc. unfold var. cbn [host set_host]. by rewrite He3.
  - etrans; [exact Hau|]. unfold durable_auth. rewrite Hm. unfold stored_auth in Hsa. by rewrite Hsa.
  - rewrite Hbu. unfold durable_bundles. by rewrite Hm.
  - intros mb Ht. rewrite Hqu. by apply Hsq.
  - intros mb Ht. rewrite Hqu. by apply Hsr.
  - by rewrite Hfi.
  - by rewrite Hfi.
  - exists c. rewrite Hcr'. split_and!; [done|done|]. by exists blob, k.
Qed.

(** ** Starting again *)

Lemma legacy_ok_none m blob c :
  machine_ok m → legacy_ok m (Persistence.set_crypto (Some c) (keys_file blob)).
Proof.
  intros Hm. pose proof (QueueRemovals.ok_seq _ (mk_queues _ Hm)) as Hs. pose proof (QueueRemovals.ok_total _ (mk_queues _ Hm)) as Ht.
  split; simpl; try done; try apply NoDup_nil_2; try (apply Forall_nil; done).
  - unfold stored_queues. lia.
  - exists (u64_max - 1). split_and!; [done| |lia]. intros k v Hk%Hs. lia.
Qed.

Lemma final_auth_none now m d : Persistence.mailbox_auth d = [] → final_auth now m d = stored_auth m.
Proof.
  intros Hd. unfold final_auth, after, legacy_auth. simpl. rewrite Hd. case_decide as Hc; [|done].
  unfold stored_auth. by rewrite decoded_no_items.
Qed.

Lemma final_bundles_none now m d : Persistence.bundles d = [] → final_bundles now m d = stored_bundles m.
Proof.
  intros Hd. unfold final_bundles, after, legacy_bundles. simpl. rewrite Hd. case_decide as Hc; [|done].
  unfold stored_bundles. by rewrite decoded_no_items.
Qed.

(** The shared state of a process with nothing left to write back, whose files
    are kept by the operator's configuration. *)
Record clean h s : Prop := {
  cl_inv : AppInv s;
  cl_coherent : Coherent s;
  cl_auth : dirty_auth s = ∅;
  cl_bundles : dirty_bundles s = ∅;
  cl_config : FileStore.config (files s) = from_env (var h);
}.

Lemma clean_stored h s :
  clean h s → stored_auth (machine_of h s) ≡ mailbox_auth s ∧ stored_bundles (machine_of h s) = bundles s.
Proof.
  intros [_ [Ha Hb] Hda Hdb _]. split.
  - intros rid. apply Ha. rewrite Hda. apply not_elem_of_empty.
  - apply map_eq. intros id. apply Hb. rewrite Hdb. apply not_elem_of_empty.
Qed.

Lemma clean_machine_ok h s : clean h s → machine_ok (machine_of h s).
Proof.
  intros Hc. destruct (clean_stored h s Hc) as [Ha Hb]. destruct Hc as [HI _ _ _ Hcfg].
  destruct (start_ok_clean (meta_store s) s HI Ha Hb) as [Hq Hf [Hc1 Hc2 Hc3] Hw Hs Hk Hy].
  split; try done; [by apply QueueRemovals.Inv_table_ok|by apply FileRemovals.Inv_tables_ok|].
  cbn [host machine_of file_db]. rewrite <- Hcfg. by split.
Qed.

(** ** Any start *)

Lemma wp_any {S E A} (c : M S E A) (x : S) i : wp c (λ _ _ _, True) x i.
Proof. unfold wp. by destruct (c x i) as [[r x'] i']. Qed.

(** The first foreign call takes the first failure of the script. *)
Lemma first_call_wp {S E} (e : E) (x : S) i :
  wp (io_call e) (λ r x' i', x' = x ∧ io_fail i' = tl (io_fail i) ∧ io_step i i') x i.
Proof.
  unfold wp, io_call. destruct i as [[|b l] ? ? ?]; [done|].
  assert (l `suffix_of` b :: l) by by exists [b]. by destruct b.
Qed.

(** Opening the stores and migrating the queues leave the host and the tables
    of the metadata, and fail only as an [Err]. *)
Definition same_meta {A} m (r : BootError + A) m' : Prop := host m' = host m ∧ meta_db m' = meta_db m ∧ r ≠ inl Panic.

Lemma opening_any {A B} (c : M () anyhow A) (k : A → M Machine BootError B) (Q : BootError + B → Machine → io → Prop) m i :
  (∀ i', Q (inl Err) m i') → (∀ a i', wp (k a) Q m i') → wp (a ← opening c; k a) Q m i.
Proof.
  intros He Hk. wp_step. apply opening_wp. eapply wp_conseq; [apply wp_any|].
  intros [e|a] x i' _; unfold asked; cbn beta iota; auto.
Qed.

Lemma open_stores_any m i : wp open_stores (λ r m' _, same_meta m r m') m i.
Proof.
  unfold open_stores. wp_step. apply question_wp. eapply wp_conseq; [apply first_call_wp|].
  cbn beta. intros [e|[]] s1 i1 [-> _]; unfold asked; cbn beta iota; [by split_and!|].
  do 2 wp_step. apply opening_any; [by intros; split_and!|]. intros q i2. do 3 wp_step.
  apply opening_wp. eapply wp_conseq; [by apply (meta_new_wp i2 (meta_db m))|]. cbn beta.
  intros [e|x] _ i3 [_ Hx]; unfold asked; cbn beta iota; [by split_and!|]. subst x. do 2 wp_step. cbv zeta.
  apply opening_any; [by intros; split_and!|]. intros f i4. wp_steps. by split_and!.
Qed.

Lemma migrate_queues_any d m i : wp (migrate_queues d) (λ r m' _, same_meta m r m') m i.
Proof.
  unfold migrate_queues. wp_step; [|by wp_step; split_and!].
  apply (wp_foldM _ (λ _ _ m' _, host m' = host m ∧ meta_db m' = meta_db m)); [done| |by intros [] m' i' [? ?]; split_and!].
  intros done [mb envs] rest [] m1 i1 _ H1.
  apply (wp_foldM _ (λ _ _ m' _, host m' = host m ∧ meta_db m' = meta_db m)); [done| |done].
  intros pre env post [] m2 i2 _ H2. do 3 wp_step. eapply wp_conseq; [apply wp_any|]. intros r q i3 _. by wp_steps.
Qed.

Lemma set_crypto_id d : d = Persistence.set_crypto (Persistence.crypto d) d.
Proof. by destruct d. Qed.

(** [c] are the keys of the state file [d0]: those in the clear, or those its blob
    opens to under the secret that stands, or under one made because none stands or
    it could not be read; any keys if the file has none. *)
Definition keys_of h dd i (d0 : Persistence.DiskState) (c : Persistence.DiskCrypto) : Prop :=
  match Persistence.encrypted_crypto d0 with
  | Some blob => ∃ k, opens blob k c ∧ (key_of h dd = Some k ∨ local_key h ∧ (key_of h dd = None ∨ ¬ quiet i))
  | None => Persistence.crypto d0 = None ∨ Persistence.crypto d0 = Some c
  end.

(** The tables after the migrations of [d0], pruned at the clock's first reading,
    and its keys in the state file. *)
Definition carried m i d0 m' : Prop :=
  stored_auth m' = final_auth (next_now i) m d0 ∧ stored_bundles m' = final_bundles (next_now i) m d0
  ∧ ∃ c, keys_of (host m) (data_dir_of (host m)) i d0 c ∧ holds_keys (host m') (data_dir_of (host m)) c.

(** A start that does not get to rewriting the state file leaves it alone. *)
Definition kept_or_carried {A} m i d0 (r : BootError + A) m' : Prop :=
  r ≠ inl Panic ∧ ((state_file (host m') (data_dir_of (host m)) = state_file (host m) (data_dir_of (host m))
                    ∧ ∀ a, r ≠ inr a) ∨ carried m i d0 m').

Lemma boot_any_wp m u f d0 i :
  key_elsewhere (host m) (data_dir_of (host m)) →
  state_file (host m) (data_dir_of (host m)) = Some f → from_slice (content f) = Some d0 →
  nth 1 (io_fail i) false = false →
  wp (boot u) (λ r m' _, kept_or_carried m i d0 r m') m i.
Proof.
  intros Hk Hf Hd Hseen. set (dd := data_dir_of (host m)) in *.
  assert (∀ (m' : Machine), state_file (host m') dd = state_file (host m) dd → kept_or_carried m i d0 (A := AppState) (inl Err) m') as Hkeep.
  { intros m' H. split; [done|]. left. split; [exact H|done]. }
  unfold boot. do 2 wp_step. cbv zeta. fold dd.
  wp_step. apply question_wp. eapply wp_conseq; [apply first_call_wp|]. cbn beta.
  intros [e|[]] s1 i1 (-> & Hfl & Hi1); unfold asked at 1; cbn beta iota; [by apply Hkeep|].
  wp_step. apply on_host_wp. eapply wp_conseq; [by apply (load_wp i)|]. cbn beta.
  intros r h2 i2 (Hi2 & He2 & Hf2 & Hr). specialize (Hf2 (Persistence.disk_state_path dd) (state_not_key dd)).
  destruct r as [e|d]; unfold asked at 1; cbn beta iota; [by apply Hkeep|].
  assert (∃ c, d = Persistence.set_crypto c d0 ∧ ∀ c', c = None ∨ c = Some c' → keys_of (host m) dd i d0 c') as (c & -> & Hold).
  { unfold keys_of. destruct (Hr d eq_refl) as [[_ [Hn|Hh]]|(f' & d' & Hf' & Hd' & H)].
    - congruence.
    - rewrite Hfl in Hh. destruct (io_fail i) as [|b [|b' l]]; simpl in *; congruence.
    - rewrite Hf in Hf'. simplify_eq. destruct (Persistence.encrypted_crypto d0).
      + destruct H as (c & k & -> & Ho & Hkey). exists (Some c). split; [done|]. intros c' [|[= <-]]; [done|]. by exists k.
      + subst. exists (Persistence.crypto d0). split; [apply set_crypto_id|done]. }
  clear Hr. wp_step. apply on_host_wp. eapply wp_conseq; [by apply (init_wp i)|]. cbn beta.
  intros [e|[sc d']] h3 i3 (Hi3 & Hf3 & He3 & Hid); unfold asked at 1; cbn beta iota.
  { apply Hkeep. cbn [host set_host] in *. by rewrite Hf3. }
  destruct Hid as (c' & -> & _ & Hc'). wp_step. apply on_host_wp. eapply wp_conseq; [apply prune_disk_wp|]. cbn beta.
  intros r h4 i4 (-> & -> & ->). unfold asked at 1. cbn beta iota.
  assert (next_now i3 = next_now i) as Hnow by (f_equal; by apply step_reading). rewrite Hnow.
  cbn [host set_host] in *.
  match goal with |- wp _ _ ?m0 _ => change m0 with (set_host h3 m) end.
  assert (state_file h3 dd = state_file (host m) dd) as Hf4 by (by rewrite Hf3, Hf2).
  wp_step. eapply wp_conseq; [apply open_stores_any|]. cbn beta. intros [e|cfg] m5 i5 (Hh5 & Hm5 & Hp5).
  { destruct e; [|done]. apply Hkeep. by rewrite Hh5. }
  wp_step. eapply wp_conseq; [apply migrate_queues_any|]. cbn beta. intros [e|[]] m6 i6 (Hh6 & Hm6 & Hp6).
  { destruct e; [|done]. apply Hkeep. by rewrite Hh6, Hh5. }
  wp_step. eapply wp_conseq; [by apply (migrate_auth_wp i6)|]. cbn beta. intros [e|[]] m7 i7 (_ & x & -> & Hbt & Ha).
  { destruct Ha as [-> _]. apply Hkeep. cbn. by rewrite Hh6, Hh5. }
  wp_step. eapply wp_conseq; [by apply (migrate_bundles_wp i7)|]. cbn beta. intros [e|[]] m8 i8 (_ & y & -> & Hat & Hb).
  { destruct Hb as [-> _]. apply Hkeep. cbn. by rewrite Hh6, Hh5. }
  cbn [Persistence.crypto pruned Persistence.set_crypto]. do 2 wp_step.
  cbn [host meta_db set_meta_db] in *. rewrite Hm6, Hm5 in *.
  wp_step. apply on_host_wp. cbn [host set_meta_db]. rewrite Hh6, Hh5. eapply wp_conseq.
  { apply (persist_wp i8); [done|]. eapply key_elsewhere_env; [|exact Hk]. cbn. by rewrite He3, He2. }
  cbn beta. intros [e|[]] h9 i9 (_ & He9 & Hp); unfold asked at 1; cbn beta iota.
  { apply Hkeep. cbn. destruct Hp as [Hp _]. rewrite Hp; [done|apply state_not_tmp|apply state_not_key]. }
  destruct Hp as (_ & blob & k & Hsf & Ho & Hkey & _). do 2 wp_step. apply opening_wp.
  eapply wp_conseq; [apply wp_any|]. intros r _ i10 _. split; [by destruct r|]. right.
  split; [|split].
  - unfold stored_auth. cbn. by rewrite Hat, Ha.
  - unfold stored_bundles. cbn. by rewrite Hb, Hbt.
  - exists c'. split; [by apply Hold|]. exists blob, k. by split_and!.
Qed.
End Runs.
