(* ===== verification/MainProps.v ===== *)
(** What a start of the relay guarantees: an old state file is carried over
    whole, a start that fails loses none of it, and a clean stop and a start
    lose nothing. *)
From Stdlib Require Import ZArith Lia Ascii String.
From Stdlib Require Import Strings.Byte.
From stdpp Require Import base gmap strings list.
From S2P Require Import Prelude Redb RustStd Config Util Host Protocol Mailbox Signal PersistenceFacts State.
From S2P Require Import StateFacts PersistenceProps Main MainFacts MainRuns.
From S2P Require QueueStore.
From S2P Require QueueFacts.
From S2P Require QueueRemovals.
From S2P Require QueueSpec.
From S2P Require QueueProps.
From S2P Require FileStore.
From S2P Require FileFacts.
From S2P Require FileRemovals.
From S2P Require FileProps.
From S2P Require MetaStore.
From S2P Require Persistence.
From S2P Require StateProps.
From S2P Require WsDemo.

Section Props.
Context {RD : Redb} {UL : UuidLib} {LS : LibSignal} {SK : Persistence.SigningKeys} {B6 : Base64}.
Context {HA : Hashing} {HX : Persistence.HexDecode} {CI : Persistence.Cipher}.
Context {SV : Serde QueueStore.StoredValue} {SM : Serde FileStore.FileMeta}.
Context {SA : Serde MailboxAuth} {SB : Serde HostedBundle}.
Context {SC : Serde Persistence.DiskCrypto} {SD : Serde Persistence.DiskState}.

(** C28. A start on well-formed stores without failures takes the old state file over: its
    messages come behind the stored ones in order (where the caps allow), its mailbox records
    and unexpired bundles are taken exactly when the tables are empty, its keys are kept or
    fresh ones made, and the keys end up encrypted in the state file. *)
Theorem start_carries_state_over m u d i :
  ready m u d → quiet i →
  wp (boot u) (λ r m' _, ∃ s, r = inr s
    ∧ AppInv s ∧ Coherent s ∧ dirty_auth s = ∅ ∧ dirty_bundles s = ∅
    ∧ mailbox_auth s ≡ final_auth (next_now i) m d ∧ bundles s = final_bundles (next_now i) m d
    ∧ (∀ mb, let all := (body <$> stored_abs m mb) ++ (env_body <$> for_mailbox mb (flat (Persistence.queues d))) in
         together all → body <$> QueueSpec.abs (queues s) mb = all)
    ∧ ∃ c, identity c (crypto s) ∧ (Persistence.crypto d = None ∨ Persistence.crypto d = Some c)
        ∧ holds_keys (host m') (data_dir_of (host m)) c) m i.
Proof.
  intros Hr Hq. eapply wp_conseq; [by apply boot_wp|]. cbn beta. intros r m' i' (_ & s & -> & Hs & _).
  unfold started in Hs. exists s. destruct Hs as (_ & ? & ? & ? & ? & _ & _ & ? & ? & ? & _ & _ & _ & ?). by split_and!.
Qed.


End Props.

(** ** A machine with an old state file *)

(** An equality that holds by evaluation; the values are compared where they are. *)
Ltac by_vm := lazymatch goal with |- ?a = _ => vm_cast_no_check (eq_refl a) end.

Section Demo.
#[local] Existing Instances gmap_redb unary_uuid StateProps.demo_signal demo_keys WsDemo.demo_base64 hex_hashing hex_codec demo_cipher.
#[local] Existing Instances QueueProps.demo_serde FileProps.meta_serde StateProps.auth_serde StateProps.bundle_serde crypto_serde state_serde.

(** An envelope the old relay queued. *)
Definition old_envelope : StoredEnvelope :=
  {| env_id := 5%nat; env_to := StateProps.demo_rid; envelope_type := "msg"; ciphertext := "c1" |}.

(** Its state file: keys in the clear, and every kind of data. *)
Definition old_state : Persistence.DiskState :=
  {| Persistence.crypto := Some demo_crypto_keys; Persistence.encrypted_crypto := None;
     Persistence.mailbox_auth := [(StateProps.demo_rid, StateProps.demo_auth)];
     Persistence.queues := [(StateProps.demo_rid, [old_envelope])];
     Persistence.bundles := [StateProps.demo_bundle] |}.

Definition old_machine : Machine :=
  {| host := {| environ := ∅;
                fs := {[ Persistence.disk_state_path "axeno-relay-data" := {| content := to_vec old_state; mode := 420 |} ]};
                random := []; torn := [] |};
     queue_db := QueueProps.empty_queues;
     meta_db := {| MetaStore.auth_table := tbl_empty; MetaStore.bundle_table := tbl_empty |};
     file_db := FileProps.empty_files |}.

Lemma old_wf : no_char ":" StateProps.demo_rid ∧ wf_auth StateProps.demo_auth.
Proof. split; [done|]. split; [vm_compute; lia|apply NoDup_singleton]. Qed.

Lemma old_machine_ok : machine_ok old_machine.
Proof.
  split.
  - apply (QueueRemovals.Inv_table_ok _ QueueProps.Inv_empty_queues).
  - apply (FileRemovals.Inv_tables_ok _ (proj1 FileProps.Inv_empty_files)).
  - split; [by vm_compute..|]. intros id x Hx. change ((∅ : gmap string FileStore.FileMeta) !! id = Some x) in Hx.
    by rewrite lookup_empty in Hx.
  - intros rid a Hx. change ((∅ : gmap string MailboxAuth) !! rid = Some a) in Hx. by rewrite lookup_empty in Hx.
  - by vm_compute.
  - intros id b Hx. change ((∅ : gmap string HostedBundle) !! id = Some b) in Hx. by rewrite lookup_empty in Hx.
  - by vm_compute.
Qed.

Lemma old_legacy_ok : legacy_ok old_machine old_state.
Proof.
  split.
  - repeat constructor; vm_compute; congruence.
  - apply NoDup_singleton.
  - repeat constructor.
  - by vm_compute.
  - exists 0. split_and!; [done| |by vm_compute]. intros k v Hx.
    change ((∅ : gmap string QueueStore.StoredValue) !! k = Some v) in Hx. by rewrite lookup_empty in Hx.
  - apply Forall_singleton, old_wf.
  - by vm_compute.
  - by vm_compute.
Qed.

Lemma demo_seals : seals.
Proof.
  split; [|by eexists]. intros secret s Hs. unfold Persistence.argon2_hash, demo_cipher, blen. rewrite Hs. by eexists.
Qed.

Lemma demo_certifies : certifies.
Proof. by eexists. Qed.

Lemma old_ready : ready old_machine 0%nat old_state.
Proof.
  split; [apply demo_seals|apply demo_certifies| | |by right| | |apply old_machine_ok|apply old_legacy_ok].
  - exists old_state. split; [apply from_slice_to_vec|done].
  - split; by eexists.
  - done.
  - by vm_compute.
Qed.

Lemma start_carries_state_over_witness :
  wp (boot 0%nat) (λ r m' _, ∃ s, r = inr s ∧ mailbox_auth s ≡ {[ StateProps.demo_rid := StateProps.demo_auth ]}
    ∧ body <$> QueueSpec.abs (queues s) StateProps.demo_rid = [env_body old_envelope]) old_machine QueueProps.calm.
Proof.
  eapply wp_conseq; [exact (start_carries_state_over (UL := unary_uuid) old_machine 0%nat old_state QueueProps.calm old_ready (Forall_nil_2 _))|].
  cbn beta. intros r m' i' (s & -> & _ & _ & _ & _ & Ha & _ & Hq & _). exists s. split; [done|]. split.
  - etrans; [exact Ha|]. apply reflexive_eq. by_vm.
  - apply Hq. split; by vm_compute.
Defined.



(** ** Observed behaviour *)

(** The state file of the old machine is there as it was. *)
Definition state_kept (m : Machine) : bool :=
  bool_decide (content <$> fs (host m) !! Persistence.disk_state_path "axeno-relay-data" = Some (to_vec old_state)).

(** An enqueue of the migration that fails is dropped, and the state file is
    rewritten without the message. *)
Example failed_enqueue_loses_the_message :
  let '(r, m', _) := boot 0%nat old_machine (Io (replicate 25 false ++ [true]) [] [] []) in
  match r with inr s => length (QueueSpec.abs (queues s) StateProps.demo_rid) = 0%nat | inl _ => False end
  ∧ state_kept m' = false.
Proof. vm_compute. split; reflexivity. Qed.

(** A start that fails after the queues are migrated leaves the state file, and
    the next one enqueues the same messages again: the relay counts twice what
    it stores once. *)
Example repeated_migration_counts_twice :
  let m1 := (boot 0%nat old_machine (Io (replicate 30 false ++ [true]) [] [] [])).1.2 in
  match (boot 1%nat m1 QueueProps.calm).1.1 with
  | inr s => QueueFacts.total_of (QueueFacts.entries (queues s)) = 2 ∧ QueueStore.total_bytes (queues s) = 4
  | inl _ => False
  end.
Proof. vm_compute. split; reflexivity. Qed.

(** A look at the state file that fails counts as no state file: the relay
    starts without its data and replaces the file. *)
Example unseen_state_file_is_replaced :
  let '(r, m', _) := boot 0%nat old_machine (Io [false; true] [] [] []) in
  match r with inr s => size (mailbox_auth s) = 0%nat ∧ size (bundles s) = 0%nat | inl _ => False end
  ∧ state_kept m' = false.
Proof. vm_compute. split_and!; reflexivity. Qed.
End Demo.
