(* ===== verification/UpdateCheck.v ===== *)
(** [update_check.rs]: the notify-only look for a newer release.

    The HTTP client and semver are third-party.  A request is an event with the
    route it takes and the reply of the network, the next one of a list; the
    task's sleeps and notices are events too.  The endless loop is run for a
    number of rounds. *)
From Stdlib Require Import ZArith Lia Ascii String.
From stdpp Require Import base gmap strings list.
From S2P Require Import Prelude Redb RustStd Config Util Host Persistence.

(** [semver::Version] and its order. *)
Class Semver := {
  Version : Type;
  semver_parse : string → option Version;
  version_gt : Version → Version → bool;
  version_gt_irrefl : ∀ v, version_gt v v = false;
  version_gt_asym : ∀ v w, version_gt v w = true → version_gt w v = false;
}.

Record Release := {
  tag_name : string;
  html_url : string;
}.

(** [serde_json] on the body of a reply. *)
Class ReleaseJson := { parse_release : string → option Release }.

Definition REPO : string := "axenochat/axeno-relay".

(** [env!("CARGO_PKG_VERSION")], of Cargo.toml. *)
Definition CURRENT : string := "0.1.9".

Definition CHECK_INTERVAL : Z := 24 * 60 * 60.

Definition INITIAL_DELAY : Z := 2 * 60.

Definition RETRY_INTERVAL : Z := 30 * 60.

Inductive Mode := Default | Enabled | Disabled.

#[global] Instance Mode_eq_dec : EqDecision Mode.
Proof. solve_decision. Defined.

Definition mode (h : Host) : Mode :=
  match var h "AXENO_UPDATE_CHECK" with
  | None => Default
  | Some v =>
      let v := to_ascii_lowercase (trim v) in
      if bool_decide (v ∈ ["1"; "true"; "yes"; "on"]%string) then Enabled else Disabled
  end.

(** [spawn]: the proxy port of the task, or no task. *)
Definition spawn (h : Host) (tor_socks_port : option Z) : option (option Z) :=
  match mode h with
  | Disabled => None
  | Default => match tor_socks_port with None => None | Some port => Some (Some port) end
  | Enabled => Some tor_socks_port
  end.

(** How a request leaves the host. *)
Inductive Route := Proxy (url : string) | Clearnet.

Inductive Event :=
  | Requested (route : Route) (url : string)
  | Noticed (latest url : string)
  | Slept (secs : Z).

Record Response := {
  status : Z;
  resp_body : string;
}.

(** The network: what it answers next ([None] is no answer), and what happened. *)
Record Net := {
  replies : list (option Response);
  events : list Event;
}.

Definition log (e : Event) (w : Net) : Net := {| replies := replies w; events := events w ++ [e] |}.

Section UpdateCheck.
Context {SE : Semver} {RJ : ReleaseJson}.

Definition send (route : Route) (url : string) : M Net anyhow Response :=
  _ ← modify (log (Requested route url));
  w ← get;
  _ ← put {| replies := tl (replies w); events := events w |};
  or_fail (default None (head (replies w))).

Definition is_success (status : Z) : bool := (200 <=? status) && (status <? 300).

Definition latest_url : string := "https://api.github.com/repos/" +:+ REPO +:+ "/releases/latest".

Definition proxy_url (port : Z) : string := "socks5h://127.0.0.1:" +:+ dec port.

Definition check_once (tor_socks_port : option Z) : M Net anyhow (option Release) :=
  let url := latest_url in
  route ← match tor_socks_port with
          | Some port => _ ← io_call Failed; mret (Proxy (proxy_url port))
          | None => mret Clearnet
          end;
  (* builder.build() *)
  _ ← io_call Failed;
  resp ← send route url;
  if negb (is_success (status resp)) then throw Failed
  else
    release ← or_fail (parse_release (resp_body resp));
    current ← or_fail (semver_parse CURRENT);
    let latest_str := trim_start_matches "v" (tag_name release) in
    mret (match semver_parse latest_str with
          | Some latest => if version_gt latest current then Some release else None
          | None => None
          end).

(** One turn of the task's loop. *)
Definition round {E : Type} (proxy_port : option Z) : M Net E () :=
  r ← attempt (check_once proxy_port);
  next ← match r with
         | inr (Some release) => _ ← modify (log (Noticed (tag_name release) (html_url release))); mret CHECK_INTERVAL
         | inr None => mret CHECK_INTERVAL
         | inl _ => mret RETRY_INTERVAL
         end;
  modify (log (Slept next)).

Definition task {E : Type} (proxy_port : option Z) (rounds : nat) : M Net E () :=
  _ ← modify (log (Slept INITIAL_DELAY));
  foldM (λ _ _, round proxy_port) tt (seq 0 rounds).
End UpdateCheck.
