(* ===== verification/Tor.v ===== *)
(** [tor.rs]: the hidden service's tor process, and the end of [main.rs] that
    starts it and the release check.

    Tor itself, the operating system's choice of a free port and the process
    identifier are arguments.  [announce] is the task that reads tor's output:
    its lines are given, [None] ending them.  A sleep has no effect here. *)
From Stdlib Require Import ZArith Lia Ascii String.
From stdpp Require Import base gmap strings list.
From S2P Require Import Prelude Redb RustStd Config Util Host.
From S2P Require UpdateCheck.

(** [str::contains]. *)
Fixpoint contains (p s : string) : bool :=
  starts_with p s || match s with String _ r => contains p r | EmptyString => false end.

(** The tor process: its arguments and its environment. *)
Record Child := {
  args : list string;
  child_env : gmap string EnvValue;
}.

Definition newline : string := String "010" EmptyString.

Section Tor.
(** The creation mask of the process. *)
Context (umask : Z).

(** [fs::write]. *)
Definition fs_write {E : Type} (e : E) (path : string) (b : bytes) : M Host E () :=
  _ ← open_truncate e (Z.land 438 (Z.lnot umask)) path;
  write_all e path b.

Definition torrc_content (tor_dir hs_dir : string) (port socks_port : Z) : string :=
  "DataDirectory " +:+ tor_dir +:+ newline
  +:+ "HiddenServiceDir " +:+ hs_dir +:+ newline
  +:+ "HiddenServiceVersion 3" +:+ newline
  +:+ "HiddenServicePort 80 127.0.0.1:" +:+ dec port +:+ newline
  +:+ "SocksPort 127.0.0.1:" +:+ dec socks_port +:+ newline
  +:+ "Log notice stdout" +:+ newline.

(** The child's environment: the relay's, without its secrets. *)
Definition tor_env (h : Host) : gmap string EnvValue := delete "AXENO_KEY_FILE"%string (delete "AXENO_KEY"%string (environ h)).

(** [free_port] is the port the probe listener gets, [pid] the relay's. *)
Definition start_tor_hidden_service (pid free_port port : Z) (data_dir : string)
    : M Host anyhow (option (Z * Child)) :=
  (* tor --version *)
  installed ← attempt (io_call tt);
  match installed with
  | inl _ => mret None
  | inr _ =>
      let tor_dir := join data_dir "tor" in
      let hs_dir := join tor_dir "hs" in
      let torrc_path := join tor_dir "torrc" in
      (* create_dir_all, and the two set_permissions *)
      _ ← io_call Failed;
      _ ← io_call Failed;
      _ ← io_call Failed;
      (* pick_free_loopback_port: bind and local_addr *)
      _ ← io_call Failed;
      _ ← io_call Failed;
      let socks_port := free_port in
      _ ← fs_write Failed torrc_path (as_bytes (torrc_content tor_dir hs_dir port socks_port));
      h ← get;
      _ ← io_call Failed;
      mret (Some (socks_port,
        {| args := ["-f"; torrc_path; "__OwningControllerProcess"; dec pid]%string; child_env := tor_env h |}))
  end.

(** ** The onion address *)

Definition onion_url (hostname : string) : string := "ws://" +:+ trim hostname +:+ "/ws".

(** [for _ in 0..n]: whether the host name could be read, and was published. *)
Fixpoint poll {E : Type} (hostname_path onion_out_path : string) (n : nat) : M Host E bool :=
  match n with
  | O => mret false
  | S n =>
      r ← attempt (read_to_string tt hostname_path);
      match r with
      | inr hostname =>
          _ ← attempt (fs_write tt onion_out_path (as_bytes (onion_url hostname)));
          mret true
      | inl _ => poll hostname_path onion_out_path n
      end
  end.

Definition bootstrapped : string := "Bootstrapped 100%".

Fixpoint announce {E : Type} (hs_dir onion_out_path : string) (lines : list (option string)) (announced : bool)
    : M Host E bool :=
  match lines with
  | Some line :: rest =>
      announced ← (if announced || negb (contains bootstrapped line) then mret announced
                   else poll (join hs_dir "hostname") onion_out_path 30);
      announce hs_dir onion_out_path rest announced
  | _ => mret announced
  end.

(** ** The end of [async_main] *)

(** Whether tor runs, by the address the relay listens on; the release check
    gets its port.  An error of tor's start is only logged. *)
Definition start_outbound (pid free_port port : Z) (loopback : bool) (data_dir : string)
    : M Host anyhow (option Child * option (option Z)) :=
  tor ← (if loopback then
           r ← attempt (start_tor_hidden_service pid free_port port data_dir);
           mret (match r with inr t => t | inl _ => None end)
         else mret None);
  h ← get;
  mret (snd <$> tor, UpdateCheck.spawn h (fst <$> tor)).
End Tor.
