(* ===== verification/OutboundProps.v ===== *)
(** What leaves the host: the tor process and its environment, the published
    onion address, and the requests of the release check. *)
From Stdlib Require Import ZArith Lia Ascii String.
From stdpp Require Import base gmap strings list.
From S2P Require Import Prelude Redb RustStd Config Util Host Tor.
From S2P Require UpdateCheck.

(** ** The tor process *)

Section TorFacts.
Context (umask : Z).
Implicit Types (h : Host) (i : io).

(** A write of a file touches no other. *)
Lemma fs_write_wp {E} i0 (e : E) path b (Q : E + () → Host → io → Prop) h i :
  io_step i0 i →
  (∀ m h' i', io_step i0 i' → environ h' = environ h → fs h' = <[path := {| content := b; mode := m |}]> (fs h) → Q (inr tt) h' i') →
  (∀ h' i', io_step i0 i' → ¬ quiet i0 → environ h' = environ h → (∀ p, p ≠ path → fs h' !! p = fs h !! p) → Q (inl e) h' i') →
  wp (fs_write umask e path b) Q h i.
Proof.
  intros Hi H1 H2. unfold fs_write. wp_step. apply (wp_open_truncate i0); [done|..]; cbn beta iota; [|intros i' Hi' Hq; by apply H2].
  intros i1 Hi1. apply (wp_write_all i0); [done|..].
  - intros i' Hi'. eapply H1; [done|done|]. simpl. by rewrite alter_insert_eq.
  - intros n t i' Hi' Hq. apply H2; [done..|]. intros p Hp. simpl. by rewrite lookup_alter_ne, lookup_insert_ne by done.
Qed.

(** The lines of tor's configuration. *)
Definition torrc_lines (data_dir : string) (port socks_port : Z) : list string :=
  [ "DataDirectory " +:+ join data_dir "tor";
    "HiddenServiceDir " +:+ join (join data_dir "tor") "hs";
    "HiddenServiceVersion 3";
    "HiddenServicePort 80 127.0.0.1:" +:+ dec port;
    "SocksPort 127.0.0.1:" +:+ dec socks_port;
    "Log notice stdout" ].

(** A path of printable ASCII. *)
Definition printable (c : ascii) : bool := ascii_between " " "~" c.

Lemma printable_join dir name :
  str_forallb printable dir = true → str_forallb printable name = true → str_forallb printable (join dir name) = true.
Proof.
  intros Hd Hn. unfold join. assert (str_forallb printable (dir +:+ "/" +:+ name) = true ∧ str_forallb printable (dir +:+ name) = true) as [H1 H2].
  { rewrite !str_forallb_app, Hd, Hn. done. }
  by destruct (_ || _).
Qed.
Lemma printable_digit c : is_digit c = true → printable c = true.
Proof. destruct c as [[] [] [] [] [] [] [] []]; vm_compute; congruence. Qed.

Lemma printable_dec z : str_forallb printable (dec z) = true.
Proof. eapply str_forallb_impl; [|apply dec_digits]. apply printable_digit. Qed.

Lemma torrc_printable data_dir port socks_port :
  str_forallb printable data_dir = true → Forall (λ l, str_forallb printable l = true) (torrc_lines data_dir port socks_port).
Proof.
  intros Hd. pose proof (printable_join data_dir "tor" Hd eq_refl) as Ht. pose proof (printable_join _ "hs" Ht eq_refl) as Hh.
  unfold torrc_lines. repeat constructor; rewrite ?str_forallb_app, ?Ht, ?Hh, ?printable_dec; done.
Qed.

Lemma torrc_unlines data_dir port socks_port :
  torrc_content (join data_dir "tor") (join (join data_dir "tor") "hs") port socks_port = unlines (torrc_lines data_dir port socks_port).
Proof. unfold torrc_content, torrc_lines, unlines, newline. simpl foldr. rewrite !str_app_assoc. done. Qed.

Lemma unlines_ascii ls :
  Forall (λ l, str_forallb printable l = true) ls → str_forallb (λ c, (N_of_ascii c <? 128)%N) (unlines ls) = true.
Proof.
  induction 1 as [|l ls Hl _ IH]; [done|]. unfold unlines. simpl. rewrite str_forallb_app. apply andb_true_intro. split.
  - eapply str_forallb_impl; [|exact Hl]. intros c [_ Hc%N.leb_le]%andb_prop. apply N.ltb_lt.
    change (N_of_ascii "~") with 126%N in Hc. lia.
  - simpl. exact IH.
Qed.

Lemma tor_start_wp pid free_port port data_dir h i :
  str_forallb printable data_dir = true →
  wp (start_tor_hidden_service umask pid free_port port data_dir) (λ r h' _,
    environ h' = environ h ∧ (∀ p, p ≠ join (join data_dir "tor") "torrc" → fs h' !! p = fs h !! p)
    ∧ match r with
      | inr (Some (socks_port, c)) =>
          socks_port = free_port
          ∧ (∀ k, child_env c !! k = if decide (k ∈ ["AXENO_KEY"; "AXENO_KEY_FILE"]%string) then None else environ h !! k)
          ∧ args c = ["-f"; join (join data_dir "tor") "torrc"; "__OwningControllerProcess"; dec pid]%string
          ∧ ∃ text, readable h' (join (join data_dir "tor") "torrc") = Some text
              ∧ lines text = torrc_lines data_dir port socks_port
      | _ => ¬ quiet i
      end) h i.
Proof.
  intros Hd. unfold start_tor_hidden_service. do 2 wp_step. apply (wp_io_call_from i); [done| |]; cbn beta iota.
  2:{ intros Hq i' Hi'. wp_steps. by split_and!. }
  intros i1 Hi1. cbv zeta. do 5 (wp_step; wp_io ltac:(by split_and!)).
  wp_step. apply (fs_write_wp i); [done|..]; cbn beta iota.
  2:{ intros h' i' Hi' Hq He Hp. by split_and!. }
  clear Hi1. intros m h2 j2 Hj2 He Hf. do 2 wp_step. wp_step. apply (wp_io_call_from i); [done| |]; cbn beta iota.
  2:{ intros Hq i' Hi'. split_and!; [done| |done]. intros p Hp. by rewrite Hf, lookup_insert_ne. }
  intros j3 Hj3. wp_steps. split; [done|]. split; [intros p Hp; by rewrite Hf, lookup_insert_ne|].
  split; [done|]. split; [|split; [done|]].
  - intros k. unfold child_env, tor_env. rewrite He. case_decide as Hk.
    + apply elem_of_cons in Hk as [->|Hk%list_elem_of_singleton]; [|subst; by rewrite lookup_delete_eq].
      by rewrite lookup_delete_ne, lookup_delete_eq by done.
    + rewrite !lookup_delete_ne; [done| |]; intros <-; apply Hk; [left|right; left].
  - eexists. split.
    + unfold readable. rewrite Hf, lookup_insert_eq. simpl. rewrite torrc_unlines. apply from_utf8_ascii, unlines_ascii.
      by apply torrc_printable.
    + apply lines_unlines. eapply Forall_impl; [by apply torrc_printable|]. intros l Hl.
      split; (eapply str_forallb_no_char; [|exact Hl]; done).
Qed.

(** The tor process gets the relay's environment without AXENO_KEY and AXENO_KEY_FILE, and
    a configuration whose lines are exactly the six meant for it when the data directory's name
    is printable; no other file changes, and a start that yields no tor had a failing call. *)
Theorem tor_gets_no_secrets pid free_port port data_dir h i :
  str_forallb printable data_dir = true →
  wp (start_tor_hidden_service umask pid free_port port data_dir) (λ r h' _,
    environ h' = environ h ∧ (∀ p, p ≠ join (join data_dir "tor") "torrc" → fs h' !! p = fs h !! p)
    ∧ match r with
      | inr (Some (socks_port, c)) =>
          socks_port = free_port
          ∧ (∀ k, child_env c !! k = if decide (k ∈ ["AXENO_KEY"; "AXENO_KEY_FILE"]%string) then None else environ h !! k)
          ∧ args c = ["-f"; join (join data_dir "tor") "torrc"; "__OwningControllerProcess"; dec pid]%string
          ∧ ∃ text, readable h' (join (join data_dir "tor") "torrc") = Some text
              ∧ lines text = torrc_lines data_dir port socks_port
      | _ => ¬ quiet i
      end) h i.
Proof. apply tor_start_wp. Qed.

(** ** The onion address *)

Lemma poll_wp {E} i0 hp out n h i :
  io_step i0 i → hp ≠ out →
  wp (E := E) (poll umask hp out n) (λ r h' i', io_step i0 i' ∧ ∃ b, r = inr b ∧ environ h' = environ h
    ∧ (∀ p, p ≠ out → fs h' !! p = fs h !! p)
    ∧ if b then ∃ t, readable h hp = Some t
                ∧ (quiet i0 → ∃ f, fs h' !! out = Some f ∧ content f = as_bytes (onion_url t))
      else h' = h ∧ (¬ quiet i0 ∨ n = O ∨ readable h hp = None)) h i.
Proof.
  intros Hi Hne. revert i Hi. induction n as [|n IH]; intros i Hi; simpl.
  { wp_steps. split; [done|]. exists false. split_and!; auto. }
  do 2 wp_step. apply (wp_read_to_string i0); [done|..]; cbn beta iota.
  - intros t i1 Hi1 Ht. do 2 wp_step. apply (fs_write_wp i0); [done|..]; cbn beta iota.
    + intros m h2 i2 Hi2 He Hf. wp_steps. split; [done|]. exists true. split_and!; try done.
      * intros p Hp. by rewrite Hf, lookup_insert_ne.
      * exists t. split; [done|]. intros _. rewrite Hf, lookup_insert_eq. by eexists.
    + intros h2 i2 Hi2 Hq He Hp. wp_steps. split; [done|]. exists true. split_and!; try done. by exists t.
  - intros i1 Hi1 Hr. eapply wp_conseq; [by apply IH|]. cbn beta. intros r h2 i2 (Hi2 & b & -> & He & Hp & Hb).
    split; [done|]. exists b. split_and!; try done. destruct b; [done|]. destruct Hb as [-> _].
    split; [done|]. destruct Hr; auto.
Qed.

(** The lines that are read. *)
Fixpoint before_end (l : list (option string)) : list string :=
  match l with Some line :: r => line :: before_end r | _ => [] end.

(** Once the address is published nothing more happens. *)
Lemma announced_wp {E} hs out l (Q : E + bool → Host → io → Prop) h i :
  Q (inr true) h i → wp (announce umask hs out l true) Q h i.
Proof. intros HQ. induction l as [|[line|] l IH]; simpl; [by wp_step| |by wp_step]. by do 2 wp_step. Qed.

Definition published hs_dir out (l : list (option string)) h (i0 : io) h' (b : bool) : Prop :=
  if b then Exists (λ line, contains bootstrapped line = true) (before_end l)
            ∧ ∃ t, readable h (join hs_dir "hostname") = Some t
                ∧ (quiet i0 → ∃ f, fs h' !! out = Some f ∧ content f = as_bytes (onion_url t))
  else h' = h ∧ (quiet i0 → readable h (join hs_dir "hostname") = None
                           ∨ Forall (λ line, contains bootstrapped line = false) (before_end l)).

Lemma published_cons hs_dir out line l h i0 h' b :
  contains bootstrapped line = false ∨ ¬ quiet i0 ∨ readable h (join hs_dir "hostname") = None →
  published hs_dir out l h i0 h' b → published hs_dir out (Some line :: l) h i0 h' b.
Proof.
  unfold published. cbn [before_end]. intros Hline Hb. destruct b; [destruct Hb; split; [by right|done]|].
  destruct Hb as [-> Hb]. split; [done|]. intros Hq. destruct Hline as [Hl|[?|?]]; [|done|by left].
  destruct (Hb Hq); [by left|right; by constructor].
Qed.

Lemma announce_wp {E} i0 hs_dir out l h i :
  io_step i0 i → join hs_dir "hostname" ≠ out →
  wp (E := E) (announce umask hs_dir out l false) (λ r h' _, ∃ b, r = inr b ∧ environ h' = environ h
    ∧ (∀ p, p ≠ out → fs h' !! p = fs h !! p) ∧ published hs_dir out l h i0 h' b) h i.
Proof.
  intros Hi Hne. revert i Hi. induction l as [|[line|] l IH]; intros i Hi; cbn [announce].
  1, 3: wp_steps; exists false; split_and!; try done; split; [done|]; intros _; right; constructor.
  destruct (contains bootstrapped line) eqn:Hc; cbn [negb orb]; wp_step.
  2:{ wp_step. eapply wp_conseq; [by apply IH|]. cbn beta. intros r h' i' (b & -> & He & Hp & Hb). exists b.
      split_and!; try done. apply published_cons; auto. }
  eapply wp_conseq; [by apply (poll_wp i0)|]. cbn beta. intros r h1 i1 (Hi1 & b & -> & He & Hp & Hb).
  destruct b.
  - apply announced_wp. exists true. split_and!; try done. split; [by left|]. exact Hb.
  - destruct Hb as [-> Hno]. eapply wp_conseq; [by apply IH|]. cbn beta. intros r h' i' (b & -> & He' & Hp' & Hb').
    exists b. split_and!; try done. apply published_cons; [|done]. right. by destruct Hno as [?|[[=]|?]]; [left|right].
Qed.

(** The task that reads tor's output writes the onion address file only after a line that
    says tor has bootstrapped and only with the hostname tor wrote, trimmed, in a ws:// URL; if
    no call fails it does write it, unless the hostname is not there or no such line comes. *)
Theorem onion_address_is_published {E} hs_dir out l h i :
  join hs_dir "hostname" ≠ out →
  wp (E := E) (announce umask hs_dir out l false) (λ r h' _, ∃ b, r = inr b ∧ environ h' = environ h
    ∧ (∀ p, p ≠ out → fs h' !! p = fs h !! p)
    ∧ if b then Exists (λ line, contains bootstrapped line = true) (before_end l)
                ∧ ∃ t, readable h (join hs_dir "hostname") = Some t
                    ∧ (quiet i → ∃ f, fs h' !! out = Some f ∧ content f = as_bytes ("ws://" +:+ trim t +:+ "/ws"))
      else h' = h ∧ (quiet i → readable h (join hs_dir "hostname") = None
                               ∨ Forall (λ line, contains bootstrapped line = false) (before_end l))) h i.
Proof. intros Hne. by apply (announce_wp i). Qed.
End TorFacts.

(** ** The release check *)

Section UpdateFacts.
Context {SE : UpdateCheck.Semver} {RJ : UpdateCheck.ReleaseJson}.
Import UpdateCheck.
Implicit Types (w : Net) (i : io).

Definition route_of (proxy : option Z) : Route :=
  match proxy with Some port => Proxy (proxy_url port) | None => Clearnet end.

(** What a reply says: nothing ([None]), no newer release, or a newer one. *)
Definition verdict (reply : option Response) : option (option Release) :=
  resp ← reply;
  if negb (is_success (status resp)) then None
  else
    release ← parse_release (resp_body resp);
    current ← semver_parse CURRENT;
    Some (latest ← semver_parse (trim_start_matches "v" (tag_name release));
          if version_gt latest current then Some release else None).

(** The events of one turn, by the reply. *)
Definition turn (proxy : option Z) (reply : option Response) : list Event :=
  Requested (route_of proxy) latest_url ::
  match verdict reply with
  | Some (Some release) => [Noticed (tag_name release) (html_url release); Slept CHECK_INTERVAL]
  | Some None => [Slept CHECK_INTERVAL]
  | None => [Slept RETRY_INTERVAL]
  end.

(** The first [n] replies; there are none after the end of the list. *)
Definition heard (n : nat) (l : list (option Response)) : list (option Response) :=
  (λ k, default None (l !! k)) <$> seq 0 n.

Lemma request_wp route url w i (Q : anyhow + Response → Net → io → Prop) :
  (∀ w', replies w' = tl (replies w) → events w' = events w ++ [Requested route url] →
     match default None (head (replies w)) with Some r => Q (inr r) w' i | None => Q (inl Failed) w' i end) →
  wp (send route url) Q w i.
Proof.
  intros H. unfold send. wp_steps. cbn [replies events log]. unfold Persistence.or_fail.
  specialize (H {| replies := tl (replies w); events := events w ++ [Requested route url] |} eq_refl eq_refl).
  destruct (default None (head (replies w))); by wp_step.
Qed.

Lemma check_once_wp proxy w i :
  wp (check_once proxy) (λ r w' i', io_step i i' ∧
    ((replies w' = tl (replies w) ∧ events w' = events w ++ [Requested (route_of proxy) latest_url]
      ∧ r = match verdict (default None (head (replies w))) with Some o => inr o | None => inl Failed end)
     ∨ (¬ quiet i ∧ w' = w ∧ r = inl Failed))) w i.
Proof.
  unfold check_once. cbv zeta. wp_step.
  assert (wp (E := anyhow) (match proxy with
              | Some port => _ ← io_call Failed; mret (Proxy (proxy_url port))
              | None => mret Clearnet end)
    (λ r w' i', io_step i i' ∧ w' = w ∧ (r = inr (route_of proxy) ∨ (¬ quiet i ∧ r = inl Failed))) w i) as Hroute.
  { destruct proxy; [|wp_steps; by split_and!; [| |left]]. wp_step. apply (wp_io_call_from i); [done|..]; cbn beta iota.
    - intros i' Hi'. wp_steps. auto.
    - auto. }
  eapply wp_conseq; [exact Hroute|]. cbn beta. clear Hroute.
  intros r w1 i1 (Hi1 & -> & [->|[Hq ->]]); [|auto].
  wp_step. apply (wp_io_call_from i); [done|..]; cbn beta iota; [|auto]. intros i2 Hi2.
  wp_step. apply request_wp. intros w2 Hr He. destruct (default None (head (replies w))) as [resp|]; [|auto].
  unfold verdict. simpl. destruct (is_success (status resp)); cbn [negb]; [|wp_step; auto].
  wp_step. unfold Persistence.or_fail at 1. destruct (parse_release (resp_body resp)) as [rel|]; simpl; wp_step; [|auto].
  wp_step. unfold Persistence.or_fail. destruct (semver_parse CURRENT) as [cur|]; simpl; wp_step; [|auto].
  wp_step. split; [done|]. left. split_and!; [done|done|]. by destruct (semver_parse (trim_start_matches "v" (tag_name rel))).
Qed.

Lemma round_quiet_wp {E} proxy w i :
  quiet i →
  wp (E := E) (round proxy) (λ r w' i', io_step i i' ∧ r = inr tt ∧ replies w' = tl (replies w)
    ∧ events w' = events w ++ turn proxy (default None (head (replies w)))) w i.
Proof.
  intros Hq. unfold round. do 2 wp_step. eapply wp_conseq; [apply check_once_wp|]. cbn beta.
  intros r w1 i1 [Hi1 [(Hr & He & ->)|[? _]]]; [|done]. unfold turn.
  destruct (verdict _) as [[rel|]|]; wp_steps; (split; [done|]); cbn [events replies log]; rewrite He, <- ?app_assoc; done.
Qed.

Lemma tl_drop {A} n (l : list A) : tl (drop n l) = drop (S n) l.
Proof. revert l. induction n as [|n IH]; intros [|x l]; try done. apply IH. Qed.

Lemma head_drop {A} n (l : list A) : head (drop n l) = l !! n.
Proof. revert l. induction n as [|n IH]; intros [|x l]; try done. apply IH. Qed.

Lemma heard_snoc n l : heard (S n) l = heard n l ++ [default None (l !! n)].
Proof. unfold heard. by rewrite seq_S, fmap_app. Qed.

Lemma rounds_quiet_wp {E} proxy n w i :
  quiet i →
  wp (E := E) (foldM (λ _ _, round proxy) tt (seq 0 n)) (λ r w' _, r = inr tt
    ∧ events w' = events w ++ concat (turn proxy <$> heard n (replies w))) w i.
Proof.
  intros Hq. apply (wp_foldM _ (λ done _ w' i', quiet i' ∧ replies w' = drop (length done) (replies w)
    ∧ events w' = events w ++ concat (turn proxy <$> heard (length done) (replies w)))).
  - split_and!; [done|done|]. by rewrite app_nil_r.
  - intros done k rest [] w1 i1 _ (Hq1 & Hr & He). eapply wp_conseq; [by apply round_quiet_wp|]. cbn beta.
    intros r w2 i2 (Hi2 & -> & Hr2 & He2). rewrite length_app. cbn [length]. rewrite Nat.add_1_r. split_and!.
    + eauto with relay.
    + by rewrite Hr2, Hr, tl_drop.
    + rewrite He2, He, Hr, heard_snoc, fmap_app, concat_app, <- app_assoc. simpl. rewrite app_nil_r.
      by rewrite head_drop.
  - intros [] w' i' (_ & _ & He). rewrite length_seq in He. by split.
Qed.

(** The release check, run for any number of rounds without failures of its own, does what
    a function of the replies says: one request a round, a notice exactly when a successful
    reply names a version greater than this one, then a day's sleep, or half an hour's after a
    failed round. *)
Theorem release_check_follows_the_replies {E} proxy n w i :
  quiet i →
  wp (E := E) (task proxy n) (λ r w' _, r = inr tt
    ∧ events w' = events w ++ Slept 120 :: concat (turn proxy <$> heard n (replies w))) w i.
Proof.
  intros Hq. unfold task. do 2 wp_step. eapply wp_conseq; [by apply rounds_quiet_wp|]. cbn beta.
  intros r w' i' [-> He]. split; [done|]. rewrite He. cbn [events log replies]. by rewrite <- app_assoc.
Qed.

(** A tag of a version after the running one. *)
Definition newer (tag : string) : Prop :=
  ∃ latest current, semver_parse CURRENT = Some current ∧ semver_parse (trim_start_matches "v" tag) = Some latest
    ∧ version_gt latest current = true.

(** What the task may do, whatever fails. *)
Definition allowed (proxy : option Z) (e : Event) : Prop :=
  match e with
  | Requested route url => route = route_of proxy ∧ url = latest_url
  | Noticed tag _ => newer tag
  | Slept secs => INITIAL_DELAY ≤ secs
  end.

Lemma verdict_newer reply release : verdict reply = Some (Some release) → newer (tag_name release).
Proof.
  unfold verdict. destruct reply as [resp|]; simpl; [|done]. destruct (negb _); [done|].
  destruct (parse_release _) as [rel|]; simpl; [|done]. destruct (semver_parse CURRENT) as [c|] eqn:Hc; simpl; [|done].
  destruct (semver_parse (trim_start_matches "v" (tag_name rel))) as [v|] eqn:Hv; simpl; [|done].
  destruct (version_gt v c) eqn:Hgt; [|done]. intros [= <-]. by exists v, c.
Qed.

Lemma round_allowed_wp {E} proxy w i :
  wp (E := E) (round proxy) (λ r w' _, r = inr tt ∧ ∃ new, events w' = events w ++ new ∧ Forall (allowed proxy) new) w i.
Proof.
  assert (allowed proxy (Slept CHECK_INTERVAL) ∧ allowed proxy (Slept RETRY_INTERVAL)) as [Hs1 Hs2] by (split; by vm_compute).
  unfold round. do 2 wp_step. eapply wp_conseq; [apply check_once_wp|]. cbn beta.
  intros r w1 i1 [_ [(_ & He & ->)|(_ & -> & ->)]].
  - destruct (verdict _) as [[rel|]|] eqn:Hv; wp_steps; (split; [done|]); cbn [events log]; rewrite He, <- ?app_assoc; cbn [app];
      (eexists; split; [reflexivity|]); repeat constructor; try done. by eapply verdict_newer.
  - wp_steps. split; [done|]. eexists. split; [done|]. by constructor.
Qed.

Lemma task_allowed_wp {E} proxy n w i :
  wp (E := E) (task proxy n) (λ r w' _, r = inr tt ∧ ∃ new, events w' = events w ++ new ∧ Forall (allowed proxy) new) w i.
Proof.
  unfold task. do 2 wp_step. apply (wp_foldM _ (λ _ _ w' _, ∃ new, events w' = events w ++ new ∧ Forall (allowed proxy) new)).
  - eexists. split; [done|]. by constructor.
  - intros done k rest [] w1 i1 _ (new & He & Hn). eapply wp_conseq; [apply round_allowed_wp|]. cbn beta.
    intros r w2 i2 (-> & new' & He' & Hn'). exists (new ++ new'). split; [by rewrite He', He, app_assoc|]. by apply Forall_app.
  - intros [] w' i' ?. done.
Qed.

(** The operator asked for the check. *)
Definition asked_for (h : Host) : Prop :=
  ∃ v, var h "AXENO_UPDATE_CHECK" = Some v ∧ to_ascii_lowercase (trim v) ∈ ["1"; "true"; "yes"; "on"]%string.

Lemma mode_enabled h : mode h = Enabled ↔ asked_for h.
Proof.
  unfold mode, asked_for. destruct (var h _) as [v|]; [|split; [done|by intros (? & ? & _)]].
  case_bool_decide as Hv; split; try done.
  - by exists v.
  - intros (v' & [= <-] & ?). done.
Qed.

(** C37. Every request of the release check is for the one release URL, and it goes through the
    SOCKS port of the relay's own tor, or over the clearnet only when AXENO_UPDATE_CHECK asks
    for the check and no tor is there; a relay bound to a public address starts no tor. *)
Theorem check_never_leaves_tor_unasked umask pid free_port port loopback data_dir h i :
  str_forallb printable data_dir = true →
  wp (start_outbound umask pid free_port port loopback data_dir) (λ r h' _, environ h' = environ h
    ∧ ∃ child check, r = inr (child, check) ∧ (loopback = false → child = None)
    ∧ ∀ proxy, check = Some proxy →
        match proxy with Some p => p = free_port ∧ loopback = true ∧ is_Some child | None => asked_for h ∧ child = None end
        ∧ ∀ n w j, wp (E := anyhow) (task proxy n) (λ r' w' _, r' = inr tt
            ∧ ∃ new, events w' = events w ++ new
              ∧ ∀ e, e ∈ new → match e with
                                | Requested route url =>
                                    url = latest_url
                                    ∧ route = match proxy with Some p => Proxy ("socks5h://127.0.0.1:" +:+ dec p) | None => Clearnet end
                                | Noticed tag _ => newer tag
                                | Slept secs => 120 ≤ secs
                                end) w j) h i.
Proof.
  intros Hd. unfold start_outbound. wp_step.
  assert (wp (E := anyhow) (if loopback then
      r ← attempt (start_tor_hidden_service umask pid free_port port data_dir);
      mret (match r with inr t => t | inl _ => None end) else mret None)
    (λ r h' _, environ h' = environ h ∧ ∃ t, r = inr t ∧ (is_Some t → loopback = true) ∧ ∀ p c, t = Some (p, c) → p = free_port) h i) as Htor.
  { destruct loopback; [|wp_step; split; [done|]; exists None; split_and!; try done; by intros [? ?]].
    do 2 wp_step. eapply wp_conseq; [by apply tor_start_wp|]. cbn beta. intros r h' i' (He & _ & Hr). wp_step. split; [done|].
    eexists. split; [done|]. split; [done|]. intros p c Ht. destruct r as [e|[[p' c']|]]; [done| |done].
    injection Ht as <- <-. by destruct Hr as [? _]. }
  eapply wp_conseq; [exact Htor|]. cbn beta. clear Htor. intros r h' i' (He & t & -> & Hl & Hp). wp_steps.
  split; [done|]. eexists _, _. split; [done|]. split.
  { intros ->. destruct t; [|done]. by specialize (Hl ltac:(by eexists)). }
  intros proxy Hspawn. assert (asked_for h' → asked_for h) as Hask by (unfold asked_for, var; by rewrite He). split.
  - unfold spawn in Hspawn. destruct (mode h') eqn:Hm; [| |done].
    + destruct t as [[p c]|]; [|done]. simpl in Hspawn. injection Hspawn as <-. rewrite (Hp p c) by done.
      split_and!; [done|by apply Hl|by eexists].
    + injection Hspawn as <-. destruct t as [[p c]|]; simpl; [|split; [by apply Hask, mode_enabled|done]].
      rewrite (Hp p c) by done. split_and!; [done|by apply Hl|by eexists].
  - intros n w j. eapply wp_conseq; [apply task_allowed_wp|]. cbn beta. intros r' w' j' (-> & new & Hev & Hn).
    split; [done|]. exists new. split; [done|]. intros e Hin. rewrite Forall_forall in Hn. specialize (Hn e Hin).
    destruct e; [by destruct Hn|done|exact Hn].
Qed.
End UpdateFacts.

(** ** A concrete host and network *)

Section Demo.
Import UpdateCheck.

(** Versions of three numbers. *)
Definition triple_gt (a b : Z * Z * Z) : bool :=
  (b.1.1 <? a.1.1) || ((a.1.1 =? b.1.1) && ((b.1.2 <? a.1.2) || ((a.1.2 =? b.1.2) && (b.2 <? a.2)))).

#[refine] Definition triple_semver : Semver := {|
  Version := Z * Z * Z;
  semver_parse s :=
    '(a, r) ← split_once "." s; '(b, c) ← split_once "." r;
    x ← parse_u64 a; y ← parse_u64 b; z ← parse_u64 c; Some (x, y, z);
  version_gt := triple_gt;
|}.
Proof.
  - intros [[a b] c]. unfold triple_gt. simpl. lia.
  - intros [[a b] c] [[a' b'] c']. unfold triple_gt. simpl. lia.
Defined.

(** The body is the tag. *)
Definition tag_json : ReleaseJson := {| parse_release body := Some {| tag_name := body; html_url := "u" |} |}.

#[local] Existing Instances triple_semver tag_json.

Definition reply (tag : string) : option Response := Some {| status := 200; resp_body := tag |}.

(** The running release, no answer, a tag that is no version, a new release. *)
Definition demo_net : Net := {| replies := [reply "v0.1.9"; None; reply "nightly"; reply "v0.2.0"]; events := [] |}.

Definition outbound_host (check : string) : Host :=
  {| environ := {[ "AXENO_KEY"%string := Unicode "secret"; "PATH"%string := Unicode "/bin";
                   "AXENO_UPDATE_CHECK"%string := Unicode check ]};
     fs := {[ "data/tor/hs/hostname"%string := {| content := as_bytes "abc.onion"; Host.mode := 384 |} ]}; random := []; torn := [] |}.

Lemma release_check_follows_the_replies_witness :
  wp (E := anyhow) (task (Some 9050) 4) (λ _ w' _,
    omap (λ e, match e with Noticed tag _ => Some tag | _ => None end) (events w') = ["v0.2.0"%string]) demo_net (Io [] [] [] []).
Proof.
  eapply wp_conseq; [apply (release_check_follows_the_replies (Some 9050) 4 demo_net (Io [] [] [] [])); constructor|].
  cbn beta. intros r w' i' [_ ->]. vm_compute. reflexivity.
Defined.

Lemma tor_gets_no_secrets_witness :
  wp (start_tor_hidden_service 18 77 9050 8787 "data") (λ r _ _, ∃ c, r = inr (Some (9050, c))
    ∧ child_env c !! "AXENO_KEY"%string = None ∧ child_env c !! "PATH"%string = Some (Unicode "/bin"))
    (outbound_host "0") (Io [] [] [] []).
Proof.
  eapply wp_conseq; [apply (tor_gets_no_secrets 18 77 9050 8787 "data" (outbound_host "0") (Io [] [] [] [])); reflexivity|].
  cbn beta. intros r h' i' (_ & _ & Hr). destruct r as [e|[[p c]|]]; [destruct Hr; constructor| |destruct Hr; constructor].
  destruct Hr as (-> & He & _). exists c. rewrite !He. split_and!; vm_compute; reflexivity.
Defined.

(** What tor prints; the file is published at the third line. *)
Definition demo_lines : list (option string) :=
  [Some "Opening Control listener"; Some "Bootstrapped 50%"; Some "Bootstrapped 100% (done)"; None]%string.

Lemma onion_address_is_published_witness :
  wp (E := anyhow) (announce 18 "data/tor/hs" "data/onion_address.txt" demo_lines false)
    (λ r h' _, r = inr true ∧ (content <$> fs h' !! "data/onion_address.txt"%string) = Some (as_bytes "ws://abc.onion/ws"))
    (outbound_host "0") (Io [] [] [] []).
Proof.
  eapply wp_conseq; [apply (onion_address_is_published 18 "data/tor/hs" "data/onion_address.txt" demo_lines); done|].
  cbn beta. intros r h' i' (b & -> & _ & _ & Hb).
  assert (readable (outbound_host "0") (join "data/tor/hs" "hostname") = Some "abc.onion"%string) as Ht by (vm_compute; reflexivity).
  destruct b.
  - destruct Hb as (_ & t & Ht' & Hf). rewrite Ht in Ht'. injection Ht' as <-. destruct Hf as (f & -> & Hf); [constructor|].
    split; [done|]. simpl. by rewrite Hf.
  - exfalso. destruct Hb as [_ Hb]. destruct Hb as [Hn|Hn]; [constructor|congruence|]. revert Hn. vm_compute. intros Hn.
    apply Forall_cons in Hn as [_ Hn]. apply Forall_cons in Hn as [_ Hn]. by apply Forall_cons in Hn as [? _].
Defined.

Lemma check_never_leaves_tor_unasked_witness :
  wp (start_outbound 18 77 9050 8787 false "data") (λ r _ _, ∃ child check, r = inr (child, check) ∧ check ≠ Some None)
    (outbound_host "tor") (Io [] [] [] []).
Proof.
  eapply wp_conseq.
  { apply (check_never_leaves_tor_unasked 18 77 9050 8787 false "data" (outbound_host "tor") (Io [] [] [] [])). reflexivity. }
  cbn beta. intros r h' i' (_ & child & check & -> & _ & Hc). exists child, check. split; [done|]. intros ->.
  destruct (Hc None eq_refl) as [[(v & Hv & Hin) _] _]. vm_compute in Hv. injection Hv as <-.
  assert (bool_decide (to_ascii_lowercase (trim "tor") ∈ ["1"; "true"; "yes"; "on"]%string) = false) as Hno by (vm_compute; reflexivity).
  by apply bool_decide_eq_false in Hno.
Defined.
End Demo.
