(* ===== verification/WsProps.v ===== *)
(** What a connection guarantees, whatever frames it is sent: the relay stays
    well formed, nobody's mailbox, transfer or live invite changes without the
    right to, and envelopes reach only those who may have them. *)
From Stdlib Require Import ZArith Lia Ascii String.
From stdpp Require Import base gmap strings list.
From S2P Require Import Prelude Redb RustStd Config Util Protocol Mailbox Signal State StateFacts StateOps StateProps.
From S2P Require Import Ws WsFacts WsRuns WsFrames WsDemo.
From S2P Require QueueStore.
From S2P Require QueueFacts.
From S2P Require QueueRuns.
From S2P Require QueueSpec.
From S2P Require QueueProps.
From S2P Require FileStore.
From S2P Require FileFacts.
From S2P Require FileWrites.
From S2P Require FileRemovals.
From S2P Require FileProps.

Section Props.
Context {RD : Redb} {UL : UuidLib} {LS : LibSignal} {HS : Hashing} {B6 : Base64} {JS : Json}.
Context {SV : Serde QueueStore.StoredValue} {SM : Serde FileStore.FileMeta}.
Context {SA : Serde MailboxAuth} {SB : Serde HostedBundle}.
Implicit Types (s : Session) (rid m id : string) (f : ClientFrame).
Context {E : Type}.

(** ** Any frame *)

(** Handling any frame from any well-formed state keeps the shared state's invariant, the
    coherence of its caches with the durable tables, and the mailbox and bundle caps, whatever
    calls of the environment fail. *)
Theorem frame_keeps_relay T d f s i :
  SessionInv s → frame_pre T d f s i →
  wp (E := E) (on_frame d f) (λ r s' _, (∃ flow, r = inr flow) ∧ SessionInv s'
    ∧ (Coherent (app s) → Coherent (app s')) ∧ (admitted (app s) → admitted (app s'))) s i.
Proof.
  intros HI Hpre. eapply wp_conseq; [by apply (frame_served T d f)|]. cbn beta. intros r s' i' Hs.
  split; [apply Hs|]. split; [by eapply served_inv|]. destruct Hs as [_ [_ Hk _ _ _]]. split.
  - intros HC. apply coherent_but_empty. apply (k_coherent _ _ _ _ _ _ Hk ∅); [done|by apply coherent_but_empty].
  - apply (k_admitted _ _ _ _ _ _ Hk), HI.
Qed.

(** C22. Whatever frame a connection handles, the auth record, route, rate entry and queue of
    every mailbox it is not entitled to stay exactly as they were (entitled: the owner's auth
    token or a proof of work for a free id at Hello, the registration afterwards, an accepted
    delivery token for a send); so does every transfer it does not name and every invite bundle
    that has not expired; and the connection is registered only for a mailbox it was entitled
    to. *)
Theorem frame_touches_only_its_own T d f s i :
  SessionInv s → frame_pre T d f s i →
  wp (E := E) (on_frame d f) (λ _ s' _,
    (∀ m, ¬ touches f s i m → same_mailbox m (app s) (app s'))
    ∧ (∀ id, ¬ names f id → same_transfer id (app s) (app s'))
    ∧ (∀ id b, bundles (app s) !! id = Some b → T < bundle_expires_at_ms b → bundles (app s') !! id = Some b)
    ∧ (recipient_id (conn s') = recipient_id (conn s)
       ∨ ∃ rid, recipient_id (conn s') = Some rid ∧ touches f s i rid)) s i.
Proof.
  intros HI Hpre. eapply wp_conseq; [by apply (frame_served T d f)|]. cbn beta.
  intros r s' i' [_ [_ [_ _ _ Hm Ht Hb _] _ Hr _]]. split_and!; [done..|].
  destruct Hr as [?|(rid & ? & ? & _)]; [by left|right; by exists rid].
Qed.

(** C34. A frame makes channels accept only what they may have: an envelope goes, at a Hello, to
    the connection itself, or to the live route of its mailbox, and only when the frame is
    entitled to that mailbox; every other frame goes to the connection that sent the request. *)
Theorem frames_reach_their_addressee T d f s i :
  SessionInv s → frame_pre T d f s i →
  wp (E := E) (on_frame d f) (λ _ s' _, ∃ l, sent s' = sent s ++ l ∧ ∀ chan fr, (chan, fr) ∈ l →
    match fr with
    | Envelope env => touches f s i (env_to env)
                      ∧ (is_hello f = true ∧ chan = tx (conn s) ∨ online (app s) !! env_to env = Some chan)
    | _ => chan = tx (conn s)
    end) s i.
Proof.
  intros HI Hpre. eapply wp_conseq; [by apply (frame_served T d f)|]. cbn beta.
  intros r s' i' [_ [_ _ _ _ (l & Hl & HR)]]. exists l. split; [done|].
  intros chan fr Hin. rewrite Forall_forall in HR. apply (HR _ Hin).
Qed.

(** ** Sending *)

(** The code a send is refused with before anything is delivered. *)
Definition send_refusal s (to delivery_token envelope_type : string) (now : Z) : option string :=
  if negb (valid_recipient_id to) || negb (valid_token delivery_token) then Some "bad_send"%string
  else if 32 <? slen envelope_type then Some "bad_envelope"%string
  else
    match mailbox_auth (app s) !! to with
    | Some a =>
        if negb (accepts_delivery_hash a (token_hash delivery_token)) then Some "delivery_denied"%string
        else if negb (rate_step now (send_rate (app s) !! to)).2 then Some "rate_limited"%string
        else None
    | None => Some "delivery_denied"%string
    end.

(** The answer [fr], unless the connection's own channel refuses it. *)
Definition answered s i (log : list (ClientTx * ServerFrame)) (fr : ServerFrame) : Prop :=
  log = [(tx (conn s), fr)] ∨ log = [] ∧ ¬ channels_open i.

(** What became of an envelope that was not refused. *)
Definition delivered s i (to : string) (env : StoredEnvelope) (live : bool) (log : list (ClientTx * ServerFrame)) : Prop :=
  if live then ∃ chan, online (app s) !! to = Some chan ∧ log = [(chan, Envelope env)]
  else log = [] ∧ (online (app s) !! to = None ∨ ¬ channels_open i).

Definition queued s s' (to : string) (env : StoredEnvelope) : Prop :=
  ∃ now, QueueSpec.abs (queues (app s')) to
         = QueueSpec.keep_newest (slen (ciphertext env)) (QueueSpec.abs (queues (app s)) to) ++ [QueueSpec.message_of env now].

(** The durable copy and the answer. *)
Definition stored_and_answered s i s' (cr : option string) (to : string) (env : StoredEnvelope) (live : bool)
    (fr : ServerFrame) : Prop :=
  if QueueStore.would_exceed_global (queues (app s)) (slen (ciphertext env)) then
    queues (app s') = queues (app s)
    ∧ fr = if live then SendOk (env_id env) false cr
           else send_err cr "relay_full" "relay queue storage limit reached"
  else
    queued s s' to env ∧ fr = SendOk (env_id env) (negb live) cr
    ∨ ¬ quiet i ∧ QueueSpec.abs (queues (app s')) to = QueueSpec.abs (queues (app s)) to
      ∧ fr = if live then SendOk (env_id env) false cr
             else send_err cr "relay_error" "could not persist message for offline delivery".

Lemma wp_answer s i (fr : ServerFrame) s1 i1 (Q : E + Flow → Session → io → Prop) :
  io_later i i1 → conn s1 = conn s →
  (∀ s' i' l, io_later i i' → app s' = app s1 → conn s' = conn s1 → sent s' = sent s1 ++ l → answered s i l fr → Q (inr Continue) s' i') →
  wp (reply fr) Q s1 i1.
Proof.
  intros Hi Hc H. apply wp_reply. intros l i' Hi' Hl. eapply H; [by etrans|done|done|done|].
  destruct Hl as [->|[-> Ho]]; [left; by rewrite Hc|right]. split; [done|].
  intros Hopen. apply Ho. by eapply channels_open_later.
Qed.

Lemma wp_queue_envelope T d cr to tok ty ct s i (live : bool) s3 i3 (Q : E + Flow → Session → io → Prop) :
  let f := SendEnvelope cr to tok ty ct in
  let env := {| env_id := draw_uuid d; env_to := to; envelope_type := ty; ciphertext := ct |} in
  SessionInv s → frame_pre T d f s i → valid_recipient_id to = true →
  io_later i i3 → conn s3 = conn s → AppInv (app s3) → queues (app s3) = queues (app s) →
  (∀ fr l s' i', stored_and_answered s i s' cr to env live fr → sent s' = sent s3 ++ l → answered s i l fr →
     Q (inr Continue) s' i') →
  wp (queue_envelope cr to env live) Q s3 i3.
Proof.
  intros f env HI Hpre Hto Hi3 Hc HA Hq H. unfold queue_envelope. do 2 wp_step. rewrite Hq.
  unfold stored_and_answered in H. destruct (QueueStore.would_exceed_global _ _) eqn:Hcap; cbn beta iota.
  { assert (∀ fr, fr = (if live then SendOk (env_id env) false cr
                        else send_err cr "relay_full" "relay queue storage limit reached") → wp (reply fr) Q s3 i3) as Hr.
    { intros fr Hfr. apply (wp_answer s i); [done..|]. intros s' i' l Hi' Ha _ Hl Hans.
      eapply H; [split; [by rewrite Ha|exact Hfr]|done..]. }
    destruct live; by apply Hr. }
  assert (∀ s4 i4 (b : bool), io_later i i4 → conn s4 = conn s → sent s4 = sent s3 →
    (if b then queued s s4 to env else ¬ quiet i ∧ QueueSpec.abs (queues (app s4)) to = QueueSpec.abs (queues (app s)) to) →
    wp (_ ← on_app (mark_auth_dirty to);
        if b || live then reply (SendOk (env_id env) (negb live) cr)
        else reply (send_err cr "relay_error" "could not persist message for offline delivery")) Q s4 i4) as Hmark.
  { intros s4 i4 b Hi4 Hc4 Hs4 Hb. wp_step. apply wp_on_app. unfold mark_auth_dirty. wp_step.
    destruct (b || live) eqn:Hbl; (apply (wp_answer s i); [done|done|]); intros s' i' l Hi' Ha _ Hl Hans;
      (eapply H; [|rewrite Hl; simpl; by rewrite Hs4|exact Hans]); unfold queued in *; rewrite !Ha; simpl.
    - destruct b; [left; by split|right]. destruct Hb. split_and!; [done..|]. by destruct live.
    - apply orb_false_iff in Hbl as [-> ->]. right. destruct Hb. by split_and!. }
  wp_step. apply wp_spawn.
  - intros i4 Hi4. unfold on_queues. apply wp_on_app. wp_step.
    eapply wp_conseq; [apply QueueSpec.enqueue_effect; [apply HA|]|].
    { rewrite Hq. by eapply (send_enqueue_pre T d cr to tok ty ct s i). }
    cbn beta. intros r q i5 (Hi5 & Hqi & _ & Hr). rewrite Hq in Hr. cbn beta iota zeta.
    assert (io_later i i5) as Hi by (do 2 (etrans; [done|]); done).
    destruct r as [e|n]; cbn beta iota; apply Hmark; try done; [|by eexists].
    destruct Hr as [Hnq Heq]. split; [|exact Heq]. intros Hqu. apply Hnq. eapply quiet_later; [|exact Hqu]. etrans; [exact Hi3|exact Hi4].
  - intros i4 Hi4 Hnq. cbn beta iota zeta. apply (Hmark _ _ false); [by etrans|done..|].
    split; [|by rewrite Hq]. intros Hqu. apply Hnq. by eapply quiet_later.
Qed.

(** What a send leaves: the frame its destination's live route accepted, the
    answer, and the queue. *)
Definition send_outcome s i s' (cr : option string) (to : string) (env : StoredEnvelope) (refusal : option string) : Prop :=
  ∃ live_log own_log fr, sent s' = sent s ++ live_log ++ own_log ∧ answered s i own_log fr ∧
    match refusal with
    | Some code => live_log = [] ∧ queues (app s') = queues (app s) ∧ ∃ message, fr = send_err cr code message
    | None => ∃ live, delivered s i to env live live_log ∧ stored_and_answered s i s' cr to env live fr
    end.

Lemma refuse_send s i cr to env code message s1 i1 :
  io_later i i1 → conn s1 = conn s → sent s1 = sent s → queues (app s1) = queues (app s) →
  wp (E := E) (reply (send_err cr code message)) (λ r s' _, r = inr Continue ∧ send_outcome s i s' cr to env (Some code)) s1 i1.
Proof.
  intros Hi Hc Hs Hq. apply (wp_answer s i); [done..|]. intros s' i' l _ Ha _ Hl Hans. split; [done|].
  exists [], l, (send_err cr code message). rewrite Hl, Hs, Ha. split_and!; try done. by exists message.
Qed.

Lemma finish_send T d cr to tok ty ct s i (live : bool) l s3 i3 :
  let f := SendEnvelope cr to tok ty ct in
  let env := {| env_id := draw_uuid d; env_to := to; envelope_type := ty; ciphertext := ct |} in
  SessionInv s → frame_pre T d f s i → valid_recipient_id to = true →
  io_later i i3 → conn s3 = conn s → AppInv (app s3) → queues (app s3) = queues (app s) →
  sent s3 = sent s ++ l → delivered s i to env live l →
  wp (queue_envelope cr to env live) (λ (r : E + Flow) s' _, r = inr Continue ∧ send_outcome s i s' cr to env None) s3 i3.
Proof.
  intros f env HI Hpre Hto Hi3 Hc3 HA3 Hq3 Hs3 Hd. eapply (wp_queue_envelope T d cr to tok ty ct s i live); [done..|].
  intros fr k s' i' Hst Hk Hans. split; [done|]. exists l, k, fr. split; [by rewrite Hk, Hs3, app_assoc|].
  split; [done|]. by exists live.
Qed.

Lemma AppInv_sending s to a e ok now now' :
  AppInv (app s) → mailbox_auth (app s) !! to = Some a → rate_step now (send_rate (app s) !! to) = (e, ok) →
  let s1 := set_mailbox_auth (<[to := touch now' a]> (mailbox_auth (app s))) (app s) in
  AppInv (set_send_rate (<[to := e]> (send_rate s1)) s1).
Proof.
  intros HI Ha Hr s1. pose proof (keeps_touched ∅ (λ _, True) (λ _, True) 0 (app s) to a now' HI I Ha) as H1.
  assert (AppInv s1) as HI1 by by apply (k_inv _ _ _ _ _ _ H1).
  apply (k_inv ∅ (λ _, True) (λ _, True) 0 s1); [|done]. by eapply keeps_allowed.
Qed.

Lemma send_wp T d cr to tok ty ct s i :
  let f := SendEnvelope cr to tok ty ct in
  let env := {| env_id := draw_uuid d; env_to := to; envelope_type := ty; ciphertext := ct |} in
  SessionInv s → frame_pre T d f s i →
  wp (E := E) (on_send_envelope (draw_uuid d) cr to tok ty ct) (λ r s' _, r = inr Continue
    ∧ send_outcome s i s' cr to env (send_refusal s to tok ty (next_now (clock_tick i)))) s i.
Proof.
  intros f env HI Hpre. unfold send_refusal. unfold on_send_envelope.
  destruct (negb (valid_recipient_id to) || negb (valid_token tok)) eqn:Hv; [by apply refuse_send|].
  apply orb_false_iff in Hv as [Hto%negb_false_iff _].
  destruct (32 <? slen ty); [by apply refuse_send|].
  wp_step. apply wp_on_app. apply wp_authorize.
  { intros Hn. replace (set_app (app s) s) with s by by destruct s. cbn beta iota. cbn [negb]. cbn beta iota.
    destruct (mailbox_auth (app s) !! to) as [a|]; [rewrite (Hn a eq_refl); cbn [negb]; cbn beta iota|]; by apply refuse_send. }
  intros a Ha Hacc. rewrite Ha, Hacc. cbn [negb]. cbn beta iota. set (s1 := set_app _ s).
  wp_step. apply wp_on_app. apply wp_allow. intros e ok Hrate. cbn beta iota. set (s2 := set_app _ s1).
  change (send_rate (app s1) !! to) with (send_rate (app s) !! to) in Hrate. rewrite Hrate. cbn [snd].
  assert (io_later i (clock_tick (clock_tick i))) as Hi2 by (etrans; apply tick_later).
  pose proof (AppInv_sending s to a e ok _ (next_activity i) (si_app _ HI) Ha Hrate) as HA2.
  destruct ok; cbn [negb]; cbn beta iota; [|by apply refuse_send].
  cbv zeta. fold env. wp_step. unfold deliver_live. do 2 wp_step. change (online (app s2)) with (online (app s)).
  destruct (online (app s) !! to) as [chan|] eqn:Hon.
  - wp_step. apply wp_try_send.
    + intros i3 Hi3. wp_step. cbn beta iota.
      apply (finish_send T d cr to tok ty ct s i true [(chan, Envelope env)]); try done; [by etrans|]. by exists chan.
    + intros i3 Hi3 Hc3. wp_step. apply wp_on_app. wp_step. wp_step. cbn beta iota.
      apply (finish_send T d cr to tok ty ct s i false []); try done; [by etrans|by apply AppInv_online|by rewrite app_nil_r|].
      split; [done|]. right. intros Ho. apply Hc3. by eapply channels_open_later.
  - wp_step. cbn beta iota. apply (finish_send T d cr to tok ty ct s i false []); try done; [by rewrite app_nil_r|]. split; [done|by left].
Qed.
(** C25. A send is refused exactly by the decision table (format, envelope type, delivery token,
    rate), with its code and without touching any queue; otherwise the live route of the
    destination gets the envelope if it accepts it, the durable copy is appended behind the
    newest messages unless the global cap is reached or a database call fails, and SendOk is
    answered only when the envelope was accepted live or stored, with queued telling which. *)
Theorem send_is_decided T d cr to tok ty ct s i :
  let f := SendEnvelope cr to tok ty ct in
  let env := {| env_id := draw_uuid d; env_to := to; envelope_type := ty; ciphertext := ct |} in
  SessionInv s → frame_pre T d f s i →
  wp (E := E) (on_frame d f) (λ r s' _, r = inr Continue
    ∧ send_outcome s i s' cr to env (send_refusal s to tok ty (next_now (clock_tick i)))) s i.
Proof. intros f env HI Hpre. by apply (send_wp T). Qed.
End Props.

(** ** Witnesses *)

Section FrameWitnesses.
#[local] Existing Instances gmap_redb unary_uuid demo_signal demo_hashing demo_base64 demo_json QueueProps.demo_serde
  FileProps.meta_serde auth_serde bundle_serde.

Lemma frame_keeps_relay_witness :
  wp (E := ()) (on_frame demo_draws demo_send) (λ _ s' _, SessionInv s' ∧ Coherent (app s')) stranger at_ten.
Proof.
  eapply wp_conseq; [exact (frame_keeps_relay 100 demo_draws demo_send stranger at_ten stranger_inv (demo_frame_pre demo_send stranger eq_refl ltac:(by vm_compute)))|].
  intros r s' i' (_ & HI & HC & _). split; [done|]. apply HC, Coherent_demo.
Defined.

Lemma frame_touches_only_its_own_witness :
  ¬ touches demo_send stranger at_ten other_rid
  ∧ wp (E := ()) (on_frame demo_draws demo_send) (λ _ s' _, same_mailbox other_rid demo_state (app s')) stranger at_ten.
Proof.
  assert (¬ touches demo_send stranger at_ten other_rid) as Hn by (intros [H _]; done).
  split; [done|].
  eapply wp_conseq; [exact (frame_touches_only_its_own 100 demo_draws demo_send stranger at_ten stranger_inv (demo_frame_pre demo_send stranger eq_refl ltac:(by vm_compute)))|].
  intros r s' i' (H & _). by apply H.
Defined.

Lemma frames_reach_their_addressee_witness :
  wp (E := ()) (on_frame demo_draws demo_send) (λ _ s' _, ∀ chan env, (chan, Envelope env) ∈ sent s' → touches demo_send stranger at_ten (env_to env)) stranger at_ten.
Proof.
  eapply wp_conseq; [exact (frames_reach_their_addressee 100 demo_draws demo_send stranger at_ten stranger_inv (demo_frame_pre demo_send stranger eq_refl ltac:(by vm_compute)))|].
  intros r s' i' (l & Hl & H) chan env Hin. rewrite Hl in Hin. by destruct (H _ _ Hin).
Defined.

Lemma send_is_decided_witness :
  send_refusal stranger demo_rid "send_aaaaaaaaaaa" "msg" 10 = None
  ∧ wp (E := ()) (on_frame demo_draws demo_send) (λ r s' _, r = inr Continue
      ∧ send_outcome stranger at_ten s' (Some "ref"%string) demo_rid
          {| env_id := 7%nat; env_to := demo_rid; envelope_type := "msg"; ciphertext := "c1" |} None) stranger at_ten.
Proof.
  split; [by vm_compute|].
  assert (send_refusal stranger demo_rid "send_aaaaaaaaaaa" "msg" (next_now (clock_tick at_ten)) = None) as Hr by by vm_compute.
  rewrite <- Hr.
  exact (send_is_decided 100 demo_draws (Some "ref"%string) demo_rid "send_aaaaaaaaaaa" "msg" "c1" stranger at_ten stranger_inv
    (demo_frame_pre demo_send stranger eq_refl ltac:(by vm_compute))).
Defined.
End FrameWitnesses.
