(* ===== verification/WsHello.v ===== *)
(** Hello, delivery tokens and sender certificates: who is let in, what a
    connection is sent first, and whom a certificate can name. *)
From Stdlib Require Import ZArith Lia Ascii String.
From stdpp Require Import base gmap strings list.
From S2P Require Import Prelude Redb RustStd Config Util Protocol Mailbox Signal State StateFacts StateOps StateProps.
From S2P Require Import Ws WsFacts WsRuns WsFrames WsDemo WsProps.
From S2P Require QueueStore.
From S2P Require QueueFacts.
From S2P Require QueueRuns.
From S2P Require QueueSpec.
From S2P Require FileStore.

Section Hello.
Context {RD : Redb} {UL : UuidLib} {LS : LibSignal} {HS : Hashing} {B6 : Base64} {JS : Json}.
Context {SV : Serde QueueStore.StoredValue} {SM : Serde FileStore.FileMeta}.
Context {SA : Serde MailboxAuth} {SB : Serde HostedBundle}.
Implicit Types (s : Session) (rid m id : string) (f : ClientFrame).
Context {E : Type}.

(** ** Refusals *)

(** A reply depends on the channel alone. *)
Definition after_reply (fr : ServerFrame) s i : Session :=
  if hd false (io_send i) then s else logged (tx (conn s)) [fr] s.

Lemma wp_reply_exact fr s i i0 (Q : E + Flow → Session → io → Prop) :
  io_send i = io_send i0 → (∀ i', Q (inr Continue) (after_reply fr s i0) i') → wp (reply fr) Q s i.
Proof.
  intros Hi H. unfold reply, try_send, after_reply in *. do 4 wp_step. unfold wp at 1, send_ok. rewrite <- Hi in H.
  destruct i as [fa it cl [|[] r]]; cbn -[wp mbind] in *; wp_steps; apply H.
Qed.

Lemma hello_turned_away rid atok dtok pmin pmax pver pow co s i selected :
  negotiate pmin pmax pver = Some selected →
  valid_recipient_id rid = true → valid_token atok = true → valid_token dtok = true →
  turned_away rid (token_hash atok) pow (app s) i →
  wp (E := E) (on_hello rid atok dtok pmin pmax pver pow co)
    (λ r s' _, r = inr Continue ∧ s' = after_reply hello_rejected s i) s i.
Proof.
  intros Hneg Hr Ha Hd Haway. unfold on_hello. rewrite Hneg, Hr, Ha, Hd. cbn [negb orb]. cbn beta iota.
  wp_step. apply wp_on_app. unfold enter_mailbox, turned_away in *. do 2 wp_step.
  destruct (mailbox_auth (app s) !! rid) as [a|].
  - rewrite (proj2 (ct_eq_false _ _)) by done. cbn [negb]. cbn beta iota. wp_step.
    replace (set_app (app s) s) with s by by destruct s. by apply (wp_reply_exact _ _ _ i).
  - wp_step. apply wp_pow_exact. intros i1 Hi1. rewrite Haway. cbn [negb]. cbn beta iota. wp_step.
    replace (set_app (app s) s) with s by by destruct s. apply (wp_reply_exact _ _ _ i); [by destruct Hi1 as [->| ->]|done].
Qed.

(** A Hello for a registered mailbox with a wrong token and one for a free mailbox without
    a valid proof of work produce the same frames and the same connection, and neither changes
    the shared state: the answer does not tell whether the mailbox exists. *)
Theorem hello_refusals_are_alike rid atok dtok pmin pmax pver pow co s1 s2 i selected :
  negotiate pmin pmax pver = Some selected →
  valid_recipient_id rid = true → valid_token atok = true → valid_token dtok = true →
  conn s1 = conn s2 → sent s1 = sent s2 →
  turned_away rid (token_hash atok) pow (app s1) i → turned_away rid (token_hash atok) pow (app s2) i →
  wp (E := E) (on_hello rid atok dtok pmin pmax pver pow co) (λ r1 s1' _,
    wp (E := E) (on_hello rid atok dtok pmin pmax pver pow co) (λ r2 s2' _,
      r1 = r2 ∧ sent s1' = sent s2' ∧ conn s1' = conn s2' ∧ app s1' = app s1 ∧ app s2' = app s2) s2 i) s1 i.
Proof.
  intros Hneg Hr Ha Hd Hc Hs H1 H2. eapply wp_conseq; [by eapply hello_turned_away|]. cbn beta.
  intros r1 s1' _ [-> ->]. eapply wp_conseq; [by eapply hello_turned_away|]. cbn beta.
  intros r2 s2' _ [-> ->]. unfold after_reply. destruct (hd false (io_send i)); [done|].
  unfold logged. simpl. by rewrite Hs, Hc.
Qed.

(** ** Admission *)









(** ** Certificates and tokens *)

(** A handler that only replies. *)
Lemma wp_only_reply (fr : ServerFrame) s s1 i1 (Q : E + Flow → Session → io → Prop) :
  app s1 = app s → conn s1 = conn s → sent s1 = sent s →
  (∀ s' i' l, app s' = app s → conn s' = conn s → sent s' = sent s ++ l →
     (∀ chan c, (chan, c) ∈ l → chan = tx (conn s) ∧ c = fr) → Q (inr Continue) s' i') →
  wp (reply fr) Q s1 i1.
Proof.
  intros Ha Hc Hs HQ. apply wp_reply. intros l i' _ Hl.
  apply (HQ _ _ ((λ fr, (tx (conn s), fr)) <$> l)); [done|done|simpl; by rewrite Hs, Hc|].
  intros chan c (fr' & [= -> ->] & Hin)%list_elem_of_fmap. split; [done|].
  destruct Hl as [->|[-> _]]; [by apply list_elem_of_singleton in Hin|by apply not_elem_of_nil in Hin].
Qed.

(** A sender certificate is issued only for the mailbox the connection is registered for:
    it decodes to a certificate that names that mailbox, carries the given public key and
    expires after SENDER_CERT_TTL_MS; the shared state does not change. *)
Theorem certificate_names_its_owner rng req uuid dev key s i :
  wp (E := E) (on_issue_sender_certificate rng req uuid dev key) (λ r s' _,
    r = inr Continue ∧ app s' = app s ∧ conn s' = conn s ∧ ∃ l, sent s' = sent s ++ l
    ∧ ∀ chan rq c root exp, (chan, Protocol.SenderCertificate rq c root exp) ∈ l →
        chan = tx (conn s) ∧ rq = req ∧ recipient_id (conn s) = Some uuid ∧ valid_recipient_id uuid = true
        ∧ root = trust_root_public_b64 (crypto (app s)) ∧ exp = next_now i +^ SENDER_CERT_TTL_MS
        ∧ ∃ cert bytes key_bytes, b64_decode c = Some bytes ∧ sender_certificate_serialized cert = inr bytes
            ∧ cert_sender_uuid cert = uuid ∧ cert_expiration cert = exp
            ∧ b64_decode key = Some key_bytes ∧ public_key_deserialize key_bytes = inr (cert_key cert)) s i.
Proof.
  unfold on_issue_sender_certificate. do 2 wp_step.
  destruct (recipient_id (conn s)) as [rid|] eqn:Hrid.
  2:{ apply (wp_only_reply _ s); [done..|]. intros s' i' l ? ? ? Hl. split_and!; [done..|]. exists l. split; [done|].
      by intros ????? [_ ?]%Hl. }
  destruct (bool_decide (uuid = rid)) eqn:Hown; cbn [negb]; cbn beta iota.
  2:{ apply (wp_only_reply _ s); [done..|]. intros s' i' l ? ? ? Hl. split_and!; [done..|]. exists l. split; [done|].
      by intros ????? [_ ?]%Hl. }
  apply bool_decide_eq_true in Hown as ->. do 2 wp_step. eapply wp_conseq; [apply issue_wp|]. cbn beta.
  intros [e|fr] s' i' (-> & Hi & Hr); cbn beta iota.
  { apply (wp_only_reply _ s); [done..|]. intros s' i2 l ? ? ? Hl. split_and!; [done..|]. exists l. split; [done|].
    by intros ????? [_ ?]%Hl. }
  destruct Hr as (kb & k & rn & dn & cert & cb & Hkb & Hk & _ & _ & _ & _ & Hv & Hc & Hser & ->).
  apply sender_certificate_new_fields in Hc as (Hu & Hck & Hex).
  apply (wp_only_reply _ s); [done..|]. intros s' i2 l ? ? ? Hl. split_and!; [done..|]. exists l. split; [done|].
  intros chan rq c root exp Hin. apply Hl in Hin as [-> [= -> -> -> ->]]. split_and!; try done.
  exists cert, cb, kb. rewrite b64_decode_encode, Hk, Hck. by split_and!.
Qed.

(** Setting delivery tokens replaces the whole allowlist: afterwards exactly the given
    tokens are accepted, the owner's hash is unchanged and the record is dirty; an empty, too
    long or malformed list changes nothing. *)
Theorem set_tokens_replaces_allowlist req tokens s i rid a :
  recipient_id (conn s) = Some rid → mailbox_auth (app s) !! rid = Some a →
  wp (E := E) (on_set_delivery_tokens req tokens) (λ r s' _, r = inr Continue ∧ ∃ l fr,
    sent s' = sent s ++ l ∧ answered s i l fr ∧
    if decide (tokens ≠ [] ∧ (length tokens ≤ MAX_DELIVERY_TOKENS_PER_MAILBOX)%nat ∧ Forall (λ t, valid_token t = true) tokens) then
      ∃ a', mailbox_auth (app s') = <[rid := a']> (mailbox_auth (app s)) ∧ rid ∈ dirty_auth (app s')
        ∧ receive_auth_hash a' = receive_auth_hash a
        ∧ (∀ h, accepts_delivery_hash a' h = true ↔ h ∈ token_hash <$> tokens)
        ∧ fr = DeliveryTokensSet req (Z.of_nat (length (delivery_token_hashes a')))
    else app s' = app s ∧ fr = err "bad_tokens" "invalid delivery-token allowlist") s i.
Proof.
  intros Hrid Ha. unfold on_set_delivery_tokens. do 2 wp_step. rewrite Hrid.
  assert (forallb valid_token tokens = true ↔ Forall (λ t, valid_token t = true) tokens) as Hall.
  { rewrite forallb_forall, Forall_forall. by setoid_rewrite list_elem_of_In. }
  destruct (decide (tokens ≠ [] ∧ (length tokens ≤ MAX_DELIVERY_TOKENS_PER_MAILBOX)%nat ∧ Forall (λ t, valid_token t = true) tokens))
    as [(Hne & Hlen & Hv)|Hbad].
  2:{ destruct (bool_decide (tokens = []) || _ || _) eqn:Hb.
      2:{ rewrite !orb_false_iff, negb_false_iff, bool_decide_eq_false, Nat.ltb_ge in Hb. destruct Hb as [[? ?] ?%Hall]. by destruct Hbad. }
      apply (wp_answer s i); [done..|]. intros s' i' l _ Happ _ Hl Hans. split; [done|]. exists l. eexists. by split_and!. }
  apply Hall in Hv. rewrite Hv, bool_decide_eq_false_2, (proj2 (Nat.ltb_ge _ _)) by done. cbn [negb orb]. cbn beta iota.
  rewrite Ha. cbv zeta. wp_step. apply wp_on_app. wp_step. wp_step. apply wp_on_app. unfold mark_auth_dirty. wp_step.
  apply (wp_answer s i); [done..|]. intros s' i' l _ Happ _ Hl Hans. split; [done|]. exists l. eexists. split; [done|]. split; [exact Hans|].
  exists (replace_delivery_hashes (token_hash <$> tokens) a). rewrite Happ. simpl. split_and!; try done.
  - by apply elem_of_union_l, elem_of_singleton.
  - intros h. rewrite replace_accepts by (destruct tokens; done). rewrite take_ge; [done|]. by rewrite length_fmap.
Qed.
End Hello.

(** ** Witnesses *)

Section HelloWitnesses.
#[local] Existing Instances gmap_redb unary_uuid demo_signal demo_hashing demo_base64 demo_json QueueProps.demo_serde
  FileProps.meta_serde auth_serde bundle_serde.

(** The same relay without [demo_rid]. *)
Definition without_demo : Session :=
  {| app := set_mailbox_auth ∅ (set_mailbox_count 0 demo_state); conn := conn stranger; sent := [] |}.

Lemma hello_refusals_are_alike_witness :
  wp (E := ()) (on_hello demo_rid "auth_bbbbbbbbbbb" "send_aaaaaaaaaaa" None None None None false) (λ r1 s1' _,
    wp (E := ()) (on_hello demo_rid "auth_bbbbbbbbbbb" "send_aaaaaaaaaaa" None None None None false) (λ r2 s2' _,
      sent s1' = sent s2') without_demo at_ten) stranger at_ten.
Proof.
  eapply wp_conseq.
  - apply (hello_refusals_are_alike demo_rid "auth_bbbbbbbbbbb" "send_aaaaaaaaaaa" None None None None false
      stranger without_demo at_ten 7); by vm_compute.
  - cbn beta. intros r1 s1' i1 H. eapply wp_conseq; [exact H|]. by intros r2 s2' i2 (_ & ? & _).
Defined.


Lemma set_tokens_replaces_allowlist_witness :
  wp (E := ()) (on_set_delivery_tokens "req" ["send_ccccccccccc"]) (λ _ s' _,
    ∃ a', mailbox_auth (app s') !! demo_rid = Some a' ∧ accepts_delivery_hash a' (token_hash "send_ccccccccccc") = true)
    demo_session at_ten.
Proof.
  eapply wp_conseq; [exact (set_tokens_replaces_allowlist "req" ["send_ccccccccccc"] demo_session at_ten demo_rid demo_auth eq_refl eq_refl)|].
  cbn beta. intros r s' i' (_ & l & fr & _ & _ & H). rewrite decide_True in H.
  - destruct H as (a' & Ha & _ & _ & Hacc & _). exists a'. rewrite Ha, lookup_insert_eq. split; [done|]. apply Hacc. left.
  - split_and!; [done|vm_compute; lia|]. by constructor.
Defined.
End HelloWitnesses.
