(* ===== verification/WsStores.v ===== *)
(** Bundles, transfers and queues as a connection sees them: what an answer
    promises about the shared state. *)
From Stdlib Require Import ZArith Lia Ascii String.
From stdpp Require Import base gmap strings list.
From S2P Require Import Prelude Redb RustStd Config Util Protocol Mailbox Signal State StateFacts StateOps StateProps.
From S2P Require Import Ws WsFacts WsRuns WsFrames WsDemo WsProps WsHello.
From S2P Require QueueStore.
From S2P Require QueueFacts.
From S2P Require QueueRuns.
From S2P Require QueueSpec.
From S2P Require FileStore.
From S2P Require FileFacts.
From S2P Require FileWrites.
From S2P Require FileRemovals.

Section Stores.
Context {RD : Redb} {UL : UuidLib} {LS : LibSignal} {HS : Hashing} {B6 : Base64} {JS : Json}.
Context {SV : Serde QueueStore.StoredValue} {SM : Serde FileStore.FileMeta}.
Context {SA : Serde MailboxAuth} {SB : Serde HostedBundle}.
Implicit Types (s : Session) (rid m id : string) (f : ClientFrame).
Context {E : Type}.

(** ** Invite bundles *)

(** Why [id] may be answered as uploaded until [e]. *)
Definition hosted (T : Z) id (ct : string) (exp : Z) (pow : option string) (e : Z) s i s' : Prop :=
  valid_bundle_id id = true ∧ slen ct ≤ MAX_BUNDLE_BYTES ∧ pow_given pow id i = true
  ∧ ∃ b, bundles (app s') !! id = Some b ∧ bundle_ciphertext b = ct ∧ bundle_expires_at_ms b = e
    ∧ (bundles (app s) !! id = Some b
       ∨ id ∈ dirty_bundles (app s')
         ∧ ∃ now, now ≤ T ∧ b = new_bundle now id ct exp ∧ now +^ 60000 ≤ e ≤ now +^ MAX_BUNDLE_TTL_MS).

Lemma no_upload_answer T id ct exp pow s i (fr : ServerFrame) s1 i1 :
  sent s1 = sent s → conn s1 = conn s → (∀ rq bid e, fr = BundleUploaded rq bid e → hosted T id ct exp pow e s i s1) →
  wp (E := E) (reply fr) (λ r s' _, r = inr Continue ∧ ∃ l, sent s' = sent s ++ l
    ∧ ∀ chan rq bid e, (chan, BundleUploaded rq bid e) ∈ l → hosted T id ct exp pow e s i s') s1 i1.
Proof.
  intros Hs Hc Hfr. apply (wp_only_reply _ s1); [done..|]. intros s' i' l Ha _ Hl Hin. split; [done|].
  exists l. rewrite Hl, Hs. split; [done|]. intros chan rq bid e He. apply Hin in He as [_ <-].
  unfold hosted in *. rewrite Ha. by eapply Hfr.
Qed.

Lemma pruned_Some a' now (a : AppState) id b :
  a' = a ∨ a' = pruned now a → bundles a' !! id = Some b → bundles a !! id = Some b.
Proof. intros [->| ->]; [done|]. simpl. by intros [? _]%map_lookup_filter_Some. Qed.

(** BundleUploaded is answered only for a valid id and size with a valid proof of work, and
    then the bundle is hosted with that ciphertext until the answered time: it was already
    there, or it is new, marked dirty, and expires between one minute and thirty days from now.
    *)
Theorem uploaded_bundle_is_hosted T d req id ct exp pow s i :
  let f := UploadBundle req id ct exp pow in
  SessionInv s → frame_pre T d f s i →
  wp (E := E) (on_frame d f) (λ r s' _, r = inr Continue ∧ ∃ l, sent s' = sent s ++ l
    ∧ ∀ chan rq bid e, (chan, BundleUploaded rq bid e) ∈ l → hosted T id ct exp pow e s i s') s i.
Proof.
  intros f HI Hpre. cbn [on_frame f]. unfold on_upload_bundle. pose proof (sofar_start T f s i ∅) as Hp.
  destruct (_ || _) eqn:Hbad; [by apply no_upload_answer|]. apply orb_false_iff in Hbad as [Hid%negb_false_iff Hct%Z.ltb_ge].
  wp_step. apply wp_pow. intros i1 Hi1. cbn beta iota.
  destruct (pow_given pow id i) eqn:Hpow; cbn [negb]; cbn beta iota; [|by apply no_upload_answer].
  wp_step. apply (prune_pass T d f s i HI Hpre ∅); [by eapply passes_later|]. intros a' Hp2 Ha'. cbn beta iota.
  wp_step. apply wp_now_ms. cbn beta iota. do 2 wp_step. set (i2 := clock_tick i1) in *. set (s2 := set_app a' s) in *.
  pose proof (sofar_inv T f s i HI ∅ s2 i2 Hp2) as HA.
  destruct (existing_reply _ req id ct (bundles (app s2) !! id)) as [fr|] eqn:Hex.
  { apply no_upload_answer; [done..|]. intros rq bid e ->. unfold existing_reply in Hex.
    destruct (bundles (app s2) !! id) as [b|] eqn:Hb; [|done]. destruct (_ <=? _); [done|].
    case_bool_decide as Hsame; [|done]. simplify_eq. split_and!; [done..|]. exists b. split_and!; [done..|].
    left. by eapply pruned_Some. }
  wp_step; [by apply no_upload_answer|]. wp_step; [by apply no_upload_answer|].
  match goal with H : (MAX_TOTAL_BUNDLE_BYTES <? _) = false |- _ => apply Z.ltb_ge in H; rename H into Hbytes end.
  wp_step. apply wp_now_ms. cbn beta iota. wp_step. apply wp_on_app. apply wp_insert_bundle; [done| |].
  { unfold sat_add, u64_max, MAX_TOTAL_BUNDLE_BYTES in *. lia. }
  cbv zeta. cbn beta iota. set (now := next_now (clock_tick i2)).
  assert (now ≤ T) as Hnow.
  { refine (proj2 (sofar_clock T d f s i Hpre ∅ s2 (clock_tick i2) _)). eapply passes_later; [done|apply tick_later]. }
  apply no_upload_answer; [done..|]. intros rq bid e [= _ <- <-]. split_and!; [done..|].
  exists (new_bundle now id ct exp). split; [apply lookup_insert_eq|]. split_and!; [done..|]. right.
  split; [by apply elem_of_union_l, elem_of_singleton|]. exists now. split_and!; [done..| |]; simpl; [lia|].
  unfold sat_add, u64_max, MAX_BUNDLE_TTL_MS. lia.
Qed.

(** The answer to a fetch at [now]. *)
Definition bundle_answer (req id : string) (now : Z) (o : option HostedBundle) : ServerFrame :=
  match o with
  | Some b =>
      if now <? bundle_expires_at_ms b then Bundle req id (bundle_ciphertext b) (bundle_expires_at_ms b)
      else err "bundle_not_found" "invite bundle was not found or has expired"
  | None => err "bundle_not_found" "invite bundle was not found or has expired"
  end.

(** Pruning at an earlier time does not change it. *)
Lemma bundle_answer_pruned req id now now0 (a a' : AppState) :
  now0 ≤ now → a' = a ∨ a' = pruned now0 a →
  bundle_answer req id now (bundles a' !! id) = bundle_answer req id now (bundles a !! id).
Proof.
  intros Hle Ha'. unfold bundle_answer. destruct (bundles a !! id) as [b|] eqn:Hb.
  - destruct (Z.ltb_spec now (bundle_expires_at_ms b)) as [Hlive|Hdead].
    + assert (bundles a' !! id = Some b) as ->.
      { destruct Ha' as [->| ->]; [done|]. simpl. apply map_lookup_filter_Some. split; [done|]. simpl. lia. }
      by rewrite (proj2 (Z.ltb_lt _ _) Hlive).
    + destruct (bundles a' !! id) as [b'|] eqn:Hb'; [|done].
      eapply pruned_Some in Hb'; [|done]. simplify_eq. by rewrite (proj2 (Z.ltb_ge _ _) Hdead).
  - destruct (bundles a' !! id) as [b'|] eqn:Hb'; [|done]. eapply pruned_Some in Hb'; [|done]. congruence.
Qed.

(** A fetch answers with the hosted ciphertext exactly while it has not expired, and not
    found otherwise, whether or not the expired bundles are pruned first. *)
Theorem fetch_bundle_is_exact req id s i :
  AppInv (app s) → next_now i ≤ next_now (clock_tick i) →
  wp (E := E) (on_fetch_bundle req id) (λ r s' _, r = inr Continue ∧ ∃ l, sent s' = sent s ++ l
    ∧ answered s i l (bundle_answer req id (next_now (clock_tick i)) (bundles (app s) !! id))) s i.
Proof.
  intros HI Hmono. unfold on_fetch_bundle. wp_step. apply wp_on_app.
  assert (∀ a', a' = app s ∨ a' = pruned (next_now i) (app s) →
    wp (now ← now_ms;
        s ← get;
        let not_found := reply (err "bundle_not_found" "invite bundle was not found or has expired") in
        match bundles (app s) !! id with
        | Some bundle =>
            if now <? bundle_expires_at_ms bundle then
              reply (Bundle req (bundle_key bundle) (bundle_ciphertext bundle) (bundle_expires_at_ms bundle))
            else not_found
        | None => not_found
        end) (λ (r : E + Flow) s' _, r = inr Continue ∧ ∃ l, sent s' = sent s ++ l
      ∧ answered s i l (bundle_answer req id (next_now (clock_tick i)) (bundles (app s) !! id))) (set_app a' s) (clock_tick i)) as Hend.
  { intros a' Ha'. rewrite <- (bundle_answer_pruned req id _ (next_now i) (app s) a') by done.
    wp_step. apply wp_now_ms. cbn beta iota zeta. do 2 wp_step. cbn [app set_app].
    assert (∀ fr, wp (E := E) (reply fr) (λ r s' _, r = inr Continue ∧ ∃ l, sent s' = sent s ++ l ∧ answered s i l fr)
      (set_app a' s) (clock_tick (clock_tick i))) as Hr.
    { intros fr. apply (wp_answer s i); [etrans; apply tick_later|done|]. intros s' i' l _ _ _ Hl Hans. split; [done|]. by exists l. }
    unfold bundle_answer. destruct (bundles a' !! id) as [b|] eqn:Hb; [|apply Hr].
    destruct (_ <? _); [|apply Hr]. eapply pruned_Some in Hb; [|done]. rewrite (ai_bundles _ HI _ _ Hb). apply Hr. }
  apply prune_wp; [done|intros _ _|]; cbn beta iota; apply Hend; [by left|by right].
Qed.

(** ** Transfers *)

(** An upload creates a transfer only as its chunk 0, with a valid proof of work for its
    id, and within the operator's file limit. *)
Theorem new_transfer_needs_pow T d req id idx tc tb ct pow s i :
  let f := UploadFileChunk req id idx tc tb ct pow in
  SessionInv s → frame_pre T d f s i → FileFacts.metas (files (app s)) !! id = None →
  wp (E := E) (on_frame d f) (λ _ s' _, is_Some (FileFacts.metas (files (app s')) !! id) →
    idx = 0 ∧ pow_given pow id i = true ∧ tb ≤ max_file_bytes (FileStore.config (files (app s)))) s i.
Proof.
  intros f HI Hpre Hnone. cbn [on_frame f]. unfold on_upload_file_chunk.
  assert (∀ fr s1 i1 (G : Prop), files (app s1) = files (app s) →
    wp (E := E) (reply fr) (λ _ s' _, is_Some (FileFacts.metas (files (app s')) !! id) → G) s1 i1) as Hno.
  { intros fr s1 i1 G Hf. apply (wp_only_reply _ s1); [done..|]. intros s' i' l Ha _ _ _. rewrite Ha, Hf, Hnone. by intros [? ?]. }
  destruct (valid_bundle_id id) eqn:Hid; cbn [negb]; cbn beta iota; [|by apply Hno].
  destruct (b64_decode ct) as [raw|] eqn:Hraw; [|by apply Hno].
  pose proof (upload_store_pre T d req id idx tc tb ct pow s i raw HI Hpre Hid Hraw) as Hstore.
  assert (∀ i1 (G : Prop), (idx = 0 → tb ≤ max_file_bytes (FileStore.config (files (app s))) → G) →
    wp (E := E) (result ← spawn_blocking (on_files (FileStore.store_chunk id idx tc tb raw));
          match result with
          | Some (inr stored) =>
              reply (FileChunkStored req id idx (FileStore.sc_received_chunks stored) (FileStore.sc_total_chunks stored))
          | Some (inl reject) => reply (file_err req id (FileStore.code reject) (FileStore.message reject))
          | None => reply (file_err req id "relay_full" "could not store file chunk")
          end) (λ _ s' _, is_Some (FileFacts.metas (files (app s')) !! id) → G) s i1) as Hend.
  { intros i1 G HG. wp_step. apply wp_spawn; [|by intros; apply Hno].
    intros i2 Hi2. unfold on_files. apply wp_on_app. wp_step.
    eapply wp_conseq; [apply FileWrites.store_chunk_wp; [apply HI|done]|]. cbn beta.
    intros [e|sc] q i3 [Hi3 Hr]; cbn beta iota zeta; [destruct Hr as [-> _]; by apply Hno|].
    destruct Hr as (Hv & _ & _). unfold FileFacts.verdict in Hv. rewrite Hnone in Hv.
    apply (wp_only_reply _ _ _ _ _ eq_refl eq_refl eq_refl). intros s' i' l _ _ _ _ _.
    destruct (_ || _) eqn:Hsh in Hv; [done|]. destruct (_ || _) eqn:Hsz in Hv; [done|].
    destruct (negb (idx =? 0)) eqn:Hidx in Hv; [done|].
    apply orb_false_iff in Hsz as [_ Hsz%Z.ltb_ge]. apply HG; [|done]. by apply negb_false_iff, Z.eqb_eq in Hidx. }
  wp_step. destruct (Z.eqb_spec idx 0) as [->|Hidx].
  - apply wp_pow. intros i1 Hi1. cbn beta iota. destruct (pow_given pow id i); cbn [negb]; cbn beta iota; [|by apply Hno].
    apply Hend. by intros.
  - wp_step. cbn [negb]. cbn beta iota. apply Hend. by intros.
Qed.
End Stores.

(** ** Witnesses *)

Section StoreWitnesses.
#[local] Existing Instances gmap_redb unary_uuid demo_signal demo_hashing demo_base64 demo_json QueueProps.demo_serde
  FileProps.meta_serde auth_serde bundle_serde.

Lemma uploaded_bundle_is_hosted_witness :
  sent (on_frame (E := ()) demo_draws demo_upload stranger at_ten).1.2 = [(2%nat, BundleUploaded "req" "bundle_bbbbbbbbb" 60010)]
  ∧ wp (E := ()) (on_frame demo_draws demo_upload) (λ r s' _, r = inr Continue) stranger at_ten.
Proof.
  split; [by vm_compute|].
  eapply wp_conseq; [exact (uploaded_bundle_is_hosted 100 demo_draws "req" "bundle_bbbbbbbbb" "c2" 5000 (Some demo_nonce) stranger at_ten
    stranger_inv (demo_frame_pre demo_upload stranger eq_refl ltac:(by vm_compute)))|].
  by intros r s' i' [? _].
Defined.

Lemma fetch_bundle_is_exact_witness :
  wp (E := ()) (on_fetch_bundle "req" "bundle_aaaaaaaaa") (λ r s' _, ∃ l, sent s' = l
    ∧ answered stranger at_ten l (Bundle "req" "bundle_aaaaaaaaa" "c" 1000)) stranger at_ten.
Proof.
  eapply wp_conseq; [exact (fetch_bundle_is_exact "req" "bundle_aaaaaaaaa" stranger at_ten AppInv_demo ltac:(by vm_compute))|].
  cbn beta. intros r s' i' (_ & l & Hl & Hans). exists l. split; [exact Hl|exact Hans].
Defined.

Lemma new_transfer_needs_pow_witness :
  is_Some (FileFacts.metas (files (app (on_frame (E := ()) demo_draws demo_chunk stranger at_ten).1.2)) !! "transfer_aaaaaaa"%string)
  ∧ wp (E := ()) (on_frame demo_draws demo_chunk) (λ _ s' _,
      is_Some (FileFacts.metas (files (app s')) !! "transfer_aaaaaaa"%string) → pow_given (Some demo_nonce) "transfer_aaaaaaa" at_ten = true)
    stranger at_ten.
Proof.
  split; [vm_compute; by eexists|].
  eapply wp_conseq; [exact (new_transfer_needs_pow 100 demo_draws "req" "transfer_aaaaaaa" 0 2 10 "abc" (Some demo_nonce) stranger at_ten
    stranger_inv (demo_frame_pre demo_chunk stranger eq_refl ltac:(by vm_compute)) eq_refl)|].
  cbn beta. intros r s' i' H Hs. by destruct (H Hs) as (_ & ? & _).
Defined.
End StoreWitnesses.
