(* ===== verification/WsConn.v ===== *)
(** A connection from end to end: the owner's operations on a queue, frames
    before Hello, the accept, the loop and the teardown. *)
From Stdlib Require Import ZArith Lia Ascii String.
From stdpp Require Import base gmap strings list.
From S2P Require Import Prelude Redb RustStd Config Util Protocol Mailbox Signal State StateFacts StateOps StateProps.
From S2P Require Import Ws WsFacts WsRuns WsFrames WsDemo WsProps WsHello WsStores.
From S2P Require QueueStore.
From S2P Require QueueFacts.
From S2P Require QueueRuns.
From S2P Require QueueSpec.
From S2P Require FileStore.
From S2P Require FileFacts.

Section Conn.
Context {RD : Redb} {UL : UuidLib} {LS : LibSignal} {HS : Hashing} {B6 : Base64} {JS : Json}.
Context {SV : Serde QueueStore.StoredValue} {SM : Serde FileStore.FileMeta}.
Context {SA : Serde MailboxAuth} {SB : Serde HostedBundle}.
Implicit Types (s : Session) (rid m id : string) (f : ClientFrame).
Context {E : Type}.

(** ** The owner's frames *)

(** Whether a frame needs a registration. *)
Definition needs_hello f : bool :=
  match f with
  | SetDeliveryTokens _ _ | IssueSenderCertificate _ _ _ _ | Ack _ | RetireMailbox => true
  | _ => false
  end.

(** Before Hello, the frames that need a registration change nothing and are answered
    not_registered. *)
Theorem unregistered_changes_nothing d f s i :
  recipient_id (conn s) = None → needs_hello f = true →
  wp (E := E) (on_frame d f) (λ r s' _, r = inr Continue ∧ s' = after_reply not_registered s i) s i.
Proof.
  intros Hrid Hf. destruct f; try done; cbn [on_frame];
    unfold on_set_delivery_tokens, on_issue_sender_certificate, on_ack, on_retire_mailbox;
    do 2 wp_step; rewrite Hrid; by apply (wp_reply_exact _ _ _ i).
Qed.

(** An Ack removes exactly the named messages from the connection's own queue and answers
    how many; when a foreign call fails it changes nothing and answers 0. *)
Theorem ack_is_answered_exactly ids s i rid :
  SessionInv s → recipient_id (conn s) = Some rid →
  wp (E := E) (on_ack ids) (λ r s' _, r = inr Continue ∧ ∃ l n, sent s' = sent s ++ l ∧ answered s i l (AckOk n)
    ∧ (QueueSpec.abs (queues (app s')) rid
       = filter (λ msg, QueueSpec.msg_id msg ∉ ids) (QueueSpec.abs (queues (app s)) rid)
       ∧ n = Z.of_nat (length (QueueSpec.abs (queues (app s)) rid)) - Z.of_nat (length (QueueSpec.abs (queues (app s')) rid))
       ∨ ¬ quiet i ∧ queues (app s') = queues (app s) ∧ n = 0)) s i.
Proof.
  intros HI Hrid. unfold on_ack. do 2 wp_step. rewrite Hrid.
  assert (no_char ":" rid) as Hcol by by apply valid_recipient_no_colon, HI.
  wp_step. apply wp_spawn.
  - intros i1 Hi1. unfold on_queues. apply wp_on_app. wp_step.
    eapply wp_conseq; [apply (QueueSpec.ack_effect i1); [apply HI|done..]|]. cbn beta.
    intros r q i2 (Hi2 & _ & _ & Hr). cbn beta iota zeta.
    apply (wp_answer s i); [etrans; [done|by apply step_later]|done|].
    intros s' i' l _ Ha _ Hl Hans. split; [done|]. eexists l, _. split; [exact Hl|]. split; [exact Hans|]. rewrite Ha.
    destruct r as [e|n]; cbn [app set_app queues set_queues]; [right|by left]. destruct Hr as [Hnq ->].
    split_and!; [|done..]. intros Hq. apply Hnq. by eapply quiet_later.
  - intros i1 Hi1 Hnq. cbn beta iota zeta. apply (wp_answer s i); [done..|]. intros s' i' l _ Ha _ Hl Hans. split; [done|].
    exists l, 0. split_and!; [done..|]. right. by rewrite Ha.
Qed.

(** Retiring a mailbox removes its record, route and rate entry, marks the removal dirty
    and ends the connection; its queue is emptied unless a foreign call failed. *)
Theorem retire_forgets_the_mailbox T d s i rid :
  SessionInv s → frame_pre T d RetireMailbox s i → recipient_id (conn s) = Some rid →
  wp (E := E) (on_frame d RetireMailbox) (λ r s' _, r = inr Break
    ∧ mailbox_auth (app s') = delete rid (mailbox_auth (app s)) ∧ rid ∈ dirty_auth (app s')
    ∧ online (app s') = delete rid (online (app s)) ∧ send_rate (app s') = delete rid (send_rate (app s))
    ∧ (QueueSpec.abs (queues (app s')) rid = [] ∨ ¬ quiet i ∧ queues (app s') = queues (app s))) s i.
Proof.
  intros HI Hpre Hrid. cbn [on_frame]. unfold on_retire_mailbox. do 2 wp_step. rewrite Hrid.
  assert (no_char ":" rid) as Hcol by by apply valid_recipient_no_colon, HI.
  wp_step. apply (forget_pass T rid s i (λ _, True) (λ _, True) (λ _ _, True)); [apply passes_refl|done|].
  intros a1 Hp Hauth Hqueues Hon Hrate. cbn beta iota.
  assert (QueueFacts.Inv (queues a1)) as HQ by (rewrite Hqueues; apply HI).
  assert (∀ q i2, QueueSpec.abs q rid = [] ∨ ¬ quiet i ∧ q = queues (app s) →
    wp (E := E) (_ ← on_app (modify (λ a, set_send_rate (delete rid (send_rate a)) a));
        _ ← on_app (modify (λ a, set_online (delete rid (online a)) a));
        _ ← on_app (mark_auth_dirty rid);
        _ ← reply (AckOk 0);
        mret Break) (λ r s' _, r = inr Break
    ∧ mailbox_auth (app s') = delete rid (mailbox_auth (app s)) ∧ rid ∈ dirty_auth (app s')
    ∧ online (app s') = delete rid (online (app s)) ∧ send_rate (app s') = delete rid (send_rate (app s))
    ∧ (QueueSpec.abs (queues (app s')) rid = [] ∨ ¬ quiet i ∧ queues (app s') = queues (app s)))
      (set_app (set_queues q a1) s) i2) as Hend.
  { intros q i2 Hq. do 2 (wp_step; apply wp_on_app; wp_step). wp_step. apply wp_on_app. unfold mark_auth_dirty. wp_step.
    wp_step. apply (wp_only_reply _ _ _ _ _ eq_refl eq_refl eq_refl). intros s' i' l Ha _ _ _. wp_step. rewrite Ha. simpl.
    rewrite Hon, Hrate, Hauth. split_and!; try done. by apply elem_of_union_l, elem_of_singleton. }
  wp_step. apply wp_spawn.
  - intros i1 Hi1. unfold on_queues. apply wp_on_app. wp_step.
    eapply wp_conseq; [by apply (QueueSpec.purge_effect i1)|]. cbn beta.
    intros r q i2 (Hi2 & _ & _ & Hr). cbn beta iota. apply Hend. destruct r as [e|n]; [right|by left].
    destruct Hr as [Hnq ->]. split; [|exact Hqueues]. intros Hq. apply Hnq. by eapply quiet_later.
  - intros i1 Hi1 Hnq. cbn beta iota. replace (set_app a1 s) with (set_app (set_queues (queues a1) a1) s) by by destruct a1.
    apply Hend. right. split; [done|exact Hqueues].
Qed.

(** ** The frame budget *)

(** The texts read at [times] that are handled. *)
Fixpoint handled (c : Conn) (times : list Z) : list Z :=
  match times with
  | [] => []
  | t :: r =>
      let c' := count_frame t c in
      if frame_count c' <=? MAX_FRAMES_PER_WINDOW then t :: handled c' r else handled c' r
  end.

Lemma handled_passed c times :
  0 ≤ window_start_ms c → 0 ≤ frame_count c ≤ u32_max → from (window_start_ms c) times →
  handled c times = passed MAX_FRAMES_PER_WINDOW (window_start_ms c, Z.min (frame_count c) MAX_FRAMES_PER_WINDOW) times.
Proof.
  revert c. induction times as [|t r IH]; intros c Hw Hn Hf; [done|]. destruct Hf as [Ht Hr].
  assert (from (window_start_ms c) r) as Hr' by (eapply from_weaken; [|exact Hr]; lia).
  cbn [handled passed]. unfold count_frame, window_step. cbn [fst snd]. rewrite sat_sub_le by lia.
  unfold MAX_FRAMES_PER_WINDOW, u32_max in *.
  destruct (Z.ltb_spec RATE_WINDOW_MS (t - window_start_ms c)), (decide (window_start_ms c + RATE_WINDOW_MS < t)); try lia; cbn [set_window frame_count].
  - change (Z.min (0 + 1) _) with 1. change (1 <=? 600) with true. cbn beta iota. f_equal.
    rewrite IH; [done|simpl; lia|simpl; lia|done].
  - destruct (Z.leb_spec (Z.min (frame_count c + 1) (2 ^ 32 - 1)) 600), (decide (Z.min (frame_count c) 600 = 600)); try lia.
    + f_equal. rewrite IH; [|done|simpl; lia|done]. cbn [set_window window_start_ms frame_count]. do 2 f_equal. lia.
    + rewrite IH; [|done|simpl; lia|done]. cbn [set_window window_start_ms frame_count]. do 2 f_equal. lia.
Qed.

(** The texts a connection reads, each with the time it was read at and whether
    it was within the budget. *)
Definition turns (input : list (Draws * string)) : M Session E (list (Z * bool)) :=
  foldM (λ acc '(d, text),
    t ← (λ s i, (inr (next_now i), s, i));
    _ ← on_text d text;
    s ← get;
    mret (acc ++ [(t, frame_count (conn s) <=? MAX_FRAMES_PER_WINDOW)])) [] input.

Lemma on_text_counts d text s i (Q : E + Flow → Session → io → Prop) :
  (∀ r s' i', window_start_ms (conn s') = window_start_ms (count_frame (next_now i) (conn s)) →
     frame_count (conn s') = frame_count (count_frame (next_now i) (conn s)) → Q r s' i') →
  wp (on_text d text) Q s i.
Proof.
  intros H. unfold on_text. wp_step. apply wp_now_ms. cbn beta iota. do 4 wp_step.
  set (s1 := set_conn _ s). set (i1 := clock_tick i).
  assert (∀ m : M Session E Flow, preserves budget (budget s1) m → wp m Q s1 i1) as Hkeep.
  { intros m Hm. specialize (Hm s1 i1 eq_refl). unfold wp. destruct (m s1 i1) as [[r s'] i']. simpl in Hm.
    injection Hm as Hw Hn Hc. by apply H. }
  apply Hkeep. destruct (_ <? _); [apply preserves_reply|]. destruct (_ <? _); [apply preserves_reply|].
  destruct (parse_frame text); [apply preserves_reply|apply preserves_frame].
Qed.

Lemma turns_handled input acc s i :
  wp (E := E) (foldM (λ acc '(d, text),
    t ← (λ s i, (inr (next_now i), s, i));
    _ ← on_text d text;
    s ← get;
    mret (acc ++ [(t, frame_count (conn s) <=? MAX_FRAMES_PER_WINDOW)])) acc input)
   (λ r _ _, match r with
             | inr l' => ∃ l, l' = acc ++ l ∧ accepted_of l = handled (conn s) l.*1
             | inl e => True
             end) s i.
Proof.
  assert (∀ c c' times, window_start_ms c = window_start_ms c' → frame_count c = frame_count c' → handled c times = handled c' times) as Hext.
  { intros c c' times. revert c c'. induction times as [|t r IH]; intros c c' Hw Hn; [done|]. cbn [handled].
    unfold count_frame. rewrite Hw, Hn. destruct (if _ <? _ then _ else _) as [w n]. cbn [set_window frame_count].
    destruct (_ <=? _); [f_equal|]; by apply IH. }
  revert acc s i. induction input as [|[d text] rest IH]; intros acc s i; cbn [foldM].
  { wp_step. exists []. by rewrite app_nil_r. }
  wp_step. wp_step. unfold wp at 1. cbn beta iota. wp_step. apply on_text_counts. intros [e|flow] s' i' Hw Hn; cbn beta iota; [done|].
  do 3 wp_step. eapply wp_conseq; [apply IH|]. cbn beta. intros [e|l'] s2 i2 H; [done|].
  destruct H as (l & -> & Hl). eexists (_ :: l). rewrite <- app_assoc. split; [done|].
  cbn [fmap list_fmap fst handled]. rewrite (Hext _ (count_frame (next_now i) (conn s)) _ Hw Hn) in Hl. rewrite <- Hl, Hn.
  unfold accepted_of. rewrite filter_cons. by destruct (_ <=? _).
Qed.

End Conn.

(** ** Whole connections: nothing in a connection throws. *)

Section Whole.
Context {RD : Redb} {UL : UuidLib} {LS : LibSignal} {HS : Hashing} {B6 : Base64} {JS : Json}.
Context {SV : Serde QueueStore.StoredValue} {SM : Serde FileStore.FileMeta}.
Context {SA : Serde MailboxAuth} {SB : Serde HostedBundle}.
Implicit Types (s : Session) (rid m id : string) (f : ClientFrame).

(** Whatever texts a connection reads, within any interval as long as the rate window at
    most twice MAX_FRAMES_PER_WINDOW of them are handled (the window is fixed, not sliding). *)
Theorem frame_rate_bounded input s i :
  0 ≤ window_start_ms (conn s) → 0 ≤ frame_count (conn s) ≤ u32_max →
  wp (E := Empty_set) (turns input) (λ r _ _, ∃ l, r = inr l ∧ (from (window_start_ms (conn s)) l.*1 →
    ∀ a, within a (a + RATE_WINDOW_MS) (accepted_of l) ≤ 2 * MAX_FRAMES_PER_WINDOW)) s i.
Proof.
  intros Hw Hn. eapply wp_conseq; [apply (turns_handled input [])|]. cbn beta.
  intros [[]|l] s' i' H. exists l. split; [done|]. intros Hf a. destruct H as (l' & Hl' & Hl). simpl in Hl'. subst l'.
  rewrite Hl, handled_passed by done. eapply passed_any_interval; [done|unfold MAX_FRAMES_PER_WINDOW; lia|exact Hf].
Qed.

(** ** The loop *)

(** What each turn of the loop assumes of its environment. *)
Fixpoint turns_pre (T : Z) (input : list (Draws * Incoming)) s i : Prop :=
  match input with
  | [] => True
  | (d, incoming) :: rest =>
      (∀ text f, incoming = Text text → parse_frame text = inr f → frame_pre T d f s i)
      ∧ wp (E := Empty_set) (on_incoming d incoming) (λ r s' i', r = inr Continue → turns_pre T rest s' i') s i
  end.

(** The part of the session the relay keeps well formed. *)
Definition relay_ok s s' : Prop :=
  SessionInv s' ∧ (Coherent (app s) → Coherent (app s')) ∧ (admitted (app s) → admitted (app s')).

Lemma relay_ok_reply fr s s1 i1 :
  SessionInv s1 → app s1 = app s → wp (E := Empty_set) (reply fr) (λ _ s' _, relay_ok s s') s1 i1.
Proof.
  intros HI Ha. apply (wp_only_reply _ s1); [done..|]. intros s' i' l Ha' Hc _ _. unfold relay_ok. rewrite Ha', Ha.
  split_and!; [|done..]. destruct HI as [HA Hr]. rewrite Ha in HA. split; [by rewrite Ha', Ha|by rewrite Hc].
Qed.

Lemma incoming_ok T d incoming s i :
  SessionInv s → (∀ text f, incoming = Text text → parse_frame text = inr f → frame_pre T d f s i) →
  wp (E := Empty_set) (on_incoming d incoming) (λ _ s' _, relay_ok s s') s i.
Proof.
  intros HI Hpre. destruct incoming as [text| |]; cbn [on_incoming]; [|by wp_step..].
  unfold on_text. wp_step. apply wp_now_ms. cbn beta iota. do 4 wp_step. set (s1 := set_conn _ s).
  assert (recipient_id (conn s1) = recipient_id (conn s)) as Hrid.
  { unfold s1, count_frame. simpl. by destruct (if _ <? _ then _ else _). }
  assert (SessionInv s1) as HI1 by (split; [apply HI|rewrite Hrid; apply HI]).
  destruct (_ <? _); [by apply relay_ok_reply|]. destruct (_ <? _); [by apply relay_ok_reply|].
  destruct (parse_frame text) as [e|f] eqn:Hparse; [by apply relay_ok_reply|].
  assert (frame_pre T d f s1 (clock_tick i)) as Hf.
  { destruct (Hpre text f eq_refl Hparse). split; try done. eapply clock_below_later; [apply tick_later|done]. }
  eapply wp_conseq; [by apply (frame_served T d f)|]. cbn beta. intros r s' i' Hs.
  split; [by eapply served_inv|]. destruct Hs as [_ [_ Hk _ _ _]]. split.
  - intros HC. apply coherent_but_empty. apply (k_coherent _ _ _ _ _ _ Hk ∅); [done|by apply coherent_but_empty].
  - apply (k_admitted _ _ _ _ _ _ Hk), HI1.
Qed.

Lemma relay_ok_trans s1 s2 s3 : relay_ok s1 s2 → relay_ok s2 s3 → relay_ok s1 s3.
Proof. intros (H1 & H2 & H3) (H4 & H5 & H6). split_and!; auto. Qed.

Lemma serve_ok T input s i :
  SessionInv s → turns_pre T input s i → wp (E := Empty_set) (serve input) (λ _ s' _, relay_ok s s') s i.
Proof.
  revert s i. induction input as [|[d incoming] rest IH]; intros s i HI Hpre; cbn [serve]; [by wp_step|].
  destruct Hpre as [Hf Hrest]. wp_step. pose proof (incoming_ok T d incoming s i HI Hf) as H1. unfold wp in H1, Hrest |- * at 1.
  destruct (on_incoming d incoming s i) as [[[e|flow] s1] i1]; [destruct e|]. destruct flow; [|by wp_step].
  eapply wp_conseq; [apply IH; [apply H1|by apply Hrest]|]. cbn beta. intros r s' i' H2. by eapply relay_ok_trans.
Qed.

(** A whole connection, any sequence of frames and its teardown, runs to its end, keeps the
    shared state's invariant (all counters true, queues and files well formed, caps of both
    stores), keeps the mailbox, bundle and byte caps, and leaves every cached entry either equal
    to the durable one or marked dirty. *)
Theorem connection_keeps_relay T input s i :
  SessionInv s → turns_pre T input s i →
  wp (E := Empty_set) (_ ← serve input; teardown) (λ r s' _, r = inr () ∧ SessionInv s'
    ∧ (Coherent (app s) → Coherent (app s')) ∧ (admitted (app s) → admitted (app s'))) s i.
Proof.
  intros HI Hpre. wp_step. eapply wp_conseq; [by apply (serve_ok T)|]. cbn beta. intros [[]|[]] s1 i1 (HI1 & HC1 & HA1).
  unfold teardown. do 2 wp_step. destruct (recipient_id (conn s1)) as [rid|] eqn:Hrid; [|by wp_step].
  cbv zeta. wp_step; [|by wp_step]. apply wp_on_app. wp_step. destruct HI1 as [HA HR].
  split_and!; [done|split; [by apply AppInv_online|done]| |].
  - intros HC. by destruct (HC1 HC).
  - intros Had. by destruct (HA1 Had).
Qed.

(** ** The slot and the route *)

Lemma serve_count (n : Z) input : preserves (λ s, conn_count (app s)) n (serve (E := Empty_set) input).
Proof.
  assert (∀ (m : M Session Empty_set Flow), (∀ v, preserves budget v m) → preserves (λ s, conn_count (app s)) n m) as Hm.
  { intros m H s i Hs. specialize (H _ s i eq_refl). injection H as _ _ H. by rewrite H. }
  induction input as [|[d incoming] rest IH]; cbn [serve]; [apply preserves_ret|]. apply preserves_bind.
  - destruct incoming as [text| |]; cbn [on_incoming]; [|apply preserves_ret..]. unfold on_text.
    apply preserves_bind; [apply preserves_now|intros now]. apply preserves_bind; [by apply preserves_modify|intros _].
    apply preserves_get. intros s _. destruct (_ <? _); [apply Hm; intros; apply preserves_reply|].
    destruct (_ <? _); [apply Hm; intros; apply preserves_reply|].
    destruct (parse_frame text); apply Hm; intros; [apply preserves_reply|apply preserves_frame].
  - intros []; [done|apply preserves_ret].
Qed.

(** Every connection runs to its end and gives its slot back, and one over the connection
    cap changes nothing and is sent nothing. *)
Theorem slot_is_released chan input (a : AppState) i :
  0 ≤ conn_count a < u64_max →
  wp (E := Empty_set) (handle_socket chan input) (λ r a' _, ∃ l, r = inr l ∧ conn_count a' = conn_count a
    ∧ (MAX_CONNECTIONS ≤ conn_count a → a' = a ∧ l = [])) a i.
Proof.
  intros Hc. unfold handle_socket, accept. wp_step. do 2 wp_step. cbv zeta. do 2 wp_step.
  rewrite (wrap64_small (conn_count a + 1)) by (unfold is_u64; lia).
  destruct (Z.leb_spec MAX_CONNECTIONS (conn_count a)) as [Hfull|Hroom].
  { do 3 wp_step. cbn [negb]. cbn beta iota. wp_step. exists []. split; [done|]. simpl.
    rewrite Z.add_simpl_r, wrap64_small by (unfold is_u64; lia). split; [done|]. intros _. split; [by destruct a|done]. }
  wp_step. cbn [negb]. cbn beta iota. wp_step. apply wp_now_ms. cbn beta iota. do 3 wp_step. cbv zeta.
  set (s0 := {| app := _ |}). assert (conn_count (app s0) = conn_count a + 1) as Hs0 by done.
  assert (preserves (λ s, conn_count (app s)) (conn_count a + 1) (_ ← serve (E := Empty_set) input; teardown)) as Hp.
  { apply preserves_bind; [apply serve_count|intros _]. unfold teardown. apply preserves_get. intros s _.
    destruct (recipient_id (conn s)); [|apply preserves_ret]. cbv zeta. destruct (match online _ !! _ with Some _ => _ | None => _ end); [|apply preserves_ret].
    by intros ? ? ?. }
  wp_step. specialize (Hp s0 (clock_tick i) Hs0). unfold wp at 1.
  destruct ((_ ← serve input; teardown) s0 (clock_tick i)) as [[[[]|[]] s1] i1]. cbn beta iota. simpl in Hp.
  do 5 wp_step. exists (sent s1). split; [done|]. cbn [conn_count set_conn_count].
  rewrite Hp, Z.add_simpl_r, wrap64_small by (unfold is_u64; lia). split; [done|]. lia.
Qed.

(** When a connection whose channel is routed for its registered mailbox only ends, no
    route leads to its channel any more and every other route, a newer socket's of the same
    mailbox included, stays. *)
Theorem teardown_drops_its_own_route {E} s i :
  (∀ m, online (app s) !! m = Some (tx (conn s)) → recipient_id (conn s) = Some m) →
  wp (E := E) teardown (λ r s' _, r = inr () ∧ ∀ m c, online (app s') !! m = Some c
    ↔ online (app s) !! m = Some c ∧ c ≠ tx (conn s)) s i.
Proof.
  intros Hroute. unfold teardown. do 2 wp_step.
  destruct (recipient_id (conn s)) as [rid|] eqn:Hrid.
  2:{ wp_step. split; [done|]. intros m c. split; [|by intros [? _]]. intros Hm. split; [done|]. intros ->. by apply Hroute in Hm. }
  cbv zeta. destruct (online (app s) !! rid) as [live|] eqn:Hlive.
  - wp_step.
    + match goal with H : bool_decide _ = true |- _ => apply bool_decide_eq_true in H as -> end.
      apply wp_on_app. wp_step. split; [done|]. intros m c. simpl. rewrite lookup_delete_Some. split.
      * intros [Hne Hm]. split; [done|]. intros ->. apply Hroute in Hm. congruence.
      * intros [Hm Hc]. split; [|done]. intros <-. congruence.
    + match goal with H : bool_decide _ = false |- _ => apply bool_decide_eq_false in H end.
      wp_step. split; [done|]. intros m c. split; [|by intros [? _]]. intros Hm. split; [done|]. intros ->.
      pose proof (Hroute _ Hm). congruence.
  - wp_step. split; [done|]. intros m c. split; [|by intros [? _]]. intros Hm. split; [done|]. intros ->.
    pose proof (Hroute _ Hm). congruence.
Qed.
End Whole.

(** ** Witnesses *)

Section ConnWitnesses.
#[local] Existing Instances gmap_redb unary_uuid demo_signal demo_hashing demo_base64 demo_json QueueProps.demo_serde
  FileProps.meta_serde auth_serde bundle_serde.

Lemma unregistered_changes_nothing_witness :
  wp (E := ()) (on_frame demo_draws (Ack [7%nat])) (λ r s' _, r = inr Continue ∧ sent s' = [(2%nat, not_registered)]) stranger at_ten.
Proof.
  eapply wp_conseq; [exact (unregistered_changes_nothing demo_draws (Ack [7%nat]) stranger at_ten eq_refl eq_refl)|].
  cbn beta. by intros r s' i' [-> ->].
Defined.

Lemma ack_is_answered_exactly_witness :
  wp (E := ()) (on_ack [7%nat]) (λ r s' _, r = inr Continue) demo_session at_ten.
Proof.
  eapply wp_conseq; [exact (ack_is_answered_exactly [7%nat] demo_session at_ten demo_rid demo_session_inv eq_refl)|].
  by intros r s' i' [? _].
Defined.

Lemma retire_forgets_the_mailbox_witness :
  wp (E := ()) (on_frame demo_draws RetireMailbox) (λ r s' _, r = inr Break ∧ mailbox_auth (app s') !! demo_rid = None) demo_session at_ten.
Proof.
  eapply wp_conseq; [exact (retire_forgets_the_mailbox 100 demo_draws demo_session at_ten demo_rid demo_session_inv
    (demo_frame_pre RetireMailbox demo_session eq_refl I) eq_refl)|].
  cbn beta. intros r s' i' (-> & -> & _). split; [done|]. apply lookup_delete_eq.
Defined.

Lemma frame_rate_bounded_witness :
  wp (E := Empty_set) (turns [(demo_draws, "ping"%string); (demo_draws, "ping"%string)]) (λ r _ _, ∃ l, r = inr l) stranger at_ten.
Proof.
  eapply wp_conseq; [apply (frame_rate_bounded [(demo_draws, "ping"%string); (demo_draws, "ping"%string)] stranger at_ten)|].
  - done.
  - by vm_compute.
  - cbn beta. intros r s' i' (l & -> & _). by exists l.
Defined.

Lemma connection_keeps_relay_witness :
  wp (E := Empty_set) (_ ← serve [(demo_draws, Text "ping")]; teardown) (λ r s' _, r = inr () ∧ SessionInv s') stranger at_ten.
Proof.
  eapply wp_conseq; [apply (connection_keeps_relay 100 [(demo_draws, Text "ping")] stranger at_ten stranger_inv)|].
  - split; [|by unfold wp; destruct (on_incoming _ _ _ _) as [[? ?] ?]].
    intros text f [= <-] [= <-]. by apply demo_frame_pre.
  - cbn beta. by intros r s' i' (-> & ? & _).
Defined.

Lemma slot_is_released_witness :
  wp (E := Empty_set) (handle_socket 3 [(demo_draws, Text "ping")]) (λ _ a' _, conn_count a' = 0) demo_state at_ten.
Proof.
  eapply wp_conseq; [apply (slot_is_released 3 [(demo_draws, Text "ping")] demo_state at_ten)|].
  - by vm_compute.
  - cbn beta. by intros r a' i' (l & _ & ? & _).
Defined.

Lemma teardown_drops_its_own_route_witness :
  wp (E := ()) teardown (λ r s' _, r = inr ()) demo_session at_ten.
Proof.
  eapply wp_conseq; [apply (teardown_drops_its_own_route demo_session at_ten)|].
  - by intros m [=].
  - cbn beta. by intros r s' i' [? _].
Defined.

(** A second Hello on the same socket leaves the first mailbox's route behind:
    the teardown drops only the route of the last one. *)
Example second_hello_leaves_a_route :
  let run := handle_socket (E := Empty_set) 3 [(demo_draws, Text "hello"); (demo_draws, Text "other")] demo_state at_ten in
  online (app stranger) !! demo_rid = None ∧ online run.1.2 !! demo_rid = Some 3%nat ∧ online run.1.2 !! other_rid = None
  ∧ conn_count run.1.2 = 0.
Proof. vm_compute. split_and!; reflexivity. Qed.
End ConnWitnesses.
