(* ===== verification/Relay.v ===== *)
(** The running relay: connections that come, read and go over one shared state,
    and the background tasks of [main.rs] between their frames.

    [relay_step] is one turn: a socket accepted, an item read by a connection
    ([handle_socket]'s loop, up to its teardown), a flush, a sweep, the snapshot
    of a garbage collection, or one of its removals.  [run] is any interleaving
    of turns, each with the script of its foreign calls.  A turn is atomic here;
    the operations that race inside one are in [Atomics]. *)
From Stdlib Require Import ZArith Lia Ascii String.
From stdpp Require Import base gmap strings list.
From S2P Require Import Prelude Redb RustStd Config Util Protocol Mailbox Signal State Ws WsFacts WsFrames.
From S2P Require QueueStore.
From S2P Require FileStore.

Section Relay.
Context {RD : Redb} {UL : UuidLib} {LS : LibSignal} {HS : Hashing} {B6 : Base64} {JS : Json}.
Context {SV : Serde QueueStore.StoredValue} {SM : Serde FileStore.FileMeta}.
Context {SA : Serde MailboxAuth} {SB : Serde HostedBundle}.

(** [next_chan] numbers the channels: no two sockets share one.  [collecting] is
    the garbage collection under way: its time, and what is left of its
    snapshot. *)
Record Relay := {
  shared : AppState;
  conns : gmap ClientTx Conn;
  next_chan : nat;
  outbox : list (ClientTx * ServerFrame);
  collecting : option (Z * list string);
}.

Definition set_shared (a : AppState) (r : Relay) : Relay :=
  {| shared := a; conns := conns r; next_chan := next_chan r; outbox := outbox r; collecting := collecting r |}.

Definition set_collecting (c : option (Z * list string)) (r : Relay) : Relay :=
  {| shared := shared r; conns := conns r; next_chan := next_chan r; outbox := outbox r; collecting := c |}.

Definition on_shared {E A : Type} (m : M AppState E A) : M Relay E A := zoom shared set_shared m.

(** ** Connections *)

Definition fresh_conn (chan : ClientTx) (now : Z) : Conn :=
  {| tx := chan; recipient_id := None; window_start_ms := now; frame_count := 0 |}.

Definition add_conn (now : Z) (r : Relay) : Relay :=
  {| shared := shared r; conns := <[next_chan r := fresh_conn (next_chan r) now]> (conns r);
     next_chan := S (next_chan r); outbox := outbox r; collecting := collecting r |}.

Definition open_socket {E : Type} : M Relay E () :=
  accepted ← on_shared accept;
  if negb accepted then mret ()
  else
    now ← now_ms;
    modify (add_conn now).

(** What a connection's turn leaves: [None] once it has ended. *)
Definition put_conn (chan : ClientTx) (c : option Conn) (a : AppState) (l : list (ClientTx * ServerFrame)) (r : Relay) : Relay :=
  {| shared := a; conns := partial_alter (λ _, c) chan (conns r); next_chan := next_chan r; outbox := outbox r ++ l;
     collecting := collecting r |}.

Definition session_of (r : Relay) (c : Conn) : Session := {| app := shared r; conn := c; sent := [] |}.

(** One item of the loop; a connection that ends is torn down and gives its
    slot back. *)
Definition take_turn {E : Type} (d : Draws) (incoming : Incoming) : M Session E bool :=
  flow ← on_incoming d incoming;
  match flow with
  | Continue => mret true
  | Break =>
      _ ← teardown;
      _ ← on_app (modify (λ s, set_conn_count (conn_count s -! 1) s));
      mret false
  end.

Definition receive {E : Type} (chan : ClientTx) (d : Draws) (incoming : Incoming) : M Relay E () :=
  r ← get;
  match conns r !! chan with
  | None => mret ()
  | Some c =>
      '(more, s) ← with_state (session_of r c) (take_turn d incoming);
      modify (put_conn chan (if (more : bool) then Some (conn s) else None) (app s) (sent s))
  end.

(** ** Background tasks *)

(** [tokio::task::spawn_blocking(..).await] of a task that only logs errors. *)
Definition background {S E E' : Type} (m : M S E' ()) : M S E () :=
  joined ← attempt (io_call tt);
  match joined with
  | inr _ => _ ← attempt m; mret ()
  | inl _ => mret ()
  end.

Definition flush_task {E : Type} : M Relay E () :=
  r ← get;
  if bool_decide (dirty_auth (shared r) = ∅) && bool_decide (dirty_bundles (shared r) = ∅) then mret ()
  else background (on_shared flush_dirty_meta).

Definition gc_start {E : Type} : M Relay E () :=
  r ← get;
  match collecting r with
  | Some _ => mret ()
  | None => background (E' := E) (c ← on_shared gc_snapshot; modify (set_collecting (Some c)))
  end.

Definition gc_next {E : Type} : M Relay E () :=
  r ← get;
  match collecting r with
  | Some (now, rid :: rest) =>
      _ ← on_shared (gc_collect_one now rid);
      modify (set_collecting (Some (now, rest)))
  | Some (_, []) => modify (set_collecting None)
  | None => mret ()
  end.

Definition queue_sweep_task {E : Type} : M Relay E () :=
  background (_ ← on_shared (zoom queues set_queues QueueStore.sweep_expired); mret ()).

Definition file_sweep_task {E : Type} : M Relay E () :=
  background (_ ← on_shared (zoom files set_files (FileStore.sweep_expired Failed)); mret ()).

(** ** Turns *)

Inductive Label :=
  | Opened
  | Received (chan : ClientTx) (d : Draws) (incoming : Incoming)
  | Flushed
  | GcStarted
  | GcNext
  | QueuesSwept
  | FilesSwept.

Definition relay_step {E : Type} (l : Label) : M Relay E () :=
  match l with
  | Opened => open_socket
  | Received chan d incoming => receive chan d incoming
  | Flushed => flush_task
  | GcStarted => gc_start
  | GcNext => gc_next
  | QueuesSwept => queue_sweep_task
  | FilesSwept => file_sweep_task
  end.

(** What a turn assumes of its environment: what a frame does, and that the
    file table's items can be read by its sweep. *)
Definition turn_pre (T : Z) (l : Label) (r : Relay) (i : io) : Prop :=
  match l with
  | Received chan d (Text text) => ∀ c f,
      conns r !! chan = Some c → parse_frame text = inr f → frame_pre T d f (session_of r c) i
  | FilesSwept => items_fine i
  | _ => True
  end.

(** A turn of a history: the relay before it, the turn, its script. *)
Record Turn := {
  before : Relay;
  label : Label;
  script : io;
}.

Inductive run (T : Z) : Relay → list Turn → Relay → Prop :=
  | run_nil r : run T r [] r
  | run_snoc r tr r1 l i r2 i2 :
      run T r tr r1 → turn_pre T l r1 i → relay_step (E := Empty_set) l r1 i = (inr tt, r2, i2) →
      run T r (tr ++ [{| before := r1; label := l; script := i |}]) r2.

(** Turns one after the other, for the examples. *)
Fixpoint play (turns : list (Label * io)) (r : Relay) : Relay :=
  match turns with
  | [] => r
  | (l, i) :: rest => play rest (relay_step (E := Empty_set) l r i).1.2
  end.

(** A relay that has just started. *)
Definition idle_relay (a : AppState) : Relay :=
  {| shared := a; conns := ∅; next_chan := 0; outbox := []; collecting := None |}.
End Relay.
