(* ===== verification/RelayFacts.v ===== *)
(** One turn of the relay: what it keeps, and what it may change. *)
From Stdlib Require Import ZArith Lia Ascii String.
From stdpp Require Import base gmap strings list.
From S2P Require Import Prelude Redb RustStd Config Util Protocol Mailbox Signal State StateFacts StateOps Ws WsFacts.
From S2P Require Import WsRuns WsFrames Relay.
From S2P Require QueueStore.
From S2P Require QueueFacts.
From S2P Require QueueRemovals.
From S2P Require QueueSpec.
From S2P Require FileStore.
From S2P Require FileFacts.
From S2P Require FileRemovals.

Section Facts.
Context {RD : Redb} {UL : UuidLib} {LS : LibSignal} {HS : Hashing} {B6 : Base64} {JS : Json}.
Context {SV : Serde QueueStore.StoredValue} {SM : Serde FileStore.FileMeta}.
Context {SA : Serde MailboxAuth} {SB : Serde HostedBundle}.
Implicit Types (s : Session) (a : AppState) (w : Relay) (m rid : string) (f : ClientFrame).

(** ** One item of a connection *)

(** The session when a frame is handled: its budget counted. *)
Definition counted s (i : io) : Session := set_conn (count_frame (next_now i) (conn s)) s.

Lemma counted_same s i : app (counted s i) = app s ∧ recipient_id (conn (counted s i)) = recipient_id (conn s)
  ∧ tx (conn (counted s i)) = tx (conn s) ∧ sent (counted s i) = sent s.
Proof. unfold counted, count_frame. by destruct (if _ <? _ then _ else _). Qed.

(** The item changed nothing but the frame budget and the log, or it is a frame
    that was handled. *)
Definition itemized T (incoming : Incoming) s i s' : Prop :=
  tx (conn s') = tx (conn s) ∧ conn_count (app s') = conn_count (app s) ∧
  ((app s' = app s ∧ recipient_id (conn s') = recipient_id (conn s)
    ∧ ∀ chan env, (chan, Envelope env) ∈ sent s' → (chan, Envelope env) ∈ sent s)
   ∨ ∃ d text f r i', incoming = Text text ∧ parse_frame text = inr f
       ∧ frame_pre T d f (counted s i) (clock_tick i)
       ∧ on_frame (E := Empty_set) d f (counted s i) (clock_tick i) = (r, s', i')
       ∧ passes ∅ (touches f (counted s i) (clock_tick i)) (names f) T (emits f (counted s i) (clock_tick i))
           (counted s i) (clock_tick i) s' i').

Lemma itemized_reply T fr incoming s i s1 i1 :
  app s1 = app s → recipient_id (conn s1) = recipient_id (conn s) → tx (conn s1) = tx (conn s) → sent s1 = sent s →
  (∀ env, fr ≠ Envelope env) →
  wp (E := Empty_set) (reply fr) (λ r s' _, r = inr Continue ∧ itemized T incoming s i s') s1 i1.
Proof.
  intros H1 H2 H3 H4 Hfr. apply wp_reply. intros l i' _ Hl. split; [done|]. split; [done|]. unfold logged. simpl.
  split; [by rewrite H1|]. left. split; [exact H1|]. split; [exact H2|]. intros chan env Hin. rewrite H4 in Hin.
  apply elem_of_app in Hin as [?|Hin]; [done|]. destruct Hl as [->|[-> _]]; [|by apply elem_of_nil in Hin].
  apply list_elem_of_singleton in Hin. exfalso. apply (Hfr env). congruence.
Qed.

Lemma incoming_itemized T d incoming s i :
  SessionInv s → (∀ text f, incoming = Text text → parse_frame text = inr f → frame_pre T d f s i) →
  wp (E := Empty_set) (on_incoming d incoming) (λ r s' _, (∃ flow, r = inr flow) ∧ itemized T incoming s i s') s i.
Proof.
  intros HI Hpre. destruct incoming as [text| |]; cbn [on_incoming].
  2, 3: wp_step; split; [by eexists|]; split_and!; [done..|]; left; by split_and!.
  unfold on_text. wp_step. apply wp_now_ms. cbn beta iota. do 4 wp_step. fold (counted s i).
  destruct (counted_same s i) as (Ha & Hr & Ht & Hs).
  assert (∀ fr i1, (∀ env, fr ≠ Envelope env) → wp (E := Empty_set) (reply fr)
    (λ r s' _, (∃ flow, r = inr flow) ∧ itemized T (Text text) s i s') (counted s i) i1) as Hreply.
  { intros fr i1 Hfr. eapply wp_conseq; [by apply itemized_reply|]. cbn beta. intros r s' i' [-> ?]. split; [by eexists|done]. }
  destruct (_ <? _); [by apply Hreply|]. destruct (_ <? _); [by apply Hreply|].
  destruct (parse_frame text) as [e|f] eqn:Hparse; [by apply Hreply|].
  assert (SessionInv (counted s i)) as HI1 by (split; [rewrite Ha; apply HI|rewrite Hr; apply HI]).
  assert (frame_pre T d f (counted s i) (clock_tick i)) as Hf.
  { destruct (Hpre text f eq_refl Hparse). split; rewrite ?Ha; try done. eapply clock_below_later; [apply tick_later|done]. }
  pose proof (frame_served (E := Empty_set) T d f (counted s i) (clock_tick i) HI1 Hf) as Hw. unfold wp in Hw |- *.
  destruct (on_frame d f (counted s i) (clock_tick i)) as [[r s'] i'] eqn:Hrun. destruct Hw as [[flow ->] Hp].
  split; [by eexists|]. split; [by rewrite (ps_tx _ _ _ _ _ _ _ _ _ Hp)|]. split.
  { destruct (k_config _ _ _ _ _ _ (ps_keeps _ _ _ _ _ _ _ _ _ Hp)) as (_ & _ & Hc & _). by rewrite Hc, Ha. }
  right. by exists d, text, f, (inr flow), i'.
Qed.

(** ** A whole turn of a connection *)

(** The shared state after a connection left: its slot is free, and at most its
    own route is gone. *)
Definition left_by s a' : Prop :=
  (∃ o, a' = set_conn_count (conn_count (app s) -! 1) (set_online o (app s))
        ∧ (∀ m, online (app s) !! m ≠ Some (tx (conn s)) → o !! m = online (app s) !! m)
        ∧ ∀ m chan, o !! m = Some chan → online (app s) !! m = Some chan).

Lemma take_turn_wp T d incoming s i :
  SessionInv s → (∀ text f, incoming = Text text → parse_frame text = inr f → frame_pre T d f s i) →
  wp (E := Empty_set) (take_turn d incoming) (λ r s' _, ∃ more s1, r = inr more ∧ itemized T incoming s i s1
    ∧ sent s' = sent s1 ∧ if (more : bool) then s' = s1 else left_by s1 (app s')) s i.
Proof.
  intros HI Hpre. unfold take_turn. wp_step. eapply wp_conseq; [by apply (incoming_itemized T)|]. cbn beta.
  intros r s1 i1 [[flow ->] Hit]. destruct flow.
  { wp_step. exists true, s1. by split_and!. }
  wp_step. assert (wp (E := Empty_set) teardown (λ r s2 _, r = inr tt ∧ sent s2 = sent s1 ∧ ∃ o, app s2 = set_online o (app s1)
    ∧ (∀ m, online (app s1) !! m ≠ Some (tx (conn s1)) → o !! m = online (app s1) !! m)
    ∧ ∀ m chan, o !! m = Some chan → online (app s1) !! m = Some chan) s1 i1) as Htd.
  { assert (app s1 = set_online (online (app s1)) (app s1)) as Hid by by destruct (app s1).
    unfold teardown. do 2 wp_step. destruct (recipient_id (conn s1)) as [rid|]; [|wp_step; split_and!; [done..|by eexists]].
    cbv zeta. destruct (online (app s1) !! rid) as [live|] eqn:Hon; [|wp_step; split_and!; [done..|by eexists]].
    wp_step; [|wp_step; split_and!; [done..|by eexists]].
    match goal with H : bool_decide _ = true |- _ => apply bool_decide_eq_true in H as -> end.
    apply wp_on_app. wp_step. split_and!; [done..|]. eexists. split; [done|]. split.
    - intros m Hm. rewrite lookup_delete_ne; [done|]. intros ->. congruence.
    - by intros m chan [_ Hm]%lookup_delete_Some. }
  eapply wp_conseq; [exact Htd|]. cbn beta. intros r s2 i2 (-> & Hs2 & o & Ho & Hm1 & Hm2).
  wp_step. apply wp_on_app. wp_steps. exists false, s1. split_and!; [done|done|exact Hs2|].
  exists o. cbn [app set_app]. rewrite Ho. by split_and!.
Qed.

(** ** The background tasks *)

Lemma AppInv_queues a q : AppInv a → QueueFacts.Inv q → AppInv (set_queues q a).
Proof. by intros []. Qed.

Lemma AppInv_files a x : AppInv a → FileFacts.Inv x → FileFacts.Caps x → AppInv (set_files x a).
Proof. by intros []. Qed.

Lemma AppInv_count a n : AppInv a → AppInv (set_conn_count n a).
Proof. by intros []. Qed.

Lemma background_wp {S E E'} (op : M S E' ()) (Q : E + () → S → io → Prop) (x : S) i :
  (∀ i', io_step i i' → Q (inr tt) x i') →
  (∀ i', io_step i i' → wp op (λ _ x' i'', Q (inr tt) x' i'') x i') → wp (background op) Q x i.
Proof.
  intros H0 H. unfold background. do 2 wp_step. apply (wp_io_call_from i); [done|..]; cbn beta iota.
  - intros i' Hi. do 2 wp_step. eapply wp_conseq; [by apply H|]. cbn beta. intros r x' i'' HQ. by wp_step.
  - intros _ i' Hi. wp_step. by apply H0.
Qed.

Lemma on_shared_wp {E A} (op : M AppState E A) (Q : E + A → Relay → io → Prop) w i :
  wp op (λ r a i', Q r (set_shared a w) i') (shared w) i → wp (on_shared op) Q w i.
Proof. intros H. unfold on_shared. by wp_step. Qed.

Lemma set_shared_id w : set_shared (shared w) w = w.
Proof. by destruct w. Qed.

Lemma preserves_wp {S E A B} (g : S → B) (op : M S E A) (Q : E + A → S → io → Prop) (x : S) i :
  (∀ v, preserves g v op) → wp op (λ r x' i', g x' = g x → Q r x' i') x i → wp op Q x i.
Proof. intros Hp Hw. specialize (Hp _ x i eq_refl). unfold wp in *. destruct (op x i) as [[r x'] i']. by apply Hw. Qed.

Lemma preserves_flush_meta v : preserves conn_count v flush_dirty_meta.
Proof.
  unfold flush_dirty_meta, take_dirty_auth, take_dirty_bundles. preserve.
  all: by apply preserves_zoom_other.
Qed.

Lemma preserves_gc_one {E} v now rid : preserves conn_count v (gc_collect_one (E := E) now rid).
Proof.
  unfold gc_collect_one. preserve. all: try by apply preserves_zoom_other. all: done.
Qed.

(** What each turn does to the relay. *)
Definition moved (T : Z) (l : Label) w (i : io) w' : Prop :=
  match l with
  | Opened =>
      (w' = w ∧ MAX_CONNECTIONS ≤ conn_count (shared w))
      ∨ ∃ now, w' = add_conn now (set_shared (set_conn_count (conn_count (shared w) + 1) (shared w)) w)
          ∧ conn_count (shared w) < MAX_CONNECTIONS
  | Received chan d incoming =>
      match conns w !! chan with
      | None => w' = w
      | Some c => ∃ (more : bool) s1 a, itemized T incoming (session_of w c) i s1
          ∧ w' = put_conn chan (if more then Some (conn s1) else None) a (sent s1) w
          ∧ if more then a = app s1 else left_by s1 a
      end
  | Flushed => ∃ a, w' = set_shared a w ∧ same_ram (shared w) a ∧ conn_count a = conn_count (shared w)
      ∧ (quiet i → Coherent (shared w) → Coherent a)
  | GcStarted => ∃ c, w' = set_collecting c w
  | GcNext => ∃ c a, w' = set_collecting c (set_shared a w)
      ∧ (a = shared w ∨ ∃ now rid rest, collecting w = Some (now, rid :: rest)
           ∧ collectable now (shared w) rid ∧ collected rid (shared w) a ∧ conn_count a = conn_count (shared w))
  | QueuesSwept => ∃ q, w' = set_shared (set_queues q (shared w)) w ∧ QueueFacts.Inv q
      ∧ ((∀ m, QueueSpec.abs q m = QueueSpec.abs (queues (shared w)) m)
         ∨ ∀ m, QueueSpec.abs q m = filter (λ x, next_now i -^ QUEUE_TTL_MS ≤ QueueSpec.msg_at x) (QueueSpec.abs (queues (shared w)) m))
  | FilesSwept => ∃ x, w' = set_shared (set_files x (shared w)) w ∧ FileFacts.Inv x ∧ FileFacts.Caps x
  end.

Lemma flush_moves T w i :
  wp (E := Empty_set) flush_task (λ r w' _, r = inr tt ∧ moved T Flushed w i w') w i.
Proof.
  assert (moved T Flushed w i w) as Hid.
  { exists (shared w). rewrite set_shared_id. split_and!; try done; by split_and!. }
  unfold flush_task. do 2 wp_step. wp_step; [by wp_step|].
  apply background_wp; [done|]. intros i1 Hi1. apply on_shared_wp. apply (preserves_wp conn_count); [apply preserves_flush_meta|].
  eapply wp_conseq; [by apply (flush_dirty_meta_wp i)|]. cbn beta. intros r a i2 (_ & Hram & Hr) Hc.
  split; [done|]. exists a. split_and!; try done. intros Hq HC. destruct r; [done|]. by apply Hr.
Qed.

Lemma gc_start_moves T w i :
  AppInv (shared w) → wp (E := Empty_set) gc_start (λ r w' _, r = inr tt ∧ moved T GcStarted w i w') w i.
Proof.
  intros HI. assert (moved T GcStarted w i w) as Hid by (exists (collecting w); by destruct w).
  unfold gc_start. do 2 wp_step. destruct (collecting w); [by wp_step|].
  apply background_wp; [done|]. intros i1 Hi1. wp_step. apply on_shared_wp.
  eapply wp_conseq; [by apply gc_snapshot_wp|]. cbn beta. intros r a i2 (_ & -> & _). rewrite set_shared_id.
  destruct r as [e|c]; [done|]. wp_step. split; [done|]. by eexists.
Qed.

Lemma gc_next_moves T w i :
  AppInv (shared w) → wp (E := Empty_set) gc_next (λ r w' _, r = inr tt ∧ moved T GcNext w i w') w i.
Proof.
  intros HI. assert (∀ c, moved T GcNext w i (set_collecting c w)) as Hid.
  { intros c. exists c, (shared w). rewrite set_shared_id. split; [done|by left]. }
  unfold gc_next. do 2 wp_step. destruct (collecting w) as [[now [|rid rest]]|] eqn:Hc.
  - wp_step. split; [done|apply Hid].
  - wp_step. apply on_shared_wp. apply (preserves_wp conn_count); [intros; apply preserves_gc_one|].
    eapply wp_conseq; [by apply (gc_collect_one_wp i)|]. cbn beta. intros r a i1 [_ Hr] Hcount.
    destruct r as [e|b]; [done|]. wp_step. split; [done|]. exists (Some (now, rest)), a. split; [done|].
    destruct b; [right; exists now, rid, rest; by destruct Hr|left; by destruct Hr].
  - wp_step. split; [done|]. specialize (Hid (collecting w)). by destruct w.
Qed.

Lemma queue_sweep_moves T w i :
  AppInv (shared w) → wp (E := Empty_set) queue_sweep_task (λ r w' _, r = inr tt ∧ moved T QueuesSwept w i w') w i.
Proof.
  intros HI. unfold queue_sweep_task. apply background_wp.
  { intros i' _. split; [done|]. exists (queues (shared w)). split_and!; [by destruct w as [[]]|apply HI|by left]. }
  intros i1 Hi1. wp_step. apply on_shared_wp. wp_step. eapply wp_conseq; [apply QueueSpec.sweep_effect, HI|]. cbn beta.
  intros r q i2 (_ & HQ & Hr). rewrite (step_reading _ _ Hi1) in Hr.
  destruct r as [e|n]; [|wp_step]; (split; [done|]; exists q; split_and!; [done|done|]).
  - left. by destruct Hr as [_ ->].
  - by right.
Qed.

Lemma file_sweep_moves T w i :
  AppInv (shared w) → items_fine i →
  wp (E := Empty_set) file_sweep_task (λ r w' _, r = inr tt ∧ moved T FilesSwept w i w') w i.
Proof.
  intros HI Hf. unfold file_sweep_task. apply background_wp.
  { intros i' _. split; [done|]. exists (files (shared w)). split_and!; [by destruct w as [[]]|apply HI|apply HI]. }
  intros i1 Hi1. wp_step. apply on_shared_wp. wp_step.
  eapply wp_conseq; [apply FileRemovals.sweep_files_wp; [apply HI|by eapply items_fine_step]|]. cbn beta.
  intros r x i2 (_ & Hr). assert (∃ ids, FileRemovals.without (files (shared w)) ids x) as [ids Hw].
  { destruct r as [e|n]; [destruct Hr as (_ & done & _ & ?)|destruct Hr as [_ ?]]; by eexists. }
  assert (moved T FilesSwept w i (set_shared (set_files x (shared w)) w)) as Hm.
  { exists x. split_and!; [done|apply Hw|apply Hw, HI]. }
  destruct r; [by split|wp_step; by split].
Qed.

(** ** The invariant *)

(** Every connection is registered under its own channel, which was given out
    once; the count is the number of connections and within the cap. *)
Record RelayInv w : Prop := {
  ri_app : AppInv (shared w);
  ri_admitted : admitted (shared w);
  ri_conns : ∀ chan c, conns w !! chan = Some c →
    tx c = chan ∧ (chan < next_chan w)%nat ∧ ∀ rid, recipient_id c = Some rid → valid_recipient_id rid = true;
  ri_count : conn_count (shared w) = Z.of_nat (size (conns w)) ∧ conn_count (shared w) ≤ MAX_CONNECTIONS;
}.

Lemma ri_session w chan c : RelayInv w → conns w !! chan = Some c → SessionInv (session_of w c).
Proof. intros HI Hc. split; [apply HI|]. apply (ri_conns _ HI _ _ Hc). Qed.

Lemma open_moves T w i :
  RelayInv w → wp (E := Empty_set) open_socket (λ r w' _, r = inr tt ∧ moved T Opened w i w') w i.
Proof.
  intros HI. pose proof (ri_count _ HI) as [Hn Hmax]. unfold MAX_CONNECTIONS in *.
  assert (wrap64 (conn_count (shared w) + 1) = conn_count (shared w) + 1) as Hw by (apply wrap64_small; unfold is_u64, u64_max; lia).
  unfold open_socket. wp_step. apply on_shared_wp. unfold accept. do 2 wp_step. cbv zeta. do 2 wp_step.
  destruct (Z.leb_spec MAX_CONNECTIONS (conn_count (shared w))) as [Hfull|Hroom].
  - do 3 wp_step. cbn [negb]. wp_step. split; [done|]. left. split; [|done]. simpl.
    rewrite Hw, Z.add_simpl_r, wrap64_small by (unfold is_u64, u64_max; lia). by destruct w as [[]].
  - wp_step. cbn [negb]. wp_step. apply wp_now_ms. cbn beta iota. wp_step. split; [done|]. right.
    eexists. rewrite Hw. split; [reflexivity|exact Hroom].
Qed.

Lemma receive_moves T chan d incoming w i :
  RelayInv w → turn_pre T (Received chan d incoming) w i →
  wp (E := Empty_set) (receive chan d incoming) (λ r w' _, r = inr tt ∧ moved T (Received chan d incoming) w i w') w i.
Proof.
  intros HI Hpre. unfold receive, moved. do 2 wp_step. destruct (conns w !! chan) as [c|] eqn:Hc; [|by wp_step].
  do 2 wp_step. eapply wp_conseq; [apply (take_turn_wp T)|].
  - by eapply ri_session.
  - intros text f -> Hf. by apply (Hpre c f).
  - cbn beta. intros r s' i' (more & s1 & -> & Hit & Hs & Hm). cbn beta iota. wp_step. split; [done|].
    rewrite Hs. exists more, s1, (app s'). destruct more; [subst s'|]; by split_and!.
Qed.

Lemma relay_step_moves T l w i :
  RelayInv w → turn_pre T l w i →
  wp (E := Empty_set) (relay_step l) (λ r w' _, r = inr tt ∧ moved T l w i w') w i.
Proof.
  intros HI Hpre. pose proof (ri_app _ HI) as HA. destruct l; cbn [relay_step].
  - by apply open_moves.
  - by apply receive_moves.
  - apply flush_moves.
  - by apply gc_start_moves.
  - by apply gc_next_moves.
  - by apply queue_sweep_moves.
  - by apply file_sweep_moves.
Qed.

(** ** What a turn keeps *)

Lemma itemized_keeps T incoming s i s1 :
  SessionInv s → itemized T incoming s i s1 →
  AppInv (app s1) ∧ (admitted (app s) → admitted (app s1)) ∧ (Coherent (app s) → Coherent (app s1))
  ∧ ∀ rid, recipient_id (conn s1) = Some rid → valid_recipient_id rid = true.
Proof.
  intros HI (_ & _ & [(Ha & Hr & _)|(d & text & f & r & i' & _ & _ & _ & _ & Hp)]).
  { rewrite Ha, Hr. split_and!; try done; apply HI. }
  destruct (counted_same s i) as (Ha & Hr & _). pose proof (ps_keeps _ _ _ _ _ _ _ _ _ Hp) as Hk. rewrite Ha in Hk.
  split_and!.
  - apply (k_inv _ _ _ _ _ _ Hk), HI.
  - apply (k_admitted _ _ _ _ _ _ Hk), HI.
  - intros HC. apply coherent_but_empty. apply (k_coherent _ _ _ _ _ _ Hk ∅); [done|by apply coherent_but_empty].
  - intros rid Hrid. destruct (ps_rid _ _ _ _ _ _ _ _ _ Hp) as [Heq|(rid' & Heq & _ & Hv)]; [|congruence].
    apply HI. congruence.
Qed.

Lemma left_by_keeps s a :
  AppInv (app s) → left_by s a → AppInv a ∧ (admitted (app s) → admitted a) ∧ (Coherent (app s) → Coherent a).
Proof.
  intros HI (o & -> & _). split_and!; [by apply AppInv_count, AppInv_online|by intros []|by intros []].
Qed.

Lemma moved_coherent T l w i w' :
  RelayInv w → moved T l w i w' → (l = Flushed → quiet i) → Coherent (shared w) → Coherent (shared w').
Proof.
  intros HI Hm Hq HC. destruct l; cbn [moved] in Hm.
  - destruct Hm as [[-> _]|(now & -> & _)]; [done|]. by destruct HC.
  - destruct (conns w !! chan) as [c|] eqn:Hc; [|by subst]. destruct Hm as (more & s1 & a & Hit & -> & Ha).
    pose proof (itemized_keeps _ _ _ _ _ (ri_session _ _ _ HI Hc) Hit) as (H1 & _ & H3 & _).
    destruct more; [subst a; auto|]. apply (left_by_keeps _ _ H1 Ha). auto.
  - destruct Hm as (a & -> & _ & _ & Hf). auto.
  - by destruct Hm as (c & ->).
  - destruct Hm as (c & a & -> & [->|(now & rid & rest & _ & _ & Hcol & _)]); [done|]. by apply (gc_coherent _ _ _ Hcol).
  - destruct Hm as (q & -> & _). by destruct HC.
  - destruct Hm as (x & -> & _). by destruct HC.
Qed.

Lemma collected_admitted rid a a' : AppInv a → collected rid a a' → admitted a → admitted a'.
Proof.
  intros HI [HI' _ Ha _ _ Hb _ _] [H1 H2 H3]. pose proof (ai_count _ HI) as [Hc _]. pose proof (ai_count _ HI') as [Hc' _].
  pose proof (ai_bytes _ HI) as [Hy _]. pose proof (ai_bytes _ HI') as [Hy' _].
  rewrite Ha in Hc'. rewrite Hb in Hy'.
  assert (size (delete rid (mailbox_auth a)) ≤ size (mailbox_auth a))%nat.
  { rewrite map_size_delete. destruct (_ !! rid); simpl; lia. }
  split; [lia|by rewrite Hb|congruence].
Qed.

Lemma same_ram_admitted a a' : same_ram a a' → admitted a → admitted a'.
Proof. intros (_ & _ & _ & _ & _ & H1 & H2 & H3 & _) []. split; congruence. Qed.

Lemma moved_inv T l w i w' : RelayInv w → moved T l w i w' → RelayInv w'.
Proof.
  intros HI Hm. pose proof HI as [HA Had Hconns [Hn Hmax]]. destruct l; cbn [moved] in Hm.
  - destruct Hm as [[-> _]|(now & -> & Hroom)]; [done|].
    assert (conns w !! next_chan w = None) as Hnew.
    { destruct (conns w !! next_chan w) as [c|] eqn:Hc; [|done]. apply Hconns in Hc as (_ & Hlt & _). lia. }
    split; simpl.
    + by apply AppInv_count.
    + by destruct Had.
    + intros chan c [[<- <-]|[_ Hc]]%lookup_insert_Some; [by split_and!; [|lia|]|].
      destruct (Hconns _ _ Hc) as (H1 & H2 & H3). by split_and!; [|lia|].
    + rewrite map_size_insert_None by done. lia.
  - destruct (conns w !! chan) as [c|] eqn:Hc; [|by subst]. destruct Hm as (more & s1 & a & Hit & -> & Ha).
    pose proof (itemized_keeps _ _ _ _ _ (ri_session _ _ _ HI Hc) Hit) as (H1 & H2 & _ & H4).
    destruct Hit as (Htx & Hcnt & _). destruct (Hconns _ _ Hc) as (E1 & E2 & E3). cbn [session_of app conn] in *.
    destruct more.
    + subst a. split; simpl; [done|auto| |].
      * intros chan' c' Hc'. destruct (decide (chan' = chan)) as [->|Hne].
        -- rewrite lookup_partial_alter_eq in Hc'. injection Hc' as <-. by split_and!; [congruence|done|].
        -- rewrite lookup_partial_alter_ne in Hc' by done. eauto.
      * rewrite Hcnt. change (partial_alter (λ _, Some (conn s1)) chan (conns w)) with (<[chan := conn s1]> (conns w)).
        rewrite map_size_insert_Some by by eexists. done.
    + pose proof (left_by_keeps _ _ H1 Ha) as (H5 & H6 & _). destruct Ha as (o & -> & _). split; simpl; [done|auto| |].
      * intros chan' c' Hc'. destruct (decide (chan' = chan)) as [->|Hne]; [by rewrite lookup_partial_alter_eq in Hc'|].
        rewrite lookup_partial_alter_ne in Hc' by done. eauto.
      * change (partial_alter (λ _, None) chan (conns w)) with (delete chan (conns w)).
        pose proof (size_delete_lookup _ _ _ Hc) as Hs. rewrite Hcnt, wrap64_small; [lia|]. unfold is_u64, u64_max, MAX_CONNECTIONS in *. lia.
  - destruct Hm as (a & -> & Hram & Hc & _). split; simpl; [by eapply AppInv_same_ram|by eapply same_ram_admitted|done|by rewrite Hc].
  - destruct Hm as (c & ->). by split.
  - destruct Hm as (c & a & -> & [->|(now & rid & rest & _ & _ & Hcol & Hc)]); [by split|].
    split; simpl; [apply Hcol|by eapply collected_admitted|done|by rewrite Hc].
  - destruct Hm as (q & -> & HQ & _). split; simpl; [by apply AppInv_queues|by destruct Had|done|done].
  - destruct Hm as (x & -> & HF & HC). split; simpl; [by apply AppInv_files|by destruct Had|done|done].
Qed.

(** ** Histories *)

Lemma run_moves T w tr w' :
  run T w tr w' → RelayInv w → RelayInv w' ∧ Forall (λ t, RelayInv (before t)) tr.
Proof.
  induction 1 as [w|w tr w1 l i w2 i2 _ IH Hpre Hstep]; intros HI; [by split|].
  destruct (IH HI) as [HI1 Hall]. pose proof (wp_run _ _ _ _ _ _ _ (relay_step_moves T l w1 i HI1 Hpre) Hstep) as [_ Hm].
  split; [by eapply moved_inv|]. apply Forall_app. split; [done|]. by apply Forall_singleton.
Qed.

(** A property of states that every turn keeps but those that satisfy [because]
    is lost only by such a turn. *)
Lemma run_loses T (P : Relay → Prop) (because : Relay → Label → io → Prop) w tr w' :
  (∀ w1 l i w2, RelayInv w1 → P w1 → turn_pre T l w1 i → moved T l w1 i w2 → P w2 ∨ because w1 l i) →
  run T w tr w' → RelayInv w → P w → P w' ∨ Exists (λ t, because (before t) (label t) (script t)) tr.
Proof.
  intros Hstep Hrun. induction Hrun as [w|w tr w1 l i w2 i2 Hrun IH Hpre Hs]; intros HI HP; [by left|].
  destruct (IH HI HP) as [HP1|He]; [|right; apply Exists_app; by left].
  destruct (run_moves _ _ _ _ Hrun HI) as [HI1 _].
  pose proof (wp_run _ _ _ _ _ _ _ (relay_step_moves T l w1 i HI1 Hpre) Hs) as [_ Hm].
  destruct (Hstep w1 l i w2 HI1 HP1 Hpre Hm) as [?|Hb]; [by left|right]. apply Exists_app. right. by apply Exists_cons_hd.
Qed.
End Facts.
