(* ===== verification/RelayFrames.v ===== *)
(** What single frames leave alone, whatever their environment does: the queues,
    unless the frame is a send, an ack or a retirement; the owner of a mailbox,
    unless it is retired; the registration, unless the frame is a Hello. *)
From Stdlib Require Import ZArith Lia Ascii String.
From stdpp Require Import base gmap strings list.
From S2P Require Import Prelude Redb RustStd Config Util Protocol Mailbox Signal State StateFacts StateOps Ws WsFacts.
From S2P Require Import WsRuns WsFrames.
From S2P Require QueueStore.
From S2P Require FileStore.

Section Frames.
Context {RD : Redb} {UL : UuidLib} {LS : LibSignal} {HS : Hashing} {B6 : Base64} {JS : Json}.
Context {SV : Serde QueueStore.StoredValue} {SM : Serde FileStore.FileMeta}.
Context {SA : Serde MailboxAuth} {SB : Serde HostedBundle}.
Implicit Types (s : Session) (a : AppState) (rid : string).
Context {E : Type}.

(** ** A function of the shared state *)

Section OnApp.
Context {B : Type} (h : AppState → B) (v : B).

Abbreviation kept := (preserves (λ s, h (app s)) v).

Lemma kept_on_app {E' A} (op : M AppState E' A) : preserves h v op → kept (on_app op).
Proof. apply preserves_zoom; done. Qed.

Lemma kept_try_send {E'} chan fr : kept (try_send (E := E') chan fr).
Proof. unfold try_send. preserve. Qed.

Lemma kept_reply {E'} fr : kept (reply (E := E') fr).
Proof. unfold reply. pose proof (@kept_try_send). preserve. Qed.

Lemma kept_spawn {E' A} (op : M Session E' A) : kept op → kept (spawn_blocking (E' := E) op).
Proof. intros H. unfold spawn_blocking. preserve. Qed.

Lemma kept_deliver {E'} chan envs n : kept (deliver (E := E') chan envs n).
Proof. pose proof (@kept_try_send). revert n. induction envs as [|env rest IH]; intros n; simpl; unfold send_await; preserve. Qed.

Lemma kept_on_files {E' A} (op : M FileStore E' A) : (∀ x a, h (set_files x a) = h a) → kept (on_files op).
Proof. intros H. by apply kept_on_app, preserves_zoom_other. Qed.

Lemma kept_on_queues {E' A} (op : M QueueStore E' A) : (∀ x a, h (set_queues x a) = h a) → kept (on_queues op).
Proof. intros H. by apply kept_on_app, preserves_zoom_other. Qed.
End OnApp.
End Frames.

#[export] Hint Resolve kept_try_send kept_reply kept_deliver : preserve.

(** Down to the operations on the shared state. *)
Ltac keep :=
  repeat first
    [ progress preserve
    | apply kept_on_app
    | apply kept_spawn
    | apply kept_on_files; done ].

Section Queues.
Context {RD : Redb} {UL : UuidLib} {LS : LibSignal} {HS : Hashing} {B6 : Base64} {JS : Json}.
Context {SV : Serde QueueStore.StoredValue} {SM : Serde FileStore.FileMeta}.
Context {SA : Serde MailboxAuth} {SB : Serde HostedBundle}.
Context {E : Type}.

(** ** The queues *)

Definition moves_queues (f : ClientFrame) : bool :=
  match f with SendEnvelope _ _ _ _ _ | Ack _ | RetireMailbox => true | _ => false end.

Lemma flush_reads v rid : preserves id v (QueueStore.flush rid).
Proof. unfold QueueStore.flush, QueueStore.read_mailbox, begin_txn, open_table, txn_range. preserve. Qed.

Abbreviation kept_queues v := (preserves (λ s, queues (app s)) v).

Lemma kept_flush_backlog v rid : kept_queues v (flush_backlog (E := E) rid).
Proof.
  unfold flush_backlog. keep. apply (preserves_zoom queues id); [done|done|]. apply flush_reads.
Qed.

Lemma queues_enter v rid ah dh pow : preserves queues v (enter_mailbox (E := E) rid ah dh pow).
Proof. unfold enter_mailbox, reserve_mailbox_slot, new_mailbox. preserve. Qed.

Lemma queues_mark_auth v rid : preserves queues v (mark_auth_dirty (E := E) rid).
Proof. unfold mark_auth_dirty. preserve. Qed.

Lemma queues_prune v : preserves queues v (prune_expired_bundles (E := E)).
Proof. unfold prune_expired_bundles, mark_bundle_dirty. preserve. Qed.

Lemma queues_insert v now id ct exp : preserves queues v (insert_bundle (E := E) now id ct exp).
Proof. unfold insert_bundle, mark_bundle_dirty. preserve. Qed.

#[local] Hint Resolve kept_flush_backlog queues_enter queues_mark_auth queues_prune queues_insert : preserve.

(** Only sends, acks and retirements move messages. *)
Lemma frame_keeps_queues v d f : moves_queues f = false → kept_queues v (on_frame (E := E) d f).
Proof.
  destruct f; intros [=]; unfold on_frame, on_hello, on_set_delivery_tokens, on_issue_sender_certificate,
    on_upload_bundle, on_fetch_bundle, on_upload_file_chunk, on_fetch_file_chunk, on_delete_transfer, on_ping; keep.
  all: by apply preserves_zoom_other.
Qed.
End Queues.

(** [ends g v P m]: run from a state where [g] is [v], [m] ends in one of [P]. *)
Definition ends {S E B A} (g : S → B) (v : B) (P : S → Prop) (m : M S E A) : Prop := ∀ s i, g s = v → P (m s i).1.2.

Section Ends.
Context {S E B : Type} (g : S → B) (v : B) (P : S → Prop) (HP : ∀ s, g s = v → P s).

Lemma ends_preserves {A} (m : M S E A) : preserves g v m → ends g v P m.
Proof. intros H s i Hs. by apply HP, H. Qed.

Lemma ends_bind {A C} (m : M S E A) (k : A → M S E C) : preserves g v m → (∀ a, ends g v P (k a)) → ends g v P (m ≫= k).
Proof.
  intros Hm Hk s i Hs. unfold mbind, M_bind. specialize (Hm s i Hs).
  destruct (m s i) as [[[e|a] s'] i']; [by apply HP|by apply Hk].
Qed.

Lemma ends_get {A} (k : S → M S E A) : (∀ s, g s = v → ends g v P (k s)) → ends g v P (get ≫= k).
Proof. intros Hk s i Hs. by apply Hk. Qed.

(** The step that matters; the rest keeps [P]. *)
Lemma ends_modify {A} f (k : () → M S E A) :
  (∀ s, g s = v → P (f s)) → (∀ a s i, P s → P (k a s i).1.2) → ends g v P (modify f ≫= k).
Proof. intros Hf Hk s i Hs. apply Hk. by apply Hf. Qed.

Lemma ends_put {A} s' (k : () → M S E A) : P s' → (∀ a s i, P s → P (k a s i).1.2) → ends g v P (put s' ≫= k).
Proof. intros Hf Hk s i Hs. by apply Hk. Qed.
End Ends.

(** Walks to the step that matters, keeping what a [match] has found out. *)
Ltac end_walk HP :=
  repeat first
    [ progress cbv zeta
    | lazymatch goal with
      | |- ends _ _ _ (get ≫= _) => apply ends_get; intros
      | |- ends _ _ _ (modify _ ≫= _) => apply ends_modify; [intros|]
      | |- ends _ _ _ (put _ ≫= _) => apply ends_put; [|]
      | |- ends _ _ _ (match ?x with _ => _ end) => destruct x eqn:?
      end
    | apply (ends_bind _ _ _ HP); [solve [preserve]|intros]
    | apply (ends_preserves _ _ _ HP); solve [preserve] ].

Section Owner.
Context {RD : Redb} {UL : UuidLib} {LS : LibSignal} {HS : Hashing} {B6 : Base64} {JS : Json}.
Context {SV : Serde QueueStore.StoredValue} {SM : Serde FileStore.FileMeta}.
Context {SA : Serde MailboxAuth} {SB : Serde HostedBundle}.
Context {E : Type}.

(** ** The owner of a mailbox *)

(** The hash of the token that opens [rid]. *)
Definition owner_of (rid : string) (a : AppState) : option string := receive_auth_hash <$> mailbox_auth a !! rid.

Context (rid owner : string).

Abbreviation owned := (preserves (owner_of rid) (Some owner)).

Implicit Types (am : gmap string MailboxAuth).

(** A record that is new, or replaced by one of the same owner. *)
Lemma owner_insert rid' x am :
  receive_auth_hash <$> am !! rid = Some owner →
  (am !! rid' = None ∨ ∃ x0, am !! rid' = Some x0 ∧ receive_auth_hash x = receive_auth_hash x0) →
  receive_auth_hash <$> (<[rid' := x]> am) !! rid = Some owner.
Proof.
  intros Ho Hx. destruct (decide (rid' = rid)) as [->|Hne]; [|by rewrite lookup_insert_ne].
  rewrite lookup_insert_eq. destruct Hx as [Hn|(x0 & Hx0 & Heq)]; [by rewrite Hn in Ho|].
  rewrite Hx0 in Ho. simpl in *. congruence.
Qed.

Lemma ensure_same_owner h x : receive_auth_hash (ensure_delivery_hash h x).2 = receive_auth_hash x.
Proof. unfold ensure_delivery_hash. by case_bool_decide. Qed.

Lemma auth_reserve v : preserves mailbox_auth v (reserve_mailbox_slot (E := E)).
Proof. unfold reserve_mailbox_slot. preserve. Qed.

#[local] Hint Resolve auth_reserve : preserve.

Lemma owned_enter rid' ah dh pow : owned (enter_mailbox (E := E) rid' ah dh pow).
Proof.
  intros a i Ho. assert (∀ a', mailbox_auth a' = mailbox_auth a → owner_of rid a' = Some owner) as HP.
  { intros a' Ha. unfold owner_of. by rewrite Ha. }
  revert i. cut (ends mailbox_auth (mailbox_auth a) (λ a', owner_of rid a' = Some owner) (enter_mailbox (E := E) rid' ah dh pow)).
  { intros H i. by apply H. }
  unfold enter_mailbox, new_mailbox. end_walk HP; try done.
  - unfold owner_of. simpl. apply owner_insert; [by apply HP|right]. eexists. split; [by rewrite H0, <- H|]. by rewrite ensure_same_owner.
  - unfold owner_of. simpl. apply owner_insert; [by apply HP|left]. by rewrite H0, <- H.
Qed.

Lemma owned_authorize to tok : owned (authorize_delivery (E := E) to tok).
Proof.
  intros a i Ho. assert (∀ a', mailbox_auth a' = mailbox_auth a → owner_of rid a' = Some owner) as HP.
  { intros a' Ha. unfold owner_of. by rewrite Ha. }
  revert i. cut (ends mailbox_auth (mailbox_auth a) (λ a', owner_of rid a' = Some owner) (authorize_delivery (E := E) to tok)).
  { intros H i. by apply H. }
  unfold authorize_delivery. end_walk HP; try done.
  unfold owner_of. simpl. apply owner_insert; [by apply HP|right]. by eexists.
Qed.

(** ** Handlers *)

Abbreviation owning := (preserves (λ s, owner_of rid (app s)) (Some owner)).

Lemma owned_mark_auth v rid' : preserves (owner_of rid) v (mark_auth_dirty (E := E) rid').
Proof. unfold mark_auth_dirty. preserve. Qed.

Lemma owned_prune v : preserves (owner_of rid) v (prune_expired_bundles (E := E)).
Proof. unfold prune_expired_bundles, mark_bundle_dirty. preserve. Qed.

Lemma owned_insert v now id ct exp : preserves (owner_of rid) v (insert_bundle (E := E) now id ct exp).
Proof. unfold insert_bundle, mark_bundle_dirty. preserve. Qed.

Lemma owned_allow v to : preserves (owner_of rid) v (allow_dest_send (E := E) to).
Proof. unfold allow_dest_send. preserve. Qed.

Lemma owning_queues {E' A} (op : M QueueStore E' A) : owning (on_queues op).
Proof. by apply kept_on_queues. Qed.

#[local] Hint Resolve owned_enter owned_authorize owned_mark_auth owned_prune owned_insert owned_allow owning_queues : preserve.

Lemma owning_flush rid' : owning (flush_backlog (E := E) rid').
Proof. unfold flush_backlog. keep. Qed.

Lemma owning_queue_envelope cr to env live : owning (queue_envelope (E := E) cr to env live).
Proof. unfold queue_envelope. keep. Qed.

Lemma owning_deliver_live to env : owning (deliver_live (E := E) to env).
Proof. unfold deliver_live. keep. all: done. Qed.

#[local] Hint Resolve owning_flush owning_queue_envelope owning_deliver_live : preserve.

(** The first step settles it, the rest keeps it. *)
Lemma owning_then {A} f (k : () → M Session E A) s i :
  owner_of rid (f (app s)) = Some owner → (∀ a, owning (k a)) → owner_of rid (app ((on_app (modify f) ≫= k) s i).1.2) = Some owner.
Proof. intros Hf Hk. apply (Hk tt (set_app (f (app s)) s) i Hf). Qed.

Lemma owning_set_tokens request_id tokens : owning (on_set_delivery_tokens (E := E) request_id tokens).
Proof.
  intros s i Ho. unfold on_set_delivery_tokens. unfold mbind at 1, M_bind, get at 1. cbv beta iota.
  destruct (recipient_id (conn s)) as [mine|]; [|by apply (kept_reply (owner_of rid))].
  destruct (_ || _ || _); [by apply (kept_reply (owner_of rid))|].
  destruct (mailbox_auth (app s) !! mine) as [auth|] eqn:Hauth; [|by apply (kept_reply (owner_of rid))].
  cbv zeta. apply owning_then; [|intros; keep].
  unfold owner_of. simpl. apply owner_insert; [done|right]. by exists auth.
Qed.

#[local] Hint Resolve owning_set_tokens : preserve.

(** A mailbox changes hands only through its retirement. *)
Lemma frame_keeps_owner d f : f ≠ RetireMailbox → owning (on_frame (E := E) d f).
Proof.
  intros Hf. destruct f; try done; unfold on_frame, on_hello, on_issue_sender_certificate, on_send_envelope,
    on_upload_bundle, on_fetch_bundle, on_upload_file_chunk, on_fetch_file_chunk, on_delete_transfer, on_ack, on_ping; keep.
  all: first [done | by apply preserves_zoom_other].
Qed.
End Owner.

Section Registration.
Context {RD : Redb} {UL : UuidLib} {LS : LibSignal} {HS : Hashing} {B6 : Base64} {JS : Json}.
Context {SV : Serde QueueStore.StoredValue} {SM : Serde FileStore.FileMeta}.
Context {SA : Serde MailboxAuth} {SB : Serde HostedBundle}.
Context {E : Type}.

(** ** The registration *)

Abbreviation registered v := (preserves (λ s, recipient_id (conn s)) v).

Lemma registered_on_app v {E' A} (op : M AppState E' A) : registered v (on_app op).
Proof. by apply preserves_zoom_other. Qed.

Lemma registered_on_queues v {E' A} (op : M QueueStore E' A) : registered v (on_queues op).
Proof. apply registered_on_app. Qed.

Lemma registered_on_files v {E' A} (op : M FileStore E' A) : registered v (on_files op).
Proof. apply registered_on_app. Qed.

Lemma registered_try_send v {E'} chan fr : registered v (try_send (E := E') chan fr).
Proof. unfold try_send. preserve. Qed.

Lemma registered_reply v {E'} fr : registered v (reply (E := E') fr).
Proof. unfold reply. pose proof (@registered_try_send). preserve. Qed.

Lemma registered_spawn v {E' A} (op : M Session E' A) : registered v op → registered v (spawn_blocking (E' := E) op).
Proof. intros H. unfold spawn_blocking. preserve. Qed.

#[local] Hint Resolve registered_on_app registered_on_queues registered_on_files registered_try_send registered_reply
  registered_spawn : preserve.

Lemma registered_deliver_live v to env : registered v (deliver_live (E := E) to env).
Proof. unfold deliver_live. preserve. Qed.

Lemma registered_queue_envelope v cr to env live : registered v (queue_envelope (E := E) cr to env live).
Proof. unfold queue_envelope. preserve. Qed.

#[local] Hint Resolve registered_deliver_live registered_queue_envelope : preserve.

(** Only a Hello registers. *)
Lemma frame_keeps_registration v d f : is_hello f = false → registered v (on_frame (E := E) d f).
Proof.
  destruct f; intros [=]; unfold on_frame, on_set_delivery_tokens, on_issue_sender_certificate, on_send_envelope,
    on_upload_bundle, on_fetch_bundle, on_upload_file_chunk, on_fetch_file_chunk, on_delete_transfer, on_ack,
    on_retire_mailbox, on_ping; preserve.
Qed.
End Registration.

Section Routes.
Context {RD : Redb} {UL : UuidLib} {LS : LibSignal} {HS : Hashing} {B6 : Base64} {JS : Json}.
Context {SV : Serde QueueStore.StoredValue} {SM : Serde FileStore.FileMeta}.
Context {SA : Serde MailboxAuth} {SB : Serde HostedBundle}.
Context {E : Type}.

(** ** The live route of a mailbox *)

Context (m : string) (allowed : list ClientTx) (joins : bool).

(** [m]'s route, if any, is one of [allowed]; so is the connection's channel,
    if it is the one that [joins]. *)
Definition route_in (a : AppState) : bool :=
  match online a !! m with Some chan => bool_decide (chan ∈ allowed) | None => true end.

Definition routed (s : Session) : bool := (negb joins || bool_decide (tx (conn s) ∈ allowed)) && route_in (app s).

Abbreviation kept_route := (preserves routed true).

Lemma routed_app s a : route_in (app s) = true → route_in a = true → routed s = true → routed (set_app a s) = true.
Proof. unfold routed. rewrite !andb_true_iff. simpl. tauto. Qed.

Lemma route_on_app {E' A} (op : M AppState E' A) : preserves route_in true op → kept_route (on_app op).
Proof.
  intros Hop s i Hs. unfold on_app, zoom. pose proof (proj2 (andb_prop _ _ Hs)) as Ha. specialize (Hop (app s) i Ha).
  destruct (op (app s) i) as [[r a'] i']. by apply routed_app.
Qed.

Lemma route_try_send {E'} chan fr : kept_route (try_send (E := E') chan fr).
Proof. unfold try_send. preserve. Qed.

Lemma route_reply {E'} fr : kept_route (reply (E := E') fr).
Proof. unfold reply. pose proof (@route_try_send). preserve. Qed.

Lemma route_spawn {E' A} (op : M Session E' A) : kept_route op → kept_route (spawn_blocking (E' := E) op).
Proof. intros H. unfold spawn_blocking. preserve. Qed.

Lemma route_queues {E' A} (op : M QueueStore E' A) : kept_route (on_queues op).
Proof. by apply route_on_app, preserves_zoom_other. Qed.

Lemma route_files {E' A} (op : M FileStore E' A) : kept_route (on_files op).
Proof. by apply route_on_app, preserves_zoom_other. Qed.

#[local] Hint Resolve route_try_send route_reply route_queues route_files : preserve.

Lemma route_deliver {E'} chan envs n : kept_route (deliver (E := E') chan envs n).
Proof. revert n. induction envs as [|env rest IH]; intros n; simpl; unfold send_await; preserve. Qed.

#[local] Hint Resolve route_deliver : preserve.

Lemma route_in_delete o a : (∀ x, o !! m = Some x → online a !! m = Some x) → route_in a = true → route_in (set_online o a) = true.
Proof. unfold route_in. simpl. intros Ho. destruct (o !! m) as [x|]; [|done]. by rewrite (Ho x). Qed.

Lemma route_in_drop to a : route_in a = true → route_in (set_online (delete to (online a)) a) = true.
Proof. apply route_in_delete. by intros x [_ Hx]%lookup_delete_Some. Qed.

Lemma routed_insert s rid : joins = true → routed s = true → routed (set_app (set_online (<[rid := tx (conn s)]> (online (app s))) (app s)) s) = true.
Proof.
  unfold routed. simpl. intros -> [Ht Ho]%andb_prop. simpl in *. rewrite Ht. simpl. unfold route_in in *. simpl.
  destruct (decide (rid = m)) as [->|Hne]; [by rewrite lookup_insert_eq|by rewrite lookup_insert_ne].
Qed.

Lemma route_enter rid ah dh pow : preserves route_in true (enter_mailbox (E := E) rid ah dh pow).
Proof. unfold enter_mailbox, reserve_mailbox_slot, new_mailbox. preserve; done. Qed.

Lemma route_authorize to tok : preserves route_in true (authorize_delivery (E := E) to tok).
Proof. unfold authorize_delivery. preserve; done. Qed.

Lemma route_allow to : preserves route_in true (allow_dest_send (E := E) to).
Proof. unfold allow_dest_send. preserve; done. Qed.

Lemma route_mark_auth rid : preserves route_in true (mark_auth_dirty (E := E) rid).
Proof. unfold mark_auth_dirty. preserve; done. Qed.

Lemma route_prune : preserves route_in true (prune_expired_bundles (E := E)).
Proof. unfold prune_expired_bundles, mark_bundle_dirty. preserve; done. Qed.

Lemma route_insert now id ct exp : preserves route_in true (insert_bundle (E := E) now id ct exp).
Proof. unfold insert_bundle, mark_bundle_dirty. preserve; done. Qed.

#[local] Hint Resolve route_enter route_authorize route_allow route_mark_auth route_prune route_insert : preserve.

Ltac route := repeat first [progress preserve | apply route_on_app | apply route_spawn | apply routed_insert; [by auto|]].

Lemma route_flush rid : kept_route (flush_backlog (E := E) rid).
Proof. unfold flush_backlog. route. Qed.

Lemma route_queue_envelope cr to env live : kept_route (queue_envelope (E := E) cr to env live).
Proof. unfold queue_envelope. route. Qed.

Lemma route_deliver_live to env : kept_route (deliver_live (E := E) to env).
Proof.
  unfold deliver_live. route. by apply route_in_drop.
Qed.

#[local] Hint Resolve route_flush route_queue_envelope route_deliver_live : preserve.

(** A Hello gives a mailbox no route but its own channel, the other frames none. *)
Lemma frame_keeps_route d f : (is_hello f = true → joins = true) → kept_route (on_frame (E := E) d f).
Proof.
  intros Hj. destruct f; unfold on_frame, on_hello, on_set_delivery_tokens, on_issue_sender_certificate, on_send_envelope,
    on_upload_bundle, on_fetch_bundle, on_upload_file_chunk, on_fetch_file_chunk, on_delete_transfer, on_ack,
    on_retire_mailbox, on_ping; route.
  all: first [done | by apply route_in_drop].
Qed.
End Routes.
