(* ===== verification/RelayProps.v ===== *)
(** What any history of the relay guarantees: the invariant, and why a
    registration is there, a message reaches a socket, a mailbox loses its
    owner, a message leaves its queue. *)
From Stdlib Require Import ZArith Lia Ascii String.
From stdpp Require Import base gmap strings list.
From S2P Require Import Prelude Redb RustStd Config Util Protocol Mailbox Signal State StateFacts StateOps StateProps.
From S2P Require Import Ws WsFacts WsRuns WsFrames WsDemo WsProps WsConn Relay RelayFacts RelayFrames.
From S2P Require QueueStore.
From S2P Require QueueFacts.
From S2P Require QueueSpec.
From S2P Require QueueProps.
From S2P Require FileStore.
From S2P Require FileProps.

Section Reasons.
Context {RD : Redb} {UL : UuidLib} {LS : LibSignal} {HS : Hashing} {B6 : Base64} {JS : Json}.
Context {SV : Serde QueueStore.StoredValue} {SM : Serde FileStore.FileMeta}.
Context {SA : Serde MailboxAuth} {SB : Serde HostedBundle}.
Implicit Types (w : Relay) (m rid : string) (t : Turn) (c : Conn).

(** ** What a turn was *)

#[global] Instance turned_away_dec rid h pow a i : Decision (turned_away rid h pow a i).
Proof. unfold turned_away. destruct (mailbox_auth a !! rid); apply _. Defined.

#[global] Instance touches_dec f s i m : Decision (touches f s i m).
Proof.
  destruct f; cbn [touches]; try apply _.
  destruct (mailbox_auth (app s) !! m) as [a|] eqn:Ha; [|right; intros (_ & a & [=] & _)].
  destruct (accepts_delivery_hash a (token_hash delivery_token)) eqn:Hacc; [|right; intros (_ & a' & [= <-] & ?); congruence].
  destruct (decide (m = to)); [left; by eauto|right; by intros [? _]].
Defined.

(** Connection [c] handled the frame [f] on [chan]. *)
Definition handled (chan : ClientTx) c f t : Prop :=
  ∃ d text, label t = Received chan d (Text text) ∧ parse_frame text = inr f ∧ conns (before t) !! chan = Some c.

(** It said Hello for [rid] with the owner's token, or with a proof of work for
    an id nobody owned. *)
Definition entered_by (chan : ClientTx) rid t : Prop :=
  ∃ c atok dtok pmin pmax pver pow co, handled chan c (Hello rid atok dtok pmin pmax pver pow co) t
    ∧ ¬ turned_away rid (token_hash atok) pow (shared (before t)) (clock_tick (script t)).

(** Someone registered for [m] retired it. *)
Definition retired m t : Prop := ∃ chan c, handled chan c RetireMailbox t ∧ recipient_id c = Some m.

(** The garbage collection reached [m], unused for longer than the TTL and with
    no socket online. *)
Definition collected_by_gc m t : Prop :=
  label t = GcNext ∧ ∃ now rest, collecting (before t) = Some (now, m :: rest) ∧ collectable now (shared (before t)) m.

(** ** Where registrations, routes and envelopes come from *)

Record earned (tr : list Turn) w : Prop := {
  ea_conn : ∀ chan c rid, conns w !! chan = Some c → recipient_id c = Some rid → Exists (entered_by chan rid) tr;
  ea_route : ∀ m chan, online (shared w) !! m = Some chan → Exists (entered_by chan m) tr;
  ea_out : ∀ chan env, (chan, Envelope env) ∈ outbox w → Exists (entered_by chan (env_to env)) tr;
}.

Lemma exists_later tr t (P : Turn → Prop) : Exists P tr → Exists P (tr ++ [t]).
Proof. intros H. apply Exists_app. by left. Qed.

Lemma exists_now tr t (P : Turn → Prop) : P t → Exists P (tr ++ [t]).
Proof. intros H. apply Exists_app. right. by apply Exists_cons_hd. Qed.

Lemma earned_keeps tr t w w' :
  earned tr w → conns w' = conns w → online (shared w') = online (shared w) → outbox w' = outbox w → earned (tr ++ [t]) w'.
Proof. intros [] H1 H2 H3. split; rewrite ?H1, ?H2, ?H3; intros; apply exists_later; eauto. Qed.

(** A handled frame: its registration, routes and envelopes, from those before. *)
Section Handled.
Context (T : Z) (tr : list Turn) w (chan : ClientTx) (c : Conn) (d d' : Draws) (text : string) (f : ClientFrame) (i : io).
Context (Hearned : earned tr w) (Hc : conns w !! chan = Some c) (Hf : parse_frame text = inr f) (Htx : tx c = chan).

Abbreviation s0 := (counted (session_of w c) i).
Abbreviation after t := (tr ++ [t]).
Abbreviation turn := {| before := w; label := Received chan d' (Text text); script := i |}.

Context (r : Empty_set + Flow) (s1 : Session) (i1 : io).
Context (Hrun : on_frame d f s0 (clock_tick i) = (r, s1, i1)).
Context (Hp : passes ∅ (touches f s0 (clock_tick i)) (names f) T (emits f s0 (clock_tick i)) s0 (clock_tick i) s1 i1).

Lemma counted_session : app s0 = shared w ∧ recipient_id (conn s0) = recipient_id c ∧ tx (conn s0) = chan ∧ sent s0 = [].
Proof. destruct (counted_same (session_of w c) i) as (Ha & Hr & Ht & Hs). rewrite Ha, Hr, Ht, Hs. by split_and!. Qed.

(** A Hello that may touch the mailbox entered it. *)
Lemma hello_enters m : is_hello f = true → touches f s0 (clock_tick i) m → entered_by chan m turn.
Proof.
  intros Hh. destruct f as [rid atok dtok pmin pmax pver pow co| | | | | | | | | | |]; try done. cbn [touches]. intros [-> Ht].
  exists c, atok, dtok, pmin, pmax, pver, pow, co. split; [by exists d', text|].
  by rewrite (proj1 counted_session) in Ht.
Qed.

Lemma handled_conn rid : recipient_id (conn s1) = Some rid → Exists (entered_by chan rid) (after turn).
Proof.
  intros Hrid. destruct counted_session as (_ & Hr & _).
  destruct (is_hello f) eqn:Hh.
  - destruct (ps_rid _ _ _ _ _ _ _ _ _ Hp) as [Heq|(rid' & Heq & Ht & _)].
    + apply exists_later. eapply (ea_conn _ _ Hearned); [exact Hc|]. rewrite Heq, Hr in Hrid. exact Hrid.
    + apply exists_now. rewrite Heq in Hrid. injection Hrid as ->. by apply hello_enters.
  - apply exists_later. eapply (ea_conn _ _ Hearned); [exact Hc|].
    assert (recipient_id (conn s1) = recipient_id (conn s0)) as Hk.
    { pose proof (frame_keeps_registration (E := Empty_set) _ d f Hh s0 (clock_tick i) eq_refl) as Hk. by rewrite Hrun in Hk. }
    congruence.
Qed.

(** Its routes are the old ones, and its own channel after a Hello. *)
Lemma route_source m chan' :
  online (app s1) !! m = Some chan' → online (shared w) !! m = Some chan' ∨ is_hello f = true ∧ chan' = chan.
Proof.
  intros Hon. destruct counted_session as (Ha & _ & Ht & _).
  set (allowed := (if is_hello f then [chan] else []) ++ option_list (online (shared w) !! m)).
  assert (routed m allowed (is_hello f) s0 = true) as H0.
  { unfold routed, route_in, allowed. rewrite Ha, Ht. apply andb_true_intro. split.
    - destruct (is_hello f); [|done]. apply bool_decide_eq_true. simpl. by left.
    - destruct (online (shared w) !! m) as [x|]; [|done]. apply bool_decide_eq_true, elem_of_app. right. by apply list_elem_of_singleton. }
  pose proof (frame_keeps_route (E := Empty_set) m allowed (is_hello f) d f (λ H, H) s0 (clock_tick i) H0) as Hk.
  rewrite Hrun in Hk. apply andb_prop in Hk as [_ Hk]. unfold route_in in Hk. cbn [fst snd] in Hk. rewrite Hon in Hk.
  apply bool_decide_eq_true, elem_of_app in Hk as [Hin|Hin].
  - right. destruct (is_hello f); [by apply list_elem_of_singleton in Hin|by apply elem_of_nil in Hin].
  - left. destruct (online (shared w) !! m); [by apply list_elem_of_singleton in Hin as ->|by apply elem_of_nil in Hin].
Qed.

Lemma handled_route m chan' : online (app s1) !! m = Some chan' → Exists (entered_by chan' m) (after turn).
Proof.
  intros Hon. destruct (decide (online (shared w) !! m = Some chan')) as [Hold|Hnew]; [apply exists_later; by apply (ea_route _ _ Hearned)|].
  destruct (route_source _ _ Hon) as [?|[Hh ->]]; [done|]. apply exists_now, hello_enters; [done|].
  destruct (decide (touches f s0 (clock_tick i) m)) as [?|Hnt]; [done|]. exfalso. apply Hnew.
  rewrite <- Hon, (sm_online _ _ _ (k_mailbox _ _ _ _ _ _ (ps_keeps _ _ _ _ _ _ _ _ _ Hp) m Hnt)).
  by rewrite (proj1 counted_session).
Qed.

Lemma handled_out chan' env : (chan', Envelope env) ∈ sent s1 → Exists (entered_by chan' (env_to env)) (after turn).
Proof.
  intros Hin. destruct counted_session as (Ha & _ & Ht & Hs).
  destruct (ps_sent _ _ _ _ _ _ _ _ _ Hp) as (l & Hl & HR). rewrite Hl, Hs in Hin. simpl in Hin.
  rewrite Forall_forall in HR. pose proof (HR _ Hin) as He. cbn [fst snd emits] in He. destruct He as [Htouch [[Hh ->]|Hon]].
  - rewrite Ht. by apply exists_now, hello_enters.
  - apply exists_later, (ea_route _ _ Hearned). by rewrite Ha in Hon.
Qed.
End Handled.

Lemma moved_earned T tr l w i w' :
  RelayInv w → moved T l w i w' → earned tr w → earned (tr ++ [{| before := w; label := l; script := i |}]) w'.
Proof.
  intros HI Hm He. destruct l; cbn [moved] in Hm.
  - destruct Hm as [[-> _]|(now & -> & _)]; [by eapply earned_keeps|]. destruct He as [H1 H2 H3].
    split; simpl; intros; apply exists_later; [|by eauto..].
    match goal with H : <[_ := _]> _ !! _ = _ |- _ => apply lookup_insert_Some in H as [[<- <-]|[_ ?]] end; [done|by eauto].
  - destruct (conns w !! chan) as [c|] eqn:Hc; [|subst w'; by eapply earned_keeps].
    destruct Hm as (more & s1 & a & Hit & -> & Ha). pose proof (proj1 (ri_conns _ HI _ _ Hc)) as Htx.
    set (t := {| before := w; label := Received chan d incoming; script := i |}).
    assert ((∀ rid, recipient_id (conn s1) = Some rid → Exists (entered_by chan rid) (tr ++ [t]))
      ∧ (∀ m chan', online (app s1) !! m = Some chan' → Exists (entered_by chan' m) (tr ++ [t]))
      ∧ (∀ chan' env, (chan', Envelope env) ∈ sent s1 → Exists (entered_by chan' (env_to env)) (tr ++ [t]))) as (Hcn & Hrt & Hout).
    { destruct Hit as (_ & _ & [(E1 & E2 & E3)|(d' & text & f & r & i1 & -> & Hf & _ & Hrun & Hp)]).
      - rewrite E1, E2. split_and!; [by intros; apply exists_later; eapply (ea_conn _ _ He)..| |].
        + intros m chan' Hon. by apply exists_later, (ea_route _ _ He).
        + intros chan' env Hin. apply E3 in Hin. by apply elem_of_nil in Hin.
      - split_and!; intros; [eapply handled_conn|eapply handled_route|eapply handled_out]; done. }
    split; simpl.
    + intros chan' c' rid Hc'. destruct (decide (chan' = chan)) as [->|Hne].
      * rewrite lookup_partial_alter_eq in Hc'. destruct more; [injection Hc' as <-; apply Hcn|done].
      * rewrite lookup_partial_alter_ne in Hc' by done. intros. apply exists_later. by eapply (ea_conn _ _ He).
    + intros m chan' Hon. apply Hrt. destruct more; [by subst a|]. destruct Ha as (o & -> & _ & Ho). by apply Ho.
    + intros chan' env [Hin|Hin]%elem_of_app; [by apply exists_later, (ea_out _ _ He)|by apply Hout].
  - destruct Hm as (a & -> & Hram & _). eapply earned_keeps; try done. apply Hram.
  - destruct Hm as (c & ->). by eapply earned_keeps.
  - destruct Hm as (c & a & -> & [->|(now & rid & rest & _ & _ & Hcol & _)]); eapply earned_keeps; try done. apply Hcol.
  - destruct Hm as (q & -> & _). by eapply earned_keeps.
  - destruct Hm as (x & -> & _). by eapply earned_keeps.
Qed.
(** ** Why a message leaves *)

(** The owner of [m] acknowledged it. *)
Definition acked m (x : QueueSpec.Message) t : Prop :=
  ∃ chan c ids, handled chan c (Ack ids) t ∧ recipient_id c = Some m ∧ QueueSpec.msg_id x ∈ ids.

(** An accepted send to [m] found no room behind it. *)
Definition evicted m (x : QueueSpec.Message) t : Prop :=
  ∃ chan c cr tok ty ct a, handled chan c (SendEnvelope cr m tok ty ct) t
    ∧ mailbox_auth (shared (before t)) !! m = Some a ∧ accepts_delivery_hash a (token_hash tok) = true
    ∧ x ∉ QueueSpec.keep_newest (slen ct) (QueueSpec.abs (queues (shared (before t))) m).

(** It was swept, older than the TTL. *)
Definition expired (x : QueueSpec.Message) t : Prop :=
  label t = QueuesSwept ∧ QueueSpec.msg_at x < next_now (script t) -^ QUEUE_TTL_MS.

Definition message_reason m x t : Prop :=
  acked m x t ∨ evicted m x t ∨ retired m t ∨ expired x t ∨ collected_by_gc m t.

#[global] Instance message_eq_dec : EqDecision QueueSpec.Message.
Proof. solve_decision. Defined.

Lemma handled_message T w chan c d d' text f i m x r s1 i1 :
  RelayInv w → conns w !! chan = Some c → parse_frame text = inr f →
  frame_pre T d f (counted (session_of w c) i) (clock_tick i) →
  on_frame (E := Empty_set) d f (counted (session_of w c) i) (clock_tick i) = (r, s1, i1) →
  passes ∅ (touches f (counted (session_of w c) i) (clock_tick i)) (names f) T
    (emits f (counted (session_of w c) i) (clock_tick i)) (counted (session_of w c) i) (clock_tick i) s1 i1 →
  x ∈ QueueSpec.abs (queues (shared w)) m →
  x ∈ QueueSpec.abs (queues (app s1)) m
  ∨ message_reason m x {| before := w; label := Received chan d' (Text text); script := i |}.
Proof.
  intros HI Hc Hf Hpre Hrun Hp Hx. set (t := {| before := w; label := _; script := i |}). set (s0 := counted _ i) in *.
  pose proof (proj1 (ri_conns _ HI _ _ Hc)) as Htx.
  destruct (counted_session w chan c i Htx) as (Ha & Hr & Ht & _). fold s0 in Ha, Hr, Ht.
  assert (SessionInv s0) as Hsess by (split; [rewrite Ha; apply HI|rewrite Hr; apply (ri_conns _ HI _ _ Hc)]).
  assert (handled chan c f t) as Hh by by exists d', text.
  destruct (moves_queues f) eqn:Hm.
  2:{ left. pose proof (frame_keeps_queues (E := Empty_set) _ d f Hm s0 (clock_tick i) eq_refl) as Hk.
      rewrite Hrun in Hk. cbn [fst snd] in Hk. by rewrite Hk, Ha. }
  destruct (decide (touches f s0 (clock_tick i) m)) as [Htouch|Hnt].
  2:{ left. by rewrite (sm_queue _ _ _ (k_mailbox _ _ _ _ _ _ (ps_keeps _ _ _ _ _ _ _ _ _ Hp) m Hnt)), Ha. }
  destruct f; try done; cbn [touches] in Htouch.
  - destruct Htouch as (-> & a & Hauth & Hacc). rewrite Ha in Hauth.
    pose proof (wp_run _ _ _ _ _ _ _ (send_wp (E := Empty_set) T d _ _ _ _ _ s0 (clock_tick i) Hsess Hpre) Hrun) as [_ Hs].
    destruct (decide (x ∈ QueueSpec.keep_newest (slen ciphertext) (QueueSpec.abs (queues (shared w)) to))) as [Hk|Hk].
    2:{ right. right. left. by exists chan, c, client_ref, delivery_token, envelope_type, ciphertext, a. }
    left. destruct Hs as (l & k & fr & _ & _ & Hs). destruct (send_refusal _ _ _ _ _) as [code|].
    { destruct Hs as (_ & -> & _). by rewrite Ha. }
    destruct Hs as (live & _ & Hs). unfold stored_and_answered in Hs. destruct (QueueStore.would_exceed_global _ _).
    { destruct Hs as [-> _]. by rewrite Ha. }
    destruct Hs as [[(now & Hq) _]|(_ & Hq & _)]; rewrite Hq, Ha; [|done]. apply elem_of_app. by left.
  - rewrite Hr in Htouch. destruct (decide (QueueSpec.msg_id x ∈ ids)) as [Hin|Hni]; [right; left; by exists chan, c, ids|].
    left. rewrite <- Hr in Htouch.
    pose proof (wp_run _ _ _ _ _ _ _ (ack_is_answered_exactly (E := Empty_set) ids s0 (clock_tick i) m Hsess Htouch) Hrun)
      as (_ & _ & _ & _ & _ & [[Hq _]|(_ & Hq & _)]); rewrite Hq, Ha; [|done]. by apply list_elem_of_filter.
  - right. right. right. left. exists chan, c. split; [done|congruence].
Qed.

Lemma moved_message T w l i w' m x :
  RelayInv w → x ∈ QueueSpec.abs (queues (shared w)) m → moved T l w i w' →
  x ∈ QueueSpec.abs (queues (shared w')) m ∨ message_reason m x {| before := w; label := l; script := i |}.
Proof.
  intros HI Hx Hm. destruct l; cbn [moved] in Hm.
  - left. by destruct Hm as [[-> _]|(now & -> & _)].
  - destruct (conns w !! chan) as [c|] eqn:Hc; [|left; by subst]. destruct Hm as (more & s1 & a & Hit & -> & Ha).
    assert (QueueSpec.abs (queues a) m = QueueSpec.abs (queues (app s1)) m) as Hq.
    { destruct more; [by subst a|]. by destruct Ha as (o & -> & _). }
    simpl. rewrite Hq. destruct Hit as (_ & _ & [(-> & _ & _)|(d' & text & f & r & i1 & -> & Hf & Hpre & Hrun & Hp)]); [by left|].
    by eapply handled_message.
  - destruct Hm as (a & -> & Hram & _). left. simpl. by rewrite (proj1 Hram).
  - destruct Hm as (c & ->). by left.
  - destruct Hm as (c & a & -> & [->|(now & rid & rest & Hcol & Hca & Hgc & _)]); [by left|]. simpl.
    destruct (decide (m = rid)) as [->|Hne].
    + right. do 4 right. split; [done|]. by exists now, rest.
    + left. by rewrite (gc_queue _ _ _ Hgc).
  - destruct Hm as (q & -> & _ & [Hq|Hq]); simpl; rewrite Hq; [by left|].
    destruct (Z.leb_spec (next_now i -^ QUEUE_TTL_MS) (QueueSpec.msg_at x)).
    + left. by apply list_elem_of_filter.
    + right. do 3 right. by left.
  - destruct Hm as (q & -> & _). by left.
Qed.

(** ** Why a mailbox changes hands *)

Lemma moved_owner T w l i w' rid owner :
  RelayInv w → owner_of rid (shared w) = Some owner → moved T l w i w' →
  owner_of rid (shared w') = Some owner
  ∨ retired rid {| before := w; label := l; script := i |} ∨ collected_by_gc rid {| before := w; label := l; script := i |}.
Proof.
  intros HI Ho Hm. destruct l; cbn [moved] in Hm.
  - left. by destruct Hm as [[-> _]|(now & -> & _)].
  - destruct (conns w !! chan) as [c|] eqn:Hc; [|left; by subst]. destruct Hm as (more & s1 & a & Hit & -> & Ha).
    assert (owner_of rid a = owner_of rid (app s1)) as Hq.
    { destruct more; [by subst a|]. by destruct Ha as (o & -> & _). }
    simpl. rewrite Hq. destruct Hit as (_ & _ & [(-> & _ & _)|(d' & text & f & r & i1 & -> & Hf & _ & Hrun & Hp)]); [by left|].
    pose proof (proj1 (ri_conns _ HI _ _ Hc)) as Htx. destruct (counted_session w chan c i Htx) as (Hs & Hr & Ht & _).
    rewrite <- Hs in Ho. destruct (decide (touches f (counted (session_of w c) i) (clock_tick i) rid)) as [Htouch|Hnt].
    2:{ left. unfold owner_of. by rewrite (sm_auth _ _ _ (k_mailbox _ _ _ _ _ _ (ps_keeps _ _ _ _ _ _ _ _ _ Hp) rid Hnt)). }
    assert (f = RetireMailbox ∨ f ≠ RetireMailbox) as [->|Hne] by (destruct f; auto).
    + right. left. cbn [touches] in Htouch. exists chan, c. split; [by exists d, text|congruence].
    + left. pose proof (frame_keeps_owner (E := Empty_set) rid owner d' f Hne _ (clock_tick i) Ho) as Hk. by rewrite Hrun in Hk.
  - destruct Hm as (a & -> & Hram & _). left. simpl. unfold owner_of. destruct Hram as (_ & _ & _ & _ & -> & _). done.
  - destruct Hm as (c & ->). by left.
  - destruct Hm as (c & a & -> & [->|(now & m & rest & Hcol & Hca & Hgc & _)]); [by left|]. simpl.
    destruct (decide (rid = m)) as [->|Hne].
    + right. right. split; [done|]. by exists now, rest.
    + left. unfold owner_of. by rewrite (gc_auth _ _ _ Hgc), lookup_delete_ne.
  - left. by destruct Hm as (q & -> & _).
  - left. by destruct Hm as (q & -> & _).
Qed.

(** ** Histories *)

(** Any interleaving of connections, flushes, sweeps and garbage collections keeps the relay
    well formed: queues, files and counters true and within their caps, every socket under its
    own channel, the connection count the number of open sockets and at most the cap; and if the
    flushes meet no failure, every cached entry equals the durable one or is marked dirty. *)
Theorem relay_keeps_invariant T w tr w' :
  run T w tr w' → RelayInv w →
  RelayInv w' ∧ (Forall (λ t, label t = Flushed → quiet (script t)) tr → Coherent (shared w) → Coherent (shared w')).
Proof.
  intros Hrun HI. split; [by eapply run_moves|]. induction Hrun as [w|w tr w1 l i w2 i2 Hrun IH Hpre Hs]; [done|].
  intros [Hq Hl]%Forall_app HC. destruct (run_moves _ _ _ _ Hrun HI) as [HI1 _].
  pose proof (wp_run _ _ _ _ _ _ _ (relay_step_moves T l w1 i HI1 Hpre) Hs) as [_ Hm].
  eapply (moved_coherent T l w1 i); [exact HI1|exact Hm|exact (proj1 (Forall_singleton _ _) Hl)|by apply IH].
Qed.

(** In any history of a started relay, whatever connections and background tasks interleave
    and whatever calls fail, an envelope is only ever handed to a socket that said Hello for its
    mailbox with the owner's token (or with a proof of work when nobody owned it), and a socket
    is registered only for mailboxes it entered that way. *)
Theorem sockets_serve_who_entered T a tr w :
  AppInv a → admitted a → conn_count a = 0 → online a = ∅ → run T (idle_relay a) tr w →
  (∀ chan env, (chan, Envelope env) ∈ outbox w → Exists (entered_by chan (env_to env)) tr)
  ∧ ∀ chan c rid, conns w !! chan = Some c → recipient_id c = Some rid → Exists (entered_by chan rid) tr.
Proof.
  intros HI Hadm Hn Hon Hrun. assert (RelayInv (idle_relay a)) as HR.
  { split; simpl; [done..|]. rewrite Hn. split; [done|]. unfold MAX_CONNECTIONS. lia. }
  enough (earned tr w) as [] by by split.
  remember (idle_relay a) as w0 eqn:Hw0. induction Hrun as [w|w tr w1 l i w2 i2 Hrun IH Hpre Hs]; subst w.
  - split; [done| |]; simpl; [by rewrite Hon|]. intros chan env Hin. by apply elem_of_nil in Hin.
  - destruct (run_moves _ _ _ _ Hrun HR) as [HI1 _].
    pose proof (wp_run _ _ _ _ _ _ _ (relay_step_moves T l w1 i HI1 Hpre) Hs) as [_ Hm].
    eapply moved_earned; [done|done|by apply IH].
Qed.

(** In any history, a queued message is still in its queue unless a socket registered for
    the mailbox acknowledged it, an accepted send to the mailbox had no room behind it, a
    registered socket retired the mailbox, the sweep found it older than the TTL, or the garbage
    collection reached the mailbox idle and offline. *)
Theorem messages_leave_for_a_reason T w tr w' m x :
  run T w tr w' → RelayInv w → x ∈ QueueSpec.abs (queues (shared w)) m →
  x ∈ QueueSpec.abs (queues (shared w')) m ∨ Exists (message_reason m x) tr.
Proof.
  intros Hrun HI Hx.
  destruct (run_loses T (λ w, x ∈ QueueSpec.abs (queues (shared w)) m)
    (λ w1 l i, message_reason m x {| before := w1; label := l; script := i |}) w tr w') as [?|He]; [|done..|by left|].
  - intros w1 l i w2 HI1 Hx1 _ Hm. by apply (moved_message T w1 l i w2).
  - right. eapply Exists_impl; [exact He|]. by intros [].
Qed.

(** In any history, the hash that opens a mailbox stays what it is unless a socket
    registered for the mailbox retired it or the garbage collection reached it unused for longer
    than the TTL and offline: no Hello, token update or restarted connection takes a mailbox
    over. *)
Theorem owner_changes_by_removal_only T w tr w' rid owner :
  run T w tr w' → RelayInv w → owner_of rid (shared w) = Some owner →
  owner_of rid (shared w') = Some owner ∨ Exists (λ t, retired rid t ∨ collected_by_gc rid t) tr.
Proof.
  intros Hrun HI Ho.
  destruct (run_loses T (λ w, owner_of rid (shared w) = Some owner)
    (λ w1 l i, let t := {| before := w1; label := l; script := i |} in retired rid t ∨ collected_by_gc rid t) w tr w')
    as [?|He]; [|done..|by left|].
  - intros w1 l i w2 HI1 Ho1 _ Hm. by apply (moved_owner T w1 l i w2).
  - right. eapply Exists_impl; [exact He|]. by intros [].
Qed.

(** A play is a run when each turn's environment fits and it ends well. *)
Fixpoint plays (T : Z) (turns : list (Label * io)) (w : Relay) : Prop :=
  match turns with
  | [] => True
  | (l, i) :: rest =>
      turn_pre T l w i ∧ (relay_step (E := Empty_set) l w i).1.1 = inr tt
      ∧ plays T rest (relay_step (E := Empty_set) l w i).1.2
  end.

Fixpoint trace (turns : list (Label * io)) (w : Relay) : list Turn :=
  match turns with
  | [] => []
  | (l, i) :: rest => {| before := w; label := l; script := i |} :: trace rest (relay_step (E := Empty_set) l w i).1.2
  end.

Lemma play_runs T w0 turns w tr : run T w0 tr w → plays T turns w → run T w0 (tr ++ trace turns w) (play turns w).
Proof.
  revert w tr. induction turns as [|[l i] rest IH]; intros w tr Hrun; simpl; [by rewrite app_nil_r|].
  intros (Hpre & Hok & Hrest). rewrite cons_middle, app_assoc. apply IH; [|done].
  apply (run_snoc _ _ _ w l i _ (relay_step (E := Empty_set) l w i).2); [done..|].
  destruct (relay_step (E := Empty_set) l w i) as [[r w2] i2]. simpl in *. by rewrite Hok.
Qed.
End Reasons.

(** ** Witnesses *)

Section Witnesses.
#[local] Existing Instances gmap_redb unary_uuid demo_signal demo_hashing demo_base64 demo_json QueueProps.demo_serde
  FileProps.meta_serde auth_serde bundle_serde.

(** Socket [chan] hears [text]; an envelope would be given the id [id]. *)
Definition hears (chan : ClientTx) (id : Uuid) (text : string) : Label :=
  Received chan {| draw_uuid := id; draw_rng := inr () |} (Text text).

Definition idle : Relay := idle_relay demo_state.

Lemma RelayInv_idle : RelayInv idle.
Proof.
  split; [apply AppInv_demo|split; vm_compute; congruence|by intros chan c Hc|split; [done|vm_compute; congruence]].
Qed.

(** The frame's environment at [at_ten]. *)
Lemma heard_pre w chan id text f0 :
  find_frame text demo_texts = Some f0 → frame_fits MAX_FRAME_BYTES f0 →
  (∀ to, QueueFacts.entries (queues (shared w)) !! QueueStore.key_for to id = None) →
  QueueStore.next_seq (queues (shared w)) < u64_max →
  max_total_file_bytes (FileStore.config (files (shared w))) + MAX_FRAME_BYTES ≤ u64_max →
  turn_pre 100 (hears chan id text) w at_ten.
Proof.
  intros Hf0 Hfit Hfresh Hseq Hmax c f Hc Hf. cbn [parse_frame demo_json] in Hf. rewrite Hf0 in Hf. injection Hf as <-.
  split; simpl; [exact Hfit|done..|constructor|done|].
  unfold clock_below. simpl. repeat constructor; lia.
Qed.
(** A socket enters [demo_rid]; a second one sends to it; the tables are flushed. *)
Definition story : list (Label * io) :=
  [(Opened, at_ten); (hears 0%nat 1%nat "hello", at_ten); (Opened, at_ten); (hears 1%nat 7%nat "send", at_ten);
   (Flushed, at_ten)].

(** Each turn evaluated where it starts. *)
Ltac next_turn :=
  split; [first [exact I | eapply heard_pre; [reflexivity|first [exact I | by vm_compute]|intros to; by vm_compute|by vm_compute..]]
         |split; [by vm_compute|]].

Lemma story_runs : run 100 idle (trace story idle) (play story idle).
Proof.
  apply (play_runs 100 idle story idle []); [apply run_nil|]. repeat (next_turn). exact I.
Qed.

Lemma relay_keeps_invariant_witness :
  RelayInv (play story idle) ∧ Coherent (shared (play story idle)).
Proof.
  destruct (relay_keeps_invariant 100 idle (trace story idle) (play story idle) story_runs RelayInv_idle) as [HI HC].
  split; [exact HI|]. apply HC; [|exact Coherent_demo]. repeat constructor.
Defined.

Definition story_envelope : StoredEnvelope :=
  {| env_id := 7%nat; env_to := demo_rid; envelope_type := "msg"; ciphertext := "c1" |}.

Lemma sockets_serve_who_entered_witness :
  (0%nat, Envelope story_envelope) ∈ outbox (play story idle) ∧ Exists (entered_by 0%nat demo_rid) (trace story idle).
Proof.
  assert ((0%nat, Envelope story_envelope) ∈ outbox (play story idle)) as Hin by (vm_compute; right; right; left).
  split; [exact Hin|].
  apply (proj1 (sockets_serve_who_entered 100 demo_state (trace story idle) (play story idle) AppInv_demo
    (ri_admitted _ RelayInv_idle) eq_refl eq_refl story_runs) 0%nat story_envelope Hin).
Defined.

(** A socket sends to [demo_rid], which is offline. *)
Definition sending : list (Label * io) := [(Opened, at_ten); (hears 0%nat 7%nat "send", at_ten)].

Definition waiting : Relay := play sending idle.

Definition waiting_message : QueueSpec.Message :=
  {| QueueSpec.msg_id := 7%nat; QueueSpec.msg_type := "msg"; QueueSpec.msg_ct := "c1"; QueueSpec.msg_at := 10 |}.

Lemma RelayInv_waiting : RelayInv waiting.
Proof.
  eapply (run_moves 100 idle); [|exact RelayInv_idle].
  apply (play_runs 100 idle sending idle []); [apply run_nil|]. repeat (next_turn). exact I.
Qed.

Definition sweeping : list (Label * io) := [(QueuesSwept, Io [] [] [3000000000; 3000000000] [])].

Lemma messages_leave_for_a_reason_witness :
  (waiting_message ∉ QueueSpec.abs (queues (shared (play sweeping waiting))) demo_rid)
  ∧ Exists (message_reason demo_rid waiting_message) (trace sweeping waiting).
Proof.
  assert (run 100 waiting (trace sweeping waiting) (play sweeping waiting)) as Hrun.
  { apply (play_runs 100 waiting sweeping waiting []); [apply run_nil|]. split; [exact I|]. split; [by vm_compute|exact I]. }
  assert (waiting_message ∉ QueueSpec.abs (queues (shared (play sweeping waiting))) demo_rid) as Hgone.
  { vm_compute. apply not_elem_of_nil. }
  split; [exact Hgone|].
  destruct (messages_leave_for_a_reason 100 waiting _ _ demo_rid waiting_message Hrun RelayInv_waiting) as [Hstill|Hwhy].
  - vm_compute. left.
  - contradiction.
  - exact Hwhy.
Defined.

(** The owner retires the mailbox. *)
Definition farewell : list (Label * io) :=
  [(Opened, at_ten); (hears 0%nat 1%nat "hello", at_ten); (hears 0%nat 3%nat "retire", at_ten)].

Lemma owner_changes_by_removal_only_witness :
  owner_of demo_rid (shared (play farewell idle)) = None
  ∧ Exists (λ t, retired demo_rid t ∨ collected_by_gc demo_rid t) (trace farewell idle).
Proof.
  assert (run 100 idle (trace farewell idle) (play farewell idle)) as Hrun.
  { apply (play_runs 100 idle farewell idle []); [apply run_nil|]. repeat (next_turn). exact I. }
  assert (owner_of demo_rid (shared (play farewell idle)) = None) as Hgone by (by vm_compute).
  split; [exact Hgone|].
  destruct (owner_changes_by_removal_only 100 idle _ _ demo_rid (receive_auth_hash demo_auth) Hrun RelayInv_idle eq_refl) as [Hstill|Hwhy].
  - congruence.
  - exact Hwhy.
Defined.

(** A socket keeps its registration when another one retires the mailbox; after
    a new owner registers the id, its Ack still removes the new owner's
    messages. *)
Example stale_socket_acks :
  let before_ack := play
    [(Opened, at_ten); (hears 0%nat 1%nat "hello", at_ten); (Opened, at_ten); (hears 1%nat 2%nat "hello", at_ten);
     (hears 1%nat 3%nat "retire", at_ten); (Opened, at_ten); (hears 2%nat 4%nat "claim", at_ten);
     (Opened, at_ten); (hears 3%nat 7%nat "send", at_ten)] idle in
  owner_of demo_rid (shared before_ack) ≠ owner_of demo_rid (shared idle)
  ∧ length (QueueSpec.abs (queues (shared before_ack)) demo_rid) = 1%nat
  ∧ QueueSpec.abs (queues (shared (play [(hears 0%nat 5%nat "ack", at_ten)] before_ack))) demo_rid = [].
Proof. split_and!; [by vm_compute|by vm_compute|by vm_compute]. Qed.
End Witnesses.
