(* ===== verification/Steps.v ===== *)
(** The frames of a connection, operation by operation.

    [Ws] runs a handler in one go.  On the relay's worker threads it is a
    sequence of operations, each indivisible, between which other threads run.
    [op] is the type of these operations, with the type of what each answers;
    [Steps] a program that performs them one after the other; [perform] what an
    operation does.  The handlers of [Ws] are written again here as programs,
    under their names with the ending [_steps].

    An operation is what the code does under one lock of a shared table, with the
    counter kept along with the table, or one closure of [spawn_blocking], or one
    use of a channel, or one use of the connection's own variables. *)
From Stdlib Require Import ZArith Lia Ascii String.
From stdpp Require Import base gmap strings list.
From S2P Require Import Prelude Redb RustStd Config Util Protocol Mailbox Signal State Ws.
From S2P Require QueueStore.
From S2P Require FileStore.
From S2P Require MetaStore.

Section Steps.
Context {RD : Redb} {UL : UuidLib} {LS : LibSignal} {HS : Hashing} {B6 : Base64} {JS : Json}.
Context {SV : Serde QueueStore.StoredValue} {SM : Serde FileStore.FileMeta}.
Context {SA : Serde MailboxAuth} {SB : Serde HostedBundle}.

(** ** Operations *)

Inductive op : Type → Type :=
  (* the connection's own variables, its channel, the clock *)
  | Whoami : op (option string)
  | SetRecipient (rid : string) : op ()
  | CountFrame : op Z
  | Clock : op Z
  | Pow (id nonce : string) : op bool
  | Reply (frame : ServerFrame) : op bool
  | SendAwait (frame : ServerFrame) : op bool
  (* mailbox_auth and its dirty set *)
  | Enter (rid auth_hash delivery_hash : string) (pow : option string) : op (ServerFrame + ())
  | ReplaceTokens (rid : string) (hashes : list string) : op (option Z)
  | Authorize (to delivery_token : string) : op bool
  | RemoveMailbox (rid : string) : op bool
  | RemoveIdle (now : Z) (rid : string) : op bool
  | SubMailboxCount : op ()
  | GcCandidates (now : Z) : op (list string)
  | MarkAuth (rid : string) : op ()
  | DirtyAuth : op (list string)
  | UndirtyAuth (rid : string) : op ()
  | ReadAuth (rid : string) : op (option MailboxAuth)
  | WriteAuth (batch : list (string * option MailboxAuth)) : op (anyhow + ())
  (* send_rate *)
  | AllowSend (to : string) : op bool
  | DropRate (rid : string) : op ()
  (* online *)
  | SetRoute (rid : string) : op ()
  | SendLive (to : string) (env : StoredEnvelope) : op (option bool)
  | DropRoute (rid : string) : op ()
  | RouteIsMine (rid : string) : op bool
  | HasRoute (rid : string) : op bool
  (* the queues *)
  | WouldExceed (incoming : Z) : op bool
  | FlushQueue (rid : string) : op (option (anyhow + list StoredEnvelope))
  | Enqueue (to : string) (env : StoredEnvelope) : op (option (anyhow + Z))
  | AckIds (rid : string) (ids : list Uuid) : op (option (anyhow + Z))
  | PurgeQueue (rid : string) : op (option (anyhow + Z))
  | PurgeHere (rid : string) : op (anyhow + Z)
  | QueueIsEmpty (rid : string) : op (anyhow + bool)
  | SweepQueues : op (anyhow + Z)
  (* the invite bundles *)
  | LastPrune : op Z
  | SetLastPrune (now : Z) : op ()
  | ExpiredBundles (now : Z) : op (list (string * Z))
  | RemoveBundle (bundle_id : string) : op bool
  | GetBundle (bundle_id : string) : op (option HostedBundle)
  | CountBundles : op Z
  | InsertBundle (bundle : HostedBundle) : op (option Z)
  | BundleBytes : op Z
  | AddBundleBytes (n : Z) : op ()
  | SubBundleBytes (n : Z) : op ()
  | MarkBundle (bundle_id : string) : op ()
  | DirtyBundles : op (list string)
  | UndirtyBundle (bundle_id : string) : op ()
  | WriteBundles (batch : list (string * option HostedBundle)) : op (anyhow + ())
  (* the file store *)
  | StoreChunk (transfer_id : string) (chunk_index total_chunks total_bytes : Z) (raw : bytes)
      : op (option (FileStore.FileReject + FileStore.StoredChunk))
  | FetchChunk (transfer_id : string) (chunk_index : Z) : op (option (FileStore.FileReject + FileStore.FetchedChunk))
  | DeleteTransferOp (transfer_id : string) : op (option (anyhow + bool))
  | SweepFiles : op (anyhow + Z)
  (* what never changes; whether a blocking task starts *)
  | ServerInfo : op (string * Z)
  | Issue (rng : string + Rng) (request_id sender_uuid : string) (sender_device_id : Z) (sender_cert_public_b64 : string)
      : op (string + ServerFrame)
  | Spawn : op bool.

(** [remove_if] of the garbage collection. *)
Definition remove_idle {E : Type} (now : Z) (rid : string) : M AppState E bool :=
  s ← get;
  let collected :=
    match mailbox_auth s !! rid with
    | Some auth => idle now auth && negb (contains_online rid s)
    | None => false
    end in
  if collected then
    _ ← put (set_mailbox_auth (delete rid (mailbox_auth s)) s);
    mret true
  else mret false.

Definition remove_mailbox {E : Type} (rid : string) : M AppState E bool :=
  s ← get;
  match mailbox_auth s !! rid with
  | Some _ => _ ← put (set_mailbox_auth (delete rid (mailbox_auth s)) s); mret true
  | None => mret false
  end.

Definition remove_bundle {E : Type} (id : string) : M AppState E bool :=
  s ← get;
  match bundles s !! id with
  | Some _ => _ ← put (set_bundles (delete id (bundles s)) s); mret true
  | None => mret false
  end.

(** The length of the bundle that was replaced. *)
Definition insert_entry {E : Type} (bundle : HostedBundle) : M AppState E (option Z) :=
  s ← get;
  _ ← put (set_bundles (<[bundle_key bundle := bundle]> (bundles s)) s);
  mret ((λ old, slen (bundle_ciphertext old)) <$> bundles s !! bundle_key bundle).

Definition replace_tokens {E : Type} (rid : string) (hashes : list string) : M AppState E (option Z) :=
  s ← get;
  match mailbox_auth s !! rid with
  | Some auth =>
      let auth := replace_delivery_hashes hashes auth in
      _ ← modify (λ s, set_mailbox_auth (<[rid := auth]> (mailbox_auth s)) s);
      mret (Some (Z.of_nat (length (delivery_token_hashes auth))))
  | None => mret None
  end.

Definition perform {E A : Type} (o : op A) : M Session E A :=
  match o in op A return M Session E A with
  | Whoami => s ← get; mret (recipient_id (conn s))
  | SetRecipient rid => modify (λ s, set_conn (set_recipient_id rid (conn s)) s)
  | CountFrame =>
      now ← now_ms;
      _ ← modify (λ s, set_conn (count_frame now (conn s)) s);
      s ← get;
      mret (frame_count (conn s))
  | Clock => now_ms
  | Pow id nonce => verify_pow id nonce
  | Reply frame => s ← get; try_send (tx (conn s)) frame
  | SendAwait frame => s ← get; send_await (tx (conn s)) frame
  | Enter rid auth_hash delivery_hash pow => on_app (enter_mailbox rid auth_hash delivery_hash pow)
  | ReplaceTokens rid hashes => on_app (replace_tokens rid hashes)
  | Authorize to delivery_token => on_app (authorize_delivery to delivery_token)
  | RemoveMailbox rid => on_app (remove_mailbox rid)
  | RemoveIdle now rid => on_app (remove_idle now rid)
  | SubMailboxCount => on_app (modify (λ s, set_mailbox_count (mailbox_count s -! 1) s))
  | GcCandidates now => s ← get; mret (gc_candidates now (mailbox_auth (app s)))
  | MarkAuth rid => on_app (mark_auth_dirty rid)
  | DirtyAuth => s ← get; mret (elements (dirty_auth (app s)))
  | UndirtyAuth rid => on_app (modify (λ s, set_dirty_auth (dirty_auth s ∖ {[rid]}) s))
  | ReadAuth rid => s ← get; mret (mailbox_auth (app s) !! rid)
  | WriteAuth batch => attempt (on_app (zoom meta_store set_meta_store (MetaStore.flush_auth batch)))
  | AllowSend to => on_app (allow_dest_send to)
  | DropRate rid => on_app (modify (λ s, set_send_rate (delete rid (send_rate s)) s))
  | SetRoute rid => modify (λ s, set_app (set_online (<[rid := tx (conn s)]> (online (app s))) (app s)) s)
  | SendLive to env =>
      s ← get;
      match online (app s) !! to with
      | Some live => ok ← try_send live (Envelope env); mret (Some ok)
      | None => mret None
      end
  | DropRoute rid => on_app (modify (λ s, set_online (delete rid (online s)) s))
  | RouteIsMine rid =>
      s ← get;
      mret (match online (app s) !! rid with Some live => bool_decide (live = tx (conn s)) | None => false end)
  | HasRoute rid => s ← get; mret (contains_online rid (app s))
  | WouldExceed incoming => s ← get; mret (QueueStore.would_exceed_global (queues (app s)) incoming)
  | FlushQueue rid => spawn_blocking (on_queues (QueueStore.flush rid))
  | Enqueue to env => spawn_blocking (on_queues (QueueStore.enqueue to env))
  | AckIds rid ids => spawn_blocking (on_queues (QueueStore.ack rid ids))
  | PurgeQueue rid => spawn_blocking (on_queues (QueueStore.purge_mailbox rid))
  | PurgeHere rid => attempt (on_queues (QueueStore.purge_mailbox rid))
  | QueueIsEmpty rid => attempt (on_queues (QueueStore.is_empty rid))
  | SweepQueues => attempt (on_queues QueueStore.sweep_expired)
  | LastPrune => s ← get; mret (last_bundle_prune_ms (app s))
  | SetLastPrune now => on_app (modify (λ s, set_last_bundle_prune_ms now s))
  | ExpiredBundles now => s ← get; mret (expired_bundles now (bundles (app s)))
  | RemoveBundle id => on_app (remove_bundle id)
  | GetBundle bundle_id => s ← get; mret (bundles (app s) !! bundle_id)
  | CountBundles => s ← get; mret (Z.of_nat (size (bundles (app s))))
  | InsertBundle bundle => on_app (insert_entry bundle)
  | BundleBytes => s ← get; mret (total_bundle_bytes (app s))
  | AddBundleBytes n => on_app (modify (λ s, set_total_bundle_bytes (total_bundle_bytes s +! n) s))
  | SubBundleBytes n => on_app (modify (λ s, set_total_bundle_bytes (atomic_sub_saturating (total_bundle_bytes s) n) s))
  | MarkBundle bundle_id => on_app (mark_bundle_dirty bundle_id)
  | DirtyBundles => s ← get; mret (elements (dirty_bundles (app s)))
  | UndirtyBundle id => on_app (modify (λ s, set_dirty_bundles (dirty_bundles s ∖ {[id]}) s))
  | WriteBundles batch => attempt (on_app (zoom meta_store set_meta_store (MetaStore.flush_bundles batch)))
  | StoreChunk id idx total_chunks total_bytes raw =>
      spawn_blocking (on_files (FileStore.store_chunk id idx total_chunks total_bytes raw))
  | FetchChunk id idx => spawn_blocking (on_files (FileStore.fetch_chunk id idx))
  | DeleteTransferOp id => spawn_blocking (on_files (FileStore.delete_transfer Failed id))
  | SweepFiles => attempt (on_files (FileStore.sweep_expired Failed))
  | ServerInfo => s ← get; mret (trust_root_public_b64 (crypto (app s)), max_file_bytes (file_config (app s)))
  | Issue rng request_id sender_uuid sender_device_id sender_cert_public_b64 =>
      s ← get;
      attempt (issue_sender_certificate (crypto (app s)) rng request_id sender_uuid sender_device_id sender_cert_public_b64)
  | Spawn => joined ← attempt (io_call tt); mret (match joined with inr _ => true | inl _ => false end)
  end.
End Steps.

(** ** Programs *)

Section Programs.
Context {RD : Redb} {UL : UuidLib} {LS : LibSignal} {HS : Hashing} {B6 : Base64} {JS : Json}.
Context {SV : Serde QueueStore.StoredValue} {SM : Serde FileStore.FileMeta}.
Context {SA : Serde MailboxAuth} {SB : Serde HostedBundle}.

Inductive Steps (A : Type) : Type :=
  | Done (a : A)
  | Do {B : Type} (o : op B) (k : B → Steps A).

#[global] Arguments Done {A} a.
#[global] Arguments Do {A B} o k.

#[global] Instance Steps_ret : MRet Steps := λ A a, Done a.

Fixpoint bind_steps {A B : Type} (f : A → Steps B) (p : Steps A) : Steps B :=
  match p with
  | Done a => f a
  | Do o k => Do o (λ b, bind_steps f (k b))
  end.

#[global] Instance Steps_bind : MBind Steps := λ A B f p, bind_steps f p.

Definition do {A : Type} (o : op A) : Steps A := Do o Done.

(** The whole program with nothing in between. *)
Fixpoint run_steps {E A : Type} (p : Steps A) : M Session E A :=
  match p with
  | Done a => mret a
  | Do o k => b ← perform o; run_steps (k b)
  end.

Definition reply_steps (frame : ServerFrame) : Steps Flow := _ ← do (Reply frame); mret Continue.

Definition pow_steps (id : string) (pow : option string) : Steps bool :=
  match pow with Some n => do (Pow id n) | None => mret false end.

(** ** Frames *)

Fixpoint deliver_steps (envs : list StoredEnvelope) (delivered : Z) : Steps Z :=
  match envs with
  | [] => mret delivered
  | env :: rest =>
      ok ← do (SendAwait (Envelope env));
      if (ok : bool) then deliver_steps rest (delivered +! 1) else mret delivered
  end.

Definition hello_steps (rid auth_token delivery_token : string)
    (protocol_min protocol_max protocol_version : option Z) (pow : option string) (cert_only : bool) : Steps Flow :=
  match negotiate protocol_min protocol_max protocol_version with
  | None => reply_steps (err "protocol_mismatch" "no common relay protocol version")
  | Some selected =>
      if negb (valid_recipient_id rid) || negb (valid_token auth_token) || negb (valid_token delivery_token)
      then reply_steps (err "bad_hello" "invalid mailbox or token")
      else
        entered ← do (Enter rid (token_hash auth_token) (token_hash delivery_token) pow);
        match entered with
        | inl refusal => reply_steps refusal
        | inr _ =>
            _ ← do (MarkAuth rid);
            _ ← do (SetRecipient rid);
            now ← do Clock;
            '(trust_root, max_bytes) ← do ServerInfo;
            _ ← do (Reply (HelloOk selected PROTOCOL_MIN_SUPPORTED PROTOCOL_VERSION now trust_root max_bytes));
            if cert_only then mret Continue
            else
              _ ← do (SetRoute rid);
              flushed ← do (FlushQueue rid);
              delivered ← match flushed with Some (inr envs) => deliver_steps envs 0 | _ => mret 0 end;
              if 6 <=? selected then
                _ ← do (SendAwait (Synced delivered));
                mret Continue
              else mret Continue
        end
  end.

Definition set_delivery_tokens_steps (request_id : string) (tokens : list string) : Steps Flow :=
  me ← do Whoami;
  match me with
  | None => reply_steps not_registered
  | Some rid =>
      if bool_decide (tokens = []) || (MAX_DELIVERY_TOKENS_PER_MAILBOX <? length tokens)%nat
         || negb (forallb valid_token tokens)
      then reply_steps (err "bad_tokens" "invalid delivery-token allowlist")
      else
        replaced ← do (ReplaceTokens rid (token_hash <$> tokens));
        match replaced with
        | Some active_count =>
            _ ← do (MarkAuth rid);
            reply_steps (DeliveryTokensSet request_id active_count)
        | None => reply_steps (err "not_registered" "mailbox auth missing")
        end
  end.

Definition issue_steps (rng : string + Rng) (request_id sender_uuid : string) (sender_device_id : Z)
    (sender_cert_public_b64 : string) : Steps Flow :=
  me ← do Whoami;
  match me with
  | None => reply_steps not_registered
  | Some registered_rid =>
      if negb (bool_decide (sender_uuid = registered_rid)) then
        reply_steps (err "cert_denied" "sender certificate can only be issued for your authenticated mailbox")
      else
        issued ← do (Issue rng request_id sender_uuid sender_device_id sender_cert_public_b64);
        match issued with
        | inr frame => reply_steps frame
        | inl e => reply_steps (err "cert_failed" e)
        end
  end.

Definition deliver_live_steps (to : string) (env : StoredEnvelope) : Steps bool :=
  sent ← do (SendLive to env);
  match sent with
  | Some true => mret true
  | Some false => _ ← do (DropRoute to); mret false
  | None => mret false
  end.

Definition queue_envelope_steps (client_ref : option string) (to : string) (env : StoredEnvelope)
    (delivered_live : bool) : Steps Flow :=
  over ← do (WouldExceed (slen (ciphertext env)));
  if (over : bool) then
    if delivered_live then reply_steps (SendOk (env_id env) false client_ref)
    else reply_steps (send_err client_ref "relay_full" "relay queue storage limit reached")
  else
    stored ← do (Enqueue to env);
    let enqueued := match stored with Some (inr _) => true | _ => false end in
    _ ← do (MarkAuth to);
    if enqueued || delivered_live then reply_steps (SendOk (env_id env) (negb delivered_live) client_ref)
    else reply_steps (send_err client_ref "relay_error" "could not persist message for offline delivery").

Definition send_envelope_steps (fresh : Uuid) (client_ref : option string)
    (to delivery_token envelope_type ciphertext : string) : Steps Flow :=
  if negb (valid_recipient_id to) || negb (valid_token delivery_token) then
    reply_steps (send_err client_ref "bad_send" "invalid destination or delivery token")
  else if 32 <? slen envelope_type then
    reply_steps (send_err client_ref "bad_envelope" "envelope type too long")
  else
    authorized ← do (Authorize to delivery_token);
    if negb authorized then reply_steps (send_err client_ref "delivery_denied" "delivery token rejected")
    else
      allowed ← do (AllowSend to);
      if negb allowed then reply_steps (send_err client_ref "rate_limited" "too many sends to this destination")
      else
        let env := {| env_id := fresh; env_to := to; Protocol.envelope_type := envelope_type;
                      Protocol.ciphertext := ciphertext |} in
        delivered_live ← deliver_live_steps to env;
        queue_envelope_steps client_ref to env delivered_live.

Fixpoint remove_expired_steps (freed : Z) (expired : list (string * Z)) : Steps Z :=
  match expired with
  | [] => mret freed
  | (id, len) :: rest =>
      removed ← do (RemoveBundle id);
      if (removed : bool) then
        _ ← do (MarkBundle id);
        remove_expired_steps (freed +^ len) rest
      else remove_expired_steps freed rest
  end.

Definition prune_steps : Steps () :=
  now ← do Clock;
  last ← do LastPrune;
  if (now -^ last <? BUNDLE_PRUNE_MIN_INTERVAL_MS) && negb (last =? 0) then mret ()
  else
    _ ← do (SetLastPrune now);
    expired ← do (ExpiredBundles now);
    match expired with
    | [] => mret ()
    | _ =>
        freed ← remove_expired_steps 0 expired;
        do (SubBundleBytes freed)
    end.

Definition insert_bundle_steps (now : Z) (bundle_id ciphertext : string) (expires_at_ms : Z) : Steps Z :=
  let bundle_len := slen ciphertext in
  let max_expires := now +^ MAX_BUNDLE_TTL_MS in
  let expires := Z.max (Z.min expires_at_ms max_expires) (now +^ 60000) in
  let bundle := {| bundle_key := bundle_id; bundle_ciphertext := ciphertext; bundle_created_at_ms := now;
                   bundle_expires_at_ms := expires |} in
  old ← do (InsertBundle bundle);
  _ ← match old with Some len => do (SubBundleBytes len) | None => mret () end;
  _ ← do (AddBundleBytes bundle_len);
  _ ← do (MarkBundle bundle_id);
  mret expires.

Definition upload_bundle_steps (request_id bundle_id ciphertext : string) (expires_at_ms : Z)
    (pow : option string) : Steps Flow :=
  if negb (valid_bundle_id bundle_id) || (MAX_BUNDLE_BYTES <? slen ciphertext) then
    reply_steps (err "bad_bundle" "invalid invite bundle")
  else
    valid_pow ← pow_steps bundle_id pow;
    if negb valid_pow then reply_steps (err "bad_pow" "invalid proof of work for invite bundle upload")
    else
      _ ← prune_steps;
      now ← do Clock;
      existing ← do (GetBundle bundle_id);
      match existing_reply now request_id bundle_id ciphertext existing with
      | Some frame => reply_steps frame
      | None =>
          count ← do CountBundles;
          if MAX_BUNDLES <=? count then reply_steps (err "relay_full" "relay invite bundle limit reached")
          else
            total ← do BundleBytes;
            if MAX_TOTAL_BUNDLE_BYTES <? total +^ slen ciphertext then
              reply_steps (err "relay_full" "relay invite bundle storage limit reached")
            else
              now ← do Clock;
              expires ← insert_bundle_steps now bundle_id ciphertext expires_at_ms;
              reply_steps (BundleUploaded request_id bundle_id expires)
      end.

Definition fetch_bundle_steps (request_id bundle_id : string) : Steps Flow :=
  _ ← prune_steps;
  now ← do Clock;
  existing ← do (GetBundle bundle_id);
  let not_found := reply_steps (err "bundle_not_found" "invite bundle was not found or has expired") in
  match existing with
  | Some bundle =>
      if now <? bundle_expires_at_ms bundle then
        reply_steps (Bundle request_id (bundle_key bundle) (bundle_ciphertext bundle) (bundle_expires_at_ms bundle))
      else not_found
  | None => not_found
  end.

Definition upload_file_chunk_steps (request_id transfer_id : string)
    (chunk_index total_chunks total_bytes : Z) (ciphertext : string) (pow : option string) : Steps Flow :=
  let refuse code message := reply_steps (file_err request_id transfer_id code message) in
  if negb (valid_bundle_id transfer_id) then refuse "bad_request"%string "invalid transfer id"%string
  else
    match b64_decode ciphertext with
    | None => refuse "bad_request"%string "invalid chunk encoding"%string
    | Some raw =>
        pow_ok ← (if chunk_index =? 0 then pow_steps transfer_id pow else mret true);
        if negb pow_ok then refuse "pow_required"%string "invalid proof of work for new file transfer"%string
        else
          result ← do (StoreChunk transfer_id chunk_index total_chunks total_bytes raw);
          match result with
          | Some (inr stored) =>
              reply_steps (FileChunkStored request_id transfer_id chunk_index (FileStore.sc_received_chunks stored)
                       (FileStore.sc_total_chunks stored))
          | Some (inl reject) => refuse (FileStore.code reject) (FileStore.message reject)
          | None => refuse "relay_full"%string "could not store file chunk"%string
          end
    end.

Definition fetch_file_chunk_steps (request_id transfer_id : string) (chunk_index : Z) : Steps Flow :=
  let refuse code message := reply_steps (file_err request_id transfer_id code message) in
  if negb (valid_bundle_id transfer_id) then refuse "bad_request"%string "invalid transfer id"%string
  else
    result ← do (FetchChunk transfer_id chunk_index);
    match result with
    | Some (inr chunk) =>
        reply_steps (FileChunk request_id transfer_id chunk_index (FileStore.fc_total_chunks chunk)
                 (FileStore.fc_total_bytes chunk) (b64_encode (FileStore.data chunk)))
    | Some (inl reject) => refuse (FileStore.code reject) (FileStore.message reject)
    | None => refuse "not_found"%string "could not read file chunk"%string
    end.

Definition delete_transfer_steps (request_id transfer_id : string) : Steps Flow :=
  if negb (valid_bundle_id transfer_id) then
    reply_steps (file_err request_id transfer_id "bad_request" "invalid transfer id")
  else
    _ ← do (DeleteTransferOp transfer_id);
    reply_steps (TransferDeleted request_id transfer_id).

Definition ack_steps (ids : list Uuid) : Steps Flow :=
  me ← do Whoami;
  match me with
  | None => reply_steps not_registered
  | Some rid =>
      acked ← do (AckIds rid ids);
      let removed := match acked with Some (inr n) => n | _ => 0 end in
      reply_steps (AckOk removed)
  end.

Definition retire_mailbox_steps : Steps Flow :=
  me ← do Whoami;
  match me with
  | None => reply_steps not_registered
  | Some rid =>
      removed ← do (RemoveMailbox rid);
      _ ← (if (removed : bool) then do SubMailboxCount else mret ());
      _ ← do (PurgeQueue rid);
      _ ← do (DropRate rid);
      _ ← do (DropRoute rid);
      _ ← do (MarkAuth rid);
      _ ← do (Reply (AckOk 0));
      mret Break
  end.

Definition ping_steps : Steps Flow :=
  now ← do Clock;
  reply_steps (Pong now).

Definition frame_steps (d : Draws) (frame : ClientFrame) : Steps Flow :=
  match frame with
  | Hello rid auth_token delivery_token protocol_min protocol_max protocol_version pow cert_only =>
      hello_steps rid auth_token delivery_token protocol_min protocol_max protocol_version pow cert_only
  | SetDeliveryTokens request_id tokens => set_delivery_tokens_steps request_id tokens
  | IssueSenderCertificate request_id sender_uuid sender_device_id sender_cert_public_b64 =>
      issue_steps (draw_rng d) request_id sender_uuid sender_device_id sender_cert_public_b64
  | SendEnvelope client_ref to delivery_token envelope_type ciphertext =>
      send_envelope_steps (draw_uuid d) client_ref to delivery_token envelope_type ciphertext
  | UploadBundle request_id bundle_id ciphertext expires_at_ms pow =>
      upload_bundle_steps request_id bundle_id ciphertext expires_at_ms pow
  | FetchBundle request_id bundle_id => fetch_bundle_steps request_id bundle_id
  | UploadFileChunk request_id transfer_id chunk_index total_chunks total_bytes ciphertext pow =>
      upload_file_chunk_steps request_id transfer_id chunk_index total_chunks total_bytes ciphertext pow
  | FetchFileChunk request_id transfer_id chunk_index => fetch_file_chunk_steps request_id transfer_id chunk_index
  | DeleteTransfer request_id transfer_id => delete_transfer_steps request_id transfer_id
  | Ack ids => ack_steps ids
  | RetireMailbox => retire_mailbox_steps
  | Ping => ping_steps
  end.

(** ** The loop *)

Definition text_steps (d : Draws) (text : string) : Steps Flow :=
  count ← do CountFrame;
  if MAX_FRAMES_PER_WINDOW <? count then reply_steps (err "rate_limited" "too many frames on this socket")
  else if MAX_FRAME_BYTES <? slen text then reply_steps (err "too_large" "frame too large")
  else
    match parse_frame text with
    | inr frame => frame_steps d frame
    | inl e => reply_steps (err "bad_json" e)
    end.

Definition incoming_steps (d : Draws) (incoming : Incoming) : Steps Flow :=
  match incoming with
  | Text text => text_steps d text
  | OtherMessage => mret Continue
  | Stop => mret Break
  end.

Definition teardown_steps : Steps () :=
  me ← do Whoami;
  match me with
  | None => mret ()
  | Some rid =>
      mine ← do (RouteIsMine rid);
      if (mine : bool) then do (DropRoute rid) else mret ()
  end.

(** One item of the loop, up to the teardown when the loop ends; whether it goes
    on. *)
Definition turn_steps (d : Draws) (incoming : Incoming) : Steps bool :=
  flow ← incoming_steps d incoming;
  match flow with
  | Continue => mret true
  | Break => _ ← teardown_steps; mret false
  end.

(** ** Background tasks *)

Fixpoint take_auth_steps (batch : list (string * option MailboxAuth)) (keys : list string)
    : Steps (list (string * option MailboxAuth)) :=
  match keys with
  | [] => mret batch
  | k :: rest =>
      _ ← do (UndirtyAuth k);
      val ← do (ReadAuth k);
      take_auth_steps (batch ++ [(k, val)]) rest
  end.

Fixpoint take_bundles_steps (batch : list (string * option HostedBundle)) (keys : list string)
    : Steps (list (string * option HostedBundle)) :=
  match keys with
  | [] => mret batch
  | k :: rest =>
      _ ← do (UndirtyBundle k);
      val ← do (GetBundle k);
      take_bundles_steps (batch ++ [(k, val)]) rest
  end.

Definition flush_steps : Steps (anyhow + ()) :=
  auth_keys ← do DirtyAuth;
  auth_batch ← take_auth_steps [] auth_keys;
  written ← do (WriteAuth auth_batch);
  match written with
  | inl e => mret (inl e)
  | inr _ =>
      bundle_keys ← do DirtyBundles;
      bundle_batch ← take_bundles_steps [] bundle_keys;
      do (WriteBundles bundle_batch)
  end.

Fixpoint stale_steps (stale : list string) (candidates : list string) : Steps (list string) :=
  match candidates with
  | [] => mret stale
  | rid :: rest =>
      r ← do (QueueIsEmpty rid);
      let queue_empty := match r with inr b => b | inl _ => true end in
      routed ← do (HasRoute rid);
      stale_steps (if queue_empty && negb routed then stale ++ [rid] else stale) rest
  end.

Definition collect_one_steps (now : Z) (rid : string) : Steps bool :=
  collected ← do (RemoveIdle now rid);
  if (collected : bool) then
    _ ← do SubMailboxCount;
    _ ← do (MarkAuth rid);
    _ ← do (PurgeHere rid);
    _ ← do (DropRate rid);
    mret true
  else mret false.

Fixpoint collect_steps (now removed : Z) (stale : list string) : Steps Z :=
  match stale with
  | [] => mret removed
  | rid :: rest =>
      collected ← collect_one_steps now rid;
      collect_steps now (if (collected : bool) then removed +! 1 else removed) rest
  end.

Definition gc_steps : Steps Z :=
  now ← do Clock;
  candidates ← do (GcCandidates now);
  stale ← stale_steps [] candidates;
  collect_steps now 0 stale.

(** The background tasks, each in a closure of [spawn_blocking]. *)
Inductive Task := FlushTask | GcTask | QueueSweepTask | FileSweepTask.

Definition task_body (t : Task) : Steps () :=
  match t with
  | FlushTask => _ ← flush_steps; mret ()
  | GcTask => _ ← gc_steps; mret ()
  | QueueSweepTask => _ ← do SweepQueues; mret ()
  | FileSweepTask => _ ← do SweepFiles; mret ()
  end.

Definition spawn_steps (body : Steps ()) : Steps () :=
  started ← do Spawn;
  if (started : bool) then body else mret ().

(** A round of the task's loop; the flush looks first whether there is anything
    to write. *)
Definition task_steps (t : Task) : Steps () :=
  match t with
  | FlushTask =>
      auth ← do DirtyAuth;
      bundles ← do DirtyBundles;
      if bool_decide (auth = []) && bool_decide (bundles = []) then mret () else spawn_steps (task_body t)
  | _ => spawn_steps (task_body t)
  end.
End Programs.
