(* ===== verification/StepsAlone.v ===== *)
(** A program that runs with nothing in between is the handler of [Ws], the
    method of [State] or the task of [Relay] it spells out. *)
From Stdlib Require Import ZArith Lia Ascii String.
From stdpp Require Import base gmap strings list.
From S2P Require Import Prelude Redb RustStd Config Util Protocol Mailbox Signal State StateFacts Ws WsFacts Relay.
From S2P Require Import RelayFrames Steps.
From S2P Require QueueStore.
From S2P Require FileStore.
From S2P Require MetaStore.

Section Alone.
Context {RD : Redb} {UL : UuidLib} {LS : LibSignal} {HS : Hashing} {B6 : Base64} {JS : Json}.
Context {SV : Serde QueueStore.StoredValue} {SM : Serde FileStore.FileMeta}.
Context {SA : Serde MailboxAuth} {SB : Serde HostedBundle}.
Context {E : Type}.

(** ** Computations that agree *)

Definition agree {S A} (m1 m2 : M S E A) : Prop := ∀ s i, m1 s i = m2 s i.

#[global] Instance agree_equiv {S A} : Equivalence (agree (S := S) (A := A)).
Proof. split; [by intros m s i|by intros m1 m2 H s i|]. intros m1 m2 m3 H1 H2 s i. by rewrite H1. Qed.

Lemma agree_bind {S A B} (m1 m2 : M S E A) (k1 k2 : A → M S E B) :
  agree m1 m2 → (∀ a, agree (k1 a) (k2 a)) → agree (m1 ≫= k1) (m2 ≫= k2).
Proof.
  intros Hm Hk s i. unfold mbind, M_bind. rewrite Hm. destruct (m2 s i) as [[[e|a] s'] i']; [done|apply Hk].
Qed.

Lemma run_bind {A B} (p : Steps A) (f : A → Steps B) :
  agree (run_steps (p ≫= f)) (run_steps (E := E) p ≫= λ a, run_steps (f a)).
Proof.
  induction p as [a|C o k IH]; intros s i; [done|]. simpl. unfold mbind, M_bind.
  destruct (perform o s i) as [[[e|b] s'] i']; [done|]. apply IH.
Qed.

Lemma run_do {A B} (o : op A) (f : A → Steps B) :
  agree (run_steps (do o ≫= f)) (perform (E := E) o ≫= λ a, run_steps (f a)).
Proof. done. Qed.

Lemma run_reply frame : agree (run_steps (reply_steps frame)) (reply (E := E) frame).
Proof.
  intros s i. unfold reply_steps, reply, do. simpl. unfold mbind, M_bind, get.
  by destruct (try_send _ _ s i) as [[[e|b] s'] i'].
Qed.

Lemma run_reply_bind {B} frame (f : Flow → Steps B) :
  agree (run_steps (reply_steps frame ≫= f)) (reply (E := E) frame ≫= λ a, run_steps (f a)).
Proof. etrans; [apply run_bind|]. apply agree_bind; [apply run_reply|done]. Qed.

Lemma run_pow id pow :
  agree (run_steps (pow_steps id pow)) (match pow with Some n => verify_pow (E := E) id n | None => mret false end).
Proof.
  intros s i. destruct pow as [n|]; [|done]. simpl. unfold mbind, M_bind. by destruct (verify_pow id n s i) as [[[e|b] s'] i'].
Qed.

(** An operation that only reads. *)
Lemma run_read {A B} (o : op A) (v : A) (f : A → Steps B) s i :
  perform (E := E) o s i = (inr v, s, i) → run_steps (E := E) (Do o f) s i = run_steps (E := E) (f v) s i.
Proof. intros H. simpl. unfold mbind, M_bind. by rewrite H. Qed.

Lemma run_val {A B} (o : op A) (v : A) (f : A → Steps B) s i s' i' :
  perform (E := E) o s i = (inr v, s', i') → run_steps (E := E) (Do o f) s i = run_steps (E := E) (f v) s' i'.
Proof. intros H. simpl. unfold mbind, M_bind. by rewrite H. Qed.

Lemma run_step {A B} (o : op A) (f : A → Steps B) (m : M Session E A) (k : A → M Session E B) s i :
  perform o s i = m s i →
  (∀ a s' i', m s i = (inr a, s', i') → run_steps (f a) s' i' = k a s' i') →
  run_steps (Do o f) s i = (m ≫= k) s i.
Proof.
  intros Ho H. simpl. unfold mbind, M_bind. rewrite Ho. destruct (m s i) as [[[e|a] s'] i']; [done|by apply H].
Qed.

(** An operation that cannot fail, against a step of the handler whose answer is
    not used. *)
Lemma run_step_then {A A' B} (o : op A) (f : A → Steps B) (m : M Session E A') (k : A' → M Session E B) s i :
  (∀ a s' i', perform (E := E) o s i = (inr a, s', i') →
     ∃ a', m s i = (inr a', s', i') ∧ run_steps (f a) s' i' = k a' s' i') →
  (∀ e s' i', perform (E := E) o s i = (inl e, s', i') → m s i = (inl e, s', i')) →
  run_steps (Do o f) s i = (m ≫= k) s i.
Proof.
  intros H He. simpl. unfold mbind, M_bind. destruct (perform o s i) as [[[e|a] s'] i'].
  - by rewrite (He _ _ _ eq_refl).
  - by destruct (H _ _ _ eq_refl) as (a' & -> & H').
Qed.

Lemma run_then {A B} (p : Steps A) (f : A → Steps B) (m : M Session E A) (k : A → M Session E B) s i :
  agree (run_steps p) m →
  (∀ a s' i', m s i = (inr a, s', i') → run_steps (f a) s' i' = k a s' i') →
  run_steps (bind_steps f p) s i = (m ≫= k) s i.
Proof.
  intros Hp H. etrans; [apply (run_bind p f)|]. unfold mbind, M_bind. rewrite Hp.
  destruct (m s i) as [[[e|a] s'] i']; [done|by apply H].
Qed.

Lemma run_read_get {B} (K : Session → M Session E B) (P : Steps B) s i :
  run_steps P s i = K s s i → run_steps P s i = (get ≫= K) s i.
Proof. done. Qed.

(** ** Operations of the shared state *)

Lemma on_app_bind {A B} (m : M AppState E A) (k : A → M AppState E B) :
  agree (on_app (m ≫= k)) (on_app m ≫= λ a, on_app (k a)).
Proof.
  intros s i. unfold on_app, zoom, mbind, M_bind. destruct (m (app s) i) as [[[e|a] s'] i']; [done|]. simpl.
  by destruct (k a s' i') as [[r s''] i''].
Qed.

Lemma on_app_ret {A} (a : A) : agree (on_app (mret a)) (mret (M := M Session E) a).
Proof. by intros [] i. Qed.

Lemma on_app_get {A} (k : AppState → M AppState E A) s i : on_app (get ≫= k) s i = on_app (k (app s)) s i.
Proof. done. Qed.

Lemma on_app_foldM {A B} (f : A → B → M AppState E A) l a :
  agree (on_app (foldM f a l)) (foldM (λ a b, on_app (f a b)) a l).
Proof.
  revert a. induction l as [|b l IH]; intros a; [apply on_app_ret|]. simpl.
  etrans; [apply on_app_bind|]. apply agree_bind; [done|]. intros a'. apply IH.
Qed.

(** A loop of a program against one of a handler. *)
Lemma run_fold {A B} (h : A → list B → Steps A) (f : A → B → M Session E A) :
  (∀ a, h a [] = Done a) →
  (∀ a b l, agree (run_steps (h a (b :: l))) (f a b ≫= λ a', run_steps (h a' l))) →
  ∀ l a, agree (run_steps (h a l)) (foldM f a l).
Proof.
  intros H0 H1 l. induction l as [|b l IH]; intros a; simpl; [by rewrite H0|].
  etrans; [apply H1|]. by apply agree_bind.
Qed.
End Alone.

Lemma run_reply_then `{Redb, UuidLib, LibSignal, Hashing, Base64, Json, Serde QueueStore.StoredValue,
    Serde FileStore.FileMeta, Serde MailboxAuth, Serde HostedBundle} {E B} fr (f : bool → Steps B) (k : Flow → M Session E B) s i :
  (∀ a s' i', run_steps (f a) s' i' = k Continue s' i') → run_steps (Do (Reply fr) f) s i = (reply fr ≫= k) s i.
Proof.
  intros Hk. unfold reply. cbn [run_steps perform]. unfold mbind, M_bind, get.
  destruct (try_send _ _ s i) as [[[e|a] s'] i']; [done|]. apply Hk.
Qed.

Create HintDb alone discriminated.

(** Both sides to their next operation. *)
Ltac alone :=
  repeat first
    [ done
    | progress cbv zeta
    | progress cbn [mbind Steps_bind bind_steps do mret Steps_ret reply_steps]
    | lazymatch goal with
      | |- agree _ _ => intros ? ?
      | |- run_steps _ ?s ?i = (get ≫= _) ?s ?i => apply run_read_get
      | |- run_steps (match ?x with _ => _ end) _ _ = _ => destruct x eqn:?
      | |- run_steps (bind_steps _ (match ?x with _ => _ end)) _ _ = _ => destruct x eqn:?
      end
    | match goal with |- run_steps (Do (Reply ?fr) _) ?s ?i = reply _ _ _ => exact (run_reply fr s i) end
    | lazymatch goal with
      | |- run_steps (bind_steps _ _) ?s ?i = (_ ≫= _) ?s ?i =>
          apply run_then; [solve [eauto with alone nocore]|intros ? ? ? ?]
      | |- run_steps (_ ≫= _) ?s ?i = (_ ≫= _) ?s ?i =>
          apply (run_then (B := _)); [solve [eauto with alone nocore]|intros ? ? ? ?]
      | |- run_steps ?p ?s ?i = ?m ?s ?i =>
          let H := fresh in assert (agree (run_steps p) m) as H by (solve [eauto with alone nocore]); exact (H s i)
      end
    | apply run_reply_then; intros ? ? ?
    | erewrite run_read by reflexivity
    | apply run_step; [reflexivity|intros ? ? ? ?] ].

Section Frames.
Context {RD : Redb} {UL : UuidLib} {LS : LibSignal} {HS : Hashing} {B6 : Base64} {JS : Json}.
Context {SV : Serde QueueStore.StoredValue} {SM : Serde FileStore.FileMeta}.
Context {SA : Serde MailboxAuth} {SB : Serde HostedBundle}.
Context {E : Type}.

(** ** Frames *)

Lemma ping_alone : agree (run_steps ping_steps) (on_ping (E := E)).
Proof. unfold ping_steps, on_ping. alone. Qed.

Lemma ack_alone ids : agree (run_steps (ack_steps ids)) (on_ack (E := E) ids).
Proof. unfold ack_steps, on_ack. alone. Qed.

Lemma issue_alone rng req uuid dev key :
  agree (run_steps (issue_steps rng req uuid dev key)) (on_issue_sender_certificate (E := E) rng req uuid dev key).
Proof. unfold issue_steps, on_issue_sender_certificate. alone. Qed.

Lemma set_tokens_alone req toks :
  agree (run_steps (set_delivery_tokens_steps req toks)) (on_set_delivery_tokens (E := E) req toks).
Proof.
  unfold set_delivery_tokens_steps, on_set_delivery_tokens. alone.
  unfold run_steps, perform, on_app, zoom, replace_tokens, mbind, M_bind, get. cbn.
  destruct (mailbox_auth (app s) !! _); cbn; [|by destruct s; apply run_reply].
  by etrans; [|apply run_reply].
Qed.

Lemma deliver_alone chan envs n s i :
  tx (conn s) = chan → run_steps (E := E) (deliver_steps envs n) s i = deliver chan envs n s i.
Proof.
  revert n s i. induction envs as [|env rest IH]; intros n s i Hs; [done|].
  cbn [deliver_steps do mbind Steps_bind bind_steps run_steps deliver]. unfold mbind, M_bind.
  change (perform (E := E) (SendAwait (Envelope env)) s i) with (send_await (E := E) (tx (conn s)) (Envelope env) s i).
  rewrite Hs.
  destruct (send_await chan (Envelope env) s i) as [[[e|a] s'] i'] eqn:H; [done|].
  assert (tx (conn s') = chan).
  { assert (preserves (λ s, tx (conn s)) chan (send_await (E := E) chan (Envelope env))) as Hp.
    { unfold send_await, try_send. preserve. }
    specialize (Hp s i Hs). by rewrite H in Hp. }
  destruct a; [by apply IH|done].
Qed.

Lemma spawn_conn {A E'} (m : M Session E' A) c s i :
  preserves conn c m → conn s = c → conn (spawn_blocking (E' := E) m s i).1.2 = c.
Proof. intros H. assert (preserves conn c (spawn_blocking (E' := E) m)) as H'; [unfold spawn_blocking; preserve|by apply H']. Qed.

Lemma flush_alone rid :
  agree (run_steps (flushed ← do (FlushQueue rid);
                    match flushed with Some (inr envs) => deliver_steps envs 0 | _ => mret 0 end))
    (flush_backlog (E := E) rid).
Proof.
  intros s i. unfold flush_backlog, do. cbn [mbind Steps_bind bind_steps]. apply run_read_get.
  apply run_step; [reflexivity|]. intros a s' i' H.
  assert (conn s' = conn s) as Hc.
  { pose proof (spawn_conn (on_queues (QueueStore.flush rid)) (conn s) s i) as Hp. rewrite H in Hp. apply Hp; [|done].
    by apply preserves_zoom_other. }
  destruct a as [[e|envs]|]; [done| |done]. apply deliver_alone. by rewrite Hc.
Qed.

Lemma deliver_live_alone to env : agree (run_steps (deliver_live_steps to env)) (deliver_live (E := E) to env).
Proof.
  intros s i. unfold deliver_live_steps, deliver_live, do.
  cbn [mbind Steps_bind bind_steps run_steps perform]. unfold mbind, M_bind, get. cbn.
  destruct (online (app s) !! to) as [live|]; [|done]. destruct (try_send live _ s i) as [[[e|[]] s'] i'] eqn:H; [done..|].
  cbn. unfold on_app, zoom. cbn. by destruct s'.
Qed.

Lemma queue_envelope_alone cr to env live :
  agree (run_steps (queue_envelope_steps cr to env live)) (queue_envelope (E := E) cr to env live).
Proof. unfold queue_envelope_steps, queue_envelope. alone. Qed.
End Frames.

#[export] Hint Resolve run_reply run_pow ping_alone ack_alone issue_alone set_tokens_alone flush_alone deliver_live_alone
  queue_envelope_alone : alone.

Section Frames2.
Context {RD : Redb} {UL : UuidLib} {LS : LibSignal} {HS : Hashing} {B6 : Base64} {JS : Json}.
Context {SV : Serde QueueStore.StoredValue} {SM : Serde FileStore.FileMeta}.
Context {SA : Serde MailboxAuth} {SB : Serde HostedBundle}.
Context {E : Type}.

Lemma send_alone fresh cr to tok ty ct :
  agree (run_steps (send_envelope_steps fresh cr to tok ty ct)) (on_send_envelope (E := E) fresh cr to tok ty ct).
Proof. unfold send_envelope_steps, on_send_envelope. alone. Qed.

Lemma fetch_file_chunk_alone req id idx :
  agree (run_steps (fetch_file_chunk_steps req id idx)) (on_fetch_file_chunk (E := E) req id idx).
Proof. unfold fetch_file_chunk_steps, on_fetch_file_chunk. alone. Qed.

Lemma delete_transfer_alone req id :
  agree (run_steps (delete_transfer_steps req id)) (on_delete_transfer (E := E) req id).
Proof. unfold delete_transfer_steps, on_delete_transfer. alone. Qed.

Lemma first_pow_alone (first : bool) id pow :
  agree (run_steps (if first then pow_steps id pow else mret true))
    (if first then match pow with Some n => verify_pow (E := E) id n | None => mret false end else mret true).
Proof. destruct first; [apply run_pow|done]. Qed.

#[local] Hint Resolve first_pow_alone : alone.

Lemma upload_file_chunk_alone req id idx tc tb ct pow :
  agree (run_steps (upload_file_chunk_steps req id idx tc tb ct pow)) (on_upload_file_chunk (E := E) req id idx tc tb ct pow).
Proof. unfold upload_file_chunk_steps, on_upload_file_chunk. alone. Qed.

Lemma flush_then {B} rid (f : Z → Steps B) (k : Z → M Session E B) s i :
  (∀ n s' i', flush_backlog (E := E) rid s i = (inr n, s', i') → run_steps (f n) s' i' = k n s' i') →
  run_steps (Do (FlushQueue rid) (λ b, match b with Some (inr envs) => deliver_steps envs 0 | _ => mret 0 end ≫= f)) s i
  = (flush_backlog rid ≫= k) s i.
Proof. exact (run_then _ f _ k s i (flush_alone rid)). Qed.

Lemma hello_alone rid a del mn mx v pow cert :
  agree (run_steps (hello_steps rid a del mn mx v pow cert)) (on_hello (E := E) rid a del mn mx v pow cert).
Proof.
  unfold hello_steps, on_hello. alone. apply flush_then. intros. alone.
Qed.

Lemma remove_alone rid :
  agree (run_steps (removed ← do (RemoveMailbox rid); if (removed : bool) then do SubMailboxCount else mret ()))
    (on_app (
        s ← get;
        match mailbox_auth s !! rid with
        | Some _ =>
            _ ← put (set_mailbox_auth (delete rid (mailbox_auth s)) s);
            modify (E := E) (λ s, set_mailbox_count (mailbox_count s -! 1) s)
        | None => mret ()
        end)).
Proof.
  intros s i. cbn [do mbind Steps_bind bind_steps run_steps perform]. unfold remove_mailbox, on_app, zoom, mbind, M_bind, get.
  cbn. by destruct (mailbox_auth (app s) !! rid).
Qed.

Lemma retire_alone : agree (run_steps retire_mailbox_steps) (on_retire_mailbox (E := E)).
Proof.
  unfold retire_mailbox_steps, on_retire_mailbox. alone.
  refine (run_then _ _ _ _ _ _ (remove_alone _) _). intros. alone.
Qed.
End Frames2.

#[export] Hint Resolve send_alone fetch_file_chunk_alone delete_transfer_alone upload_file_chunk_alone hello_alone
  retire_alone : alone.

Section Bundles.
Context {RD : Redb} {UL : UuidLib} {LS : LibSignal} {HS : Hashing} {B6 : Base64} {JS : Json}.
Context {SV : Serde QueueStore.StoredValue} {SM : Serde FileStore.FileMeta}.
Context {SA : Serde MailboxAuth} {SB : Serde HostedBundle}.
Context {E : Type}.

(** ** Invite bundles *)

Definition remove_expired (freed : Z) (expired : list (string * Z)) : M AppState E Z :=
  foldM (λ freed '(id, len),
    s ← get;
    match bundles s !! id with
    | Some _ =>
        _ ← put (set_bundles (delete id (bundles s)) s);
        _ ← mark_bundle_dirty id;
        mret (freed +^ len)
    | None => mret freed
    end) freed expired.

Lemma remove_expired_alone l freed :
  agree (run_steps (remove_expired_steps freed l)) (on_app (remove_expired freed l)).
Proof.
  etrans; [|symmetry; apply on_app_foldM]. apply (run_fold (λ freed l, remove_expired_steps freed l)); [done|].
  intros f [id len] l' [a c lg] i. cbn [remove_expired_steps do mbind Steps_bind bind_steps run_steps perform].
  unfold remove_bundle, mark_bundle_dirty, on_app, zoom, mbind, M_bind, get, put, modify. cbn.
  by destruct (bundles a !! id).
Qed.

Lemma sub_expired_alone l :
  agree (run_steps (freed ← remove_expired_steps 0 l; do (SubBundleBytes freed)))
    (on_app (freed ← remove_expired 0 l;
             modify (E := E) (λ s, set_total_bundle_bytes (atomic_sub_saturating (total_bundle_bytes s) freed) s))).
Proof.
  etrans; [apply run_bind|]. etrans; [|symmetry; apply on_app_bind]. apply agree_bind; [apply remove_expired_alone|done].
Qed.

Lemma prune_alone : agree (run_steps prune_steps) (on_app (prune_expired_bundles (E := E))).
Proof.
  intros s i. unfold prune_steps, prune_expired_bundles. etrans; [|symmetry; apply on_app_bind].
  apply run_step; [by destruct s|]. intros now s1 i1 _. rewrite on_app_get.
  cbn [do mbind Steps_bind bind_steps]. erewrite run_read by reflexivity. cbv zeta.
  destruct (_ && _); [by destruct s1|]. etrans; [|symmetry; apply on_app_bind].
  apply run_step; [by destruct s1|]. intros [] s2 i2 _. rewrite on_app_get. erewrite run_read by reflexivity.
  destruct (expired_bundles now _) as [|x l]; [by destruct s2|]. apply sub_expired_alone.
Qed.

Lemma insert_bundle_alone now id ct exp :
  agree (run_steps (insert_bundle_steps now id ct exp)) (on_app (insert_bundle (E := E) now id ct exp)).
Proof.
  intros [a c lg] i. unfold insert_bundle_steps, insert_bundle, mark_bundle_dirty.
  cbn [do mbind Steps_bind bind_steps run_steps perform]. unfold insert_entry, on_app, zoom, mbind, M_bind, get, put, modify.
  cbn. by destruct (bundles a !! id).
Qed.

#[local] Hint Resolve prune_alone insert_bundle_alone : alone.

Lemma upload_bundle_alone req id ct exp pow :
  agree (run_steps (upload_bundle_steps req id ct exp pow)) (on_upload_bundle (E := E) req id ct exp pow).
Proof. unfold upload_bundle_steps, on_upload_bundle. alone. Qed.

Lemma fetch_bundle_alone req id :
  agree (run_steps (fetch_bundle_steps req id)) (on_fetch_bundle (E := E) req id).
Proof. unfold fetch_bundle_steps, on_fetch_bundle. alone. Qed.
End Bundles.

#[export] Hint Resolve prune_alone upload_bundle_alone fetch_bundle_alone : alone.

Section Turns.
Context {RD : Redb} {UL : UuidLib} {LS : LibSignal} {HS : Hashing} {B6 : Base64} {JS : Json}.
Context {SV : Serde QueueStore.StoredValue} {SM : Serde FileStore.FileMeta}.
Context {SA : Serde MailboxAuth} {SB : Serde HostedBundle}.
Context {E : Type}.

(** ** Turns *)

Lemma frame_alone d f : agree (run_steps (frame_steps d f)) (on_frame (E := E) d f).
Proof. destruct f; eauto with alone nocore. Qed.

Lemma text_alone d text : agree (run_steps (text_steps d text)) (on_text (E := E) d text).
Proof.
  intros s i. unfold text_steps, on_text.
  cbn [do mbind Steps_bind bind_steps].
  cbn [run_steps perform]. unfold now_ms, read_clock, mbind, M_bind, get, modify. cbn.
  destruct (_ <? _); [apply run_reply|]. destruct (_ <? _); [apply run_reply|].
  destruct (parse_frame text) as [e|f]; [apply run_reply|apply frame_alone].
Qed.

Lemma incoming_alone d inc : agree (run_steps (incoming_steps d inc)) (on_incoming (E := E) d inc).
Proof. destruct inc; [apply text_alone|done..]. Qed.

Lemma teardown_alone : agree (run_steps teardown_steps) (teardown (E := E)).
Proof.
  intros s i. unfold teardown_steps, teardown. cbn [do mbind Steps_bind bind_steps]. apply run_read_get.
  erewrite run_read by reflexivity. destruct (recipient_id (conn s)) as [rid|]; [|done].
  erewrite run_read by reflexivity. cbv zeta. destruct (online (app s) !! rid) as [live|]; [|done].
  destruct (bool_decide _); [|done]. cbn [run_steps perform]. unfold on_app, zoom, mbind, M_bind, modify. done.
Qed.

(** A turn, and the slot it gives back when it was the last. *)
Lemma turn_alone d inc :
  agree (more ← run_steps (turn_steps d inc);
         if (more : bool) then mret true
         else _ ← on_app (modify (λ s, set_conn_count (conn_count s -! 1) s)); mret false)
    (take_turn (E := E) d inc).
Proof.
  unfold take_turn, turn_steps.
  etrans; [apply agree_bind; [apply run_bind|by intros]|]. intros s i. unfold mbind, M_bind. rewrite (incoming_alone _ _ _ _).
  destruct (on_incoming d inc s i) as [[[e|[]] s1] i1]; [done..|].
  pose proof (run_bind (E := E) teardown_steps (λ _, mret false) s1 i1) as H. unfold mbind at 1 in H.
  unfold Steps_bind in H. unfold Steps_bind. rewrite H. unfold mbind, M_bind. rewrite teardown_alone.
  by destruct (teardown s1 i1) as [[[e|[]] s2] i2].
Qed.
End Turns.

Section Tasks.
Context {RD : Redb} {UL : UuidLib} {LS : LibSignal} {HS : Hashing} {B6 : Base64} {JS : Json}.
Context {SV : Serde QueueStore.StoredValue} {SM : Serde FileStore.FileMeta}.
Context {SA : Serde MailboxAuth} {SB : Serde HostedBundle}.
Context {E : Type}.

(** ** Background tasks *)

Lemma attempt_bind {S E' A B} (m : M S E A) (k : A → M S E B) :
  agree (attempt (E' := E') (m ≫= k))
    (r ← attempt m; match r with inr a => attempt (k a) | inl e => mret (inl e) end).
Proof.
  intros s i. unfold attempt, mbind, M_bind. by destruct (m s i) as [[[e|a] s'] i'].
Qed.

Lemma attempt_on_app {E1 E' A} (m : M AppState E1 A) : agree (attempt (E' := E') (on_app m)) (on_app (attempt m)).
Proof. intros s i. unfold attempt, on_app, zoom. by destruct (m (app s) i) as [[r a'] i']. Qed.

Lemma take_auth_alone keys batch :
  agree (run_steps (take_auth_steps batch keys)) (on_app (foldM (λ batch k,
    _ ← modify (E := E) (λ s, set_dirty_auth (dirty_auth s ∖ {[k]}) s);
    s ← get;
    mret (batch ++ [(k, mailbox_auth s !! k)])) batch keys)).
Proof.
  etrans; [|symmetry; apply on_app_foldM]. apply (run_fold (λ b l, take_auth_steps b l)); [done|].
  intros b k l [a c lg] i. done.
Qed.

Lemma take_bundles_alone keys batch :
  agree (run_steps (take_bundles_steps batch keys)) (on_app (foldM (λ batch k,
    _ ← modify (E := E) (λ s, set_dirty_bundles (dirty_bundles s ∖ {[k]}) s);
    s ← get;
    mret (batch ++ [(k, bundles s !! k)])) batch keys)).
Proof.
  etrans; [|symmetry; apply on_app_foldM]. apply (run_fold (λ b l, take_bundles_steps b l)); [done|].
  intros b k l [a c lg] i. done.
Qed.

Lemma stale_alone l stale :
  agree (run_steps (stale_steps stale l)) (on_app (foldM (λ stale rid,
    r ← attempt (E' := E) (zoom queues set_queues (QueueStore.is_empty rid));
    let queue_empty := match r with inr b => b | inl _ => true end in
    s ← get;
    mret (if queue_empty && negb (contains_online rid s) then stale ++ [rid] else stale)) stale l)).
Proof.
  etrans; [|symmetry; apply on_app_foldM]. apply (run_fold (λ b l, stale_steps b l)); [done|].
  intros b k l' [a c lg] i. cbn [stale_steps do mbind Steps_bind bind_steps run_steps perform].
  unfold on_queues, on_app, attempt, zoom, mbind, M_bind, get. cbn -[QueueStore.is_empty].
  by destruct (QueueStore.is_empty k (queues a) i) as [[r q] i'].
Qed.

Lemma collect_one_alone now rid :
  agree (run_steps (collect_one_steps now rid)) (on_app (gc_collect_one (E := E) now rid)).
Proof.
  intros s i. unfold collect_one_steps, gc_collect_one. rewrite on_app_get. cbv zeta.
  cbn [do mbind Steps_bind bind_steps].
  set (c := match mailbox_auth (app s) !! rid with Some _ => _ | None => _ end).
  assert (perform (E := E) (RemoveIdle now rid) s i = (inr c,
    if c then set_app (set_mailbox_auth (delete rid (mailbox_auth (app s))) (app s)) s else s, i)) as H.
  { cbn [perform]. unfold remove_idle, on_app, zoom, mbind, M_bind, get. fold c. by destruct c, s. }
  rewrite (run_val _ _ _ _ _ _ _ H). destruct c; [|by destruct s].
  etrans; [|symmetry; apply on_app_bind]. cbv beta.
  match goal with |- ?l = (on_app (put ?a) ≫= ?k) s i => change (l = k tt (set_app a s) i) end. cbv beta.
  do 2 (etrans; [|symmetry; apply on_app_bind]; apply run_step; [reflexivity|intros ? ? ? _]).
  etrans; [|symmetry; apply on_app_bind]; apply run_step.
  { exact (attempt_on_app (zoom queues set_queues (QueueStore.purge_mailbox rid)) _ _). }
  intros ? ? ? _. etrans; [|symmetry; apply on_app_bind]; apply run_step; [reflexivity|intros ? ? ? _].
  by destruct s'2.
Qed.

Lemma collect_alone now l removed :
  agree (run_steps (collect_steps now removed l)) (on_app (foldM (λ removed rid,
    collected ← gc_collect_one (E := E) now rid;
    mret (if (collected : bool) then removed +! 1 else removed)) removed l)).
Proof.
  etrans; [|symmetry; apply on_app_foldM]. apply (run_fold (λ b l, collect_steps now b l)); [done|].
  intros b k l'. cbn [collect_steps]. etrans; [apply run_bind|].
  intros s i. unfold mbind at 1 2, M_bind at 1 2. rewrite (collect_one_alone _ _ _ _), (on_app_bind _ _ _ _).
  unfold mbind at 1, M_bind at 1. by destruct (on_app (gc_collect_one now k) s i) as [[[e|x] [a c lg]] i'].
Qed.

Lemma snapshot_alone :
  agree (run_steps (now ← do Clock; candidates ← do (GcCandidates now); stale ← stale_steps [] candidates; mret (now, stale)))
    (on_app (gc_snapshot (E := E))).
Proof.
  intros s i. unfold gc_snapshot. etrans; [|symmetry; apply on_app_bind].
  cbn [do mbind Steps_bind bind_steps]. apply run_step; [by destruct s|]. intros now s1 i1 _.
  rewrite on_app_get, (on_app_bind _ _ _ _). erewrite run_read by reflexivity.
  etrans; [apply run_bind|]. unfold mbind, M_bind. rewrite (stale_alone _ _ _ _).
  by destruct (on_app _ s1 i1) as [[[e|stale] [a c lg]] i2].
Qed.

Lemma gc_alone : agree (run_steps gc_steps) (on_app (gc_idle_mailboxes (E := E))).
Proof.
  intros s i. unfold gc_steps, gc_idle_mailboxes. etrans; [|symmetry; apply on_app_bind].
  unfold mbind at 4, M_bind at 1. rewrite <- (snapshot_alone s i).
  cbn [do mbind Steps_bind bind_steps]. do 4 erewrite (run_val (E := E)) by reflexivity.
  rewrite (run_bind (stale_steps [] _) _ _ _), (run_bind (stale_steps [] _) _ _ _). unfold mbind, M_bind.
  destruct (run_steps _ _ _) as [[[e|stale] s2] i2]; [done|]. apply collect_alone.
Qed.

Lemma take_auth_val {E'} keys s i :
  take_dirty_auth (E := E') keys s i =
  (inr ((λ k, (k, mailbox_auth s !! k)) <$> keys), set_dirty_auth (dirty_auth s ∖ list_to_set keys) s, i).
Proof.
  enough (wp (take_dirty_auth (E := E') keys) (λ r s' i', (r, s', i') = (inr ((λ k, (k, mailbox_auth s !! k)) <$> keys),
    set_dirty_auth (dirty_auth s ∖ list_to_set keys) s, i)) s i) as H.
  { unfold wp in H. by destruct (take_dirty_auth keys s i) as [[r s'] i']. }
  by apply take_dirty_auth_wp.
Qed.

Lemma take_bundles_val {E'} keys s i :
  take_dirty_bundles (E := E') keys s i =
  (inr ((λ k, (k, bundles s !! k)) <$> keys), set_dirty_bundles (dirty_bundles s ∖ list_to_set keys) s, i).
Proof.
  enough (wp (take_dirty_bundles (E := E') keys) (λ r s' i', (r, s', i') = (inr ((λ k, (k, bundles s !! k)) <$> keys),
    set_dirty_bundles (dirty_bundles s ∖ list_to_set keys) s, i)) s i) as H.
  { unfold wp in H. by destruct (take_dirty_bundles keys s i) as [[r s'] i']. }
  by apply take_dirty_bundles_wp.
Qed.

Lemma run_take_auth keys s i :
  run_steps (E := E) (take_auth_steps [] keys) s i =
  (inr ((λ k, (k, mailbox_auth (app s) !! k)) <$> keys),
   set_app (set_dirty_auth (dirty_auth (app s) ∖ list_to_set keys) (app s)) s, i).
Proof.
  rewrite (take_auth_alone _ _ _ _). change (foldM _ [] keys) with (take_dirty_auth (E := E) keys).
  unfold on_app, zoom. by rewrite take_auth_val.
Qed.

Lemma run_take_bundles keys s i :
  run_steps (E := E) (take_bundles_steps [] keys) s i =
  (inr ((λ k, (k, bundles (app s) !! k)) <$> keys),
   set_app (set_dirty_bundles (dirty_bundles (app s) ∖ list_to_set keys) (app s)) s, i).
Proof.
  rewrite (take_bundles_alone _ _ _ _). change (foldM _ [] keys) with (take_dirty_bundles (E := E) keys).
  unfold on_app, zoom. by rewrite take_bundles_val.
Qed.

Lemma attempt_app_val {E1 E' A} (m : M AppState E1 A) s i :
  attempt (E' := E') (on_app m) s i = let '(r, a, i') := m (app s) i in (inr r, set_app a s, i').
Proof. unfold attempt, on_app, zoom. by destruct (m (app s) i) as [[r a] i']. Qed.

Definition bundles_half : M AppState anyhow () :=
  s ← get;
  bundle_batch ← take_dirty_bundles (elements (dirty_bundles s));
  zoom meta_store set_meta_store (MetaStore.flush_bundles bundle_batch).

Lemma flush_bundles_alone :
  agree (run_steps (keys ← do DirtyBundles; batch ← take_bundles_steps [] keys; do (WriteBundles batch)))
    (attempt (E' := E) (on_app bundles_half)).
Proof.
  intros s i. rewrite attempt_app_val. unfold bundles_half.
  unfold mbind at 3, M_bind, get at 1, mbind at 3. rewrite take_bundles_val.
  cbn [do mbind Steps_bind bind_steps]. erewrite run_val by reflexivity.
  etrans; [apply (run_bind (take_bundles_steps [] _))|]. unfold mbind, M_bind. rewrite run_take_bundles.
  change (run_steps (do ?o) ?s ?i) with ((perform (E := E) o ≫= mret) s i). unfold mbind, M_bind.
  change (perform (E := E) (WriteBundles ?b)) with
    (attempt (E' := E) (on_app (zoom meta_store set_meta_store (MetaStore.flush_bundles b)))).
  rewrite attempt_app_val. unfold zoom. cbn [app set_app].
  by destruct (MetaStore.flush_bundles _ _ _) as [[r m] i'], s.
Qed.

Lemma flush_meta_alone : agree (run_steps flush_steps) (attempt (E' := E) (on_app flush_dirty_meta)).
Proof.
  intros s i. rewrite attempt_app_val. unfold flush_dirty_meta.
  unfold mbind at 1, M_bind at 1, get at 1. unfold mbind at 1, M_bind at 1. rewrite take_auth_val.
  unfold flush_steps. cbn [do mbind Steps_bind bind_steps]. erewrite run_val by reflexivity.
  etrans; [apply (run_bind (take_auth_steps [] _))|]. unfold mbind at 1, M_bind at 1. rewrite run_take_auth.
  cbn [run_steps]. unfold mbind at 1, M_bind at 1.
  match goal with |- context [perform (WriteAuth ?b)] =>
    change (perform (E := E) (WriteAuth b)) with
      (attempt (E' := E) (on_app (zoom meta_store set_meta_store (MetaStore.flush_auth b)))) end.
  rewrite attempt_app_val. unfold mbind at 2, M_bind at 1.
  change (app (set_app ?a s)) with a. set (z := zoom meta_store set_meta_store (MetaStore.flush_auth _)).
  destruct (z _ i) as [[[e|u] a2] i2]; [done|]. etrans; [apply flush_bundles_alone|]. by rewrite attempt_app_val.
Qed.

(** What a round of a task does when nothing runs in between. *)
Definition whole_task (t : Task) : M Session E () :=
  match t with
  | FlushTask =>
      s ← get;
      if bool_decide (dirty_auth (app s) = ∅) && bool_decide (dirty_bundles (app s) = ∅) then mret ()
      else background (on_app flush_dirty_meta)
  | GcTask => background (E' := Empty_set) (_ ← on_app gc_idle_mailboxes; mret ())
  | QueueSweepTask => background (_ ← on_queues QueueStore.sweep_expired; mret ())
  | FileSweepTask => background (_ ← on_files (FileStore.sweep_expired Failed); mret ())
  end.

Lemma spawn_alone {E'} (p : Steps ()) (m : M Session E' ()) :
  agree (run_steps (E := E) p) (_ ← attempt m; mret ()) → agree (run_steps (spawn_steps p)) (background (E := E) m).
Proof.
  intros H s i. unfold spawn_steps, background. cbn [do mbind Steps_bind bind_steps run_steps perform].
  unfold mbind, M_bind. destruct (attempt (io_call tt) s i) as [[[e|[e|[]]] s'] i']; [done..|]. apply H.
Qed.

Lemma elements_nil (X : gset string) : bool_decide (elements X = []) = bool_decide (X = ∅).
Proof. apply bool_decide_ext. rewrite elements_empty_iff. apply leibniz_equiv_iff. Qed.

Lemma attempt_dropped {E1 A} (m : M Session E1 A) :
  agree (_ ← attempt (E' := E) m; mret tt) (_ ← attempt (_ ← m; mret tt); mret tt).
Proof. intros s i. unfold attempt, mbind, M_bind. by destruct (m s i) as [[[e|a] s'] i']. Qed.

End Tasks.

Section Rounds.
Context {RD : Redb} {UL : UuidLib} {LS : LibSignal} {HS : Hashing} {B6 : Base64} {JS : Json}.
Context {SV : Serde QueueStore.StoredValue} {SM : Serde FileStore.FileMeta}.
Context {SA : Serde MailboxAuth} {SB : Serde HostedBundle}.

Lemma task_alone t : agree (run_steps (task_steps t)) (whole_task (E := Empty_set) t).
Proof.
  destruct t; unfold task_steps, whole_task, task_body.
  - intros s i. cbn [do mbind Steps_bind bind_steps]. apply run_read_get.
    do 2 (erewrite run_read by reflexivity). rewrite !elements_nil. destruct (_ && _); [done|].
    apply spawn_alone. clear s i. etrans; [apply run_bind|]. apply agree_bind; [apply flush_meta_alone|done].
  - apply spawn_alone. intros s i. etrans; [apply (run_bind gc_steps)|]. unfold attempt, mbind, M_bind. rewrite gc_alone.
    by destruct (on_app gc_idle_mailboxes s i) as [[[[]|n] s'] i'].
  - apply spawn_alone. etrans; [|apply attempt_dropped]. done.
  - apply spawn_alone. etrans; [|apply attempt_dropped]. done.
Qed.
End Rounds.
