(* ===== verification/Threads.v ===== *)
(** The relay on several threads: any interleaving of the operations of [Steps].

    [Relay] takes a frame, or a round of a background task, in one go.  Here a
    thread has a program, and a move of the relay is one operation of one of them;
    between two operations of a thread the others may do anything.  A thread is the
    task of a connection or one of the four background tasks; a connection's thread
    takes a new program when it reads an item from its socket.

    [history] is any sequence of moves, each with the script of its foreign
    calls. *)
From Stdlib Require Import ZArith Lia Ascii String.
From stdpp Require Import base gmap strings list countable.
From S2P Require Import Prelude Redb RustStd Config Util Protocol Mailbox Signal State Ws WsFacts WsFrames Relay.
From S2P Require Import Steps.
From S2P Require QueueStore.
From S2P Require QueueFacts.
From S2P Require FileStore.
From S2P Require FileFacts.

#[global] Instance Task_eq_dec : EqDecision Task.
Proof. solve_decision. Defined.

#[global] Instance Task_countable : Countable Task.
Proof.
  refine (inj_countable'
    (λ t, match t with FlushTask => 0 | GcTask => 1 | QueueSweepTask => 2 | FileSweepTask => 3 end)%nat
    (λ n, match n with 0 => FlushTask | 1 => GcTask | 2 => QueueSweepTask | _ => FileSweepTask end)%nat _).
  by intros [].
Defined.

Section Threads.
Context {RD : Redb} {UL : UuidLib} {LS : LibSignal} {HS : Hashing} {B6 : Base64} {JS : Json}.
Context {SV : Serde QueueStore.StoredValue} {SM : Serde FileStore.FileMeta}.
Context {SA : Serde MailboxAuth} {SB : Serde HostedBundle}.

(** A thread: a connection's, by its channel, or a background task's. *)
Abbreviation Who := (ClientTx + Task)%type.

(** [running] is what each thread at work has left to do; [leaving] counts the
    connections that are over but have not given their slot back. *)
Record Threads := {
  world : AppState;
  sockets : gmap ClientTx Conn;
  next_socket : nat;
  wire : list (ClientTx * ServerFrame);
  running : gmap Who (Steps bool);
  leaving : nat;
}.

Definition set_world (a : AppState) (w : Threads) : Threads :=
  {| world := a; sockets := sockets w; next_socket := next_socket w; wire := wire w; running := running w;
     leaving := leaving w |}.

Definition set_running (r : gmap Who (Steps bool)) (w : Threads) : Threads :=
  {| world := world w; sockets := sockets w; next_socket := next_socket w; wire := wire w; running := r;
     leaving := leaving w |}.

(** ** Moves *)

Inductive Move :=
  | Accepted
  | Left
  | Heard (chan : ClientTx) (d : Draws) (incoming : Incoming)
  | Woke (t : Task)
  | Ran (who : Who).

Definition accept_socket (now : Z) (w : Threads) : Threads :=
  {| world := world w; sockets := <[next_socket w := fresh_conn (next_socket w) now]> (sockets w);
     next_socket := S (next_socket w); wire := wire w; running := running w; leaving := leaving w |}.

Definition set_leaving (n : nat) (w : Threads) : Threads :=
  {| world := world w; sockets := sockets w; next_socket := next_socket w; wire := wire w; running := running w;
     leaving := n |}.

(** [conn_count.fetch_add(1)], and what is decided on the count it returns. *)
Definition accept_step {E : Type} : M Threads E () :=
  w ← get;
  let previous := conn_count (world w) in
  _ ← modify (λ w, set_world (set_conn_count (previous +! 1) (world w)) w);
  if MAX_CONNECTIONS <=? previous then modify (λ w, set_leaving (S (leaving w)) w)
  else
    now ← now_ms;
    modify (accept_socket now).

(** [conn_count.fetch_sub(1)] of a connection refused, or of the guard of one that
    has ended. *)
Definition leave_step {E : Type} : M Threads E () :=
  w ← get;
  match leaving w with
  | O => mret ()
  | S n => _ ← put (set_leaving n w);
           modify (λ w, set_world (set_conn_count (conn_count (world w) -! 1) (world w)) w)
  end.

(** What a background thread works with: no connection of its own. *)
Definition conn_of (who : Who) (w : Threads) : option Conn :=
  match who with
  | inl chan => sockets w !! chan
  | inr _ => Some (fresh_conn (next_socket w) 0)
  end.

Definition thread_session (c : Conn) (w : Threads) : Session := {| app := world w; conn := c; sent := [] |}.

Definition put_socket (who : Who) (c : Conn) (m : gmap ClientTx Conn) : gmap ClientTx Conn :=
  match who with inl chan => <[chan := c]> m | inr _ => m end.

(** After an operation: what it changed, and the rest of the program. *)
Definition advance (who : Who) (p : Steps bool) (s : Session) (w : Threads) : Threads :=
  {| world := app s; sockets := put_socket who (conn s) (sockets w); next_socket := next_socket w;
     wire := wire w ++ sent s; running := <[who := p]> (running w); leaving := leaving w |}.

(** A program that is over; a connection whose loop ended is over with it. *)
Definition finish (who : Who) (more : bool) (w : Threads) : Threads :=
  match who, more with
  | inl chan, false =>
      {| world := world w; sockets := delete chan (sockets w); next_socket := next_socket w; wire := wire w;
         running := delete who (running w); leaving := S (leaving w) |}
  | _, _ => set_running (delete who (running w)) w
  end.

Definition ran {E : Type} (who : Who) : M Threads E () :=
  w ← get;
  match running w !! who, conn_of who w with
  | Some (Done more), _ => put (finish who more w)
  | Some (Do o k), Some c =>
      '(v, s) ← with_state (thread_session c w) (perform o);
      modify (advance who (k v) s)
  | _, _ => mret ()
  end.

Definition move {E : Type} (m : Move) : M Threads E () :=
  match m with
  | Accepted => accept_step
  | Left => leave_step
  | Heard chan d incoming => modify (λ w, set_running (<[inl chan := turn_steps d incoming]> (running w)) w)
  | Woke t => modify (λ w, set_running (<[inr t := (_ ← task_steps t; mret true)]> (running w)) w)
  | Ran who => ran who
  end.

(** A connection reads its next item, and a task wakes up, when it has done with
    the last. *)
Definition ready (w : Threads) (m : Move) : Prop :=
  match m with
  | Accepted => True
  | Left => leaving w ≠ O
  | Heard chan _ _ => is_Some (sockets w !! chan) ∧ running w !! inl chan = None
  | Woke t => running w !! inr t = None
  | Ran who => is_Some (running w !! who)
  end.

(** ** What an operation assumes of its environment *)

(** Fresh envelope ids, a queue counter that has not wrapped, limits of a file
    store that can be added up, items of the file table that can be read. *)
Definition op_pre {A : Type} (o : op A) (a : AppState) (i : io) : Prop :=
  match o with
  | Enqueue to env =>
      QueueFacts.entries (queues a) !! QueueStore.key_for to (env_id env) = None
      ∧ QueueStore.next_seq (queues a) < u64_max
  | StoreChunk _ _ _ _ _ => max_total_file_bytes (FileStore.config (files a)) + MAX_FRAME_BYTES ≤ u64_max ∧ items_fine i
  | DeleteTransferOp _ | SweepFiles => items_fine i
  | _ => True
  end.

(** At most so many connections are between their end and the return of their
    slot. *)
Definition MAX_LEAVING : Z := 2 ^ 63.

Definition move_pre (w : Threads) (m : Move) (i : io) : Prop :=
  match m with
  | Accepted => Z.of_nat (leaving w) < MAX_LEAVING
  | Ran who => match running w !! who with Some (Do o _) => op_pre o (world w) i | _ => True end
  | _ => True
  end.

(** ** Histories *)

Record Moment := {
  at_ : Threads;
  moved : Move;
  calls : io;
}.

Inductive history (w0 : Threads) : list Moment → Threads → Prop :=
  | history_nil : history w0 [] w0
  | history_snoc tr w m i w' i' :
      history w0 tr w → ready w m → move_pre w m i → move (E := Empty_set) m w i = (inr tt, w', i') →
      history w0 (tr ++ [{| at_ := w; moved := m; calls := i |}]) w'.

(** An operation with its answer. *)
Inductive Answered :=
  | answered {A : Type} (o : op A) (v : A).

Definition answer_of {A : Type} (o : op A) (c : Conn) (w : Threads) (i : io) : option Answered :=
  match perform (E := Empty_set) o (thread_session c w) i with
  | (inr v, _, _) => Some (answered o v)
  | (inl _, _, _) => None
  end.

(** The operation a thread performed in a moment. *)
Definition did (who : Who) (mom : Moment) : option Answered :=
  match moved mom with
  | Ran who' =>
      if decide (who' = who) then
        match running (at_ mom) !! who, conn_of who (at_ mom) with
        | Some (Do o _), Some c => answer_of o c (at_ mom) (calls mom)
        | _, _ => None
        end
      else None
  | _ => None
  end.

Definition starts (who : Who) (mom : Moment) : bool :=
  match moved mom, who with
  | Heard chan _ _, inl chan' => bool_decide (chan = chan')
  | Woke t, inr t' => bool_decide (t = t')
  | _, _ => false
  end.

(** What a thread has done since it took its program. *)
Definition past_step (who : Who) (h : list Answered) (mom : Moment) : list Answered :=
  if starts who mom then [] else h ++ option_list (did who mom).

Definition past (who : Who) (tr : list Moment) : list Answered := foldl (past_step who) [] tr.

(** The moves one after the other, for the examples. *)
Fixpoint perform_moves (moves : list (Move * io)) (w : Threads) : Threads :=
  match moves with
  | [] => w
  | (m, i) :: rest => perform_moves rest (move (E := Empty_set) m w i).1.2
  end.

(** A relay that has just started. *)
Definition quiet_threads (a : AppState) : Threads :=
  {| world := a; sockets := ∅; next_socket := 0; wire := []; running := ∅; leaving := 0 |}.
End Threads.
