(* ===== verification/StepsOrder.v ===== *)
(** The order of a program's operations.

    What a handler does rests on what it has learned: it acts on a mailbox it
    entered, queues a message whose token was accepted, sends a [SendOk] for a
    message that is safe.  [orderly h o] says so of an operation [o] after the
    answers [h]; [obeys] that every operation of a program is orderly, whatever the
    operations answer.  [turn_obeys] and [task_obeys] are for all programs. *)
From Stdlib Require Import ZArith Lia Ascii String.
From stdpp Require Import base gmap strings list.
From S2P Require Import Prelude Redb RustStd Config Util Protocol Mailbox Signal State Ws WsFacts WsFrames Steps.
From S2P Require Import Threads.
From S2P Require QueueStore.
From S2P Require FileStore.
From S2P Require MetaStore.

Section Order.
Context {RD : Redb} {UL : UuidLib} {LS : LibSignal} {HS : Hashing} {B6 : Base64} {JS : Json}.
Context {SV : Serde QueueStore.StoredValue} {SM : Serde FileStore.FileMeta}.
Context {SA : Serde MailboxAuth} {SB : Serde HostedBundle}.

(** ** What an answer says *)

Definition is_inr {A B} (r : A + B) : Prop := match r with inr _ => True | inl _ => False end.

(** The mailbox was entered with its token, or created. *)
Definition says_entered (rid : string) (d : Answered) : Prop :=
  match d with
  | answered o v =>
      match o in op A return A → Prop with
      | Enter rid' _ _ _ => λ v, rid' = rid ∧ is_inr v
      | _ => λ _, False
      end v
  end.

Definition says_me (rid : string) (d : Answered) : Prop :=
  match d with
  | answered o v =>
      match o in op A return A → Prop with Whoami => λ v, v = Some rid | _ => λ _, False end v
  end.

Definition says_authorized (to : string) (d : Answered) : Prop :=
  match d with
  | answered o v =>
      match o in op A return A → Prop with Authorize to' _ => λ v, to' = to ∧ v = true | _ => λ _, False end v
  end.

Definition says_allowed (to : string) (d : Answered) : Prop :=
  match d with
  | answered o v =>
      match o in op A return A → Prop with AllowSend to' => λ v, to' = to ∧ v = true | _ => λ _, False end v
  end.

(** The mailbox was removed by its owner, or collected. *)
Definition says_retired (rid : string) (d : Answered) : Prop :=
  match d with
  | answered o v =>
      match o in op A return A → Prop with RemoveMailbox rid' => λ v, rid' = rid ∧ v = true | _ => λ _, False end v
  end.

Definition says_collected (rid : string) (d : Answered) : Prop :=
  match d with
  | answered o v =>
      match o in op A return A → Prop with RemoveIdle _ rid' => λ v, rid' = rid ∧ v = true | _ => λ _, False end v
  end.

Definition says_candidate (rid : string) (d : Answered) : Prop :=
  match d with
  | answered o v =>
      match o in op A return A → Prop with GcCandidates _ => λ v, rid ∈ v | _ => λ _, False end v
  end.

(** The clock said so. *)
Definition says_clock (now : Z) (d : Answered) : Prop :=
  match d with
  | answered o v => match o in op A return A → Prop with Clock => λ v, v = now | _ => λ _, False end v
  end.

Definition says_mine (rid : string) (d : Answered) : Prop :=
  match d with
  | answered o v =>
      match o in op A return A → Prop with RouteIsMine rid' => λ v, rid' = rid ∧ v = true | _ => λ _, False end v
  end.

Definition says_refused (rid : string) (d : Answered) : Prop :=
  match d with
  | answered o v =>
      match o in op A return A → Prop with SendLive rid' _ => λ v, rid' = rid ∧ v = Some false | _ => λ _, False end v
  end.

(** The envelope with this id went out on a live channel, or into the queue. *)
Definition says_safe (id : Uuid) (d : Answered) : Prop :=
  match d with
  | answered o v =>
      match o in op A return A → Prop with
      | SendLive _ env => λ v, env_id env = id ∧ v = Some true
      | Enqueue _ env => λ v, env_id env = id ∧ match v with Some r => is_inr r | None => False end
      | _ => λ _, False
      end v
  end.

Definition says_room (d : Answered) : Prop :=
  match d with
  | answered o v =>
      match o in op A return A → Prop with CountBundles => λ v, v < MAX_BUNDLES | _ => λ _, False end v
  end.

Definition says_bytes (n : Z) (d : Answered) : Prop :=
  match d with
  | answered o v =>
      match o in op A return A → Prop with BundleBytes => λ v, v +^ n ≤ MAX_TOTAL_BUNDLE_BYTES | _ => λ _, False end v
  end.

(** ** The order *)

Definition has (P : Answered → Prop) (h : list Answered) : Prop := Exists P h.

Definition orderly {A : Type} (h : list Answered) (o : op A) : Prop :=
  match o with
  | Enter rid _ _ _ => valid_recipient_id rid = true
  | SetRecipient rid | SetRoute rid | FlushQueue rid => has (says_entered rid) h
  | ReplaceTokens rid _ | AckIds rid _ | RemoveMailbox rid => has (says_me rid) h
  | PurgeQueue rid => has (says_me rid) h
  | Authorize to _ => valid_recipient_id to = true
  | AllowSend to => has (says_authorized to) h
  | SendLive to env => env_to env = to ∧ has (says_authorized to) h ∧ has (says_allowed to) h
  | Enqueue to env =>
      env_to env = to ∧ slen (ciphertext env) ≤ MAX_FRAME_BYTES ∧ valid_recipient_id to = true
      ∧ has (says_authorized to) h ∧ has (says_allowed to) h
  | DropRate rid => has (says_me rid) h ∨ has (says_collected rid) h
  | DropRoute rid => has (says_refused rid) h ∨ has (says_mine rid) h ∨ has (says_me rid) h
  | RemoveIdle now rid => has (says_candidate rid) h ∧ has (says_clock now) h
  | QueueIsEmpty rid => has (says_candidate rid) h
  | SubMailboxCount => ∃ rid, has (says_retired rid) h ∨ has (says_collected rid) h
  | PurgeHere rid => has (says_collected rid) h
  | InsertBundle b =>
      slen (bundle_ciphertext b) ≤ MAX_BUNDLE_BYTES ∧ has says_room h ∧ has (says_bytes (slen (bundle_ciphertext b))) h
      ∧ is_u64 (bundle_created_at_ms b) ∧ is_u64 (bundle_expires_at_ms b)
  | SetLastPrune now => is_u64 now
  | SubBundleBytes n => 0 ≤ n
  | StoreChunk id idx tc tb raw =>
      valid_bundle_id id = true ∧ 0 ≤ idx ≤ u32_max ∧ 0 ≤ tc ≤ u32_max ∧ is_u64 tb ∧ blen raw ≤ MAX_FRAME_BYTES
  | FetchChunk id _ | DeleteTransferOp id => valid_bundle_id id = true
  | Reply (SendOk id _ _) => has (says_safe id) h
  | SendAwait (SendOk _ _ _) => False
  | SendAwait (Envelope env) => has (says_entered (env_to env)) h
  | Reply (Envelope _) => False
  | _ => True
  end.

(** A frame that carries no message and promises none. *)
Definition dull (frame : ServerFrame) : Prop :=
  match frame with SendOk _ _ _ | Envelope _ => False | _ => True end.

(** What an operation may answer, whatever the state. *)
Definition plausible {A : Type} (o : op A) : A → Prop :=
  match o in op A return A → Prop with
  | Enter _ _ _ _ => λ v, match v with inl frame => dull frame | inr _ => True end
  | Issue _ _ _ _ _ => λ v, match v with inr frame => dull frame | inl _ => True end
  | Clock => λ v, is_u64 v
  | ExpiredBundles _ => λ v, Forall (λ x, 0 ≤ x.2) v
  | InsertBundle _ => λ v, match v with Some len => 0 ≤ len | None => True end
  | FlushQueue rid => λ v, match v with Some (inr envs) => Forall (λ env, env_to env = rid) envs | _ => True end
  | _ => λ _, True
  end.

Fixpoint obeys {A : Type} (h : list Answered) (p : Steps A) : Prop :=
  match p with
  | Done _ => True
  | Do o k => orderly h o ∧ ∀ v, plausible o v → obeys (h ++ [answered o v]) (k v)
  end.

(** ** Rules *)

Lemma has_more P h h' : h ⊆ h' → has P h → has P h'.
Proof. unfold has. rewrite !Exists_exists. set_solver. Qed.

Lemma has_last P h d : P d → has P (h ++ [d]).
Proof. intros H. apply Exists_app. right. by constructor. Qed.

Lemma has_before P h d : has P h → has P (h ++ [d]).
Proof. intros H. apply Exists_app. by left. Qed.

Lemma orderly_more {A} (o : op A) h h' : h ⊆ h' → orderly h o → orderly h' o.
Proof.
  intros Hh. pose proof (λ P, has_more P h h' Hh) as H. destruct o; simpl; try done; try by auto; try naive_solver.
  all: destruct frame; by auto.
Qed.

Lemma dull_orderly h frame : dull frame → orderly h (Reply frame).
Proof. by destruct frame. Qed.

Lemma obeys_more {A} (p : Steps A) h h' : h ⊆ h' → obeys h p → obeys h' p.
Proof.
  revert h h'. induction p as [a|B o k IH]; simpl; [done|]. intros h h' Hh [Ho Hk]. split; [by eapply orderly_more|].
  intros v Hv. eapply IH; [|by apply Hk]. set_solver.
Qed.

Lemma obeys_bind {A B} (p : Steps A) (f : A → Steps B) h :
  obeys h p → (∀ h' v, h ⊆ h' → obeys h' (f v)) → obeys h (p ≫= f).
Proof.
  revert h. induction p as [a|C o k IH]; simpl; intros h Hp Hf; [by apply Hf|]. destruct Hp as [Ho Hk].
  split; [done|]. intros v Hv. apply IH; [by apply Hk|]. intros h' v' Hh. apply Hf. set_solver.
Qed.
End Order.

(** An answer among those so far. *)
Ltac known :=
  match goal with
  | |- has _ (_ ++ [_]) => first [apply has_last; solve [simpl; split_and?; done]|apply has_before; known]
  | H : ?h ⊆ ?h' |- has _ ?h' => apply (has_more _ h h' H); known
  | |- has _ _ => assumption
  end.

Ltac scrut x :=
  lazymatch x with
  | context [match ?y with _ => _ end] => scrut y
  | negb ?y => scrut y
  | ?y || _ => scrut y
  | _ => destruct x eqn:?
  end.

(** A program, operation by operation. *)
Ltac obey :=
  repeat first
    [ done
    | progress cbv zeta
    | progress cbn [mbind Steps_bind bind_steps do mret Steps_ret reply_steps obeys orderly plausible negb orb]
    | apply dull_orderly; done
    | match goal with
      | |- _ ∧ _ => split
      | |- ∀ _, _ => intros ?
      | |- obeys _ (match ?x with _ => _ end) => scrut x
      | |- obeys _ (bind_steps _ (match ?x with _ => _ end)) => scrut x
      | |- obeys _ (match ?x with _ => _ end ≫= _) => scrut x
      end
    | known
    | left; known
    | right; known
    | right; left; known
    | right; right; known
    | eexists; left; known
    | eexists; right; known
    | solve [rewrite ?orb_false_iff, ?negb_false_iff in *; destruct_and?; done] ].

Section Programs.
Context {RD : Redb} {UL : UuidLib} {LS : LibSignal} {HS : Hashing} {B6 : Base64} {JS : Json}.
Context {SV : Serde QueueStore.StoredValue} {SM : Serde FileStore.FileMeta}.
Context {SA : Serde MailboxAuth} {SB : Serde HostedBundle}.

(** ** Frames *)

Lemma ping_obeys h : obeys h ping_steps.
Proof. unfold ping_steps. obey. Qed.

Lemma ack_obeys h ids : obeys h (ack_steps ids).
Proof. unfold ack_steps. obey. Qed.

Lemma set_tokens_obeys h req toks : obeys h (set_delivery_tokens_steps req toks).
Proof. unfold set_delivery_tokens_steps. obey. Qed.

Lemma retire_obeys h : obeys h retire_mailbox_steps.
Proof. unfold retire_mailbox_steps. obey. Qed.

Lemma issue_obeys h rng req uuid dev key : obeys h (issue_steps rng req uuid dev key).
Proof. unfold issue_steps. obey. Qed.

Lemma fetch_chunk_obeys h req id idx : obeys h (fetch_file_chunk_steps req id idx).
Proof. unfold fetch_file_chunk_steps. obey. Qed.

Lemma delete_obeys h req id : obeys h (delete_transfer_steps req id).
Proof. unfold delete_transfer_steps. obey. Qed.

Lemma send_obeys h fresh cr to tok ty ct :
  slen ct ≤ MAX_FRAME_BYTES → obeys h (send_envelope_steps fresh cr to tok ty ct).
Proof.
  intros Hct. unfold send_envelope_steps, deliver_live_steps, queue_envelope_steps. obey.
Qed.

Lemma deliver_obeys h rid envs n :
  has (says_entered rid) h → Forall (λ env, env_to env = rid) envs → obeys h (deliver_steps envs n).
Proof.
  intros Hr Henvs. revert h n Hr. induction Henvs as [|env rest <- _ IH]; intros h n Hr; simpl; [done|].
  split; [done|]. intros [] _; [|done]. apply IH. by apply has_before.
Qed.

Lemma hello_obeys h rid a del mn mx v pow cert : obeys h (hello_steps rid a del mn mx v pow cert).
Proof.
  unfold hello_steps. obey. apply obeys_bind; [|intros; obey]. apply (deliver_obeys _ rid); [known|done].
Qed.

Lemma pow_obeys h id pow : obeys h (pow_steps id pow).
Proof. unfold pow_steps. obey. Qed.

Lemma upload_chunk_obeys h req id idx tc tb ct pow :
  0 ≤ idx ≤ u32_max → 0 ≤ tc ≤ u32_max → is_u64 tb → slen ct ≤ MAX_FRAME_BYTES →
  obeys h (upload_file_chunk_steps req id idx tc tb ct pow).
Proof.
  intros Hi Htc Htb Hct. unfold upload_file_chunk_steps. cbv zeta. destruct (valid_bundle_id id) eqn:Hid; cbn [negb]; [|obey].
  destruct (b64_decode ct) as [raw|] eqn:Hraw; [|obey]. pose proof (b64_decode_shorter _ _ Hraw).
  apply obeys_bind; [destruct (idx =? 0); [apply pow_obeys|done]|]. intros h' v _. obey. all: lia.
Qed.

(** Where a program's results come from. *)
Fixpoint yields {A : Type} (Q : A → Prop) (p : Steps A) : Prop :=
  match p with Done a => Q a | Do o k => ∀ v, yields Q (k v) end.

Lemma obeys_bind_yields {A B} (Q : A → Prop) (p : Steps A) (f : A → Steps B) h :
  obeys h p → yields Q p → (∀ h' v, h ⊆ h' → Q v → obeys h' (f v)) → obeys h (p ≫= f).
Proof.
  revert h. induction p as [a|C o k IH]; simpl; intros h Hp Hy Hf; [by apply Hf|]. destruct Hp as [Ho Hk].
  split; [done|]. intros v Hv. apply IH; [by apply Hk|done|]. intros h' v' Hh. apply Hf. set_solver.
Qed.

Lemma remove_expired_obeys h freed l : obeys h (remove_expired_steps freed l).
Proof. revert h freed. induction l as [|[id len] l IH]; intros h freed; simpl; [done|]. obey; apply IH. Qed.

Lemma remove_expired_yields freed l :
  0 ≤ freed → Forall (λ x, 0 ≤ x.2) l → yields (λ r, 0 ≤ r) (remove_expired_steps freed l).
Proof.
  intros Hf Hl. revert freed Hf. induction Hl as [|[id len] l Hlen Hl IH]; intros freed Hf; simpl; [done|].
  intros []; [|by apply IH]. intros _. apply IH. unfold sat_add, u64_max in *. simpl in Hlen. lia.
Qed.

Lemma prune_obeys h : obeys h prune_steps.
Proof.
  unfold prune_steps. cbn [mbind Steps_bind bind_steps do obeys orderly plausible]. split; [done|]. intros now Hnow.
  split; [done|]. intros last _. destruct (_ && _); [done|]. cbn [bind_steps obeys orderly plausible]. split; [done|]. intros u _.
  split; [done|]. intros l Hl. destruct l as [|x l]; [done|].
  eapply obeys_bind_yields; [apply (remove_expired_obeys _ _ (x :: l))|by apply (remove_expired_yields 0 (x :: l))|].
  intros h' freed _ Hfreed. by split.
Qed.

Lemma fetch_bundle_obeys h req id : obeys h (fetch_bundle_steps req id).
Proof. unfold fetch_bundle_steps. apply obeys_bind; [apply prune_obeys|]. intros h' v _. obey. Qed.

Lemma existing_dull now req id ct ex fr : existing_reply now req id ct ex = Some fr → dull fr.
Proof. unfold existing_reply. intros H. by repeat case_match; simplify_eq. Qed.

Lemma upload_bundle_obeys h req id ct exp pow : obeys h (upload_bundle_steps req id ct exp pow).
Proof.
  unfold upload_bundle_steps. destruct (_ || _) eqn:Hbad; [obey|]. apply orb_false_iff in Hbad as [_ Hct%Z.ltb_ge].
  apply obeys_bind; [apply pow_obeys|]. intros h1 [] _; cbn [negb]; [|obey].
  apply obeys_bind; [apply prune_obeys|]. intros h2 _ _.
  cbn [mbind Steps_bind bind_steps do obeys orderly plausible]. split; [done|]. intros now _. split; [done|]. intros old _.
  destruct (existing_reply _ _ _ _ _) as [fr|] eqn:Hex.
  { split; [by eapply dull_orderly, existing_dull|done]. }
  split; [done|]. intros n _. destruct (Z.leb_spec MAX_BUNDLES n); [obey|]. split; [done|]. intros total _.
  destruct (Z.ltb_spec MAX_TOTAL_BUNDLE_BYTES (total +^ slen ct)); [obey|]. split; [done|]. intros now' Hnow.
  unfold insert_bundle_steps. cbn [mbind Steps_bind bind_steps do obeys orderly plausible bundle_ciphertext].
  split; [|intros [len|] Hlen; obey]. split; [done|].
  split_and!; [apply has_before, has_before; by apply has_last|apply has_before; by apply has_last|done|].
  change (is_u64 now') in Hnow. cbn [bundle_expires_at_ms]. unfold is_u64, sat_add, u64_max in *. lia.
Qed.

(** ** Turns and tasks *)

Lemma frame_obeys h d f : frame_fits MAX_FRAME_BYTES f → obeys h (frame_steps d f).
Proof.
  intros Hf. destruct f; simpl in Hf; cbn [frame_steps].
  - apply hello_obeys.
  - apply set_tokens_obeys.
  - apply issue_obeys.
  - by apply send_obeys.
  - apply upload_bundle_obeys.
  - apply fetch_bundle_obeys.
  - by apply upload_chunk_obeys; destruct_and?.
  - apply fetch_chunk_obeys.
  - apply delete_obeys.
  - apply ack_obeys.
  - apply retire_obeys.
  - apply ping_obeys.
Qed.

Lemma fits_more n n' f : n ≤ n' → frame_fits n f → frame_fits n' f.
Proof. destruct f; simpl; intros; destruct_and?; split_and?; try done; lia. Qed.

Lemma text_obeys h d text : obeys h (text_steps d text).
Proof.
  unfold text_steps. cbn [mbind Steps_bind bind_steps do obeys orderly plausible]. split; [done|]. intros count _.
  destruct (_ <? _); [obey|]. destruct (Z.ltb_spec MAX_FRAME_BYTES (slen text)) as [|Hlen]; [obey|].
  destruct (parse_frame text) as [e|f] eqn:Hf; [obey|]. by apply frame_obeys, (fits_more (slen text)), parse_fits.
Qed.

Lemma teardown_obeys h : obeys h teardown_steps.
Proof. unfold teardown_steps. obey. Qed.

Lemma turn_obeys h d incoming : obeys h (turn_steps d incoming).
Proof.
  unfold turn_steps. apply obeys_bind; [destruct incoming; [apply text_obeys|done..]|].
  intros h' [] _; [done|]. apply obeys_bind; [apply teardown_obeys|done].
Qed.

Lemma take_auth_obeys h batch l : obeys h (take_auth_steps batch l).
Proof. revert h batch. induction l as [|k l IH]; intros h batch; simpl; [done|]. obey. Qed.

Lemma take_bundles_obeys h batch l : obeys h (take_bundles_steps batch l).
Proof. revert h batch. induction l as [|k l IH]; intros h batch; simpl; [done|]. obey. Qed.

Lemma flush_obeys h : obeys h flush_steps.
Proof.
  unfold flush_steps. cbn [mbind Steps_bind bind_steps do obeys orderly plausible]. split; [done|]. intros keys _.
  apply obeys_bind; [apply take_auth_obeys|]. intros h1 batch _. obey. apply obeys_bind; [apply take_bundles_obeys|].
  intros h2 batch' _. obey.
Qed.

Lemma stale_obeys h stale l :
  (∀ rid, rid ∈ l → has (says_candidate rid) h) → obeys h (stale_steps stale l).
Proof.
  revert h stale. induction l as [|rid l IH]; intros h stale Hl; simpl; [done|].
  split; [apply Hl; left|]. intros r _. split; [done|]. intros b _. apply IH. intros rid' Hr.
  do 2 apply has_before. apply Hl. by right.
Qed.

Lemma collect_obeys h now n l :
  (∀ rid, rid ∈ l → has (says_candidate rid) h) → has (says_clock now) h → obeys h (collect_steps now n l).
Proof.
  revert h n. induction l as [|rid l IH]; intros h n Hl Hn; cbn [collect_steps]; [done|].
  apply obeys_bind.
  - unfold collect_one_steps. cbn [mbind Steps_bind bind_steps do obeys orderly plausible].
    split; [split; [apply Hl; left|done]|]. intros [] _; [|done]. obey.
  - intros h' v Hh. apply IH; [|by eapply has_more]. intros rid' Hr. eapply has_more; [exact Hh|]. apply Hl. by right.
Qed.

Lemma stale_yields stale l : yields (λ r, ∀ rid, rid ∈ r → rid ∈ stale ∨ rid ∈ l) (stale_steps stale l).
Proof.
  assert (∀ l0 stale0, (∀ rid, rid ∈ stale0 → rid ∈ stale ∨ rid ∈ l) → (∀ rid, rid ∈ l0 → rid ∈ l) →
    yields (λ r, ∀ rid, rid ∈ r → rid ∈ stale ∨ rid ∈ l) (stale_steps stale0 l0)) as H; [|apply H; set_solver].
  induction l0 as [|rid l0 IH]; intros stale0 Hs Hl; simpl; [done|].
  intros r b. apply IH; [|set_solver]. destruct (_ && _); set_solver.
Qed.

Lemma gc_obeys h : obeys h gc_steps.
Proof.
  unfold gc_steps. cbn [mbind Steps_bind bind_steps do obeys orderly plausible].
  split; [done|]. intros now _. split; [done|]. intros cands _.
  assert (∀ rid, rid ∈ cands → has (says_candidate rid) ((h ++ [answered Clock now]) ++ [answered (GcCandidates now) cands])) as Hc.
  { intros rid Hr. by apply has_last. }
  eapply obeys_bind_yields; [by apply stale_obeys|apply stale_yields|]. cbn beta. intros h' stale Hh Hs.
  apply collect_obeys; [|eapply has_more; [exact Hh|]; by apply has_before, has_last].
  intros rid Hr. eapply has_more; [exact Hh|]. apply Hc. destruct (Hs rid Hr) as [[]%elem_of_nil|]; done.
Qed.

Lemma task_obeys h t : obeys h (task_steps t).
Proof.
  assert (∀ h, obeys h (spawn_steps (task_body t))) as Hspawn.
  { intros h'. unfold spawn_steps. cbn [mbind Steps_bind bind_steps do obeys orderly plausible]. split; [done|].
    intros [] _; [|done]. destruct t; unfold task_body; [apply obeys_bind; [apply flush_obeys|done]| |obey..].
    apply obeys_bind; [apply gc_obeys|done]. }
  destruct t; try apply Hspawn. cbn [task_steps do mbind Steps_bind bind_steps obeys orderly plausible].
  split; [done|]. intros auth _. split; [done|]. intros bundles _. destruct (_ && _); [done|apply Hspawn].
Qed.

(** ** What an operation answers *)

Lemma any_wp {S E A} (m : M S E A) (Q : E + A → S → io → Prop) s i : (∀ r s' i', Q r s' i') → wp m Q s i.
Proof. intros H. unfold wp. destruct (m s i) as [[r s'] i']. apply H. Qed.

Lemma wp_bind_any {S E A B} (m : M S E A) (k : A → M S E B) (Q : E + B → S → io → Prop) s i :
  (∀ e s' i', Q (inl e) s' i') → (∀ a s' i', wp (k a) Q s' i') → wp (m ≫= k) Q s i.
Proof. intros He Hk. apply wp_bind. apply any_wp. intros [e|a] s' i'; [apply He|apply Hk]. Qed.

Lemma perform_plausible {E A} (o : op A) s i :
  wp (perform (E := E) o) (λ r _ _, ∀ v, r = inr v → plausible o v) s i.
Proof.
  destruct o; try (apply any_wp; done); simpl.
  - apply wp_now_ms. intros v [= <-]. apply wrap64_range.
  - unfold on_app. wp_step. unfold enter_mailbox. do 2 wp_step.
    destruct (mailbox_auth (app s) !! rid) as [a0|].
    + destruct (negb _); [wp_step; by intros v [= <-]|]. apply wp_bind_any; [done|]. intros. wp_steps. by intros v [= <-].
    + apply wp_bind_any; [done|]. intros b s1 i1. destruct (negb b); [wp_step; by intros v [= <-]|].
      apply wp_bind_any; [done|]. intros b2 s2 i2. destruct (negb b2); [wp_step; by intros v [= <-]|].
      apply wp_bind_any; [done|]. intros. wp_steps. by intros v [= <-].
  - unfold spawn_blocking. apply wp_bind_any; [done|]. intros [e|[]] s1 i1; [wp_step; by intros v [= <-]|].
    wp_step. wp_step. unfold on_queues, on_app. wp_step. wp_step. unfold QueueStore.flush.
    apply wp_bind_any; [intros; wp_step; by intros v [= <-]|]. intros. wp_steps. intros v [= <-].
    apply Forall_fmap, Forall_true. by intros [].
  - do 3 wp_step. intros v [= <-]. unfold expired_bundles. apply Forall_fmap, Forall_true. intros kv. apply slen_nonneg.
  - unfold on_app. wp_step. unfold insert_entry. wp_steps. intros v [= <-]. destruct (bundles (app s) !! _); [apply slen_nonneg|done].
  - do 3 wp_step. eapply wp_conseq; [apply issue_wp|]. cbn beta. intros [e|fr] s' i' (-> & _ & Hr); intros v [= <-]; [done|].
    destruct Hr as (? & ? & ? & ? & ? & ? & _ & _ & _ & _ & _ & _ & _ & _ & _ & ->). done.
Qed.
End Programs.
