(* ===== verification/StepsShape.v ===== *)
(** What a program is about to do.

    Between two operations a thread owes the rest of what it began: the count of a
    mailbox it has removed, the mark of a record it has changed, the bundle or the
    message it has found room for.  [shaped] says which operations bring such a
    debt, and that only they do; the debts themselves can be read off the rest of
    the program. *)
From Stdlib Require Import ZArith Lia Ascii String.
From stdpp Require Import base gmap strings list.
From S2P Require Import Prelude Redb RustStd Config Util Protocol Mailbox Signal State Ws WsFrames Steps StepsOrder.
From S2P Require QueueStore.
From S2P Require FileStore.

Section Shape.
Context {RD : Redb} {UL : UuidLib} {LS : LibSignal} {HS : Hashing} {B6 : Base64} {JS : Json}.
Context {SV : Serde QueueStore.StoredValue} {SM : Serde FileStore.FileMeta}.
Context {SA : Serde MailboxAuth} {SB : Serde HostedBundle}.

(** ** Debts *)

(** The next operation takes a removed mailbox off the count. *)
Definition uncounting {A : Type} (p : Steps A) : bool :=
  match p with Do SubMailboxCount _ => true | _ => false end.

(** The bytes of the message that is queued next. *)
Definition enqueuing {A : Type} (p : Steps A) : Z :=
  match p with Do (Enqueue _ env) _ => slen (ciphertext env) | _ => 0 end.

Definition next_inserts {A : Type} (p : Steps A) : bool :=
  match p with Do (InsertBundle _) _ => true | _ => false end.

(** A bundle has found room among the bundles and is not there yet. *)
Definition inserting {A : Type} (p : Steps A) : bool :=
  match p with
  | Done _ => false
  | Do o k =>
      match o in op B return (B → Steps A) → bool with
      | BundleBytes => λ _, true
      | InsertBundle _ => λ _, true
      | Clock => λ k, next_inserts (k 0)
      | _ => λ _, false
      end k
  end.

(** The mailbox is marked dirty before the program ends. *)
Fixpoint owes {A : Type} (rid : string) (p : Steps A) : Prop :=
  match p with
  | Done _ => False
  | Do o k => match o with MarkAuth rid' => rid' = rid | _ => False end ∨ ∀ v, owes rid (k v)
  end.

Fixpoint owes_bundle {A : Type} (id : string) (p : Steps A) : Prop :=
  match p with
  | Done _ => False
  | Do o k => match o with MarkBundle id' => id' = id | _ => False end ∨ ∀ v, owes_bundle id (k v)
  end.

(** ** Operations that bring a debt *)

Definition uncounts {A : Type} (o : op A) : A → bool :=
  match o in op A return A → bool with
  | RemoveMailbox _ | RemoveIdle _ _ => λ v, v
  | _ => λ _, false
  end.

(** The record of the mailbox may be another one afterwards. *)
Definition alters {A : Type} (rid : string) (o : op A) : A → Prop :=
  match o in op A return A → Prop with
  | Enter rid' _ _ _ => λ v, rid' = rid ∧ is_inr v
  | ReplaceTokens rid' _ => λ v, rid' = rid ∧ is_Some v
  | RemoveMailbox rid' => λ v, rid' = rid ∧ v = true
  | RemoveIdle _ rid' => λ v, rid' = rid ∧ v = true
  | _ => λ _, False
  end.

Definition alters_bundle {A : Type} (id : string) (o : op A) : A → Prop :=
  match o in op A return A → Prop with
  | RemoveBundle id' => λ v, id' = id ∧ v = true
  | InsertBundle b => λ _, bundle_key b = id
  | _ => λ _, False
  end.

Definition enqueue_allowed {A : Type} (o : op A) : A → Z → Prop :=
  match o in op A return A → Z → Prop with
  | WouldExceed n => λ v z, z = if v then 0 else n
  | _ => λ _ z, z = 0
  end.

(** [before]: whether the program was about to insert a bundle. *)
Definition insert_allowed {A : Type} (o : op A) (before : bool) : A → bool → Prop :=
  match o in op A return A → bool → Prop with
  | CountBundles => λ v after, after = true → v < MAX_BUNDLES
  | InsertBundle _ => λ _ after, after = false
  | _ => λ _ after, after = true → before = true
  end.

Record fits_shape {A B : Type} (p : Steps A) (o : op B) (v : B) (rest : Steps A) : Prop := {
  fs_uncounts : uncounting rest = uncounts o v;
  fs_enqueue : enqueue_allowed o v (enqueuing rest);
  fs_insert : insert_allowed o (inserting p) v (inserting rest);
  fs_owes : ∀ rid, alters rid o v → owes rid rest;
  fs_owes_bundle : ∀ id, alters_bundle id o v → owes_bundle id rest;
}.

Fixpoint shaped {A : Type} (p : Steps A) : Prop :=
  match p with
  | Done _ => True
  | Do o k => ∀ v, fits_shape p o v (k v) ∧ shaped (k v)
  end.

(** A program that begins without a debt. *)
Record calm {A : Type} (p : Steps A) : Prop := {
  ca_uncounting : uncounting p = false;
  ca_enqueuing : enqueuing p = 0;
  ca_inserting : inserting p = false;
}.

(** ** Rules *)

Lemma owes_bind {A B} rid (p : Steps A) (f : A → Steps B) : owes rid p → owes rid (p ≫= f).
Proof. induction p as [a|C o k IH]; simpl; [done|]. intros [H|H]; [by left|right]. intros v. by apply IH. Qed.

Lemma owes_bundle_bind {A B} id (p : Steps A) (f : A → Steps B) : owes_bundle id p → owes_bundle id (p ≫= f).
Proof. induction p as [a|C o k IH]; simpl; [done|]. intros [H|H]; [by left|right]. intros v. by apply IH. Qed.

Lemma calm_bind {A B} (p : Steps A) (f : A → Steps B) :
  calm p → (∀ a, calm (f a)) → calm (p ≫= f).
Proof.
  intros [H1 H2 H3] Hf. destruct p as [a|C o k]; [apply Hf|]. destruct o; try by split.
  split; try done. simpl in *. destruct (k 0) as [a|C o k']; simpl; [|done].
  destruct (Hf a) as [_ _ H]. destruct (f a) as [|D [] ?]; try done.
Qed.

Lemma uncounting_bind {A B} (p : Steps A) (f : A → Steps B) :
  (∀ a, calm (f a)) → uncounting (p ≫= f) = uncounting p.
Proof. intros Hf. destruct p as [a|C o k]; [apply Hf|done]. Qed.

Lemma enqueuing_bind {A B} (p : Steps A) (f : A → Steps B) :
  (∀ a, calm (f a)) → enqueuing (p ≫= f) = enqueuing p.
Proof. intros Hf. destruct p as [a|C o k]; [apply Hf|done]. Qed.

Lemma inserting_bind {A B} (p : Steps A) (f : A → Steps B) :
  (∀ a, calm (f a)) → inserting (p ≫= f) = inserting p.
Proof.
  intros Hf. destruct p as [a|C o k]; [apply Hf|]. destruct o; try done. simpl.
  destruct (k 0) as [a|C o k']; simpl; [|done]. destruct (Hf a) as [_ _ H]. by destruct (f a) as [|D [] ?].
Qed.

Lemma shaped_bind {A B} (p : Steps A) (f : A → Steps B) :
  shaped p → (∀ a, shaped (f a)) → (∀ a, calm (f a)) → shaped (p ≫= f).
Proof.
  intros Hp Hs Hf. induction p as [a|C o k IH]; [apply Hs|]. simpl in Hp. intros v.
  change (fits_shape (Do o k ≫= f) o v (k v ≫= f) ∧ shaped (k v ≫= f)).
  destruct (Hp v) as [[H1 H2 H3 H4 H5] Hk]. split; [|by apply IH].
  split.
  - by rewrite uncounting_bind.
  - by rewrite enqueuing_bind.
  - by rewrite !inserting_bind.
  - intros rid Hr. by apply owes_bind, H4.
  - intros id Hr. by apply owes_bundle_bind, H5.
Qed.
End Shape.

(** An operation that brings no debt, before a program without one. *)
Definition no_debt `{Redb, UuidLib, LibSignal, Hashing, Base64, Json, Serde QueueStore.StoredValue,
    Serde FileStore.FileMeta, Serde MailboxAuth, Serde HostedBundle} {A : Type} (o : op A) : Prop :=
  match o with
  | Enter _ _ _ _ | ReplaceTokens _ _ | RemoveMailbox _ | RemoveIdle _ _ | RemoveBundle _ | InsertBundle _
  | WouldExceed _ | CountBundles => False
  | _ => True
  end.

Section Dull.
Context {RD : Redb} {UL : UuidLib} {LS : LibSignal} {HS : Hashing} {B6 : Base64} {JS : Json}.
Context {SV : Serde QueueStore.StoredValue} {SM : Serde FileStore.FileMeta}.
Context {SA : Serde MailboxAuth} {SB : Serde HostedBundle}.

Lemma dull_fits {A B} (p : Steps A) (o : op B) v (rest : Steps A) :
  no_debt o → calm rest → fits_shape p o v rest.
Proof. intros Ho [H1 H2 H3]. destruct o; try done; split; simpl; try done; try by rewrite H3. Qed.
End Dull.

Create HintDb shape discriminated.
#[export] Hint Resolve calm_bind shaped_bind : shape.

(** A debt that is paid further on. *)
Ltac owed :=
  simpl; intros; destruct_and?; subst; try done;
  repeat first
    [ left; reflexivity
    | right; intros ?
    | lazymatch goal with
      | |- owes _ (match ?x with _ => _ end) => destruct x
      | |- owes_bundle _ (match ?x with _ => _ end) => destruct x
      end; simpl ].

(** A program, operation by operation. *)
Ltac shape :=
  repeat first
    [ done
    | progress cbv zeta
    | progress cbn [mbind Steps_bind bind_steps do mret Steps_ret reply_steps negb orb]
    | lazymatch goal with
      | |- shaped (match ?x with _ => _ end) => scrut x
      | |- calm (match ?x with _ => _ end) => scrut x
      | |- shaped (bind_steps _ (match ?x with _ => _ end)) => scrut x
      | |- shaped (match ?x with _ => _ end ≫= _) => scrut x
      | |- fits_shape _ _ _ (match ?x with _ => _ end) ∧ _ => scrut x
      | |- fits_shape _ _ _ (match ?x with _ => _ end ≫= _) ∧ _ => scrut x
      | |- fits_shape _ _ _ (bind_steps _ (match ?x with _ => _ end)) ∧ _ => scrut x
      | |- calm (bind_steps _ (match ?x with _ => _ end)) => scrut x
      | |- calm (match ?x with _ => _ end ≫= _) => scrut x
      | |- shaped (Do ?o ?k) => change (∀ v, fits_shape (Do o k) o v (k v) ∧ shaped (k v)); intros ?; cbn beta
      | |- fits_shape _ _ _ _ ∧ _ => split
      | |- fits_shape _ _ _ _ => first [apply dull_fits; [exact I|] | split; [reflexivity|simpl; done|simpl; done|owed|owed]]
      | |- calm _ => split; reflexivity
      end ].

Section Programs.
Context {RD : Redb} {UL : UuidLib} {LS : LibSignal} {HS : Hashing} {B6 : Base64} {JS : Json}.
Context {SV : Serde QueueStore.StoredValue} {SM : Serde FileStore.FileMeta}.
Context {SA : Serde MailboxAuth} {SB : Serde HostedBundle}.

Lemma ping_shaped : shaped ping_steps ∧ calm ping_steps.
Proof. split; unfold ping_steps; shape. Qed.

Lemma ack_shaped ids : shaped (ack_steps ids) ∧ calm (ack_steps ids).
Proof. split; unfold ack_steps; shape. Qed.

Lemma set_tokens_shaped req toks :
  shaped (set_delivery_tokens_steps req toks) ∧ calm (set_delivery_tokens_steps req toks).
Proof. split; unfold set_delivery_tokens_steps; shape. Qed.

Lemma retire_shaped : shaped retire_mailbox_steps ∧ calm retire_mailbox_steps.
Proof. split; unfold retire_mailbox_steps; shape. Qed.

Lemma send_shaped fresh cr to tok ty ct :
  let p := send_envelope_steps fresh cr to tok ty ct in shaped p ∧ calm p.
Proof. split; unfold send_envelope_steps, deliver_live_steps, queue_envelope_steps; shape. Qed.

Lemma issue_shaped rng req uuid dev key :
  let p := issue_steps rng req uuid dev key in shaped p ∧ calm p.
Proof. split; unfold issue_steps; shape. Qed.

Lemma fetch_chunk_shaped req id idx : let p := fetch_file_chunk_steps req id idx in shaped p ∧ calm p.
Proof. split; unfold fetch_file_chunk_steps; shape. Qed.

Lemma delete_shaped req id : let p := delete_transfer_steps req id in shaped p ∧ calm p.
Proof. split; unfold delete_transfer_steps; shape. Qed.

Lemma pow_shaped id pow : shaped (pow_steps id pow) ∧ calm (pow_steps id pow).
Proof. split; unfold pow_steps; shape. Qed.

Lemma both_bind {A B} (p : Steps A) (f : A → Steps B) :
  shaped p ∧ calm p → (∀ a, shaped (f a) ∧ calm (f a)) → shaped (p ≫= f) ∧ calm (p ≫= f).
Proof. intros [Hp Hc] Hf. split; [apply shaped_bind|apply calm_bind]; try done; apply Hf. Qed.

Lemma both_do {A B} (o : op B) (k : B → Steps A) :
  no_debt o → calm (Do o k) → (∀ v, shaped (k v) ∧ calm (k v)) → shaped (Do o k) ∧ calm (Do o k).
Proof. intros Ho Hc Hk. split; [|done]. intros v. split; [by apply dull_fits, Hk|apply Hk]. Qed.

Lemma upload_chunk_shaped req id idx tc tb ct pow :
  let p := upload_file_chunk_steps req id idx tc tb ct pow in shaped p ∧ calm p.
Proof.
  unfold upload_file_chunk_steps. cbv zeta. destruct (negb _); [split; shape|].
  destruct (b64_decode ct) as [raw|]; [|split; shape]. apply both_bind; [|intros []; split; shape].
  destruct (idx =? 0); [apply pow_shaped|split; shape].
Qed.

Lemma deliver_shaped envs n : shaped (deliver_steps envs n) ∧ calm (deliver_steps envs n).
Proof.
  revert n. induction envs as [|env rest IH]; intros n; simpl; [split; shape|].
  apply both_do; [exact I|split; reflexivity|]. intros []; [apply IH|split; shape].
Qed.

Lemma hello_shaped rid a del mn mx v pow cert :
  let p := hello_steps rid a del mn mx v pow cert in shaped p ∧ calm p.
Proof.
  unfold hello_steps. destruct (negotiate _ _ _); [|split; shape]. split; [|shape]. shape.
  all: apply both_bind; [apply deliver_shaped|intros; split; shape].
Qed.

Lemma remove_expired_shaped freed l : shaped (remove_expired_steps freed l) ∧ calm (remove_expired_steps freed l).
Proof.
  revert freed. induction l as [|[id len] l IH]; intros freed; [split; shape|].
  cbn [remove_expired_steps do mbind Steps_bind bind_steps]. split; [|split; reflexivity]. intros [].
  - split; [split; [reflexivity..|done|done|owed]|]. intros v. split; [by apply dull_fits, IH|apply IH].
  - destruct (IH freed) as [Hs [H1 H2 H3]]. split; [|done].
    split; [exact H1|exact H2|simpl; by rewrite H3|done|by intros ? []].
Qed.

Lemma prune_shaped : shaped prune_steps ∧ calm prune_steps.
Proof.
  split; unfold prune_steps; shape. all: apply both_bind; [apply (remove_expired_shaped _ (_ :: _))|intros; split; shape].
Qed.

Lemma fetch_bundle_shaped req id : let p := fetch_bundle_steps req id in shaped p ∧ calm p.
Proof. unfold fetch_bundle_steps. apply both_bind; [apply prune_shaped|]. intros. split; shape. Qed.

Lemma upload_bundle_shaped req id ct exp pow :
  let p := upload_bundle_steps req id ct exp pow in shaped p ∧ calm p.
Proof.
  unfold upload_bundle_steps. destruct (_ || _); [split; shape|]. apply both_bind; [apply pow_shaped|].
  intros []; cbn [negb]; [|split; shape]. apply both_bind; [apply prune_shaped|]. intros _. split; [|split; reflexivity].
  unfold insert_bundle_steps. cbn [mbind Steps_bind bind_steps do].
  intros now. split; [shape|]. intros old. destruct (existing_reply _ _ _ _ _); [split; shape|].
  split; [shape|]. intros n. destruct (Z.leb_spec MAX_BUNDLES n); [split; [split; simpl; (done || lia)|shape]|].
  split; [split; simpl; done|]. intros total. destruct (_ <? _); [split; shape|].
  split; [split; simpl; done|]. intros now'. split; [split; simpl; done|].
  intros [len|]; (split; [split; [reflexivity..|done|owed]|shape]).
Qed.

(** ** Turns and tasks *)

Lemma frame_shaped d f : shaped (frame_steps d f) ∧ calm (frame_steps d f).
Proof.
  destruct f; cbn [frame_steps].
  - apply hello_shaped.
  - apply set_tokens_shaped.
  - apply issue_shaped.
  - apply send_shaped.
  - apply upload_bundle_shaped.
  - apply fetch_bundle_shaped.
  - apply upload_chunk_shaped.
  - apply fetch_chunk_shaped.
  - apply delete_shaped.
  - apply ack_shaped.
  - apply retire_shaped.
  - apply ping_shaped.
Qed.

Lemma turn_shaped d incoming : shaped (turn_steps d incoming) ∧ calm (turn_steps d incoming).
Proof.
  unfold turn_steps. apply both_bind.
  - destruct incoming as [text| |]; [|split; shape..]. cbn [incoming_steps]. unfold text_steps.
    cbn [mbind Steps_bind bind_steps do]. apply both_do; [exact I|split; reflexivity|]. intros count.
    destruct (_ <? _); [split; shape|]. destruct (_ <? _); [split; shape|].
    destruct (parse_frame text); [split; shape|apply frame_shaped].
  - intros []; [split; shape|]. apply both_bind; [|intros; split; shape]. unfold teardown_steps. split; shape.
Qed.

Lemma take_auth_shaped batch l : shaped (take_auth_steps batch l) ∧ calm (take_auth_steps batch l).
Proof.
  revert batch. induction l as [|k l IH]; intros batch; [split; shape|].
  cbn [take_auth_steps do mbind Steps_bind bind_steps]. do 2 (apply both_do; [exact I|split; reflexivity|intros]). apply IH.
Qed.

Lemma take_bundles_shaped batch l : shaped (take_bundles_steps batch l) ∧ calm (take_bundles_steps batch l).
Proof.
  revert batch. induction l as [|k l IH]; intros batch; [split; shape|].
  cbn [take_bundles_steps do mbind Steps_bind bind_steps]. do 2 (apply both_do; [exact I|split; reflexivity|intros]). apply IH.
Qed.

Lemma flush_shaped : shaped flush_steps ∧ calm flush_steps.
Proof.
  unfold flush_steps. cbn [mbind Steps_bind bind_steps do]. apply both_do; [exact I|split; reflexivity|]. intros keys.
  apply both_bind; [apply take_auth_shaped|]. intros batch. apply both_do; [exact I|split; reflexivity|].
  intros [e|u]; [split; shape|]. apply both_do; [exact I|split; reflexivity|]. intros keys'.
  apply both_bind; [apply take_bundles_shaped|]. intros batch'. split; shape.
Qed.

Lemma stale_shaped stale l : shaped (stale_steps stale l) ∧ calm (stale_steps stale l).
Proof.
  revert stale. induction l as [|rid l IH]; intros stale; [split; shape|].
  cbn [stale_steps do mbind Steps_bind bind_steps]. do 2 (apply both_do; [exact I|split; reflexivity|intros]). apply IH.
Qed.

Lemma collect_shaped now n l : shaped (collect_steps now n l) ∧ calm (collect_steps now n l).
Proof.
  revert n. induction l as [|rid l IH]; intros n; [split; shape|]. cbn [collect_steps].
  apply both_bind; [|intros; apply IH]. unfold collect_one_steps. split; shape.
Qed.

Lemma task_shaped t : shaped (task_steps t) ∧ calm (task_steps t).
Proof.
  assert (shaped (spawn_steps (task_body t)) ∧ calm (spawn_steps (task_body t))) as Hspawn.
  { unfold spawn_steps. cbn [mbind Steps_bind bind_steps do]. apply both_do; [exact I|split; reflexivity|].
    intros []; [|split; shape]. destruct t; unfold task_body; [| |split; shape..].
    - apply both_bind; [apply flush_shaped|intros; split; shape].
    - apply both_bind; [|intros; split; shape]. unfold gc_steps. cbn [mbind Steps_bind bind_steps do].
      do 2 (apply both_do; [exact I|split; reflexivity|intros]). apply both_bind; [apply stale_shaped|intros; apply collect_shaped]. }
  destruct t; try apply Hspawn. cbn [task_steps do mbind Steps_bind bind_steps].
  do 2 (apply both_do; [exact I|split; reflexivity|intros]). destruct (_ && _); [split; shape|apply Hspawn].
Qed.
End Programs.
