(* ===== verification/StepsDuties.v ===== *)
(** Which thread performs which operations, and what an operation does.

    A connection never flushes, sweeps or collects; a background task never enters
    a mailbox, sets a route or sends; only the flush takes keys off the dirty sets
    and writes the tables.  [only] says so of every operation a program can come
    to. *)
From Stdlib Require Import ZArith Lia Ascii String.
From stdpp Require Import base gmap strings list.
From S2P Require Import Prelude Redb RustStd Config Util Protocol Mailbox Signal State StateFacts StateOps Ws WsFacts.
From S2P Require Import WsRuns WsFrames Steps StepsOrder.
From S2P Require QueueStore.
From S2P Require QueueFacts.
From S2P Require QueueRuns.
From S2P Require QueueSpec.
From S2P Require FileStore.
From S2P Require FileFacts.
From S2P Require FileWrites.
From S2P Require FileRemovals.
From S2P Require MetaStore.

Section Duties.
Context {RD : Redb} {UL : UuidLib} {LS : LibSignal} {HS : Hashing} {B6 : Base64} {JS : Json}.
Context {SV : Serde QueueStore.StoredValue} {SM : Serde FileStore.FileMeta}.
Context {SA : Serde MailboxAuth} {SB : Serde HostedBundle}.

(** The operations of a background task; [None] is a connection. *)
Definition duty {A : Type} (t : option Task) (o : op A) : bool :=
  match t, o with
  | Some FlushTask, (DirtyAuth | UndirtyAuth _ | ReadAuth _ | WriteAuth _ | DirtyBundles | UndirtyBundle _
                    | GetBundle _ | WriteBundles _ | Spawn) => true
  | Some GcTask, (Clock | GcCandidates _ | QueueIsEmpty _ | HasRoute _ | RemoveIdle _ _ | SubMailboxCount | MarkAuth _
                 | PurgeHere _ | DropRate _ | Spawn) => true
  | Some QueueSweepTask, (SweepQueues | Spawn) => true
  | Some FileSweepTask, (SweepFiles | Spawn) => true
  | Some _, _ => false
  | None, (DirtyAuth | UndirtyAuth _ | ReadAuth _ | WriteAuth _ | DirtyBundles | UndirtyBundle _ | WriteBundles _
          | GcCandidates _ | QueueIsEmpty _ | HasRoute _ | RemoveIdle _ _ | PurgeHere _ | SweepQueues | SweepFiles
          | Spawn) => false
  | None, _ => true
  end.

Fixpoint only {A : Type} (t : option Task) (p : Steps A) : Prop :=
  match p with
  | Done _ => True
  | Do o k => duty t o = true ∧ ∀ v, only t (k v)
  end.

Lemma only_bind {A B} t (p : Steps A) (f : A → Steps B) : only t p → (∀ a, only t (f a)) → only t (p ≫= f).
Proof. intros Hp Hf. induction p as [a|C o k IH]; simpl in *; [apply Hf|]. destruct Hp as [Ho Hk]. split; [done|]. intros v. by apply IH. Qed.
End Duties.

(** A program, operation by operation. *)
Ltac dutiful :=
  repeat first
    [ done
    | progress cbv zeta
    | progress cbn [mbind Steps_bind bind_steps do mret Steps_ret reply_steps only duty negb orb]
    | lazymatch goal with
      | |- _ ∧ _ => split
      | |- ∀ _, _ => intros ?
      | |- only _ (match ?x with _ => _ end) => scrut x
      | |- only _ (bind_steps _ (match ?x with _ => _ end)) => scrut x
      | |- only _ (match ?x with _ => _ end ≫= _) => scrut x
      | |- only _ (bind_steps _ (match ?x with _ => _ end ≫= _)) => scrut x
      end ].

Section Programs.
Context {RD : Redb} {UL : UuidLib} {LS : LibSignal} {HS : Hashing} {B6 : Base64} {JS : Json}.
Context {SV : Serde QueueStore.StoredValue} {SM : Serde FileStore.FileMeta}.
Context {SA : Serde MailboxAuth} {SB : Serde HostedBundle}.

(** ** Connections *)

Lemma deliver_only envs n : only None (deliver_steps envs n).
Proof. revert n. induction envs as [|env rest IH]; intros n; simpl; [done|]. dutiful. Qed.

Lemma hello_only rid a del mn mx v pow cert : only None (hello_steps rid a del mn mx v pow cert).
Proof. unfold hello_steps. dutiful. all: apply only_bind; [apply deliver_only|intros; dutiful]. Qed.

Lemma remove_expired_only freed l : only None (remove_expired_steps freed l).
Proof. revert freed. induction l as [|[id len] l IH]; intros freed; simpl; [done|]. dutiful. Qed.

Lemma prune_only : only None prune_steps.
Proof. unfold prune_steps. dutiful. all: apply only_bind; [apply (remove_expired_only _ (_ :: _))|intros; dutiful]. Qed.

Lemma pow_only id pow : only None (pow_steps id pow).
Proof. unfold pow_steps. dutiful. Qed.

Lemma upload_bundle_only req id ct exp pow : only None (upload_bundle_steps req id ct exp pow).
Proof.
  unfold upload_bundle_steps, insert_bundle_steps. dutiful. apply only_bind; [apply pow_only|]. intros []; [|dutiful].
  apply only_bind; [apply prune_only|]. intros. dutiful.
Qed.

Lemma upload_chunk_only req id idx tc tb ct pow : only None (upload_file_chunk_steps req id idx tc tb ct pow).
Proof.
  unfold upload_file_chunk_steps. cbv zeta. destruct (negb _); [dutiful|]. destruct (b64_decode ct); [|dutiful].
  apply only_bind; [destruct (idx =? 0); [apply pow_only|done]|]. intros. dutiful.
Qed.

Lemma frame_only d f : only None (frame_steps d f).
Proof.
  destruct f; cbn [frame_steps].
  - apply hello_only.
  - unfold set_delivery_tokens_steps. dutiful.
  - unfold issue_steps. dutiful.
  - unfold send_envelope_steps, deliver_live_steps, queue_envelope_steps. dutiful.
  - apply upload_bundle_only.
  - unfold fetch_bundle_steps. apply only_bind; [apply prune_only|]. intros. dutiful.
  - apply upload_chunk_only.
  - unfold fetch_file_chunk_steps. dutiful.
  - unfold delete_transfer_steps. dutiful.
  - unfold ack_steps. dutiful.
  - unfold retire_mailbox_steps. dutiful.
  - unfold ping_steps. dutiful.
Qed.

Lemma turn_only d incoming : only None (turn_steps d incoming).
Proof.
  unfold turn_steps. apply only_bind.
  - destruct incoming as [text| |]; [|done..]. cbn [incoming_steps]. unfold text_steps. dutiful. apply frame_only.
  - intros []; [done|]. apply only_bind; [unfold teardown_steps; dutiful|done].
Qed.

(** ** Tasks *)

Lemma take_auth_only batch l : only (Some FlushTask) (take_auth_steps batch l).
Proof. revert batch. induction l as [|k l IH]; intros batch; simpl; [done|]. dutiful. Qed.

Lemma take_bundles_only batch l : only (Some FlushTask) (take_bundles_steps batch l).
Proof. revert batch. induction l as [|k l IH]; intros batch; simpl; [done|]. dutiful. Qed.

Lemma flush_only : only (Some FlushTask) flush_steps.
Proof.
  unfold flush_steps. dutiful. apply only_bind; [apply take_auth_only|]. intros batch. dutiful.
  apply only_bind; [apply take_bundles_only|]. intros. dutiful.
Qed.

Lemma stale_only stale l : only (Some GcTask) (stale_steps stale l).
Proof. revert stale. induction l as [|rid l IH]; intros stale; simpl; [done|]. dutiful. Qed.

Lemma collect_only now n l : only (Some GcTask) (collect_steps now n l).
Proof.
  revert n. induction l as [|rid l IH]; intros n; cbn [collect_steps]; [done|]. apply only_bind; [|intros; apply IH].
  unfold collect_one_steps. dutiful.
Qed.

Lemma gc_only : only (Some GcTask) gc_steps.
Proof. unfold gc_steps. dutiful. apply only_bind; [apply stale_only|]. intros. apply collect_only. Qed.

Lemma task_only t : only (Some t) (task_steps t).
Proof.
  assert (only (Some t) (spawn_steps (task_body t))) as Hspawn.
  { unfold spawn_steps. cbn [mbind Steps_bind bind_steps do only]. split; [by destruct t|]. intros []; [|done].
    destruct t; unfold task_body; [| |dutiful..]; apply only_bind; (done || apply flush_only || apply gc_only). }
  destruct t; try apply Hspawn. cbn [task_steps]. dutiful.
Qed.
End Programs.

(** What an operation of [Steps] does to each part of the relay.

    One definition per part: the mailboxes' records, the mailbox count, the
    routes, the queues, the bundles, the connection, the frames that go out; and
    what the operations that only look answer. *)

Section Effects.
Context {RD : Redb} {UL : UuidLib} {LS : LibSignal} {HS : Hashing} {B6 : Base64} {JS : Json}.
Context {SV : Serde QueueStore.StoredValue} {SM : Serde FileStore.FileMeta}.
Context {SA : Serde MailboxAuth} {SB : Serde HostedBundle}.
Implicit Types (s : Session) (a : AppState).

(** ** Records *)

Definition auth_effect {A : Type} (o : op A) a (m' : gmap RecipientId MailboxAuth) : A → Prop :=
  let m := mailbox_auth a in
  match o in op A return A → Prop with
  | Enter rid auth_hash _ _ => λ v,
      match v with
      | inr _ => ∃ x, m' = <[rid := x]> m ∧ receive_auth_hash x = auth_hash ∧ wf_auth x
                      ∧ match m !! rid with Some old => receive_auth_hash old = auth_hash | None => True end
      | inl _ => m' = m
      end
  | ReplaceTokens rid hashes => λ v,
      match v with
      | Some _ => ∃ x, m !! rid = Some x ∧ m' = <[rid := replace_delivery_hashes hashes x]> m
      | None => m' = m
      end
  | Authorize to _ => λ v,
      if v then ∃ x now, m !! to = Some x ∧ m' = <[to := touch now x]> m else m' = m
  | RemoveMailbox rid => λ v, if v then is_Some (m !! rid) ∧ m' = delete rid m else m !! rid = None ∧ m' = m
  | RemoveIdle now rid => λ v,
      if v then ∃ x, m !! rid = Some x ∧ idle now x = true ∧ online a !! rid = None ∧ m' = delete rid m else m' = m
  | _ => λ _, m' = m
  end.

(** Looks at a part of the shared state that the operation leaves alone. *)
Lemma preserves_part {B E A} (h : AppState → B) v (m : M AppState E A) :
  preserves h v m → preserves (λ s, h (app s)) v (on_app m).
Proof. apply preserves_zoom; done. Qed.

Lemma preserves_spawned {B E E' A} (g : Session → B) v (m : M Session E' A) :
  preserves g v m → preserves g v (spawn_blocking (E' := E) m).
Proof. intros H. unfold spawn_blocking. preserve. Qed.

Lemma same_wp {S E A B} (g : S → B) (m : M S E A) (Q : E + A → S → io → Prop) (x0 : S) i :
  (∀ x, preserves g x m) → (∀ r x1 i1, g x1 = g x0 → Q r x1 i1) → wp m Q x0 i.
Proof. intros H HQ. unfold wp. pose proof (H _ x0 i eq_refl) as Hg. destruct (m x0 i) as [[r s'] i']. by apply HQ. Qed.
End Effects.

(** An operation leaves a part alone. *)
Ltac leaves :=
  intros ?; simpl; unfold on_queues, on_files, send_await, try_send;
  repeat first
    [ apply preserves_part; unfold enter_mailbox, reserve_mailbox_slot, new_mailbox, replace_tokens, authorize_delivery,
        remove_mailbox, remove_idle, mark_auth_dirty, mark_bundle_dirty, allow_dest_send, remove_bundle, insert_entry
    | apply preserves_spawned
    | by apply preserves_zoom_other
    | progress preserve ];
  try done.

Section Parts.
Context {RD : Redb} {UL : UuidLib} {LS : LibSignal} {HS : Hashing} {B6 : Base64} {JS : Json}.
Context {SV : Serde QueueStore.StoredValue} {SM : Serde FileStore.FileMeta}.
Context {SA : Serde MailboxAuth} {SB : Serde HostedBundle}.
Implicit Types (s : Session) (a : AppState).
Context {E : Type}.

Lemma perform_auth {A} (o : op A) s i :
  is_u64 (mailbox_count (app s)) → wf_mailboxes (mailbox_auth (app s)) →
  wp (perform (E := E) o) (λ r s' _, ∀ v, r = inr v → auth_effect o (app s) (mailbox_auth (app s')) v) s i.
Proof.
  intros Hn Hwf.
  destruct o; try (apply (same_wp (λ s, mailbox_auth (app s))); [solve [leaves]|by intros r s' i' H v _]).
  - simpl. apply wp_on_app, wp_enter; [apply Hn|apply Hn|..].
    + by intros i' _ _ v [= <-].
    + by intros i' _ _ _ _ v [= <-].
    + intros a n i' _ He v [= <-]. simpl. exists a. unfold entered in He.
      destruct (mailbox_auth (app s) !! rid) as [a0|] eqn:Ha.
      * destruct He as (<- & _ & ->). split_and!; [done| |by apply wf_ensure, wf_touch, (Hwf rid)|done].
        unfold ensure_delivery_hash. by case_bool_decide.
      * destruct He as (_ & _ & _ & now & ->). split_and!; try done. apply wf_new.
  - simpl. apply wp_on_app. unfold replace_tokens. do 2 wp_step. destruct (mailbox_auth (app s) !! rid) as [x|] eqn:Hx.
    + wp_steps. intros v [= <-]. simpl. by exists x.
    + wp_step. by intros v [= <-].
  - simpl. apply wp_on_app, wp_authorize; [by intros _ v [= <-]|]. intros x Hx _ v [= <-]. simpl. by eexists x, _.
  - simpl. apply wp_on_app. unfold remove_mailbox. do 2 wp_step. destruct (mailbox_auth (app s) !! rid) as [x|] eqn:Hx.
    + wp_steps. intros v [= <-]. simpl. rewrite ?Hx. split; [by eexists|done].
    + wp_step. intros v [= <-]. simpl. by rewrite ?Hx.
  - simpl. apply wp_on_app. unfold remove_idle. do 2 wp_step. cbv zeta. destruct (mailbox_auth (app s) !! rid) as [x|] eqn:Hx.
    + unfold contains_online. destruct (idle now x) eqn:Hi; cbn [andb]; [|wp_step; by intros v [= <-]].
      destruct (online (app s) !! rid) eqn:Hon; cbn [negb]; [wp_step; by intros v [= <-]|].
      wp_steps. intros v [= <-]. simpl. by exists x.
    + wp_step. by intros v [= <-].
Qed.

(** ** The mailbox count *)

Definition count_effect {A : Type} (o : op A) a (n' : Z) : A → Prop :=
  match o in op A return A → Prop with
  | Enter rid _ _ _ => λ v,
      match v, mailbox_auth a !! rid with
      | inr _, None => mailbox_count a < MAX_MAILBOXES ∧ n' = mailbox_count a + 1
      | _, _ => n' = mailbox_count a
      end
  | SubMailboxCount => λ _, n' = (mailbox_count a -! 1)
  | _ => λ _, n' = mailbox_count a
  end.

Lemma perform_count {A} (o : op A) s i :
  is_u64 (mailbox_count (app s)) →
  wp (perform (E := E) o) (λ r s' _, ∀ v, r = inr v → count_effect o (app s) (mailbox_count (app s')) v) s i.
Proof.
  intros Hn.
  destruct o; try (apply (same_wp (λ s, mailbox_count (app s))); [solve [leaves]|by intros r s' i' H v _]).
  - simpl. apply wp_on_app, wp_enter; [apply Hn|apply Hn|..].
    + by intros i' _ _ v [= <-].
    + by intros i' _ _ _ _ v [= <-].
    + intros a n i' _ He v [= <-]. simpl. unfold entered in He. destruct (mailbox_auth (app s) !! rid); tauto.
  - simpl. apply wp_on_app. wp_step. by intros v [= <-].
Qed.

(** ** Routes *)

Definition route_effect {A : Type} (o : op A) (c : Conn) a (m' : gmap RecipientId ClientTx) : Prop :=
  match o with
  | SetRoute rid => m' = <[rid := tx c]> (online a)
  | DropRoute rid => m' = delete rid (online a)
  | _ => m' = online a
  end.

Lemma perform_routes {A} (o : op A) s i :
  wp (perform (E := E) o) (λ r s' _, route_effect o (conn s) (app s) (online (app s'))) s i.
Proof.
  destruct o; try (apply (same_wp (λ s, online (app s))); [solve [leaves]|by intros r s' i' H]).
  - simpl. by wp_step.
  - simpl. apply wp_on_app. by wp_step.
Qed.

(** ** Bundles *)

Definition bundles_effect {A : Type} (o : op A) a (m' : gmap string HostedBundle) : A → Prop :=
  let m := bundles a in
  match o in op A return A → Prop with
  | RemoveBundle id => λ v, if v then m' = delete id m else m' = m
  | InsertBundle b => λ _, m' = <[bundle_key b := b]> m
  | _ => λ _, m' = m
  end.

Lemma perform_bundles {A} (o : op A) s i :
  wp (perform (E := E) o) (λ r s' _, ∀ v, r = inr v → bundles_effect o (app s) (bundles (app s')) v) s i.
Proof.
  destruct o; try (apply (same_wp (λ s, bundles (app s))); [solve [leaves]|by intros r s' i' H v _]).
  - simpl. apply wp_on_app. unfold remove_bundle. do 2 wp_step. destruct (bundles (app s) !! bundle_id) eqn:Hb.
    + wp_steps. by intros v [= <-].
    + wp_step. by intros v [= <-].
  - simpl. apply wp_on_app. unfold insert_entry. wp_steps. by intros v [= <-].
Qed.

(** ** The connection *)

Definition conn_effect {A : Type} (o : op A) (c c' : Conn) : Prop :=
  match o with
  | SetRecipient rid => recipient_id c' = Some rid
  | _ => recipient_id c' = recipient_id c
  end.

Lemma perform_conn {A} (o : op A) s i :
  wp (perform (E := E) o) (λ r s' _, conn_effect o (conn s) (conn s')) s i.
Proof.
  destruct o; try (apply (same_wp (λ s, recipient_id (conn s))); [leaves; unfold count_frame; by case_match|by intros r s' i' H]).
  simpl. by wp_step.
Qed.

(** What the connection count is does not depend on the operations. *)
Lemma perform_conn_count {A} (o : op A) s i :
  wp (perform (E := E) o) (λ r s' _, conn_count (app s') = conn_count (app s)) s i.
Proof. destruct o; (apply (same_wp (λ s, conn_count (app s))); [solve [leaves]|by intros r s' i' H]). Qed.
End Parts.
