(* ===== verification/StepsStores.v ===== *)
(** What an operation of [Steps] does to the stores, the send rates and the
    write-back sets, what it sends, and what the operations that only look
    answer. *)
From Stdlib Require Import ZArith Lia Ascii String.
From stdpp Require Import base gmap strings list.
From S2P Require Import Prelude Redb RustStd Config Util Protocol Mailbox Signal State StateFacts StateOps Ws WsFacts.
From S2P Require Import WsRuns WsFrames Steps StepsOrder StepsDuties.
From S2P Require QueueStore.
From S2P Require QueueFacts.
From S2P Require QueueRuns.
From S2P Require QueueRemovals.
From S2P Require QueueSpec.
From S2P Require FileStore.
From S2P Require FileFacts.
From S2P Require FileWrites.
From S2P Require FileRemovals.
From S2P Require MetaStore.
From S2P Require Threads.

Section Stores.
Context {RD : Redb} {UL : UuidLib} {LS : LibSignal} {HS : Hashing} {B6 : Base64} {JS : Json}.
Context {SV : Serde QueueStore.StoredValue} {SM : Serde FileStore.FileMeta}.
Context {SA : Serde MailboxAuth} {SB : Serde HostedBundle}.
Implicit Types (s : Session) (a : AppState).
Context {E : Type}.

(** ** Names *)

(** The ids an operation works on have no [':'], its sizes the bounds of a
    frame. *)
Definition named {A : Type} (o : op A) : Prop :=
  match o with
  | Enter rid _ _ _ | FlushQueue rid | AckIds rid _ | PurgeQueue rid | PurgeHere rid | QueueIsEmpty rid => no_char ":" rid
  | Enqueue to env => no_char ":" to ∧ slen (ciphertext env) ≤ MAX_FRAME_BYTES
  | StoreChunk id idx tc tb raw =>
      no_char ":" id ∧ 0 ≤ idx ≤ u32_max ∧ 0 ≤ tc ≤ u32_max ∧ is_u64 tb ∧ blen raw ≤ MAX_FRAME_BYTES
  | FetchChunk id _ | DeleteTransferOp id => no_char ":" id
  | _ => True
  end.

(** ** Queues

    A sweep takes its cutoff from the clock of its script. *)

Definition queue_effect {A : Type} (i : io) (o : op A) (q q' : QueueSpec.Queues) : A → Prop :=
  match o in op A return A → Prop with
  | Enqueue to env => λ v,
      (∀ m, m ≠ to → q' m = q m) ∧
      match v with
      | Some (inr _) => ∃ now, q' to = QueueSpec.keep_newest (slen (ciphertext env)) (q to) ++ [QueueSpec.message_of env now]
      | _ => q' to = q to
      end
  | AckIds rid ids => λ v,
      (∀ m, m ≠ rid → q' m = q m) ∧
      match v with
      | Some (inr _) => q' rid = filter (λ x, QueueSpec.msg_id x ∉ ids) (q rid)
      | _ => q' rid = q rid
      end
  | PurgeQueue rid => λ v,
      (∀ m, m ≠ rid → q' m = q m) ∧ match v with Some (inr _) => q' rid = [] | _ => q' rid = q rid end
  | PurgeHere rid => λ v,
      (∀ m, m ≠ rid → q' m = q m) ∧ match v with inr _ => q' rid = [] | _ => q' rid = q rid end
  | SweepQueues => λ v,
      match v with
      | inr _ => ∀ m, q' m = filter (λ x, next_now i -^ QUEUE_TTL_MS ≤ QueueSpec.msg_at x) (q m)
      | inl _ => ∀ m, q' m = q m
      end
  | _ => λ _, ∀ m, q' m = q m
  end.

Lemma spawned_queue {A} (m : M QueueStore anyhow A) (Q : anyhow + A → QueueStore → Prop) (R : option (anyhow + A) → Session → Prop) s i :
  (∀ i', wp m (λ r q' _, Q r q') (queues (app s)) i') →
  (∀ r q', Q r q' → R (Some r) (set_app (set_queues q' (app s)) s)) → R None s →
  wp (spawn_blocking (E' := E) (on_queues m)) (λ r s' _, ∀ v, r = inr v → R v s') s i.
Proof.
  intros Hm HR Hn. apply wp_spawn.
  - intros i' _. unfold on_queues. apply wp_on_app. wp_step. eapply wp_conseq; [apply Hm|]. cbn beta.
    intros r q' i'' HQ v [= <-]. by apply HR.
  - by intros i' _ _ v [= <-].
Qed.

Lemma flush_only_reads x rid : preserves (λ q : QueueStore, q) x (QueueStore.flush rid).
Proof. unfold QueueStore.flush, QueueStore.read_mailbox, begin_txn, open_table, txn_range. preserve. Qed.

Lemma is_empty_reads x rid : preserves (λ q : QueueStore, q) x (QueueStore.is_empty rid).
Proof. unfold QueueStore.is_empty, begin_txn, open_table, txn_range. preserve. Qed.

Lemma perform_queues {A} (o : op A) s i :
  QueueFacts.Inv (queues (app s)) → named o → Threads.op_pre o (app s) i →
  match o with Enqueue _ env => QueueStore.total_bytes (queues (app s)) + slen (ciphertext env) ≤ u64_max | _ => True end →
  wp (perform (E := E) o) (λ r s' _, ∀ v, r = inr v →
    QueueFacts.Inv (queues (app s')) ∧ queue_effect i o (QueueSpec.abs (queues (app s))) (QueueSpec.abs (queues (app s'))) v) s i.
Proof.
  intros HQ Hname Hpre Htot.
  destruct o; try (apply (same_wp (λ s, queues (app s)));
    [leaves; apply (preserves_zoom _ (λ q : QueueStore, q)); (done || apply flush_only_reads || apply is_empty_reads)
    |by intros r s' i' H v _; rewrite H]).
  - destruct Hpre as [Hfresh Hseq], Hname as [Hto Hlen]. apply (spawned_queue _ (λ r q', QueueFacts.Inv q' ∧
      queue_effect i (Enqueue to env) (QueueSpec.abs (queues (app s))) (QueueSpec.abs q') (Some r))).
    + intros i'. eapply wp_conseq; [apply QueueSpec.enqueue_effect; [done|]|].
      { split; try done. unfold MAX_FRAME_BYTES, PER_MAILBOX_QUEUE_BYTES in *. lia. }
      cbn beta. intros r q' i'' (_ & HI & Ho & Hr). split; [done|]. split; [done|].
      destruct r; [apply Hr|by eexists].
    + done.
    + done.
  - apply (spawned_queue _ (λ r q', QueueFacts.Inv q' ∧
      queue_effect i (AckIds rid ids) (QueueSpec.abs (queues (app s))) (QueueSpec.abs q') (Some r))); [|done|done].
    intros i'. eapply wp_conseq; [by apply (QueueSpec.ack_effect i')|].
    cbn beta. intros r q' i'' (_ & HI & Ho & Hr). split; [done|]. split; [done|].
    destruct r; [by destruct Hr as [_ ->]|by destruct Hr].
  - apply (spawned_queue _ (λ r q', QueueFacts.Inv q' ∧
      queue_effect i (PurgeQueue rid) (QueueSpec.abs (queues (app s))) (QueueSpec.abs q') (Some r))); [|done|done].
    intros i'. eapply wp_conseq; [by apply (QueueSpec.purge_effect i')|].
    cbn beta. intros r q' i'' (_ & HI & Ho & Hr). split; [done|]. split; [done|].
    destruct r; [by destruct Hr as [_ ->]|done].
  - simpl. wp_step. unfold on_queues. apply wp_on_app. wp_step. eapply wp_conseq; [by apply (QueueSpec.purge_effect i)|].
    cbn beta. intros r q' i'' (_ & HI & Ho & Hr) v [= <-]. split; [done|]. split; [done|].
    destruct r; [by destruct Hr as [_ ->]|done].
  - simpl. wp_step. unfold on_queues. apply wp_on_app. wp_step. eapply wp_conseq; [by apply QueueSpec.sweep_effect|].
    cbn beta. intros r q' i'' (_ & HI & Hr) v [= <-]. split; [done|].
    destruct r; [by destruct Hr as [_ ->]|done].
Qed.

(** The byte total grows by what is queued, and by nothing else. *)
Definition grows {A : Type} (o : op A) : Z := match o with Enqueue _ env => slen (ciphertext env) | _ => 0 end.

Lemma total_removed st st' ks :
  QueueFacts.Inv st → QueueFacts.Inv st' → QueueFacts.entries st' = remove_keys ks (QueueFacts.entries st) →
  QueueStore.total_bytes st' ≤ QueueStore.total_bytes st.
Proof.
  intros [_ _ _ _ [Ht _] _ _] [_ _ _ _ [Ht' _] _ _] He. rewrite Ht, Ht', He.
  apply (QueueRemovals.count_entries_nonneg _ ks EmptyString).
Qed.

Lemma perform_total {A} (o : op A) s i :
  QueueFacts.Inv (queues (app s)) → named o → Threads.op_pre o (app s) i →
  QueueStore.total_bytes (queues (app s)) + grows o ≤ u64_max →
  wp (perform (E := E) o) (λ r s' _, ∀ v, r = inr v →
    QueueStore.total_bytes (queues (app s')) ≤ QueueStore.total_bytes (queues (app s)) + grows o) s i.
Proof.
  intros HQ Hname Hpre Htot.
  destruct o; try (apply (same_wp (λ s, queues (app s)));
    [solve [leaves; apply (preserves_zoom _ (λ q : QueueStore, q)); (done || apply flush_only_reads || apply is_empty_reads)]
    |intros r s' i' H v _; rewrite H; simpl; lia]).
  - destruct Hpre as [Hfresh Hseq], Hname as [Hto Hlen]. simpl in Htot.
    assert (QueueRuns.enqueue_pre (queues (app s)) to env) as Hep.
    { split; try done. unfold MAX_FRAME_BYTES, PER_MAILBOX_QUEUE_BYTES in *. lia. }
    apply (spawned_queue _ (λ _ q', QueueStore.total_bytes q' ≤ QueueStore.total_bytes (queues (app s)) + slen (ciphertext env))).
    + intros i'. eapply wp_conseq; [by apply QueueRuns.enqueue_wp|]. cbn beta. intros r q' i'' [_ Hr].
      pose proof (slen_nonneg (ciphertext env)) as Hnn.
      destruct r; [destruct Hr as [_ ->]; simpl; lia|]. destruct Hr as [_ ->].
      pose proof (QueueFacts.inv_total _ (QueueRuns.Inv_enqueued _ _ _ (next_now i') HQ Hep)) as [-> _].
      rewrite (QueueRuns.total_enqueued _ _ _ _ HQ Hep). pose proof (QueueFacts.inv_total _ HQ) as [<- _].
      pose proof (QueueFacts.sum_len_nonneg (QueueFacts.evicted (slen (ciphertext env))
        (QueueFacts.queue_of to (QueueFacts.entries (queues (app s)))))). lia.
    + done.
    + simpl. pose proof (slen_nonneg (ciphertext env)). lia.
  - simpl. rewrite Z.add_0_r. apply (spawned_queue _ (λ _ q', QueueStore.total_bytes q' ≤ QueueStore.total_bytes (queues (app s)))); [|done|lia].
    intros i'. eapply wp_conseq; [by apply (QueueRemovals.ack_wp i')|]. cbn beta. intros r q' i'' [_ Hr].
    destruct r; [by destruct Hr as [_ ->]|]. destruct Hr as (_ & He & HI). by eapply total_removed.
  - simpl. rewrite Z.add_0_r. apply (spawned_queue _ (λ _ q', QueueStore.total_bytes q' ≤ QueueStore.total_bytes (queues (app s)))); [|done|lia].
    intros i'. eapply wp_conseq; [by apply (QueueRemovals.purge_wp i')|]. cbn beta. intros r q' i'' [_ Hr].
    destruct r; [by destruct Hr as [_ ->]|]. destruct Hr as [_ ->].
    destruct (QueueRemovals.Inv_purged (queues (app s)) rid HQ Hname) as [He HI]. by eapply total_removed.
  - simpl. rewrite Z.add_0_r. wp_step. unfold on_queues. apply wp_on_app. wp_step.
    eapply wp_conseq; [by apply (QueueRemovals.purge_wp i)|]. cbn beta. intros r q' i'' [_ Hr] v _. simpl.
    destruct r; [by destruct Hr as [_ ->]|]. destruct Hr as [_ ->].
    destruct (QueueRemovals.Inv_purged (queues (app s)) rid HQ Hname) as [He HI]. by eapply total_removed.
  - simpl. rewrite Z.add_0_r. wp_step. unfold on_queues. apply wp_on_app. wp_step.
    eapply wp_conseq; [by apply QueueRemovals.sweep_wp|]. cbn beta. intros r q' i'' [_ Hr] v _. simpl.
    destruct r; [by destruct Hr as [_ ->]|]. destruct Hr as (_ & He & HI).
    eapply total_removed; [done|done|]. by rewrite He, QueueRemovals.entries_unexpired.
Qed.

(** ** Files *)

Lemma fetch_reads x id idx : preserves (λ q : FileStore, q) x (FileStore.fetch_chunk id idx).
Proof. unfold FileStore.fetch_chunk, begin_txn, open_table, txn_get. preserve. Qed.

Definition good_files (f : FileStore) : Prop := FileFacts.Inv f ∧ FileFacts.Caps f.

Lemma perform_files {A} (o : op A) s i :
  good_files (files (app s)) → named o → Threads.op_pre o (app s) i →
  wp (perform (E := E) o) (λ r s' _, ∀ v, r = inr v →
    good_files (files (app s')) ∧ FileStore.config (files (app s')) = FileStore.config (files (app s))) s i.
Proof.
  intros [HF HC] Hname Hpre.
  destruct o; try (apply (same_wp (λ s, files (app s)));
    [leaves; apply (preserves_zoom _ (λ q : FileStore, q)); (done || apply fetch_reads)
    |by intros r s' i' H v _; rewrite H]).
  - destruct Hname as (Hid & Hidx & Htc & [Htb _] & Hraw), Hpre as [Hlim _].
    assert (FileWrites.store_pre (files (app s)) transfer_id chunk_index total_chunks total_bytes raw) as Hsp.
    { pose proof (FileFacts.inv_config _ HF) as [_ Hc _ _ _]. pose proof (FileFacts.inv_reserved _ HF) as [Hres _].
      pose proof (FileFacts.cap_bytes _ HC). split; [done|lia..]. }
    simpl. apply wp_spawn; [|by intros i' _ _ v [= <-]]. intros i' _. unfold on_files. apply wp_on_app. wp_step.
    eapply wp_conseq; [by apply FileWrites.store_chunk_wp|]. cbn beta. intros r f i2 [_ Hr] v [= <-].
    destruct r as [e|c]; [by destruct Hr as [-> _]|]. destruct Hr as (Hv & -> & _). simpl.
    split; [split; [by apply FileWrites.Inv_stored|by apply FileWrites.Caps_stored]|].
    unfold FileWrites.stored_state, FileWrites.claimed. by case_match.
  - simpl. apply wp_spawn; [|by intros i' _ _ v [= <-]]. intros i' Hi'. unfold on_files. apply wp_on_app. wp_step.
    eapply wp_conseq; [by apply (FileRemovals.delete_wp i')|]. cbn beta. intros r f i2 [_ Hr] v [= <-].
    destruct r as [e|b]; [by destruct Hr as [_ ->]|]. destruct Hr as (_ & ks & -> & Hks). simpl.
    rewrite Hks by (eapply items_fine_later; done).
    destruct (FileRemovals.deleted_fine (files (app s)) transfer_id _ HF Hname eq_refl) as (HF' & HC' & _).
    split; [split; [done|by apply HC']|done].
  - simpl. wp_step. unfold on_files. apply wp_on_app. wp_step. eapply wp_conseq; [by apply FileRemovals.sweep_files_wp|].
    cbn beta. intros r f i2 [_ Hr] v [= <-].
    assert (∃ ids, FileRemovals.without (files (app s)) ids f) as (ids & [HF' HC' Hcfg _ _]).
    { destruct r; [destruct Hr as (_ & done & _ & Hw)|destruct Hr as [_ Hw]]; by eexists. }
    split; [split; [done|by apply HC']|done].
Qed.

(** ** Send rates *)

Definition rates_in_range (m : gmap RecipientId (Z * Z)) : Prop :=
  ∀ to w c, m !! to = Some (w, c) → 0 ≤ c ≤ MAX_SENDS_PER_DEST_PER_WINDOW.

Lemma perform_rates {A} (o : op A) s i :
  rates_in_range (send_rate (app s)) →
  wp (perform (E := E) o) (λ r s' _, ∀ v, r = inr v → rates_in_range (send_rate (app s'))) s i.
Proof.
  intros HR.
  destruct o; try (apply (same_wp (λ s, send_rate (app s))); [solve [leaves]|by intros r s' i' H v _; rewrite H]).
  - simpl. apply wp_on_app, wp_allow. intros e ok Hr v _ to' w c. simpl.
    intros [[<- ->]|[_ ?]]%lookup_insert_Some; [|by eapply HR].
    by apply (rate_step_range _ _ _ _ (HR to) Hr).
  - simpl. apply wp_on_app. wp_step. intros v _ to w c. simpl. intros [_ ?]%lookup_delete_Some. by eapply HR.
Qed.

(** What becomes of a destination's entry. *)
Definition rate_effect {A : Type} (i : io) (o : op A) (to : string) (e e' : option (Z * Z)) : A → Prop :=
  match o in op A return A → Prop with
  | AllowSend to' => λ v, if decide (to' = to) then rate_step (next_now i) e = (default (0, 0) e', v) ∧ is_Some e' else e' = e
  | DropRate rid => λ _, if decide (rid = to) then e' = None else e' = e
  | _ => λ _, e' = e
  end.

Lemma perform_rate {A} (o : op A) to s i :
  wp (perform (E := E) o) (λ r s' _, ∀ v, r = inr v → rate_effect i o to (send_rate (app s) !! to) (send_rate (app s') !! to) v) s i.
Proof.
  destruct o; try (apply (same_wp (λ s, send_rate (app s))); [solve [leaves]|by intros r s' i' H v _; simpl; rewrite H]).
  - simpl. apply wp_on_app, wp_allow. intros e ok Hr v [= <-]. simpl. case_decide as Hd; [subst|by rewrite lookup_insert_ne].
    rewrite lookup_insert_eq. by split; [|eexists].
  - simpl. apply wp_on_app. wp_step. intros v _. simpl. case_decide as Hd; [subst|by rewrite lookup_delete_ne].
    by rewrite lookup_delete_eq.
Qed.

(** ** Write-back *)

Definition dirty_effect {A : Type} (o : op A) (d d' : gset string) : Prop :=
  match o with
  | MarkAuth rid => d' = {[rid]} ∪ d
  | UndirtyAuth rid => d' = d ∖ {[rid]}
  | _ => d' = d
  end.

Lemma perform_dirty {A} (o : op A) s i :
  wp (perform (E := E) o) (λ r s' _, dirty_effect o (dirty_auth (app s)) (dirty_auth (app s'))) s i.
Proof.
  destruct o; try (apply (same_wp (λ s, dirty_auth (app s))); [solve [leaves]|by intros r s' i' H]).
  - simpl. apply wp_on_app. unfold mark_auth_dirty. by wp_step.
  - simpl. apply wp_on_app. by wp_step.
Qed.

Definition dirty_bundles_effect {A : Type} (o : op A) (d d' : gset string) : Prop :=
  match o with
  | MarkBundle id => d' = {[id]} ∪ d
  | UndirtyBundle id => d' = d ∖ {[id]}
  | _ => d' = d
  end.

Lemma perform_dirty_bundles {A} (o : op A) s i :
  wp (perform (E := E) o) (λ r s' _, dirty_bundles_effect o (dirty_bundles (app s)) (dirty_bundles (app s'))) s i.
Proof.
  destruct o; try (apply (same_wp (λ s, dirty_bundles (app s))); [solve [leaves]|by intros r s' i' H]).
  - simpl. apply wp_on_app. unfold mark_bundle_dirty. by wp_step.
  - simpl. apply wp_on_app. by wp_step.
Qed.

(** The durable tables; a write that fails leaves them as they are. *)
Definition durable_effect {A : Type} (o : op A) (d d' : gmap string MailboxAuth) : A → Prop :=
  match o in op A return A → Prop with
  | WriteAuth batch => λ v, match v with inr _ => d' = MetaStore.apply_batch d batch | inl _ => d' = d end
  | _ => λ _, d' = d
  end.

Definition durable_bundles_effect {A : Type} (o : op A) (d d' : gmap string HostedBundle) : A → Prop :=
  match o in op A return A → Prop with
  | WriteBundles batch => λ v, match v with inr _ => d' = MetaStore.apply_batch d batch | inl _ => d' = d end
  | _ => λ _, d' = d
  end.

Lemma perform_durable {A} (o : op A) s i :
  wp (perform (E := E) o) (λ r s' _, ∀ v, r = inr v →
    durable_effect o (durable_auth (app s)) (durable_auth (app s')) v
    ∧ durable_bundles_effect o (durable_bundles (app s)) (durable_bundles (app s')) v) s i.
Proof.
  destruct o; try (apply (same_wp (λ s, meta_store (app s)));
    [solve [leaves]|by intros r s' i' H v _; unfold durable_auth, durable_bundles; rewrite H]).
  - simpl. wp_step. apply wp_on_app. wp_step. apply (MetaStore.flush_auth_wp i); [done|..].
    + intros m i' _ Ha Hb v [= <-]. unfold durable_auth, durable_bundles. simpl. by rewrite Hb.
    + by intros _ i' _ v [= <-].
  - simpl. wp_step. apply wp_on_app. wp_step. apply (MetaStore.flush_bundles_wp i); [done|..].
    + intros m i' _ Hb Ha v [= <-]. unfold durable_auth, durable_bundles. simpl. by rewrite Ha.
    + by intros _ i' _ v [= <-].
Qed.

(** ** What goes out *)

Definition sent_effect {A : Type} (o : op A) (c : Conn) a (l : list (ClientTx * ServerFrame)) : A → Prop :=
  match o in op A return A → Prop with
  | Reply frame | SendAwait frame => λ v, l = if v then [(tx c, frame)] else []
  | SendLive to env => λ v,
      match v with
      | Some true => ∃ live, online a !! to = Some live ∧ l = [(live, Envelope env)]
      | Some false => l = []
      | None => l = [] ∧ online a !! to = None
      end
  | _ => λ _, l = []
  end.

Lemma perform_sent {A} (o : op A) s i :
  wp (perform (E := E) o) (λ r s' _, ∀ v, r = inr v →
    ∃ l, sent s' = sent s ++ l ∧ sent_effect o (conn s) (app s) l v) s i.
Proof.
  destruct o; try (apply (same_wp sent); [solve [leaves]|intros r s' i' H v _; exists []; by rewrite app_nil_r]).
  - simpl. do 2 wp_step. apply wp_try_send.
    + intros i' _ v [= <-]. by exists [(tx (conn s), frame)].
    + intros i' _ _ v [= <-]. exists []. by rewrite app_nil_r.
  - simpl. do 2 wp_step. unfold send_await. apply wp_try_send.
    + intros i' _ v [= <-]. by exists [(tx (conn s), frame)].
    + intros i' _ _ v [= <-]. exists []. by rewrite app_nil_r.
  - simpl. do 2 wp_step. destruct (online (app s) !! to) as [live|] eqn:Hon.
    + wp_step. apply wp_try_send.
      * intros i' _. wp_step. intros v [= <-]. exists [(live, Envelope env)]. split; [done|]. simpl. by exists live.
      * intros i' _ _. wp_step. intros v [= <-]. exists []. by rewrite app_nil_r.
    + wp_step. intros v [= <-]. exists []. by rewrite app_nil_r.
Qed.

(** ** What is seen *)

Definition sees {A : Type} (o : op A) (c : Conn) a : A → Prop :=
  match o in op A return A → Prop with
  | Whoami => λ v, v = recipient_id c
  | GcCandidates now => λ v, v = gc_candidates now (mailbox_auth a)
  | DirtyAuth => λ v, v = elements (dirty_auth a)
  | ReadAuth rid => λ v, v = mailbox_auth a !! rid
  | DirtyBundles => λ v, v = elements (dirty_bundles a)
  | GetBundle id => λ v, v = bundles a !! id
  | RouteIsMine rid => λ v, v = true → online a !! rid = Some (tx c)
  | WouldExceed n => λ v, v = QueueStore.would_exceed_global (queues a) n
  | CountBundles => λ v, v = Z.of_nat (size (bundles a))
  | Authorize to tok => λ v, v = true ↔ ∃ x, mailbox_auth a !! to = Some x ∧ accepts_delivery_hash x (token_hash tok) = true
  | _ => λ _, True
  end.

Lemma perform_sees {A} (o : op A) s i :
  wp (perform (E := E) o) (λ r _ _, ∀ v, r = inr v → sees o (conn s) (app s) v) s i.
Proof.
  destruct o; try (apply any_wp; done); try (simpl; do 3 wp_step; by intros v [= <-]).
  - simpl. apply wp_on_app, wp_authorize.
    + intros Hno v [= <-]. simpl. split; [done|]. intros (x & Hx & Hacc). by rewrite Hno in Hacc.
    + intros x Hx Hacc v [= <-]. simpl. split; [by exists x|done].
  - simpl. do 3 wp_step. intros v [= <-]. simpl. destruct (online (app s) !! rid); [|done].
    intros ->%bool_decide_eq_true. done.
Qed.
End Stores.
