(* ===== verification/StepsSettle.v ===== *)
(** The write-back of a table in memory, as an interface and for the two tables.

    [Durable] is what the flush and the handlers do with a table that is written
    back: how it is read, which batch an operation writes, which keys it takes off
    the dirty set, which entries it may change.  [settles k cur dur p] says that the
    program [p] leaves the durable entry of [k], now [dur], as the one in memory,
    which is [cur] and stays so.  [Settled] are the laws the proofs on threads
    use; [MailboxAuth] and [HostedBundle] are the two instances. *)
From Stdlib Require Import ZArith Lia Ascii String.
From stdpp Require Import base gmap strings list.
From S2P Require Import Prelude Redb RustStd Config Util Protocol Mailbox Signal State StateFacts StateOps Ws Steps.
From S2P Require Import StepsOrder StepsShape StepsDuties StepsStores.
From S2P Require QueueStore.
From S2P Require FileStore.
From S2P Require MetaStore.

#[global] Instance HostedBundle_equiv : Equiv HostedBundle := eq.

#[global] Instance HostedBundle_equivalence : Equivalence (≡@{HostedBundle}).
Proof. unfold equiv, HostedBundle_equiv. apply _. Qed.

#[global] Instance HostedBundle_leibniz : LeibnizEquiv HostedBundle.
Proof. by intros x y. Qed.

Section Settle.
Context {RD : Redb} {UL : UuidLib} {LS : LibSignal} {HS : Hashing} {B6 : Base64} {JS : Json}.
Context {SV : Serde QueueStore.StoredValue} {SM : Serde FileStore.FileMeta}.
Context {SA : Serde MailboxAuth} {SB : Serde HostedBundle}.

(** ** The interface *)

Class Durable (V : Type) `{Equiv V} := {
  current : AppState → gmap string V;
  durable : AppState → gmap string V;
  dirty : AppState → gset string;
  reads {B : Type} (k : string) (o : op B) : B → option V → Prop;
  batch_of {B : Type} (o : op B) : B → list (string * option V);
  takes {B : Type} (k : string) (o : op B) : Prop;
  fails {B : Type} (o : op B) : B → Prop;
  changes {B : Type} (k : string) (o : op B) : B → Prop;
  marks {B : Type} (k : string) (o : op B) : Prop;
}.

Section Programs.
Context {V : Type} `{Durable V}.

Definition batch_at (k : string) (dur : option V) (batch : list (string * option V)) : option V :=
  foldl (λ d item, if decide (item.1 = k) then item.2 else d) dur batch.

Lemma lookup_batch (m : gmap string V) batch k : MetaStore.apply_batch m batch !! k = batch_at k (m !! k) batch.
Proof.
  unfold MetaStore.apply_batch, batch_at. revert m. induction batch as [|[k' v] l IH]; intros m; [done|].
  cbn [foldl fst snd]. rewrite IH. case_decide as Hk; [subst; by rewrite lookup_partial_alter_eq|].
  by rewrite lookup_partial_alter_ne.
Qed.

Lemma batch_at_snoc k dur batch k' v :
  batch_at k dur (batch ++ [(k', v)]) = if decide (k' = k) then v else batch_at k dur batch.
Proof. unfold batch_at. by rewrite foldl_app. Qed.

Fixpoint settles {A : Type} (k : string) (cur dur : option V) (p : Steps A) : Prop :=
  match p with
  | Done _ => dur ≡ cur
  | Do o rest => ∀ v, reads k o v cur → ¬ fails o v → settles k cur (batch_at k dur (batch_of o v)) (rest v)
  end.

(** A key that is taken off the dirty set is settled by the rest. *)
Fixpoint refreshes {A : Type} (p : Steps A) : Prop :=
  match p with
  | Done _ => True
  | Do o rest => ∀ v, (∀ k, takes k o → ∀ cur dur, settles k cur dur (rest v)) ∧ refreshes (rest v)
  end.

(** The program has nothing to do with the write-back. *)
Fixpoint bystanding {A : Type} (p : Steps A) : Prop :=
  match p with
  | Done _ => True
  | Do o rest => ∀ v, batch_of o v = [] ∧ (∀ k, ¬ takes k o) ∧ bystanding (rest v)
  end.

(** The entry is marked dirty before the program ends. *)
Fixpoint will_mark {A : Type} (k : string) (p : Steps A) : Prop :=
  match p with
  | Done _ => False
  | Do o rest => marks k o ∨ ∀ v, will_mark k (rest v)
  end.
End Programs.

(** ** Its laws *)

Class Settled (V : Type) `{Durable V, !Equivalence (≡@{V})} : Prop := {
  reads_proper {B} k (o : op B) v cur cur' : cur ≡ cur' → reads k o v cur' → reads k o v cur;
  writes_back {B} t (o : op B) v : duty t o = true → t ≠ Some FlushTask → batch_of o v = [];
  takes_back {B} t k (o : op B) : duty t o = true → takes k o → t = Some FlushTask;
  changes_marked {A B} k (p : Steps A) (o : op B) v rest : fits_shape p o v rest → changes k o v → will_mark k rest;
  flush_settles k cur dur : dur ≡ cur → settles k cur dur (task_steps FlushTask);
  flush_refreshes : refreshes (task_steps FlushTask);
  perform_current {B} (o : op B) s i :
    is_u64 (mailbox_count (app s)) → wf_mailboxes (mailbox_auth (app s)) →
    wp (perform (E := Empty_set) o) (λ r s' _, ∀ v, r = inr v →
      ∀ k, changes k o v ∨ current (app s') !! k ≡ current (app s) !! k) s i;
  perform_reads {B} (o : op B) s i :
    wp (perform (E := Empty_set) o) (λ r s' _, ∀ v, r = inr v → ∀ k, reads k o v (current (app s) !! k)) s i;
  perform_written {B} (o : op B) s i :
    wp (perform (E := Empty_set) o) (λ r s' _, ∀ v, r = inr v →
      durable (app s') = MetaStore.apply_batch (durable (app s)) (batch_of o v)) s i;
  perform_marks {B} (o : op B) s i :
    wp (perform (E := Empty_set) o) (λ r s' _, ∀ k,
      (k ∈ dirty (app s) → takes k o ∨ k ∈ dirty (app s')) ∧ (marks k o → k ∈ dirty (app s'))) s i;
  count_apart n a :
    current (set_conn_count n a) = current a ∧ durable (set_conn_count n a) = durable a ∧ dirty (set_conn_count n a) = dirty a;
}.

Section Rules.
Context {V : Type} {EV : Equiv V} {DU : Durable V} {EQ : Equivalence (≡@{V})} {ST : Settled V}.

Lemma settles_proper {A} k (p : Steps A) cur cur' dur : cur ≡ cur' → settles k cur dur p → settles k cur' dur p.
Proof.
  intros Hc. revert dur. induction p as [a|B o rest IH]; simpl; intros dur Hs; [by rewrite <- Hc|].
  intros v Hr Hf. apply IH, Hs; [|done]. by eapply reads_proper.
Qed.

Lemma settles_bind {A B} k cur dur (p : Steps A) (f : A → Steps B) :
  (∀ a dur', dur' ≡ cur → settles k cur dur' (f a)) → settles k cur dur p → settles k cur dur (p ≫= f).
Proof.
  intros Hf. revert dur. induction p as [a|C o rest IH]; simpl; intros dur Hs; [by apply Hf|].
  intros v Hr Hok. by apply IH, Hs.
Qed.

Lemma refreshes_bind {A B} (p : Steps A) (f : A → Steps B) :
  refreshes p → (∀ a, refreshes (f a)) → (∀ a k cur dur, dur ≡ cur → settles k cur dur (f a)) → refreshes (p ≫= f).
Proof.
  intros Hp Hf Hs. induction p as [a|C o rest IH]; simpl in *; [apply Hf|]. intros v. destruct (Hp v) as [Ht Hr].
  split; [|by apply IH]. intros k Hk cur dur. apply settles_bind; [by intros; apply Hs|by apply Ht].
Qed.

Lemma bystanding_bind {A B} (p : Steps A) (f : A → Steps B) :
  bystanding p → (∀ a, bystanding (f a)) → bystanding (p ≫= f).
Proof.
  intros Hp Hf. induction p as [a|C o rest IH]; simpl in *; [apply Hf|]. intros v. destruct (Hp v) as (Hb & Ht & Hr).
  split_and!; [done|done|by apply IH].
Qed.

Lemma bystanding_settles {A} (p : Steps A) k cur dur : bystanding p → dur ≡ cur → settles k cur dur p.
Proof.
  revert dur. induction p as [a|B o rest IH]; simpl; intros dur Hp Hd; [done|]. intros v _ _.
  destruct (Hp v) as (-> & _ & Hr). by apply IH.
Qed.

Lemma bystanding_refreshes {A} (p : Steps A) : bystanding p → refreshes p.
Proof.
  induction p as [a|B o rest IH]; simpl; intros Hp; [done|]. intros v. destruct (Hp v) as (_ & Ht & Hr).
  split; [|by apply IH]. intros k Hk. by destruct (Ht k).
Qed.

Lemma only_bystanding {A} t (p : Steps A) : only t p → t ≠ Some FlushTask → bystanding p.
Proof.
  intros Ho Ht. induction p as [a|B o rest IH]; simpl in *; [done|]. destruct Ho as [Hdo Hk]. intros v.
  split_and!; [by eapply writes_back|by intros k Htk; apply Ht, (takes_back t k o)|by apply IH].
Qed.
End Rules.
End Settle.

(** ** The mailboxes' records *)

Section Auth.
Context {RD : Redb} {UL : UuidLib} {LS : LibSignal} {HS : Hashing} {B6 : Base64} {JS : Json}.
Context {SV : Serde QueueStore.StoredValue} {SM : Serde FileStore.FileMeta}.
Context {SA : Serde MailboxAuth} {SB : Serde HostedBundle}.

#[export] Instance auth_table : Durable MailboxAuth := {
  current := mailbox_auth;
  durable := durable_auth;
  dirty := dirty_auth;
  reads B k o :=
    match o in op B return B → option MailboxAuth → Prop with
    | ReadAuth k' => λ v cur, k' = k → v ≡ cur
    | _ => λ _ _, True
    end;
  batch_of B o :=
    match o in op B return B → list (string * option MailboxAuth) with
    | WriteAuth batch => λ v, match v with inr _ => batch | inl _ => [] end
    | _ => λ _, []
    end;
  takes B k o := match o with UndirtyAuth k' => k' = k | _ => False end;
  fails B o := match o in op B return B → Prop with WriteAuth _ => λ v, match v with inl _ => True | inr _ => False end | _ => λ _, False end;
  changes B k o := alters k o;
  marks B k o := match o with MarkAuth k' => k' = k | _ => False end;
}.

Lemma will_mark_owes {A} k (p : Steps A) : will_mark k p ↔ owes k p.
Proof.
  induction p as [a|B o rest IH]; simpl; [done|]. split; (intros [Hm|Hr]; [by left; destruct o|right; intros v; apply IH, Hr]).
Qed.

Lemma take_auth_settles {A} k cur dur batch keys (f : list (string * option MailboxAuth) → Steps A) :
  k ∈ keys ∨ batch_at k dur batch ≡ cur →
  (∀ batch', batch_at k dur batch' ≡ cur → settles k cur dur (f batch')) →
  settles k cur dur (take_auth_steps batch keys ≫= f).
Proof.
  intros Hk Hf. revert batch Hk. induction keys as [|k' keys IH]; intros batch Hk; simpl.
  { apply Hf. by destruct Hk as [[]%elem_of_nil|]. }
  intros _ _ _ v Hv _. apply IH. rewrite batch_at_snoc. case_decide as Hd; [right; by apply Hv|].
  destruct Hk as [[?|?]%elem_of_cons|?]; [by subst|by left|by right].
Qed.

Lemma take_auth_refreshes {A} batch keys (f : list (string * option MailboxAuth) → Steps A) :
  (∀ batch', refreshes (f batch')) →
  (∀ k cur dur batch', batch_at k dur batch' ≡ cur → settles k cur dur (f batch')) →
  refreshes (take_auth_steps batch keys ≫= f).
Proof.
  intros Hr Hf. revert batch. induction keys as [|k keys IH]; intros batch; [apply Hr|]. simpl.
  intros _. split.
  - intros k' -> cur dur v Hv _. apply take_auth_settles; [|by intros; apply Hf]. right. rewrite batch_at_snoc.
    rewrite decide_True by done. by apply Hv.
  - intros v. split; [done|apply IH].
Qed.

Lemma take_bundles_bystand batch keys : bystanding (take_bundles_steps batch keys).
Proof.
  revert batch. induction keys as [|k keys IH]; intros batch; simpl; [done|].
  intros _. split_and!; [done|by intros ? ?|]. intros v. split_and!; [done|by intros ? ?|apply IH].
Qed.

Definition write_auth_steps (auth_batch : list (string * option MailboxAuth)) : Steps (anyhow + ()) :=
  written ← do (WriteAuth auth_batch);
  match written with
  | inl e => mret (inl e)
  | inr _ =>
      bundle_keys ← do DirtyBundles;
      bundle_batch ← take_bundles_steps [] bundle_keys;
      do (WriteBundles bundle_batch)
  end.

Lemma after_auth_bystands keys :
  bystanding (bundle_batch ← take_bundles_steps [] keys; do (WriteBundles bundle_batch)).
Proof.
  apply bystanding_bind; [apply take_bundles_bystand|]. intros batch v. split_and!; [done|by intros ? ?|done].
Qed.

Lemma write_auth_settles k cur dur batch : batch_at k dur batch ≡ cur → settles k cur dur (write_auth_steps batch).
Proof.
  intros Hb. simpl. intros [e|[]] _ Hf; [by destruct Hf|]. intros keys _ _.
  apply bystanding_settles; [apply after_auth_bystands|done].
Qed.

Lemma write_auth_refreshes batch : refreshes (write_auth_steps batch).
Proof.
  simpl. intros [e|[]]; [done|]. split; [done|]. intros keys. split; [done|].
  apply bystanding_refreshes, after_auth_bystands.
Qed.

Lemma flush_auth_settles k cur dur : dur ≡ cur → settles k cur dur (task_steps FlushTask).
Proof.
  intros Hd. cbn [task_steps do mbind Steps_bind bind_steps settles]. intros auth _ _ bundles _ _.
  destruct (_ && _); [done|]. cbn [spawn_steps do mbind Steps_bind bind_steps settles]. intros [] _ _; [|done].
  apply settles_bind; [done|]. cbn [flush_steps do mbind Steps_bind bind_steps settles]. intros keys _ _.
  apply (take_auth_settles _ _ _ _ _ write_auth_steps); [by right|]. intros batch. apply write_auth_settles.
Qed.

Lemma flush_auth_refreshes : refreshes (task_steps FlushTask).
Proof.
  cbn [task_steps do mbind Steps_bind bind_steps refreshes]. intros auth. split; [done|]. intros bundles. split; [done|].
  destruct (_ && _); [done|]. cbn [spawn_steps do mbind Steps_bind bind_steps refreshes]. intros started. split; [done|].
  destruct started; [|done]. apply refreshes_bind; [|done|done].
  cbn [flush_steps do mbind Steps_bind bind_steps refreshes]. intros keys. split; [done|].
  apply (take_auth_refreshes _ _ write_auth_steps); [apply write_auth_refreshes|]. intros k cur dur batch. apply write_auth_settles.
Qed.

Lemma auth_effect_changes {B} (o : op B) a m' v k :
  auth_effect o a m' v → alters k o v ∨ m' !! k ≡ mailbox_auth a !! k.
Proof.
  intros He. destruct (decide (m' !! k = mailbox_auth a !! k)) as [->|Hne]; [by right|].
  destruct o; simpl in He; try (by rewrite He in Hne); destruct v; try (by rewrite He in Hne).
  - destruct He as (x & -> & _). left. simpl. split; [|done].
    destruct (decide (rid = k)) as [->|]; [done|]. by rewrite lookup_insert_ne in Hne.
  - destruct He as (x & _ & ->). left. simpl. split; [|by eexists].
    destruct (decide (rid = k)) as [->|]; [done|]. by rewrite lookup_insert_ne in Hne.
  - destruct He as (x & now & Hx & ->). right. destruct (decide (to = k)) as [->|]; [|by rewrite lookup_insert_ne in Hne].
    rewrite lookup_insert_eq, Hx. constructor. apply touch_equiv.
  - destruct He as [_ ->]. left. simpl. split; [|done].
    destruct (decide (rid = k)) as [->|]; [done|]. by rewrite lookup_delete_ne in Hne.
  - destruct He as [_ ->]. done.
  - destruct He as (x & _ & _ & _ & ->). left. simpl. split; [|done].
    destruct (decide (rid = k)) as [->|]; [done|]. by rewrite lookup_delete_ne in Hne.
Qed.

#[export] Instance auth_settled : Settled MailboxAuth.
Proof.
  split.
  - intros B k o v cur cur' Hc. destruct o; simpl; try done. intros H Hk. by rewrite Hc, H.
  - intros B [[]|] o v Hd Ht; destruct o; try done.
  - intros B [[]|] k o Hd Ht; destruct o; try done.
  - intros A B k p o v rest Hf Hc. by apply will_mark_owes, (fs_owes _ _ _ _ Hf).
  - intros k cur dur. apply flush_auth_settles.
  - apply flush_auth_refreshes.
  - intros B o s i Hn Hwf. eapply wp_conseq; [by apply perform_auth|]. cbn beta. intros r s' i' H v Hv k.
    by eapply auth_effect_changes, H.
  - intros B o s i. eapply wp_conseq; [apply perform_sees|]. cbn beta. intros r s' i' H v Hv k. specialize (H v Hv).
    destruct o; simpl in H |- *; try done. by intros <-; rewrite H.
  - intros B o s i. eapply wp_conseq; [apply perform_durable|]. cbn beta. intros r s' i' H v Hv. destruct (H v Hv) as [Hd _].
    destruct o; simpl in Hd |- *; try done. by destruct v.
  - intros B o s i. eapply wp_conseq; [apply perform_dirty|]. cbn beta. intros r s' i' H k.
    destruct o; simpl in H |- *; try (by rewrite H; auto); split; try done; rewrite H; try set_solver.
    intros Hk. destruct (decide (rid = k)); set_solver.
  - done.
Qed.
End Auth.

(** ** The invite bundles *)

Section Bundles.
Context {RD : Redb} {UL : UuidLib} {LS : LibSignal} {HS : Hashing} {B6 : Base64} {JS : Json}.
Context {SV : Serde QueueStore.StoredValue} {SM : Serde FileStore.FileMeta}.
Context {SA : Serde MailboxAuth} {SB : Serde HostedBundle}.

#[export] Instance bundle_table : Durable HostedBundle := {
  current := bundles;
  durable := durable_bundles;
  dirty := dirty_bundles;
  reads B k o :=
    match o in op B return B → option HostedBundle → Prop with
    | GetBundle k' => λ v cur, k' = k → v ≡ cur
    | _ => λ _ _, True
    end;
  batch_of B o :=
    match o in op B return B → list (string * option HostedBundle) with
    | WriteBundles batch => λ v, match v with inr _ => batch | inl _ => [] end
    | _ => λ _, []
    end;
  takes B k o := match o with UndirtyBundle k' => k' = k | _ => False end;
  fails B o := match o in op B return B → Prop with WriteBundles _ => λ v, match v with inl _ => True | inr _ => False end | _ => λ _, False end;
  changes B k o := alters_bundle k o;
  marks B k o := match o with MarkBundle k' => k' = k | _ => False end;
}.

Lemma will_mark_owes_bundle {A} k (p : Steps A) : will_mark k p ↔ owes_bundle k p.
Proof.
  induction p as [a|B o rest IH]; simpl; [done|]. split; (intros [Hm|Hr]; [by left; destruct o|right; intros v; apply IH, Hr]).
Qed.

Lemma take_bundles_settles {A} k cur dur batch keys (f : list (string * option HostedBundle) → Steps A) :
  k ∈ keys ∨ batch_at k dur batch ≡ cur →
  (∀ batch', batch_at k dur batch' ≡ cur → settles k cur dur (f batch')) →
  settles k cur dur (take_bundles_steps batch keys ≫= f).
Proof.
  intros Hk Hf. revert batch Hk. induction keys as [|k' keys IH]; intros batch Hk; simpl.
  { apply Hf. by destruct Hk as [[]%elem_of_nil|]. }
  intros _ _ _ v Hv _. apply IH. rewrite batch_at_snoc. case_decide as Hd; [right; by apply Hv|].
  destruct Hk as [[?|?]%elem_of_cons|?]; [by subst|by left|by right].
Qed.

Lemma take_bundles_refreshes {A} batch keys (f : list (string * option HostedBundle) → Steps A) :
  (∀ batch', refreshes (f batch')) →
  (∀ k cur dur batch', batch_at k dur batch' ≡ cur → settles k cur dur (f batch')) →
  refreshes (take_bundles_steps batch keys ≫= f).
Proof.
  intros Hr Hf. revert batch. induction keys as [|k keys IH]; intros batch; [apply Hr|]. simpl.
  intros _. split.
  - intros k' -> cur dur v Hv _. apply take_bundles_settles; [|by intros; apply Hf]. right. rewrite batch_at_snoc.
    rewrite decide_True by done. by apply Hv.
  - intros v. split; [done|apply IH].
Qed.

Lemma take_auth_bystand batch keys : bystanding (take_auth_steps batch keys).
Proof.
  revert batch. induction keys as [|k keys IH]; intros batch; simpl; [done|].
  intros _. split_and!; [done|by intros ? ?|]. intros v. split_and!; [done|by intros ? ?|apply IH].
Qed.

Lemma write_bundles_settles k cur dur batch : batch_at k dur batch ≡ cur → settles k cur dur (do (WriteBundles batch)).
Proof. intros Hb. simpl. intros [e|[]] _ Hf; [by destruct Hf|done]. Qed.

Lemma write_auth_settles_bundles k cur dur batch : dur ≡ cur → settles k cur dur (write_auth_steps batch).
Proof.
  intros Hd. cbn [write_auth_steps do mbind Steps_bind bind_steps settles]. intros [e|[]] _ _; [done|].
  cbn [settles]. intros keys _ _.
  apply (take_bundles_settles _ _ _ _ _ (λ batch, do (WriteBundles batch))); [by right|]. intros b. apply write_bundles_settles.
Qed.

Lemma write_auth_refreshes_bundles batch : refreshes (write_auth_steps batch).
Proof.
  cbn [write_auth_steps do mbind Steps_bind bind_steps refreshes]. intros [e|[]]; (split; [done|]); [done|].
  cbn [refreshes]. intros keys. split; [done|].
  apply (take_bundles_refreshes _ _ (λ batch, do (WriteBundles batch))); [done|]. intros k cur dur b. apply write_bundles_settles.
Qed.

Lemma flush_bundles_settles k cur dur : dur ≡ cur → settles k cur dur (task_steps FlushTask).
Proof.
  intros Hd. cbn [task_steps do mbind Steps_bind bind_steps settles]. intros auth _ _ bundles _ _.
  destruct (_ && _); [done|]. cbn [spawn_steps do mbind Steps_bind bind_steps settles]. intros [] _ _; [|done].
  apply settles_bind; [done|]. cbn [flush_steps do mbind Steps_bind bind_steps settles]. intros keys _ _.
  apply (settles_bind _ _ _ _ write_auth_steps); [intros; by apply write_auth_settles_bundles|].
  by apply bystanding_settles; [apply take_auth_bystand|].
Qed.

Lemma flush_bundles_refreshes : refreshes (task_steps FlushTask).
Proof.
  cbn [task_steps do mbind Steps_bind bind_steps refreshes]. intros auth. split; [done|]. intros bundles. split; [done|].
  destruct (_ && _); [done|]. cbn [spawn_steps do mbind Steps_bind bind_steps refreshes]. intros started. split; [done|].
  destruct started; [|done]. apply refreshes_bind; [|done|done].
  cbn [flush_steps do mbind Steps_bind bind_steps refreshes]. intros keys. split; [done|].
  apply (refreshes_bind _ write_auth_steps); [apply bystanding_refreshes, take_auth_bystand|apply write_auth_refreshes_bundles|].
  intros batch k cur dur. apply write_auth_settles_bundles.
Qed.

Lemma bundles_effect_changes {B} (o : op B) a m' v k :
  bundles_effect o a m' v → alters_bundle k o v ∨ m' !! k ≡ bundles a !! k.
Proof.
  intros He. destruct (decide (m' !! k = bundles a !! k)) as [->|Hne]; [by right|].
  destruct o; simpl in He; try (by rewrite He in Hne).
  - destruct v; rewrite He in Hne; [|done]. left. simpl. split; [|done].
    destruct (decide (bundle_id = k)) as [->|]; [done|]. by rewrite lookup_delete_ne in Hne.
  - rewrite He in Hne. left. simpl. destruct (decide (bundle_key bundle = k)) as [->|]; [done|]. by rewrite lookup_insert_ne in Hne.
Qed.

#[export] Instance bundles_settled : Settled HostedBundle.
Proof.
  split.
  - intros B k o v cur cur' Hc. destruct o; simpl; try done. intros H Hk. by rewrite Hc, H.
  - intros B [[]|] o v Hd Ht; destruct o; try done.
  - intros B [[]|] k o Hd Ht; destruct o; try done.
  - intros A B k p o v rest Hf Hc. by apply will_mark_owes_bundle, (fs_owes_bundle _ _ _ _ Hf).
  - intros k cur dur. apply flush_bundles_settles.
  - apply flush_bundles_refreshes.
  - intros B o s i _ _. eapply wp_conseq; [apply perform_bundles|]. cbn beta. intros r s' i' H v Hv k.
    by eapply bundles_effect_changes, H.
  - intros B o s i. eapply wp_conseq; [apply perform_sees|]. cbn beta. intros r s' i' H v Hv k. specialize (H v Hv).
    destruct o; simpl in H |- *; try done. by intros <-; rewrite H.
  - intros B o s i. eapply wp_conseq; [apply perform_durable|]. cbn beta. intros r s' i' H v Hv. destruct (H v Hv) as [_ Hd].
    destruct o; simpl in Hd |- *; try done. by destruct v.
  - intros B o s i. eapply wp_conseq; [apply perform_dirty_bundles|]. cbn beta. intros r s' i' H k.
    destruct o; simpl in H |- *; try (by rewrite H; auto); split; try done; rewrite H; try set_solver.
    intros Hk. destruct (decide (bundle_id = k)); set_solver.
  - done.
Qed.
End Bundles.
