(* ===== verification/ThreadsFacts.v ===== *)
(** Histories, move by move.

    [seen] takes a move apart: which operation was performed, and what it left.
    [placed] is the shape of the machine; [tracked] that the program of every thread
    goes on in order after what the thread has done, and keeps to its duties.  The
    second part is the invariant of the machine. *)
From Stdlib Require Import ZArith Lia Ascii String.
From stdpp Require Import base gmap strings list.
From S2P Require Import Prelude Redb RustStd Config Util Protocol Mailbox Signal State StateFacts StateOps Ws WsFacts.
From S2P Require Import WsRuns WsFrames Relay Steps Threads StepsOrder StepsShape StepsDuties StepsStores.
From S2P Require QueueStore.
From S2P Require QueueFacts.
From S2P Require QueueSpec.
From S2P Require FileStore.
From S2P Require FileFacts.

Section Runs.
Context {RD : Redb} {UL : UuidLib} {LS : LibSignal} {HS : Hashing} {B6 : Base64} {JS : Json}.
Context {SV : Serde QueueStore.StoredValue} {SM : Serde FileStore.FileMeta}.
Context {SA : Serde MailboxAuth} {SB : Serde HostedBundle}.
Implicit Types (w : Threads) (tr : list Moment).
Abbreviation Who := (ClientTx + Task)%type.

(** ** The past of a thread *)

Lemma past_snoc who tr mom : past who (tr ++ [mom]) = past_step who (past who tr) mom.
Proof. unfold past. by rewrite foldl_app. Qed.

(** What a thread has done, it did in a moment of the history. *)
Lemma past_in who tr d : d ∈ past who tr → ∃ mom, mom ∈ tr ∧ did who mom = Some d.
Proof.
  induction tr as [|mom tr IH] using rev_ind; [by intros []%elem_of_nil|].
  rewrite past_snoc. unfold past_step. destruct (starts who mom); [by intros []%elem_of_nil|].
  rewrite elem_of_app. intros [H|H].
  - destruct (IH H) as (m & Hm & Hd). exists m. split; [|done]. apply elem_of_app. by left.
  - destruct (did who mom) eqn:Hd; simpl in H; [|by apply elem_of_nil in H]. apply list_elem_of_singleton in H as ->.
    exists mom. split; [|done]. apply elem_of_app. right. by apply list_elem_of_singleton.
Qed.

Lemma has_in P who tr : has P (past who tr) → ∃ mom d, mom ∈ tr ∧ did who mom = Some d ∧ P d.
Proof.
  unfold has. rewrite Exists_exists. intros (d & Hd & HP). destruct (past_in _ _ _ Hd) as (mom & Hm & H). by exists mom, d.
Qed.

(** ** A move *)

Definition duty_of (who : Who) : option Task := match who with inl _ => None | inr t => Some t end.

(** What a thread's program is when it starts. *)
Record begins (who : Who) (p : Steps bool) : Prop := {
  be_shaped : shaped p ∧ calm p;
  be_only : only (duty_of who) p;
  be_task : ∀ t, who = inr t → p = (_ ← task_steps t; mret true);
}.

Inductive seen w (m : Move) (i : io) w' : Prop :=
  | seen_accepted :
      m = Accepted → conn_count (world w) < MAX_CONNECTIONS →
      w' = accept_socket (next_now i) (set_world (set_conn_count (conn_count (world w) +! 1) (world w)) w) →
      seen w m i w'
  | seen_refused :
      m = Accepted → MAX_CONNECTIONS ≤ conn_count (world w) →
      w' = set_leaving (S (leaving w)) (set_world (set_conn_count (conn_count (world w) +! 1) (world w)) w) →
      seen w m i w'
  | seen_left n :
      m = Left → leaving w = S n →
      w' = set_world (set_conn_count (conn_count (world w) -! 1) (world w)) (set_leaving n w) →
      seen w m i w'
  | seen_started who p :
      running w !! who = None → (∀ mom, at_ mom = w → moved mom = m → starts who mom = true) →
      (∀ who' mom, who' ≠ who → moved mom = m → starts who' mom = false) →
      (∀ who' mom, moved mom = m → did who' mom = None) →
      (∀ h, obeys h p) → begins who p → (∀ chan, who = inl chan → is_Some (sockets w !! chan)) →
      w' = set_running (<[who := p]> (running w)) w → seen w m i w'
  | seen_finished who more :
      m = Ran who → running w !! who = Some (Done more) → w' = finish who more w → seen w m i w'
  | seen_performed who A (o : op A) k c v s' i' :
      m = Ran who → running w !! who = Some (Do o k) → conn_of who w = Some c →
      perform (E := Empty_set) o (thread_session c w) i = (inr v, s', i') → plausible o v →
      w' = advance who (k v) s' w → seen w m i w'.

(** Only sockets that exist have a thread, under their own channel's number. *)
Record placed w : Prop := {
  pl_running : ∀ chan, is_Some (running w !! inl chan) → is_Some (sockets w !! chan);
  pl_tx : ∀ chan c, sockets w !! chan = Some c → tx c = chan ∧ (chan < next_socket w)%nat;
}.

Lemma move_seen w m i w' i' :
  placed w → ready w m → move (E := Empty_set) m w i = (inr tt, w', i') → seen w m i w'.
Proof.
  intros HP Hr H. destruct m as [| |chan d inc|t|who]; simpl in *.
  - unfold accept_step, mbind, M_bind, get, modify in H. cbn in H.
    destruct (Z.leb_spec MAX_CONNECTIONS (conn_count (world w))).
    + injection H as <- _. by apply seen_refused.
    + injection H as <- _. by apply seen_accepted.
  - unfold leave_step, mbind, M_bind, get in H. destruct (leaving w) as [|n] eqn:Hl; [done|].
    injection H as <- _. by eapply seen_left.
  - injection H as <- _. destruct Hr as [Hs Hn]. eapply (seen_started _ _ _ _ (inl chan)); try done.
    + intros mom _ Hm. unfold starts. rewrite Hm. by rewrite bool_decide_eq_true_2.
    + intros who' mom Hne Hm. unfold starts. rewrite Hm. destruct who'; [|done]. rewrite bool_decide_eq_false_2; congruence.
    + intros who' mom Hm. unfold did. by rewrite Hm.
    + intros h. apply turn_obeys.
    + split; [apply turn_shaped|apply turn_only|done].
    + by intros ? [= <-].
  - injection H as <- _. eapply (seen_started _ _ _ _ (inr t)); try done.
    + intros mom _ Hm. unfold starts. rewrite Hm. by rewrite bool_decide_eq_true_2.
    + intros who' mom Hne Hm. unfold starts. rewrite Hm. destruct who'; [done|]. rewrite bool_decide_eq_false_2; congruence.
    + intros who' mom Hm. unfold did. by rewrite Hm.
    + intros h. apply obeys_bind; [apply task_obeys|done].
    + split; [apply both_bind; [apply task_shaped|intros; split; [done|by split]]
             |apply only_bind; [apply task_only|done]|by intros t' [= ->]].
  - unfold ran, mbind, M_bind, get in H. destruct (running w !! who) as [[more|B o k]|] eqn:Hw; [|  |by destruct Hr].
    + injection H as <- _. by eapply seen_finished.
    + assert (is_Some (conn_of who w)) as [c Hc].
      { destruct who as [chan|t]; simpl; [apply HP; by exists (Do o k)|by eexists]. }
      rewrite Hc in H. unfold with_state in H. pose proof (perform_plausible (E := Empty_set) o (thread_session c w) i) as Hpl.
      unfold wp in Hpl. destruct (perform o (thread_session c w) i) as [[[[]|v] s'] i1] eqn:Hperf.
      injection H as <- _. eapply seen_performed; try done. by apply Hpl.
Qed.

Lemma did_performed w who i {A} (o : op A) k c v s' i' :
  running w !! who = Some (Do o k) → conn_of who w = Some c →
  perform (E := Empty_set) o (thread_session c w) i = (inr v, s', i') →
  did who {| at_ := w; moved := Ran who; calls := i |} = Some (answered o v).
Proof.
  intros Hw Hc Hp. unfold did. simpl. rewrite decide_True by done. rewrite Hw, Hc. unfold answer_of. by rewrite Hp.
Qed.

Lemma did_other w who who' i : who ≠ who' → did who' {| at_ := w; moved := Ran who; calls := i |} = None.
Proof. intros H. unfold did. simpl. by rewrite decide_False. Qed.

(** How the pasts grow: by the operation performed. *)
Lemma past_performed tr w who i {A} (o : op A) k c v s' i' :
  running w !! who = Some (Do o k) → conn_of who w = Some c →
  perform (E := Empty_set) o (thread_session c w) i = (inr v, s', i') →
  ∀ who', past who' (tr ++ [{| at_ := w; moved := Ran who; calls := i |}])
    = if decide (who = who') then past who' tr ++ [answered o v] else past who' tr.
Proof.
  intros Hw Hc Hp who'. rewrite past_snoc. unfold past_step, starts. simpl.
  case_decide as Hd; [subst; by erewrite did_performed|]. rewrite did_other by done. apply app_nil_r.
Qed.

(** ** Threads obey *)

Lemma perform_tx {A} (o : op A) c : preserves (λ s, tx (conn s)) c (perform (E := Empty_set) o).
Proof.
  assert (∀ B (m : M AppState Empty_set B), preserves (λ s : Session, tx (conn s)) c (on_app m)) as Happ.
  { intros B m. by apply preserves_zoom_other. }
  assert (∀ B E' (m : M AppState E' B), preserves (λ s : Session, tx (conn s)) c (on_app m)) as Happ'.
  { intros B E' m. by apply preserves_zoom_other. }
  assert (∀ B E' (m : M AppState E' B), preserves (λ s : Session, tx (conn s)) c (spawn_blocking (E' := Empty_set) (on_app m))) as Hspawn.
  { intros B E' m. unfold spawn_blocking. preserve. }
  destruct o; simpl; unfold on_queues, on_files, send_await, try_send; try done; preserve.
  unfold count_frame. by case_match.
Qed.

Record tracked tr w : Prop := {
  tk_placed : placed w;
  tk_obeys : ∀ who p, running w !! who = Some p → obeys (past who tr) p;
  tk_only : ∀ who p, running w !! who = Some p → only (duty_of who) p;
}.

Lemma tracked_start a : tracked [] (quiet_threads a).
Proof. split; [split|..]; simpl; intros ?; rewrite ?lookup_empty; [by intros []|done..]. Qed.

(** The pasts do not change with a move that is no operation and no start. *)
Lemma past_still tr w m i :
  (∀ who, starts who {| at_ := w; moved := m; calls := i |} = false) →
  (∀ who, did who {| at_ := w; moved := m; calls := i |} = None) →
  ∀ who, past who (tr ++ [{| at_ := w; moved := m; calls := i |}]) = past who tr.
Proof. intros H1 H2 who. rewrite past_snoc. unfold past_step. rewrite H1, H2. apply app_nil_r. Qed.

Lemma did_finished w who i more :
  running w !! who = Some (Done more) → ∀ who', did who' {| at_ := w; moved := Ran who; calls := i |} = None.
Proof.
  intros Hw who'. unfold did. simpl. case_decide; [subst|done]. by rewrite Hw.
Qed.

Lemma tracked_move tr w m i w' i' :
  tracked tr w → ready w m → move (E := Empty_set) m w i = (inr tt, w', i') →
  tracked (tr ++ [{| at_ := w; moved := m; calls := i |}]) w'.
Proof.
  intros [HP HO Hd] Hr Hm. pose proof (move_seen _ _ _ _ _ HP Hr Hm) as Hs. destruct HP as [HP1 HP2].
  destruct Hs as [-> _ -> | -> _ -> |n -> _ -> |who p Hn Hst Hst' Hdid Hp [_ Hon _] Hin -> |who more -> Hw -> |who A o k c v s' i1 -> Hw Hc Hperf Hpl ->].
  - split; [split; simpl| |exact Hd].
    + intros chan Hc. destruct (decide (chan = next_socket w)) as [->|]; [rewrite lookup_insert_eq; by eexists|].
      rewrite lookup_insert_ne by done. auto.
    + intros chan c [[<- <-]|[_ Hc]]%lookup_insert_Some; [split; [done|lia]|]. destruct (HP2 _ _ Hc). split; [done|lia].
    + intros who p Hw. rewrite past_still by done. by apply HO.
  - split; [by split| |exact Hd]. intros who p Hw. rewrite past_still by done. by apply HO.
  - split; [by split| |exact Hd]. intros who p Hw. rewrite past_still by done. by apply HO.
  - split; [split; [|done]|..]; simpl.
    + intros chan. rewrite lookup_insert_is_Some. intros [Heq|[_ ?]]; auto.
    + intros who' p' [[<- <-]|[Hne Hw]]%lookup_insert_Some; [apply Hp|].
      rewrite past_snoc. unfold past_step. rewrite Hst', Hdid by done. simpl. rewrite app_nil_r. by apply HO.
    + intros who' p' [[<- <-]|[Hne Hw]]%lookup_insert_Some; [done|by apply Hd].
  - assert (∀ who' p', running (finish who more w) !! who' = Some p' → who' ≠ who ∧ running w !! who' = Some p') as Hrun.
    { intros who' p'. assert (running (finish who more w) = delete who (running w)) as -> by by destruct who, more.
      intros [??]%lookup_delete_Some. split; congruence. }
    split; [split|..].
    + intros chan [p' Hc]. destruct (Hrun _ _ Hc) as [Hne Hc']. destruct (HP1 chan) as [c Hsock]; [by eexists|].
      exists c. destruct who as [chan'|], more; simpl; try done. rewrite lookup_delete_ne; [done|congruence].
    + intros chan c Hc. assert (next_socket (finish who more w) = next_socket w) as -> by by destruct who, more.
      apply HP2. destruct who as [chan'|], more; simpl in Hc; try done. by apply lookup_delete_Some in Hc as [_ ?].
    + intros who' p' Hw'. destruct (Hrun _ _ Hw') as [_ Hw'']. rewrite past_still; [by apply HO|done|].
      by eapply did_finished.
    + intros who' p' Hw'. by apply Hd, Hrun.
  - split; [split|..].
    + simpl. intros chan. rewrite lookup_insert_is_Some. intros Hor.
      assert (is_Some (sockets w !! chan)) as Hsome by (destruct Hor as [Heq|[_ ?]]; [apply HP1; rewrite <- Heq; by eexists|by auto]).
      destruct who as [chan'|]; simpl; [|done]. rewrite lookup_insert_is_Some. destruct (decide (chan' = chan)); auto.
    + simpl. intros chan c' Hc'. destruct who as [chan'|]; simpl in Hc'; [|by apply HP2].
      apply lookup_insert_Some in Hc' as [[-> <-]|[_ Hc']]; [|by apply HP2]. destruct (HP2 _ _ Hc) as [<- Hlt].
      split; [|done]. pose proof (perform_tx o (tx c) (thread_session c w) i eq_refl) as Htx. by rewrite Hperf in Htx.
    + simpl. intros who' p' Hw'. rewrite (past_performed _ _ _ _ _ _ _ _ _ _ Hw Hc Hperf).
      apply lookup_insert_Some in Hw' as [[<- <-]|[Hne Hw']].
      * rewrite decide_True by done. specialize (HO _ _ Hw). simpl in HO. by apply HO.
      * rewrite decide_False by done. by apply HO.
    + simpl. intros who' p' [[<- <-]|[Hne Hw']]%lookup_insert_Some; [|by apply Hd]. by apply (Hd _ _ Hw).
Qed.

Lemma history_tracked a tr w : history (quiet_threads a) tr w → tracked tr w.
Proof.
  remember (quiet_threads a) as w0. induction 1 as [|tr w m i w' i' _ IH Hr _ Hm]; subst; [apply tracked_start|].
  eapply tracked_move; [by apply IH|done..].
Qed.
End Runs.

(** What holds between any two operations of the relay's threads.

    [Core] is what every operation keeps by itself; the counters are behind or
    ahead of their tables by what the threads owe.  [Sound] collects both;
    [sound_still] keeps it over the moves that are no operation. *)

Section Facts.
Context {RD : Redb} {UL : UuidLib} {LS : LibSignal} {HS : Hashing} {B6 : Base64} {JS : Json}.
Context {SV : Serde QueueStore.StoredValue} {SM : Serde FileStore.FileMeta}.
Context {SA : Serde MailboxAuth} {SB : Serde HostedBundle}.
Implicit Types (w : Threads) (tr : list Moment) (a : AppState).
Abbreviation Who := (ClientTx + Task)%type.

(** ** Debts *)

Definition debt (f : Steps bool → Z) w : Z := msum (λ _ p, f p) (running w).

Definition uncounted w : Z := debt (λ p, if uncounting p then 1 else 0) w.
Definition incoming_bytes w : Z := debt enqueuing w.
Definition incoming_bundles w : Z := debt (λ p, if inserting p then 1 else 0) w.

Lemma debt_started f w who p :
  running w !! who = None → f p = 0 → debt f (set_running (<[who := p]> (running w)) w) = debt f w.
Proof. intros Hn Hp. unfold debt. simpl. rewrite msum_insert_new by done. lia. Qed.

Lemma running_finish w who more : running (finish who more w) = delete who (running w).
Proof. by destruct who, more. Qed.

Lemma debt_finished f w who more :
  running w !! who = Some (Done more) → f (Done more) = 0 → debt f (finish who more w) = debt f w.
Proof. intros Hw Hf. unfold debt. rewrite running_finish, msum_delete. unfold contrib. rewrite Hw. lia. Qed.

Lemma debt_performed f w who p rest s :
  running w !! who = Some p → debt f (advance who rest s w) = debt f w - f p + f rest.
Proof. intros Hw. unfold debt. simpl. rewrite msum_insert. unfold contrib. rewrite Hw. lia. Qed.

Lemma debt_nonneg f w : (∀ p, 0 ≤ f p) → 0 ≤ debt f w.
Proof. intros Hf. apply msum_nonneg. by intros. Qed.

(** A debt of a thread is part of the whole. *)
Lemma debt_of f w who p : (∀ p, 0 ≤ f p) → running w !! who = Some p → f p ≤ debt f w.
Proof.
  intros Hf Hw. pose proof (msum_contrib_le (λ _ p, f p) (running w) who ltac:(by intros)) as H.
  unfold contrib in H. by rewrite Hw in H.
Qed.

(** ** The invariant *)

Record Core a : Prop := {
  co_queues : QueueFacts.Inv (queues a);
  co_files : good_files (files a);
  co_auths : wf_mailboxes (mailbox_auth a);
  co_keyed : keyed_bundles (bundles a);
  co_rates : rates_in_range (send_rate a);
}.

(** At most so many threads: one per connection, one per background task. *)
Definition MAX_THREADS : Z := MAX_CONNECTIONS + 4.

(** The counters and the tables, and the sizes they keep to. *)
Record Counts w : Prop := {
  ct_mailboxes : mailbox_count (world w) = Z.of_nat (size (mailbox_auth (world w))) + uncounted w
                 ∧ mailbox_count (world w) ≤ MAX_MAILBOXES;
  ct_conns : conn_count (world w) = Z.of_nat (size (sockets w)) + Z.of_nat (leaving w)
             ∧ conn_count (world w) ≤ MAX_LEAVING + MAX_CONNECTIONS;
  ct_sockets : Z.of_nat (size (sockets w)) ≤ MAX_CONNECTIONS;
  ct_bundles : Z.of_nat (size (bundles (world w))) + incoming_bundles w ≤ MAX_BUNDLES + MAX_THREADS;
  ct_bytes : QueueStore.total_bytes (queues (world w)) + incoming_bytes w
             ≤ GLOBAL_QUEUE_DISK_CAP_BYTES + MAX_THREADS * MAX_FRAME_BYTES;
}.

(** What the ids are that a thread has learned. *)
Record Learned tr : Prop := {
  le_me : ∀ who rid, has (says_me rid) (past who tr) → valid_recipient_id rid = true;
  le_entered : ∀ who rid, has (says_entered rid) (past who tr) → valid_recipient_id rid = true;
  le_candidate : ∀ who rid, has (says_candidate rid) (past who tr) → no_char ":" rid;
  le_collected : ∀ who rid, has (says_collected rid) (past who tr) → no_char ":" rid;
}.

Record Sound tr w : Prop := {
  so_tracked : tracked tr w;
  so_shaped : ∀ who p, running w !! who = Some p → shaped p ∧ enqueuing p ≤ MAX_FRAME_BYTES;
  so_core : Core (world w);
  so_counts : Counts w;
  so_learned : Learned tr;
  so_rid : ∀ chan c rid, sockets w !! chan = Some c → recipient_id c = Some rid → valid_recipient_id rid = true;
}.

(** A relay that has just started, within its caps. *)
Record started a : Prop := {
  sa_inv : AppInv a;
  sa_admitted : admitted a;
  sa_total : QueueStore.total_bytes (queues a) ≤ GLOBAL_QUEUE_DISK_CAP_BYTES;
  sa_conns : conn_count a = 0;
  sa_online : online a = ∅;
}.

Lemma AppInv_core a : AppInv a → Core a.
Proof. intros []. by split. Qed.

Lemma sound_start a : started a → Sound [] (quiet_threads a).
Proof.
  intros [HI [H1 H2 H3] Ht Hc Ho]. pose proof (ai_count _ HI) as [Hn _].
  assert (∀ P : Answered → Prop, ¬ has P []) as Hnil by (intros P H; inversion H).
  split; [apply tracked_start|done|by apply AppInv_core| | |done].
  - split; simpl; rewrite ?Hc; unfold uncounted, incoming_bundles, incoming_bytes, debt; simpl;
      rewrite ?msum_empty, ?map_size_empty; unfold MAX_LEAVING, MAX_THREADS, MAX_CONNECTIONS, MAX_FRAME_BYTES; lia.
  - split; simpl; intros who rid H; by destruct (Hnil _ H).
Qed.

(** ** Moves that are no operation *)

Lemma past_shrinks who tr mom : did who mom = None → past who (tr ++ [mom]) ⊆ past who tr.
Proof. intros H. rewrite past_snoc. unfold past_step. destruct (starts who mom); [set_solver|]. rewrite H. simpl. set_solver. Qed.

Lemma has_shrinks P who tr mom : did who mom = None → has P (past who (tr ++ [mom])) → has P (past who tr).
Proof. intros H. by apply has_more, past_shrinks. Qed.

Definition all_tasks : list Task := [FlushTask; GcTask; QueueSweepTask; FileSweepTask].

Lemma threads_bounded w : placed w → Z.of_nat (size (sockets w)) ≤ MAX_CONNECTIONS → Z.of_nat (size (running w)) ≤ MAX_THREADS.
Proof.
  intros [HP _] Hs.
  assert ((map_to_list (running w)).*1 ⊆+ (inl <$> (map_to_list (sockets w)).*1) ++ (inr <$> all_tasks)) as Hsub.
  { apply NoDup_submseteq; [apply NoDup_fst_map_to_list|]. intros who Hwho. apply list_elem_of_fmap in Hwho as ([who' p] & -> & Hin%elem_of_map_to_list).
    simpl in *. apply elem_of_app. destruct who' as [chan|t].
    - left. destruct (HP chan) as [c Hc]; [by eexists|]. apply list_elem_of_fmap. exists chan. split; [done|].
      apply list_elem_of_fmap. exists (chan, c). split; [done|]. by apply elem_of_map_to_list.
    - right. rewrite !elem_of_cons. destruct t; tauto. }
  apply submseteq_length in Hsub. rewrite length_app, !length_fmap, !length_map_to_list in Hsub.
  change (length all_tasks) with 4%nat in Hsub. unfold MAX_THREADS. lia.
Qed.

Lemma learned_still tr mom : (∀ who, did who mom = None) → Learned tr → Learned (tr ++ [mom]).
Proof.
  intros Hd [H1 H2 H3 H4]. split; intros who rid H; apply has_shrinks in H; eauto.
Qed.

Lemma counts_world w w' :
  Counts w → mailbox_count (world w') = mailbox_count (world w) → mailbox_auth (world w') = mailbox_auth (world w) →
  bundles (world w') = bundles (world w) → queues (world w') = queues (world w) →
  (∀ f, (∀ p, calm p → f p = 0) → debt f w' = debt f w) →
  conn_count (world w') = Z.of_nat (size (sockets w')) + Z.of_nat (leaving w') →
  conn_count (world w') ≤ MAX_LEAVING + MAX_CONNECTIONS →
  Z.of_nat (size (sockets w')) ≤ MAX_CONNECTIONS → Counts w'.
Proof.
  intros [H1 H2 H3 H4 H5] Em Ea Eb Eq Hd Hc Hc' Hs.
  assert (uncounted w' = uncounted w) as Hu by (apply Hd; by intros p [-> _ _]).
  assert (incoming_bundles w' = incoming_bundles w) as Hb by (apply Hd; by intros p [_ _ ->]).
  assert (incoming_bytes w' = incoming_bytes w) as Hy by (apply Hd; by intros p [_ -> _]).
  split; rewrite ?Em, ?Ea, ?Eb, ?Eq, ?Hu, ?Hb, ?Hy; done.
Qed.

Lemma Core_conn_count a n : Core a → Core (set_conn_count n a).
Proof. by intros []. Qed.

Lemma finish_world w who more : world (finish who more w) = world w.
Proof. by destruct who, more. Qed.

Lemma counts_finished w who more :
  placed w → running w !! who = Some (Done more) → Counts w → Counts (finish who more w).
Proof.
  intros [HP _] Hw HC. pose proof HC as [_ [Hc Hc'] Hs _ _].
  apply (counts_world w); rewrite ?finish_world; try done.
  - intros f Hf. apply debt_finished; [done|]. by apply Hf.
  - destruct who as [chan|t], more; simpl; try done. destruct (HP chan) as [c Hsock]; [by eexists|].
    pose proof (size_delete_lookup _ _ _ Hsock). lia.
  - destruct who as [chan|t], more; simpl; try done. destruct (HP chan) as [c Hsock]; [by eexists|].
    pose proof (size_delete_lookup _ _ _ Hsock). lia.
Qed.

(** What a move leaves that performs no operation. *)
Lemma sound_still tr w m i w' i' :
  Sound tr w → ready w m → move_pre w m i → move (E := Empty_set) m w i = (inr tt, w', i') →
  (∀ who A (o : op A) k, m = Ran who → running w !! who ≠ Some (Do o k)) →
  Sound (tr ++ [{| at_ := w; moved := m; calls := i |}]) w'.
Proof.
  intros HI Hr Hpre Hm Hno. pose proof HI as [HT Hsh HC HCt HL Hrid]. pose proof (tk_placed _ _ HT) as HP.
  pose proof (tracked_move _ _ _ _ _ _ HT Hr Hm) as HT'. pose proof HCt as [_ [Hc Hc'] Hs _ _].
  pose proof (move_seen _ _ _ _ _ HP Hr Hm) as Hseen.
  destruct Hseen as [-> Hroom -> | -> Hfull -> |n -> Hl -> |who p Hn Hst Hst' Hd Hp [[Hps Hpc] _ _] Hin -> |who more -> Hw -> |who A o k c v s' i1 -> Hw _ _ _ _].
  - simpl in Hpre.
    assert (sockets w !! next_socket w = None) as Hfresh.
    { apply eq_None_not_Some. intros [c Hsk]. destruct (pl_tx _ HP _ _ Hsk). lia. }
    pose proof (map_size_insert_None (next_socket w) (fresh_conn (next_socket w) (next_now i)) (sockets w) Hfresh) as Hsz.
    assert ((conn_count (world w) +! 1) = conn_count (world w) + 1) as Hw1.
    { apply wrap64_small. unfold is_u64, u64_max, MAX_LEAVING, MAX_CONNECTIONS in *. lia. }
    split; [done|exact Hsh|by apply Core_conn_count| |by apply learned_still|].
    + apply (counts_world w); simpl; rewrite ?Hw1, ?Hsz; try done; lia.
    + simpl. intros chan c rid [[_ <-]|[_ Hsk]]%lookup_insert_Some; [done|by eapply Hrid].
  - simpl in Hpre. assert ((conn_count (world w) +! 1) = conn_count (world w) + 1) as Hw1.
    { apply wrap64_small. unfold is_u64, u64_max, MAX_LEAVING, MAX_CONNECTIONS in *. lia. }
    split; [done|exact Hsh|by apply Core_conn_count| |by apply learned_still|exact Hrid].
    apply (counts_world w); simpl; rewrite ?Hw1; try done; lia.
  - assert ((conn_count (world w) -! 1) = conn_count (world w) - 1) as Hw1.
    { apply wrap64_small. unfold is_u64, u64_max, MAX_LEAVING, MAX_CONNECTIONS in *. lia. }
    split; [done|exact Hsh|by apply Core_conn_count| |by apply learned_still|exact Hrid].
    apply (counts_world w); simpl; rewrite ?Hw1; try done; lia.
  - split; [done| |done| |apply learned_still; [intros; by apply Hd|done]|done].
    + simpl. intros who' p' [[<- <-]|[_ Hw']]%lookup_insert_Some; [|by eapply Hsh]. split; [done|].
      destruct Hpc as [_ -> _]. done.
    + apply (counts_world w); try done. intros f Hf. apply debt_started; [done|by apply Hf].
  - split; [done| |by rewrite finish_world|by apply counts_finished|apply learned_still; [intros; by eapply did_finished|done]|].
    + rewrite running_finish. intros who' p' [_ Hw']%lookup_delete_Some. by eapply Hsh.
    + intros chan c rid. destruct who as [chan'|t], more; simpl; try apply Hrid. intros [_ Hsk]%lookup_delete_Some. by eapply Hrid.
  - by destruct (Hno who A o k eq_refl).
Qed.
End Facts.
