(* ===== verification/ThreadsAlone.v ===== *)
(** A thread that nothing interrupts does what [Relay] does in one turn.

    [steps_of] runs moves one after the other.  For every turn of [Relay] but those
    of the garbage collection, which [Relay] itself takes mailbox by mailbox, there
    are moves of one thread, from wherever that thread is free, that leave the same
    relay and the same script ([moves_for]). *)
From Stdlib Require Import ZArith Lia Ascii String.
From stdpp Require Import base gmap strings list.
From S2P Require Import Prelude Redb RustStd Config Util Protocol Mailbox Signal State Ws WsFacts WsFrames Relay.
From S2P Require Import Steps StepsAlone Threads StepsOrder StepsShape StepsDuties ThreadsFacts.
From S2P Require QueueStore.
From S2P Require FileStore.

Section Alone.
Context {RD : Redb} {UL : UuidLib} {LS : LibSignal} {HS : Hashing} {B6 : Base64} {JS : Json}.
Context {SV : Serde QueueStore.StoredValue} {SM : Serde FileStore.FileMeta}.
Context {SA : Serde MailboxAuth} {SB : Serde HostedBundle}.
Implicit Types (w : Threads) (s : Session).
Abbreviation Who := (ClientTx + Task)%type.

(** ** What was sent before does not matter *)

Definition add_sent (l : list (ClientTx * ServerFrame)) s : Session := {| app := app s; conn := conn s; sent := l ++ sent s |}.

Definition uniform {E A : Type} (m : M Session E A) : Prop :=
  ∀ l s i, m (add_sent l s) i = let '(r, s', i') := m s i in (r, add_sent l s', i').

Lemma uniform_bind {E A B} (m : M Session E A) (k : A → M Session E B) :
  uniform m → (∀ a, uniform (k a)) → uniform (m ≫= k).
Proof.
  intros Hm Hk l s i. unfold mbind, M_bind. rewrite Hm. destruct (m s i) as [[[e|a] s'] i']; [done|apply Hk].
Qed.

Lemma uniform_get {E A} (k : Session → M Session E A) :
  (∀ l s, k (add_sent l s) = k s) → (∀ s, uniform (k s)) → uniform (s ← get; k s).
Proof. intros Heq Hk l s i. unfold mbind, M_bind, get. rewrite Heq. apply Hk. Qed.

Lemma uniform_app {E A} (m : M AppState E A) : uniform (on_app m).
Proof. intros l s i. unfold on_app, zoom. simpl. by destruct (m (app s) i) as [[r a'] i']. Qed.

Lemma uniform_attempt {E E' A} (m : M Session E A) : uniform m → uniform (attempt (E' := E') m).
Proof. intros Hm l s i. unfold attempt. rewrite Hm. by destruct (m s i) as [[r s'] i']. Qed.

Lemma uniform_call {E} (e : E) : uniform (io_call e).
Proof. intros l s i. unfold io_call. by destruct (io_fail i). Qed.

Lemma uniform_spawn {E E' A} (m : M Session E A) : uniform m → uniform (spawn_blocking (E' := E') m).
Proof.
  intros Hm. apply uniform_bind; [apply uniform_attempt, uniform_call|]. intros [e|[]]; [done|].
  apply uniform_bind; [by apply uniform_attempt|done].
Qed.

Lemma uniform_modify {E} (f : Session → Session) : (∀ l s, f (add_sent l s) = add_sent l (f s)) → uniform (E := E) (modify f).
Proof. intros Hf l s i. unfold modify. by rewrite Hf. Qed.

Lemma uniform_clock {E} : uniform (E := E) now_ms.
Proof. intros l s i. unfold now_ms, read_clock, mbind, M_bind. by destruct i as [? ? [|] ?]. Qed.

Lemma uniform_try_send {E} chan frame : uniform (E := E) (try_send chan frame).
Proof.
  intros l s i. unfold try_send, send_ok, mbind, M_bind, modify. destruct i as [? ? ? [|[] ?]]; simpl; try done.
  all: unfold add_sent, set_sent; simpl; by rewrite app_assoc.
Qed.

Lemma uniform_ret {E A} (a : A) : uniform (E := E) (mret a).
Proof. done. Qed.

Lemma uniform_pow {E} id nonce : uniform (E := E) (verify_pow id nonce).
Proof.
  unfold verify_pow, now_secs. apply uniform_bind; [|intros; apply uniform_ret]. apply uniform_bind; [|intros; apply uniform_ret].
  intros l s i. unfold read_clock. by destruct i as [? ? [|] ?].
Qed.

Lemma uniform_throw {E A} (e : E) : uniform (A := A) (throw e).
Proof. done. Qed.

Lemma uniform_lift {E A} (r : E + A) : uniform (lift r).
Proof. intros l s i. by destruct r. Qed.

Lemma uniform_issue crypto rng req uuid dev key : uniform (issue_sender_certificate crypto rng req uuid dev key).
Proof.
  unfold issue_sender_certificate. destruct (_ || _); [apply uniform_throw|]. destruct (_ <? _); [apply uniform_throw|].
  repeat (apply uniform_bind; [first [apply uniform_lift|apply uniform_clock]|intros]). apply uniform_ret.
Qed.
End Alone.

Create HintDb uniform discriminated.
#[export] Hint Resolve uniform_bind uniform_app uniform_attempt uniform_call uniform_spawn uniform_modify uniform_clock
  uniform_try_send uniform_ret uniform_pow uniform_throw : uniform.

Section Uniform.
Context {RD : Redb} {UL : UuidLib} {LS : LibSignal} {HS : Hashing} {B6 : Base64} {JS : Json}.
Context {SV : Serde QueueStore.StoredValue} {SM : Serde FileStore.FileMeta}.
Context {SA : Serde MailboxAuth} {SB : Serde HostedBundle}.
Implicit Types (w : Threads) (s : Session).
Abbreviation Who := (ClientTx + Task)%type.
Context {E : Type}.

Lemma perform_uniform {A} (o : op A) : uniform (E := E) (perform o).
Proof.
  destruct o; simpl; unfold on_queues, on_files, send_await;
    try (by auto 10 with uniform nocore); try (apply uniform_get; [done|intros; by auto 10 with uniform nocore]).
  - apply uniform_get; [done|]. intros s. destruct (online (app s) !! to); auto with uniform nocore.
  - apply uniform_get; [done|]. intros s. apply uniform_attempt, uniform_issue.
Qed.

Lemma run_uniform {A} (p : Steps A) : uniform (E := E) (run_steps p).
Proof. induction p as [a|B o k IH]; [done|]. apply uniform_bind; [apply perform_uniform|done]. Qed.
End Uniform.

Section Turns.
Context {RD : Redb} {UL : UuidLib} {LS : LibSignal} {HS : Hashing} {B6 : Base64} {JS : Json}.
Context {SV : Serde QueueStore.StoredValue} {SM : Serde FileStore.FileMeta}.
Context {SA : Serde MailboxAuth} {SB : Serde HostedBundle}.
Implicit Types (w : Threads) (s : Session).
Abbreviation Who := (ClientTx + Task)%type.

Fixpoint steps_of (ms : list Move) : M Threads Empty_set () :=
  match ms with
  | [] => mret ()
  | m :: rest => _ ← move m; steps_of rest
  end.

Lemma steps_of_app ms1 ms2 w i w1 i1 :
  steps_of ms1 w i = (inr tt, w1, i1) → steps_of (ms1 ++ ms2) w i = steps_of ms2 w1 i1.
Proof.
  revert w i. induction ms1 as [|m ms IH]; intros w i; simpl; [by intros [= -> ->]|].
  unfold mbind, M_bind. destruct (move m w i) as [[[[]|[]] w2] i2]. apply IH.
Qed.

(** Only a connection's own thread changes its variables. *)
Lemma task_conn {A} t (o : op A) c : duty (Some t) o = true → preserves (λ s, conn s) c (perform (E := Empty_set) o).
Proof.
  intros Hd. assert (∀ B E' (m : M AppState E' B), preserves (λ s : Session, conn s) c (on_app m)) as Happ.
  { intros B E' m. by apply preserves_zoom_other. }
  assert (∀ B (m : M AppState anyhow B), preserves (λ s : Session, conn s) c (attempt (E' := Empty_set) (on_app m))) as Hatt.
  { intros B m. preserve. }
  destruct t, o; try done; simpl; unfold on_queues, on_files; try apply Hatt; preserve.
Qed.

(** A thread's program, run to its end. *)
Lemma run_to_end who (p : Steps bool) w c i :
  running w !! who = Some p → conn_of who w = Some c → only (duty_of who) p →
  ∃ n a s' i', run_steps (E := Empty_set) p (thread_session c w) i = (inr a, s', i')
    ∧ steps_of (replicate n (Ran who)) w i = (inr tt, advance who (Done a) s' w, i')
    ∧ (∀ t, who = inr t → conn s' = c).
Proof.
  revert w c i. induction p as [a|B o k IH]; intros w c i Hw Hc Honly.
  - exists 0%nat, a, (thread_session c w), i. split_and!; [done| |done]. simpl.
    enough (w = advance who (Done a) (thread_session c w) w) as <- by done.
    destruct w as [a0 so nx wr ru lv]. unfold advance. simpl in *. rewrite app_nil_r, insert_id by done.
    f_equal. destruct who as [chan|t]; [|done]. simpl. by rewrite insert_id.
  - destruct Honly as [Hduty Honly]. destruct (perform (E := Empty_set) o (thread_session c w) i) as [[[[]|v] s1] i1] eqn:Hp.
    set (w1 := advance who (k v) s1 w).
    assert (∀ t, who = inr t → conn s1 = c) as Hkeep.
    { intros t ->. pose proof (task_conn t o c Hduty (thread_session c w) i eq_refl) as H. by rewrite Hp in H. }
    assert (conn_of who w1 = Some (conn s1)) as Hc1.
    { destruct who as [chan|t]; simpl; [by rewrite lookup_insert_eq|]. rewrite (Hkeep t eq_refl). simpl in Hc. by rewrite <- Hc. }
    destruct (IH v w1 (conn s1) i1) as (n & a & s2 & i2 & Hrun & Hmoves & Hk2); [apply lookup_insert_eq|done|apply Honly|].
    exists (S n), a, (add_sent (sent s1) s2), i2. split_and!.
    + simpl. unfold mbind, M_bind. rewrite Hp.
      assert (s1 = add_sent (sent s1) (thread_session (conn s1) w1)) as Hs1 by (destruct s1; unfold add_sent; simpl; by rewrite app_nil_r).
      pose proof (run_uniform (E := Empty_set) (k v) (sent s1) (thread_session (conn s1) w1) i1) as Hu. rewrite <- Hs1, Hrun in Hu. exact Hu.
    + simpl. unfold mbind, M_bind, ran, get. unfold mbind, M_bind. rewrite Hw, Hc. unfold with_state. rewrite Hp.
      cbn [modify]. unfold modify. fold w1. rewrite Hmoves.
      enough (advance who (Done a) s2 w1 = advance who (Done a) (add_sent (sent s1) s2) w) as -> by done. unfold w1, advance. simpl.
      rewrite insert_insert_eq, app_assoc. f_equal. destruct who; simpl; [by rewrite insert_insert_eq|done].
    + intros t Ht. simpl. rewrite (Hk2 t Ht). by eapply Hkeep.
Qed.

(** The relay without its threads. *)
Definition as_relay w : Relay :=
  {| shared := world w; conns := sockets w; next_chan := next_socket w; outbox := wire w; collecting := None |}.

(** [l] is a turn of the thread [who], which is free. *)
Definition turn_of w (l : Label) : Prop :=
  match l with
  | Opened => True
  | Received chan _ _ => running w !! inl chan = None
  | Flushed => running w !! inr FlushTask = None
  | QueuesSwept => running w !! inr QueueSweepTask = None
  | FilesSwept => running w !! inr FileSweepTask = None
  | GcStarted | GcNext => False
  end.

(** The same moves make the turn of [Relay], on the same script. *)
Definition moves_for (l : Label) w i : Prop :=
  ∃ ms w' i', steps_of ms w i = (inr tt, w', i') ∧ relay_step (E := Empty_set) l (as_relay w) i = (inr tt, as_relay w', i')
    ∧ running w' = running w ∧ leaving w' = leaving w.

Lemma opened_moves w i : moves_for Opened w i.
Proof.
  destruct w as [a so nx wr ru lv]. unfold moves_for, relay_step, open_socket, on_shared, zoom, accept, as_relay. simpl.
  unfold mbind, M_bind, get, put, modify. cbn.
  destruct (Z.leb_spec MAX_CONNECTIONS (conn_count a)) as [Hle|Hlt].
  - eexists [Accepted; Left], _, i. split.
    { cbn. unfold accept_step, leave_step, mbind, M_bind, get, modify, put. cbn. rewrite (proj2 (Z.leb_le _ _) Hle). cbn. reflexivity. }
    split; [|done]. cbn. reflexivity.
  - eexists [Accepted], _, _. split.
    { cbn. unfold accept_step, mbind, M_bind, get, modify, put. cbn. rewrite (proj2 (Z.leb_gt _ _) Hlt). cbn. reflexivity. }
    split; [|done]. cbn. reflexivity.
Qed.
(** A free thread takes a program and runs it to its end. *)
Lemma whole_program who (p : Steps bool) w c i m :
  running w !! who = None → conn_of who w = Some c → only (duty_of who) p →
  move (E := Empty_set) m w i = (inr tt, set_running (<[who := p]> (running w)) w, i) →
  ∃ n a s' i', run_steps (E := Empty_set) p (thread_session c w) i = (inr a, s', i')
    ∧ steps_of (m :: replicate n (Ran who) ++ [Ran who]) w i
      = (inr tt, finish who a (advance who (Done a) s' w), i')
    ∧ (∀ t, who = inr t → conn s' = c).
Proof.
  intros Hn Hc Ho Hm. set (w0 := set_running (<[who := p]> (running w)) w) in *.
  destruct (run_to_end who p w0 c i) as (n & a & s' & i' & Hrun & Hmoves & Hk); [apply lookup_insert_eq|by destruct who|done|].
  exists n, a, s', i'. split_and!; [exact Hrun| |done]. cbn [steps_of]. unfold mbind, M_bind. rewrite Hm.
  rewrite (steps_of_app _ _ _ _ _ _ Hmoves). cbn [steps_of move]. unfold mbind, M_bind, ran, get. unfold mbind, M_bind. simpl.
  rewrite lookup_insert_eq. cbn [put]. unfold put. unfold mret, M_ret.
  enough (finish who a (advance who (Done a) s' w0) = finish who a (advance who (Done a) s' w)) as -> by done.
  destruct who as [chan|t]; [|destruct a]; try destruct a; unfold finish, advance, set_running, w0; simpl; by rewrite insert_insert_eq.
Qed.

(** What is left of the threads: as they were. *)
Lemma finish_running who a p s w :
  running w !! who = None → running (finish who a (advance who p s w)) = running w.
Proof. intros Hn. destruct who as [chan|t], a; simpl; by rewrite delete_insert_eq, delete_id. Qed.

Lemma received_moves chan d inc w i : running w !! inl chan = None → moves_for (Received chan d inc) w i.
Proof.
  intros Hn. unfold moves_for, relay_step, receive, mbind at 1, M_bind at 1, get. simpl.
  destruct (sockets w !! chan) as [c|] eqn:Hc; [|by exists [], w, i].
  destruct (whole_program (inl chan) (turn_steps d inc) w c i (Heard chan d inc)) as (n & more & s' & i' & Hrun & Hms & _);
    [done|done|apply turn_only|done|].
  pose proof (turn_alone (E := Empty_set) d inc (thread_session c w) i) as Ht. unfold mbind, M_bind in Ht. rewrite Hrun in Ht.
  unfold mbind, M_bind, with_state. change (session_of (as_relay w) c) with (thread_session c w). destruct more.
  - unfold mret, M_ret in Ht. rewrite <- Ht.
    eexists _, _, i'. split; [exact Hms|]. split; [|split; [by apply finish_running|done]]. done.
  - unfold on_app, zoom, modify, mret, M_ret in Ht. rewrite <- Ht.
    eexists (_ ++ [Left]), _, i'. split.
    { rewrite (steps_of_app _ _ _ _ _ _ Hms). cbn. unfold mbind, M_bind, leave_step, get, put, modify. cbn. reflexivity. }
    split; [|split; [exact (finish_running (inl chan) false (Done false) s' w Hn)|done]].
    unfold as_relay, set_world, set_leaving, finish, advance, put_conn, modify. simpl.
    by rewrite delete_insert_eq.
Qed.
(** ** Background tasks *)

(** The same work on the shared state of a session and of a relay. *)
Definition same_work {E1 E2 A : Type} (m1 : M Session E1 A) (m2 : M Relay E2 A) : Prop :=
  ∀ s r i, app s = shared r → ∃ (v1 : E1 + A) (v2 : E2 + A) a' i',
    m1 s i = (v1, set_app a' s, i') ∧ m2 r i = (v2, set_shared a' r, i').

Lemma same_work_app {E A} (m : M AppState E A) : same_work (on_app m) (on_shared m).
Proof.
  intros s r i Hs. unfold on_app, on_shared, zoom. rewrite Hs. destruct (m (shared r) i) as [[v a'] i'].
  by exists v, v, a', i'.
Qed.

Lemma same_work_ignored {E A} (m : M AppState E A) : same_work (_ ← on_app m; mret ()) (_ ← on_shared m; mret ()).
Proof.
  intros s r i Hs. unfold on_app, on_shared, zoom, mbind, M_bind. rewrite Hs. destruct (m (shared r) i) as [[[e|v] a'] i'].
  - by exists (inl e), (inl e), a', i'.
  - by exists (inr tt), (inr tt), a', i'.
Qed.

Lemma same_background {E1 E2} (m1 : M Session E1 ()) (m2 : M Relay E2 ()) s r i :
  same_work m1 m2 → app s = shared r → ∃ a' i',
    background (E := Empty_set) m1 s i = (inr tt, set_app a' s, i')
    ∧ background (E := Empty_set) m2 r i = (inr tt, set_shared a' r, i').
Proof.
  intros Hm Hs. unfold background, attempt, io_call, mbind, M_bind. destruct (io_fail i) as [|[] l].
  - destruct (Hm s r i Hs) as (v1 & v2 & a' & i' & -> & ->). by exists a', i'.
  - exists (app s). eexists. split; [by destruct s|rewrite Hs; by destruct r].
  - destruct (Hm s r (Io l (io_item i) (io_clock i) (io_send i)) Hs) as (v1 & v2 & a' & i' & -> & ->). by exists a', i'.
Qed.

Definition task_label (t : Task) : option Label :=
  match t with
  | FlushTask => Some Flushed
  | GcTask => None
  | QueueSweepTask => Some QueuesSwept
  | FileSweepTask => Some FilesSwept
  end.

Lemma whole_is_turn t l s r i :
  task_label t = Some l → app s = shared r → ∃ a' i',
    whole_task (E := Empty_set) t s i = (inr tt, set_app a' s, i')
    ∧ relay_step (E := Empty_set) l r i = (inr tt, set_shared a' r, i').
Proof.
  intros Hl Hs. destruct t; try done; injection Hl as <-; simpl.
  - unfold flush_task, mbind, M_bind, get. rewrite Hs. destruct (_ && _).
    + exists (shared r), i. split; [rewrite <- Hs; by destruct s|by destruct r].
    + apply same_background; [apply same_work_app|done].
  - apply same_background; [apply same_work_ignored|done].
  - apply same_background; [apply same_work_ignored|done].
Qed.

Lemma task_moves t l w i : task_label t = Some l → running w !! inr t = None → moves_for l w i.
Proof.
  intros Hl Hn. set (c := fresh_conn (next_socket w) 0).
  destruct (whole_program (inr t) (_ ← task_steps t; mret true) w c i (Woke t)) as (n & more & s' & i' & Hrun & Hms & Hk);
    [done|done|apply only_bind; [apply task_only|done]|done|].
  assert (run_steps (E := Empty_set) (_ ← task_steps t; mret true) (thread_session c w) i
    = (_ ← whole_task t; mret true) (thread_session c w) i) as Halone.
  { etrans; [apply run_bind|]. unfold mbind, M_bind. by rewrite task_alone. }
  destruct (whole_is_turn t l (thread_session c w) (as_relay w) i Hl eq_refl) as (a' & i2 & Hwhole & Hturn).
  rewrite Halone in Hrun. unfold mbind, M_bind in Hrun. rewrite Hwhole in Hrun. injection Hrun as <- <- <-.
  eexists _, _, _. split; [exact Hms|]. rewrite Hturn. split; [|split; [by apply finish_running|done]].
  unfold as_relay, set_shared, finish, set_running, advance. simpl. by rewrite app_nil_r.
Qed.
End Turns.
