(* ===== verification/ThreadsSound.v ===== *)
(** What an operation of one thread leaves of [Sound], and that every history
    keeps it. *)
From Stdlib Require Import ZArith Lia Ascii String.
From stdpp Require Import base gmap strings list.
From S2P Require Import Prelude Redb RustStd Config Util Protocol Mailbox Signal State StateFacts StateOps Ws WsFacts.
From S2P Require Import WsRuns WsFrames Relay Steps Threads StepsOrder StepsShape StepsDuties StepsStores.
From S2P Require Import ThreadsFacts.
From S2P Require QueueStore.
From S2P Require QueueFacts.
From S2P Require QueueSpec.
From S2P Require FileStore.
From S2P Require FileFacts.

Section Performed.
Context {RD : Redb} {UL : UuidLib} {LS : LibSignal} {HS : Hashing} {B6 : Base64} {JS : Json}.
Context {SV : Serde QueueStore.StoredValue} {SM : Serde FileStore.FileMeta}.
Context {SA : Serde MailboxAuth} {SB : Serde HostedBundle}.
Implicit Types (a : AppState).
Abbreviation Who := (ClientTx + Task)%type.
Context (tr : list Moment) (w : Threads) (who : Who) (A : Type) (o : op A) (k : A → Steps bool) (c : Conn).
Context (v : A) (s' : Session) (i i1 : io).
Context (HI : Sound tr w) (Hw : running w !! who = Some (Do o k)) (Hc : conn_of who w = Some c).
Context (Hperf : perform (E := Empty_set) o (thread_session c w) i = (inr v, s', i1)).
Context (Hpl : plausible o v) (Hpre : op_pre o (world w) i).

Abbreviation mom := {| at_ := w; moved := Ran who; calls := i |}.
Abbreviation w' := (advance who (k v) s' w).

(** What an effect lemma says of the operation performed. *)
Lemma performed_wp (Q : A → Session → Prop) :
  wp (perform (E := Empty_set) o) (λ r s1 _, ∀ v1, r = inr v1 → Q v1 s1) (thread_session c w) i → Q v s'.
Proof. unfold wp. rewrite Hperf. auto. Qed.

Lemma performed_always (Q : Session → Prop) :
  wp (perform (E := Empty_set) o) (λ _ s1 _, Q s1) (thread_session c w) i → Q s'.
Proof. unfold wp. by rewrite Hperf. Qed.

Lemma performed_orderly : orderly (past who tr) o.
Proof. apply (tk_obeys _ _ (so_tracked _ _ HI) _ _ Hw). Qed.

Lemma performed_fits : fits_shape (Do o k) o v (k v) ∧ shaped (k v).
Proof. destruct (so_shaped _ _ HI _ _ Hw) as [Hs _]. apply (Hs v). Qed.

Lemma performed_named : named o.
Proof.
  pose proof performed_orderly as Ho. pose proof (so_learned _ _ HI) as [H1 H2 H3 H4].
  pose proof valid_recipient_no_colon as Hv. pose proof valid_bundle_no_colon as Hb.
  destruct o; simpl in *; try done; try (by eauto).
  - destruct Ho as (_ & ? & ? & _). split; auto.
  - destruct Ho as (? & ? & ? & ? & ?). split_and!; auto; lia.
Qed.

(** ** Its debts *)

Lemma performed_debt f : debt f w' = debt f w - f (Do o k) + f (k v).
Proof. by apply debt_performed. Qed.

Lemma owing_one f : (∀ p, 0 ≤ f p) → f (Do o k) ≤ debt f w.
Proof. intros Hf. by apply (debt_of f _ who). Qed.

Lemma uncounting_nonneg (p : Steps bool) : 0 ≤ (if uncounting p then 1 else 0).
Proof. by destruct (uncounting p). Qed.

Lemma inserting_nonneg (p : Steps bool) : 0 ≤ (if inserting p then 1 else 0).
Proof. by destruct (inserting p). Qed.

Lemma enqueuing_nonneg (p : Steps bool) : 0 ≤ enqueuing p.
Proof. destruct p as [|B [] ?]; simpl; try done. apply slen_nonneg. Qed.

Lemma enqueuing_grows : enqueuing (Do o k) = grows o.
Proof. by destruct o. Qed.

Lemma performed_mailboxes_u64 : is_u64 (mailbox_count (world w)).
Proof.
  pose proof (ct_mailboxes _ (so_counts _ _ HI)) as [H1 H2].
  assert (0 ≤ uncounted w) by (apply debt_nonneg, uncounting_nonneg).
  unfold is_u64, u64_max, MAX_MAILBOXES in *. lia.
Qed.

Lemma performed_room : QueueStore.total_bytes (queues (world w)) + grows o ≤ u64_max.
Proof.
  pose proof (ct_bytes _ (so_counts _ _ HI)) as H. pose proof (owing_one enqueuing enqueuing_nonneg) as Ho.
  rewrite enqueuing_grows in Ho. unfold incoming_bytes in H.
  unfold u64_max, GLOBAL_QUEUE_DISK_CAP_BYTES, MAX_THREADS, MAX_CONNECTIONS, MAX_FRAME_BYTES in *. lia.
Qed.

(** ** Its effects *)

Lemma performed_auth : auth_effect o (world w) (mailbox_auth (app s')) v.
Proof.
  apply (performed_wp (λ v s', auth_effect o (world w) (mailbox_auth (app s')) v)).
  apply perform_auth; [apply performed_mailboxes_u64|apply (co_auths _ (so_core _ _ HI))].
Qed.

Lemma performed_count : count_effect o (world w) (mailbox_count (app s')) v.
Proof.
  apply (performed_wp (λ v s', count_effect o (world w) (mailbox_count (app s')) v)).
  apply perform_count, performed_mailboxes_u64.
Qed.

Lemma performed_bundles : bundles_effect o (world w) (bundles (app s')) v.
Proof.
  apply (performed_wp (λ v s', bundles_effect o (world w) (bundles (app s')) v)), perform_bundles.
Qed.

Lemma performed_sees : sees o c (world w) v.
Proof. apply (performed_wp (λ v _, sees o c (world w) v)), perform_sees. Qed.

Lemma performed_queues :
  QueueFacts.Inv (queues (app s')) ∧ queue_effect i o (QueueSpec.abs (queues (world w))) (QueueSpec.abs (queues (app s'))) v.
Proof.
  apply (performed_wp (λ v s', QueueFacts.Inv (queues (app s'))
    ∧ queue_effect i o (QueueSpec.abs (queues (world w))) (QueueSpec.abs (queues (app s'))) v)).
  apply perform_queues; [apply (co_queues _ (so_core _ _ HI))|apply performed_named|done|].
  pose proof performed_room. by destruct o.
Qed.

Lemma performed_total :
  QueueStore.total_bytes (queues (app s')) ≤ QueueStore.total_bytes (queues (world w)) + grows o.
Proof.
  apply (performed_wp (λ _ s', QueueStore.total_bytes (queues (app s')) ≤ QueueStore.total_bytes (queues (world w)) + grows o)).
  apply perform_total; [apply (co_queues _ (so_core _ _ HI))|apply performed_named|done|apply performed_room].
Qed.

Lemma performed_conn : conn_effect o c (conn s').
Proof. apply (performed_always (λ s', conn_effect o c (conn s'))), perform_conn. Qed.

(** ** What it keeps *)

Lemma performed_core : Core (app s').
Proof.
  pose proof (so_core _ _ HI) as [H1 H2 H3 H4 H5]. split.
  - apply performed_queues.
  - apply (performed_wp (λ _ s', good_files (files (app s')))).
    eapply wp_conseq; [apply perform_files; [done|apply performed_named|done]|]. cbn beta. intros r s1 i2 H v1 Hr. by apply (H v1).
  - pose proof performed_auth as H. pose proof performed_orderly as Ho. intros rid x.
    destruct o; simpl in H, Ho; try (rewrite H; by apply H3).
    + destruct v; [rewrite H; by apply H3|]. destruct H as (y & -> & _ & Hy & _).
      intros [[<- <-]|[_ ?]]%lookup_insert_Some; [split; [by apply valid_recipient_no_colon|done]|by apply H3].
    + destruct v; [|rewrite H; by apply H3]. destruct H as (y & Hy & ->).
      intros [[<- <-]|[_ ?]]%lookup_insert_Some; [|by apply H3]. split; [by apply (H3 _ _ Hy)|apply wf_replace].
    + destruct v; [|rewrite H; by apply H3]. destruct H as (y & now & Hy & ->).
      intros [[<- <-]|[_ ?]]%lookup_insert_Some; [|by apply H3]. split; [by apply (H3 _ _ Hy)|apply wf_touch; by apply (H3 _ _ Hy)].
    + destruct v; destruct H as [_ ->]; [intros [_ ?]%lookup_delete_Some|]; by apply H3.
    + destruct v; [|rewrite H; by apply H3]. destruct H as (y & _ & _ & _ & ->). intros [_ ?]%lookup_delete_Some. by apply H3.
  - pose proof performed_bundles as H. intros id b. destruct o; simpl in H; try (rewrite H; by apply H4).
    + destruct v; rewrite H; [intros [_ ?]%lookup_delete_Some|]; by apply H4.
    + rewrite H. intros [[<- <-]|[_ ?]]%lookup_insert_Some; [done|by apply H4].
  - apply (performed_wp (λ _ s', rates_in_range (send_rate (app s')))). by apply perform_rates.
Qed.

(** ** The counts *)

Lemma performed_ct_mailboxes :
  mailbox_count (app s') = Z.of_nat (size (mailbox_auth (app s'))) + uncounted w' ∧ mailbox_count (app s') ≤ MAX_MAILBOXES.
Proof.
  pose proof (ct_mailboxes _ (so_counts _ _ HI)) as [Hn Hmax]. pose proof performed_auth as Ha.
  pose proof performed_count as Hct. pose proof (fs_uncounts _ _ _ _ (proj1 performed_fits)) as Hu.
  pose proof performed_mailboxes_u64 as [Hlo Hhi]. pose proof (owing_one _ uncounting_nonneg) as Hone.
  pose proof (performed_debt (λ p, if uncounting p then 1 else 0)) as Hd. unfold uncounted in *. cbn beta in Hd.
  rewrite Hu in Hd. rewrite Hd. clear Hu.
  destruct o; simpl in Ha, Hct, Hd, Hone |- *; try (rewrite ?Ha, ?Hct; lia).
  - destruct v; [rewrite Ha, Hct; lia|]. destruct Ha as (x & -> & _ & _ & Hx). destruct (mailbox_auth (world w) !! rid) eqn:Hr.
    + rewrite map_size_insert_Some by by eexists. lia.
    + rewrite map_size_insert_None by done. lia.
  - destruct v; [|rewrite Ha; lia]. destruct Ha as (x & Hx & ->). rewrite map_size_insert_Some by by eexists. lia.
  - destruct v; [|rewrite Ha; lia]. destruct Ha as (x & now & Hx & ->). rewrite map_size_insert_Some by by eexists. lia.
  - destruct v; [|destruct Ha as [_ ->]; lia]. destruct Ha as [[x Hx] ->]. pose proof (size_delete_lookup _ _ _ Hx). lia.
  - destruct v; [|rewrite Ha; lia]. destruct Ha as (x & Hx & _ & _ & ->). pose proof (size_delete_lookup _ _ _ Hx). lia.
  - rewrite Hct, Ha, wrap64_small by (unfold is_u64; lia). lia.
Qed.

Lemma performed_tracked : tracked (tr ++ [mom]) w'.
Proof.
  eapply tracked_move; [apply (so_tracked _ _ HI)|simpl; by eexists|]. simpl. unfold ran, mbind, M_bind, get.
  rewrite Hw, Hc. unfold with_state. by rewrite Hperf.
Qed.

Lemma performed_sockets : size (sockets w') = size (sockets w).
Proof. destruct who as [chan|t]; [|done]. simpl. apply map_size_insert_Some. by eexists. Qed.

Lemma performed_threads : Z.of_nat (size (running w')) ≤ MAX_THREADS.
Proof.
  apply threads_bounded; [apply performed_tracked|]. rewrite performed_sockets. apply (ct_sockets _ (so_counts _ _ HI)).
Qed.

(** What all threads owe, when none owes more than [n]. *)
Lemma debt_bounded f n : (∀ who' p, running w' !! who' = Some p → f p ≤ n) → 0 ≤ n → debt f w' ≤ MAX_THREADS * n.
Proof.
  intros Hf Hn. pose proof performed_threads as Ht. transitivity (Z.of_nat (size (running w')) * n); [|nia].
  unfold debt. revert Hf. generalize (running w'). intros r Hf. clear -Hf Hn.
  induction r as [|who' p r Hr IH] using map_ind; [by rewrite msum_empty|].
  rewrite msum_insert_new, map_size_insert_None by done. pose proof (Hf who' p (lookup_insert_eq _ _ _)).
  assert (msum (λ _ p, f p) r ≤ Z.of_nat (size r) * n); [|lia]. apply IH. intros who'' p'' Hp. apply (Hf who'').
  rewrite lookup_insert_ne; [done|]. intros ->. congruence.
Qed.

Lemma performed_enqueuing : enqueuing (k v) ≤ MAX_FRAME_BYTES.
Proof.
  pose proof (tk_obeys _ _ performed_tracked who (k v) (lookup_insert_eq _ _ _)) as Ho.
  destruct (k v) as [|B [] ?]; simpl in Ho |- *; try done. tauto.
Qed.

Lemma performed_running who' p :
  running w' !! who' = Some p → shaped p ∧ enqueuing p ≤ MAX_FRAME_BYTES.
Proof.
  simpl. intros [[<- <-]|[_ Hp]]%lookup_insert_Some; [|by eapply (so_shaped _ _ HI)].
  split; [apply performed_fits|apply performed_enqueuing].
Qed.

Lemma performed_ct_bytes :
  QueueStore.total_bytes (queues (app s')) + incoming_bytes w' ≤ GLOBAL_QUEUE_DISK_CAP_BYTES + MAX_THREADS * MAX_FRAME_BYTES.
Proof.
  pose proof (ct_bytes _ (so_counts _ _ HI)) as Hb. pose proof performed_total as Ht.
  pose proof (fs_enqueue _ _ _ _ (proj1 performed_fits)) as He. pose proof (performed_debt enqueuing) as Hd.
  pose proof performed_sees as Hs.
  assert (debt enqueuing w' ≤ MAX_THREADS * MAX_FRAME_BYTES) as Hall.
  { apply debt_bounded; [|done]. intros who' p Hp. by apply (performed_running who' p). }
  rewrite enqueuing_grows in Hd. unfold incoming_bytes in *.
  assert (enqueuing (k v) = 0 → QueueStore.total_bytes (queues (app s')) + debt enqueuing w'
    ≤ GLOBAL_QUEUE_DISK_CAP_BYTES + MAX_THREADS * MAX_FRAME_BYTES) as Hzero by lia.
  destruct o; simpl in He; try by apply Hzero.
  destruct v; [by apply Hzero|]. clear Hzero.
  assert (QueueStore.total_bytes (queues (world w)) ≤ GLOBAL_QUEUE_DISK_CAP_BYTES) as Hcap.
  { simpl in Hs. symmetry in Hs. unfold QueueStore.would_exceed_global in Hs.
    apply Z.ltb_ge in Hs. pose proof (enqueuing_nonneg (k false)). unfold sat_add, u64_max, GLOBAL_QUEUE_DISK_CAP_BYTES in *. lia. }
  simpl in Ht. lia.
Qed.

Lemma performed_ct_bundles :
  Z.of_nat (size (bundles (app s'))) + incoming_bundles w' ≤ MAX_BUNDLES + MAX_THREADS.
Proof.
  pose proof (ct_bundles _ (so_counts _ _ HI)) as Hb. pose proof performed_bundles as He.
  pose proof (fs_insert _ _ _ _ (proj1 performed_fits)) as Hi.
  pose proof (performed_debt (λ p, if inserting p then 1 else 0)) as Hd. pose proof performed_sees as Hs.
  assert (debt (λ p, if inserting p then 1 else 0) w' ≤ MAX_THREADS * 1) as Hall.
  { apply debt_bounded; [|done]. intros who' p _. by destruct (inserting p). }
  unfold incoming_bundles in *. cbn beta in Hd.
  assert (bundles (app s') = bundles (world w) → (inserting (k v) = true → inserting (Do o k) = true) →
    Z.of_nat (size (bundles (app s'))) + debt (λ p, if inserting p then 1 else 0) w' ≤ MAX_BUNDLES + MAX_THREADS) as Hstill.
  { intros -> H. rewrite Hd. destruct (inserting (k v)), (inserting (Do o k)); lia. }
  destruct o; try (by apply Hstill).
  - simpl in He, Hi. destruct v; [|by apply Hstill]. rewrite He, Hd, map_size_delete.
    simpl. destruct (inserting (k true)); [by specialize (Hi eq_refl)|]. destruct (bundles (world w) !! bundle_id); simpl; lia.
  - simpl in He, Hi. rewrite He. destruct (inserting (k v)) eqn:Hk; [|simpl in Hd; rewrite ?Hk in Hd; lia].
    simpl in Hs. specialize (Hi eq_refl). lia.
  - simpl in He, Hi. rewrite He, Hd. simpl. rewrite Hi.
    destruct (decide (is_Some (bundles (world w) !! bundle_key bundle))) as [Hk|Hk%eq_None_not_Some].
    + rewrite map_size_insert_Some by done. lia.
    + rewrite map_size_insert_None by done. lia.
Qed.

Lemma performed_counts : Counts w'.
Proof.
  pose proof (so_counts _ _ HI) as [_ H2 H3 _ _].
  split; [apply performed_ct_mailboxes| | |apply performed_ct_bundles|apply performed_ct_bytes].
  - rewrite performed_sockets. simpl. assert (conn_count (app s') = conn_count (world w)) as ->; [|done].
    by apply (performed_always (λ s', conn_count (app s') = conn_count (world w))), perform_conn_count.
  - by rewrite performed_sockets.
Qed.

(** ** What it has learned *)

Lemma conn_rid rid : recipient_id c = Some rid → valid_recipient_id rid = true.
Proof. destruct who as [chan|t]; simpl in Hc; [by apply (so_rid _ _ HI chan)|by injection Hc as <-]. Qed.

Lemma has_performed P who' :
  has P (past who' (tr ++ [mom])) → has P (past who' tr) ∨ P (answered o v).
Proof.
  rewrite (past_performed _ _ _ _ _ _ _ _ _ _ Hw Hc Hperf). case_decide; [|by left]. intros [Hin|Hin]%Exists_app; subst; [by left|].
  right. by apply Exists_cons in Hin as [Hin|Hin%Exists_nil].
Qed.

Lemma performed_learned : Learned (tr ++ [mom]).
Proof.
  pose proof (so_learned _ _ HI) as [H1 H2 H3 H4]. pose proof performed_sees as Hs. pose proof performed_orderly as Ho.
  pose proof conn_rid as Hrid. pose proof (co_auths _ (so_core _ _ HI)) as Hwf. pose proof valid_recipient_no_colon as Hv.
  split; intros who' rid Hin; apply has_performed in Hin as [Hin|Hsay]; eauto; clear Hperf;
    destruct o; simpl in Hsay; try done; simpl in Hs, Ho.
  - apply Hrid. congruence.
  - by destruct Hsay as [<- _].
  - subst v. unfold gc_candidates in Hsay.
    apply list_elem_of_fmap in Hsay as ([rid' x] & -> & [_ Hx%elem_of_map_to_list]%list_elem_of_filter). by apply (Hwf _ _ Hx).
  - destruct Hsay as [<- _], Ho as [Ho _]. eauto.
Qed.

Lemma performed_rid chan c' rid :
  sockets w' !! chan = Some c' → recipient_id c' = Some rid → valid_recipient_id rid = true.
Proof.
  intros Hsk Hr. assert (sockets w !! chan = Some c' ∨ c' = conn s') as [Hold| ->].
  { destruct who as [chan'|t]; simpl in Hsk; [|by left]. apply lookup_insert_Some in Hsk as [[_ <-]|[_ ?]]; auto. }
  { by apply (so_rid _ _ HI chan c'). }
  pose proof performed_conn as Hcn. pose proof performed_orderly as Ho. pose proof conn_rid as Hrid.
  pose proof (le_entered _ (so_learned _ _ HI) who) as He.
  clear Hperf. destruct o; simpl in Hcn, Ho; try (apply Hrid; congruence). apply He. congruence.
Qed.

Lemma performed_sound : Sound (tr ++ [mom]) w'.
Proof.
  split; [apply performed_tracked|apply performed_running|apply performed_core|apply performed_counts
         |apply performed_learned|apply performed_rid].
Qed.
End Performed.

Section Histories.
Context {RD : Redb} {UL : UuidLib} {LS : LibSignal} {HS : Hashing} {B6 : Base64} {JS : Json}.
Context {SV : Serde QueueStore.StoredValue} {SM : Serde FileStore.FileMeta}.
Context {SA : Serde MailboxAuth} {SB : Serde HostedBundle}.
Implicit Types (w : Threads) (tr : list Moment) (a : AppState).

Lemma sound_move tr w m i w' i' :
  Sound tr w → ready w m → move_pre w m i → move (E := Empty_set) m w i = (inr tt, w', i') →
  Sound (tr ++ [{| at_ := w; moved := m; calls := i |}]) w'.
Proof.
  intros HI Hr Hpre Hm. pose proof (tk_placed _ _ (so_tracked _ _ HI)) as HP.
  destruct (move_seen _ _ _ _ _ HP Hr Hm) as [-> _ -> | -> _ -> |n -> _ -> |who p Hn Hst _ _ _ _ _ _|who more -> Hw _|who A o k c v s' i1 -> Hw Hc Hperf Hpl ->].
  - by eapply sound_still.
  - by eapply sound_still.
  - by eapply sound_still.
  - eapply sound_still; [done..|]. intros who' A o k -> _.
    by specialize (Hst {| at_ := w; moved := Ran who'; calls := i |} eq_refl eq_refl).
  - eapply sound_still; [done..|]. intros who' A o k [= ->]. congruence.
  - eapply performed_sound; try done. simpl in Hpre. by rewrite Hw in Hpre.
Qed.

Lemma history_sound a tr w : started a → history (quiet_threads a) tr w → Sound tr w.
Proof.
  intros Ha. remember (quiet_threads a) as w0. induction 1 as [|tr w m i w' i' _ IH Hr Hpre Hm]; subst; [by apply sound_start|].
  eapply sound_move; [by apply IH|done..].
Qed.
End Histories.
