(* ===== verification/ThreadsTypes.v ===== *)
(** The machine integers of the relay stay within their types.

    [typed] lists every integer of the shared state and of the connections with
    its width.  Every operation of every thread keeps them so. *)
From Stdlib Require Import ZArith Lia Ascii String.
From stdpp Require Import base gmap strings list.
From S2P Require Import Prelude Redb RustStd Config Util Protocol Mailbox Signal State StateFacts StateOps Ws WsFacts.
From S2P Require Import WsRuns WsFrames Relay Steps Threads StepsOrder StepsShape StepsDuties StepsStores.
From S2P Require Import ThreadsFacts ThreadsSound.
From S2P Require QueueStore.
From S2P Require QueueFacts.
From S2P Require FileStore.
From S2P Require FileFacts.
From S2P Require MetaStore.

Section Types.
Context {RD : Redb} {UL : UuidLib} {LS : LibSignal} {HS : Hashing} {B6 : Base64} {JS : Json}.
Context {SV : Serde QueueStore.StoredValue} {SM : Serde FileStore.FileMeta}.
Context {SA : Serde MailboxAuth} {SB : Serde HostedBundle}.
Implicit Types (w : Threads) (s : Session) (a : AppState).
Abbreviation Who := (ClientTx + Task)%type.

Definition is_u32 (z : Z) : Prop := 0 ≤ z ≤ u32_max.

Definition typed_auths (m : gmap RecipientId MailboxAuth) : Prop := ∀ rid x, m !! rid = Some x → is_u64 (last_active_ms x).

Definition typed_bundles (m : gmap string HostedBundle) : Prop :=
  ∀ id b, m !! id = Some b → is_u64 (bundle_created_at_ms b) ∧ is_u64 (bundle_expires_at_ms b).

Definition typed_rates (m : gmap RecipientId (Z * Z)) : Prop := ∀ to e, m !! to = Some e → is_u64 e.1 ∧ is_u32 e.2.

Definition typed_conn (c : Conn) : Prop := is_u64 (window_start_ms c) ∧ is_u32 (frame_count c).

(** What the operations keep by themselves. *)
Record typed_app a : Prop := {
  ty_auths : typed_auths (mailbox_auth a);
  ty_bundles : typed_bundles (bundles a);
  ty_rates : typed_rates (send_rate a);
  ty_bytes : is_u64 (total_bundle_bytes a);
  ty_prune : is_u64 (last_bundle_prune_ms a);
}.

Record typed w : Prop := {
  ty_app : typed_app (world w);
  ty_conns : ∀ chan c, sockets w !! chan = Some c → typed_conn c;
  ty_counts : is_u64 (mailbox_count (world w)) ∧ is_u64 (conn_count (world w));
  ty_queues : is_u64 (QueueStore.total_bytes (queues (world w))) ∧ is_u64 (QueueStore.next_seq (queues (world w)));
  ty_files : is_u64 (FileStore.reserved_bytes (files (world w))) ∧ is_u64 (FileStore.transfer_count (files (world w)));
}.

Lemma activity_range i : is_u64 (next_activity i).
Proof.
  unfold next_activity. pose proof (wrap64_range (clock_reading i)) as [H1 H2].
  pose proof (Z.mod_pos_bound (next_now i) MAILBOX_ACTIVITY_GRANULARITY_MS ltac:(done)).
  pose proof (Z.mod_le (next_now i) MAILBOX_ACTIVITY_GRANULARITY_MS H1 ltac:(done)). unfold is_u64. lia.
Qed.

Lemma typed_insert m rid x : typed_auths m → is_u64 (last_active_ms x) → typed_auths (<[rid := x]> m).
Proof. intros Hm Hx rid' x' [[_ <-]|[_ ?]]%lookup_insert_Some; [done|by eapply Hm]. Qed.

Lemma typed_delete m rid : typed_auths m → typed_auths (delete rid m).
Proof. intros Hm rid' x' [_ ?]%lookup_delete_Some. by eapply Hm. Qed.

Lemma ensure_active h x : last_active_ms (ensure_delivery_hash h x).2 = last_active_ms x.
Proof. unfold ensure_delivery_hash. by case_bool_decide. Qed.

Context {E : Type}.

Lemma enter_typed rid h dh pow a i :
  typed_auths (mailbox_auth a) → wp (enter_mailbox (E := E) rid h dh pow) (λ _ a' _, typed_auths (mailbox_auth a')) a i.
Proof.
  intros Ha. unfold enter_mailbox. do 2 wp_step. destruct (mailbox_auth a !! rid) as [x|].
  - destruct (negb _); [by wp_step|]. wp_step. apply wp_now_activity. cbn beta iota zeta. wp_steps.
    apply typed_insert; [done|]. rewrite ensure_active. apply activity_range.
  - wp_step. apply wp_pow. intros i1 Hi1. cbn beta iota. destruct (negb _); [by wp_step|].
    wp_step. unfold reserve_mailbox_slot. do 2 wp_step. cbv zeta. destruct (_ <=? _); [wp_step; by wp_step|].
    do 3 wp_step. cbn [negb]. cbn beta iota. wp_step. unfold new_mailbox. wp_step. apply wp_now_activity. cbn beta iota. wp_steps.
    apply typed_insert; [done|]. apply activity_range.
Qed.

Lemma perform_auth_types {A} (o : op A) s i :
  typed_auths (mailbox_auth (app s)) → wp (perform (E := E) o) (λ _ s' _, typed_auths (mailbox_auth (app s'))) s i.
Proof.
  intros Ha.
  destruct o; try (apply (same_wp (λ s, mailbox_auth (app s))); [solve [leaves]|by intros r s' i' ->]).
  - simpl. apply wp_on_app. eapply wp_conseq; [by apply enter_typed|]. done.
  - simpl. apply wp_on_app. unfold replace_tokens. do 2 wp_step. destruct (mailbox_auth (app s) !! rid) as [x|] eqn:Hx; wp_steps; [|done].
    apply typed_insert; [done|]. by apply (Ha _ _ Hx).
  - simpl. apply wp_on_app, wp_authorize; [done|]. intros x Hx _. apply typed_insert; [done|]. apply activity_range.
  - simpl. apply wp_on_app. unfold remove_mailbox. do 2 wp_step. destruct (mailbox_auth (app s) !! rid); wp_steps; [by apply typed_delete|done].
  - simpl. apply wp_on_app. unfold remove_idle. do 2 wp_step. cbv zeta. destruct (mailbox_auth (app s) !! rid); [|by wp_step].
    destruct (_ && _); wp_steps; [by apply typed_delete|done].
Qed.

Lemma perform_bundle_types {A} (o : op A) s i h :
  orderly h o → typed_bundles (bundles (app s)) → wp (perform (E := E) o) (λ r s' _, ∀ v, r = inr v → typed_bundles (bundles (app s'))) s i.
Proof.
  intros Ho Hb. eapply wp_conseq; [apply perform_bundles|]. cbn beta. intros r s' i' He v Hv. specialize (He v Hv). clear Hv.
  destruct o; simpl in He, Ho; try (by rewrite He).
  - destruct v; rewrite He; [|done]. intros id b [_ ?]%lookup_delete_Some. by eapply Hb.
  - rewrite He. intros id b [[_ <-]|[_ ?]]%lookup_insert_Some; [tauto|by eapply Hb].
Qed.

Lemma rate_step_typed now e e' ok :
  is_u64 now → (∀ x, e = Some x → is_u64 x.1 ∧ is_u32 x.2) → rate_step now e = (e', ok) → is_u64 e'.1 ∧ is_u32 e'.2.
Proof.
  intros Hn He. assert (is_u64 (default (now, 0) e).1 ∧ is_u32 (default (now, 0) e).2) as Hd.
  { destruct e as [x|]; [by apply He|]. by split. }
  unfold rate_step. destruct (default (now, 0) e) as [start count]. destruct (_ <? _); [by intros [= <- _]|].
  destruct (_ <=? _); intros [= <- _]; [done|]. split; [apply Hd|]. unfold wrap32, is_u32, u32_max. simpl.
  pose proof (Z.mod_pos_bound (count + 1) (2 ^ 32)). lia.
Qed.

Lemma perform_rate_types {A} (o : op A) s i :
  typed_rates (send_rate (app s)) → wp (perform (E := E) o) (λ _ s' _, typed_rates (send_rate (app s'))) s i.
Proof.
  intros Hr.
  destruct o; try (apply (same_wp (λ s, send_rate (app s))); [solve [leaves]|by intros r s' i' ->]).
  - simpl. apply wp_on_app, wp_allow. intros e ok Hstep. simpl. intros to' e' [[_ <-]|[_ ?]]%lookup_insert_Some; [|by eapply Hr].
    eapply rate_step_typed; [apply wrap64_range| |exact Hstep]. intros x Hx. by eapply Hr.
  - simpl. apply wp_on_app. wp_step. simpl. intros to e [_ ?]%lookup_delete_Some. by eapply Hr.
Qed.

Lemma perform_byte_types {A} (o : op A) s i h :
  orderly h o → is_u64 (total_bundle_bytes (app s)) →
  wp (perform (E := E) o) (λ _ s' _, is_u64 (total_bundle_bytes (app s'))) s i.
Proof.
  intros Ho Hb. destruct o; try (apply (same_wp (λ s, total_bundle_bytes (app s))); [solve [leaves]|by intros r s' i' ->]);
    simpl; apply wp_on_app; wp_step; simpl.
  - apply wrap64_range.
  - simpl in Ho. destruct Hb. unfold atomic_sub_saturating, sat_sub, is_u64. lia.
Qed.

Lemma perform_prune_types {A} (o : op A) s i h :
  orderly h o → is_u64 (last_bundle_prune_ms (app s)) →
  wp (perform (E := E) o) (λ _ s' _, is_u64 (last_bundle_prune_ms (app s'))) s i.
Proof.
  intros Ho Hb. destruct o; try (apply (same_wp (λ s, last_bundle_prune_ms (app s))); [solve [leaves]|by intros r s' i' ->]).
  simpl. apply wp_on_app. by wp_step.
Qed.

Lemma perform_window {A} (o : op A) s i :
  is_u64 (window_start_ms (conn s)) → wp (perform (E := E) o) (λ _ s' _, is_u64 (window_start_ms (conn s'))) s i.
Proof.
  intros Hc. destruct o; try (apply (same_wp (λ s, window_start_ms (conn s))); [solve [leaves]|by intros r s' i' ->]).
  simpl. wp_step. apply wp_now_ms. cbn beta iota. do 4 wp_step. simpl. unfold count_frame.
  destruct (_ <? _); wp_step; simpl; [apply wrap64_range|done].
Qed.

Lemma perform_frame_count {A} (o : op A) s i :
  is_u32 (frame_count (conn s)) → wp (perform (E := E) o) (λ _ s' _, is_u32 (frame_count (conn s'))) s i.
Proof.
  intros Hc. destruct o; try (apply (same_wp (λ s, frame_count (conn s))); [solve [leaves]|by intros r s' i' ->]).
  simpl. wp_step. apply wp_now_ms. cbn beta iota. do 4 wp_step. simpl. unfold count_frame.
  destruct (_ <? _); wp_step; simpl; unfold is_u32, u32_max in *; lia.
Qed.
End Types.

Section Histories.
Context {RD : Redb} {UL : UuidLib} {LS : LibSignal} {HS : Hashing} {B6 : Base64} {JS : Json}.
Context {SV : Serde QueueStore.StoredValue} {SM : Serde FileStore.FileMeta}.
Context {SA : Serde MailboxAuth} {SB : Serde HostedBundle}.
Implicit Types (w : Threads) (tr : list Moment) (a : AppState).

(** The parts whose ranges are in [Sound] already. *)
Lemma sound_typed tr w :
  Sound tr w → typed_app (world w) → (∀ chan c, sockets w !! chan = Some c → typed_conn c) → typed w.
Proof.
  intros HI Happ Hconn. pose proof (so_counts _ _ HI) as [[H1 H2] [H3 H4] H5 _ _].
  pose proof (so_core _ _ HI) as [Hq [Hf Hcaps] _ _ _].
  assert (0 ≤ uncounted w) by apply debt_nonneg, uncounting_nonneg.
  split; [done|done|..].
  - unfold is_u64, u64_max, MAX_LEAVING, MAX_CONNECTIONS, MAX_MAILBOXES in *. lia.
  - split; [|apply (QueueFacts.inv_next _ Hq)]. destruct (QueueFacts.inv_total _ Hq) as [-> Ht].
    pose proof (QueueFacts.bytes_le_total EmptyString (QueueFacts.entries (queues (world w)))). unfold is_u64. lia.
  - split.
    + destruct (FileFacts.inv_reserved _ Hf) as [-> Ht]. split; [|done]. apply msum_nonneg. intros id m Hm.
      by eapply FileFacts.stored_nonneg; [apply (FileFacts.inv_wf _ Hf)|].
    + destruct (FileFacts.inv_count _ Hf) as [-> Ht]. unfold is_u64. lia.
Qed.

Lemma performed_app tr w who {A} (o : op A) k c v s' i i1 :
  Sound tr w → running w !! who = Some (Do o k) → perform (E := Empty_set) o (thread_session c w) i = (inr v, s', i1) →
  typed_app (world w) → typed_app (app s').
Proof.
  intros HI Hw Hperf [H1 H2 H3 H4 H5]. pose proof (performed_orderly _ _ _ _ _ _ HI Hw) as Ho. split.
  - apply (performed_always _ _ _ _ _ _ _ _ Hperf (λ s', typed_auths (mailbox_auth (app s')))). by apply perform_auth_types.
  - apply (performed_wp _ _ _ _ _ _ _ _ Hperf (λ _ s', typed_bundles (bundles (app s')))). by eapply perform_bundle_types.
  - apply (performed_always _ _ _ _ _ _ _ _ Hperf (λ s', typed_rates (send_rate (app s')))). by apply perform_rate_types.
  - apply (performed_always _ _ _ _ _ _ _ _ Hperf (λ s', is_u64 (total_bundle_bytes (app s')))). by eapply perform_byte_types.
  - apply (performed_always _ _ _ _ _ _ _ _ Hperf (λ s', is_u64 (last_bundle_prune_ms (app s')))). by eapply perform_prune_types.
Qed.

Lemma performed_own_conn w {A} (o : op A) c v s' i i1 :
  perform (E := Empty_set) o (thread_session c w) i = (inr v, s', i1) → typed_conn c → typed_conn (conn s').
Proof.
  intros Hperf [H1 H2]. split.
  - apply (performed_always _ _ _ _ _ _ _ _ Hperf (λ s', is_u64 (window_start_ms (conn s')))). by apply perform_window.
  - apply (performed_always _ _ _ _ _ _ _ _ Hperf (λ s', is_u32 (frame_count (conn s')))). by apply perform_frame_count.
Qed.

(** The part of [typed] that is not in [Sound]. *)
Definition typed_parts w : Prop := typed_app (world w) ∧ ∀ chan c, sockets w !! chan = Some c → typed_conn c.

Lemma typed_move tr w m i w' i' :
  Sound tr w → ready w m → move (E := Empty_set) m w i = (inr tt, w', i') → typed_parts w → typed_parts w'.
Proof.
  intros HI Hr Hm [Ha Hcn]. pose proof (tk_placed _ _ (so_tracked _ _ HI)) as HP.
  destruct (move_seen _ _ _ _ _ HP Hr Hm) as [-> _ -> | -> _ -> |n -> _ -> |who p Hn _ _ _ _ _ _ ->|who more -> Hw ->|who A o k c v s' i1 -> Hw Hc Hperf Hpl ->].
  - split; [by destruct Ha|]. simpl. intros chan c [[_ <-]|[_ ?]]%lookup_insert_Some; [|by eapply Hcn].
    split; [apply wrap64_range|done].
  - split; [by destruct Ha|done].
  - split; [by destruct Ha|done].
  - done.
  - split; [by rewrite finish_world|]. intros chan c. destruct who as [chan'|t], more; simpl; try apply Hcn.
    intros [_ ?]%lookup_delete_Some. by eapply Hcn.
  - split; [by eapply performed_app|]. intros chan c'. destruct who as [chan'|t]; simpl; [|apply Hcn].
    intros [[_ <-]|[_ ?]]%lookup_insert_Some; [|by eapply Hcn]. eapply performed_own_conn; [exact Hperf|by eapply Hcn].
Qed.

Lemma history_typed a tr w :
  started a → typed_app a → history (quiet_threads a) tr w → typed_parts w.
Proof.
  intros Ha Ht Hh. remember (quiet_threads a) as w0. induction Hh as [|tr w m i w' i' Hh IH Hr Hpre Hm]; subst.
  - by split.
  - eapply typed_move; [by eapply history_sound|exact Hr|exact Hm|by apply IH].
Qed.
End Histories.
