(* ===== verification/ThreadsWhy.v ===== *)
(** Why routes, envelopes and replies are there, whatever the threads interleave;
    then the write-back and the send limit.

    [Earned]: a registration, a route and an envelope on a socket go back to an
    operation in which that socket's thread entered the mailbox; a [SendOk] to one
    in which the message went out or into the queue. *)
From Stdlib Require Import ZArith Lia Ascii String.
From stdpp Require Import base gmap strings list.
From S2P Require Import Prelude Redb RustStd Config Util Protocol Mailbox Signal State StateFacts StateOps Ws WsFacts.
From S2P Require Import WsRuns WsFrames Relay Steps Threads StepsOrder StepsShape StepsDuties StepsStores StepsSettle.
From S2P Require Import ThreadsFacts ThreadsSound.
From S2P Require QueueStore.
From S2P Require QueueSpec.
From S2P Require FileStore.
From S2P Require MetaStore.

Section Why.
Context {RD : Redb} {UL : UuidLib} {LS : LibSignal} {HS : Hashing} {B6 : Base64} {JS : Json}.
Context {SV : Serde QueueStore.StoredValue} {SM : Serde FileStore.FileMeta}.
Context {SA : Serde MailboxAuth} {SB : Serde HostedBundle}.
Implicit Types (w : Threads) (tr : list Moment) (a : AppState).
Abbreviation Who := (ClientTx + Task)%type.

(** The threads after a moment. *)
Definition after (mom : Moment) : Threads := (move (E := Empty_set) (moved mom) (at_ mom) (calls mom)).1.2.

(** The mailbox was entered with the hash [h]. *)
Definition says_entered_as (rid h : string) (d : Answered) : Prop :=
  match d with
  | answered o v =>
      match o in op A return A → Prop with
      | Enter rid' h' _ _ => λ v, rid' = rid ∧ h' = h ∧ is_inr v
      | _ => λ _, False
      end v
  end.

(** The socket entered the mailbox, with the hash of its owner if it had one. *)
Definition entered_in (chan : ClientTx) (rid : string) (mom : Moment) : Prop :=
  ∃ d h, did (inl chan) mom = Some d ∧ says_entered_as rid h d
    ∧ ∀ x, mailbox_auth (world (at_ mom)) !! rid = Some x → receive_auth_hash x = h.

(** A copy of the message with this id went out on a live channel, or is in the
    queue of its mailbox. *)
Definition handed (id : Uuid) (mom : Moment) : Prop :=
  ∃ env, env_id env = id
    ∧ ((∃ live, (live, Envelope env) ∈ wire (after mom))
       ∨ ∃ now, QueueSpec.message_of env now ∈ QueueSpec.abs (queues (world (after mom))) (env_to env)).

Definition handed_by (chan : ClientTx) (id : Uuid) (mom : Moment) : Prop :=
  moved mom = Ran (inl chan) ∧ handed id mom.

(** The thread read [now] from the clock. *)
Definition clock_in (who : Who) (now : Z) (mom : Moment) : Prop :=
  ∃ d, did who mom = Some d ∧ says_clock now d ∧ now = next_now (calls mom).

(** The garbage collection removed the mailbox: with no socket online, and idle
    for longer than the TTL at a time it had read from the clock. *)
Definition collected (rid : string) (tr : list Moment) : Prop :=
  ∃ before mom rest who now x, tr = before ++ mom :: rest
    ∧ did who mom = Some (answered (RemoveIdle now rid) true) ∧ Exists (clock_in who now) before
    ∧ mailbox_auth (world (at_ mom)) !! rid = Some x ∧ idle now x = true ∧ online (world (at_ mom)) !! rid = None.

Record Earned tr w : Prop := {
  ea_conn : ∀ chan c rid, sockets w !! chan = Some c → recipient_id c = Some rid → Exists (entered_in chan rid) tr;
  ea_route : ∀ m chan, online (world w) !! m = Some chan → Exists (entered_in chan m) tr;
  ea_wire : ∀ chan env, (chan, Envelope env) ∈ wire w → Exists (entered_in chan (env_to env)) tr;
  ea_ok : ∀ chan id cr q, (chan, SendOk id cr q) ∈ wire w → Exists (handed_by chan id) tr;
  ea_entered : ∀ who rid, has (says_entered rid) (past who tr) → ∃ chan, who = inl chan ∧ Exists (entered_in chan rid) tr;
  ea_me : ∀ who rid, has (says_me rid) (past who tr) → ∃ chan, who = inl chan ∧ Exists (entered_in chan rid) tr;
  ea_safe : ∀ who id, has (says_safe id) (past who tr) → ∃ chan, who = inl chan ∧ Exists (handed_by chan id) tr;
  ea_collected : ∀ who rid, has (says_collected rid) (past who tr) → collected rid tr;
}.

Lemma exists_more tr mom (P : Moment → Prop) : Exists P tr → Exists P (tr ++ [mom]).
Proof. intros H. apply Exists_app. by left. Qed.

Lemma collected_more tr mom rid : collected rid tr → collected rid (tr ++ [mom]).
Proof.
  intros (before & m & rest & who & now & x & -> & H). exists before, m, (rest ++ [mom]), who, now, x.
  split; [by rewrite <- app_assoc|done].
Qed.

(** What the clock said to a thread is the reading of that operation's script. *)
Lemma did_clock who mom d now : did who mom = Some d → says_clock now d → clock_in who now mom.
Proof.
  intros Hd Hs. exists d. split; [done|]. split; [done|]. unfold did in Hd.
  destruct (moved mom) as [| | | |who']; try done. case_decide; [|done].
  destruct (running (at_ mom) !! who) as [[more|B o k]|]; try done. destruct (conn_of who (at_ mom)) as [c|]; [|done].
  unfold answer_of in Hd. destruct (perform o (thread_session c (at_ mom)) (calls mom)) as [[[e|v] s'] i'] eqn:Hp; [done|].
  injection Hd as <-. destruct o; simpl in Hs; try done. subst v. simpl in Hp. unfold now_ms, read_clock in Hp.
  by injection Hp.
Qed.

Lemma has_clock who tr now : has (says_clock now) (past who tr) → Exists (clock_in who now) tr.
Proof. intros (mom & d & Hin & Hd & Hs)%has_in. apply Exists_exists. exists mom. split; [done|by eapply did_clock]. Qed.

Lemma exists_last tr mom (P : Moment → Prop) : P mom → Exists P (tr ++ [mom]).
Proof. intros H. apply Exists_app. right. by constructor. Qed.

Lemma exists_who (P : ClientTx → Moment → Prop) tr mom (who : Who) :
  (∃ chan, who = inl chan ∧ Exists (P chan) tr) → ∃ chan, who = inl chan ∧ Exists (P chan) (tr ++ [mom]).
Proof. intros (chan & -> & H). exists chan. split; [done|by apply exists_more]. Qed.

Lemma earned_start a : online a = ∅ → Earned [] (quiet_threads a).
Proof.
  intros Ho. split; simpl; rewrite ?Ho; try done; try (by intros ? ? ?%elem_of_nil); try (by intros ? ? ? ? ?%elem_of_nil);
    intros who ? H; inversion H.
Qed.

(** A move that is no operation: nothing new on the wire, no new route, sockets
    that are registered for nothing. *)
Lemma earned_still tr w mom w' :
  (∀ who, did who mom = None) → online (world w') = online (world w) → wire w' = wire w →
  (∀ chan c rid, sockets w' !! chan = Some c → recipient_id c = Some rid → sockets w !! chan = Some c) →
  Earned tr w → Earned (tr ++ [mom]) w'.
Proof.
  intros Hd Ho Hwr Hs [H1 H2 H3 H4 H5 H6 H7 H8]. split.
  - intros chan c rid Hc Hr. eapply exists_more, H1; [by eapply Hs|done].
  - intros m chan. rewrite Ho. intros H. by apply exists_more, H2.
  - intros chan env. rewrite Hwr. intros H. by apply exists_more, H3.
  - intros chan id cr q. rewrite Hwr. intros H. by eapply exists_more, H4.
  - intros who rid H%has_shrinks; [|done]. by apply exists_who, H5.
  - intros who rid H%has_shrinks; [|done]. by apply exists_who, H6.
  - intros who rid H%has_shrinks; [|done]. by apply exists_who, H7.
  - intros who rid H%has_shrinks; [|done]. by eapply collected_more, H8.
Qed.
End Why.

Section Performed.
Context {RD : Redb} {UL : UuidLib} {LS : LibSignal} {HS : Hashing} {B6 : Base64} {JS : Json}.
Context {SV : Serde QueueStore.StoredValue} {SM : Serde FileStore.FileMeta}.
Context {SA : Serde MailboxAuth} {SB : Serde HostedBundle}.
Abbreviation Who := (ClientTx + Task)%type.
Context (tr : list Moment) (w : Threads) (who : Who) (A : Type) (o : op A) (k : A → Steps bool) (c : Conn).
Context (v : A) (s' : Session) (i i1 : io).
Context (HI : Sound tr w) (HE : Earned tr w) (Hw : running w !! who = Some (Do o k)) (Hc : conn_of who w = Some c).
Context (Hperf : perform (E := Empty_set) o (thread_session c w) i = (inr v, s', i1)).
Context (Hpl : plausible o v) (Hpre : op_pre o (world w) i).

Abbreviation mom := {| at_ := w; moved := Ran who; calls := i |}.
Abbreviation w' := (advance who (k v) s' w).

Lemma performed_after : after mom = w'.
Proof.
  unfold after. simpl. unfold ran, mbind, M_bind, get. rewrite Hw, Hc. unfold with_state. by rewrite Hperf.
Qed.

Lemma performed_duty : duty (duty_of who) o = true.
Proof. apply (tk_only _ _ (so_tracked _ _ HI) _ _ Hw). Qed.

(** A connection's thread works with its own channel. *)
Lemma performed_tx chan : who = inl chan → tx c = chan.
Proof.
  clear Hpl Hpre. intros ->. by apply (pl_tx _ (tk_placed _ _ (so_tracked _ _ HI)) _ _ Hc).
Qed.

Lemma performed_did : did who mom = Some (answered o v).
Proof. by eapply did_performed. Qed.

Lemma performed_sent : ∃ l, wire w' = wire w ++ l ∧ sent_effect o c (world w) l v.
Proof.
  assert (∃ l, sent s' = [] ++ l ∧ sent_effect o c (world w) l v) as (l & Hl & He).
  { apply (performed_wp _ _ _ _ _ _ _ _ Hperf (λ v s', ∃ l, sent s' = [] ++ l ∧ sent_effect o c (world w) l v)), perform_sent. }
  exists l. split; [|done]. simpl. by rewrite Hl.
Qed.

Lemma exists_past (P : Answered → Prop) (Q : ClientTx → Moment → Prop) :
  (∀ who', has P (past who' tr) → ∃ chan, who' = inl chan ∧ Exists (Q chan) tr) →
  (P (answered o v) → ∃ chan, who = inl chan ∧ Exists (Q chan) (tr ++ [mom])) →
  ∀ who', has P (past who' (tr ++ [mom])) → ∃ chan, who' = inl chan ∧ Exists (Q chan) (tr ++ [mom]).
Proof.
  intros Hold Hnew who'. rewrite (past_performed _ _ _ _ _ _ _ _ _ _ Hw Hc Hperf). case_decide as Hd; [subst|].
  - intros [Hh|[Hh|Hh%Exists_nil]%Exists_cons]%Exists_app; [by apply exists_who, Hold|by apply Hnew|done].
  - intros Hh. by apply exists_who, Hold.
Qed.

(** ** What it does that is new *)

Lemma performed_enters rid : says_entered rid (answered o v) → ∃ chan, who = inl chan ∧ Exists (entered_in chan rid) (tr ++ [mom]).
Proof.
  pose proof (performed_auth _ _ _ _ _ _ _ _ _ HI Hperf) as Ha. pose proof performed_did as Hd. pose proof performed_duty as Hdu.
  clear Hperf. destruct o; simpl; try done. intros [<- Hv]. destruct v; [done|].
  destruct who as [chan|t]; [|by destruct t]. exists chan. split; [done|]. apply exists_last.
  eexists _, auth_hash. split_and!; [done|done|]. simpl. intros x Hx. destruct Ha as (y & _ & _ & _ & H). by rewrite Hx in H.
Qed.

Lemma conn_earned rid : recipient_id c = Some rid → ∃ chan, who = inl chan ∧ Exists (entered_in chan rid) (tr ++ [mom]).
Proof.
  intros Hr. destruct who as [chan|t]; simpl in Hc; [|by injection Hc as <-].
  exists chan. split; [done|]. eapply exists_more, (ea_conn _ _ HE); done.
Qed.

Lemma performed_says_me rid : says_me rid (answered o v) → ∃ chan, who = inl chan ∧ Exists (entered_in chan rid) (tr ++ [mom]).
Proof.
  pose proof (performed_sees _ _ _ _ _ _ _ _ Hperf) as Hs. pose proof conn_earned as Hce. clear Hperf.
  destruct o; simpl; try done. simpl in Hs. intros Hv. apply Hce. congruence.
Qed.

Lemma performed_hands id : says_safe id (answered o v) → ∃ chan, who = inl chan ∧ Exists (handed_by chan id) (tr ++ [mom]).
Proof.
  pose proof performed_after as Haf. pose proof performed_duty as Hdu. pose proof performed_sent as (l & Hl & Hse).
  pose proof (performed_queues _ _ _ _ _ _ _ _ _ _ _ HI Hw Hperf Hpl Hpre) as [_ Hq].
  pose proof (performed_orderly _ _ _ _ _ _ HI Hw) as Ho. intros Hsay.
  assert (∃ chan, who = inl chan) as [chan Hchan].
  { clear Hperf. destruct who as [chan|t]; [by eexists|]. destruct o; try done; by destruct t. }
  exists chan. split; [done|]. apply exists_last. split; [simpl; by rewrite Hchan|]. unfold handed. rewrite Haf. clear Hperf Haf.
  destruct o; simpl in Hsay; try done; destruct Hsay as [<- Hv]; exists env; (split; [done|]).
  - left. subst v. destruct Hse as (live & _ & ->). exists live. rewrite Hl. set_solver.
  - right. destruct v as [[e|n]|]; try done. simpl in Hq, Ho. destruct Hq as (_ & now & Hq), Ho as (Hto & _).
    exists now. simpl. rewrite Hto, Hq. set_solver.
Qed.

Lemma performed_collects rid : says_collected rid (answered o v) → collected rid (tr ++ [mom]).
Proof.
  pose proof (performed_auth _ _ _ _ _ _ _ _ _ HI Hperf) as Ha. pose proof performed_did as Hd.
  pose proof (performed_orderly _ _ _ _ _ _ HI Hw) as Ho.
  clear Hperf. destruct o; simpl; try done. intros [<- ->]. destruct Ha as (x & Hx & Hidle & Hon & _), Ho as [_ Hn].
  exists tr, mom, [], who, now, x. split_and!; try done. by apply has_clock.
Qed.

(** ** What it keeps *)

Lemma performed_earned : Earned (tr ++ [mom]) w'.
Proof.
  pose proof HE as [H1 H2 H3 H4 H5 H6 H7 H8].
  pose proof (performed_orderly _ _ _ _ _ _ HI Hw) as Ho. pose proof performed_tx as Htx. pose proof performed_duty as Hdu.
  assert (∀ rid, has (says_entered rid) (past who tr) → ∃ chan, who = inl chan ∧ Exists (entered_in chan rid) (tr ++ [mom])) as Hen.
  { intros rid Hh. by apply exists_who, H5. }
  split.
  - intros chan c' rid Hsk Hr. simpl in Hsk.
    assert (sockets w !! chan = Some c' ∨ who = inl chan ∧ c' = conn s') as [Hold|[Hwho ->]].
    { destruct who as [chan'|t]; simpl in Hsk; [|by left]. apply lookup_insert_Some in Hsk as [[-> <-]|[_ ?]]; auto. }
    { by eapply exists_more, H1. }
    pose proof (performed_conn _ _ _ _ _ _ _ _ Hperf) as Hcn. pose proof conn_earned as Hce. clear Hperf.
    assert (∃ chan', who = inl chan' ∧ Exists (entered_in chan' rid) (tr ++ [mom])) as (chan' & Heq & He); [|congruence].
    destruct o; simpl in Hcn, Ho; try (apply Hce; congruence). apply Hen. congruence.
  - intros m chan. simpl. assert (route_effect o c (world w) (online (app s'))) as Hr.
    { apply (performed_always _ _ _ _ _ _ _ _ Hperf (λ s', route_effect o c (world w) (online (app s')))), perform_routes. }
    clear Hperf. destruct o; simpl in Hr, Ho; try (rewrite Hr; intros H; by apply exists_more, H2).
    + rewrite Hr. intros [[<- <-]|[_ H]]%lookup_insert_Some; [|by apply exists_more, H2].
      destruct (Hen _ Ho) as (chan & Hwho & He). by rewrite (Htx _ Hwho).
    + rewrite Hr. intros [_ H]%lookup_delete_Some. by apply exists_more, H2.
  - pose proof performed_sent as (l & -> & Hse). clear Hperf. intros chan env [H|H]%elem_of_app; [by apply exists_more, H3|].
    destruct o; simpl in Hse, Ho; try (by subst l; apply elem_of_nil in H).
    + destruct v; subst l; [|by apply elem_of_nil in H]. apply list_elem_of_singleton in H as [= -> <-]. done.
    + destruct v; subst l; [|by apply elem_of_nil in H]. apply list_elem_of_singleton in H as [= -> <-].
      destruct (Hen _ Ho) as (chan & Hwho & He). by rewrite (Htx _ Hwho).
    + destruct v as [[]|]; [|by subst l; apply elem_of_nil in H|destruct Hse as [-> _]; by apply elem_of_nil in H].
      destruct Hse as (live & Hon & ->). apply list_elem_of_singleton in H as [= -> ->]. destruct Ho as [-> _].
      by apply exists_more, H2.
  - pose proof performed_sent as (l & -> & Hse). clear Hperf. intros chan id cr q [H|H]%elem_of_app; [by eapply exists_more, H4|].
    destruct o; simpl in Hse, Ho; try (by subst l; apply elem_of_nil in H).
    + destruct v; subst l; [|by apply elem_of_nil in H]. apply list_elem_of_singleton in H as [= -> <-].
      destruct (H7 _ _ Ho) as (chan & Hwho & He). rewrite (Htx _ Hwho). by apply exists_more.
    + destruct v; subst l; [|by apply elem_of_nil in H]. apply list_elem_of_singleton in H as [= -> <-]. done.
    + destruct v as [[]|]; [|by subst l; apply elem_of_nil in H|destruct Hse as [-> _]; by apply elem_of_nil in H].
      destruct Hse as (live & Hon & ->). by apply list_elem_of_singleton in H as [= -> ->].
  - intros who' rid. revert who'. apply exists_past; [intros who'; apply H5|apply performed_enters].
  - intros who' rid. revert who'. apply exists_past; [intros who'; apply H6|apply performed_says_me].
  - intros who' id. revert who'. apply exists_past; [intros who'; apply H7|apply performed_hands].
  - intros who' rid. rewrite (past_performed _ _ _ _ _ _ _ _ _ _ Hw Hc Hperf). case_decide.
    + intros [Hh|[Hh|Hh%Exists_nil]%Exists_cons]%Exists_app; [by eapply collected_more, H8|by apply performed_collects|done].
    + intros Hh. by eapply collected_more, H8.
Qed.
End Performed.

Section Histories.
Context {RD : Redb} {UL : UuidLib} {LS : LibSignal} {HS : Hashing} {B6 : Base64} {JS : Json}.
Context {SV : Serde QueueStore.StoredValue} {SM : Serde FileStore.FileMeta}.
Context {SA : Serde MailboxAuth} {SB : Serde HostedBundle}.
Implicit Types (w : Threads) (tr : list Moment) (a : AppState).

Lemma earned_move tr w m i w' i' :
  Sound tr w → Earned tr w → ready w m → move_pre w m i → move (E := Empty_set) m w i = (inr tt, w', i') →
  Earned (tr ++ [{| at_ := w; moved := m; calls := i |}]) w'.
Proof.
  intros HI HE Hr Hpre Hm. pose proof (tk_placed _ _ (so_tracked _ _ HI)) as HP.
  destruct (move_seen _ _ _ _ _ HP Hr Hm) as [-> _ -> | -> _ -> |n -> _ -> |who p Hn Hst _ Hd _ _ _ ->|who more -> Hw ->|who A o k c v s' i1 -> Hw Hc Hperf Hpl ->].
  - apply (earned_still _ w); try done. simpl. intros chan c rid [[_ <-]|[_ ?]]%lookup_insert_Some; done.
  - by apply (earned_still _ w).
  - by apply (earned_still _ w).
  - apply (earned_still _ w); try done. intros who'. by apply Hd.
  - apply (earned_still _ w); try done; [by eapply did_finished|by rewrite finish_world|by destruct who, more|].
    intros chan c rid. destruct who as [chan'|t], more; simpl; try done. by intros [_ ?]%lookup_delete_Some.
  - simpl in Hpre. rewrite Hw in Hpre. by eapply performed_earned.
Qed.

Lemma history_earned a tr w : started a → history (quiet_threads a) tr w → Sound tr w ∧ Earned tr w.
Proof.
  intros Ha Hh. split; [by eapply history_sound|]. remember (quiet_threads a) as w0.
  induction Hh as [|tr w m i w' i' Hh IH Hr Hpre Hm]; subst; [apply earned_start, Ha|].
  eapply earned_move; [by eapply history_sound|by apply IH|done..].
Qed.
End Histories.

(** The write-back under interleaving: no change of a table in memory is missed.

    [pending w k] says of an entry that it is marked dirty, or that a thread will
    mark it, or that the flush under way, or the durable table if there is none,
    has it.  As long as no write of the durable tables fails, every entry is
    pending between any two operations ([history_pending]).  Proved from the laws
    of [Settled], for both tables. *)

Section WriteBack.
Context {RD : Redb} {UL : UuidLib} {LS : LibSignal} {HS : Hashing} {B6 : Base64} {JS : Json}.
Context {SV : Serde QueueStore.StoredValue} {SM : Serde FileStore.FileMeta}.
Context {SA : Serde MailboxAuth} {SB : Serde HostedBundle}.
Context {V : Type} {EV : Equiv V} {DU : Durable V} {EQ : Equivalence (≡@{V})} {ST : Settled V}.
Implicit Types (w : Threads) (tr : list Moment) (a : AppState).
Abbreviation Who := (ClientTx + Task)%type.

Definition cur_at w k : option V := current (world w) !! k.
Definition dur_at w k : option V := durable (world w) !! k.

(** What the flush under way will have written. *)
Definition covered w k : Prop :=
  match running w !! inr FlushTask with
  | Some p => settles k (cur_at w k) (dur_at w k) p
  | None => dur_at w k ≡ cur_at w k
  end.

Definition pending w k : Prop :=
  k ∈ dirty (world w) ∨ (∃ who p, running w !! who = Some p ∧ will_mark k p) ∨ covered w k.

(** A write of the durable table failed. *)
Definition says_failed (d : Answered) : Prop := match d with answered o v => fails o v end.

Definition failed_in (mom : Moment) : Prop := ∃ who d, did who mom = Some d ∧ says_failed d.

Record Pending w : Prop := {
  pe_refreshes : ∀ who p, running w !! who = Some p → refreshes p;
  pe_pending : ∀ k, pending w k;
}.

Lemma pending_start a :
  (∀ k, k ∉ dirty a → durable a !! k ≡ current a !! k) → Pending (quiet_threads a).
Proof.
  intros Ha. split; [done|]. intros k. destruct (decide (k ∈ dirty a)) as [Hk|Hk]; [by left|].
  right. right. by apply Ha.
Qed.

(** Only the connection count changes. *)
Lemma pending_count w w' n :
  world w' = set_conn_count n (world w) → running w' = running w → Pending w → Pending w'.
Proof.
  intros Hw Hr [H1 H2]. destruct (count_apart n (world w)) as (Hc & Hd & Hdi). split; [by rewrite Hr|].
  intros k. unfold pending, covered, cur_at, dur_at. rewrite Hw, Hr, Hc, Hd, Hdi. apply H2.
Qed.

Lemma begins_refreshes who p : begins who p → refreshes p.
Proof.
  intros [_ Ho Ht]. destruct (decide (who = inr FlushTask)) as [->|Hne].
  - rewrite (Ht FlushTask eq_refl). apply refreshes_bind; [apply flush_refreshes|done|done].
  - apply bystanding_refreshes, (only_bystanding _ _ Ho). destruct who as [|[]]; simpl; congruence.
Qed.

Lemma pending_started w who p :
  running w !! who = None → begins who p → Pending w → Pending (set_running (<[who := p]> (running w)) w).
Proof.
  intros Hn Hb [H1 H2]. split.
  { simpl. intros who' p' [[<- <-]|[_ Hw]]%lookup_insert_Some; [by eapply begins_refreshes|by eapply H1]. }
  intros k. destruct (H2 k) as [Hk|[(who' & p' & Hw & Hm)|Hc]]; [by left| |].
  - right. left. exists who', p'. split; [|done]. simpl. rewrite lookup_insert_ne; [done|]. intros ->. congruence.
  - right. right. unfold covered, cur_at, dur_at in *. simpl. destruct (decide (who = inr FlushTask)) as [->|Hne].
    + rewrite lookup_insert_eq. rewrite Hn in Hc. rewrite (be_task _ _ Hb FlushTask eq_refl).
      apply settles_bind; [done|]. by apply flush_settles.
    + by rewrite lookup_insert_ne.
Qed.

Lemma pending_finished w who more :
  running w !! who = Some (Done more) → Pending w → Pending (finish who more w).
Proof.
  intros Hw [H1 H2]. split.
  { rewrite running_finish. intros who' p' [_ Hp]%lookup_delete_Some. by eapply H1. }
  intros k. unfold pending, covered, cur_at, dur_at. rewrite running_finish, finish_world.
  destruct (H2 k) as [Hk|[(who' & p' & Hw' & Hm)|Hc]]; [by left| |].
  - right. left. exists who', p'. split; [|done]. rewrite lookup_delete_ne; [done|]. intros ->. by simplify_eq.
  - right. right. unfold covered, cur_at, dur_at in Hc. destruct (decide (who = inr FlushTask)) as [->|Hne].
    + rewrite lookup_delete_eq. by rewrite Hw in Hc.
    + by rewrite lookup_delete_ne.
Qed.
End WriteBack.

Section Performed.
Context {RD : Redb} {UL : UuidLib} {LS : LibSignal} {HS : Hashing} {B6 : Base64} {JS : Json}.
Context {SV : Serde QueueStore.StoredValue} {SM : Serde FileStore.FileMeta}.
Context {SA : Serde MailboxAuth} {SB : Serde HostedBundle}.
Context {V : Type} {EV : Equiv V} {DU : Durable V} {EQ : Equivalence (≡@{V})} {ST : Settled V}.
Abbreviation Who := (ClientTx + Task)%type.
Context (tr : list Moment) (w : Threads) (who : Who) (A : Type) (o : op A) (k : A → Steps bool) (c : Conn).
Context (v : A) (s' : Session) (i i1 : io).
Context (HI : Sound tr w) (Hw : running w !! who = Some (Do o k)) (Hc : conn_of who w = Some c).
Context (Hperf : perform (E := Empty_set) o (thread_session c w) i = (inr v, s', i1)).

Abbreviation w' := (advance who (k v) s' w).

Lemma performed_changes key : changes key o v ∨ cur_at w' key ≡ cur_at w key.
Proof.
  apply (performed_wp _ _ _ _ _ _ _ _ Hperf (λ v s', ∀ key, changes key o v ∨ current (app s') !! key ≡ current (world w) !! key)).
  apply perform_current; [by eapply performed_mailboxes_u64|apply (co_auths _ (so_core _ _ HI))].
Qed.

Lemma performed_reads key : reads key o v (cur_at w key).
Proof.
  apply (performed_wp _ _ _ _ _ _ _ _ Hperf (λ v s', ∀ key, reads key o v (current (world w) !! key))), perform_reads.
Qed.

Lemma performed_written key : dur_at w' key = batch_at key (dur_at w key) (batch_of o v).
Proof.
  unfold dur_at. rewrite <- lookup_batch. f_equal.
  apply (performed_wp _ _ _ _ _ _ _ _ Hperf (λ v s', durable (app s') = MetaStore.apply_batch (durable (world w)) (batch_of o v))), perform_written.
Qed.

Lemma performed_marks key :
  (key ∈ dirty (world w) → takes key o ∨ key ∈ dirty (world w')) ∧ (marks key o → key ∈ dirty (world w')).
Proof.
  apply (performed_always _ _ _ _ _ _ _ _ Hperf (λ s', ∀ key,
    (key ∈ dirty (world w) → takes key o ∨ key ∈ dirty (app s')) ∧ (marks key o → key ∈ dirty (app s')))), perform_marks.
Qed.

Lemma performed_duties : duty (duty_of who) o = true.
Proof. apply (tk_only _ _ (so_tracked _ _ HI) _ _ Hw). Qed.

(** What covers an entry still does, unless the entry was changed. *)
Lemma performed_covered key : ¬ fails o v → cur_at w' key ≡ cur_at w key → covered w key → covered w' key.
Proof.
  intros Hf Hcur Hcov. unfold covered in *. rewrite performed_written. simpl.
  destruct (decide (who = inr FlushTask)) as [Hwho|Hne].
  - rewrite Hwho, lookup_insert_eq. rewrite <- Hwho, Hw in Hcov. symmetry in Hcur. eapply settles_proper; [exact Hcur|].
    apply Hcov; [apply performed_reads|done].
  - rewrite lookup_insert_ne by done. assert (batch_of (V := V) o v = []) as ->.
    { eapply writes_back; [apply performed_duties|]. destruct who as [|[]]; simpl; congruence. }
    simpl. destruct (running w !! inr FlushTask); [by eapply settles_proper|]. by rewrite Hcur.
Qed.

Lemma performed_pending : ¬ fails o v → Pending w → Pending w'.
Proof.
  intros Hf [H1 H2]. split.
  { simpl. intros who' p' [[<- <-]|[_ Hp]]%lookup_insert_Some; [by apply (H1 _ _ Hw)|by eapply H1]. }
  intros key. destruct (performed_changes key) as [Hch|Hcur].
  { right. left. exists who, (k v). simpl. rewrite lookup_insert_eq. split; [done|].
    eapply changes_marked; [apply (performed_fits _ _ _ _ _ _ v HI Hw)|done]. }
  destruct (H2 key) as [Hk|[(who' & p' & Hw' & Hm)|Hcov]].
  - destruct (proj1 (performed_marks key) Hk) as [Ht|Hd]; [|by left]. right. right.
    assert (who = inr FlushTask) as Hwho.
    { pose proof (takes_back _ _ _ performed_duties Ht) as He. destruct who as [|t]; [done|]. simpl in He. congruence. }
    unfold covered. simpl. rewrite Hwho, lookup_insert_eq. by apply (H1 _ _ Hw).
  - destruct (decide (who' = who)) as [->|Hne].
    + rewrite Hw in Hw'. injection Hw' as <-. destruct Hm as [Hm|Hm].
      * left. by apply performed_marks.
      * right. left. exists who, (k v). simpl. by rewrite lookup_insert_eq.
    + right. left. exists who', p'. simpl. by rewrite lookup_insert_ne.
  - right. right. by apply performed_covered.
Qed.
End Performed.

Section Histories.
Context {RD : Redb} {UL : UuidLib} {LS : LibSignal} {HS : Hashing} {B6 : Base64} {JS : Json}.
Context {SV : Serde QueueStore.StoredValue} {SM : Serde FileStore.FileMeta}.
Context {SA : Serde MailboxAuth} {SB : Serde HostedBundle}.
Context {V : Type} {EV : Equiv V} {DU : Durable V} {EQ : Equivalence (≡@{V})} {ST : Settled V}.
Implicit Types (w : Threads) (tr : list Moment) (a : AppState).

Lemma pending_move tr w m i w' i' :
  Sound tr w → ready w m → move (E := Empty_set) m w i = (inr tt, w', i') →
  ¬ failed_in {| at_ := w; moved := m; calls := i |} → Pending w → Pending w'.
Proof.
  intros HI Hr Hm Hf HP. pose proof (tk_placed _ _ (so_tracked _ _ HI)) as Hpl.
  destruct (move_seen _ _ _ _ _ Hpl Hr Hm) as [-> _ -> | -> _ -> |n -> _ -> |who p Hn _ _ _ _ Hb _ ->|who more -> Hw ->|who A o k c v s' i1 -> Hw Hc Hperf _ ->].
  - by eapply pending_count.
  - by eapply pending_count.
  - by eapply pending_count.
  - by apply pending_started.
  - by apply pending_finished.
  - eapply performed_pending; try done. intros Hfail. apply Hf. exists who, (answered o v). split; [|done].
    by eapply did_performed.
Qed.

Lemma history_pending a tr w :
  started a → (∀ k, k ∉ dirty a → durable a !! k ≡ current a !! k) →
  history (quiet_threads a) tr w → Forall (λ mom, ¬ failed_in mom) tr → Pending w.
Proof.
  intros Ha Hco. remember (quiet_threads a) as w0. induction 1 as [|tr w m i w' i' Hh IH Hr Hpre Hm]; intros Hf; subst.
  { by apply pending_start. }
  apply Forall_app in Hf as [Hf [Hl _]%Forall_cons]. eapply pending_move; try done; [by eapply history_sound|by apply IH].
Qed.
End Histories.

(** The send limit under interleaving: of a destination's entry, what the sends
    that were tried make of it, as long as it is not dropped. *)

Section Sends.
Context {RD : Redb} {UL : UuidLib} {LS : LibSignal} {HS : Hashing} {B6 : Base64} {JS : Json}.
Context {SV : Serde QueueStore.StoredValue} {SM : Serde FileStore.FileMeta}.
Context {SA : Serde MailboxAuth} {SB : Serde HostedBundle}.
Implicit Types (w : Threads) (tr : list Moment) (a : AppState) (to : string).
Abbreviation Who := (ClientTx + Task)%type.

(** The operation asked whether a send to [to] is allowed, and what it was told. *)
Definition asked_send to (d : Answered) : option bool :=
  match d with
  | answered o v =>
      match o in op A return A → option bool with
      | AllowSend to' => λ v, if decide (to' = to) then Some v else None
      | _ => λ _, None
      end v
  end.

(** .. with what the clock said. *)
Definition sends_in to (mom : Moment) : list (Z * bool) :=
  match moved mom with
  | Ran who => option_list (d ← did who mom; ok ← asked_send to d; Some (next_now (calls mom), ok))
  | _ => []
  end.

Definition sends_to to tr : list (Z * bool) := tr ≫= sends_in to.

(** The entry of [to] was dropped: its mailbox was retired or collected. *)
Definition drops_entry to (mom : Moment) : bool :=
  match moved mom with
  | Ran who =>
      match did who mom with
      | Some (answered (DropRate rid) _) => bool_decide (rid = to)
      | _ => false
      end
  | _ => false
  end.

Abbreviation entry_of to w := (send_rate (world w) !! to).

Lemma history_app w0 tr1 w1 tr2 w2 : history w0 tr1 w1 → history w1 tr2 w2 → history w0 (tr1 ++ tr2) w2.
Proof.
  intros H1. induction 1 as [|tr w m i w' i' _ IH Hr Hp Hm]; [by rewrite app_nil_r|].
  rewrite app_assoc. by eapply history_snoc.
Qed.

Lemma move_sends to tr w m i w' i' :
  let mom := {| at_ := w; moved := m; calls := i |} in
  tracked tr w → ready w m → move (E := Empty_set) m w i = (inr tt, w', i') → drops_entry to mom = false →
  entry_of to w' = rate_after (entry_of to w) (sends_in to mom).*1
  ∧ accepted_of (sends_in to mom) = accepted (entry_of to w) (sends_in to mom).*1.
Proof.
  intros mom HT Hr Hm Hno. pose proof (tk_placed _ _ HT) as HP.
  destruct (move_seen _ _ _ _ _ HP Hr Hm) as [-> _ -> | -> _ -> |n -> _ -> |who p Hn Hst _ Hd _ _ _ ->|who more -> Hw ->|who A o k c v s' i1 -> Hw Hc Hperf Hpl ->].
  - done.
  - done.
  - done.
  - unfold sends_in. destruct m as [| | | |who']; try done. simpl. unfold mom. by rewrite (Hd who').
  - unfold sends_in, mom. simpl. rewrite (did_finished _ _ _ _ Hw). by rewrite finish_world.
  - pose proof (did_performed _ _ _ _ _ _ _ _ _ Hw Hc Hperf) as Hdid. unfold sends_in, drops_entry, mom in *. simpl in *.
    rewrite Hdid in *. simpl.
    pose proof (performed_wp _ _ _ _ _ _ _ _ Hperf (λ v s', rate_effect i o to (entry_of to w) (send_rate (app s') !! to) v)
      (perform_rate o to _ i)) as He. clear Hperf.
    destruct o; simpl in He; simpl; try done.
    + case_decide; [|done]. simpl. destruct He as [He [e' He']]. rewrite He' in *. simpl in *. rewrite He.
      unfold accepted_of. by destruct v.
    + case_decide as Hd; [|done]. by rewrite bool_decide_eq_true_2 in Hno.
Qed.

Lemma history_sends to tr1 w1 tr2 w2 :
  tracked tr1 w1 → history w1 tr2 w2 → Forall (λ mom, drops_entry to mom = false) tr2 →
  tracked (tr1 ++ tr2) w2
  ∧ entry_of to w2 = rate_after (entry_of to w1) (sends_to to tr2).*1
  ∧ accepted_of (sends_to to tr2) = accepted (entry_of to w1) (sends_to to tr2).*1.
Proof.
  intros HT. induction 1 as [|tr w m i w' i' Hh IH Hr Hpre Hm]; intros Hno; [by rewrite app_nil_r|].
  apply Forall_app in Hno as [Hno [Hlast _]%Forall_cons]. destruct (IH Hno) as (HT' & He & Ha).
  destruct (move_sends to _ _ _ _ _ _ HT' Hr Hm Hlast) as [He' Ha']. rewrite app_assoc. split; [by eapply tracked_move|].
  unfold sends_to in *. rewrite bind_app, bind_cons, (app_nil_r (sends_in _ _)), fmap_app, accepted_of_app, accepted_app, Ha, Ha', He', He.
  split; [|done]. unfold rate_after. by rewrite foldl_app.
Qed.

Lemma sends_typed to tr : Forall (λ t, 0 ≤ t ≤ u64_max) (sends_to to tr).*1.
Proof.
  assert (∀ mom, Forall (λ x, 0 ≤ x.1 ≤ u64_max) (sends_in to mom)) as Hone; [|by apply Forall_fmap, Forall_bind, Forall_true].
  intros mom. unfold sends_in. destruct (moved mom) as [| | | |who]; [apply Forall_nil_2..|].
  destruct (did who mom) as [d|]; simpl; [|apply Forall_nil_2]. destruct (asked_send to d); simpl; [|apply Forall_nil_2].
  apply Forall_singleton. apply wrap64_range.
Qed.
End Sends.
