(* ===== verification/ThreadsDemo.v ===== *)
(** Histories of threads by evaluation: a list of moves that each may be made is a
    history; and a story that the witnesses share; then histories in which threads get in each
    other's way. *)
From Stdlib Require Import ZArith Lia Ascii String.
From stdpp Require Import base gmap strings list.
From S2P Require Import Prelude Redb RustStd Config Util Protocol Mailbox Signal State StateFacts StateProps Ws.
From S2P Require Import WsFacts WsFrames WsDemo Relay Steps Threads StepsSettle ThreadsFacts ThreadsWhy.
From S2P Require QueueStore.
From S2P Require QueueFacts.
From S2P Require QueueSpec.
From S2P Require QueueProps.
From S2P Require FileStore.
From S2P Require FileProps.

Section Evaluation.
Context {RD : Redb} {UL : UuidLib} {LS : LibSignal} {HS : Hashing} {B6 : Base64} {JS : Json}.
Context {SV : Serde QueueStore.StoredValue} {SM : Serde FileStore.FileMeta}.
Context {SA : Serde MailboxAuth} {SB : Serde HostedBundle}.
Implicit Types (w : Threads) (tr : list Moment) (a : AppState).

(** The operation's assumptions hold; uploads and sweeps of files are left out. *)
Definition op_ready {A : Type} (o : op A) a : bool :=
  match o with
  | Enqueue to env =>
      match QueueFacts.entries (queues a) !! QueueStore.key_for to (env_id env) with None => true | Some _ => false end
      && (QueueStore.next_seq (queues a) <? u64_max)
  | StoreChunk _ _ _ _ _ | DeleteTransferOp _ | SweepFiles => false
  | _ => true
  end.

Definition can_move w (m : Move) : bool :=
  match m with
  | Accepted => Z.of_nat (leaving w) <? MAX_LEAVING
  | Left => negb (leaving w =? 0)%nat
  | Heard chan _ _ =>
      match sockets w !! chan, running w !! inl chan with Some _, None => true | _, _ => false end
  | Woke t => match running w !! inr t with None => true | Some _ => false end
  | Ran who =>
      match running w !! who with Some (Do o _) => op_ready o (world w) | Some (Done _) => true | None => false end
  end.

Lemma can_move_sound w m i : can_move w m = true → ready w m ∧ move_pre w m i.
Proof.
  destruct m as [| |chan d inc|t|who]; simpl.
  - by intros H%Z.ltb_lt.
  - intros H%negb_true_iff%Nat.eqb_neq. done.
  - by destruct (sockets w !! chan), (running w !! inl chan).
  - by destruct (running w !! inr t).
  - destruct (running w !! who) as [[more|B o k]|] eqn:Hr; try done; intros H.
    split; [by eexists|]. destruct o; simpl in *; try done. apply andb_prop in H as [H1 H2%Z.ltb_lt].
    by destruct (QueueFacts.entries _ !! _).
Qed.

Fixpoint can_moves (moves : list (Move * io)) w : bool :=
  match moves with
  | [] => true
  | (m, i) :: rest => can_move w m && can_moves rest (move (E := Empty_set) m w i).1.2
  end.

Fixpoint moments (moves : list (Move * io)) w : list Moment :=
  match moves with
  | [] => []
  | (m, i) :: rest => {| at_ := w; moved := m; calls := i |} :: moments rest (move (E := Empty_set) m w i).1.2
  end.

Lemma move_unit w m i : ∃ w' i', move (E := Empty_set) m w i = (inr tt, w', i').
Proof. destruct (move m w i) as [[[[]|[]] w'] i']. by exists w', i'. Qed.

Lemma moves_history w0 tr w moves :
  history w0 tr w → can_moves moves w = true → history w0 (tr ++ moments moves w) (perform_moves moves w).
Proof.
  revert w tr. induction moves as [|[m i] rest IH]; intros w tr Hh; simpl; [by rewrite app_nil_r|].
  intros [Hc Hrest]%andb_prop. rewrite cons_middle, app_assoc. destruct (can_move_sound w m i Hc) as [Hr Hp].
  destruct (move_unit w m i) as (w' & i' & Hm). rewrite Hm in Hrest |- *. apply IH; [|done]. by eapply history_snoc.
Qed.

Lemma moments_history w moves : can_moves moves w = true → history w (moments moves w) (perform_moves moves w).
Proof. apply (moves_history w []). constructor. Qed.

(** From the start. *)
Lemma start_history a moves :
  can_moves moves (quiet_threads a) = true →
  history (quiet_threads a) (moments moves (quiet_threads a)) (perform_moves moves (quiet_threads a)).
Proof. apply moments_history. Qed.

(** No write of a durable table fails. *)
Definition write_fails {A : Type} (o : op A) : A → bool :=
  match o in op A return A → bool with
  | WriteAuth _ | WriteBundles _ => λ v, match v with inl _ => true | inr _ => false end
  | _ => λ _, false
  end.

Definition move_fails (m : Move) w i : bool :=
  match m with
  | Ran who =>
      match running w !! who, conn_of who w with
      | Some (Do o _), Some c =>
          match perform (E := Empty_set) o (thread_session c w) i with (inr v, _, _) => write_fails o v | _ => false end
      | _, _ => false
      end
  | _ => false
  end.

Fixpoint none_fails (moves : list (Move * io)) w : bool :=
  match moves with
  | [] => true
  | (m, i) :: rest => negb (move_fails m w i) && none_fails rest (move (E := Empty_set) m w i).1.2
  end.

Lemma move_fails_sound m w i :
  move_fails m w i = false →
  let mom := {| at_ := w; moved := m; calls := i |} in
  ¬ failed_in (V := MailboxAuth) mom ∧ ¬ failed_in (V := HostedBundle) mom.
Proof.
  intros Hf. assert (∀ who d, did who {| at_ := w; moved := m; calls := i |} = Some d →
    match d with answered o v => write_fails o v = false end) as Hd.
  { intros who d. unfold did. simpl. destruct m as [| | | |who']; try done. case_decide as Hw; [subst who'|done].
    simpl in Hf. destruct (running w !! who) as [[|A o k]|]; try done. destruct (conn_of who w); [|done].
    unfold answer_of. destruct (perform o _ i) as [[[[]|v] s'] i']. by intros [= <-]. }
  split; intros (who & [A o v] & Hdid & Hfail); specialize (Hd _ _ Hdid); simpl in Hfail; destruct o; try done; by destruct v.
Qed.

Lemma none_fails_sound moves w :
  none_fails moves w = true →
  Forall (λ mom, ¬ failed_in (V := MailboxAuth) mom ∧ ¬ failed_in (V := HostedBundle) mom) (moments moves w).
Proof.
  revert w. induction moves as [|[m i] rest IH]; intros w; simpl; [constructor|].
  intros [H%negb_true_iff Hr]%andb_prop. constructor; [by apply move_fails_sound|by apply IH].
Qed.
End Evaluation.

Section Story.
#[local] Existing Instances gmap_redb unary_uuid demo_signal demo_hashing demo_base64 demo_json QueueProps.demo_serde
  FileProps.meta_serde auth_serde bundle_serde.

(** Socket [chan] hears [text]; an envelope would be given the id [id]. *)
Definition heard (chan : ClientTx) (id : Uuid) (text : string) : Move * io :=
  (Heard chan {| draw_uuid := id; draw_rng := inr () |} (Text text), at_ten).

(** A thread's next [n] operations. *)
Definition runs (n : nat) (who : ClientTx + Task) : list (Move * io) := replicate n (Ran who, at_ten).

Definition idle_threads : Threads := quiet_threads demo_state.

Lemma started_demo : started demo_state.
Proof.
  split; [apply AppInv_demo|split; vm_compute; congruence|vm_compute; congruence|done|done].
Qed.

(** The operations of a Hello for a mailbox with an empty queue, of a send, of an
    acknowledgement. *)
Definition entering (chan : ClientTx) (text : string) : list (Move * io) :=
  (Accepted, at_ten) :: heard chan 1%nat text :: runs 11 (inl chan).

Definition story : list (Move * io) :=
  entering 0%nat "hello" ++ [(Accepted, at_ten); heard 1%nat 7%nat "send"] ++ runs 9 (inl 1%nat).

Definition told : Threads := perform_moves story idle_threads.
End Story.

(** What goes wrong between the operations of two threads, by evaluation.

    Each example is a history of [demo_state] that ends with every thread done, and
    a state that the code means to rule out. *)

Section Races.
#[local] Existing Instances gmap_redb unary_uuid demo_signal demo_hashing demo_base64 demo_json QueueProps.demo_serde
  FileProps.meta_serde auth_serde bundle_serde.

(** The moves may be made one after the other, and leave no thread at work. *)
Definition plays_out (moves : list (Move * io)) (Q : Threads → Prop) : Prop :=
  let w := perform_moves moves idle_threads in
  history idle_threads (moments moves idle_threads) w ∧ running w = ∅ ∧ Q w.

Lemma plays_out_intro moves (Q : Threads → Prop) :
  can_moves moves idle_threads = true → running (perform_moves moves idle_threads) = ∅ →
  Q (perform_moves moves idle_threads) → plays_out moves Q.
Proof. intros Hc Hr HQ. split; [by apply start_history|done]. Qed.

(** The queued message of the story. *)
Definition race_message : QueueSpec.Message :=
  {| QueueSpec.msg_id := 7%nat; QueueSpec.msg_type := "msg"; QueueSpec.msg_ct := "c1"; QueueSpec.msg_at := 10 |}.

Definition no_envelope (w : Threads) : Prop :=
  Forall (λ out, match out.2 with Envelope _ => False | _ => True end) (wire w).

Definition registered (chan : ClientTx) (w : Threads) : Prop := (sockets w !! chan) ≫= recipient_id = Some demo_rid.

(** A send looks for the route before the recipient's Hello sets it, and queues the
    message after the Hello has read the queue. *)
Definition missed_wakeup : list (Move * io) :=
  [(Accepted, at_ten); (Accepted, at_ten); heard 1%nat 7%nat "send"] ++ runs 5 (inl 1%nat)
  ++ heard 0%nat 1%nat "hello" :: runs 11 (inl 0%nat) ++ runs 4 (inl 1%nat).

Example online_recipient_misses_message :
  plays_out missed_wakeup (λ w, online (world w) !! demo_rid = Some 0%nat ∧ registered 0%nat w
    ∧ race_message ∈ QueueSpec.abs (queues (world w)) demo_rid ∧ no_envelope w).
Proof.
  apply plays_out_intro; [by vm_compute..|]. split_and!; [by vm_compute..|vm_compute; left|vm_compute; repeat constructor].
Qed.

(** A socket that ends finds the route its own, and removes the one that its
    successor has set meanwhile. *)
Definition late_teardown : list (Move * io) :=
  entering 0%nat "hello" ++ [(Accepted, at_ten); (Heard 0%nat demo_draws Stop, at_ten)] ++ runs 2 (inl 0%nat)
  ++ heard 1%nat 1%nat "hello" :: runs 11 (inl 1%nat) ++ runs 2 (inl 0%nat).

Example teardown_drops_newer_route :
  plays_out late_teardown (λ w, sockets w !! 0%nat = None ∧ registered 1%nat w ∧ online (world w) !! demo_rid = None).
Proof. apply plays_out_intro; [by vm_compute..|]. by vm_compute. Qed.

(** A send to a full channel drops the route, which by then is a newer socket's. *)
Definition late_drop : list (Move * io) :=
  entering 0%nat "hello" ++ [(Accepted, at_ten); heard 1%nat 7%nat "send"] ++ runs 3 (inl 1%nat)
  ++ (Ran (inl 1%nat), Io [] [] [] [true]) :: entering 2%nat "hello" ++ runs 6 (inl 1%nat).

Example send_drops_newer_route :
  plays_out late_drop (λ w, registered 2%nat w ∧ online (world w) !! demo_rid = None
    ∧ race_message ∈ QueueSpec.abs (queues (world w)) demo_rid).
Proof. apply plays_out_intro; [by vm_compute..|]. split_and!; [by vm_compute..|vm_compute; left]. Qed.

(** A retirement has removed the record; its id gets a new owner, who goes offline
    and is sent a message; then the retirement purges the queue. *)
Definition late_purge : list (Move * io) :=
  entering 0%nat "hello" ++ heard 0%nat 1%nat "retire" :: runs 4 (inl 0%nat)
  ++ entering 1%nat "claim" ++ (Heard 1%nat demo_draws Stop, at_ten) :: runs 4 (inl 1%nat)
  ++ [(Accepted, at_ten); heard 2%nat 7%nat "send"] ++ runs 9 (inl 2%nat) ++ runs 8 (inl 0%nat).

Example retirement_purges_new_owner :
  plays_out late_purge (λ w, is_Some (mailbox_auth (world w) !! demo_rid)
    ∧ (2%nat, SendOk 7%nat true (Some "ref"%string)) ∈ wire w
    ∧ QueueSpec.abs (queues (world w)) demo_rid = [] ∧ no_envelope w).
Proof.
  apply plays_out_intro; [by vm_compute..|]. split_and!; [by vm_compute; eexists| |by vm_compute|vm_compute; repeat constructor].
  vm_compute. do 4 right. left.
Qed.

(** A Hello has been let in; another socket of the same owner retires the mailbox
    and its id gets a new owner; then the Hello sets its route, and the new owner's
    message goes to the old one. *)
Definition late_route : list (Move * io) :=
  [(Accepted, at_ten); heard 0%nat 1%nat "hello"] ++ runs 7 (inl 0%nat)
  ++ entering 1%nat "hello" ++ heard 1%nat 1%nat "retire" :: runs 12 (inl 1%nat)
  ++ entering 2%nat "claim" ++ runs 4 (inl 0%nat)
  ++ [(Accepted, at_ten); heard 3%nat 7%nat "send"] ++ runs 9 (inl 3%nat).

Example old_owner_gets_new_owners_mail :
  plays_out late_route (λ w,
    (receive_auth_hash <$> mailbox_auth (world w) !! demo_rid) = Some (token_hash "auth_ccccccccccc"%string)
    ∧ registered 2%nat w ∧ Exists (λ out, out.1 = 0%nat ∧ match out.2 with Envelope env => env_id env = 7%nat | _ => False end) (wire w)).
Proof. apply plays_out_intro; [by vm_compute..|]. split_and!; [by vm_compute..|]. vm_compute. do 7 apply Exists_cons_tl. by apply Exists_cons_hd. Qed.

(** The same with a mailbox that the garbage collection has found idle. *)
Definition at_month : io := Io [] [] (replicate 4 10000000000) [].

Definition late_collection : list (Move * io) :=
  (Woke GcTask, at_month) :: replicate 8 (Ran (inr GcTask), at_month)
  ++ entering 0%nat "claim" ++ (Heard 0%nat demo_draws Stop, at_ten) :: runs 4 (inl 0%nat)
  ++ [(Accepted, at_ten); heard 1%nat 7%nat "send"] ++ runs 9 (inl 1%nat) ++ runs 3 (inr GcTask).

Example collection_purges_new_owner :
  plays_out late_collection (λ w, is_Some (mailbox_auth (world w) !! demo_rid)
    ∧ (1%nat, SendOk 7%nat true (Some "ref"%string)) ∈ wire w
    ∧ QueueSpec.abs (queues (world w)) demo_rid = [] ∧ no_envelope w).
Proof.
  apply plays_out_intro; [by vm_compute..|]. split_and!; [by vm_compute; eexists| |by vm_compute|vm_compute; repeat constructor].
  vm_compute. do 2 right. left.
Qed.

(** A prune has listed an expired bundle; it is uploaded anew; then the prune
    removes the new one, and takes its bytes off a second time. *)
Definition at_two_s : io := Io [] [] (replicate 4 2000) [].

Definition runs_late (n : nat) (who : ClientTx + Task) : list (Move * io) := replicate n (Ran who, at_two_s).

Definition late_prune : list (Move * io) :=
  [(Accepted, at_two_s); (Accepted, at_two_s); heard 0%nat 1%nat "fetch"] ++ runs_late 5 (inl 0%nat)
  ++ heard 1%nat 1%nat "upload" :: runs_late 15 (inl 1%nat) ++ runs_late 7 (inl 0%nat).

Example prune_removes_new_bundle :
  plays_out late_prune (λ w, bundles (world w) = ∅ ∧ total_bundle_bytes (world w) = 1
    ∧ Exists (λ out, match out.2 with BundleUploaded _ id _ => id = "bundle_aaaaaaaaa"%string | _ => False end) (wire w)).
Proof. apply plays_out_intro; [by vm_compute..|]. split_and!; [by vm_compute..|vm_compute; by constructor]. Qed.
End Races.
