(* ===== verification/ThreadsProps.v ===== *)
(** What any interleaving of the relay's threads guarantees. *)
From Stdlib Require Import ZArith Lia Ascii String.
From stdpp Require Import base gmap strings list sorting.
From S2P Require Import Prelude Redb RustStd Config Util Protocol Mailbox Signal State StateFacts StateOps StateProps Ws.
From S2P Require Import WsFacts WsFrames WsDemo Relay Steps Threads StepsOrder StepsShape StepsDuties StepsStores.
From S2P Require Import StepsSettle ThreadsFacts ThreadsAlone ThreadsSound ThreadsTypes ThreadsWhy ThreadsDemo.
From S2P Require QueueStore.
From S2P Require QueueFacts.
From S2P Require QueueSpec.
From S2P Require QueueProps.
From S2P Require FileStore.
From S2P Require FileProps.

Section Reasons.
Context {RD : Redb} {UL : UuidLib} {LS : LibSignal} {HS : Hashing} {B6 : Base64} {JS : Json}.
Context {SV : Serde QueueStore.StoredValue} {SM : Serde FileStore.FileMeta}.
Context {SA : Serde MailboxAuth} {SB : Serde HostedBundle}.
Implicit Types (w : Threads) (tr : list Moment) (a : AppState).
Abbreviation Who := (ClientTx + Task)%type.

(** The thread's next operation. *)
Definition next_is {A : Type} w (who : Who) (o : op A) : Prop := ∃ k, running w !! who = Some (Do o k).

(** The relay as it is, and as it was before each move. *)
Definition so_far tr w : list Threads := (at_ <$> tr) ++ [w].

(** Why a message leaves its queue with a move of [who] on the script [i].  An
    enqueue makes room as the queue is or was; a sweep and a collection go by what
    the clock says to them. *)
Inductive message_gone tr w (i : io) (m : string) (x : QueueSpec.Message) : Who → Prop :=
  | gone_acked chan ids :
      next_is w (inl chan) (AckIds m ids) → QueueSpec.msg_id x ∈ ids → Exists (entered_in chan m) tr →
      message_gone tr w i m x (inl chan)
  | gone_retired chan :
      next_is w (inl chan) (PurgeQueue m) → Exists (entered_in chan m) tr → message_gone tr w i m x (inl chan)
  | gone_collected who :
      next_is w who (PurgeHere m) → collected m tr → message_gone tr w i m x who
  | gone_evicted who env w0 :
      next_is w who (Enqueue m env) → w0 ∈ so_far tr w → x ∈ QueueSpec.abs (queues (world w0)) m →
      x ∉ QueueSpec.keep_newest (slen (ciphertext env)) (QueueSpec.abs (queues (world w0)) m) →
      message_gone tr w i m x who
  | gone_expired who :
      next_is w who SweepQueues → QueueSpec.msg_at x < next_now i -^ QUEUE_TTL_MS → message_gone tr w i m x who.

(** Why a mailbox's record is gone, or another one's, after a move of [who]. *)
Inductive owner_gone tr w (rid : string) (x : MailboxAuth) : Who → Prop :=
  | owner_retired chan :
      next_is w (inl chan) (RemoveMailbox rid) → Exists (entered_in chan rid) tr → owner_gone tr w rid x (inl chan)
  | owner_collected who now :
      next_is w who (RemoveIdle now rid) → idle now x = true → online (world w) !! rid = None → owner_gone tr w rid x who.

(** A move that is no operation leaves the mailboxes and the queues alone. *)
Lemma move_cases tr w mv i w' i' :
  Sound tr w → ready w mv → move_pre w mv i → move (E := Empty_set) mv w i = (inr tt, w', i') →
  (queues (world w') = queues (world w) ∧ mailbox_auth (world w') = mailbox_auth (world w))
  ∨ ∃ who A (o : op A) k c v s' i1, mv = Ran who ∧ running w !! who = Some (Do o k) ∧ conn_of who w = Some c
      ∧ perform (E := Empty_set) o (thread_session c w) i = (inr v, s', i1) ∧ plausible o v ∧ op_pre o (world w) i
      ∧ w' = advance who (k v) s' w.
Proof.
  intros HI Hr Hpre Hm. pose proof (tk_placed _ _ (so_tracked _ _ HI)) as HP.
  destruct (move_seen _ _ _ _ _ HP Hr Hm) as [-> _ -> | -> _ -> |n -> _ -> |who p Hn _ _ _ _ _ _ ->|who more -> Hw ->|who A o k c v s' i1 -> Hw Hc Hperf Hpl ->];
    try (by left).
  - left. by rewrite finish_world.
  - right. simpl in Hpre. rewrite Hw in Hpre. by exists who, A, o, k, c, v, s', i1.
Qed.

Lemma message_reason tr w who {A} (o : op A) k c v s' i i1 m x :
  Sound tr w → Earned tr w → running w !! who = Some (Do o k) → conn_of who w = Some c →
  perform (E := Empty_set) o (thread_session c w) i = (inr v, s', i1) → plausible o v → op_pre o (world w) i →
  x ∈ QueueSpec.abs (queues (world w)) m → x ∉ QueueSpec.abs (queues (app s')) m → message_gone tr w i m x who.
Proof.
  intros HI HE Hw Hc Hperf Hpl Hpre Hin Hout.
  pose proof (performed_queues _ _ _ _ _ _ _ _ _ _ _ HI Hw Hperf Hpl Hpre) as [_ Hq].
  pose proof (performed_orderly _ _ _ _ _ _ HI Hw) as Ho. clear Hperf.
  destruct o; simpl in Hq, Ho; try (by rewrite Hq in Hout); destruct (decide (m = to)) || destruct (decide (m = rid)) || idtac; subst.
  all: try (destruct Hq as [Hother _]; by rewrite Hother in Hout).
  - destruct Hq as [_ Hq]. destruct v as [[e|n]|]; try (by rewrite Hq in Hout). destruct Hq as [now Hq].
    eapply (gone_evicted _ _ _ _ _ _ _ w); [by exists k|unfold so_far; set_solver|done|]. intros Hkeep. apply Hout. rewrite Hq. apply elem_of_app. by left.
  - destruct Hq as [_ Hq]. destruct v as [[e|n]|]; try (by rewrite Hq in Hout). rewrite Hq in Hout.
    destruct (ea_me _ _ HE _ _ Ho) as (chan & -> & He). eapply gone_acked; [by exists k| |done].
    destruct (decide (QueueSpec.msg_id x ∈ ids)) as [|Hno]; [done|]. destruct Hout. by apply list_elem_of_filter.
  - destruct (ea_me _ _ HE _ _ Ho) as (chan & -> & He). by eapply gone_retired; [exists k|].
  - eapply gone_collected; [by exists k|]. by eapply ea_collected.
  - destruct v as [e|n]; [by rewrite Hq in Hout|]. rewrite Hq in Hout.
    eapply gone_expired; [by exists k|]. apply Z.nle_gt. intros Hle. destruct Hout. by apply list_elem_of_filter.
Qed.

Lemma owner_reason tr w who {A} (o : op A) k c v s' i i1 rid x :
  Sound tr w → Earned tr w → running w !! who = Some (Do o k) → conn_of who w = Some c →
  perform (E := Empty_set) o (thread_session c w) i = (inr v, s', i1) →
  mailbox_auth (world w) !! rid = Some x →
  (∃ y, mailbox_auth (app s') !! rid = Some y ∧ receive_auth_hash y = receive_auth_hash x)
  ∨ mailbox_auth (app s') !! rid = None ∧ owner_gone tr w rid x who.
Proof.
  intros HI HE Hw Hc Hperf Hx. pose proof (performed_auth _ _ _ _ _ _ _ _ _ HI Hperf) as Ha.
  pose proof (performed_orderly _ _ _ _ _ _ HI Hw) as Ho. clear Hperf.
  destruct o; simpl in Ha, Ho; try (left; exists x; by rewrite Ha); destruct v; try (left; exists x; by rewrite Ha).
  - left. destruct Ha as (y & -> & Hy & _ & Hold). destruct (decide (rid0 = rid)) as [->|]; [|exists x; by rewrite lookup_insert_ne].
    exists y. rewrite lookup_insert_eq. rewrite Hx in Hold. split; [done|congruence].
  - left. destruct Ha as (y & Hy & ->). destruct (decide (rid0 = rid)) as [->|]; [|exists x; by rewrite lookup_insert_ne].
    simplify_eq. eexists. by rewrite lookup_insert_eq.
  - left. destruct Ha as (y & now & Hy & ->). destruct (decide (to = rid)) as [->|]; [|exists x; by rewrite lookup_insert_ne].
    simplify_eq. eexists. by rewrite lookup_insert_eq.
  - destruct Ha as [_ ->]. destruct (decide (rid0 = rid)) as [->|]; [|left; exists x; by rewrite lookup_delete_ne].
    right. rewrite lookup_delete_eq. split; [done|]. destruct (ea_me _ _ HE _ _ Ho) as (chan & -> & He).
    by eapply owner_retired; [exists k|].
  - destruct Ha as [_ ->]. left. by exists x.
  - destruct Ha as (y & Hy & Hidle & Hon & ->). destruct (decide (rid0 = rid)) as [->|]; [|left; exists x; by rewrite lookup_delete_ne].
    simplify_eq. right. rewrite lookup_delete_eq. split; [done|]. by eapply owner_collected; [exists k|..].
Qed.
End Reasons.

(** ** The properties *)

Section Properties.
Context {RD : Redb} {UL : UuidLib} {LS : LibSignal} {HS : Hashing} {B6 : Base64} {JS : Json}.
Context {SV : Serde QueueStore.StoredValue} {SM : Serde FileStore.FileMeta}.
Context {SA : Serde MailboxAuth} {SB : Serde HostedBundle}.
Implicit Types (w : Threads) (tr : list Moment) (a : AppState).

(** C3. Between any two operations of any interleaving the mailbox records are well formed, the
    bundles are under their own ids and no rate entry is over the limit; the mailbox count,
    never over its cap, is the size of its table plus the removals still to be counted, and the
    connection count the sockets plus the departures under way; only sockets that exist are at
    work, each with its own channel and registered only for valid ids. *)
Theorem threads_keep_invariant a tr w :
  started a → history (quiet_threads a) tr w →
  wf_mailboxes (mailbox_auth (world w)) ∧ keyed_bundles (bundles (world w)) ∧ rates_in_range (send_rate (world w))
  ∧ mailbox_count (world w) = Z.of_nat (size (mailbox_auth (world w))) + uncounted w
  ∧ mailbox_count (world w) ≤ MAX_MAILBOXES
  ∧ conn_count (world w) = Z.of_nat (size (sockets w)) + Z.of_nat (leaving w)
  ∧ (∀ chan, is_Some (running w !! inl chan) → is_Some (sockets w !! chan))
  ∧ ∀ chan c, sockets w !! chan = Some c →
      tx c = chan ∧ ∀ rid, recipient_id c = Some rid → valid_recipient_id rid = true.
Proof.
  intros Ha Hh. pose proof (history_sound _ _ _ Ha Hh) as HI. pose proof (tk_placed _ _ (so_tracked _ _ HI)) as [Hp Htx].
  pose proof (so_core _ _ HI) as [_ _ Hm Hb Hr]. pose proof (so_counts _ _ HI) as [[H1 H1'] [H2 _] _ _ _].
  split_and!; try done. intros chan c Hc. split; [by apply Htx|]. intros rid. by apply (so_rid _ _ HI chan).
Qed.

(** C8. However the threads interleave, there are never more than MAX_MAILBOXES mailboxes,
    MAX_CONNECTIONS sockets or MAX_THREADS threads at work; the bundles, whose number is checked
    before one is added, can pass MAX_BUNDLES by at most one for each thread. *)
Theorem threads_stay_within_caps a tr w :
  started a → history (quiet_threads a) tr w →
  Z.of_nat (size (mailbox_auth (world w))) ≤ MAX_MAILBOXES
  ∧ Z.of_nat (size (sockets w)) ≤ MAX_CONNECTIONS
  ∧ Z.of_nat (size (running w)) ≤ MAX_THREADS
  ∧ Z.of_nat (size (bundles (world w))) ≤ MAX_BUNDLES + MAX_THREADS.
Proof.
  intros Ha Hh. pose proof (history_sound _ _ _ Ha Hh) as HI. pose proof (so_counts _ _ HI) as [[H1 H1'] _ H3 H4 _].
  assert (0 ≤ uncounted w) by apply debt_nonneg, uncounting_nonneg.
  assert (0 ≤ incoming_bundles w) by apply debt_nonneg, inserting_nonneg.
  split_and!; try lia. by apply threads_bounded; [apply (so_tracked _ _ HI)|].
Qed.

(** C1. However the threads interleave, a route leads to a socket that entered the mailbox, with
    the token of its owner or when nobody owned it, and every envelope on a socket is for a
    mailbox that this socket entered so. *)
Theorem routes_lead_to_who_entered a tr w :
  started a → history (quiet_threads a) tr w →
  (∀ m chan, online (world w) !! m = Some chan → Exists (entered_in chan m) tr)
  ∧ ∀ chan env, (chan, Envelope env) ∈ wire w → Exists (entered_in chan (env_to env)) tr.
Proof. intros Ha Hh. destruct (history_earned _ _ _ Ha Hh) as [_ []]. by split. Qed.

(** C5. However the threads interleave, a SendOk is answered only after the same socket's thread
    put a copy of that message on a live channel or into the queue of its mailbox. *)
Theorem send_ok_follows_a_copy a tr w chan id cr q :
  started a → history (quiet_threads a) tr w → (chan, SendOk id cr q) ∈ wire w → Exists (handed_by chan id) tr.
Proof. intros Ha Hh. apply (ea_ok _ _ (proj2 (history_earned _ _ _ Ha Hh))). Qed.

(** C2. However the threads interleave, a queued message leaves its queue only when a socket
    that entered the mailbox acknowledges it or retires the mailbox; when the garbage collection
    purges a mailbox that it removed while it was offline and, at a time it had read from the
    clock, idle for too long; when an enqueue of its mailbox does not keep it among the newest,
    in the queue as it is or was at an earlier moment; or when a sweep reads from the clock a
    time at which the message is past its own. Each store method is one operation here. *)
Theorem threads_take_messages_for_a_reason a tr w mv i w' i' m x :
  started a → history (quiet_threads a) tr w → ready w mv → move_pre w mv i →
  move (E := Empty_set) mv w i = (inr tt, w', i') →
  x ∈ QueueSpec.abs (queues (world w)) m → x ∉ QueueSpec.abs (queues (world w')) m →
  ∃ who, mv = Ran who ∧ message_gone tr w i m x who.
Proof.
  intros Ha Hh Hr Hpre Hm Hin Hout. destruct (history_earned _ _ _ Ha Hh) as [HI HE].
  destruct (move_cases _ _ _ _ _ _ HI Hr Hpre Hm) as [[Hq _]|(who & A & o & k & c & v & s' & i1 & -> & Hw & Hc & Hp & Hpl & Hop & ->)].
  - by rewrite Hq in Hout.
  - exists who. split; [done|]. by eapply message_reason.
Qed.

(** C6. However the threads interleave, the hash that opens a mailbox stays what it is until the
    record is removed, by a socket that entered the mailbox or by the garbage collection when it
    is idle and offline. *)
Theorem threads_change_owners_by_removal a tr w mv i w' i' rid x :
  started a → history (quiet_threads a) tr w → ready w mv → move_pre w mv i →
  move (E := Empty_set) mv w i = (inr tt, w', i') → mailbox_auth (world w) !! rid = Some x →
  (∃ y, mailbox_auth (world w') !! rid = Some y ∧ receive_auth_hash y = receive_auth_hash x)
  ∨ mailbox_auth (world w') !! rid = None ∧ ∃ who, mv = Ran who ∧ owner_gone tr w rid x who.
Proof.
  intros Ha Hh Hr Hpre Hm Hx. destruct (history_earned _ _ _ Ha Hh) as [HI HE].
  destruct (move_cases _ _ _ _ _ _ HI Hr Hpre Hm) as [[_ Hq]|(who & A & o & k & c & v & s' & i1 & -> & Hw & Hc & Hp & Hpl & Hop & ->)].
  - left. exists x. by rewrite Hq.
  - destruct (owner_reason _ _ _ _ _ _ _ _ _ _ rid x HI HE Hw Hc Hp Hx) as [Hl|[Hn Hg]]; [by left|right].
    split; [done|]. by exists who.
Qed.

(** C4. However the flush interleaves with the other threads, while its writes succeed: when no
    flush is under way, every record and every bundle that is not marked dirty, and that no
    thread is about to mark, is in the durable table as it is in memory, but for a record's time
    of last activity, which a refused send refreshes without marking it. *)
Theorem write_back_misses_nothing a tr w :
  started a → Coherent a → history (quiet_threads a) tr w →
  Forall (λ mom, ¬ failed_in (V := MailboxAuth) mom ∧ ¬ failed_in (V := HostedBundle) mom) tr →
  running w !! inr FlushTask = None →
  (∀ rid, rid ∉ dirty_auth (world w) → (∀ who p, running w !! who = Some p → ¬ owes rid p) →
    durable_auth (world w) !! rid ≡ mailbox_auth (world w) !! rid)
  ∧ ∀ id, id ∉ dirty_bundles (world w) → (∀ who p, running w !! who = Some p → ¬ owes_bundle id p) →
    durable_bundles (world w) !! id = bundles (world w) !! id.
Proof.
  intros Ha [Hca Hcb] Hh Hf Hn. apply Forall_and in Hf as [Hfa Hfb]. split; intros k Hk Howes.
  - assert (∀ k, k ∉ dirty (V := MailboxAuth) a → durable (V := MailboxAuth) a !! k ≡ current a !! k) as Hca' by exact Hca.
    destruct (pe_pending _ (history_pending (V := MailboxAuth) _ _ _ Ha Hca' Hh Hfa) k) as [Hd|[(who & p & Hw & Hm)|Hcov]].
    + by destruct (Hk Hd).
    + by destruct (Howes who p Hw); apply will_mark_owes.
    + unfold covered in Hcov. by rewrite Hn in Hcov.
  - assert (∀ k, k ∉ dirty (V := HostedBundle) a → durable (V := HostedBundle) a !! k ≡ current a !! k) as Hcb'.
    { intros k' Hk'. change (durable_bundles a !! k' ≡ bundles a !! k'). by rewrite (Hcb k' Hk'). }
    destruct (pe_pending _ (history_pending (V := HostedBundle) _ _ _ Ha Hcb' Hh Hfb) k) as [Hd|[(who & p & Hw & Hm)|Hcov]].
    + by destruct (Hk Hd).
    + by destruct (Howes who p Hw); apply will_mark_owes_bundle.
    + unfold covered in Hcov. rewrite Hn in Hcov. by apply leibniz_equiv.
Qed.

(** The model keeps its integers in the ranges of the machine types they stand for, between any
    two operations of any interleaving: counters, byte totals, sequence numbers, times and windows
    in 64 bits, the counts of the rate limits in 32. *)
Theorem threads_keep_types a tr w : started a → typed_app a → history (quiet_threads a) tr w → typed w.
Proof.
  intros Ha Ht Hh. destruct (history_typed _ _ _ Ha Ht Hh) as [H1 H2].
  by apply (sound_typed tr); [apply (history_sound a)|..].
Qed.

(** C9. However the threads interleave, over any stretch of a history in which a destination's
    rate entry is not dropped (by a retirement or a collection of the mailbox) and the clock, as
    the sends to it read it in turn, does not go back, at most twice
    MAX_SENDS_PER_DEST_PER_WINDOW of these sends are allowed within any interval as long as the
    rate window. *)
Theorem sends_stay_within_rate a tr1 w1 tr2 w2 to t :
  started a → history (quiet_threads a) tr1 w1 → history w1 tr2 w2 →
  Forall (λ mom, drops_entry to mom = false) tr2 → Sorted Z.le (sends_to to tr2).*1 →
  within t (t + RATE_WINDOW_MS) (accepted_of (sends_to to tr2)) ≤ 2 * MAX_SENDS_PER_DEST_PER_WINDOW.
Proof.
  intros Ha H1 H2 Hno Hs. pose proof (history_sound _ _ _ Ha H1) as HI.
  destruct (history_sends _ _ _ _ _ (so_tracked _ _ HI) H2 Hno) as (_ & _ & ->).
  apply (accepted_bound _ _ 0); [|by apply from_sorted, sends_typed].
  intros w c. apply (co_rates _ (so_core _ _ HI)).
Qed.

(** C7. A thread that nothing interrupts does in its moves what Relay does in one turn: for the
    acceptance of a connection, any item a connection reads, a flush and a sweep, from any state
    in which the thread is free, there are moves that run the turn on the same script and leave
    the same relay and every other thread as it was. *)
Theorem turns_are_uninterrupted_moves l w i : turn_of w l → moves_for l w i.
Proof.
  destruct l; simpl; intros Hn; try done.
  - apply opened_moves.
  - by apply received_moves.
  - by apply (task_moves FlushTask).
  - by apply (task_moves QueueSweepTask).
  - by apply (task_moves FileSweepTask).
Qed.
End Properties.

(** ** Witnesses *)

Section Witnesses.
#[local] Existing Instances gmap_redb unary_uuid demo_signal demo_hashing demo_base64 demo_json QueueProps.demo_serde
  FileProps.meta_serde auth_serde bundle_serde.

Lemma story_history : history idle_threads (moments story idle_threads) told.
Proof. apply start_history. by vm_compute. Qed.

Lemma threads_keep_invariant_witness :
  wf_mailboxes (mailbox_auth (world told))
  ∧ mailbox_count (world told) = Z.of_nat (size (mailbox_auth (world told))) + uncounted told.
Proof.
  destruct (threads_keep_invariant demo_state _ told started_demo story_history) as (Hm & _ & _ & Hn & _).
  split; [exact Hm|exact Hn].
Defined.

Lemma typed_demo : typed_app demo_state.
Proof.
  split; try done.
  - simpl. by intros rid x [<- <-]%lookup_singleton_Some.
  - simpl. by intros id b [<- <-]%lookup_singleton_Some.
Qed.

Lemma threads_keep_types_witness : typed told.
Proof. apply (threads_keep_types demo_state _ told started_demo typed_demo story_history). Defined.

Lemma turns_are_uninterrupted_moves_witness :
  turn_of told (Received 0%nat demo_draws (Text "ack")) ∧ moves_for (Received 0%nat demo_draws (Text "ack")) told at_ten.
Proof.
  assert (turn_of told (Received 0%nat demo_draws (Text "ack"))) as H by by vm_compute. split; [exact H|].
  apply (turns_are_uninterrupted_moves _ told at_ten H).
Defined.

Lemma threads_stay_within_caps_witness : Z.of_nat (size (sockets told)) ≤ MAX_CONNECTIONS.
Proof. apply (threads_stay_within_caps demo_state _ told started_demo story_history). Defined.

(** The story, and then a second send. *)
Definition sending_again : list (Move * io) := heard 1%nat 8%nat "send" :: runs 9 (inl 1%nat).

Lemma sends_stay_within_rate_witness :
  let tr := moments sending_again told in
  sends_to demo_rid tr = [(10, true)]
  ∧ within 10 (10 + RATE_WINDOW_MS) (accepted_of (sends_to demo_rid tr)) ≤ 2 * MAX_SENDS_PER_DEST_PER_WINDOW.
Proof.
  intros tr. assert (sends_to demo_rid tr = [(10, true)]) as Hs by by vm_compute. split; [exact Hs|].
  assert (forallb (λ mom, negb (drops_entry demo_rid mom)) tr = true) as Hno by by vm_compute.
  apply (sends_stay_within_rate demo_state (moments story idle_threads) told tr (perform_moves sending_again told)
    demo_rid 10 started_demo story_history).
  - apply moments_history. by vm_compute.
  - apply Forall_forall. intros mom Hin. apply negb_true_iff. apply (proj1 (forallb_forall _ tr) Hno). by apply list_elem_of_In.
  - rewrite Hs. repeat constructor.
Defined.

Definition told_envelope : StoredEnvelope :=
  {| env_id := 7%nat; env_to := demo_rid; envelope_type := "msg"; ciphertext := "c1" |}.

Lemma routes_lead_to_who_entered_witness :
  (0%nat, Envelope told_envelope) ∈ wire told ∧ Exists (entered_in 0%nat demo_rid) (moments story idle_threads).
Proof.
  assert ((0%nat, Envelope told_envelope) ∈ wire told) as Hin by (vm_compute; right; right; left). split; [exact Hin|].
  apply (proj2 (routes_lead_to_who_entered demo_state _ told started_demo story_history) 0%nat told_envelope Hin).
Defined.

Lemma send_ok_follows_a_copy_witness :
  (1%nat, SendOk 7%nat false (Some "ref"%string)) ∈ wire told ∧ Exists (handed_by 1%nat 7%nat) (moments story idle_threads).
Proof.
  assert ((1%nat, SendOk 7%nat false (Some "ref"%string)) ∈ wire told) as Hin by (vm_compute; do 3 right; left).
  split; [exact Hin|]. apply (send_ok_follows_a_copy demo_state _ told 1%nat 7%nat _ _ started_demo story_history Hin).
Defined.

(** The socket is about to take its message off, or to retire. *)
Definition acking : list (Move * io) := story ++ heard 0%nat 1%nat "ack" :: runs 2 (inl 0%nat).

Definition retiring : list (Move * io) := story ++ heard 0%nat 1%nat "retire" :: runs 2 (inl 0%nat).

Definition next_world (w : Threads) (m : Move) : Threads := (move (E := Empty_set) m w at_ten).1.2.

Lemma next_world_moves w m : ∃ i', move (E := Empty_set) m w at_ten = (inr tt, next_world w m, i').
Proof.
  unfold next_world. destruct (move_unit w m at_ten) as (w' & i' & Hm). exists i'. by rewrite Hm.
Qed.

Definition told_message : QueueSpec.Message :=
  {| QueueSpec.msg_id := 7%nat; QueueSpec.msg_type := "msg"; QueueSpec.msg_ct := "c1"; QueueSpec.msg_at := 10 |}.

Lemma threads_take_messages_for_a_reason_witness :
  let w := perform_moves acking idle_threads in
  told_message ∈ QueueSpec.abs (queues (world w)) demo_rid
  ∧ ∃ who, Ran (inl 0%nat) = Ran who ∧ message_gone (moments acking idle_threads) w at_ten demo_rid told_message who.
Proof.
  intros w. assert (told_message ∈ QueueSpec.abs (queues (world w)) demo_rid) as Hin by (vm_compute; left). split; [exact Hin|].
  destruct (next_world_moves w (Ran (inl 0%nat))) as [i' Hm].
  assert (told_message ∉ QueueSpec.abs (queues (world (next_world w (Ran (inl 0%nat))))) demo_rid) as Hout
    by (vm_compute; by intros ?%elem_of_nil).
  assert (ready w (Ran (inl 0%nat)) ∧ move_pre w (Ran (inl 0%nat)) at_ten) as [Hr Hp] by (apply can_move_sound; by vm_compute).
  apply (threads_take_messages_for_a_reason demo_state (moments acking idle_threads) w (Ran (inl 0%nat)) at_ten
    (next_world w (Ran (inl 0%nat))) i' demo_rid told_message started_demo); [|exact Hr|exact Hp|exact Hm|exact Hin|exact Hout].
  apply start_history. by vm_compute.
Defined.

Lemma threads_change_owners_by_removal_witness :
  let w := perform_moves retiring idle_threads in
  let w' := next_world w (Ran (inl 0%nat)) in
  ∃ x, mailbox_auth (world w) !! demo_rid = Some x
    ∧ ((∃ y, mailbox_auth (world w') !! demo_rid = Some y ∧ receive_auth_hash y = receive_auth_hash x)
       ∨ mailbox_auth (world w') !! demo_rid = None
         ∧ ∃ who, Ran (inl 0%nat) = Ran who ∧ owner_gone (moments retiring idle_threads) w demo_rid x who).
Proof.
  intros w w'. assert (is_Some (mailbox_auth (world w) !! demo_rid)) as [x Hx] by (vm_compute; by eexists).
  exists x. split; [exact Hx|]. destruct (next_world_moves w (Ran (inl 0%nat))) as [i' Hm].
  assert (ready w (Ran (inl 0%nat)) ∧ move_pre w (Ran (inl 0%nat)) at_ten) as [Hr Hp] by (apply can_move_sound; by vm_compute).
  apply (threads_change_owners_by_removal demo_state (moments retiring idle_threads) w (Ran (inl 0%nat)) at_ten w' i'
    demo_rid x started_demo); [|exact Hr|exact Hp|exact Hm|exact Hx].
  apply start_history. by vm_compute.
Defined.

(** The story, and a flush that a second Hello interrupts. *)
Definition flushing : list (Move * io) :=
  story ++ (Woke FlushTask, at_ten) :: runs 5 (inr FlushTask) ++ entering 2%nat "other" ++ runs 7 (inr FlushTask).

Lemma write_back_misses_nothing_witness :
  let w := perform_moves flushing idle_threads in
  demo_rid ∉ dirty_auth (world w) ∧ durable_auth (world w) !! demo_rid ≡ mailbox_auth (world w) !! demo_rid.
Proof.
  intros w. assert (demo_rid ∉ dirty_auth (world w)) as Hd by (apply (bool_decide_unpack _); by vm_compute).
  split; [exact Hd|].
  assert (history idle_threads (moments flushing idle_threads) w) as Hh by (apply start_history; by vm_compute).
  assert (running w = ∅) as Hrun by by vm_compute.
  assert (none_fails flushing idle_threads = true) as Hf by by vm_compute. apply none_fails_sound in Hf.
  clearbody w. revert Hh Hf. generalize (moments flushing idle_threads). intros tr Hh Hf.
  apply (proj1 (write_back_misses_nothing demo_state tr w started_demo Coherent_demo Hh Hf ltac:(by rewrite Hrun)) demo_rid Hd).
  intros who p. rewrite Hrun. done.
Defined.
End Witnesses.
