(* ===== verification/Calls.v ===== *)
(** Calls of a store's methods on several threads.

    A store's methods run in closures of [spawn_blocking], on as many threads as
    there are calls.  Each is taken apart into operations; a point is where a call
    stands between two of them.  The class [Calls] is what a store tells of its
    methods: where a call begins, the next operation at a point, which points are
    inside a write transaction of the database, which wait for one, and what its
    callers ([call_pre]) and its operations ([step_pre]) assume.

    [run_move] is a move of the machine, in which any number of calls are under way
    and any one goes on.  The database has one write transaction at a time: a call
    that is about to begin one waits until no other call is inside one ([ready]). *)
From Stdlib Require Import ZArith Lia.
From stdpp Require Import base gmap list.
From S2P Require Import Prelude.

Class Calls (S P C : Type) := {
  entry_point : C → P;
  next_point : P → M S Empty_set P;
  inside : P → bool;
  waiting : P → bool;
  over : P → bool;
  call_pre : S → C → Prop;
  step_pre : S → io → Prop;
}.

(** ** The machine *)

Record Machine {S P : Type} := { shared : S; under_way : gmap nat P }.
Arguments Machine : clear implicits.

Section Machine.
Context {S P C : Type} `{!Calls S P C}.
Implicit Types (w : Machine S P).

Definition set_under_way (c : gmap nat P) w : Machine S P := {| shared := shared w; under_way := c |}.

Inductive Move :=
  | Called (who : nat) (c : C)
  | Ran (who : nat).

(** A call that is over is collected by its caller. *)
Definition go_on (who : nat) : M (Machine S P) Empty_set () :=
  w ← get;
  match under_way w !! who with
  | Some p =>
      if over p then put (set_under_way (delete who (under_way w)) w)
      else
        '(p', s) ← with_state (shared w) (next_point p);
        put {| shared := s; under_way := <[who := p']> (under_way w) |}
  | None => mret ()
  end.

Definition run_move (m : Move) : M (Machine S P) Empty_set () :=
  match m with
  | Called who c => modify (λ w, set_under_way (<[who := entry_point c]> (under_way w)) w)
  | Ran who => go_on who
  end.

(** A transaction begins when no other is under way. *)
Definition unlocked w : Prop := map_Forall (λ _ p, inside p = false) (under_way w).

Definition ready w (m : Move) : Prop :=
  match m with
  | Called who _ => under_way w !! who = None
  | Ran who => match under_way w !! who with
               | Some p => waiting p = true → unlocked w
               | None => False
               end
  end.

Definition move_pre w (m : Move) (i : io) : Prop :=
  match m with
  | Called _ c => call_pre (shared w) c
  | Ran _ => step_pre (shared w) i
  end.

#[global] Instance ready_dec w (m : Move) : Decision (ready w m).
Proof.
  destruct m as [who c|who]; simpl; [apply _|]. destruct (under_way w !! who) as [p|]; [|apply _].
  unfold unlocked. apply _.
Defined.

(** ** Histories *)

Record Moment := {
  at_ : Machine S P;
  moved : Move;
  calls : io;
}.

Inductive history (w0 : Machine S P) : list Moment → Machine S P → Prop :=
  | history_nil : history w0 [] w0
  | history_snoc tr w m i w' i' :
      history w0 tr w → ready w m → move_pre w m i → run_move m w i = (inr tt, w', i') →
      history w0 (tr ++ [{| at_ := w; moved := m; calls := i |}]) w'.

Definition idle_machine (s : S) : Machine S P := {| shared := s; under_way := ∅ |}.

Definition asked (tr : list Moment) (c : C) : Prop := Exists (λ mom, ∃ who, moved mom = Called who c) tr.

Lemma asked_more tr mom c : asked tr c → asked (tr ++ [mom]) c.
Proof. intros H. apply Exists_app. by left. Qed.

(** An invariant of the moves holds after every history. *)
Lemma history_keeps (Inv : Machine S P → Prop) w0 tr w :
  (∀ w m i w' i', Inv w → ready w m → move_pre w m i → run_move m w i = (inr tt, w', i') → Inv w') →
  Inv w0 → history w0 tr w → Inv w.
Proof. intros Hstep H0. induction 1; [done|by eapply Hstep]. Qed.

Lemma history_trans w0 tr1 w1 tr2 w2 : history w0 tr1 w1 → history w1 tr2 w2 → history w0 (tr1 ++ tr2) w2.
Proof.
  intros H1. induction 1; [by rewrite app_nil_r|]. rewrite app_assoc. by eapply history_snoc.
Qed.

(** What a history goes through, it reaches. *)
Lemma history_reaches w0 tr w mom : history w0 tr w → mom ∈ tr → ∃ tr', history w0 tr' (at_ mom).
Proof.
  induction 1 as [|tr w m i w' i' Hh IH Hr Hpre Hrun]; [by intros ?%not_elem_of_nil|].
  intros [Hin|Hin]%elem_of_app; [auto|]. apply list_elem_of_singleton in Hin as ->. eauto.
Qed.

(** A move of a call: it is collected, or performs an operation. *)
Lemma go_on_seen w who p i r w' i' :
  under_way w !! who = Some p → go_on who w i = (r, w', i') →
  over p = true ∧ w' = set_under_way (delete who (under_way w)) w
  ∨ over p = false ∧ ∃ p' s', next_point p (shared w) i = (inr p', s', i')
      ∧ w' = {| shared := s'; under_way := <[who := p']> (under_way w) |}.
Proof.
  intros Hp. unfold go_on, mbind, M_bind, get, with_state, put. rewrite Hp. destruct (over p).
  - intros [= <- <- <-]. by left.
  - destruct (next_point p (shared w) i) as [[[[]|p'] s'] i1]. intros [= <- <- <-]. right. split; [done|]. by exists p', s'.
Qed.

(** ** Sums over the calls *)

Definition debt (f : P → Z) w : Z := msum (λ _ p, f p) (under_way w).

Lemma debt_idle f s : debt f (idle_machine s) = 0.
Proof. apply msum_empty. Qed.

Lemma debt_called f w who c :
  under_way w !! who = None →
  debt f (set_under_way (<[who := entry_point c]> (under_way w)) w) = debt f w + f (entry_point c).
Proof. intros Hn. unfold debt. simpl. rewrite msum_insert_new by done. lia. Qed.

Lemma debt_collected f w who p :
  under_way w !! who = Some p → debt f (set_under_way (delete who (under_way w)) w) = debt f w - f p.
Proof. intros Hp. unfold debt. simpl. rewrite msum_delete. unfold contrib. by rewrite Hp. Qed.

Lemma owed_ran f s w who p p' :
  under_way w !! who = Some p →
  debt f {| shared := s; under_way := <[who := p']> (under_way w) |} = debt f w - f p + f p'.
Proof. intros Hp. unfold debt. simpl. rewrite msum_insert. unfold contrib. by rewrite Hp. Qed.

Lemma owed_nonneg f w : (∀ who p, under_way w !! who = Some p → 0 ≤ f p) → 0 ≤ debt f w.
Proof. apply msum_nonneg. Qed.

Lemma owed_of f w who p :
  (∀ who p, under_way w !! who = Some p → 0 ≤ f p) → under_way w !! who = Some p → f p ≤ debt f w.
Proof.
  intros Hf Hp. pose proof (msum_contrib_le (λ _ p, f p) (under_way w) who Hf) as H.
  unfold contrib in H. by rewrite Hp in H.
Qed.

Lemma owed_two f w who who' p p' :
  (∀ who p, under_way w !! who = Some p → 0 ≤ f p) → who ≠ who' →
  under_way w !! who = Some p → under_way w !! who' = Some p' → f p + f p' ≤ debt f w.
Proof.
  intros Hf Hne Hp Hp'. unfold debt.
  pose proof (msum_delete (λ _ p, f p) (under_way w) who) as Hd. unfold contrib in Hd. rewrite Hp in Hd.
  pose proof (msum_contrib_le (λ _ p, f p) (delete who (under_way w)) who') as H. unfold contrib in H.
  rewrite lookup_delete_ne, Hp' in H by done. specialize (H ltac:(intros ?? [_ ?]%lookup_delete_Some; eauto)). lia.
Qed.

(** ** One call alone *)

(** A call that nothing interrupts, for [n] operations. *)
Fixpoint alone (n : nat) (p : P) : M S Empty_set P :=
  match n with
  | O => mret p
  | Datatypes.S n => p' ← next_point p; alone n p'
  end.

(** From [p] in [s], with the script [i], some operations lead to [p'], [s'] and [i']. *)
Definition leads p s i p' s' i' : Prop := ∃ n, alone n p s i = (inr p', s', i').

Lemma leads_refl p s i : leads p s i p s i.
Proof. by exists 0%nat. Qed.

Lemma leads_step p s i p1 s1 i1 p' s' i' :
  next_point p s i = (inr p1, s1, i1) → leads p1 s1 i1 p' s' i' → leads p s i p' s' i'.
Proof. intros H [n Hn]. exists (Datatypes.S n). simpl. unfold mbind, M_bind. by rewrite H. Qed.

Lemma alone_add n m p s i p1 s1 i1 : alone n p s i = (inr p1, s1, i1) → alone (n + m) p s i = alone m p1 s1 i1.
Proof.
  revert p s i. induction n as [|n IH]; intros p s i; simpl; [by intros [= -> -> ->]|].
  unfold mbind, M_bind. destruct (next_point p s i) as [[[e|p2] s2] i2]; [done|]. apply IH.
Qed.

Lemma leads_trans p s i p1 s1 i1 p' s' i' :
  leads p s i p1 s1 i1 → leads p1 s1 i1 p' s' i' → leads p s i p' s' i'.
Proof. intros [n Hn] [m Hm]. exists (n + m)%nat. by rewrite (alone_add _ _ _ _ _ _ _ _ Hn). Qed.
End Machine.

Lemma wp_arbitrary {S E A} (m : M S E A) (Q : E + A → S → io → Prop) s i : (∀ r s' i', Q r s' i') → wp m Q s i.
Proof. intros H. unfold wp. destruct (m s i) as [[r s'] i']. apply H. Qed.

(** A method whose transaction is a computation of its own. *)
Lemma bind_assoc {S E A B C} (m : M S E A) (f : A → M S E B) (k : B → M S E C) (g : A → M S E C) s i :
  (∀ a s' i', (f a ≫= k) s' i' = g a s' i') → ((m ≫= f) ≫= k) s i = (m ≫= g) s i.
Proof. intros H. unfold mbind, M_bind in *. by destruct (m s i) as [[[e|a] s'] i']. Qed.

Arguments Move : clear implicits.
Arguments Moment : clear implicits.

(** ** Calls end *)

(** Measures of a point that fall with every operation: [first], and where it does
    not, [second]. *)
Class Falling (S P C : Type) `{!Calls S P C} := {
  first_measure : P → Z;
  second_measure : P → Z;
  first_nonneg : ∀ p, 0 ≤ first_measure p;
  second_nonneg : ∀ p, 0 ≤ second_measure p;
  over_positive : ∀ p, over p = true → 0 < second_measure p;
  measures_fall : ∀ p s p' s' i i', next_point p s i = (inr p', s', i') → over p = false →
    first_measure p' < first_measure p ∨ first_measure p' = first_measure p ∧ second_measure p' < second_measure p;
  waiting_outside : ∀ p, waiting p = true → inside p = false;
}.

Section Ends.
Context {S P C : Type} `{!Calls S P C} `{!Falling S P C}.
Implicit Types (w : Machine S P).

Definition goes_on w w' : Prop := ∃ who i i', ready w (Ran who) ∧ run_move (Ran who) w i = (inr tt, w', i').

Lemma debts_fall w w' :
  goes_on w w' →
  debt first_measure w' < debt first_measure w
  ∨ debt first_measure w' = debt first_measure w ∧ debt second_measure w' < debt second_measure w.
Proof.
  intros (who & i & i' & Hr & Hrun). simpl in *. destruct (under_way w !! who) as [p|] eqn:Hp; [|done].
  destruct (go_on_seen _ _ _ _ _ _ _ Hp Hrun) as [[Ho ->]|(Ho & p' & s' & Hs & ->)].
  - rewrite !(debt_collected _ _ _ _ Hp). pose proof (first_nonneg p). pose proof (over_positive p Ho). lia.
  - rewrite !(owed_ran _ _ _ _ _ _ Hp). destruct (measures_fall _ _ _ _ _ _ Hs Ho); lia.
Qed.

Lemma goes_on_ends w : Acc (λ w2 w1, goes_on w1 w2) w.
Proof.
  assert (∀ w, 0 ≤ debt first_measure w) as H1 by (intros w'; apply msum_nonneg; intros; apply first_nonneg).
  assert (∀ w, 0 ≤ debt second_measure w) as H2 by (intros w'; apply msum_nonneg; intros; apply second_nonneg).
  remember (Z.to_nat (debt first_measure w)) as n eqn:Hn. revert w Hn.
  induction n as [n IHn] using lt_wf_ind. intros w Hn.
  remember (Z.to_nat (debt second_measure w)) as k eqn:Hk. revert w Hn Hk.
  induction k as [k IHk] using lt_wf_ind. intros w Hn Hk. constructor. intros w' Hgo.
  pose proof (H1 w). pose proof (H1 w'). pose proof (H2 w). pose proof (H2 w').
  destruct (debts_fall _ _ Hgo) as [Hl|[He Hl]].
  - apply (IHn (Z.to_nat (debt first_measure w'))); [lia|done].
  - apply (IHk (Z.to_nat (debt second_measure w'))); [lia| |done]. subst n. by rewrite He.
Qed.

Lemma move_total w who i : ∃ w' i', run_move (Ran who) w i = (inr tt, w', i').
Proof. destruct (run_move (Ran who) w i) as [[[[]|[]] w'] i']. eauto. Qed.

(** No deadlock: whoever is inside a transaction does not wait for another. *)
Lemma some_ready w : under_way w ≠ ∅ → ∃ who, ready w (Ran who).
Proof.
  intros Hne. destruct (decide (unlocked w)) as [Hu|Hl].
  - apply map_choose in Hne as (who & p & Hp). exists who. simpl. by rewrite Hp.
  - unfold unlocked in Hl. apply map_not_Forall in Hl; [|intros; apply _]. destruct Hl as (who & p & Hp & Hh).
    exists who. simpl. rewrite Hp. intros Hw%waiting_outside. congruence.
Qed.
End Ends.

(** ** Histories by evaluation *)

Definition isSome {A} (o : option A) : bool := match o with Some _ => true | None => false end.

Section Play.
Context {S P C : Type} `{!Calls S P C}.
Context `{Hpre : ∀ (w : Machine S P) (m : Move C) i, Decision (move_pre w m i)}.

(** The moves one after the other, as long as they may be made. *)
Fixpoint play (moves : list (Move C * io)) (w : Machine S P) : option (Machine S P) :=
  match moves with
  | [] => Some w
  | (m, i) :: rest => if decide (ready w m ∧ move_pre w m i) then play rest (run_move m w i).1.2 else None
  end.

Fixpoint moments (moves : list (Move C * io)) (w : Machine S P) : list (Moment S P C) :=
  match moves with
  | [] => []
  | (m, i) :: rest => {| at_ := w; moved := m; calls := i |} :: moments rest (run_move m w i).1.2
  end.

Lemma play_history w0 tr moves w w' :
  history w0 tr w → play moves w = Some w' → history w0 (tr ++ moments moves w) w'.
Proof.
  revert tr w. induction moves as [|[m i] moves IH]; intros tr w Hh; simpl; [by intros [= <-]; rewrite app_nil_r|].
  case_decide as Hd; [|done]. destruct Hd as [Hr Hp]. intros Hplay.
  destruct (run_move m w i) as [[[[]|[]] w1] i1] eqn:Hrun. simpl in *.
  rewrite cons_middle, app_assoc. apply IH; [|done]. by eapply history_snoc.
Qed.

Definition after_from (w : Machine S P) (moves : list (Move C * io)) : Machine S P := default w (play moves w).

Lemma played_from w moves : isSome (play moves w) = true → history w (moments moves w) (after_from w moves).
Proof.
  intros H. apply (play_history w [] moves w); [constructor|]. unfold after_from. by destruct (play moves w).
Qed.
End Play.
