(* ===== verification/FileThreads.v ===== *)
(** The file store on several threads: its methods point by point.

    [FileStore] runs a method in one go.  The relay runs each in a closure of
    [spawn_blocking], on as many threads as there are calls, and a method takes
    its locks one after the other: the entry of the cache, the write transaction,
    the atomic counters.  A [Point] is where a call stands between two of these
    operations, with the local variables it has there; [step] performs the next
    one.  [Calls] runs any number of them.

    The database has one write transaction at a time.  Inside, the tables are the
    call's own until it commits or drops the transaction; so what [write_body] and
    [removal] do with them is one step, with the one operation on a counter that is
    in it. *)
From Stdlib Require Import ZArith Lia Ascii String.
From stdpp Require Import base gmap strings list.
From S2P Require Import Prelude Redb RustStd Config Util FileStore Calls.

Record Upload := {
  up_id : string;
  up_index : Z;
  up_total_chunks : Z;
  up_total_bytes : Z;
  up_data : bytes;
}.

Inductive Call :=
  | StoreChunk (u : Upload)
  | FetchChunk (transfer_id : string) (chunk_index : Z)
  | DeleteTransfer (transfer_id : string)
  | SweepExpired.

Inductive Answer :=
  | Stored (r : FileReject + StoredChunk)
  | Fetched (r : FileReject + FetchedChunk)
  | Deleted (r : anyhow + bool)
  | Swept (r : anyhow + Z).

(** What a deletion is part of: a call of its own, or a sweep that has [rest]
    before it and has removed [n]. *)
Inductive Purpose :=
  | Asked (transfer_id : string)
  | Sweeping (rest : list string) (n : Z).

Section FileThreads.
Context {RD : Redb} {SM : Serde FileMeta}.

(** The write that [write_chunk]'s closure prepared. *)
Record Written := {
  wr_meta : Table;
  wr_chunks : Table;
  wr_received : Z;
  wr_stored : Z;
  wr_created_at : Z;
}.

(** The transaction of a deletion, before its commit. *)
Record Removal := {
  rm_meta : Table;
  rm_chunks : Table;
  rm_stored : Z;
  rm_existed : bool;
}.

Inductive Point :=
  (* store_chunk *)
  | Claiming (u : Upload)
  | TakingSlot (u : Upload)
  | Beginning (u : Upload) (creating : bool)
  | Filling (u : Upload) (creating : bool)
  | Undoing (u : Upload) (creating : bool) (e : FileReject) (l : Settle)
  | Dropping (u : Upload) (creating : bool) (e : FileReject)
  | Committing (u : Upload) (creating : bool) (w : Written) (l : Settle)
  | Uncommitted (u : Upload) (creating : bool) (l : Settle)
  | Trimming (u : Upload) (w : Written) (l : Settle)
  | Mirroring (u : Upload) (w : Written)
  | GivingUp (u : Upload) (e : FileReject)
  | Unclaiming (u : Upload) (e : FileReject)
  (* fetch_chunk *)
  | LookingUp (transfer_id : string) (chunk_index : Z)
  | Reading (transfer_id : string) (chunk_index : Z) (m : FileMeta)
  (* delete_transfer *)
  | Starting (transfer_id : string) (p : Purpose)
  | Removing (transfer_id : string) (p : Purpose)
  | Abandoning (p : Purpose)
  | CommittingRemoval (transfer_id : string) (p : Purpose) (w : Removal)
  | Forgetting (transfer_id : string) (p : Purpose) (stored : Z)
  | ReturningSlot (p : Purpose) (stored : Z)
  | ReturningBytes (p : Purpose) (stored : Z)
  (* sweep_expired *)
  | Listing
  | Returned (c : Call) (a : Answer).

(** ** Where a call stands *)

Definition file_entry (c : Call) : Point :=
  match c with
  | StoreChunk u => Claiming u
  | FetchChunk id idx => LookingUp id idx
  | DeleteTransfer id => Starting id (Asked id)
  | SweepExpired => Listing
  end.

(** Inside a write transaction. *)
Definition holds (p : Point) : bool :=
  match p with
  | Filling _ _ | Undoing _ _ _ _ | Dropping _ _ _ | Committing _ _ _ _
  | Removing _ _ | Abandoning _ | CommittingRemoval _ _ _ => true
  | _ => false
  end.

(** About to begin one. *)
Definition waits (p : Point) : bool :=
  match p with Beginning _ _ | Starting _ _ => true | _ => false end.

Definition answered (u : Upload) (r : FileReject + StoredChunk) : Point := Returned (StoreChunk u) (Stored r).

(** [write_chunk] has failed with [e]. *)
Definition rejected (u : Upload) (creating : bool) (e : FileReject) : Point :=
  if creating then GivingUp u e else answered u (inl e).

(** The next transfer of a sweep. *)
Definition sweep_on (rest : list string) (n : Z) : Point :=
  match rest with
  | [] => Returned SweepExpired (Swept (inr n))
  | id :: rest => Starting id (Sweeping rest n)
  end.

(** A deletion has returned. *)
Definition resume (p : Purpose) (r : anyhow + bool) : Point :=
  match p, r with
  | Asked id, _ => Returned (DeleteTransfer id) (Deleted r)
  | Sweeping _ _, inl e => Returned SweepExpired (Swept (inl e))
  | Sweeping rest n, inr existed => sweep_on rest (if existed then n +! 1 else n)
  end.

(** ** The operations *)

(** [store_chunk] up to the entry of the cache, which claims the id. *)
Definition claim {E : Type} (u : Upload) : M FileStore E Point :=
  st ← get;
  let tc := up_total_chunks u in
  let tb := up_total_bytes u in
  if bool_decide (up_data u = []) || (tc =? 0) || (max_chunks (config st) <? tc) || (tc <=? up_index u)
  then mret (answered u (inl BadRequest))
  else if (tb =? 0) || (max_file_bytes (config st) <? tb)
  then mret (answered u (inl TooLarge))
  else
    match meta st !! up_id u with
    | Some m =>
        if negb (total_chunks m =? tc) || negb (total_bytes m =? tb) then mret (answered u (inl BadRequest))
        else mret (Beginning u false)
    | None =>
        if negb (up_index u =? 0) then mret (answered u (inl NotFound))
        else
          now ← now_ms;
          _ ← modify (λ st, set_meta (<[up_id u :=
                {| total_chunks := tc; total_bytes := tb; stored_bytes := 0; received_chunks := 0;
                   created_at_ms := now |}]> (meta st)) st);
          mret (TakingSlot u)
    end.

Definition take_slot {E : Type} (u : Upload) : M FileStore E Point :=
  r ← attempt reserve_slot;
  mret (match r with inr _ => Beginning u true | inl e => Unclaiming u e end).

Definition begin_fill {E : Type} (u : Upload) (creating : bool) : M FileStore E Point :=
  r ← attempt (begin_txn Full);
  mret (match r with inr _ => Filling u creating | inl e => rejected u creating e end).

(** The closure of [write_chunk]. *)
Definition fill {E : Type} (u : Upload) (creating : bool) : M FileStore E Point :=
  '(write, l) ← with_local {| reserved_add := 0; release_after_commit := 0 |}
    (write_body (up_id u) (up_index u) (up_total_chunks u) (up_total_bytes u) (up_data u) (blen (up_data u)) creating);
  mret (match write with
        | inr (mt, ct, received, stored, created_at) =>
            Committing u creating {| wr_meta := mt; wr_chunks := ct; wr_received := received; wr_stored := stored;
                                     wr_created_at := created_at |} l
        | inl e => Undoing u creating e l
        end).

Definition commit_fill {E : Type} (u : Upload) (creating : bool) (w : Written) (l : Settle) : M FileStore E Point :=
  committed ← attempt (commit Full);
  match committed with
  | inr _ => _ ← modify (set_tables (wr_meta w) (wr_chunks w)); mret (Trimming u w l)
  | inl _ => mret (Uncommitted u creating l)
  end.

Definition mirrored (u : Upload) (w : Written) : FileMeta :=
  {| total_chunks := up_total_chunks u; total_bytes := up_total_bytes u; stored_bytes := wr_stored w;
     received_chunks := wr_received w; created_at_ms := wr_created_at w |}.

Definition forget {E : Type} (transfer_id : string) : M FileStore E () :=
  modify (λ st, set_meta (delete transfer_id (meta st)) st).

Definition look_up {E : Type} (transfer_id : string) (chunk_index : Z) : M FileStore E Point :=
  st ← get;
  mret (match meta st !! transfer_id with
        | None => Returned (FetchChunk transfer_id chunk_index) (Fetched (inl NotFound))
        | Some m =>
            if total_chunks m <=? chunk_index
            then Returned (FetchChunk transfer_id chunk_index) (Fetched (inl BadRequest))
            else Reading transfer_id chunk_index m
        end).

(** A read transaction sees the tables as they were when it began. *)
Definition read_chunk (transfer_id : string) (chunk_index : Z) (m : FileMeta) : M FileStore FileReject FetchedChunk :=
  st ← get;
  _ ← begin_txn NotFound;
  table ← open_table NotFound (file_chunks st);
  v ← txn_get NotFound table (chunk_key transfer_id chunk_index);
  match v with
  | Some b => mret {| data := b; fc_total_chunks := total_chunks m; fc_total_bytes := total_bytes m |}
  | None => throw NotFound
  end.

(** [delete_transfer] inside its transaction. *)
Definition removal (transfer_id : string) : M FileStore anyhow Removal :=
  let '(lo, hi) := chunk_bounds transfer_id in
  st ← get;
  meta_table ← open_table Failed (file_meta st);
  v ← txn_get Failed meta_table transfer_id;
  let '(stored, existed) :=
    match v with
    | Some b => (match from_slice b with Some m => stored_bytes m | None => 0 end, true)
    | None => (0, false)
    end in
  meta_table ← txn_remove Failed meta_table transfer_id;
  chunk_table ← open_table Failed (file_chunks st);
  entries ← txn_range Failed chunk_table lo hi;
  keys ← ok_keys entries;
  chunk_table ← txn_remove_all Failed chunk_table keys;
  mret {| rm_meta := meta_table; rm_chunks := chunk_table; rm_stored := stored; rm_existed := existed |}.

Definition commit_removal {E : Type} (transfer_id : string) (p : Purpose) (w : Removal) : M FileStore E Point :=
  committed ← attempt (commit Failed);
  match committed with
  | inr _ =>
      _ ← modify (set_tables (rm_meta w) (rm_chunks w));
      mret (if rm_existed w then Forgetting transfer_id p (rm_stored w) else resume p (inr false))
  | inl e => mret (resume p (inl e))
  end.

(** The next operation of a call. *)
Definition step {E : Type} (p : Point) : M FileStore E Point :=
  match p with
  | Claiming u => claim u
  | TakingSlot u => take_slot u
  | Beginning u creating => begin_fill u creating
  | Filling u creating => fill u creating
  | Undoing u creating e l => _ ← attempt (release_if (reserved_add l)); mret (Dropping u creating e)
  | Dropping u creating e => mret (rejected u creating e)
  | Committing u creating w l => commit_fill u creating w l
  | Uncommitted u creating l => _ ← attempt (release_if (reserved_add l)); mret (rejected u creating Full)
  | Trimming u w l => _ ← attempt (release_if (release_after_commit l)); mret (Mirroring u w)
  | Mirroring u w =>
      _ ← modify (λ st, set_meta (mirror (up_id u) (mirrored u w) (meta st)) st);
      mret (answered u (inr {| sc_received_chunks := wr_received w; sc_total_chunks := up_total_chunks u |}))
  | GivingUp u e => _ ← release_slot; mret (Unclaiming u e)
  | Unclaiming u e => _ ← forget (up_id u); mret (answered u (inl e))
  | LookingUp id idx => look_up id idx
  | Reading id idx m => r ← attempt (read_chunk id idx m); mret (Returned (FetchChunk id idx) (Fetched r))
  | Starting id p => r ← attempt (begin_txn Failed);
      mret (match r with inr _ => Removing id p | inl e => resume p (inl e) end)
  | Removing id p => r ← attempt (removal id);
      mret (match r with inr w => CommittingRemoval id p w | inl _ => Abandoning p end)
  | Abandoning p => mret (resume p (inl Failed))
  | CommittingRemoval id p w => commit_removal id p w
  | Forgetting id p stored => _ ← forget id; mret (ReturningSlot p stored)
  | ReturningSlot p stored => _ ← release_slot; mret (ReturningBytes p stored)
  | ReturningBytes p stored => _ ← release_bytes stored; mret (resume p (inr true))
  | Listing => now ← now_ms; st ← get; mret (sweep_on (expired_ids (config st) now (meta st)) 0)
  | Returned c a => mret (Returned c a)
  end.

(** ** The calls *)

(** What the caller of a method ensures: an id without a colon, unsigned numbers,
    and byte counts that do not reach 2^64. *)
Record upload_pre (cfg : FileConfig) (u : Upload) : Prop := {
  upl_id : no_char ":" (up_id u);
  upl_nat : 0 ≤ up_index u ∧ 0 ≤ up_total_chunks u ∧ 0 ≤ up_total_bytes u;
  upl_file : max_file_bytes cfg + blen (up_data u) ≤ u64_max;
  upl_total : max_total_file_bytes cfg + blen (up_data u) ≤ u64_max;
}.

Definition file_call_pre (st : FileStore) (c : Call) : Prop :=
  match c with
  | StoreChunk u => upload_pre (config st) u
  | DeleteTransfer id => no_char ":" id
  | FetchChunk _ _ | SweepExpired => True
  end.

(** The file store as an instance: [items_fine] says that no item of a chunk range
    is unreadable. *)
#[global] Instance file_calls : Calls FileStore Point Call := {
  entry_point := file_entry;
  next_point := step;
  inside := holds;
  waiting := waits;
  over p := match p with Returned _ _ => true | _ => false end;
  call_pre := file_call_pre;
  step_pre _ := items_fine;
}.
End FileThreads.

Abbreviation Files := (Machine FileStore Point).
Abbreviation FileMoment := (Moment FileStore Point Call).
Abbreviation idle_files st := (idle_machine (P := Point) st).
