(* ===== verification/FileThreadsFacts.v ===== *)
(** What holds of the file store between any two operations of its calls.

    A call may be ahead of the tables: it holds bytes and a slot it has reserved
    and not written, or taken off the disk and not given back ([held], [slots]).
    It may own an id: from the entry it claims to its commit, and from the commit
    of a deletion to the removal of the entry ([owns]).  An id has one owner at a
    time, the disk or a call, and what is owned is in the cache ([Sound]). *)
From Stdlib Require Import ZArith Lia Ascii String.
From stdpp Require Import base gmap strings list.
From S2P Require Import Prelude Redb RustStd Config Util FileStore FileFacts FileRemovals Calls FileThreads.

Section Facts.
Context {RD : Redb} {SM : Serde FileMeta}.
Implicit Types (st : FileStore) (p : Point) (u : Upload) (id : string) (m c : FileMeta) (w : Files).

(** ** What a call owes and owns *)

Definition one (b : bool) : Z := if b then 1 else 0.

Definition held p : Z :=
  match p with
  | Undoing _ _ _ l | Committing _ _ _ l | Uncommitted _ _ l => reserved_add l
  | Trimming _ _ l => release_after_commit l
  | Forgetting _ _ stored | ReturningSlot _ stored | ReturningBytes _ stored => stored
  | _ => 0
  end.

Definition slots p : Z :=
  match p with
  | Beginning _ creating | Filling _ creating | Undoing _ creating _ _ | Dropping _ creating _
  | Committing _ creating _ _ | Uncommitted _ creating _ => one creating
  | GivingUp _ _ | Forgetting _ _ _ | ReturningSlot _ _ => 1
  | _ => 0
  end.

(** The id a call owns. *)
Definition owned p : option string :=
  match p with
  | TakingSlot u | GivingUp u _ | Unclaiming u _ => Some (up_id u)
  | Beginning u creating | Filling u creating | Undoing u creating _ _ | Dropping u creating _
  | Committing u creating _ _ | Uncommitted u creating _ => if creating then Some (up_id u) else None
  | Forgetting id _ _ => Some id
  | _ => None
  end.

Definition owns id p : Z := one (bool_decide (owned p = Some id)).

Definition on_disk st id : Z := one (bool_decide (is_Some (metas st !! id))).

(** ** The tables *)

(** With the number of chunks left out: an upload checks its index against the
    shape it saw in the cache, which need not be the one on disk any more. *)
Definition loosen m : FileMeta :=
  {| total_chunks := u32_max; total_bytes := total_bytes m; stored_bytes := stored_bytes m;
     received_chunks := received_chunks m; created_at_ms := created_at_ms m |}.

Definition same_shape m m' : Prop := total_chunks m = total_chunks m' ∧ total_bytes m = total_bytes m'.

Record Kept st : Prop := {
  kp_decodes : ∀ k v, tbl_get (file_meta st) k = Some v → is_Some (from_slice v : option FileMeta);
  kp_wf : wf_files (loosen <$> metas st) (chunks st);
  kp_config : config_ok (config st);
  kp_file : ∀ id m, metas st !! id = Some m → stored_bytes m ≤ max_file_bytes (config st);
  kp_keys : ∀ id c, meta st !! id = Some c → no_char ":" id;
  kp_shape : ∀ id m c, metas st !! id = Some m → meta st !! id = Some c → same_shape c m;
}.

(** ** Where a call stands, and what it has seen *)

Definition claimed_by u c : Prop := total_chunks c = up_total_chunks u ∧ total_bytes c = up_total_bytes u.

(** An upload past its checks. *)
Record fits_config (cfg : FileConfig) u : Prop := {
  fc_pre : upload_pre cfg u;
  fc_data : up_data u ≠ [];
  fc_chunks : 0 < up_total_chunks u ≤ max_chunks cfg;
  fc_index : up_index u < up_total_chunks u;
  fc_bytes : 0 < up_total_bytes u ≤ max_file_bytes cfg;
}.

(** The entry of an id that an upload is creating. *)
Definition claims st u : Prop := ∃ c, meta st !! up_id u = Some c ∧ claimed_by u c.

(** What the write that is being committed consists of. *)
Definition prepares st u (creating : bool) (wr : Written) (l : Settle) m : Prop :=
  let prev := prev_len (chunks st) (up_id u) (up_index u) in
    let m' := grow m prev (blen (up_data u)) in
    (if creating then claimed_by u m ∧ stored_bytes m = 0 ∧ received_chunks m = 0
     else metas st !! up_id u = Some m)
    ∧ wr_meta wr = tbl_insert (file_meta st) (up_id u) (to_vec m')
    ∧ wr_chunks wr = tbl_insert (file_chunks st) (chunk_key (up_id u) (up_index u)) (up_data u)
    ∧ wr_received wr = received_chunks m' ∧ wr_stored wr = stored_bytes m'
    ∧ l = {| reserved_add := Z.max 0 (blen (up_data u) - prev); release_after_commit := Z.max 0 (prev - blen (up_data u)) |}
    ∧ stored_bytes m' ≤ total_bytes m ∧ stored_bytes m' ≤ max_file_bytes (config st).

Definition prepared st u creating wr l : Prop := ∃ m, prepares st u creating wr l m.

(** What the deletion that is being committed consists of. *)
Definition removes st id (r : Removal) : Prop :=
  ∃ ks, rm_meta r = tbl_remove (file_meta st) id ∧ rm_chunks r = foldl tbl_remove (file_chunks st) ks
    ∧ (∀ k, k ∈ ks ↔ owner k = Some id ∧ is_Some (chunks st !! k))
    ∧ rm_stored r = FileRemovals.held st id ∧ rm_existed r = bool_decide (is_Some (metas st !! id)).

Definition purpose_ok (q : Purpose) : Prop :=
  match q with
  | Asked id => no_char ":" id
  | Sweeping rest _ => Forall (λ id, no_char ":" id) rest
  end.

Definition point_ok st p : Prop :=
  match p with
  | Claiming u => upload_pre (config st) u
  | TakingSlot u => fits_config (config st) u ∧ up_index u = 0 ∧ claims st u
  | Beginning u creating | Filling u creating =>
      fits_config (config st) u ∧ (creating = true → claims st u)
  | Dropping u creating _ => creating = true → claims st u
  | Undoing u creating _ l | Uncommitted u creating l => (creating = true → claims st u) ∧ 0 ≤ reserved_add l
  | Committing u creating wr l =>
      fits_config (config st) u ∧ (creating = true → claims st u) ∧ prepared st u creating wr l
  | Trimming u _ l => no_char ":" (up_id u) ∧ 0 ≤ release_after_commit l
  | Mirroring u _ => no_char ":" (up_id u)
  | GivingUp u _ | Unclaiming u _ => claims st u
  | Starting id q | Removing id q => no_char ":" id ∧ purpose_ok q
  | Abandoning q => purpose_ok q
  | CommittingRemoval id q r => no_char ":" id ∧ purpose_ok q ∧ removes st id r
  | Forgetting _ q stored | ReturningSlot q stored | ReturningBytes q stored => purpose_ok q ∧ 0 ≤ stored
  | LookingUp _ _ | Reading _ _ _ | Listing | Returned _ _ => True
  end.

Record Sound w : Prop := {
  so_kept : Kept (shared w);
  so_points : ∀ who p, under_way w !! who = Some p → point_ok (shared w) p;
  so_lock : ∀ who who' p p', under_way w !! who = Some p → under_way w !! who' = Some p' →
    holds p = true → holds p' = true → who = who';
  so_reserved : reserved_bytes (shared w) = total_stored (metas (shared w)) + debt held w
                ∧ reserved_bytes (shared w) ≤ max_total_file_bytes (config (shared w));
  so_count : transfer_count (shared w) = Z.of_nat (size (metas (shared w))) + debt slots w
             ∧ transfer_count (shared w) ≤ max_transfers (config (shared w));
  so_owner : ∀ id, on_disk (shared w) id + debt (owns id) w ≤ 1;
  so_cached : ∀ id, 0 < on_disk (shared w) id + debt (owns id) w → is_Some (meta (shared w) !! id);
}.

(** ** What is owed is not negative *)

Lemma owns_nonneg id p : 0 ≤ owns id p.
Proof. unfold owns, one. case_match; lia. Qed.

Lemma owns_is id p : owned p = Some id → owns id p = 1.
Proof. intros H. unfold owns. by rewrite H, bool_decide_eq_true_2. Qed.

Lemma owns_not id p : owned p ≠ Some id → owns id p = 0.
Proof. intros H. unfold owns. by rewrite bool_decide_eq_false_2. Qed.

Lemma on_disk_is st id m : metas st !! id = Some m → on_disk st id = 1.
Proof. intros H. unfold on_disk. by rewrite H, bool_decide_eq_true_2 by eauto. Qed.

Lemma on_disk_not st id : metas st !! id = None → on_disk st id = 0.
Proof. intros H. unfold on_disk. by rewrite H, bool_decide_eq_false_2 by (by intros []). Qed.

Lemma slots_nonneg p : 0 ≤ slots p.
Proof. destruct p; simpl; try lia; unfold one; case_match; lia. Qed.

Lemma on_disk_nonneg st id : 0 ≤ on_disk st id.
Proof. unfold on_disk, one. case_match; lia. Qed.

Lemma held_nonneg st p : Kept st → point_ok st p → 0 ≤ held p.
Proof.
  intros HK. destruct p; simpl; try lia.
  - destruct 1 as (_ & _ & m & _ & _ & _ & _ & _ & -> & _). simpl. lia.
Qed.

(** ** One operation *)

(** The operations that change the tables. *)
Definition commits p : bool :=
  match p with Committing _ _ _ _ | CommittingRemoval _ _ _ => true | _ => false end.

Lemma commits_holds p : holds p = false → commits p = false.
Proof. by destruct p. Qed.

(** What an operation that takes a call from [p] to [p'] does to the store. *)
Record goes st p st' p' : Prop := {
  go_kept : Kept st';
  go_config : config st' = config st;
  go_ok : point_ok st' p';
  go_reserved : reserved_bytes st' - total_stored (metas st') - held p' = reserved_bytes st - total_stored (metas st) - held p
    ∧ reserved_bytes st' ≤ max_total_file_bytes (config st);
  go_count : transfer_count st' - Z.of_nat (size (metas st')) - slots p' = transfer_count st - Z.of_nat (size (metas st)) - slots p
    ∧ transfer_count st' ≤ max_transfers (config st);
  go_owner : ∀ id, on_disk st' id + owns id p' = on_disk st id + owns id p ∧ (is_Some (meta st !! id) → is_Some (meta st' !! id))
    ∨ on_disk st' id + owns id p' = 1 ∧ meta st !! id = None ∧ is_Some (meta st' !! id)
    ∨ on_disk st' id + owns id p' = 0 ∧ owns id p = 1;
  go_shape : ∀ id c c', meta st !! id = Some c → meta st' !! id = Some c' → same_shape c c';
  go_tables : commits p = false → file_meta st' = file_meta st ∧ file_chunks st' = file_chunks st;
  go_holds : holds p' = true → holds p = true ∨ waits p = true;
}.

Lemma same_shape_claimed u c c' : same_shape c c' → claimed_by u c → claimed_by u c'.
Proof. unfold same_shape, claimed_by. intros [-> ->]. done. Qed.

(** What a call knows is not spoilt by another's operation. *)
Lemma point_ok_other st p st' p' q :
  goes st p st' p' → point_ok st q → (holds q = true → holds p = false) →
  (∀ id, owned q = Some id → owns id p = 0) → (∀ id, owned q = Some id → is_Some (meta st !! id)) → point_ok st' q.
Proof.
  intros [_ Hcfg _ _ _ Hown Hshape Htab _] Hq Hlock Hother Hin.
  assert (∀ u, owned q = Some (up_id u) → claims st u → claims st' u) as Hcl.
  { intros u Hu (c & Hc & Hcu). assert (is_Some (meta st' !! up_id u)) as [c' Hc'].
    { destruct (Hown (up_id u)) as [[_ H]|[(_ & _ & H)|[_ H]]]; [|done|]; [eauto|]. rewrite Hother in H; done. }
    exists c'. split; [done|]. eapply same_shape_claimed; eauto. }
  assert (∀ u (creating : bool), owned q = (if creating then Some (up_id u) else None) → (creating = true → claims st u) →
    creating = true → claims st' u) as Hcl'.
  { intros u [] Ho H Ht; [|done]. by apply Hcl, H. }
  assert (holds q = true → metas st' = metas st ∧ chunks st' = chunks st ∧ file_meta st' = file_meta st
    ∧ file_chunks st' = file_chunks st) as Ht.
  { intros Hh. destruct (Htab (commits_holds _ (Hlock Hh))) as [H1 H2]. unfold metas, chunks. by rewrite H1, H2. }
  destruct q; simpl in *; rewrite ?Hcfg; try done.
  - destruct Hq as (? & ? & ?). split_and!; [done|done|]. by apply Hcl.
  - destruct Hq as [? ?]. split; [done|]. by eapply Hcl'.
  - destruct Hq as [? ?]. split; [done|]. by eapply Hcl'.
  - destruct Hq as [? ?]. split; [|done]. by eapply Hcl'.
  - by eapply Hcl'.
  - destruct Hq as (? & ? & m & Hm). split_and!; [done|by eapply Hcl'|]. exists m. unfold prepares in *. rewrite Hcfg.
    destruct (Ht eq_refl) as (-> & -> & -> & ->). done.
  - destruct Hq as [? ?]. split; [|done]. by eapply Hcl'.
  - by apply Hcl.
  - by apply Hcl.
  - destruct Hq as (? & ? & ks & Hks). split_and!; [done|done|]. exists ks.
    unfold FileRemovals.held in *. destruct (Ht eq_refl) as (-> & -> & -> & ->). done.
Qed.

Lemma owned_cached w who p id : Sound w → under_way w !! who = Some p → owned p = Some id → is_Some (meta (shared w) !! id).
Proof.
  intros HS Hp Ho. apply (so_cached _ HS). pose proof (on_disk_nonneg (shared w) id).
  pose proof (owed_of (owns id) w who p (λ _ p _, owns_nonneg id p) Hp) as H1.
  rewrite (owns_is id p) in H1 by done. lia.
Qed.

Lemma owned_alone w who who' p q id :
  Sound w → who ≠ who' → under_way w !! who = Some p → under_way w !! who' = Some q → owned q = Some id → owns id p = 0.
Proof.
  intros HS Hne Hp Hq Ho. pose proof (so_owner _ HS id) as H. pose proof (on_disk_nonneg (shared w) id).
  pose proof (owed_two (owns id) w who who' p q (λ _ p _, owns_nonneg id p) Hne Hp Hq) as H1.
  rewrite (owns_is id q) in H1 by done.
  pose proof (owns_nonneg id p). lia.
Qed.

Lemma Sound_goes w who p st' p' :
  Sound w → under_way w !! who = Some p → (waits p = true → unlocked w) → goes (shared w) p st' p' →
  Sound {| shared := st'; under_way := <[who := p']> (under_way w) |}.
Proof.
  intros HS Hp Hwait Hgo. pose proof HS as [HK HP HL [HR HRc] [HC HCc] HO HM].
  pose proof Hgo as [HK' Hcfg Hok [HR' HRc'] [HC' HCc'] Hown Hshape Htab Hhold].
  split; simpl; rewrite ?Hcfg, ?(owed_ran _ _ _ _ _ _ Hp); try done; try lia.
  - intros who' q [[<- <-]|[Hne Hq]]%lookup_insert_Some; [done|]. eapply point_ok_other; [done|by eapply HP| | |].
    + intros Hq'. destruct (holds p) eqn:Hpp; [|done]. destruct Hne. by eapply HL.
    + intros id Ho. by eapply owned_alone.
    + intros id Ho. by eapply owned_cached.
  - assert (∀ who' q, who' ≠ who → under_way w !! who' = Some q → holds q = true → holds p' = true → False) as Hex.
    { intros who' q Hne Hq Hhq Hh. destruct (Hhold Hh) as [Hpp|Hpw].
      - apply Hne. by eapply HL.
      - pose proof (Hwait Hpw who' q Hq) as Hx. simpl in Hx. congruence. }
    intros who1 who2 p1 p2 [[<- <-]|[Hn1 H1]]%lookup_insert_Some [[<- <-]|[Hn2 H2]]%lookup_insert_Some Hh1 Hh2; try done.
    + destruct (Hex who2 p2); done.
    + destruct (Hex who1 p1); done.
    + by eapply HL.
  - intros id. rewrite (owed_ran _ _ _ _ _ _ Hp). specialize (HO id). specialize (HM id).
    pose proof (on_disk_nonneg (shared w) id). pose proof (owns_nonneg id p).
    pose proof (owed_of (owns id) w who p (λ _ p _, owns_nonneg id p) Hp).
    destruct (Hown id) as [[? _]|[(? & Hn & _)|[? ?]]]; try lia.
    destruct (decide (0 < on_disk (shared w) id + debt (owns id) w)) as [Hpos|]; [|lia].
    destruct (HM Hpos) as [? ?]. congruence.
  - intros id. rewrite (owed_ran _ _ _ _ _ _ Hp). specialize (HO id). specialize (HM id).
    pose proof (on_disk_nonneg (shared w) id). pose proof (owns_nonneg id p).
    pose proof (owed_of (owns id) w who p (λ _ p _, owns_nonneg id p) Hp).
    destruct (Hown id) as [[? Hk]|[(? & Hn & Hs)|[? ?]]]; [intros; apply Hk, HM; lia|done|lia].
Qed.
End Facts.
