(* ===== verification/FileThreadsSound.v ===== *)
(** Every operation of every call keeps what holds of the file store. *)
From Stdlib Require Import ZArith Lia Ascii String.
From stdpp Require Import base gmap strings list.
From S2P Require Import Prelude Redb RustStd Config Util FileStore FileFacts FileWrites FileRemovals Calls.
From S2P Require Import FileThreads FileThreadsFacts.

Section Sound.
Context {RD : Redb} {SM : Serde FileMeta}.
Implicit Types (st : FileStore) (p : Point) (u : Upload) (id : string) (m c : FileMeta) (w : Files).

(** What a call finds where it stands. *)
Record here st p : Prop := {
  he_kept : Kept st;
  he_ok : point_ok st p;
  he_reserved : total_stored (metas st) + held p ≤ reserved_bytes st ≤ max_total_file_bytes (config st);
  he_count : Z.of_nat (size (metas st)) + slots p ≤ transfer_count st ≤ max_transfers (config st);
  he_owner : ∀ id, owned p = Some id → metas st !! id = None ∧ is_Some (meta st !! id);
  he_cached : ∀ id, is_Some (metas st !! id) → is_Some (meta st !! id);
}.

Lemma disk_cached w id m : Sound w → metas (shared w) !! id = Some m → is_Some (meta (shared w) !! id).
Proof.
  intros HS Hm. apply (so_cached _ HS). rewrite (on_disk_is _ _ _ Hm).
  enough (0 ≤ debt (owns id) w) by lia. apply msum_nonneg. intros. apply owns_nonneg.
Qed.

Lemma Sound_here w who p : Sound w → under_way w !! who = Some p → here (shared w) p.
Proof.
  intros HS Hp. pose proof HS as [HK HP _ [HR HRc] [HC HCc] HO HM].
  assert (∀ who p, under_way w !! who = Some p → 0 ≤ held p) as Hh by (intros ? ? H%HP; by eapply held_nonneg).
  pose proof (owed_of held w who p Hh Hp). pose proof (owed_of slots w who p (λ _ p _, slots_nonneg p) Hp).
  split; [done|by eapply HP|lia|lia| |].
  - intros id Ho. split; [|by eapply owned_cached]. specialize (HO id).
    pose proof (owed_of (owns id) w who p (λ _ p _, owns_nonneg id p) Hp) as H1. rewrite (owns_is id p) in H1 by done.
    destruct (metas (shared w) !! id) eqn:Hm; [|done]. rewrite (on_disk_is _ _ _ Hm) in HO. lia.
  - intros id [m Hm]. by eapply disk_cached.
Qed.

Lemma Kept_same st st' :
  file_meta st' = file_meta st → file_chunks st' = file_chunks st → config st' = config st → meta st' = meta st →
  Kept st → Kept st'.
Proof.
  intros Hm Hc Hcfg Hcache [H1 H2 H3 H4 H5 H6]. unfold metas, chunks in *.
  split; unfold metas, chunks; rewrite ?Hm, ?Hc, ?Hcfg, ?Hcache; done.
Qed.

(** An operation that changes the counters at most. *)
Lemma goes_counted st p p' r n :
  here st p → point_ok st p' → owned p' = owned p →
  r - held p' = reserved_bytes st - held p → r ≤ max_total_file_bytes (config st) →
  n - slots p' = transfer_count st - slots p → n ≤ max_transfers (config st) →
  (holds p' = true → holds p = true ∨ waits p = true) →
  goes st p (set_count n (set_reserved r st)) p'.
Proof.
  intros [HK _ _ _ _ _] Hok Ho Hr Hrc Hn Hnc Hh.
  split; try done.
  - by apply (Kept_same st).
  - change (metas (set_count n (set_reserved r st))) with (metas st). simpl. lia.
  - change (metas (set_count n (set_reserved r st))) with (metas st). simpl. lia.
  - intros id. left. unfold owns. rewrite Ho. done.
  - simpl. intros id c c' H1 H2. by simplify_eq.
Qed.

Lemma set_same st : set_count (transfer_count st) (set_reserved (reserved_bytes st) st) = st.
Proof. by destruct st. Qed.

(** An operation that changes nothing. *)
Lemma goes_still st p p' :
  here st p → point_ok st p' → owned p' = owned p → held p' = held p → slots p' = slots p →
  (holds p' = true → holds p = true ∨ waits p = true) → goes st p st p'.
Proof.
  intros Hhere Hok Ho Hh Hs Hl. pose proof Hhere as [_ _ [_ HR] [_ HC] _ _].
  pose proof (goes_counted st p p' (reserved_bytes st) (transfer_count st) Hhere Hok Ho) as H.
  rewrite set_same in H. apply H; try done; lia.
Qed.

(** ** Where calls end, and what comes next *)

Lemma goes_answered st p u r : here st p → owned p = None → held p = 0 → slots p = 0 → goes st p st (answered u r).
Proof. intros Hh Ho Hl Hs. by apply goes_still. Qed.

Lemma resume_ok st q r : purpose_ok q → point_ok st (resume q r).
Proof.
  destruct q as [id|[|id rest] n], r as [e|existed]; simpl; try done. intros [Hid Hrest]%Forall_cons. by split.
Qed.

Lemma resume_free q r : owned (resume q r) = None ∧ held (resume q r) = 0 ∧ slots (resume q r) = 0 ∧ holds (resume q r) = false.
Proof. by destruct q as [id|[|id rest] n], r as [e|existed]. Qed.

Lemma goes_resume st p q r : here st p → purpose_ok q → owned p = None → held p = 0 → slots p = 0 → goes st p st (resume q r).
Proof.
  intros Hh Hq Ho Hl Hs. destruct (resume_free q r) as (H1 & H2 & H3 & H4).
  apply goes_still; try congruence. by apply resume_ok.
Qed.

Lemma rejected_still st u creating e p :
  here st p → (creating = true → claims st u) → owned p = (if creating then Some (up_id u) else None) → held p = 0 →
  slots p = one creating → goes st p st (rejected u creating e).
Proof.
  intros Hh Hc Ho Hl Hs. unfold rejected. destruct creating; simpl in *; [|by apply goes_answered].
  apply goes_still; try done. by apply Hc.
Qed.

(** The call's step, from where it stands. *)
Definition steps_well st p i : Prop :=
  wp (step (E := Empty_set) p) (λ r st' _, match r with inr p' => goes st p st' p' | inl _ => False end) st i.

Lemma well_begin st u creating i : here st (Beginning u creating) → steps_well st (Beginning u creating) i.
Proof.
  intros Hh. pose proof (he_ok _ _ Hh) as [Hf Hc]. unfold steps_well. simpl. unfold begin_fill, begin_txn.
  wp_steps. apply wp_io_call.
  - intros i' _. wp_steps. apply goes_still; try done. by right.
  - intros _ i' _. wp_steps. by apply rejected_still.
Qed.

Lemma well_drop st u creating e i : here st (Dropping u creating e) → steps_well st (Dropping u creating e) i.
Proof. intros Hh. apply wp_ret. apply rejected_still; try done. apply (he_ok _ _ Hh). Qed.

Lemma well_start st id q i : here st (Starting id q) → steps_well st (Starting id q) i.
Proof.
  intros Hh. pose proof (he_ok _ _ Hh) as [Hid Hq]. unfold steps_well. simpl. unfold begin_txn. wp_steps.
  apply wp_io_call.
  - intros i' _. wp_steps. apply goes_still; try done. by right.
  - intros _ i' _. wp_steps. by apply goes_resume.
Qed.

Lemma well_abandon st q i : here st (Abandoning q) → steps_well st (Abandoning q) i.
Proof. intros Hh. apply wp_ret. apply goes_resume; try done. apply (he_ok _ _ Hh). Qed.

Lemma well_look_up st id idx i : here st (LookingUp id idx) → steps_well st (LookingUp id idx) i.
Proof.
  intros Hh. unfold steps_well. simpl. unfold look_up. wp_steps.
  destruct (meta st !! id) as [m|]; [case_match|]; by apply goes_still.
Qed.

Lemma well_returned st call a i : here st (Returned call a) → steps_well st (Returned call a) i.
Proof. intros Hh. apply wp_ret. by apply goes_still. Qed.

Lemma well_listing st i : here st Listing → steps_well st Listing i.
Proof.
  intros Hh. unfold steps_well. simpl. wp_steps. apply wp_now_ms. wp_steps.
  assert (purpose_ok (Sweeping (expired_ids (config st) (next_now i) (meta st)) 0)) as Hq.
  { simpl. apply Forall_forall. intros id (c & Hc & _)%elem_expired_ids. by eapply kp_keys; [apply Hh|]. }
  destruct (expired_ids (config st) (next_now i) (meta st)) as [|id ids]; simpl; [by apply goes_still|].
  apply Forall_cons in Hq as [Hid Hq]. by apply goes_still.
Qed.

(** ** The counters *)

Lemma kept_total st : Kept st → 0 ≤ total_stored (metas st).
Proof.
  intros HK. apply msum_nonneg. intros id m Hm.
  assert ((loosen <$> metas st) !! id = Some (loosen m)) as Hm' by (by rewrite lookup_fmap, Hm).
  by apply (stored_nonneg _ _ _ _ (kp_wf _ HK)) in Hm'.
Qed.

Lemma goes_released st p p' (a : Z) :
  here st p → point_ok st p' → owned p' = owned p → 0 ≤ a → held p = held p' + a → 0 ≤ held p' → slots p' = slots p →
  (holds p' = true → holds p = true ∨ waits p = true) →
  goes st p (set_reserved (reserved_bytes st -^ a) st) p'.
Proof.
  intros Hh Hok Ho Ha Hl Hl' Hs Hhold. pose proof Hh as [HK _ [HR HRc] [HC HCc] _ _].
  pose proof (kept_total _ HK) as Ht.
  pose proof (goes_counted st p p' (reserved_bytes st -^ a) (transfer_count st) Hh Hok Ho) as H.
  destruct st. unfold set_count, set_reserved in *. simpl in *. rewrite sat_sub_le in * by lia. apply H; try done; lia.
Qed.

Lemma release_if_run (a : Z) st i : 0 ≤ a → 0 ≤ reserved_bytes st →
  release_if a st i = (inr tt, set_reserved (reserved_bytes st -^ a) st, i).
Proof.
  intros Ha Hr. unfold release_if, release_bytes, modify. destruct (Z.ltb_spec 0 a); [done|].
  replace a with 0 by lia. rewrite sat_sub_le, Z.sub_0_r by lia. by destruct st.
Qed.

Lemma here_reserved st p : here st p → 0 ≤ held p → 0 ≤ reserved_bytes st.
Proof.
  intros [HK _ [HR _] _ _ _] Hl. pose proof (kept_total _ HK). lia.
Qed.

Lemma well_undo st u creating e l i : here st (Undoing u creating e l) → steps_well st (Undoing u creating e l) i.
Proof.
  intros Hh. pose proof (he_ok _ _ Hh) as [Hc Ha]. pose proof (here_reserved _ _ Hh Ha).
  unfold steps_well, wp. simpl. unfold attempt, mbind, M_bind. rewrite release_if_run by done. cbn [mret M_ret].
  apply goes_released; try done; simpl; lia.
Qed.

Lemma well_uncommitted st u creating l i : here st (Uncommitted u creating l) → steps_well st (Uncommitted u creating l) i.
Proof.
  intros Hh. pose proof (he_ok _ _ Hh) as [Hc Ha]. pose proof (here_reserved _ _ Hh Ha).
  unfold steps_well, wp. simpl. unfold attempt, mbind, M_bind. rewrite release_if_run by done. cbn [mret M_ret].
  unfold rejected. destruct creating; apply goes_released; try done; simpl; try lia. by apply Hc.
Qed.

Lemma well_trim st u wr l i : here st (Trimming u wr l) → steps_well st (Trimming u wr l) i.
Proof.
  intros Hh. pose proof (he_ok _ _ Hh) as [Hid Ha]. pose proof (here_reserved _ _ Hh Ha).
  unfold steps_well, wp. simpl. unfold attempt, mbind, M_bind. rewrite release_if_run by done. cbn [mret M_ret].
  apply goes_released; try done; simpl; lia.
Qed.

Lemma well_return_bytes st q stored i : here st (ReturningBytes q stored) → steps_well st (ReturningBytes q stored) i.
Proof.
  intros Hh. pose proof (he_ok _ _ Hh) as [Hq Ha]. unfold steps_well. simpl. unfold release_bytes. wp_steps.
  destruct (resume_free q (inr true)) as (H1 & H2 & H3 & H4).
  apply goes_released; rewrite ?H1, ?H2, ?H3, ?H4; try done; simpl; try lia. by apply resume_ok.
Qed.

Lemma goes_slot_back st p p' :
  here st p → point_ok st p' → owned p' = owned p → held p' = held p → slots p = 1 → slots p' = 0 → holds p' = false →
  goes st p (set_count (transfer_count st -! 1) st) p'.
Proof.
  intros Hh Hok Ho Hl Hs Hs' Hhold. pose proof Hh as [HK _ [HR HRc] [HC HCc] _ _].
  pose proof (ok_transfers _ (kp_config _ HK)) as Ht.
  pose proof (goes_counted st p p' (reserved_bytes st) (transfer_count st -! 1) Hh Hok Ho) as H.
  replace (set_reserved (reserved_bytes st) st) with st in H by (by destruct st).
  rewrite wrap64_small in * by (unfold is_u64; lia). apply H; try done; try lia. congruence.
Qed.

Lemma well_give_up st u e i : here st (GivingUp u e) → steps_well st (GivingUp u e) i.
Proof.
  intros Hh. unfold steps_well. simpl. unfold release_slot. wp_steps. apply goes_slot_back; try done. apply (he_ok _ _ Hh).
Qed.

Lemma well_return_slot st q stored i : here st (ReturningSlot q stored) → steps_well st (ReturningSlot q stored) i.
Proof.
  intros Hh. unfold steps_well. simpl. unfold release_slot. wp_steps. apply goes_slot_back; try done. apply (he_ok _ _ Hh).
Qed.

Lemma well_take_slot st u i : here st (TakingSlot u) → steps_well st (TakingSlot u) i.
Proof.
  intros Hh. pose proof (he_ok _ _ Hh) as (Hf & Hi & Hc). pose proof Hh as [HK _ [HR HRc] [HCs HCc] _ _].
  pose proof (ok_transfers _ (kp_config _ HK)) as Ht. simpl in *.
  unfold steps_well. simpl. unfold take_slot, reserve_slot. wp_steps.
  - by apply goes_still.
  - rewrite wrap64_small by (unfold is_u64; lia).
    pose proof (goes_counted st (TakingSlot u) (Beginning u true) (reserved_bytes st) (transfer_count st + 1) Hh) as H.
    replace (set_reserved (reserved_bytes st) st) with st in H by (by destruct st). apply H; simpl; try done; try lia.
Qed.

(** ** The cache *)

(** An operation that changes the cache at most. *)
Lemma goes_cached st p p' (cache : gmap string FileMeta) :
  here st p → point_ok (set_meta cache st) p' → held p' = held p → slots p' = slots p → (holds p' = true → holds p = true) →
  (∀ id c, cache !! id = Some c → no_char ":" id) →
  (∀ id c c', meta st !! id = Some c → cache !! id = Some c' → same_shape c c') →
  (∀ id, owns id p' = owns id p ∧ (is_Some (meta st !! id) → is_Some (cache !! id))
    ∨ owns id p' = 1 ∧ meta st !! id = None ∧ is_Some (cache !! id)
    ∨ owns id p' = 0 ∧ owned p = Some id) →
  goes st p (set_meta cache st) p'.
Proof.
  intros Hh Hok Hl Hs Hhold Hkeys Hshape Hown. pose proof Hh as [HK _ [HR HRc] [HC HCc] HO HM].
  assert (metas (set_meta cache st) = metas st) as Hm by done.
  split; rewrite ?Hm; try done; try (simpl; lia).
  - destruct HK as [H1 H2 H3 H4 H5 H6]. split; try done.
    intros id m c Hid Hc. destruct (HM id) as [c0 Hc0]; [eauto|].
    destruct (H6 _ _ _ Hid Hc0), (Hshape _ _ _ Hc0 Hc). split; congruence.
  - intros id. change (on_disk (set_meta cache st) id) with (on_disk st id).
    assert (meta st !! id = None → on_disk st id = 0) as Hoff.
    { intros Hn. apply on_disk_not, eq_None_not_Some. intros Hs'.
      destruct (HM id Hs') as [? ?]. congruence. }
    destruct (Hown id) as [[-> ?]|[(-> & Hn & ?)|[-> Ho]]].
    + by left.
    + right. left. rewrite Hoff by done. by split_and!.
    + right. right. destruct (HO _ Ho) as [Hn _]. by rewrite on_disk_not, owns_is.
  - auto.
Qed.

Lemma well_claim st u i : here st (Claiming u) → steps_well st (Claiming u) i.
Proof.
  intros Hh. pose proof (he_ok _ _ Hh) as Hpre. simpl in Hpre. pose proof Hpre as [Hid (Hi & Htc & Htb) Hf Ht].
  unfold steps_well. simpl. unfold claim. wp_step. wp_step. cbv zeta.
  wp_step; [wp_step; by apply goes_answered|]. rename Heqb into E1.
  wp_step; [wp_step; by apply goes_answered|]. rename Heqb into E2.
  rewrite !orb_false_iff, bool_decide_eq_false in E1. rewrite orb_false_iff in E2.
  destruct E1 as [[[Hd E1] E1'] E1''], E2 as [E2 E2']. rewrite ?Z.eqb_neq, ?Z.ltb_ge, ?Z.leb_gt in *.
  assert (fits_config (config st) u) as Hfit by (split; (done || lia)).
  destruct (meta st !! up_id u) as [m|] eqn:Em.
  { wp_step; wp_step; [by apply goes_answered|]. by apply goes_still. }
  wp_step; [wp_step; by apply goes_answered|]. apply negb_false_iff, Z.eqb_eq in Heqb.
  wp_step. apply wp_now_ms. wp_steps. apply goes_cached; try done.
  - simpl. split_and!; [done|done|]. unfold claims. simpl. rewrite lookup_insert_eq. by eexists.
  - intros id c [[<- _]|[_ Hc]]%lookup_insert_Some; [done|]. by eapply (kp_keys _ (he_kept _ _ Hh)).
  - intros id c c' Hc [[<- _]|[_ Hc']]%lookup_insert_Some; [congruence|]. by simplify_eq.
  - intros id. destruct (decide (id = up_id u)) as [->|Hne].
    + right. left. rewrite owns_is, lookup_insert_eq by done. by split_and!.
    + left. by rewrite lookup_insert_ne, !owns_not by (simpl; congruence).
Qed.

Lemma mirror_lookup id m cache id' :
  mirror id m cache !! id' =
    if decide (id' = id) then
      let e := default m (cache !! id) in
      Some (if received_chunks e <=? received_chunks m
            then {| total_chunks := total_chunks e; total_bytes := total_bytes e; stored_bytes := stored_bytes m;
                    received_chunks := received_chunks m; created_at_ms := created_at_ms e |}
            else e)
    else cache !! id'.
Proof. unfold mirror. case_decide; [subst; by rewrite lookup_insert_eq|by rewrite lookup_insert_ne]. Qed.

Lemma well_mirror st u wr i : here st (Mirroring u wr) → steps_well st (Mirroring u wr) i.
Proof.
  intros Hh. unfold steps_well. simpl. wp_steps. pose proof (he_ok _ _ Hh) as Hid. simpl in Hid.
  apply goes_cached; try done; setoid_rewrite mirror_lookup.
  - intros id c. case_decide; [by intros [= <-]; subst|]. by apply (kp_keys _ (he_kept _ _ Hh)).
  - intros id c c' Hc. case_decide; [|by intros; simplify_eq]. subst. rewrite Hc. simpl. by case_match; intros [= <-].
  - intros id. left. case_decide; split; try done; by eauto.
Qed.

(** The entry a call owns is removed. *)
Lemma goes_forgot st p p' id :
  here st p → point_ok (set_meta (delete id (meta st)) st) p' → owned p = Some id → owned p' = None → held p' = held p →
  slots p' = slots p → (holds p' = true → holds p = true) → goes st p (set_meta (delete id (meta st)) st) p'.
Proof.
  intros Hh Hok Ho Ho' Hl Hs Hhold. apply goes_cached; try done.
  - intros id' c [_ Hc]%lookup_delete_Some. by eapply (kp_keys _ (he_kept _ _ Hh)).
  - intros id' c c' Hc [_ Hc']%lookup_delete_Some. by simplify_eq.
  - intros id'. rewrite (owns_not id' p') by congruence. destruct (decide (id' = id)) as [->|Hne].
    + right. by right.
    + left. by rewrite owns_not, lookup_delete_ne by congruence.
Qed.

Lemma well_unclaim st u e i : here st (Unclaiming u e) → steps_well st (Unclaiming u e) i.
Proof. intros Hh. unfold steps_well. simpl. unfold forget. wp_steps. by apply goes_forgot. Qed.

Lemma well_forget st id q stored i : here st (Forgetting id q stored) → steps_well st (Forgetting id q stored) i.
Proof.
  intros Hh. unfold steps_well. simpl. unfold forget. wp_steps. apply goes_forgot; try done. apply (he_ok _ _ Hh).
Qed.

Lemma well_read st id idx m i : here st (Reading id idx m) → steps_well st (Reading id idx m) i.
Proof.
  intros Hh. unfold steps_well. simpl. wp_steps. unfold read_chunk. wp_steps.
  unfold begin_txn, open_table, txn_get.
  repeat first [wp_step | apply wp_io_call; [intros ? _|intros _ ? _]]; try case_match; wp_steps; by apply goes_still.
Qed.

(** ** Inside a transaction *)

Lemma goes_reserved st p p' (r : Z) :
  here st p → point_ok st p' → owned p' = owned p → r - held p' = reserved_bytes st - held p →
  r ≤ max_total_file_bytes (config st) → slots p' = slots p → holds p = true → goes st p (set_reserved r st) p'.
Proof.
  intros Hh Hok Ho Hr Hrc Hs Hl. pose proof (goes_counted st p p' r (transfer_count st) Hh Hok Ho Hr Hrc) as H.
  destruct st. apply H; try (left; done); rewrite ?Hs; try lia. apply (he_count _ _ Hh).
Qed.

Lemma loosen_Some st id m : metas st !! id = Some m → (loosen <$> metas st) !! id = Some (loosen m).
Proof. intros Hm. by rewrite lookup_fmap, Hm. Qed.

Lemma stored_in_total st id m : Kept st → metas st !! id = Some m → 0 ≤ stored_bytes m ≤ total_stored (metas st).
Proof.
  intros HK Hm.
  assert (∀ id m, metas st !! id = Some m → 0 ≤ stored_bytes m) as Hpos.
  { intros id' m' H%loosen_Some. by apply (stored_nonneg _ _ _ _ (kp_wf _ HK)) in H. }
  split; [by eapply Hpos|]. pose proof (msum_contrib_le (λ _, stored_bytes) (metas st) id Hpos) as H.
  unfold contrib in H. by rewrite Hm in H.
Qed.

(** What an upload starts from in its transaction. *)
Definition base st u (creating : bool) m : Prop :=
  if creating then metas st !! up_id u = None ∧ claimed_by u m ∧ stored_bytes m = 0 ∧ received_chunks m = 0
  else metas st !! up_id u = Some m.

Section Fill.
Context (st : FileStore) (u : Upload) (creating : bool) (m : FileMeta).
Context (HK : Kept st) (Hfit : fits_config (config st) u) (Hbase : base st u creating m).
Context (Hres : total_stored (metas st) ≤ reserved_bytes st ≤ max_total_file_bytes (config st)).

Abbreviation L := (loosen <$> metas st).
Abbreviation prev := (prev_len (chunks st) (up_id u) (up_index u)).

Let Hwf : wf_files L (chunks st) := kp_wf _ HK.
Let Hpre : upload_pre (config st) u := fc_pre _ _ Hfit.

Lemma base_loose : starts_from L (up_id u) (loosen m).
Proof.
  unfold starts_from, base in *. rewrite lookup_fmap. destruct creating.
  - destruct Hbase as (-> & _ & ? & ?). done.
  - by rewrite Hbase.
Qed.

Lemma base_bounds : 0 ≤ prev ≤ stored_bytes m ∧ stored_bytes m ≤ total_stored (metas st) ∧ stored_bytes m ≤ max_file_bytes (config st).
Proof.
  pose proof (prev_range _ _ _ (up_index u) _ Hwf base_loose (upl_id _ _ Hpre)) as Hp. simpl in Hp.
  split; [done|]. pose proof (ok_file _ (kp_config _ HK)). unfold base in Hbase. destruct creating.
  - destruct Hbase as (_ & _ & -> & _). pose proof (kept_total _ HK). lia.
  - split; [by apply (stored_in_total _ (up_id u))|by eapply (kp_file _ HK)].
Qed.

Lemma index_range : 0 ≤ up_index u < u32_max.
Proof.
  pose proof (fc_index _ _ Hfit). pose proof (fc_chunks _ _ Hfit). pose proof (upl_nat _ _ Hpre).
  pose proof (ok_chunks _ (kp_config _ HK)). lia.
Qed.

Lemma fill_no_wrap : no_wrap st m prev (blen (up_data u)).
Proof.
  destruct base_bounds as (Hp & Hs & Hf). pose proof (blen_nonneg (up_data u)). pose proof (upl_file _ _ Hpre).
  pose proof (upl_total _ _ Hpre). pose proof (proj2 (base_counts _ _ _ _ Hwf base_loose)) as Hc. simpl in Hc.
  split; try lia. unfold base in Hbase. destruct creating.
  - destruct Hbase as (_ & _ & _ & ->). unfold u32_max. lia.
  - pose proof (loosen_Some _ _ _ Hbase) as Hm. pose proof (count_range _ _ _ _ Hwf Hm) as Hr. simpl in Hr.
    split; [lia|]. intros Hz. apply (prev_zero _ _ _ (up_index u) Hwf) in Hz.
    enough (count_of (up_id u) (chunks st) ≠ u32_max) by lia. intros Heq.
    destruct (count_full _ _ _ _ (up_index u) Hwf Hm Heq index_range) as [? ?]. congruence.
Qed.
End Fill.

Lemma verdict_bounds cfg reserved tb stored prev len :
  size_verdict cfg reserved tb stored prev len = None →
  stored - prev + len ≤ tb ∧ stored - prev + len ≤ max_file_bytes cfg
  ∧ (prev < len → reserved + (len - prev) ≤ max_total_file_bytes cfg).
Proof.
  unfold size_verdict. destruct (_ || _) eqn:E1; [done|]. destruct (_ && _) eqn:E2; [done|]. intros _.
  apply orb_false_iff in E1 as [??]. apply andb_false_iff in E2. rewrite !Z.ltb_ge in *. lia.
Qed.

(** The closure with a transfer to write to. *)
Lemma well_fill_base st u creating m i :
  here st (Filling u creating) → base st u creating m → meta_source st (up_id u) (up_total_chunks u) (up_total_bytes u) creating (next_now i) m →
  steps_well st (Filling u creating) i.
Proof.
  intros Hh Hb Hsrc. pose proof Hh as [HK [Hfit Hcl] [HR HRc] _ _ _]. simpl in HR.
  pose proof (fill_no_wrap st u creating m HK Hfit Hb ltac:(lia)) as Hnw.
  unfold steps_well. simpl. unfold fill. wp_step. fold no_locals.
  wp_step. eapply wp_conseq; [by apply (write_body_wp i)|]. cbn beta.
  intros r [st' l] i' [_ Hpost]. cbn [fst snd] in *.
  destruct r as [e|[[[[mt ct] rc] sb] ca]]; cbn beta iota zeta; wp_step.
  - destruct Hpost as (Ha & -> & Hcap & _). apply goes_reserved; try done; simpl; lia.
  - destruct Hpost as (Hv & -> & -> & -> & -> & -> & [= -> ->]). apply verdict_bounds in Hv as (Hv1 & Hv2 & Hv3).
    apply goes_reserved; try done; simpl; try lia. split_and!; [done|done|].
    exists m. split_and!; try done.
    unfold base in Hb. destruct creating; [|done]. by destruct Hb as (_ & ? & ?).
Qed.

(** The transfer was deleted since the call looked. *)
Lemma well_fill_gone st u i : here st (Filling u false) → metas st !! up_id u = None → steps_well st (Filling u false) i.
Proof.
  intros Hh Hn. pose proof Hh as [HK [Hfit Hcl] [HR HRc] _ _ _].
  assert (tbl_get (file_meta st) (up_id u) = None) as Hg.
  { unfold metas in Hn. rewrite decoded_lookup in Hn. destruct (tbl_get (file_meta st) (up_id u)) as [b|] eqn:Hb; [|done].
    destruct (kp_decodes _ HK _ _ Hb) as [? Hd]. simpl in Hn. congruence. }
  unfold steps_well. simpl. unfold fill. wp_step. wp_step. unfold write_body, load_meta, open_table, txn_get.
  repeat first [wp_step | apply wp_io_call; [intros ? _|intros _ ? _] | progress (cbn [fst]; rewrite ?Hg)];
    apply goes_still; first [done|by split|by left].
Qed.

Lemma well_fill st u creating i : here st (Filling u creating) → steps_well st (Filling u creating) i.
Proof.
  intros Hh. pose proof Hh as [_ _ _ _ HO _]. destruct creating.
  - destruct (HO (up_id u) eq_refl) as [Hn _].
    by apply (well_fill_base st u true (fresh_meta (up_total_chunks u) (up_total_bytes u) (next_now i))).
  - destruct (metas st !! up_id u) as [m|] eqn:Hm; [|by apply well_fill_gone].
    apply (well_fill_base st u false m); [done|done|]. simpl. unfold metas in Hm. by rewrite decoded_lookup in Hm.
Qed.

(** ** Commits *)

Lemma total_prepared st u creating m len :
  base st u creating m →
  let prev := prev_len (chunks st) (up_id u) (up_index u) in
  total_stored (<[up_id u := grow m prev len]> (metas st)) = total_stored (metas st) - prev + len
  ∧ Z.of_nat (size (<[up_id u := grow m prev len]> (metas st))) = Z.of_nat (size (metas st)) + one creating.
Proof.
  intros Hb prev. unfold base in Hb. unfold total_stored. rewrite msum_insert. unfold contrib.
  destruct creating; [destruct Hb as (Hn & _ & Hs & _); rewrite Hn, map_size_insert_None by done|
    rewrite Hb, map_size_insert_Some by eauto]; simpl; lia.
Qed.

Lemma loosen_insert st u m prev len :
  loosen <$> <[up_id u := grow m prev len]> (metas st) = <[up_id u := grow (loosen m) prev len]> (loosen <$> metas st).
Proof. by rewrite fmap_insert. Qed.

(** The tables with a chunk written. *)
Lemma Kept_written st u creating m :
  Kept st → fits_config (config st) u → base st u creating m → (creating = true → claims st u) →
  let m' := grow m (prev_len (chunks st) (up_id u) (up_index u)) (blen (up_data u)) in
  stored_bytes m' ≤ total_bytes m → stored_bytes m' ≤ max_file_bytes (config st) →
  (total_bytes m ≤ u64_max) → 0 < total_bytes m →
  let st' := set_tables (tbl_insert (file_meta st) (up_id u) (to_vec m'))
               (tbl_insert (file_chunks st) (chunk_key (up_id u) (up_index u)) (up_data u)) st in
  Kept st' ∧ metas st' = <[up_id u := m']> (metas st).
Proof.
  intros HK Hfit Hb Hcl m' Hle Hfile Htb Htb' st'.
  assert (metas st' = <[up_id u := m']> (metas st)) as Hm by apply decoded_insert.
  assert (chunks st' = <[chunk_key (up_id u) (up_index u) := up_data u]> (chunks st)) as Hc by apply contents_insert.
  split; [|done]. pose proof (fc_pre _ _ Hfit) as Hpre. split; rewrite ?Hm, ?Hc; try apply HK.
  - intros k v. simpl. rewrite tbl_get_insert. case_decide; [|apply (kp_decodes _ HK)].
    intros [= <-]. rewrite from_slice_to_vec. eauto.
  - unfold m'. rewrite loosen_insert. pose proof (index_range _ _ HK Hfit).
    apply wf_files_stored; simpl; try done; try lia; [apply HK|by eapply base_loose|apply Hpre|apply Hfit].
  - intros id m0 [[<- <-]|[_ H]]%lookup_insert_Some; [done|by eapply (kp_file _ HK)].
  - intros id m0 c [[<- <-]|[_ H]]%lookup_insert_Some Hcache; [|by eapply (kp_shape _ HK)].
    unfold base in Hb. destruct creating.
    + destruct (Hcl eq_refl) as (c' & Hc' & Hs1 & Hs2). destruct Hb as (_ & [Hs3 Hs4] & _). simpl in Hcache. simplify_eq.
      split; simpl; congruence.
    + destruct (kp_shape _ HK _ _ _ Hb Hcache) as [H1 H2]. by split.
Qed.

Lemma on_disk_insert st st' id m id' :
  metas st' = <[id := m]> (metas st) → on_disk st' id' = if decide (id' = id) then 1 else on_disk st id'.
Proof.
  intros Hm. unfold on_disk, one. rewrite Hm. case_decide; [subst; by rewrite lookup_insert_eq, bool_decide_eq_true_2 by eauto|].
  by rewrite lookup_insert_ne.
Qed.

Lemma prepared_base st u creating wr l :
  here st (Committing u creating wr l) → ∃ m, base st u creating m ∧ 0 < total_bytes m ≤ u64_max ∧ prepares st u creating wr l m.
Proof.
  intros [HK (Hfit & Hcl & Hprep) _ _ HO _]. destruct Hprep as [m Hprep]. pose proof Hprep as (Hm & _). exists m. unfold base.
  pose proof (ok_file _ (kp_config _ HK)). pose proof (fc_bytes _ _ Hfit). destruct creating.
  - destruct (HO (up_id u) eq_refl) as [Hn _]. split; [done|]. split; [|done]. destruct Hm as ([_ ->] & _). lia.
  - split; [done|]. split; [|done]. apply loosen_Some, (wf_metas _ _ (kp_wf _ HK)) in Hm as [_ [_ H1 _]]. done.
Qed.

Lemma well_commit st u creating wr l i : here st (Committing u creating wr l) → steps_well st (Committing u creating wr l) i.
Proof.
  intros Hh. pose proof Hh as [HK (Hfit & Hcl & _) [HR HRc] [HC HCc] HO HM].
  destruct (prepared_base _ _ _ _ _ Hh) as (m & Hb & Htb & _ & Hmt & Hct & _ & _ & -> & Hle & Hfile).
  unfold steps_well. simpl. unfold commit_fill, commit. do 2 wp_step. apply wp_io_call.
  2:{ intros _ i' _. wp_steps. apply goes_still; try done. split; [done|]. simpl. lia. }
  intros i' _. wp_steps. rewrite Hmt, Hct.
  destruct (Kept_written st u creating m HK Hfit Hb Hcl Hle Hfile) as [HK' Hm]; [lia..|].
  destruct (total_prepared st u creating m (blen (up_data u)) Hb) as [Ht Hsz].
  split; rewrite ?Hm, ?Ht, ?Hsz; try done.
  - split; [apply Hfit|simpl; lia].
  - simpl in *. lia.
  - simpl in *. lia.
  - intros id. left. split; [|done]. rewrite (on_disk_insert st _ _ _ id Hm), (owns_not id (Trimming _ _ _)) by done.
    unfold base in Hb. case_decide as Hid.
    + subst. destruct creating.
      * destruct Hb as [Hn _]. rewrite (on_disk_not _ _ Hn), owns_is by done. lia.
      * rewrite (on_disk_is _ _ _ Hb), owns_not by done. lia.
    + rewrite owns_not; [lia|]. by destruct creating; intros [= ?].
  - simpl. intros id c c' H1 H2. by simplify_eq.
Qed.

(** ** Deletions *)

Lemma well_remove st id q i : items_fine i → here st (Removing id q) → steps_well st (Removing id q) i.
Proof.
  intros Hfine Hh. pose proof Hh as [HK [Hid Hq] _ _ _ _].
  assert (goes st (Removing id q) st (Abandoning q)) as Hab by (apply goes_still; try done; by left).
  unfold steps_well. simpl. wp_steps. unfold removal. simpl. wp_step. wp_step.
  unfold open_table, txn_get, txn_remove, txn_range.
  assert (io_step i i) as Hi by done.
  repeat first [wp_io ltac:(wp_steps; exact Hab) | wp_step].
  assert (match tbl_get (file_meta st) id with
          | Some b => (match from_slice b with Some m => stored_bytes m | None => 0 end, true)
          | None => (0, false)
          end = (FileRemovals.held st id, bool_decide (is_Some (metas st !! id)))) as ->.
  { unfold FileRemovals.held, metas. rewrite decoded_lookup. destruct (tbl_get (file_meta st) id) as [b|] eqn:Hg; [|done].
    destruct (kp_decodes _ HK _ _ Hg) as [m Hm]. simpl. rewrite Hm. by rewrite bool_decide_eq_true_2. }
  cbn beta iota. repeat first [wp_io ltac:(wp_steps; exact Hab) | wp_step]. fold (range_of id st).
  apply (ok_keys_wp i); [done|]. clear Hi. intros ks i' Hi Hks _. cbn beta iota. wp_step.
  apply (wp_remove_all i); [done| |intros; wp_steps; exact Hab]. clear Hi i'. intros i' Hi. cbn beta iota. wp_steps.
  apply goes_still; try done; [|by left]. split_and!; [done|done|]. exists ks. split_and!; try done.
  intros k. rewrite (Hks Hfine). by apply range_keys.
Qed.

(** The tables without a transfer. *)
Lemma Kept_removed st id ks :
  Kept st → (∀ k, k ∈ ks ↔ owner k = Some id ∧ is_Some (chunks st !! k)) →
  let st' := set_tables (tbl_remove (file_meta st) id) (foldl tbl_remove (file_chunks st) ks) st in
  Kept st' ∧ metas st' = delete id (metas st).
Proof.
  intros HK Hks st'.
  assert (metas st' = delete id (metas st)) as Hm by apply decoded_remove.
  assert (chunks st' = remove_keys ks (chunks st)) as Hc by apply chunks_removed.
  split; [|done]. split; rewrite ?Hm, ?Hc; try apply HK.
  - intros k v. simpl. rewrite tbl_get_remove. case_decide; [done|apply (kp_decodes _ HK)].
  - rewrite fmap_delete. apply wf_files_delete; [apply HK|done].
  - intros id' m [_ H]%lookup_delete_Some. by eapply (kp_file _ HK).
  - intros id' m c [_ H]%lookup_delete_Some. by apply (kp_shape _ HK).
Qed.

Lemma well_commit_removal st id q r i : here st (CommittingRemoval id q r) → steps_well st (CommittingRemoval id q r) i.
Proof.
  intros Hh. pose proof Hh as [HK (Hid & Hq & ks & Hmt & Hct & Hks & Hst & Hex) [HR HRc] [HC HCc] HO HM].
  unfold steps_well. simpl. unfold commit_removal, commit. do 2 wp_step. apply wp_io_call.
  2:{ intros _ i' _. wp_steps. by apply goes_resume. }
  intros i' _. wp_steps. rewrite Hmt, Hct. destruct (Kept_removed st id ks HK Hks) as [HK' Hm].
  pose proof (total_deleted st id) as Ht. pose proof (size_deleted st id) as Hsz. rewrite Hst, Hex.
  assert (∀ id', on_disk (set_tables (tbl_remove (file_meta st) id) (foldl tbl_remove (file_chunks st) ks) st) id'
                 = if decide (id' = id) then 0 else on_disk st id') as Hd.
  { intros id'. unfold on_disk, one. rewrite Hm. case_decide; [subst; by rewrite lookup_delete_eq|by rewrite lookup_delete_ne]. }
  unfold FileRemovals.held in *. case_bool_decide as Hs.
  - destruct Hs as [m Hs]. rewrite Hs in *. pose proof (stored_in_total _ _ _ HK Hs).
    split; rewrite ?Hm, ?Ht, ?Hsz; try done; try (simpl in *; lia).
    + split; [done|lia].
    + intros id'. left. split; [|done]. rewrite Hd. change (owns id' (CommittingRemoval id q r)) with 0.
      case_decide as Hne.
      * subst. rewrite (on_disk_is _ _ _ Hs), owns_is by done. lia.
      * rewrite owns_not by (simpl; congruence). lia.
    + simpl. intros id' c c' H1 H2. by simplify_eq.
  - assert (metas st !! id = None) as Hn by (by apply eq_None_not_Some). rewrite Hn in *.
    destruct (resume_free q (inr false)) as (H1 & H2 & H3 & H4).
    split; rewrite ?Hm, ?Ht, ?Hsz, ?H2, ?H3; try done; try (simpl in *; lia).
    + by apply resume_ok.
    + intros id'. left. split; [|done]. rewrite Hd, !owns_not by (simpl; congruence). case_decide; [|lia]. subst.
      rewrite on_disk_not by done. lia.
    + simpl. intros id' c c' Hc1 Hc2. by simplify_eq.
Qed.

(** ** All operations *)

Lemma step_well st p i : items_fine i → here st p → steps_well st p i.
Proof.
  intros Hi. destruct p; auto using well_claim, well_take_slot, well_begin, well_fill, well_undo, well_drop, well_commit,
    well_uncommitted, well_trim, well_mirror, well_give_up, well_unclaim, well_look_up, well_read, well_start, well_remove,
    well_abandon, well_commit_removal, well_forget, well_return_slot, well_return_bytes, well_listing, well_returned.
Qed.

Lemma entry_free call : owned (entry_point call) = None ∧ held (entry_point call) = 0 ∧ slots (entry_point call) = 0
  ∧ holds (entry_point call) = false.
Proof. by destruct call. Qed.

Lemma over_free p : over p = true → owned p = None ∧ held p = 0 ∧ slots p = 0 ∧ holds p = false.
Proof. by destruct p. Qed.

Lemma Sound_called w who (call : Call) :
  Sound w → under_way w !! who = None → call_pre (shared w) call →
  Sound (set_under_way (<[who := entry_point call]> (under_way w)) w).
Proof.
  intros HS Hn Hpre. destruct (entry_free call) as (E1 & E2 & E3 & E4). pose proof HS as [HK HP HL HR HC HO HM].
  assert (∀ id, owns id (entry_point call) = 0) as Hid by (intros id; unfold owns; by rewrite E1).
  split; try setoid_rewrite (debt_called _ _ _ _ Hn); rewrite ?E2, ?E3; try setoid_rewrite Hid; try setoid_rewrite Z.add_0_r; try done.
  - cbn [under_way set_under_way shared]. intros who' p [[<- <-]|[_ Hp]]%lookup_insert_Some; [|by eapply HP]. by destruct call.
  - cbn [under_way set_under_way shared]. intros w1 w2 p1 p2 [[<- <-]|[_ H1]]%lookup_insert_Some [[<- <-]|[_ H2]]%lookup_insert_Some; try congruence. by eapply HL.
Qed.

Lemma Sound_answered w who p :
  Sound w → under_way w !! who = Some p → over p = true → Sound (set_under_way (delete who (under_way w)) w).
Proof.
  intros HS Hw Ho. pose proof HS as [HK HP HL HR HC HO HM]. destruct (over_free p Ho) as (E1 & E2 & E3 & E4).
  assert (∀ id, owns id p = 0) as Hid by (intros id; unfold owns; by rewrite E1).
  split; try setoid_rewrite (debt_collected _ _ _ _ Hw); rewrite ?E2, ?E3; try setoid_rewrite Hid; try setoid_rewrite Z.sub_0_r; try done.
  - cbn [under_way set_under_way shared]. intros who' q [_ Hp]%lookup_delete_Some. by eapply HP.
  - cbn [under_way set_under_way shared]. intros w1 w2 p1 p2 [_ H1]%lookup_delete_Some [_ H2]%lookup_delete_Some. by eapply HL.
Qed.

(** ** Histories *)

Lemma Sound_moved w (m : Move Call) i w' i' :
  Sound w → ready w m → move_pre w m i → run_move m w i = (inr tt, w', i') → Sound w'.
Proof.
  intros HS Hr Hpre. destruct m as [who call|who]; simpl in *.
  { intros [= <- <-]. by apply Sound_called. }
  destruct (under_way w !! who) as [p|] eqn:Hp; [|done]. intros Hrun.
  destruct (go_on_seen _ _ _ _ _ _ _ Hp Hrun) as [[Ho ->]|(_ & p' & st' & Hs & ->)].
  - by eapply Sound_answered.
  - eapply Sound_goes; [done..|].
    pose proof (step_well (shared w) p i Hpre (Sound_here _ _ _ HS Hp)) as H. unfold steps_well, wp in H.
    simpl in Hs. by rewrite Hs in H.
Qed.

Lemma agree_shape m c : meta_agree m c → same_shape m c.
Proof. by intros (? & ? & _). Qed.

Lemma Sound_idle st : Inv st → Caps st → Sound (idle_files st).
Proof.
  intros HI [HC1 HC2 HC3]. pose proof (inv_wf _ HI) as Hwf.
  assert (∀ f, debt f (idle_files st) = 0) as Hd by (intros; apply debt_idle).
  split; rewrite ?Hd; simpl; try done.
  - split; try apply HI.
    + split.
      * intros id m. rewrite lookup_fmap. destruct (metas st !! id) as [m0|] eqn:Hm; [|done]. intros [= <-].
        destruct (wf_metas _ _ Hwf _ _ Hm) as [Hid [H1 H2 H3]]. split; [done|]. split; simpl; [unfold u32_max; lia|done|done].
      * intros k b Hk. destruct (wf_chunks _ _ Hwf _ _ Hk) as (Hb & id & idx & m & -> & Hm & Hi). split; [done|].
        exists id, idx, (loosen m). split; [done|]. split; [by apply loosen_Some|].
        destruct (wf_metas _ _ Hwf _ _ Hm) as [_ [H1 _ _]]. simpl. lia.
      * intros id m. rewrite lookup_fmap. destruct (metas st !! id) as [m0|] eqn:Hm; [|done]. intros [= <-].
        by apply (wf_counts _ _ Hwf) in Hm.
    + intros id m Hm. by apply (HC3 id).
    + intros id c Hc. destruct (cached_meta _ _ _ HI Hc) as (m & Hm & _). by apply (wf_metas _ _ Hwf) in Hm as [? _].
    + intros id m c Hm Hc. destruct (cached_meta _ _ _ HI Hc) as (m' & Hm' & Ha). simplify_eq. by apply agree_shape.
  - pose proof (inv_reserved _ HI). lia.
  - pose proof (inv_count _ HI). lia.
  - intros id. rewrite Hd. unfold on_disk, one. case_match; lia.
  - intros id. rewrite Hd. unfold on_disk, one. case_bool_decide as Hs; [|lia]. intros _. destruct Hs as [m Hm].
    pose proof (inv_cache _ HI id) as Hc. rewrite Hm in Hc. inversion Hc; subst; eauto.
Qed.

Lemma Sound_later w tr w' : Sound w → history w tr w' → Sound w'.
Proof. intros HS. apply (history_keeps Sound); [apply Sound_moved|done]. Qed.

Lemma files_sound st tr w : Inv st → Caps st → history (idle_files st) tr w → Sound w.
Proof. intros HI HC. by apply Sound_later, Sound_idle. Qed.
End Sound.
