(* ===== verification/FileThreadsRuns.v ===== *)
(** How a call of the file store runs: one that nothing interrupts is the method of
    [FileStore], and every one ends. *)
From Stdlib Require Import ZArith Lia Ascii String.
From stdpp Require Import base gmap strings list.
From S2P Require Import Prelude Redb RustStd Config Util FileStore Calls FileThreads FileThreadsFacts.
From S2P Require Import FileThreadsSound.

Section Alone.
Context {RD : Redb} {SM : Serde FileMeta}.
Implicit Types (p : Point) (st : FileStore).

(** The method a call names. *)
Definition method (c : Call) : M FileStore Empty_set Answer :=
  match c with
  | StoreChunk u =>
      r ← attempt (store_chunk (up_id u) (up_index u) (up_total_chunks u) (up_total_bytes u) (up_data u));
      mret (Stored r)
  | FetchChunk id idx => r ← attempt (fetch_chunk id idx); mret (Fetched r)
  | DeleteTransfer id => r ← attempt (delete_transfer Failed id); mret (Deleted r)
  | SweepExpired => r ← attempt (sweep_expired Failed); mret (Swept r)
  end.

(** What [m] returns is what a call at [p] answers with [f]. *)
Definition ends {A} (p : Point) (m : M FileStore FileReject A) (f : FileReject + A → Point) st i : Prop :=
  ∀ r st' i', m st i = (r, st', i') → leads p st i (f r) st' i'.

Ltac go := eapply leads_step; [reflexivity|].

(** ** Uploads *)

Lemma alone_unclaim u e st i :
  leads (Unclaiming u e) st i (answered u (inl e)) (set_meta (delete (up_id u) (meta st)) st) i.
Proof. go. apply leads_refl. Qed.

Lemma alone_rejected u creating e st i :
  ∀ r st' i', (if (creating : bool) then
             _ ← release_slot;
             modify (λ st, set_meta (delete (up_id u) (meta st)) st)
           else mret () : M FileStore FileReject ()) st i = (r, st', i') →
  leads (rejected u creating e) st i (answered u (inl e)) st' i'.
Proof.
  intros r st' i'. destruct creating; intros [= <- <- <-]; [|apply leads_refl]. do 2 go. apply leads_refl.
Qed.

Lemma release_if_inr a st i : ∃ st', release_if a st i = (inr tt, st', i).
Proof. unfold release_if. destruct (0 <? a); eauto. Qed.

Lemma alone_write u creating st i :
  ends (Beginning u creating)
    (write_chunk (up_id u) (up_index u) (up_total_chunks u) (up_total_bytes u) (up_data u) (blen (up_data u)) creating)
    (λ r, match r with inl e => rejected u creating e | inr _ => answered u r end) st i.
Proof.
  intros r st' i'. unfold write_chunk. unfold mbind at 1, M_bind at 1.
  destruct (begin_txn Full st i) as [[[e|[]] st1] i1] eqn:Hb.
  { intros [= <- <- <-]. eapply leads_step; [simpl; unfold begin_fill, attempt, mbind, M_bind; by rewrite Hb|].
    apply leads_refl. }
  assert (step (E := Empty_set) (Beginning u creating) st i = (inr (Filling u creating), st1, i1)) as H1.
  { simpl. unfold begin_fill, attempt, mbind, M_bind. by rewrite Hb. }
  unfold mbind at 1, M_bind at 1.
  destruct (with_local _ _ st1 i1) as [[[e|[write l]] st2] i2] eqn:Hw.
  { unfold with_local in Hw. by destruct (write_body _ _ _ _ _ _ _ _ _) as [[? []] ?]. }
  assert (step (E := Empty_set) (Filling u creating) st1 i1 = (inr (match write with
        | inr (mt, ct, received, stored, created_at) =>
            Committing u creating {| wr_meta := mt; wr_chunks := ct; wr_received := received; wr_stored := stored;
                                     wr_created_at := created_at |} l
        | inl e => Undoing u creating e l
        end), st2, i2)) as H2.
  { simpl. unfold fill, with_local, mbind, M_bind in *.
    destruct (write_body _ _ _ _ _ _ _ _ _) as [[? []] ?]. by simplify_eq. }
  unfold mbind at 1, M_bind at 1. destruct write as [e|[[[[mt ct] rc] sb] ca]].
  { unfold mbind, M_bind. destruct (release_if_inr (reserved_add l) st2 i2) as [st3 Hr]. rewrite Hr.
    intros [= <- <- <-]. eapply leads_step; [exact H1|]. eapply leads_step; [exact H2|].
    eapply leads_step; [simpl; unfold attempt, mbind, M_bind; by rewrite Hr|]. go. apply leads_refl. }
  cbn [mret M_ret]. unfold mbind at 1, M_bind at 1. unfold attempt.
  destruct (commit Full st2 i2) as [[committed st3] i3] eqn:Hc.
  assert (step (E := Empty_set) (Committing u creating {| wr_meta := mt; wr_chunks := ct; wr_received := rc; wr_stored := sb;
       wr_created_at := ca |} l) st2 i2 = match committed with
       | inr _ => (inr (Trimming u {| wr_meta := mt; wr_chunks := ct; wr_received := rc; wr_stored := sb;
                                      wr_created_at := ca |} l), set_tables mt ct st3, i3)
       | inl _ => (inr (Uncommitted u creating l), st3, i3) end) as H3.
  { simpl. unfold commit_fill, attempt, mbind, M_bind. rewrite Hc. by destruct committed. }
  destruct committed as [e|[]]; unfold mbind, M_bind.
  - destruct (release_if_inr (reserved_add l) st3 i3) as [st4 Hr]. rewrite Hr. intros [= <- <- <-].
    eapply leads_step; [exact H1|]. eapply leads_step; [exact H2|]. eapply leads_step; [exact H3|].
    eapply leads_step; [simpl; unfold attempt, mbind, M_bind; by rewrite Hr|]. apply leads_refl.
  - cbn [mret M_ret modify].
    destruct (release_if_inr (release_after_commit l) (set_tables mt ct st3) i3) as [st4 Hr]. rewrite Hr. intros [= <- <- <-].
    eapply leads_step; [exact H1|]. eapply leads_step; [exact H2|]. eapply leads_step; [exact H3|].
    eapply leads_step; [simpl; unfold attempt, mbind, M_bind; by rewrite Hr|]. go. apply leads_refl.
Qed.

Lemma alone_store u st i :
  ends (Claiming u) (store_chunk (up_id u) (up_index u) (up_total_chunks u) (up_total_bytes u) (up_data u))
    (answered u) st i.
Proof.
  intros r st' i' HX. unfold store_chunk in HX. unfold mbind at 1, M_bind at 1 in HX. cbn [get] in HX.
  assert (∀ p1 st1 i1 p' st' i', claim (E := Empty_set) u st i = (inr p1, st1, i1) → leads p1 st1 i1 p' st' i' →
    leads (Claiming u) st i p' st' i') as Hc by (intros ?????? H1 H2; by eapply leads_step).
  unfold claim, mbind at 1, M_bind at 1 in Hc. cbn [get] in Hc.
  destruct (_ || _); [unfold throw, mbind, M_bind in HX; simplify_eq; by eapply Hc; [reflexivity|apply leads_refl]|].
  destruct (_ || _); [unfold throw, mbind, M_bind in HX; simplify_eq; by eapply Hc; [reflexivity|apply leads_refl]|].
  assert (∀ creating st1 i1 r st' i', (result ← attempt (write_chunk (up_id u) (up_index u) (up_total_chunks u)
        (up_total_bytes u) (up_data u) (blen (up_data u)) creating);
      _ ← (match result with
           | inl _ => if (creating : bool) then
                        _ ← release_slot;
                        modify (λ st, set_meta (delete (up_id u) (meta st)) st)
                      else mret ()
           | inr _ => mret ()
           end);
      lift result : M FileStore FileReject StoredChunk) st1 i1 = (r, st', i') →
    leads (Beginning u creating) st1 i1 (answered u r) st' i') as Hwrite.
  { clear r st' i' HX Hc. intros creating st1 i1 r st' i'. pose proof (alone_write u creating st1 i1) as H. unfold ends in H.
    unfold mbind, M_bind, attempt. destruct (write_chunk _ _ _ _ _ _ _ st1 i1) as [[[e|sc] st2] i2].
    2:{ intros [= <- <- <-]. by apply (H (inr sc)). }
    specialize (H _ _ _ eq_refl).
    intros Hx. eapply leads_trans; [exact H|].
    destruct creating; cbn in Hx; unfold lift in Hx; simplify_eq; by eapply (alone_rejected _ _ _ _ _ (inr tt)). }
  destruct (meta st !! up_id u) as [m|].
  - destruct (_ || _); [unfold throw, mbind, M_bind in HX; simplify_eq; by eapply Hc; [reflexivity|apply leads_refl]|].
    eapply Hc; [reflexivity|]. by apply Hwrite.
  - destruct (negb _); [unfold throw, mbind, M_bind in HX; simplify_eq; by eapply Hc; [reflexivity|apply leads_refl]|].
    unfold now_ms, read_clock, mbind, M_bind, modify, mret, M_ret in Hc, HX.
    eapply Hc; [reflexivity|]. unfold attempt at 1 in HX. cbn beta iota in HX.
    match type of HX with context [reserve_slot ?s ?j] => set (st1 := s) in *; set (i1 := j) in * end.
    destruct (reserve_slot st1 i1) as [[[e|[]] st2] i2] eqn:Hr.
    + unfold forget, throw in HX. simplify_eq. eapply leads_step; [simpl; unfold take_slot, attempt, mbind, M_bind; by rewrite Hr|].
      apply alone_unclaim.
    + eapply leads_step; [simpl; unfold take_slot, attempt, mbind, M_bind; by rewrite Hr|].
      by apply Hwrite.
Qed.

(** ** The other methods *)

Lemma alone_fetch id idx st i :
  ends (LookingUp id idx) (fetch_chunk id idx) (λ r, Returned (FetchChunk id idx) (Fetched r)) st i.
Proof.
  intros r st' i' HX. unfold fetch_chunk in HX. unfold mbind at 1, M_bind at 1 in HX. cbn [get] in HX.
  destruct (meta st !! id) as [m|] eqn:Hm; [destruct (total_chunks m <=? idx) eqn:Hi|].
  - unfold throw in HX. simplify_eq. eapply leads_step; [|apply leads_refl]. simpl. unfold look_up, mbind, M_bind. cbn [get]. by rewrite Hm, Hi.
  - eapply (leads_step _ _ _ (Reading id idx m)).
    { simpl. unfold look_up, mbind, M_bind. cbn [get]. by rewrite Hm, Hi. }
    eapply leads_step; [|apply leads_refl].
    simpl. unfold attempt, read_chunk. unfold mbind at 1 2, M_bind at 1 2. cbn [get]. by rewrite HX.
  - unfold throw in HX. simplify_eq. eapply leads_step; [|apply leads_refl]. simpl. unfold look_up, mbind, M_bind. cbn [get]. by rewrite Hm.
Qed.

Lemma alone_delete id q st i r st' i' :
  delete_transfer Failed id st i = (r, st', i') → leads (Starting id q) st i (resume q r) st' i'.
Proof.
  intros HX. unfold delete_transfer in HX. cbn [chunk_bounds] in HX. unfold mbind at 1, M_bind at 1 in HX. cbn [get] in HX.
  unfold mbind at 1, M_bind at 1 in HX. destruct (begin_txn Failed st i) as [[[e|[]] st1] i1] eqn:Hb.
  { simplify_eq. eapply leads_step; [|apply leads_refl]. simpl. unfold attempt, mbind, M_bind. by rewrite Hb. }
  assert (st1 = st) as -> by (unfold begin_txn, io_call in Hb; by repeat case_match; simplify_eq).
  eapply leads_step; [simpl; unfold attempt, mbind, M_bind; by rewrite Hb|]. cbn [mret M_ret].
  set (K := λ w, (_ ← commit (E := anyhow) Failed;
                  _ ← modify (set_tables (rm_meta w) (rm_chunks w));
                  _ ← (if rm_existed w then
                         _ ← modify (λ st, set_meta (delete id (meta st)) st);
                         _ ← release_slot;
                         release_bytes (rm_stored w)
                       else mret ());
                  mret (rm_existed w) : M FileStore anyhow bool)).
  assert ((removal id ≫= K) st i1 = (r, st', i')) as HY.
  { rewrite <- HX. unfold removal. cbn [chunk_bounds]. change (get ≫= ?f) with (λ s i, f s s i). cbn beta.
    apply bind_assoc. intros mt s1 j1. apply bind_assoc. intros v s2 j2.
    destruct (match v with Some _ => _ | None => _ end) as [stored existed].
    do 5 (apply bind_assoc; intros). done. }
  clear HX. unfold mbind at 1, M_bind at 1 in HY. destruct (removal id st i1) as [[[e|w] st2] i2] eqn:Hr.
  { simplify_eq. eapply leads_step; [simpl; unfold attempt, mbind, M_bind; by rewrite Hr|]. destruct e.
    go. apply leads_refl. }
  eapply leads_step; [simpl; unfold attempt, mbind, M_bind; by rewrite Hr|]. cbn [mret M_ret].
  unfold K, mbind, M_bind, modify, mret, M_ret in HY. destruct (commit Failed st2 i2) as [[[e|[]] st3] i3] eqn:Hc.
  { simplify_eq. eapply leads_step; [simpl; unfold commit_removal, attempt, mbind, M_bind; by rewrite Hc|]. apply leads_refl. }
  eapply leads_step; [simpl; unfold commit_removal, attempt, mbind, M_bind; by rewrite Hc|]. cbn [modify mret M_ret].
  destruct (rm_existed w); simplify_eq/=; [|apply leads_refl]. do 3 go. apply leads_refl.
Qed.

Lemma alone_sweep ids n st i r st' i' :
  foldM (λ removed id,
    existed ← delete_transfer Failed id;
    mret (if (existed : bool) then removed +! 1 else removed)) n ids st i = (r, st', i') →
  leads (sweep_on ids n) st i (Returned SweepExpired (Swept r)) st' i'.
Proof.
  revert n st i. induction ids as [|id ids IH]; intros n st i; simpl.
  { intros [= <- <- <-]. apply leads_refl. }
  unfold mbind, M_bind. destruct (delete_transfer Failed id st i) as [[[e|ex] st1] i1] eqn:Hd;
    pose proof (alone_delete id (Sweeping ids n) _ _ _ _ _ Hd) as H; simpl in H.
  { by intros [= <- <- <-]. }
  intros Hf. eapply leads_trans; [exact H|]. by apply IH.
Qed.

(** A call that nothing interrupts answers what the method returns, and leaves the
    store and the script as the method does. *)
Lemma alone_call c st i a st' i' :
  method c st i = (inr a, st', i') → leads (entry_point c) st i (Returned c a) st' i'.
Proof.
  destruct c as [u|id idx|id|]; simpl; unfold attempt; unfold mbind at 1, M_bind at 1.
  - destruct (store_chunk _ _ _ _ _ st i) as [[r st1] i1] eqn:H. intros [= <- <- <-]. by apply alone_store.
  - destruct (fetch_chunk _ _ st i) as [[r st1] i1] eqn:H. intros [= <- <- <-]. by eapply alone_fetch.
  - destruct (delete_transfer _ _ st i) as [[r st1] i1] eqn:H. intros [= <- <- <-]. by apply (alone_delete id (Asked id)).
  - destruct (sweep_expired _ st i) as [[r st1] i1] eqn:H. intros [= <- <- <-]. eapply leads_step; [reflexivity|].
    by apply alone_sweep.
Qed.
End Alone.

(** The calls of the file store end: none waits for ever for the write
    transaction, and none goes round in circles. *)

Section Ends.
Context {RD : Redb} {SM : Serde FileMeta}.
Implicit Types (p : Point) (w : Files).

(** ** How many operations a call has before it at most *)

Definition after (q : Purpose) : Z :=
  match q with Asked _ => 1 | Sweeping rest _ => 1 + 8 * Z.of_nat (length rest) end.

Definition ahead p : Z :=
  match p with
  | Claiming _ => 10
  | TakingSlot _ => 9
  | Beginning _ _ => 8
  | Filling _ _ => 7
  | Committing _ _ _ _ => 6
  | Undoing _ _ _ _ | Uncommitted _ _ _ => 5
  | Dropping _ _ _ => 4
  | GivingUp _ _ | Trimming _ _ _ | LookingUp _ _ => 3
  | Mirroring _ _ | Unclaiming _ _ | Reading _ _ _ => 2
  | Starting _ q => 7 + after q
  | Removing _ q => 6 + after q
  | CommittingRemoval _ q _ => 5 + after q
  | Forgetting _ q _ => 4 + after q
  | ReturningSlot q _ => 3 + after q
  | ReturningBytes q _ => 2 + after q
  | Abandoning q => 2 + after q
  | Listing => 0
  | Returned _ _ => 1
  end.

(** A sweep that has not listed what it removes: its length is not known yet. *)
Definition unlisted p : Z := match p with Listing => 1 | _ => 0 end.

Definition shorter p p' : Prop :=
  unlisted p = 1 ∧ unlisted p' = 0 ∨ unlisted p = unlisted p' ∧ ahead p' < ahead p.

Lemma ahead_resume q r : unlisted (resume q r) = 0 ∧ ahead (resume q r) ≤ after q.
Proof. destruct q as [id|[|id rest] n], r as [e|ex]; simpl; lia. Qed.

Lemma ahead_nonneg p : 0 ≤ ahead p.
Proof. destruct p; simpl; try lia; destruct p; simpl; lia. Qed.

Lemma unlisted_nonneg p : 0 ≤ unlisted p.
Proof. destruct p; simpl; lia. Qed.

Lemma shorter_resume p q r : unlisted p = 0 → after q < ahead p → shorter p (resume q r).
Proof. intros Hp Hq. destruct (ahead_resume q r). right. lia. Qed.

Lemma shorter_rejected p u creating e : unlisted p = 0 → 3 < ahead p → shorter p (rejected u creating e).
Proof. intros Hp Ha. right. destruct creating; simpl; lia. Qed.

Lemma unlisted_sweep ids n : unlisted (sweep_on ids n) = 0.
Proof. by destruct ids. Qed.

Lemma step_shorter p st i p' st' i' :
  step (E := Empty_set) p st i = (inr p', st', i') → (∀ call a, p ≠ Returned call a) → shorter p p'.
Proof.
  intros Hs Hnr.
  enough (wp (step (E := Empty_set) p) (λ r _ _, match r with inr p' => shorter p p' | inl _ => True end) st i) as H.
  { unfold wp in H. by rewrite Hs in H. }
  clear Hs. destruct p as [u|u|u cr|u cr|u cr e l|u cr e|u cr wr l|u cr l|u wr l|u wr|u e|u e|id idx|id idx m|id q|id q|q|id q r|id q n|q n|q n| |call a];
    simpl; unfold claim, take_slot, begin_fill, fill, commit_fill, look_up, commit_removal, forget, release_slot, release_bytes;
    repeat first [wp_step | apply wp_now_ms | case_match | apply wp_arbitrary; intros [?|?] ? ?];
    first [by destruct (Hnr call a) | by left; rewrite unlisted_sweep | by apply shorter_rejected; simpl; lia
          | by apply shorter_resume; simpl; lia | right; simpl; lia].
Qed.

#[global] Program Instance file_calls_fall : Falling FileStore Point Call := {
  first_measure := unlisted;
  second_measure := ahead;
  first_nonneg := unlisted_nonneg;
  second_nonneg := ahead_nonneg;
}.
Next Obligation. by intros []. Qed.
Next Obligation.
  intros p st p' st' i i' Hs Ho. destruct (step_shorter _ _ _ _ _ _ Hs) as [[??]|[??]]; [|lia..].
  by intros call a ->.
Qed.
Next Obligation. by intros []. Qed.
End Ends.
