(* ===== verification/FileThreadsWhy.v ===== *)
(** Where the bytes come from that the file store answers, and what stands behind
    an upload that was accepted. *)
From Stdlib Require Import ZArith Lia Ascii String.
From stdpp Require Import base gmap strings list.
From S2P Require Import Prelude Redb RustStd Config Util FileStore FileFacts FileRemovals Calls FileThreads.
From S2P Require Import FileThreadsFacts FileThreadsSound FileThreadsRuns.

Section Why.
Context {RD : Redb} {SM : Serde FileMeta}.
Implicit Types (st : FileStore) (p : Point) (w : Files) (u : Upload) (tr : list FileMoment).

Definition upload_of p : option Upload :=
  match p with
  | Claiming u | TakingSlot u | Beginning u _ | Filling u _ | Undoing u _ _ _ | Dropping u _ _ | Committing u _ _ _
  | Uncommitted u _ _ | Trimming u _ _ | Mirroring u _ | GivingUp u _ | Unclaiming u _
  | Returned (StoreChunk u) _ => Some u
  | _ => None
  end.

(** The upload that a call has written, with the count it answers. *)
Definition says_stored p : option (Upload * Z) :=
  match p with
  | Trimming u wr _ | Mirroring u wr => Some (u, wr_received wr)
  | Returned (StoreChunk u) (Stored (inr sc)) => Some (u, sc_received_chunks sc)
  | _ => None
  end.

(** The chunk that a call has read. *)
Definition says_read p : option (string * bytes) :=
  match p with Returned (FetchChunk id idx) (Fetched (inr f)) => Some (chunk_key id idx, data f) | _ => None end.

Definition key_of u : string := chunk_key (up_id u) (up_index u).

(** The chunk of an upload is on disk, and the metadata count [n]. *)
Definition on_record st u (n : Z) : Prop :=
  chunks st !! key_of u = Some (up_data u) ∧ ∃ m, metas st !! up_id u = Some m ∧ received_chunks m = n.

(** ** One operation *)

Definition same_talk p p' : Prop :=
  (upload_of p' = upload_of p ∨ upload_of p' = None)
  ∧ (says_stored p' = None ∨ says_stored p' = says_stored p) ∧ (says_read p' = None ∨ says_read p' = says_read p).

Lemma talk_rejected p u creating e : upload_of p = Some u → same_talk p (rejected u creating e).
Proof. intros H. unfold same_talk. destruct creating; simpl; rewrite H; auto. Qed.

Lemma talk_resume p q r : same_talk p (resume q r).
Proof. unfold same_talk. destruct q as [id|[|id rest] n], r as [e|ex]; simpl; auto. Qed.

Lemma talk_sweep p ids n : same_talk p (sweep_on ids n).
Proof. unfold same_talk. destruct ids; simpl; auto. Qed.

Lemma step_talk st p p' st' i i' :
  step (E := Empty_set) p st i = (inr p', st', i') →
  (∀ u cr wr l, p ≠ Committing u cr wr l) → (∀ id idx m, p ≠ Reading id idx m) → same_talk p p'.
Proof.
  intros Hs Hnc Hnr.
  enough (wp (step (E := Empty_set) p) (λ r _ _, match r with inr p' => same_talk p p' | inl _ => True end) st i) as H.
  { unfold wp in H. by rewrite Hs in H. }
  clear Hs. destruct p as [u|u|u cr|u cr|u cr e l|u cr e|u cr wr l|u cr l|u wr l|u wr|u e|u e|id idx|id idx m|id q|id q|q|id q r|id q n|q n|q n| |call a];
    simpl; unfold claim, take_slot, begin_fill, fill, commit_fill, look_up, commit_removal, forget, release_slot, release_bytes;
    repeat first [wp_step | apply wp_now_ms | case_match | apply wp_arbitrary; intros [?|?] ? ?];
    first [by destruct (Hnc u cr wr l) | by destruct (Hnr id idx m) | by apply talk_rejected | apply talk_resume | apply talk_sweep
          | unfold same_talk; simpl; split_and!; by auto].
Qed.

(** What an operation says, and where a new chunk is from. *)
Record learns st p st' p' : Prop := {
  ln_upload : upload_of p' = upload_of p ∨ upload_of p' = None;
  ln_chunks : ∀ k b, chunks st' !! k = Some b →
    chunks st !! k = Some b ∨ ∃ u, upload_of p = Some u ∧ k = key_of u ∧ b = up_data u;
  ln_stored : ∀ u n, says_stored p' = Some (u, n) → says_stored p = Some (u, n) ∨ on_record st' u n;
  ln_read : ∀ k b, says_read p' = Some (k, b) → says_read p = Some (k, b) ∨ chunks st !! k = Some b;
}.

Lemma learns_talk st p st' p' :
  same_talk p p' → (∀ k b, chunks st' !! k = Some b → chunks st !! k = Some b) → learns st p st' p'.
Proof.
  intros (Hu & Hs & Hr) Hc. split; [done|by auto| |].
  - intros u n H. left. destruct Hs as [Hn|<-]; [by rewrite Hn in H|done].
  - intros k b H. left. destruct Hr as [Hn|<-]; [by rewrite Hn in H|done].
Qed.

Lemma commit_learns st u creating wr l i p' st' i' :
  here st (Committing u creating wr l) →
  step (E := Empty_set) (Committing u creating wr l) st i = (inr p', st', i') → learns st (Committing u creating wr l) st' p'.
Proof.
  intros Hh Hs. destruct (prepared_base _ _ _ _ _ Hh) as (m & _ & _ & _ & Hmt & Hct & Hrc & _ & _).
  enough (wp (step (E := Empty_set) (Committing u creating wr l))
    (λ r st' _, match r with inr p' => learns st (Committing u creating wr l) st' p' | inl _ => True end) st i) as H.
  { unfold wp in H. by rewrite Hs in H. }
  simpl. unfold commit_fill, commit. do 2 wp_step. apply wp_io_call.
  2:{ intros _ j _. wp_steps. apply learns_talk; [|done]. unfold same_talk. simpl. auto. }
  intros j _. wp_steps. rewrite Hmt, Hct.
  match goal with |- learns _ _ ?s _ => assert (chunks s = <[key_of u := up_data u]> (chunks st)) as Hc by apply contents_insert end.
  split.
  - by left.
  - intros k b. rewrite Hc. intros [[<- <-]|[_ Hk]]%lookup_insert_Some; [right; eauto|by left].
  - intros u' n [= <- <-]. right. split; [by rewrite Hc, lookup_insert_eq|].
    eexists. split; [|by rewrite Hrc]. unfold metas. simpl. by rewrite decoded_insert, lookup_insert_eq.
  - done.
Qed.

Lemma read_learns st id idx m i p' st' i' :
  step (E := Empty_set) (Reading id idx m) st i = (inr p', st', i') → learns st (Reading id idx m) st' p'.
Proof.
  intros Hs.
  enough (wp (step (E := Empty_set) (Reading id idx m))
    (λ r st' _, match r with inr p' => learns st (Reading id idx m) st' p' | inl _ => True end) st i) as H.
  { unfold wp in H. by rewrite Hs in H. }
  simpl. wp_steps. unfold read_chunk. wp_steps. unfold begin_txn, open_table, txn_get.
  repeat first [wp_step | apply wp_io_call; [intros ? _|intros _ ? _]];
    try (apply learns_talk; [unfold same_talk; simpl; by auto|done]).
  destruct (tbl_get _ _) as [b|] eqn:Hb; wp_steps; [|apply learns_talk; [unfold same_talk; simpl; by auto|done]].
  split; simpl; try done.
  - by left.
  - by left.
  - intros k b' [= <- <-]. right. unfold chunks. by rewrite contents_lookup.
Qed.

Lemma step_learns st p i p' st' i' :
  items_fine i → here st p → step (E := Empty_set) p st i = (inr p', st', i') → learns st p st' p'.
Proof.
  intros Hi Hh Hs. pose proof (step_well st p i Hi Hh) as Hgo. unfold steps_well, wp in Hgo. simpl in Hs. rewrite Hs in Hgo.
  assert (commits p = false → chunks st' = chunks st) as Hc.
  { intros Hc. unfold chunks. by rewrite (proj2 (go_tables _ _ _ _ Hgo Hc)). }
  destruct p; try (apply learns_talk; [eapply step_talk; [exact Hs|done|done]|rewrite Hc by done; done]).
  - by eapply commit_learns.
  - by eapply read_learns.
  - apply learns_talk; [by eapply step_talk|]. destruct (he_ok _ _ Hh) as (_ & _ & ks & _ & Hct & _).
    enough (wp (step (E := Empty_set) (CommittingRemoval transfer_id p w)) (λ _ st' _,
      ∀ k b, chunks st' !! k = Some b → chunks st !! k = Some b) st i) as H.
    { unfold wp in H. by rewrite Hs in H. }
    simpl. unfold commit_removal, commit. do 2 wp_step. apply wp_io_call; intros; wp_steps; [|done].
    intros k b. unfold chunks. simpl. rewrite Hct, chunks_removed. by intros [? _]%remove_keys_Some.
Qed.

(** ** Histories *)

#[local] Hint Resolve asked_more : core.

(** A chunk that was there at the start, or that an upload has brought. *)
Definition brought st0 tr (k : string) (b : bytes) : Prop :=
  chunks st0 !! k = Some b ∨ ∃ u, asked tr (StoreChunk u) ∧ k = key_of u ∧ b = up_data u.

(** Some time up to now the upload was on disk. *)
Definition recorded tr w u (n : Z) : Prop :=
  on_record (shared w) u n ∨ Exists (λ mom, on_record (shared (at_ mom)) u n) tr.

Record Told st0 tr w : Prop := {
  td_upload : ∀ who p u, under_way w !! who = Some p → upload_of p = Some u → asked tr (StoreChunk u);
  td_chunks : ∀ k b, chunks (shared w) !! k = Some b → brought st0 tr k b;
  td_stored : ∀ who p u n, under_way w !! who = Some p → says_stored p = Some (u, n) → recorded tr w u n;
  td_read : ∀ who p k b, under_way w !! who = Some p → says_read p = Some (k, b) → brought st0 tr k b;
}.

Lemma brought_more st0 tr mom k b : brought st0 tr k b → brought st0 (tr ++ [mom]) k b.
Proof. intros [?|(u & Hu & ?)]; [by left|right]. exists u. split; [|done]. apply Exists_app. by left. Qed.

Lemma recorded_more tr w (m : Move Call) i w' u n :
  recorded tr w u n → recorded (tr ++ [{| at_ := w; moved := m; calls := i |}]) w' u n.
Proof. intros [?|?]; right; apply Exists_app; [right; by constructor|by left]. Qed.

Lemma Told_moved st0 tr w (m : Move Call) i w' i' :
  Sound w → Told st0 tr w → ready w m → move_pre w m i → run_move m w i = (inr tt, w', i') →
  Told st0 (tr ++ [{| at_ := w; moved := m; calls := i |}]) w'.
Proof.
  intros HS [H1 H2 H3 H4] Hr Hpre Hrun.
  destruct m as [who call|who]; simpl in *.
  { injection Hrun as <- <-. split; simpl.
    - intros who' p u [[<- <-]|[_ Hp]]%lookup_insert_Some Hu; [|by eauto]. apply Exists_app. right. constructor.
      exists who. simpl. by destruct call; simplify_eq/=.
    - intros. by apply brought_more, H2.
    - intros who' p u n [[<- <-]|[_ Hp]]%lookup_insert_Some Hu; [by destruct call|by eapply recorded_more, H3].
    - intros who' p k b [[<- <-]|[_ Hp]]%lookup_insert_Some Hu; [by destruct call|by eapply brought_more, H4]. }
  destruct (under_way w !! who) as [p|] eqn:Hp; [|done].
  destruct (go_on_seen _ _ _ _ _ _ _ Hp Hrun) as [[_ ->]|(_ & p' & st' & Hs & ->)].
  { split; simpl.
    - intros who' q u [_ Hp']%lookup_delete_Some Hu; eauto.
    - intros. by apply brought_more, H2.
    - intros who' q u n [_ Hp']%lookup_delete_Some Hu. by eapply recorded_more, H3.
    - intros who' q k b [_ Hp']%lookup_delete_Some Hu. by eapply brought_more, H4. }
  pose proof (step_learns _ _ _ _ _ _ Hpre (Sound_here _ _ _ HS Hp) Hs) as [L1 L2 L3 L4]. split; simpl.
  - intros who' q u [[<- <-]|[_ Hq]]%lookup_insert_Some Hu; [|by eauto].
    destruct L1 as [L1|L1]; rewrite L1 in Hu; [by eauto|done].
  - intros k b Hk. destruct (L2 _ _ Hk) as [?|(u & Hu & ? & ?)]; [by apply brought_more, H2|].
    right. exists u. split; [by eauto|done].
  - intros who' q u n [[<- <-]|[_ Hq]]%lookup_insert_Some Hu; [|by eapply recorded_more, H3].
    destruct (L3 _ _ Hu) as [?|?]; [by eapply recorded_more, H3|by left].
  - intros who' q k b [[<- <-]|[_ Hq]]%lookup_insert_Some Hu; [|by eapply brought_more, H4].
    destruct (L4 _ _ Hu) as [?|?]; [by eapply brought_more, H4|by apply brought_more, H2].
Qed.

Lemma files_told st tr w : Inv st → Caps st → history (idle_files st) tr w → Told st tr w.
Proof.
  intros HI HC. induction 1 as [|tr w m i w' i' Hh IH Hr Hpre Hrun].
  - split; simpl; try done. intros k b Hk. by left.
  - eapply Told_moved; [|done..]. by eapply files_sound.
Qed.

(** ** An id nobody owns *)

(** The cache has an entry that is neither on disk nor any call's. *)
Definition lost w (id : string) : Prop :=
  metas (shared w) !! id = None ∧ is_Some (meta (shared w) !! id)
  ∧ map_Forall (λ _ p, owned p ≠ Some id) (under_way w).

#[global] Instance lost_dec w id : Decision (lost w id).
Proof. unfold lost. apply _. Defined.

Lemma lost_moved w (m : Move Call) i w' i' id :
  Sound w → lost w id → ready w m → move_pre w m i → run_move m w i = (inr tt, w', i') → lost w' id.
Proof.
  intros HS (Hn & Hc & Hown) Hr Hpre Hrun. destruct m as [who call|who]; simpl in *.
  { injection Hrun as <- <-. split_and!; [done|done|]. intros who' p. simpl. intros [[<- <-]|[_ Hp]]%lookup_insert_Some.
    - pose proof (proj1 (entry_free call)) as E. simpl in E. by rewrite E.
    - by eapply Hown. }
  destruct (under_way w !! who) as [p|] eqn:Hp; [|done].
  destruct (go_on_seen _ _ _ _ _ _ _ Hp Hrun) as [[_ ->]|(_ & p' & st' & Hs & ->)].
  { split_and!; [done|done|]. intros who' q. simpl. intros [_ Hp']%lookup_delete_Some. by eapply Hown. }
  pose proof (step_well _ _ _ Hpre (Sound_here _ _ _ HS Hp)) as Hgo. unfold steps_well, wp in Hgo. simpl in Hs. rewrite Hs in Hgo.
  pose proof (owns_not _ _ (Hown _ _ Hp)) as Hz. pose proof (on_disk_not _ _ Hn) as Hd.
  destruct (go_owner _ _ _ _ Hgo id) as [[Ho Hk]|[(_ & Hnone & _)|[_ Ho]]]; [|destruct Hc; congruence|lia].
  pose proof (owns_nonneg id p'). pose proof (on_disk_nonneg st' id). split_and!; simpl.
  - destruct (metas st' !! id) eqn:Hm; [|done]. rewrite (on_disk_is _ _ _ Hm) in *. lia.
  - by apply Hk.
  - intros who' q [[<- <-]|[_ Hq]]%lookup_insert_Some; [|by eapply Hown].
    intros Ho'. rewrite (owns_is _ _ Ho') in *. lia.
Qed.

Lemma lost_later w tr w' id : Sound w → lost w id → history w tr w' → lost w' id.
Proof.
  intros HS Hl. induction 1 as [|tr w' m i w'' i' Hh IH Hr Hpre Hrun]; [done|].
  eapply lost_moved; [by eapply Sound_later|done..].
Qed.
End Why.
