(* ===== verification/FileThreadsDemo.v ===== *)
(** Histories of the file store's calls by evaluation, and what calls do to each
    other. *)
From Stdlib Require Import ZArith Lia Ascii String.
From stdpp Require Import base gmap strings list.
From S2P Require Import Prelude Redb RustStd Config Util FileStore FileFacts FileProps Calls FileThreads.
From S2P Require Import FileThreadsWhy.

Section Play.
Context {RD : Redb} {SM : Serde FileMeta}.

#[global] Instance upload_pre_dec cfg u : Decision (upload_pre cfg u).
Proof.
  refine (cast_if (decide (no_char ":" (up_id u) ∧ (0 ≤ up_index u ∧ 0 ≤ up_total_chunks u ∧ 0 ≤ up_total_bytes u)
    ∧ max_file_bytes cfg + blen (up_data u) ≤ u64_max ∧ max_total_file_bytes cfg + blen (up_data u) ≤ u64_max)));
    abstract (first [by destruct_and!; constructor | intros []; tauto]).
Defined.

#[global] Instance move_pre_dec (w : Files) (m : Move Call) (i : io) : Decision (move_pre w m i).
Proof. destruct m as [who c|who]; simpl; [destruct c; simpl; apply _|unfold items_fine; apply _]. Defined.

End Play.

(** ** Stories *)

Section Stories.
#[local] Existing Instances gmap_redb meta_serde.

Definition go (who : nat) : Move Call * io := (Ran who, calm).

Definition chunk0 : Upload :=
  {| up_id := "id0"; up_index := 0; up_total_chunks := 2; up_total_bytes := 10; up_data := dat1 |}.

Definition chunk1 : Upload :=
  {| up_id := "id0"; up_index := 1; up_total_chunks := 2; up_total_bytes := 10; up_data := dat2 |}.

(** The second chunk is claimed, written and mirrored while the first, which
    creates the transfer, is under way. *)
Definition two_uploads : list (Move Call * io) :=
  [(Called 1 (StoreChunk chunk0), calm); go 1; (Called 2 (StoreChunk chunk1), calm); go 2; go 1; go 1; go 1; go 1;
   go 2; go 1; go 2; go 2; go 2; go 2; go 1].

Definition then_fetch : list (Move Call * io) := two_uploads ++ [(Called 3 (FetchChunk "id0" 1), calm); go 3; go 3].

Definition idle : Files := idle_files empty_files.

Definition after_moves (moves : list (Move Call * io)) : Files := after_from idle moves.

Lemma played moves : isSome (play moves idle) = true → history idle (moments moves idle) (after_moves moves).
Proof. apply played_from. Qed.

(** Where a call of a story stands. *)
Definition stands (who : nat) (moves : list (Move Call * io)) : Point :=
  default Listing (under_way (after_moves moves) !! who).

Lemma stands_there who moves :
  isSome (under_way (after_moves moves) !! who) = true → under_way (after_moves moves) !! who = Some (stands who moves).
Proof. unfold stands. by destruct (under_way (after_moves moves) !! who). Qed.

(** The first upload is about to commit the transfer it creates, the second waits. *)
Definition start_moves : list (Move Call * io) := take 7 two_uploads.

Lemma half_way_history : history idle (moments start_moves idle) (after_moves start_moves).
Proof. apply played. vm_compute. reflexivity. Qed.

Lemma uploaded_history : history idle (moments two_uploads idle) (after_moves two_uploads).
Proof. apply played. vm_compute. reflexivity. Qed.

Lemma fetched_history : history idle (moments then_fetch idle) (after_moves then_fetch).
Proof. apply played. vm_compute. reflexivity. Qed.

(** ** An upload that a deletion overtakes *)

(** The transfer of the first chunk is on disk. The second chunk commits; a deletion
    of the transfer runs from its beginning to its end; then the upload updates the
    cache. *)
Definition overtaken : list (Move Call * io) :=
  [(Called 1 (StoreChunk chunk0), calm)] ++ replicate 8 (go 1)
  ++ [(Called 1 (StoreChunk chunk1), calm); go 1; go 1; go 1; go 1]
  ++ [(Called 2 (DeleteTransfer "id0"), calm)] ++ replicate 7 (go 2) ++ [go 1; go 1; go 1].

Lemma overtaken_history : history idle (moments overtaken idle) (after_moves overtaken).
Proof. apply played. vm_compute. reflexivity. Qed.

(** .. and then the sender tries again. *)
Definition try_again : list (Move Call * io) := [(Called 3 (StoreChunk chunk0), calm)] ++ replicate 4 (go 3).

Lemma try_again_history :
  history (after_moves overtaken) (moments try_again (after_moves overtaken)) (after_from (after_moves overtaken) try_again).
Proof. apply played_from. vm_compute. reflexivity. Qed.

Lemma overtaken_lost : bool_decide (lost (after_moves overtaken) "id0") = true.
Proof. vm_compute. reflexivity. Qed.
End Stories.

(** What calls of the file store do to each other, by evaluation.

    Each example is a history of [empty_files] that ends with every call answered. *)

#[local] Existing Instances gmap_redb meta_serde.

(** A call from its beginning to its end, its answer collected: [n] operations. *)
Definition whole (who : nat) (c : Call) (n : nat) : list (Move Call * io) := (Called who c, calm) :: replicate n (go who).

Definition late : io := Io [] [] [100000000] [].

(** The upload of a chunk updates the cache after a deletion of the transfer that
    began after its commit: it puts the entry back. From then on the id can be
    neither uploaded, fetched nor deleted, and no sweep takes the entry away. *)
Example deletion_leaves_an_entry :
  let w := after_moves overtaken in
  size (under_way w) = 0%nat ∧ size (metas (shared w)) = 0%nat ∧ transfer_count (shared w) = 0
  ∧ (store_chunk "id0" 0 2 10 dat1 (shared w) calm).1.1 = inl NotFound
  ∧ (fetch_chunk "id0" 0 (shared w) calm).1.1 = inl NotFound
  ∧ (delete_transfer Failed "id0" (shared w) calm).1.1 = inr false
  ∧ (sweep_expired Failed (shared w) late).1.1 = inr 0
  ∧ (total_chunks <$> meta (sweep_expired Failed (shared w) late).1.2 !! "id0") = Some 2.
Proof. cbv zeta. split_and!; vm_compute; reflexivity. Qed.

(** An upload checks the shape of the transfer before its transaction. When the
    transfer is deleted and created anew in between, the chunk of the old shape is
    counted for the new transfer, which is complete without its second chunk. *)
Definition long3 : Upload :=
  {| up_id := "id0"; up_index := 3; up_total_chunks := 4; up_total_bytes := 10; up_data := dat2 |}.

Definition long0 : Upload :=
  {| up_id := "id0"; up_index := 0; up_total_chunks := 4; up_total_bytes := 10; up_data := dat1 |}.

Definition reshaped : list (Move Call * io) :=
  whole 1 (StoreChunk long0) 8 ++ [(Called 1 (StoreChunk long3), calm); go 1]
  ++ whole 2 (DeleteTransfer "id0") 7 ++ whole 2 (StoreChunk chunk0) 8 ++ replicate 6 (go 1).

Example old_chunk_counts_for_new_transfer :
  let w := after_moves reshaped in
  isSome (play reshaped idle) = true ∧ size (under_way w) = 0%nat
  ∧ (λ m, (received_chunks m, total_chunks m)) <$> metas (shared w) !! "id0" = Some (2, 2)
  ∧ (fetch_chunk "id0" 1 (shared w) calm).1.1 = inl NotFound.
Proof. cbv zeta. split_and!; vm_compute; reflexivity. Qed.

(** The count an upload brings to the cache may be that of a transfer deleted since:
    the cache takes the new transfer, of which one chunk of two is on disk, for
    complete, and the sweep gives it the long window. *)
Definition miscounted : list (Move Call * io) :=
  whole 1 (StoreChunk chunk0) 8 ++ [(Called 1 (StoreChunk chunk1), calm); go 1; go 1; go 1; go 1]
  ++ whole 2 (DeleteTransfer "id0") 7 ++ whole 2 (StoreChunk chunk0) 8 ++ replicate 3 (go 1).

Example cache_takes_new_transfer_for_complete :
  let w := after_moves miscounted in
  isSome (play miscounted idle) = true ∧ size (under_way w) = 0%nat
  ∧ received_chunks <$> metas (shared w) !! "id0" = Some 1
  ∧ (λ c, (received_chunks c, total_chunks c)) <$> meta (shared w) !! "id0" = Some (2, 2).
Proof. cbv zeta. split_and!; vm_compute; reflexivity. Qed.
