(* ===== verification/FileThreadsProps.v ===== *)
(** What the file store guarantees when any number of its calls interleave. *)
From Stdlib Require Import ZArith Lia Ascii String.
From stdpp Require Import base gmap strings list.
From S2P Require Import Prelude Redb RustStd Config Util FileStore FileFacts FileProps Calls FileThreads.
From S2P Require Import FileThreadsFacts FileThreadsSound FileThreadsRuns FileThreadsWhy FileThreadsDemo.

Section Props.
Context {RD : Redb} {SM : Serde FileMeta}.
Implicit Types (st : FileStore) (w : Files) (u : Upload) (tr : list FileMoment).

(** What a transfer on disk is: its counts are those of its chunks, and the cache has it. *)
Definition transfer_ok st id (m : FileMeta) : Prop :=
  stored_bytes m = bytes_of id (chunks st) ∧ received_chunks m = count_of id (chunks st)
  ∧ stored_bytes m ≤ total_bytes m ∧ stored_bytes m ≤ max_file_bytes (config st)
  ∧ ∃ c, meta st !! id = Some c ∧ same_shape c m.

(** C10. However the calls of the file store interleave, the metadata of a transfer on disk
    counts its chunks and their bytes, every chunk has its transfer, and a transfer on disk is
    in the cache with its shape; the reserved bytes and the transfer count are what is on disk
    plus what calls under way hold, never above their caps, and exactly what is on disk when no
    call is under way. *)
Theorem file_calls_keep_accounts st tr w :
  Inv st → Caps st → history (idle_files st) tr w →
  let s := shared w in
  (∀ id m, metas s !! id = Some m → transfer_ok s id m)
  ∧ (∀ k b, chunks s !! k = Some b → b ≠ [] ∧ ∃ id idx, k = chunk_key id idx ∧ is_Some (metas s !! id))
  ∧ reserved_bytes s = total_stored (metas s) + debt held w
  ∧ transfer_count s = Z.of_nat (size (metas s)) + debt slots w
  ∧ total_stored (metas s) ≤ reserved_bytes s ≤ max_total_file_bytes (config s)
  ∧ Z.of_nat (size (metas s)) ≤ transfer_count s ≤ max_transfers (config s)
  ∧ (under_way w = ∅ → reserved_bytes s = total_stored (metas s) ∧ transfer_count s = Z.of_nat (size (metas s))).
Proof.
  intros HI HC Hh s. pose proof (files_sound _ _ _ HI HC Hh) as HS. pose proof HS as [HK HP _ [HR HRc] [HT HTc] HO HM].
  fold s in HK, HR, HRc, HT, HTc, HM. pose proof (kp_wf _ HK) as Hwf.
  assert (0 ≤ debt held w) by (apply msum_nonneg; intros who p Hp; eapply held_nonneg; [exact HK|by eapply HP]).
  assert (0 ≤ debt slots w) by (apply msum_nonneg; intros; apply slots_nonneg).
  split_and!; try done; try lia.
  - intros id m Hm. pose proof (loosen_Some _ _ _ Hm) as Hl. destruct (wf_counts _ _ Hwf _ _ Hl) as [H1 H2].
    destruct (wf_metas _ _ Hwf _ _ Hl) as [_ [_ _ H3]]. simpl in *. split_and!; try done; [by eapply (kp_file _ HK)|].
    destruct (disk_cached _ _ _ HS Hm) as [c Hc]. exists c. split; [done|]. by eapply (kp_shape _ HK).
  - intros k b Hk. destruct (wf_chunks _ _ Hwf _ _ Hk) as (Hb & id & idx & m & -> & Hm & _). split; [done|].
    exists id, idx. split; [done|]. rewrite lookup_fmap in Hm. by destruct (metas s !! id).
  - intros Hnone. unfold debt in *. rewrite Hnone, msum_empty in HR. rewrite Hnone, msum_empty in HT. lia.
Qed.

(** C12. However the calls of the file store interleave, a transfer that a call is creating, or
    has deleted and not yet forgotten, is not on disk, has its entry in the cache, and is no
    other call's: two first chunks of the same id never both create it. *)
Theorem an_id_has_one_owner st tr w id who p :
  Inv st → Caps st → history (idle_files st) tr w → under_way w !! who = Some p → owned p = Some id →
  metas (shared w) !! id = None ∧ is_Some (meta (shared w) !! id)
  ∧ ∀ who' p', under_way w !! who' = Some p' → owned p' = Some id → who' = who.
Proof.
  intros HI HC Hh Hp Ho. pose proof (files_sound _ _ _ HI HC Hh) as HS.
  destruct (he_owner _ _ (Sound_here _ _ _ HS Hp) _ Ho) as [Hn Hc]. split_and!; [done..|].
  intros who' p' Hp' Ho'. destruct (decide (who' = who)) as [|Hne]; [done|].
  pose proof (owned_alone _ _ _ _ _ _ HS Hne Hp' Hp Ho) as H0. rewrite (owns_is _ _ Ho') in H0. done.
Qed.

(** C11. However the calls of the file store interleave, an upload is answered with a count only
    after its chunk was on disk with that count in the metadata, and a fetch answers only bytes
    that were there at the start or that some upload brought under that id and index. *)
Theorem answers_have_their_uploads st tr w who p :
  Inv st → Caps st → history (idle_files st) tr w → under_way w !! who = Some p →
  (∀ u sc, p = Returned (StoreChunk u) (Stored (inr sc)) →
     asked tr (StoreChunk u) ∧ recorded tr w u (sc_received_chunks sc))
  ∧ ∀ id idx f, p = Returned (FetchChunk id idx) (Fetched (inr f)) → brought st tr (chunk_key id idx) (data f).
Proof.
  intros HI HC Hh Hp. destruct (files_told _ _ _ HI HC Hh) as [H1 _ H3 H4]. split.
  - intros u sc ->. split; [by eapply H1|]. by eapply (H3 who _ u (sc_received_chunks sc)).
  - intros id idx f ->. by eapply (H4 who).
Qed.

(** C14. The calls of the file store end under every schedule: there is no infinite sequence of
    operations without new calls, and as long as a call is under way some call can go on,
    whatever foreign calls fail: none waits for ever for the write transaction. *)
Theorem file_calls_end w :
  Acc (λ w2 w1, goes_on w1 w2) w
  ∧ (under_way w ≠ ∅ → ∃ who, ready w (Ran who) ∧ ∀ i, ∃ w' i', run_move (Ran who) w i = (inr tt, w', i')).
Proof.
  split; [apply goes_on_ends|]. intros Hne. destruct (some_ready _ Hne) as [who Hr].
  exists who. split; [done|]. intros i. apply move_total.
Qed.

(** C15. An id whose cache entry has no owner, neither a transfer on disk nor a call, stays so
    until a restart, whatever calls follow: it never gets a transfer again and the entry is
    never removed. The witness is an upload that a deletion of its transfer overtakes. *)
Theorem lost_ids_stay_lost st tr w tr' w' id :
  Inv st → Caps st → history (idle_files st) tr w → lost w id → history w tr' w' →
  metas (shared w') !! id = None ∧ is_Some (meta (shared w') !! id)
  ∧ ∀ who p, under_way w' !! who = Some p → owned p ≠ Some id.
Proof. intros HI HC Hh Hl Hh'. apply (lost_later w tr'); [by eapply files_sound|done|done]. Qed.

(** C13. A call of the file store that nothing interrupts answers, operation by operation, what
    the method answers in one go, and leaves the same store and the same script, for every
    method, state and sequence of failures. *)
Theorem calls_alone_are_methods c st i :
  ∃ n a st' i', method c st i = (inr a, st', i')
    ∧ alone n (entry_point c) st i = (inr (Returned c a), st', i').
Proof.
  destruct (method c st i) as [[[[]|a] st'] i'] eqn:Hm.
  destruct (alone_call _ _ _ _ _ _ Hm) as [n Hn]. by exists n, a, st', i'.
Qed.
End Props.

(** ** Witnesses *)

Section Witnesses.
#[local] Existing Instances gmap_redb meta_serde.

(** The first upload holds three bytes and a slot for a transfer that is not on disk yet. *)
Lemma file_calls_keep_accounts_witness :
  reserved_bytes (shared (after_moves start_moves))
    = total_stored (metas (shared (after_moves start_moves))) + debt held (after_moves start_moves)
  ∧ metas (shared (after_moves start_moves)) = ∅ ∧ reserved_bytes (shared (after_moves start_moves)) = 3.
Proof.
  split; [|split; [apply map_size_empty_inv|]; vm_compute; reflexivity].
  pose proof (file_calls_keep_accounts empty_files _ _ (proj1 Inv_empty_files) (proj2 Inv_empty_files)
    half_way_history) as H. cbv zeta in H. exact (proj1 (proj2 (proj2 H))).
Defined.

Lemma an_id_has_one_owner_witness :
  owned (stands 1 start_moves) = Some "id0"
  ∧ ∀ who' p', under_way (after_moves start_moves) !! who' = Some p' → owned p' = Some "id0" → who' = 1%nat.
Proof.
  assert (owned (stands 1 start_moves) = Some "id0") as Ho by (vm_compute; reflexivity).
  split; [exact Ho|].
  exact (proj2 (proj2 (an_id_has_one_owner empty_files _ _ "id0" 1%nat _ (proj1 Inv_empty_files) (proj2 Inv_empty_files)
    half_way_history (stands_there 1 start_moves ltac:(vm_compute; reflexivity)) Ho))).
Defined.

Lemma answers_have_their_uploads_witness :
  stands 3 then_fetch
    = Returned (FetchChunk "id0" 1) (Fetched (inr {| data := dat2; fc_total_chunks := 2; fc_total_bytes := 10 |}))
  ∧ brought empty_files (moments then_fetch idle) (chunk_key "id0" 1) dat2.
Proof.
  assert (stands 3 then_fetch
    = Returned (FetchChunk "id0" 1) (Fetched (inr {| data := dat2; fc_total_chunks := 2; fc_total_bytes := 10 |}))) as Hp
    by (vm_cast_no_check (eq_refl (stands 3 then_fetch))).
  split; [exact Hp|].
  exact (proj2 (answers_have_their_uploads empty_files _ _ 3%nat _ (proj1 Inv_empty_files) (proj2 Inv_empty_files)
    fetched_history (stands_there 3 then_fetch ltac:(vm_compute; reflexivity))) "id0" 1 _ Hp).
Defined.

Lemma file_calls_end_witness :
  under_way (after_moves start_moves) ≠ ∅ ∧ ∃ who, ready (after_moves start_moves) (Ran who).
Proof.
  assert (under_way (after_moves start_moves) ≠ ∅) as Hne by (intros H%(f_equal size); vm_compute in H; discriminate).
  split; [exact Hne|]. destruct (proj2 (file_calls_end (after_moves start_moves)) Hne) as (who & Hr & _).
  exact (ex_intro _ who Hr).
Defined.

(** No call is under way, nothing is on disk, and an entry is in the cache. *)
Lemma lost_ids_stay_lost_witness :
  under_way (after_moves overtaken) = ∅
  ∧ metas (shared (after_from (after_moves overtaken) try_again)) !! "id0" = None.
Proof.
  split; [apply map_size_empty_inv; vm_compute; reflexivity|].
  exact (proj1 (lost_ids_stay_lost empty_files _ _ _ _ "id0" (proj1 Inv_empty_files) (proj2 Inv_empty_files)
    overtaken_history (bool_decide_eq_true_1 _ overtaken_lost) try_again_history)).
Defined.
End Witnesses.
