(* ===== verification/QueueThreads.v ===== *)
(** The queue store on several threads: its methods point by point.

    [QueueStore] runs a method in one go.  Here each is taken apart at the accesses
    to what the threads share: the sequence counter, the entry of the index, a read
    transaction, the write transaction from its beginning to its end, the byte
    total.  A [QPoint] is where a call stands, with its local variables; [qstep]
    performs the next operation.  [Calls] runs any number of them. *)
From Stdlib Require Import ZArith Lia Ascii String.
From stdpp Require Import base gmap strings list.
From S2P Require Import Prelude Redb RustStd Config Util Protocol QueueStore QueueFacts Calls.

Section QueueThreads.
Context {RD : Redb} {UL : UuidLib} {SV : Serde StoredValue}.

Inductive QCall :=
  | Enqueue (mailbox : string) (env : StoredEnvelope)
  | Flush (mailbox : string)
  | IsEmpty (mailbox : string)
  | Ack (mailbox : string) (ids : list Uuid)
  | PurgeMailbox (mailbox : string)
  | SweepQueues.

Inductive QAnswer :=
  | Counted (r : anyhow + Z)
  | Flushed (r : anyhow + list StoredEnvelope)
  | Emptiness (r : anyhow + bool).

(** An envelope on its way into the queue of [at_mailbox]. *)
Record Parcel := {
  at_mailbox : string;
  envelope : StoredEnvelope;
  value : StoredValue;
}.

(** What makes room for it: the messages to evict and their bytes. *)
Record Room := {
  evict_bytes : Z;
  evict_ids : list Uuid;
}.

Inductive Cut :=
  | Acked (mailbox : string) (ids : list Uuid)
  | Purged (mailbox : string)
  | Expired (cutoff : Z).

(** A correction of the index: [get_mut] and subtract, or remove. *)
Inductive Correction :=
  | Subtract (mailbox : string) (count bytes : Z)
  | Clear (mailbox : string).

(** The transaction of a removal, before its commit. *)
Record CutOut := {
  cut_table : Table;
  cut_freed : Z;
  cut_count : Z;
  cut_index : list Correction;
}.

Inductive QPoint :=
  (* enqueue *)
  | Numbering (mailbox : string) (env : StoredEnvelope)
  | Weighing (x : Parcel)
  | Choosing (x : Parcel)
  | Approaching (x : Parcel) (room : Room)
  | Inserting (x : Parcel) (room : Room)
  | Rejecting (x : Parcel)
  | Sealing (x : Parcel) (room : Room) (table : Table)
  | Charging (x : Parcel) (room : Room)
  | Crediting (x : Parcel) (room : Room)
  | Indexing (x : Parcel) (room : Room)
  (* flush, is_empty *)
  | Flushing (mailbox : string)
  | Peeking (mailbox : string)
  (* ack, purge_mailbox, sweep_expired *)
  | Dating
  | Preparing (c : Cut)
  | Cutting (c : Cut)
  | Reverting (c : Cut)
  | Confirming (c : Cut) (o : CutOut)
  | Refunding (c : Cut) (count freed : Z) (rest : list Correction)
  | Correcting (c : Cut) (count : Z) (rest : list Correction)
  | Replied (c : QCall) (a : QAnswer).

(** ** Where a call stands *)

Definition queue_entry (c : QCall) : QPoint :=
  match c with
  | Enqueue mailbox env => Numbering mailbox env
  | Flush mailbox => Flushing mailbox
  | IsEmpty mailbox => Peeking mailbox
  | Ack mailbox [] => Replied (Ack mailbox []) (Counted (inr 0))
  | Ack mailbox ids => Preparing (Acked mailbox ids)
  | PurgeMailbox mailbox => Preparing (Purged mailbox)
  | SweepQueues => Dating
  end.

(** Inside a write transaction. *)
Definition writes (p : QPoint) : bool :=
  match p with
  | Inserting _ _ | Rejecting _ | Sealing _ _ _ | Cutting _ | Reverting _ | Confirming _ _ => true
  | _ => false
  end.

(** About to begin one. *)
Definition awaits (p : QPoint) : bool :=
  match p with Approaching _ _ | Preparing _ => true | _ => false end.

Definition queued (x : Parcel) (r : anyhow + Z) : QPoint := Replied (Enqueue (at_mailbox x) (envelope x)) (Counted r).

Definition call_of (c : Cut) : QCall :=
  match c with
  | Acked mailbox ids => Ack mailbox ids
  | Purged mailbox => PurgeMailbox mailbox
  | Expired _ => SweepQueues
  end.

Definition removed (c : Cut) (r : anyhow + Z) : QPoint := Replied (call_of c) (Counted r).

Definition correct_on (c : Cut) (count : Z) (rest : list Correction) : QPoint :=
  match rest with [] => removed c (inr count) | _ => Correcting c count rest end.

(** ** The operations of an enqueue *)

(** The clock and the counter, and the local serialization. *)
Definition number {E : Type} (mailbox : string) (env : StoredEnvelope) : M QueueStore E QPoint :=
  now ← now_ms;
  st ← get;
  let seq := next_seq st in
  _ ← put (set_next_seq (seq +! 1) st);
  let x := {| at_mailbox := mailbox; envelope := env;
              value := {| sv_t := envelope_type env; sv_c := ciphertext env; sv_q := now; sv_s := seq |} |} in
  r ← attempt (io_call (E := anyhow) Failed);
  mret (match r with inr _ => Weighing x | inl e => queued x (inl e) end).

Definition inc (x : Parcel) : Z := slen (ciphertext (envelope x)).

Definition no_room_needed : Room := {| evict_bytes := 0; evict_ids := [] |}.

(** The index says whether room must be made. *)
Definition weigh_in {E : Type} (x : Parcel) : M QueueStore E QPoint :=
  st ← get;
  let '(cur_count, cur_bytes) := index_entry (at_mailbox x) st in
  mret (if (MAX_QUEUE_PER_RECIPIENT <? cur_count +! 1) || (PER_MAILBOX_QUEUE_BYTES <? cur_bytes +! inc x)
        then Choosing x else Approaching x no_room_needed).

(** The mailbox is read, oldest first. *)
Definition choose {E : Type} (x : Parcel) : M QueueStore E QPoint :=
  r ← attempt (read_mailbox (at_mailbox x));
  mret (match r with
        | inr existing =>
            let '(b, ids) := evict_loop existing (Z.of_nat (length existing)) (wrap64 (sum_len existing)) (inc x) 0 [] in
            Approaching x {| evict_bytes := b; evict_ids := ids |}
        | inl e => queued x (inl e)
        end).

(** The write transaction up to its commit. *)
Definition insertion (x : Parcel) (room : Room) : M QueueStore anyhow Table :=
  st ← get;
  table ← open_table Failed (db st);
  table ← txn_remove_all Failed table (key_for (at_mailbox x) <$> evict_ids room);
  txn_insert Failed table (key_for (at_mailbox x) (env_id (envelope x))) (to_vec (value x)).

Definition seal {E : Type} (x : Parcel) (room : Room) (table : Table) : M QueueStore E QPoint :=
  committed ← attempt (commit (E := anyhow) Failed);
  match committed with
  | inr _ => _ ← modify (set_db table); mret (Charging x room)
  | inl e => mret (queued x (inl e))
  end.

Definition index_in {E : Type} (x : Parcel) (room : Room) : M QueueStore E QPoint :=
  _ ← modify (λ st,
    let e := index_entry (at_mailbox x) st in
    set_index (<[at_mailbox x := ((e.1 -^ Z.of_nat (length (evict_ids room))) +^ 1,
                                  (e.2 -^ evict_bytes room) +^ inc x)]> (index st)) st);
  mret (queued x (inr (Z.of_nat (length (evict_ids room))))).

(** ** The operations of a removal *)

(** [ack] in its transaction. *)
Definition ack_out (mailbox : string) (ids : list Uuid) : M QueueStore anyhow CutOut :=
  st ← get;
  table ← open_table Failed (db st);
  '(table, freed, removed) ← foldM (λ '(table, freed, removed) id,
    let key := key_for mailbox id in
    v ← txn_get Failed table key;
    let freed :=
      match v ≫= from_slice with
      | Some val => freed +^ slen (sv_c val)
      | None => freed
      end in
    table' ← txn_remove Failed table key;
    let removed := match tbl_get table key with Some _ => removed +! 1 | None => removed end in
    mret (table', freed, removed)) (table, 0, 0) ids;
  mret {| cut_table := table; cut_freed := freed; cut_count := removed;
          cut_index := if 0 <? removed then [Subtract mailbox removed freed] else [] |}.

(** [purge_mailbox] in its transaction. *)
Definition purge_out (mailbox : string) : M QueueStore anyhow CutOut :=
  let '(lo, hi) := mailbox_bounds mailbox in
  st ← get;
  table ← open_table Failed (db st);
  entries ← txn_range Failed table lo hi;
  '(freed, keys) ← foldM (λ '(freed, keys) '(k, v),
    _ ← io_call Failed;
    let freed :=
      match from_slice v with
      | Some val => freed +^ slen (sv_c val)
      | None => freed
      end in
    mret (freed, keys ++ [k])) (0, []) entries;
  table ← txn_remove_all Failed table keys;
  mret {| cut_table := table; cut_freed := freed; cut_count := Z.of_nat (length keys); cut_index := [Clear mailbox] |}.

(** [sweep_expired] in its transaction. *)
Definition sweep_out (cutoff : Z) : M QueueStore anyhow CutOut :=
  st ← get;
  table ← open_table Failed (db st);
  entries ← txn_iter Failed table;
  '(freed, keys, per_mailbox) ← foldM (λ '(freed, keys, per_mailbox) '(k, v),
    _ ← io_call Failed;
    match from_slice v with
    | Some val =>
        if sv_q val <? cutoff then
          let per_mailbox :=
            match parse_mailbox k with
            | Some mailbox => per_mailbox_add mailbox (slen (sv_c val)) per_mailbox
            | None => per_mailbox
            end in
          mret (freed +^ slen (sv_c val), keys ++ [k], per_mailbox)
        else mret (freed, keys, per_mailbox)
    | None => mret (freed, keys, per_mailbox)
    end) (0, [], ∅) entries;
  table ← txn_remove_all Failed table keys;
  mret {| cut_table := table; cut_freed := freed; cut_count := Z.of_nat (length keys);
          cut_index := (λ '(mailbox, (count, bytes)), Subtract mailbox count bytes) <$> map_to_list per_mailbox |}.

Definition cut_out (c : Cut) : M QueueStore anyhow CutOut :=
  match c with
  | Acked mailbox ids => ack_out mailbox ids
  | Purged mailbox => purge_out mailbox
  | Expired cutoff => sweep_out cutoff
  end.

Definition confirm {E : Type} (c : Cut) (o : CutOut) : M QueueStore E QPoint :=
  committed ← attempt (commit (E := anyhow) Failed);
  match committed with
  | inr _ => _ ← modify (set_db (cut_table o)); mret (Refunding c (cut_count o) (cut_freed o) (cut_index o))
  | inl e => mret (removed c (inl e))
  end.

Definition corrected (x : Correction) (ix : gmap string (Z * Z)) : gmap string (Z * Z) :=
  match x with
  | Subtract mailbox count bytes => index_sub mailbox count bytes ix
  | Clear mailbox => delete mailbox ix
  end.

(** The next operation of a call. *)
Definition qstep {E : Type} (p : QPoint) : M QueueStore E QPoint :=
  match p with
  | Numbering mailbox env => number mailbox env
  | Weighing x => weigh_in x
  | Choosing x => choose x
  | Approaching x room => r ← attempt (begin_txn (E := anyhow) Failed);
      mret (match r with inr _ => Inserting x room | inl e => queued x (inl e) end)
  | Inserting x room => r ← attempt (insertion x room);
      mret (match r with inr table => Sealing x room table | inl _ => Rejecting x end)
  | Rejecting x => mret (queued x (inl Failed))
  | Sealing x room table => seal x room table
  | Charging x room => _ ← modify (λ st, set_total (total_bytes st +! inc x) st); mret (Crediting x room)
  | Crediting x room =>
      _ ← modify (λ st, set_total (atomic_sub_saturating (total_bytes st) (evict_bytes room)) st);
      mret (Indexing x room)
  | Indexing x room => index_in x room
  | Flushing mailbox => r ← attempt (flush mailbox); mret (Replied (Flush mailbox) (Flushed r))
  | Peeking mailbox => r ← attempt (is_empty mailbox); mret (Replied (IsEmpty mailbox) (Emptiness r))
  | Dating => now ← now_ms; mret (Preparing (Expired (now -^ QUEUE_TTL_MS)))
  | Preparing c => r ← attempt (begin_txn (E := anyhow) Failed);
      mret (match r with inr _ => Cutting c | inl e => removed c (inl e) end)
  | Cutting c => r ← attempt (cut_out c);
      mret (match r with inr o => Confirming c o | inl _ => Reverting c end)
  | Reverting c => mret (removed c (inl Failed))
  | Confirming c o => confirm c o
  | Refunding c count freed rest =>
      _ ← modify (λ st, set_total (atomic_sub_saturating (total_bytes st) freed) st);
      mret (correct_on c count rest)
  | Correcting c count [] => mret (removed c (inr count))
  | Correcting c count (x :: rest) =>
      _ ← modify (λ st, set_index (corrected x (index st)) st);
      mret (correct_on c count rest)
  | Replied c a => mret (Replied c a)
  end.

(** ** The calls *)

(** What the caller of a method ensures: a mailbox id without a colon, an envelope
    within the mailbox budget (a frame is far smaller). *)
Definition queue_call_pre (c : QCall) : Prop :=
  match c with
  | Enqueue mailbox env => no_char ":" mailbox ∧ slen (ciphertext env) ≤ PER_MAILBOX_QUEUE_BYTES
  | Flush mailbox | IsEmpty mailbox | Ack mailbox _ | PurgeMailbox mailbox => no_char ":" mailbox
  | SweepQueues => True
  end.

(** Counters and disks are not that large. *)
Definition queue_step_pre (st : QueueStore) : Prop := next_seq st < u64_max ∧ total_of (entries st) ≤ 2 ^ 63.

(** The queue store as an instance. *)
#[global] Instance queue_calls : Calls QueueStore QPoint QCall := {
  entry_point := queue_entry;
  next_point := qstep;
  inside := writes;
  waiting := awaits;
  over p := match p with Replied _ _ => true | _ => false end;
  call_pre _ := queue_call_pre;
  step_pre st _ := queue_step_pre st;
}.
End QueueThreads.

Abbreviation Queues := (Machine QueueStore QPoint).
Abbreviation QueueMoment := (Moment QueueStore QPoint QCall).
Abbreviation idle_queues st := (idle_machine (P := QPoint) st).
