(* ===== verification/QueueThreadsRuns.v ===== *)
(** How a call of the queue store runs: one that nothing interrupts is the method of
    [QueueStore], and every one ends. *)
From Stdlib Require Import ZArith Lia Ascii String.
From stdpp Require Import base gmap strings list.
From S2P Require Import Prelude Redb RustStd Config Util Protocol QueueStore Calls QueueThreads.

Section Alone.
Context {RD : Redb} {UL : UuidLib} {SV : Serde StoredValue}.
Implicit Types (p : QPoint) (st : QueueStore) (x : Parcel) (c : Cut).

(** The method a call names. *)
Definition queue_method (c : QCall) : M QueueStore Empty_set QAnswer :=
  match c with
  | Enqueue mailbox env => r ← attempt (enqueue mailbox env); mret (Counted r)
  | Flush mailbox => r ← attempt (flush mailbox); mret (Flushed r)
  | IsEmpty mailbox => r ← attempt (is_empty mailbox); mret (Emptiness r)
  | Ack mailbox ids => r ← attempt (ack mailbox ids); mret (Counted r)
  | PurgeMailbox mailbox => r ← attempt (purge_mailbox mailbox); mret (Counted r)
  | SweepQueues => r ← attempt sweep_expired; mret (Counted r)
  end.

(** A call at [p] goes on to what [m] does from [st] and [i], and ends in [f] of its result. *)
Definition does {A} p (m : M QueueStore anyhow A) (f : anyhow + A → QPoint) st i : Prop :=
  ∀ r st' i', m st i = (r, st', i') → leads p st i (f r) st' i'.

Lemma does_ret {A} p (a : A) f st i : p = f (inr a) → does p (mret a) f st i.
Proof. intros -> r st' i' [= <- <- <-]. apply leads_refl. Qed.

Lemma does_same {A} p (m m' : M QueueStore anyhow A) f st i : m st i = m' st i → does p m' f st i → does p m f st i.
Proof. intros Hm Hg r st' i'. rewrite Hm. apply Hg. Qed.

(** The next operation of [p] is the next part of the method. *)
Lemma does_bind {A B} p (m : M QueueStore anyhow A) (k : A → M QueueStore anyhow B) (next : anyhow + A → QPoint) f st i :
  qstep (E := Empty_set) p st i = (r ← attempt m; mret (next r)) st i →
  (∀ e st i, leads (next (inl e)) st i (f (inl e)) st i) →
  (∀ a st1 i1, m st i = (inr a, st1, i1) → does (next (inr a)) (k a) f st1 i1) →
  does p (m ≫= k) f st i.
Proof.
  intros Hp He Hk r st' i'. unfold mbind, M_bind, attempt in *. destruct (m st i) as [[[e|a] st1] i1] eqn:Hm.
  - intros [= <- <- <-]. eapply leads_step; [exact Hp|]. apply He.
  - intros HX. eapply leads_step; [exact Hp|]. by eapply Hk.
Qed.

(** The next operation changes the state, and so does the method. *)
Lemma does_modify {B} p p' g (k : M QueueStore anyhow B) f st i :
  qstep (E := Empty_set) p st i = (inr p', g st, i) → does p' k f (g st) i → does p (modify g ≫= λ _, k) f st i.
Proof. intros Hp Hk r st' i' HX. eapply leads_step; [exact Hp|]. by apply Hk. Qed.

(** ** Computations that only read *)

Definition reads {A} (m : M QueueStore anyhow A) : Prop := ∀ st i r st' i', m st i = (r, st', i') → st' = st.

Lemma reads_ret {A} (a : A) : reads (mret a).
Proof. by intros st i r st' i' [= <- <- <-]. Qed.

Lemma reads_get : reads get.
Proof. by intros st i r st' i' [= <- <- <-]. Qed.

Lemma reads_io e : reads (io_call e).
Proof. intros st i r st' i'. unfold io_call. destruct (io_fail i); by intros [= <- <- <-]. Qed.

Lemma reads_bind {A B} (m : M QueueStore anyhow A) (f : A → M QueueStore anyhow B) :
  reads m → (∀ a, reads (f a)) → reads (m ≫= f).
Proof.
  intros Hm Hf st i r st' i'. unfold mbind, M_bind. destruct (m st i) as [[[e|a] st1] i1] eqn:E; apply Hm in E as ->.
  - by intros [= <- <- <-].
  - apply Hf.
Qed.

Lemma reads_foldM {A B} (f : B → A → M QueueStore anyhow B) l b : (∀ b a, reads (f b a)) → reads (foldM f b l).
Proof. intros Hf. revert b. induction l; intros b; [apply reads_ret|]. by apply reads_bind. Qed.

#[local] Hint Resolve reads_ret reads_get reads_io reads_bind reads_foldM : core.

Lemma reads_mailbox mb : reads (read_mailbox mb).
Proof.
  unfold read_mailbox, begin_txn, open_table, txn_range. simpl. repeat first [apply reads_bind; [by auto|intros ?] | by auto].
  apply reads_bind; [|by auto]. apply reads_foldM. intros out [k v]. apply reads_bind; [by auto|]. intros _.
  repeat case_match; by auto.
Qed.

(** The same first part, then what agrees on its outcome. *)
Lemma bind_agree {A B} (m : M QueueStore anyhow A) (f g : A → M QueueStore anyhow B) st i :
  (∀ a st' i', m st i = (inr a, st', i') → f a st' i' = g a st' i') → (m ≫= f) st i = (m ≫= g) st i.
Proof. intros H. unfold mbind, M_bind. destruct (m st i) as [[[e|a] st'] i']; [done|by apply H]. Qed.

Lemma bind_ext {A B} (m : M QueueStore anyhow A) (f g : A → M QueueStore anyhow B) st i :
  (∀ a st i, f a st i = g a st i) → (m ≫= f) st i = (m ≫= g) st i.
Proof. intros H. by apply bind_agree. Qed.

(** ** Removals *)

Definition settled (o : CutOut) : M QueueStore anyhow Z :=
  _ ← commit Failed;
  _ ← modify (set_db (cut_table o));
  _ ← modify (λ st, set_total (atomic_sub_saturating (total_bytes st) (cut_freed o)) st);
  _ ← modify (λ st, set_index (foldl (flip corrected) (index st) (cut_index o)) st);
  mret (cut_count o).

Definition cut_whole (c : Cut) : M QueueStore anyhow Z := _ ← begin_txn Failed; o ← cut_out c; settled o.

Lemma does_correct c n rest st i :
  does (correct_on c n rest) (_ ← modify (λ st, set_index (foldl (flip corrected) (index st) rest) st); mret n) (removed c) st i.
Proof.
  revert st. induction rest as [|x rest IH]; intros st r st' i' [= <- <- <-].
  { destruct st. apply leads_refl. }
  eapply leads_step; [reflexivity|]. by apply (IH (set_index (corrected x (index st)) st)).
Qed.

Lemma does_cut c st i : does (Preparing c) (cut_whole c) (removed c) st i.
Proof.
  unfold cut_whole. eapply does_bind; [reflexivity|intros; apply leads_refl|]. intros [] st1 i1 _.
  eapply (does_bind _ _ _ (λ r, match r with inr o => Confirming c o | inl _ => Reverting c end)); [reflexivity| |].
  { intros [] ??. eapply leads_step; [reflexivity|]. apply leads_refl. }
  intros o st2 i2 _ r st' i' HX. unfold settled in HX. unfold mbind at 1, M_bind at 1 in HX.
  destruct (commit Failed st2 i2) as [[[e|[]] st3] i3] eqn:Hc.
  - simplify_eq. eapply leads_step; [simpl; unfold confirm, attempt, mbind, M_bind; by rewrite Hc|]. apply leads_refl.
  - eapply leads_step; [simpl; unfold confirm, attempt, mbind, M_bind; by rewrite Hc|]. cbn [modify mret M_ret].
    eapply leads_step; [reflexivity|]. by eapply does_correct.
Qed.

Lemma set_index_same st : set_index (index st) st = st.
Proof. by destruct st. Qed.

Lemma get_later {B} (k : QueueStore → M QueueStore anyhow B) st i :
  (st ← get; _ ← begin_txn Failed; k st) st i = (_ ← begin_txn Failed; st ← get; k st) st i.
Proof. unfold begin_txn, io_call, mbind, M_bind, get. by destruct (io_fail i) as [|[] ?]. Qed.

Lemma settled_same (table : Table) (freed count : Z) ix (k : M QueueStore anyhow ()) st i :
  (∀ st i, k st i = (inr tt, set_index (foldl (flip corrected) (index st) ix) st, i)) →
  settled {| cut_table := table; cut_freed := freed; cut_count := count; cut_index := ix |} st i
  = (_ ← commit Failed;
     _ ← modify (set_db table);
     _ ← modify (λ st, set_total (atomic_sub_saturating (total_bytes st) freed) st);
     _ ← k;
     mret count) st i.
Proof.
  intros Hk. unfold settled. do 3 (apply bind_ext; intros _ ? ?). unfold mbind, M_bind. by rewrite Hk.
Qed.

Lemma ack_whole mb id ids st i : ack mb (id :: ids) st i = cut_whole (Acked mb (id :: ids)) st i.
Proof.
  unfold ack. set (all := id :: ids). clearbody all. rewrite get_later. apply bind_ext. intros _ st1 i1. symmetry.
  simpl. unfold ack_out. do 3 (apply bind_assoc; intros). destruct a1 as [[table freed] removed].
  apply settled_same. intros s j. destruct (0 <? removed); [done|]. by destruct s.
Qed.

Lemma purge_whole mb st i : purge_mailbox mb st i = cut_whole (Purged mb) st i.
Proof.
  unfold purge_mailbox. simpl. rewrite get_later. apply bind_ext. intros _ st1 i1. symmetry.
  simpl. unfold purge_out. simpl. do 4 (apply bind_assoc; intros). destruct a2 as [freed keys].
  apply bind_assoc. intros. by apply settled_same.
Qed.

Lemma foldl_corrections l (ix : gmap string (Z * Z)) :
  foldl (flip corrected) ix ((λ '(mailbox, (count, bytes)), Subtract mailbox count bytes) <$> l)
  = foldl (λ ix '(mailbox, (count, bytes)), index_sub mailbox count bytes ix) ix l.
Proof. revert ix. induction l as [|[mb [c b]] l IH]; intros ix; [done|]. apply IH. Qed.

Lemma sweep_whole st i : sweep_expired st i = (now ← now_ms; cut_whole (Expired (now -^ QUEUE_TTL_MS))) st i.
Proof.
  unfold sweep_expired. apply bind_ext. intros now st1 i1. rewrite get_later. apply bind_ext. intros _ st2 i2. symmetry.
  simpl. unfold sweep_out. do 4 (apply bind_assoc; intros). destruct a2 as [[freed keys] pm].
  apply bind_assoc. intros. apply settled_same. intros s j. by rewrite foldl_corrections.
Qed.

(** ** Enqueue *)

Definition numbered mb (env : StoredEnvelope) : M QueueStore anyhow Parcel :=
  now ← now_ms;
  st ← get;
  let seq := next_seq st in
  _ ← put (set_next_seq (seq +! 1) st);
  _ ← io_call Failed;
  mret {| at_mailbox := mb; envelope := env;
          value := {| sv_t := envelope_type env; sv_c := ciphertext env; sv_q := now; sv_s := seq |} |}.

Definition rest_of_insert x (room : Room) : M QueueStore anyhow Z :=
  _ ← begin_txn Failed;
  table ← insertion x room;
  _ ← commit Failed;
  _ ← modify (set_db table);
  _ ← modify (λ st, set_total (total_bytes st +! inc x) st);
  _ ← modify (λ st, set_total (atomic_sub_saturating (total_bytes st) (evict_bytes room)) st);
  _ ← modify (λ st,
    let e := index_entry (at_mailbox x) st in
    set_index (<[at_mailbox x := ((e.1 -^ Z.of_nat (length (evict_ids room))) +^ 1,
                                  (e.2 -^ evict_bytes room) +^ inc x)]> (index st)) st);
  mret (Z.of_nat (length (evict_ids room))).

Definition rest_of_enqueue x : M QueueStore anyhow Z :=
  st ← get;
  let '(cur_count, cur_bytes) := index_entry (at_mailbox x) st in
  '(b, ids) ←
    (if (MAX_QUEUE_PER_RECIPIENT <? cur_count +! 1) || (PER_MAILBOX_QUEUE_BYTES <? cur_bytes +! inc x) then
       existing ← read_mailbox (at_mailbox x);
       mret (evict_loop existing (Z.of_nat (length existing)) (wrap64 (sum_len existing)) (inc x) 0 [])
     else mret (0, []));
  rest_of_insert x {| evict_bytes := b; evict_ids := ids |}.

Lemma does_insert x room st i : does (Approaching x room) (rest_of_insert x room) (queued x) st i.
Proof.
  eapply does_bind; [reflexivity|intros; apply leads_refl|]. intros [] st1 i1 _.
  eapply (does_bind _ _ _ (λ r, match r with inr table => Sealing x room table | inl _ => Rejecting x end)); [reflexivity| |].
  { intros [] ??. eapply leads_step; [reflexivity|]. apply leads_refl. }
  intros table st2 i2 _ r st' i' HX. unfold mbind at 1, M_bind at 1 in HX.
  destruct (commit Failed st2 i2) as [[[e|[]] st3] i3] eqn:Hc.
  - simplify_eq. eapply leads_step; [simpl; unfold seal, attempt, mbind, M_bind; by rewrite Hc|]. apply leads_refl.
  - eapply leads_step; [simpl; unfold seal, attempt, mbind, M_bind; by rewrite Hc|]. cbn [modify mret M_ret].
    unfold mbind, M_bind, modify, mret, M_ret in HX. simplify_eq.
    do 3 (eapply leads_step; [reflexivity|]). apply leads_refl.
Qed.

Lemma rest_of_insert_from x room st i :
  rest_of_insert x room st i =
  (_ ← begin_txn Failed;
   table ← open_table Failed (db st);
   table ← txn_remove_all Failed table (key_for (at_mailbox x) <$> evict_ids room);
   table ← txn_insert Failed table (key_for (at_mailbox x) (env_id (envelope x))) (to_vec (value x));
   _ ← commit Failed;
   _ ← modify (set_db table);
   _ ← modify (λ st, set_total (total_bytes st +! inc x) st);
   _ ← modify (λ st, set_total (atomic_sub_saturating (total_bytes st) (evict_bytes room)) st);
   _ ← modify (λ st,
     let e := index_entry (at_mailbox x) st in
     set_index (<[at_mailbox x := ((e.1 -^ Z.of_nat (length (evict_ids room))) +^ 1,
                                   (e.2 -^ evict_bytes room) +^ inc x)]> (index st)) st);
   mret (Z.of_nat (length (evict_ids room)))) st i.
Proof.
  apply bind_agree. intros _ st' i' ->%reads_io. unfold insertion.
  change ((get ≫= ?f) ≫= ?k) with (λ s i, (f s ≫= k) s i). cbn beta. by do 2 (apply bind_assoc; intros).
Qed.

Lemma enqueue_parts mb env st i : enqueue mb env st i = (x ← numbered mb env; rest_of_enqueue x) st i.
Proof.
  symmetry. unfold enqueue, numbered. do 4 (apply bind_assoc; intros). unfold rest_of_enqueue.
  change (mret ?x ≫= ?f) with (f x). cbn beta. unfold inc, at_mailbox at 1 2, envelope at 1 2.
  change (get ≫= ?f) with (λ s i, f s s i). cbn beta.
  destruct (index_entry mb s'2) as [c b]. apply bind_agree. intros [eb ids] st1 j1 E.
  assert (st1 = s'2) as ->.
  { destruct (_ || _) in E; [|by injection E]. eapply reads_bind; [apply reads_mailbox|intros; apply reads_ret|exact E]. }
  apply rest_of_insert_from.
Qed.

Lemma does_enqueue mb env st i :
  does (Numbering mb env) (enqueue mb env) (λ r, Replied (Enqueue mb env) (Counted r)) st i.
Proof.
  eapply does_same; [apply enqueue_parts|].
  eapply (does_bind _ _ _ (λ r, match r with inr x => Weighing x | inl e => Replied (Enqueue mb env) (Counted (inl e)) end)).
  { simpl. unfold number, numbered, now_ms, attempt, mbind, M_bind. cbn.
    unfold io_call. by destruct (io_fail _) as [|[] ?]. }
  { intros. apply leads_refl. }
  intros x st1 i1 Hx.
  assert (at_mailbox x = mb ∧ envelope x = env) as [<- <-].
  { clear -Hx. unfold numbered, now_ms, attempt, mbind, M_bind in Hx. cbn in Hx.
    unfold io_call in Hx. destruct (io_fail _) as [|[] ?]; cbn in Hx; [|done|]; by injection Hx as <- _ _. }
  unfold rest_of_enqueue. intros r st' i' HX. change (get ≫= ?f) with (λ s i, f s s i) in HX. cbn beta in HX.
  destruct (index_entry (at_mailbox x) st1) as [c b] eqn:Hix.
  eapply leads_step.
  { simpl. unfold weigh_in. change (get ≫= ?f) with (λ s i, f s s i). cbn beta. rewrite Hix. reflexivity. }
  destruct (_ || _); [|by apply does_insert].
  rewrite (bind_assoc _ _ _ (λ existing,
    let '(b, ids) := evict_loop existing (Z.of_nat (length existing)) (wrap64 (sum_len existing)) (inc x) 0 [] in
    rest_of_insert x {| evict_bytes := b; evict_ids := ids |})) in HX by done.
  revert HX. eapply (does_bind (Choosing x) _ _ (λ r, match r with
      | inr existing =>
          let '(b, ids) := evict_loop existing (Z.of_nat (length existing)) (wrap64 (sum_len existing)) (inc x) 0 [] in
          Approaching x {| evict_bytes := b; evict_ids := ids |}
      | inl e => queued x (inl e)
      end) (queued x)); [reflexivity|intros; apply leads_refl|].
  intros existing st2 i2 _. destruct (evict_loop _ _ _ _ _ _) as [eb ids]. apply does_insert.
Qed.

(** ** Every call *)

Lemma answers_now {A} p (c : QCall) (m : M QueueStore anyhow A) (f : anyhow + A → QAnswer) st i a st' i' :
  qstep (E := Empty_set) p st i = (r ← attempt m; mret (Replied c (f r))) st i →
  (r ← attempt m; mret (f r)) st i = (inr a : Empty_set + QAnswer, st', i') → leads p st i (Replied c a) st' i'.
Proof.
  intros Hp HX. eapply leads_step; [|apply leads_refl]. etransitivity; [exact Hp|]. unfold attempt, mbind, M_bind in *.
  destruct (m st i) as [[r st1] i1]. by injection HX as <- <- <-.
Qed.

Lemma answers_in_parts {A} p (c : QCall) (m : M QueueStore anyhow A) (f : anyhow + A → QAnswer) st i a st' i' :
  does p m (λ r, Replied c (f r)) st i →
  (r ← attempt m; mret (f r)) st i = (inr a : Empty_set + QAnswer, st', i') → leads p st i (Replied c a) st' i'.
Proof.
  intros Hp HX. unfold attempt, mbind, M_bind in *.
  destruct (m st i) as [[r st1] i1] eqn:Hm. injection HX as <- <- <-. by apply Hp.
Qed.

(** A call that nothing interrupts answers what the method returns, and leaves the
    store and the script as the method does. *)
Lemma alone_queue_call (c : QCall) st i a st' i' :
  queue_method c st i = (inr a, st', i') → leads (entry_point c) st i (Replied c a) st' i'.
Proof.
  destruct c as [mb env|mb|mb|mb [|id ids]|mb|]; simpl; intros HX.
  - eapply answers_in_parts; [apply does_enqueue|done].
  - by eapply answers_now.
  - by eapply answers_now.
  - injection HX as <- <- <-. apply leads_refl.
  - eapply answers_in_parts; [|exact HX]. eapply does_same; [apply ack_whole|]. apply does_cut.
  - eapply answers_in_parts; [|exact HX]. eapply does_same; [apply purge_whole|]. apply does_cut.
  - eapply answers_in_parts; [|exact HX]. eapply does_same; [apply sweep_whole|].
    intros r s j Hr. eapply leads_step; [reflexivity|]. by eapply does_cut.
Qed.

(** ** Calls end *)

(** A removal that has not read what it removes: the corrections of the index are
    not known yet. *)
Definition unread p : Z := match p with Dating | Preparing _ | Cutting _ => 1 | _ => 0 end.

(** How many operations are ahead at most. *)
Definition to_go p : Z :=
  match p with
  | Numbering _ _ => 10
  | Weighing _ => 9
  | Choosing _ => 8
  | Approaching _ _ => 7
  | Inserting _ _ => 6
  | Sealing _ _ _ => 5
  | Charging _ _ | Dating => 4
  | Crediting _ _ | Preparing _ => 3
  | Indexing _ _ | Rejecting _ | Flushing _ | Peeking _ | Cutting _ | Reverting _ => 2
  | Confirming _ o => 4 + Z.of_nat (length (cut_index o))
  | Refunding _ _ _ rest => 3 + Z.of_nat (length rest)
  | Correcting _ _ rest => 2 + Z.of_nat (length rest)
  | Replied _ _ => 1
  end.

Lemma unread_nonneg p : 0 ≤ unread p.
Proof. destruct p; simpl; lia. Qed.

Lemma to_go_nonneg p : 0 ≤ to_go p.
Proof. destruct p; simpl; lia. Qed.

Definition nearer p p' : Prop := unread p' < unread p ∨ unread p' = unread p ∧ to_go p' < to_go p.

Lemma nearer_correct p c n rest : unread p = 0 → 2 + Z.of_nat (length rest) < to_go p → nearer p (correct_on c n rest).
Proof. intros Hu Hg. right. destruct rest; simpl in *; lia. Qed.

Lemma step_nearer p st i p' st' i' :
  qstep (E := Empty_set) p st i = (inr p', st', i') → (∀ call a, p ≠ Replied call a) → nearer p p'.
Proof.
  intros Hs Hnr.
  enough (wp (qstep (E := Empty_set) p) (λ r _ _, match r with inr p' => nearer p p' | inl _ => True end) st i) as H.
  { unfold wp in H. by rewrite Hs in H. }
  clear Hs. destruct p as [mb env|x|x|x room|x room|x|x room table|x room|x room|x room|mb|mb| |c|c|c|c o|c n f rest|c n [|y rest]|c a];
    simpl; unfold number, weigh_in, choose, seal, confirm, index_in;
    repeat first [wp_step | apply wp_now_ms | case_match | apply wp_arbitrary; intros [?|?] ? ?];
    first [by destruct (Hnr c a) | by apply nearer_correct; simpl; lia | by left; simpl; lia | by right; simpl; lia].
Qed.

#[global] Program Instance queue_calls_fall : Falling QueueStore QPoint QCall := {
  first_measure := unread;
  second_measure := to_go;
  first_nonneg := unread_nonneg;
  second_nonneg := to_go_nonneg;
}.
Next Obligation. by intros []. Qed.
Next Obligation.
  intros p st p' st' i i' Hs Ho. apply (step_nearer _ _ _ _ _ _ Hs). by intros call a ->.
Qed.
Next Obligation. by intros []. Qed.
End Alone.
