(* ===== verification/QueueThreadsFacts.v ===== *)
(** What holds of the queue store between any two operations of its calls, and what
    stands behind a reply.

    A sequence number is handed out before its message is on disk: it is on its way
    with its call ([pending]), and no two messages, on disk or on their way, have the
    same ([Sound]).  A message leaves the disk at a commit, for one of four reasons
    ([reason]). *)
From Stdlib Require Import ZArith Lia Ascii String.
From stdpp Require Import base gmap strings list sorting.
From S2P Require Import Prelude Redb RustStd Config Util Protocol QueueStore QueueFacts QueueRuns QueueRemovals Calls.
From S2P Require Import QueueThreads.

Section Facts.
Context {RD : Redb} {UL : UuidLib} {SV : Serde StoredValue}.
Implicit Types (st : QueueStore) (p : QPoint) (x : Parcel) (c : Cut) (w : Queues) (mb : string) (tr : list QueueMoment).

(** ** The invariant *)

Record Kept st : Prop := {
  kp_decodes : ∀ k v, tbl_get (db st) k = Some v → is_Some (from_slice v : option StoredValue);
  kp_wf : wf_entries (entries st);
  kp_seq : ∀ k v, entries st !! k = Some v → 0 ≤ sv_s v < next_seq st;
  kp_next : 0 ≤ next_seq st ≤ u64_max;
}.

(** The message that a call is bringing to the disk. *)
Definition pending p : option Parcel :=
  match p with
  | Weighing x | Choosing x | Approaching x _ | Inserting x _ | Sealing x _ _ => Some x
  | _ => None
  end.

Definition key_of x : string := key_for (at_mailbox x) (env_id (envelope x)).

Definition number_of x : Z := sv_s (value x).

(** Its number is its own. *)
Definition numbered_apart st x : Prop :=
  0 ≤ number_of x < next_seq st ∧ ∀ k v, entries st !! k = Some v → sv_s v ≠ number_of x.

(** The messages that a removal is for. *)
Definition due c (k : string) (v : StoredValue) : Prop :=
  match c with
  | Acked mb ids => ∃ id, id ∈ ids ∧ k = key_for mb id
  | Purged mb => owner k = Some mb
  | Expired cutoff => sv_q v < cutoff
  end.

Definition cuts st c (o : CutOut) : Prop :=
  ∃ ks, cut_table o = foldl tbl_remove (db st) ks ∧ ∀ k v, entries st !! k = Some v → k ∈ ks ↔ due c k v.

Definition carries x : Prop :=
  no_char ":" (at_mailbox x) ∧ slen (ciphertext (envelope x)) ≤ PER_MAILBOX_QUEUE_BYTES
  ∧ sv_t (value x) = envelope_type (envelope x) ∧ sv_c (value x) = ciphertext (envelope x).

Definition cut_ok c : Prop := match c with Acked mb _ | Purged mb => no_char ":" mb | Expired _ => True end.

Definition inserts st x (room : Room) (table : Table) : Prop :=
  table = tbl_insert (foldl tbl_remove (db st) (key_for (at_mailbox x) <$> evict_ids room)) (key_of x) (to_vec (value x)).

Definition point_ok st p : Prop :=
  match p with
  | Numbering mb env => no_char ":" mb ∧ slen (ciphertext env) ≤ PER_MAILBOX_QUEUE_BYTES
  | Weighing x | Choosing x | Approaching x _ | Inserting x _ | Charging x _ | Crediting x _ | Indexing x _ => carries x
  | Sealing x room table => carries x ∧ inserts st x room table
  | Flushing mb | Peeking mb => no_char ":" mb
  | Preparing c | Cutting c => cut_ok c
  | Confirming c o => cut_ok c ∧ cuts st c o
  | _ => True
  end.

Record Sound w : Prop := {
  so_kept : Kept (shared w);
  so_points : ∀ who p, under_way w !! who = Some p → point_ok (shared w) p;
  so_apart : ∀ who p x, under_way w !! who = Some p → pending p = Some x → numbered_apart (shared w) x;
  so_numbers : ∀ who who' p p' x x', under_way w !! who = Some p → under_way w !! who' = Some p' →
    pending p = Some x → pending p' = Some x' → number_of x = number_of x' → who = who';
  so_lock : ∀ who who' p p', under_way w !! who = Some p → under_way w !! who' = Some p' →
    writes p = true → writes p' = true → who = who';
}.

(** ** One operation *)

(** The operations that change the table. *)
Definition seals p : bool := match p with Sealing _ _ _ | Confirming _ _ => true | _ => false end.

(** What an operation that takes a call from [p] to [p'] does to the store. *)
Record goes st p st' p' : Prop := {
  go_kept : Kept st';
  go_ok : point_ok st' p';
  go_next : next_seq st ≤ next_seq st';
  go_pending : ∀ x, pending p' = Some x → numbered_apart st' x ∧
    (pending p = Some x ∨ number_of x = next_seq st ∧ next_seq st' = next_seq st + 1);
  go_table : seals p = false → db st' = db st;
  go_new : ∀ k v, entries st' !! k = Some v → entries st !! k = Some v ∨ ∃ x, pending p = Some x ∧ v = value x;
  go_lock : writes p' = true → writes p = true ∨ awaits p = true;
}.

Lemma Kept_same_table st st' :
  Kept st → db st' = db st → next_seq st ≤ next_seq st' ≤ u64_max → Kept st'.
Proof.
  intros [H1 H2 H3 H4] Hdb Hn. assert (entries st' = entries st) as He by (unfold entries; by rewrite Hdb).
  split; rewrite ?He, ?Hdb; try done; [|lia]. intros k v Hk%H3. lia.
Qed.

Lemma apart_same st st' x :
  numbered_apart st x → db st' = db st → next_seq st ≤ next_seq st' → numbered_apart st' x.
Proof.
  intros [H1 H2] Hdb Hn. assert (entries st' = entries st) as He by (unfold entries; by rewrite Hdb).
  split; [lia|]. by rewrite He.
Qed.

(** An operation that leaves the table and the counter alone. *)
Lemma goes_same st p st' p' :
  Kept st → db st' = db st → next_seq st' = next_seq st → point_ok st' p' →
  (∀ x, pending p = Some x → numbered_apart st x) → (pending p' = None ∨ pending p' = pending p) →
  (writes p' = true → writes p = true ∨ awaits p = true) → goes st p st' p'.
Proof.
  intros HK Hdb Hn Hok Hx Hp Hl. pose proof (kp_next _ HK).
  assert (entries st' = entries st) as He by (unfold entries; by rewrite Hdb).
  split; try done; try lia.
  - eapply Kept_same_table; [done..|]. lia.
  - intros x Hpx. destruct Hp as [Hp|Hp]; [congruence|]. rewrite Hp in Hpx. split; [|by left].
    eapply apart_same; [by apply Hx|done|lia].
  - rewrite He. by left.
Qed.

(** ** The transactions *)

Lemma insertion_wp st x room i :
  wp (insertion x room) (λ r st' _, st' = st ∧ match r with inr table => inserts st x room table | inl _ => True end) st i.
Proof.
  unfold insertion. assert (io_step i i) as Hi by done. set (i0 := i) in Hi at 1.
  wp_txn ltac:(by auto). apply (wp_remove_all i0); [done| |by auto]. clear Hi. intros i' Hi. cbn beta iota.
  wp_txn ltac:(by auto). done.
Qed.

Definition cut_post st c (r : anyhow + CutOut) st' : Prop :=
  st' = st ∧ match r with inr o => cuts st c o | inl _ => True end.

Lemma ack_out_wp st mb ids i :
  no_char ":" mb → wp (ack_out mb ids) (λ r st' _, cut_post st (Acked mb ids) r st') st i.
Proof.
  intros Hmb. unfold ack_out. assert (io_step i i) as Hi by done. set (i0 := i) in Hi at 1. wp_txn ltac:(by split).
  apply (wp_foldM _ (λ done '(table, freed, removed) s i',
    table = foldl tbl_remove (db st) (key_for mb <$> done) ∧ s = st ∧ io_step i0 i')).
  - by split_and!.
  - clear Hi. intros done id rest [[table freed] n] s i' _ (-> & -> & Hi). wp_txn ltac:(by split).
    by rewrite fmap_app, foldl_app.
  - clear Hi. intros [[table freed] n] s i' (-> & -> & Hi). wp_steps. split; [done|].
    exists (key_for mb <$> ids). split; [done|]. intros k v _. simpl. rewrite list_elem_of_fmap.
    split; intros (id & ? & ?); eauto.
Qed.

Lemma purge_out_wp st mb i :
  no_char ":" mb → wp (purge_out mb) (λ r st' _, cut_post st (Purged mb) r st') st i.
Proof.
  intros Hmb. unfold purge_out. simpl. assert (io_step i i) as Hi by done. set (i0 := i) in Hi at 1. wp_txn ltac:(by split).
  apply (wp_foldM _ (λ done '(freed, keys) s i', keys = done.*1 ∧ s = st ∧ io_step i0 i')).
  - by split_and!.
  - clear Hi. intros done [k b] rest [freed keys] s i' _ (-> & -> & Hi). wp_txn ltac:(by split).
    by rewrite fmap_app.
  - clear Hi. intros [freed keys] s i' (-> & -> & Hi). cbn beta iota. wp_step.
    apply (wp_remove_all i0); [done| |by split]. clear Hi i'. intros i' Hi. cbn beta iota. wp_steps. split; [done|].
    eexists. split; [done|]. intros k v (b & Hb & Hv)%entry_bytes. simpl.
    rewrite list_elem_of_fmap. split.
    + intros ([k' b'] & -> & Hin). by apply (elem_range st mb) in Hin as [_ ?].
    + intros Ho. exists (k, b). split; [done|]. by apply (elem_range st mb).
Qed.

Lemma sweep_out_wp st cutoff i :
  Kept st → wp (sweep_out cutoff) (λ r st' _, cut_post st (Expired cutoff) r st') st i.
Proof.
  intros HK. unfold sweep_out. assert (io_step i i) as Hi by done. set (i0 := i) in Hi at 1. wp_txn ltac:(by split).
  apply (wp_foldM _ (λ done '(freed, keys, pm) s i', keys = picked (is_expired cutoff) done ∧ s = st ∧ io_step i0 i')).
  - by split_and!.
  - clear Hi. intros done [k b] rest [[freed keys] pm] s i' Hl (-> & -> & Hi). wp_txn ltac:(by split).
    rewrite picked_app. destruct (kp_decodes _ HK k b) as [v Hv].
    { apply tbl_iter_get. rewrite Hl. apply elem_of_app. right. left. }
    rewrite (picked_one _ k b v), Hv by done. change (is_expired cutoff v) with (sv_q v <? cutoff).
    destruct (sv_q v <? cutoff); wp_steps; by rewrite ?app_nil_r.
  - clear Hi. intros [[freed keys] pm] s i' (-> & -> & Hi). cbn beta iota. wp_step.
    apply (wp_remove_all i0); [done| |by split]. clear Hi i'. intros i' Hi. cbn beta iota. wp_steps. split; [done|].
    eexists. split; [done|]. intros k v Hk. simpl. fold (expired_keys cutoff st). rewrite elem_expired.
    split; [intros (v' & ? & ?); by simplify_eq|eauto].
Qed.

Lemma cut_out_wp st c i :
  Kept st → cut_ok c → wp (cut_out c) (λ r st' _, cut_post st c r st') st i.
Proof. destruct c; simpl; intros; [by apply ack_out_wp|by apply purge_out_wp|by apply sweep_out_wp]. Qed.

(** ** Every operation *)

(** A mailbox holds fewer messages than numbers were handed out. *)
Lemma queue_length st mb :
  Kept st → no_char ":" mb → Z.of_nat (length (queue_of mb (entries st))) ≤ next_seq st.
Proof.
  intros HK Hmb. pose proof (kp_next _ HK) as Hn. pose proof (queue_increasing _ mb (kp_wf _ HK) Hmb) as Hinc.
  set (q := queue_of mb (entries st)) in *.
  assert (NoDup ((λ e, sv_s e.2) <$> q)) as Hnd.
  { revert Hinc. unfold increasing. clear. induction 1 as [|e l Hl IH He]; simpl; constructor; [|done].
    intros (e' & E & Hin)%list_elem_of_fmap. rewrite Forall_forall in He. specialize (He _ Hin). lia. }
  assert (length ((λ e, sv_s e.2) <$> q) ≤ length (seqZ 0 (next_seq st)))%nat as Hlen.
  { apply submseteq_length, NoDup_submseteq; [done|]. intros s ([id v] & -> & Hin)%list_elem_of_fmap.
    apply elem_of_seqZ. apply elem_queue in Hin; [|apply HK|done]. apply (kp_seq _ HK) in Hin. simpl. lia. }
  rewrite length_fmap, length_seqZ in Hlen. lia.
Qed.

(** What is evicted is the front of the queue, as far as it must go. *)
Definition makes_room st x (room : Room) : Prop :=
  evict_ids room = (evicted (inc x) (queue_of (at_mailbox x) (entries st))).*1.

Lemma choose_wp st x i :
  Kept st → carries x → queue_step_pre st →
  wp (choose (E := Empty_set) x) (λ r st' _, st' = st ∧ match r with
    | inr p' => p' = queued x (inl Failed) ∨ ∃ room, p' = Approaching x room ∧ makes_room st x room
    | inl _ => True end) st i.
Proof.
  intros HK (Hmb & Hlen & _) [Hs Ht]. unfold choose. do 2 wp_step.
  apply (read_mailbox_wp i); [apply HK|done|done| |]; [|intros; wp_steps; by auto].
  intros i' _. wp_step. set (q := queue_of (at_mailbox x) (entries st)).
  pose proof (queue_length st _ HK Hmb) as Hl. pose proof (kp_next _ HK) as Hn. fold q in Hl.
  pose proof (bytes_le_total (at_mailbox x) (entries st)) as Hb. rewrite bytes_queue in Hb by (first [apply HK|done]). fold q in Hb.
  pose proof (slen_nonneg (ciphertext (envelope x))) as Hi. fold (inc x) in *.
  unfold PER_MAILBOX_QUEUE_BYTES, u64_max in *.
  rewrite wrap64_small by (unfold is_u64, u64_max; lia).
  rewrite evict_loop_spec by (unfold u64_max; lia). simpl. wp_steps. split; [done|]. right. by eexists.
Qed.

Lemma number_wp st mb env i :
  Kept st → queue_step_pre st →
  wp (number (E := Empty_set) mb env) (λ r st' _, st' = set_next_seq (next_seq st + 1) st ∧ match r with
    | inr p' => ∃ x, at_mailbox x = mb ∧ envelope x = env ∧ sv_t (value x) = envelope_type env
        ∧ sv_c (value x) = ciphertext env ∧ number_of x = next_seq st
        ∧ (p' = Weighing x ∨ p' = queued x (inl Failed))
    | inl _ => True end) st i.
Proof.
  intros HK [Hs Ht]. pose proof (kp_next _ HK). unfold number. wp_step. apply wp_now_ms. cbn beta iota.
  do 4 wp_step. rewrite (wrap64_small (next_seq st + 1)) by (unfold is_u64; lia). do 2 wp_step.
  apply wp_io_call; intros; wp_steps; (split; [done|]; eexists; split_and!; [| | | | |by auto]; done).
Qed.

Definition steps_well st p i : Prop :=
  wp (qstep (E := Empty_set) p) (λ r st' _, match r with inr p' => goes st p st' p' | inl _ => True end) st i.

Lemma number_well st mb env i :
  Kept st → point_ok st (Numbering mb env) → queue_step_pre st → steps_well st (Numbering mb env) i.
Proof.
  intros HK [Hmb Hlen] Hpre. eapply wp_conseq; [by apply number_wp|]. pose proof (kp_next _ HK). destruct Hpre as [Hs _].
  intros [e|p'] st' i' [-> Hp]; [done|]. destruct Hp as (x & <- & <- & Ht & Hc & Hn & Hp).
  assert (Kept (set_next_seq (next_seq st + 1) st)) as HK' by (eapply Kept_same_table; simpl; [done|done|lia]).
  assert (numbered_apart (set_next_seq (next_seq st + 1) st) x) as Hx.
  { split; simpl; [lia|]. intros k v Hk%(kp_seq _ HK). lia. }
  split; simpl; try done; [|lia| | |].
  - by destruct Hp as [-> | ->].
  - intros x' Hx'. destruct Hp as [-> | ->]; simplify_eq/=. auto.
  - by left.
  - by destruct Hp as [-> | ->].
Qed.

Lemma entries_sealed st x room table :
  inserts st x room table →
  decoded table = <[key_of x := value x]> (remove_keys (key_for (at_mailbox x) <$> evict_ids room) (entries st)).
Proof. intros ->. by rewrite decoded_insert, decoded_remove_all. Qed.

Lemma seal_well st x room table i :
  Kept st → point_ok st (Sealing x room table) → numbered_apart st x → steps_well st (Sealing x room table) i.
Proof.
  intros HK [Hx Ht] Happ. pose proof Happ as [Hn Hd]. unfold steps_well. simpl. unfold seal, commit. do 2 wp_step. apply wp_io_call.
  2:{ intros _ j _. wp_steps. apply goes_same; try done; [by intros ? [= <-]|by left]. }
  intros j _. wp_steps. set (st' := set_db table st).
  assert (entries st' = <[key_of x := value x]> (remove_keys (key_for (at_mailbox x) <$> evict_ids room) (entries st))) as He
    by by apply entries_sealed.
  split; simpl; try done; try lia.
  - split; simpl; rewrite ?He; [| | |apply HK].
    + intros k v. rewrite Ht, tbl_get_insert, get_remove_all. case_decide.
      { intros [= <-]. rewrite from_slice_to_vec. eauto. }
      case_decide; [done|]. apply (kp_decodes _ HK).
    + apply wf_insert; [apply wf_remove_keys, HK|apply Hx|]. intros k v [Hk _]%remove_keys_Some. by apply Hd in Hk.
    + intros k v [[_ <-]|[_ [Hk _]%remove_keys_Some]]%lookup_insert_Some; [done|]. by apply (kp_seq _ HK) in Hk.
  - rewrite He. intros k v [[_ <-]|[_ [Hk _]%remove_keys_Some]]%lookup_insert_Some; [right; eauto|by left].
Qed.

Lemma confirm_well st c o i : Kept st → point_ok st (Confirming c o) → steps_well st (Confirming c o) i.
Proof.
  intros HK [Hc (ks & Ht & Hks)]. unfold steps_well. simpl. unfold confirm, commit. do 2 wp_step. apply wp_io_call.
  2:{ intros _ j _. wp_steps. by apply goes_same; auto. }
  intros j _. wp_steps. set (st' := set_db (cut_table o) st).
  assert (entries st' = remove_keys ks (entries st)) as He.
  { unfold entries, st'. simpl. by rewrite Ht, decoded_remove_all. }
  split; simpl; try done; try lia.
  - split; simpl; rewrite ?He; [| | |apply HK].
    + intros k v. rewrite Ht, get_remove_all. case_decide; [done|]. apply (kp_decodes _ HK).
    + apply wf_remove_keys, HK.
    + intros k v [Hk _]%remove_keys_Some. by apply (kp_seq _ HK) in Hk.
  - rewrite He. intros k v [Hk _]%remove_keys_Some. by left.
Qed.

Lemma removed_ok st c r : point_ok st (removed c r) ∧ pending (removed c r) = None ∧ writes (removed c r) = false.
Proof. done. Qed.

Lemma correct_on_ok st c n rest :
  point_ok st (correct_on c n rest) ∧ pending (correct_on c n rest) = None ∧ writes (correct_on c n rest) = false.
Proof. by destruct rest. Qed.

Lemma qstep_well st p i :
  Kept st → point_ok st p → (∀ x, pending p = Some x → numbered_apart st x) → queue_step_pre st → steps_well st p i.
Proof.
  intros HK Hok Hx Hpre. destruct p as [mb env|x|x|x room|x room|x|x room table|x room|x room|x room|mb|mb| |c|c|c|c o|c n f rest|c n rest|c a].
  - by apply number_well.
  - unfold steps_well. simpl. unfold weigh_in. do 2 wp_step. destruct (index_entry _ _) as [n b].
    wp_step. destruct (_ || _); by apply goes_same; auto.
  - eapply wp_conseq; [by apply choose_wp|]. intros [e|p'] st' i' [-> H]; [done|].
    destruct H as [->|(room & -> & _)]; by apply goes_same; auto.
  - unfold steps_well. simpl. unfold begin_txn. do 2 wp_step. apply wp_io_call; intros; wp_steps; by apply goes_same; auto.
  - unfold steps_well. simpl. do 2 wp_step. eapply wp_conseq; [apply insertion_wp|].
    intros [e|table] st' i' [-> H]; wp_steps; apply goes_same; by auto.
  - unfold steps_well. simpl. wp_steps. apply goes_same; by auto.
  - by apply seal_well; auto.
  - unfold steps_well. simpl. wp_steps. by apply goes_same; auto.
  - unfold steps_well. simpl. wp_steps. by apply goes_same; auto.
  - unfold steps_well. simpl. unfold index_in. wp_steps. by apply goes_same; auto.
  - unfold steps_well. simpl. do 2 wp_step. apply (flush_wp i); [apply HK|done|done|..]; intros; wp_steps; by apply goes_same; auto.
  - unfold steps_well. simpl. do 2 wp_step. unfold is_empty. simpl. assert (io_step i i) as Hi by done. set (i0 := i) in Hi at 1.
    unfold begin_txn, open_table, txn_range. repeat first [wp_step | wp_io ltac:(wp_steps; by apply goes_same; auto)].
    by apply goes_same; auto.
  - unfold steps_well. simpl. wp_step. apply wp_now_ms. wp_steps. by apply goes_same; auto.
  - unfold steps_well. simpl. unfold begin_txn. do 2 wp_step. apply wp_io_call; intros; wp_steps; by apply goes_same; auto.
  - unfold steps_well. simpl. do 2 wp_step. eapply wp_conseq; [by apply cut_out_wp|].
    intros [e|o] st' i' [-> H]; wp_steps; apply goes_same; by auto.
  - unfold steps_well. simpl. wp_steps. by apply goes_same; auto.
  - by apply confirm_well.
  - unfold steps_well. simpl. wp_steps. destruct (correct_on_ok (set_total (atomic_sub_saturating (total_bytes st) f) st) c n rest) as (? & ? & ?).
    apply goes_same; auto; congruence.
  - unfold steps_well. destruct rest as [|y rest]; simpl; wp_steps; [by apply goes_same; auto|].
    destruct (correct_on_ok (set_index (corrected y (index st)) st) c n rest) as (? & ? & ?). apply goes_same; auto; congruence.
  - unfold steps_well. simpl. wp_steps. by apply goes_same; auto.
Qed.

(** ** Every move *)

Lemma seals_writes p : writes p = false → seals p = false.
Proof. by destruct p. Qed.

Lemma qpoint_ok_other st st' q : point_ok st q → (writes q = true → db st' = db st) → point_ok st' q.
Proof.
  intros Hq Hdb. destruct q; simpl in *; try done.
  - unfold inserts in *. by rewrite Hdb.
  - destruct Hq as [? (ks & Hks)]. split; [done|]. exists ks. unfold entries in *. by rewrite Hdb.
Qed.

Lemma Sound_qgoes w who p st' p' :
  Sound w → under_way w !! who = Some p → (awaits p = true → unlocked w) → goes (shared w) p st' p' →
  Sound {| shared := st'; under_way := <[who := p']> (under_way w) |}.
Proof.
  intros [HK HP HA HN HL] Hp Hwait [HK' Hok Hnext Hpend Htab Hnew Hlock].
  assert (∀ who' q x, who' ≠ who → under_way w !! who' = Some q → pending q = Some x → numbered_apart st' x) as Hother.
  { intros who' q x Hne Hq Hx. destruct (HA _ _ _ Hq Hx) as [Hr Hd]. split; [lia|]. intros k v Hk E.
    destruct (Hnew _ _ Hk) as [Hk'|(y & Hy & ->)]; [by apply Hd in Hk'|]. destruct Hne. by eapply HN. }
  assert (∀ who' q x x', who' ≠ who → under_way w !! who' = Some q → pending q = Some x → pending p' = Some x' →
    number_of x ≠ number_of x') as Hnum.
  { intros who' q x x' Hne Hq Hx Hx' E. destruct (Hpend _ Hx') as [_ [Hpx|[Hpx _]]].
    - destruct Hne. by eapply HN.
    - destruct (HA _ _ _ Hq Hx) as [Hr _]. lia. }
  assert (∀ who' q, who' ≠ who → under_way w !! who' = Some q → writes q = true → writes p' = true → False) as Hex.
  { intros who' q Hne Hq Hwq Hw. destruct (Hlock Hw) as [Hwp|Hap].
    - apply Hne. by eapply HL.
    - pose proof (Hwait Hap who' q Hq) as Hx. simpl in Hx. congruence. }
  split; simpl; [done| | | |].
  - intros who' q [[<- <-]|[Hne Hq]]%lookup_insert_Some; [done|]. eapply qpoint_ok_other; [by eapply HP|].
    intros Hwq. apply Htab, seals_writes. destruct (writes p) eqn:Hwp; [|done]. destruct Hne. by eapply HL.
  - intros who' q x [[<- <-]|[Hne Hq]]%lookup_insert_Some Hx; [by apply Hpend|by eapply Hother].
  - intros who1 who2 p1 p2 x1 x2 [[<- <-]|[Hn1 H1]]%lookup_insert_Some [[<- <-]|[Hn2 H2]]%lookup_insert_Some Hx1 Hx2 E; try done.
    + by destruct (Hnum who2 p2 x2 x1).
    + by destruct (Hnum who1 p1 x1 x2).
    + by eapply HN.
  - intros who1 who2 p1 p2 [[<- <-]|[Hn1 H1]]%lookup_insert_Some [[<- <-]|[Hn2 H2]]%lookup_insert_Some Hh1 Hh2; try done.
    + by destruct (Hex who2 p2).
    + by destruct (Hex who1 p1).
    + by eapply HL.
Qed.

(** An operation of a call, as the machine runs it. *)
Lemma step_goes w who p i p' st' i' :
  Sound w → under_way w !! who = Some p → queue_step_pre (shared w) →
  qstep (E := Empty_set) p (shared w) i = (inr p', st', i') → goes (shared w) p st' p'.
Proof.
  intros HS Hp Hpre Hs.
  pose proof (qstep_well (shared w) p i (so_kept _ HS) (so_points _ HS _ _ Hp) (λ x, so_apart _ HS _ _ x Hp) Hpre) as H.
  unfold steps_well, wp in H. by rewrite Hs in H.
Qed.

Lemma entry_ok st call :
  queue_call_pre call →
  point_ok st (queue_entry call) ∧ pending (queue_entry call) = None ∧ writes (queue_entry call) = false.
Proof. by destruct call as [| | |? []| |]. Qed.

Lemma Sound_qmoved w (m : Move QCall) i w' i' :
  Sound w → ready w m → move_pre w m i → run_move m w i = (inr tt, w', i') → Sound w'.
Proof.
  intros HS Hr Hpre Hrun. destruct m as [who call|who]; simpl in *.
  - injection Hrun as <- <-. destruct HS as [HK HP HA HN HL]. destruct (entry_ok (shared w) call Hpre) as (Hok & Hnp & Hnw).
    split; simpl; [done| | | |].
    + intros who' p [[<- <-]|[_ Hp]]%lookup_insert_Some; [done|by eapply HP].
    + intros who' p x [[<- <-]|[_ Hp]]%lookup_insert_Some Hx; [congruence|by eapply HA].
    + intros who1 who2 p1 p2 x1 x2 [[<- <-]|[_ H1]]%lookup_insert_Some [[<- <-]|[_ H2]]%lookup_insert_Some Hx1 Hx2; try congruence.
      by eapply HN.
    + intros who1 who2 p1 p2 [[<- <-]|[_ H1]]%lookup_insert_Some [[<- <-]|[_ H2]]%lookup_insert_Some Hx1 Hx2; try congruence.
      by eapply HL.
  - destruct (under_way w !! who) as [p|] eqn:Hp; [|done].
    destruct (go_on_seen _ _ _ _ _ _ _ Hp Hrun) as [[_ ->]|(_ & p' & st' & Hs & ->)].
    + destruct HS as [HK HP HA HN HL]. split; simpl; [done| | | |].
      * intros who' q [_ Hq]%lookup_delete_Some. by eapply HP.
      * intros who' q x [_ Hq]%lookup_delete_Some. by eapply HA.
      * intros who1 who2 p1 p2 x1 x2 [_ H1]%lookup_delete_Some [_ H2]%lookup_delete_Some. by eapply HN.
      * intros who1 who2 p1 p2 [_ H1]%lookup_delete_Some [_ H2]%lookup_delete_Some. by eapply HL.
    + eapply Sound_qgoes; [done..|]. by eapply step_goes.
Qed.

Lemma Kept_Inv st : Inv st → Kept st.
Proof. intros HI. split; apply HI. Qed.

Lemma Sound_qidle st : Kept st → Sound (idle_queues st).
Proof. intros HK. by split. Qed.

Lemma Sound_qlater w tr w' : Sound w → history w tr w' → Sound w'.
Proof. apply history_keeps. intros. by eapply Sound_qmoved. Qed.

Lemma next_grows w tr w' : Sound w → history w tr w' → next_seq (shared w) ≤ next_seq (shared w').
Proof.
  intros HS. induction 1 as [|tr w1 m i w' i' Hh IH Hr Hpre Hrun]; [done|]. etrans; [done|].
  pose proof (Sound_qlater _ _ _ HS Hh) as HS1. destruct m as [who call|who]; simpl in *; [by injection Hrun as <- <-|].
  destruct (under_way w1 !! who) as [p|] eqn:Hp; [|done].
  destruct (go_on_seen _ _ _ _ _ _ _ Hp Hrun) as [[_ ->]|(_ & p' & st' & Hs & ->)]; [done|].
  apply (go_next _ _ _ _ (step_goes _ _ _ _ _ _ _ HS1 Hp Hpre Hs)).
Qed.
End Facts.
