(* ===== verification/QueueThreadsWhy.v ===== *)
(** What stands behind the replies of the queue store, and why a message has left
    the disk. *)
From Stdlib Require Import ZArith Lia Ascii String.
From stdpp Require Import base gmap strings list sorting.
From S2P Require Import Prelude Redb RustStd Config Util Protocol QueueStore QueueFacts QueueRuns Calls QueueThreads.
From S2P Require Import QueueThreadsFacts.

Section Why.
Context {RD : Redb} {UL : UuidLib} {SV : Serde StoredValue}.
Implicit Types (st : QueueStore) (p : QPoint) (x : Parcel) (c : Cut) (w : Queues) (mb : string) (tr : list QueueMoment)
  (env : StoredEnvelope) (v : StoredValue).

(** ** What a call says *)

(** The call that a point is part of. *)
Definition serves p : QCall :=
  match p with
  | Numbering mb env => Enqueue mb env
  | Weighing x | Choosing x | Approaching x _ | Inserting x _ | Rejecting x | Sealing x _ _ | Charging x _ | Crediting x _
  | Indexing x _ => Enqueue (at_mailbox x) (envelope x)
  | Flushing mb => Flush mb
  | Peeking mb => IsEmpty mb
  | Dating => SweepQueues
  | Preparing c | Cutting c | Reverting c | Confirming c _ | Refunding c _ _ _ | Correcting c _ _ => call_of c
  | Replied c _ => c
  end.

(** The envelope that is in its queue. *)
Definition accepted p : option (string * StoredEnvelope) :=
  match p with
  | Charging x _ | Crediting x _ | Indexing x _ => Some (at_mailbox x, envelope x)
  | Replied (Enqueue mb env) (Counted (inr _)) => Some (mb, env)
  | _ => None
  end.

Definition room_of p : option (Parcel * Room) :=
  match p with Approaching x room | Inserting x room | Sealing x room _ => Some (x, room) | _ => None end.

Definition cut_of p : option Cut :=
  match p with Preparing c | Cutting c | Reverting c | Confirming c _ => Some c | _ => None end.

Definition flushed p : option (string * list StoredEnvelope) :=
  match p with Replied (Flush mb) (Flushed (inr l)) => Some (mb, l) | _ => None end.

(** The messages that the next operation may take off the disk. *)
Definition takes p st' (k : string) (v : StoredValue) : Prop :=
  match p with
  | Sealing x room _ => k = key_of x ∧ entries st' !! k = Some (value x) ∨ ∃ id, id ∈ evict_ids room ∧ k = key_for (at_mailbox x) id
  | Confirming c _ => due c k v
  | _ => False
  end.

Definition on_record st mb env v : Prop :=
  entries st !! key_for mb (env_id env) = Some v ∧ sv_t v = envelope_type env ∧ sv_c v = ciphertext env.

(** ** One operation *)

Record same_talk p p' : Prop := {
  tk_serves : serves p' = serves p;
  tk_accepted : accepted p' = None ∨ accepted p' = accepted p;
  tk_room : room_of p' = None ∨ room_of p' = room_of p;
  tk_cut : cut_of p' = None ∨ cut_of p' = cut_of p;
  tk_flushed : flushed p' = None ∨ flushed p' = flushed p;
}.

Record learns st p (i : io) st' p' : Prop := {
  ln_serves : serves p' = serves p;
  ln_accepted : ∀ e, accepted p' = Some e → accepted p = Some e
    ∨ ∃ x, pending p = Some x ∧ e = (at_mailbox x, envelope x) ∧ on_record st' (at_mailbox x) (envelope x) (value x);
  ln_room : ∀ x room, room_of p' = Some (x, room) →
    room_of p = Some (x, room) ∨ evict_ids room = [] ∨ makes_room st x room;
  ln_cut : ∀ c, cut_of p' = Some c → cut_of p = Some c ∨ p = Dating ∧ c = Expired (next_now i -^ QUEUE_TTL_MS);
  ln_flushed : ∀ mb l, flushed p' = Some (mb, l) →
    flushed p = Some (mb, l) ∨ l = to_envelope mb <$> queue_of mb (entries st);
  ln_lost : ∀ k v, entries st !! k = Some v → entries st' !! k = Some v ∨ takes p st' k v;
}.

Lemma qlearns_talk st p i st' p' : same_talk p p' → db st' = db st → learns st p i st' p'.
Proof.
  intros [Hs Ha Hr Hc Hf] Hdb. split; [done| | | | |].
  - intros e H. left. destruct Ha as [Ha|<-]; [by rewrite Ha in H|done].
  - intros x room H. left. destruct Hr as [Hr|<-]; [by rewrite Hr in H|done].
  - intros c H. left. destruct Hc as [Hc|<-]; [by rewrite Hc in H|done].
  - intros mb l H. left. destruct Hf as [Hf|<-]; [by rewrite Hf in H|done].
  - intros k v. unfold entries. rewrite Hdb. by left.
Qed.

Lemma talk_correct p c n rest : serves p = call_of c → same_talk p (correct_on c n rest).
Proof. intros H. destruct rest; split; simpl; auto; by destruct c; auto. Qed.

(** The operations that say nothing new. *)
Definition plain p : bool :=
  match p with
  | Numbering _ _ | Weighing _ | Choosing _ | Sealing _ _ _ | Confirming _ _ | Dating | Flushing _ => false
  | _ => true
  end.

Lemma qstep_talk st p i p' st' i' : qstep (E := Empty_set) p st i = (inr p', st', i') → plain p = true → same_talk p p'.
Proof.
  intros Hs Hp.
  enough (wp (qstep (E := Empty_set) p) (λ r _ _, match r with inr p' => same_talk p p' | inl _ => True end) st i) as H.
  { unfold wp in H. by rewrite Hs in H. }
  clear Hs. destruct p as [mb env|x|x|x room|x room|x|x room table|x room|x room|x room|mb|mb| |c|c|c|c o|c n f rest|c n [|y rest]|c a];
    try done; simpl; unfold index_in;
    repeat first [wp_step | apply wp_arbitrary; intros [?|?] ? ?];
    first [by apply talk_correct | split; simpl; auto; by destruct c; auto | split; simpl; by auto].
Qed.

Definition tells st p i : Prop :=
  wp (qstep (E := Empty_set) p) (λ r st' _, match r with inr p' => learns st p i st' p' | inl _ => True end) st i.

Ltac plainly := apply qlearns_talk; [split; simpl; by auto|done].

Lemma weigh_tells st x i : tells st (Weighing x) i.
Proof.
  unfold tells. simpl. unfold weigh_in. do 2 wp_step. destruct (index_entry _ _) as [n b]. wp_step.
  destruct (_ || _); [plainly|]. split; simpl; try done; [|by auto].
  intros x' room [= <- <-]. auto.
Qed.

Lemma choose_tells st x i : Kept st → carries x → queue_step_pre st → tells st (Choosing x) i.
Proof.
  intros HK Hx Hpre. eapply wp_conseq; [by apply choose_wp|]. intros [e|p'] st' i' [-> H]; [done|].
  destruct H as [->|(room & -> & Hroom)]; [plainly|]. split; simpl; try done; [|by auto].
  intros x' room' [= <- <-]. auto.
Qed.

Lemma number_tells st mb env i : Kept st → queue_step_pre st → tells st (Numbering mb env) i.
Proof.
  intros HK Hpre. eapply wp_conseq; [by apply number_wp|]. intros [e|p'] st' i' [-> H]; [done|].
  destruct H as (x & <- & <- & _ & _ & _ & [->| ->]); plainly.
Qed.

Lemma seal_tells st x room table i : point_ok st (Sealing x room table) → tells st (Sealing x room table) i.
Proof.
  intros [(_ & _ & Ht & Hc) Hin]. unfold tells. simpl. unfold seal, commit. do 2 wp_step. apply wp_io_call.
  2:{ intros _ j _. wp_steps. plainly. }
  intros j _. wp_steps. set (st' := set_db table st).
  assert (entries st' = <[key_of x := value x]> (remove_keys (key_for (at_mailbox x) <$> evict_ids room) (entries st))) as He
    by by apply entries_sealed.
  split; simpl; try done.
  - intros e [= <-]. right. exists x. split_and!; [done..|]. unfold on_record. rewrite He. fold (key_of x).
    by rewrite lookup_insert_eq.
  - intros k v Hk. rewrite He. destruct (decide (k = key_of x)) as [->|Hne].
    { right. left. by rewrite lookup_insert_eq. }
    rewrite lookup_insert_ne by done. destruct (decide (k ∈ key_for (at_mailbox x) <$> evict_ids room)) as [Hin'|Hin'].
    + apply list_elem_of_fmap in Hin' as (id & -> & Hid). right. right. eauto.
    + left. by apply remove_keys_Some.
Qed.

Lemma confirm_tells st c o i : point_ok st (Confirming c o) → tells st (Confirming c o) i.
Proof.
  intros [_ (ks & Ht & Hks)]. unfold tells. simpl. unfold confirm, commit. do 2 wp_step. apply wp_io_call.
  2:{ intros _ j _. wp_steps. apply qlearns_talk; [|done]. split; simpl; auto; by destruct c; auto. }
  intros j _. wp_steps. set (st' := set_db (cut_table o) st).
  assert (entries st' = remove_keys ks (entries st)) as He.
  { unfold entries, st'. simpl. by rewrite Ht, decoded_remove_all. }
  split; simpl; try done.
  intros k v Hk. rewrite He. destruct (decide (k ∈ ks)) as [Hin|Hin]; [right; by apply (Hks k v)|left].
  by apply remove_keys_Some.
Qed.

Lemma flush_tells st mb i : Kept st → no_char ":" mb → tells st (Flushing mb) i.
Proof.
  intros HK Hmb. unfold tells. simpl. do 2 wp_step. apply (flush_wp i); [apply HK|done|done| |]; intros; wp_steps; [|plainly].
  split; simpl; try done; [|by auto]. intros mb' l [= <- <-]. by right.
Qed.

Lemma date_tells st i : tells st Dating i.
Proof.
  unfold tells. simpl. wp_step. apply wp_now_ms. wp_steps. split; simpl; try done; [|by auto].
  intros c [= <-]. by right.
Qed.

Lemma qstep_learns w who p i p' st' i' :
  Sound w → under_way w !! who = Some p → queue_step_pre (shared w) →
  qstep (E := Empty_set) p (shared w) i = (inr p', st', i') → learns (shared w) p i st' p'.
Proof.
  intros HS Hp Hpre Hs. pose proof (so_kept _ HS) as HK. pose proof (so_points _ HS _ _ Hp) as Hok.
  destruct (plain p) eqn:Hpl.
  { apply qlearns_talk; [by eapply qstep_talk|]. apply (go_table _ _ _ _ (step_goes _ _ _ _ _ _ _ HS Hp Hpre Hs)). by destruct p. }
  enough (tells (shared w) p i) as H by (unfold tells, wp in H; by rewrite Hs in H).
  destruct p; try done; simpl in Hok.
  - by apply number_tells.
  - apply weigh_tells.
  - by apply choose_tells.
  - by apply seal_tells.
  - by apply flush_tells.
  - apply date_tells.
  - by apply confirm_tells.
Qed.

(** ** Histories *)

(** At some time up to now. *)
Definition sometime tr w (P : QueueStore → Prop) : Prop := P (shared w) ∨ Exists (λ mom, P (shared (at_ mom))) tr.

Lemma sometime_more tr w (m : Move QCall) i w' (P : QueueStore → Prop) :
  sometime tr w P → sometime (tr ++ [{| at_ := w; moved := m; calls := i |}]) w' P.
Proof. intros [?|?]; right; apply Exists_app; [right; by constructor|by left]. Qed.

Lemma sometime_impl tr w (P Q : QueueStore → Prop) : (∀ st, P st → Q st) → sometime tr w P → sometime tr w Q.
Proof. intros H [?|Hex]; [left; auto|right]. eapply Exists_impl; [exact Hex|]. simpl. auto. Qed.

(** A sweep that removes what is older than [cutoff] has read the clock. *)
Definition dated tr (cutoff : Z) : Prop :=
  Exists (λ mom, ∃ who, moved mom = Ran who ∧ under_way (at_ mom) !! who = Some Dating
    ∧ cutoff = next_now (calls mom) -^ QUEUE_TTL_MS) tr.

(** What is known of a call that began after [w0]. *)
Record knows w0 tr w p : Prop := {
  kn_asked : asked tr (serves p);
  kn_pending : ∀ x, pending p = Some x → next_seq (shared w0) ≤ number_of x;
  kn_accepted : ∀ mb env, accepted p = Some (mb, env) →
    ∃ v, sometime tr w (λ st, on_record st mb env v) ∧ next_seq (shared w0) ≤ sv_s v < next_seq (shared w);
  kn_room : ∀ x room, room_of p = Some (x, room) → evict_ids room = [] ∨ sometime tr w (λ st, makes_room st x room);
  kn_cut : ∀ cutoff, cut_of p = Some (Expired cutoff) → dated tr cutoff;
  kn_flushed : ∀ mb l, flushed p = Some (mb, l) →
    sometime tr w (λ st, l = to_envelope mb <$> queue_of mb (entries st));
}.

Lemma knows_more w0 tr w p (m : Move QCall) i w' :
  next_seq (shared w) ≤ next_seq (shared w') → knows w0 tr w p → knows w0 (tr ++ [{| at_ := w; moved := m; calls := i |}]) w' p.
Proof.
  intros Hn [H1 H2 H3 H4 H5 H6]. split; [by apply asked_more|done| | | |].
  - intros mb env (v & Hv & ?)%H3. exists v. split; [by apply sometime_more|lia].
  - intros x room [?|?]%H4; [by left|right; by apply sometime_more].
  - intros cutoff Hc%H5. apply Exists_app. by left.
  - intros mb l Hl%H6. by apply sometime_more.
Qed.

Lemma knows_entry w0 tr w who call i w' :
  knows w0 (tr ++ [{| at_ := w; moved := Called who call; calls := i |}]) w' (queue_entry call).
Proof.
  split.
  - apply Exists_app. right. constructor. exists who. by destruct call as [| | |? []| |].
  - by destruct call as [| | |? []| |].
  - by destruct call as [| | |? []| |].
  - by destruct call as [| | |? []| |].
  - by destruct call as [| | |? []| |].
  - by destruct call as [| | |? []| |].
Qed.

Lemma knows_step w0 tr w who p i p' st' i' :
  Sound w → under_way w !! who = Some p → queue_step_pre (shared w) → next_seq (shared w0) ≤ next_seq (shared w) →
  qstep (E := Empty_set) p (shared w) i = (inr p', st', i') → knows w0 tr w p →
  let w' := {| shared := st'; under_way := <[who := p']> (under_way w) |} in
  knows w0 (tr ++ [{| at_ := w; moved := Ran who; calls := i |}]) w' p'.
Proof.
  intros HS Hp Hpre Hw0 Hs Hk w'. pose proof (step_goes _ _ _ _ _ _ _ HS Hp Hpre Hs) as Hgo.
  pose proof (qstep_learns _ _ _ _ _ _ _ HS Hp Hpre Hs) as [L1 L2 L3 L4 L5 _].
  pose proof (knows_more w0 tr w p (Ran who) i w' (go_next _ _ _ _ Hgo) Hk) as [H1 H2 H3 H4 H5 H6].
  assert (∀ P : QueueStore → Prop, P (shared w) → sometime (tr ++ [{| at_ := w; moved := Ran who; calls := i |}]) w' P) as Hnow.
  { intros P HP. right. apply Exists_app. right. by constructor. }
  split.
  - by rewrite L1.
  - intros x Hx. destruct (go_pending _ _ _ _ Hgo x Hx) as [_ [?|[-> _]]]; auto.
  - intros mb env [?|(x & Hx & [= -> ->] & Hv)]%L2; [by apply H3|]. exists (value x). split; [by left|].
    pose proof (H2 _ Hx). pose proof (so_apart _ HS _ _ _ Hp Hx) as [Hn _]. pose proof (go_next _ _ _ _ Hgo).
    unfold number_of in *. simpl. lia.
  - intros x room [?|[?|?]]%L3; [by apply H4|by left|right]. by apply Hnow.
  - intros cutoff [?|[-> [= ->]]]%L4; [by apply H5|]. apply Exists_app. right. constructor. exists who. done.
  - intros mb l [?|?]%L5; [by apply H6|]. by apply Hnow.
Qed.

(** The calls that began in a history. *)
Lemma all_known w0 tr w :
  Sound w0 → history w0 tr w →
  ∀ who p, under_way w0 !! who = None → under_way w !! who = Some p → knows w0 tr w p.
Proof.
  intros HS. induction 1 as [|tr w m i w' i' Hh IH Hr Hpre Hrun]; intros who p Hn Hp; [congruence|].
  pose proof (Sound_qlater _ _ _ HS Hh) as HSw. pose proof (next_grows _ _ _ HS Hh) as Hw0.
  destruct m as [who' call|who']; simpl in *.
  - injection Hrun as <- <-. simpl in Hp. apply lookup_insert_Some in Hp as [[<- <-]|[_ Hp]]; [apply knows_entry|].
    apply knows_more; [done|]. by eapply IH.
  - destruct (under_way w !! who') as [q|] eqn:Hq; [|done].
    destruct (go_on_seen _ _ _ _ _ _ _ Hq Hrun) as [[_ ->]|(_ & q' & st' & Hs & ->)]; simpl in Hp.
    + apply lookup_delete_Some in Hp as [_ Hp]. apply knows_more; [done|]. by eapply IH.
    + apply lookup_insert_Some in Hp as [[<- <-]|[_ Hp]].
      * eapply knows_step; [done..|]. by eapply IH.
      * apply knows_more; [|by eapply IH]. apply (go_next _ _ _ _ (step_goes _ _ _ _ _ _ _ HSw Hq Hpre Hs)).
Qed.

(** ** Why a message has left the disk *)

(** An ack named it, its mailbox was purged, a sweep found it too old, an enqueue that
    had read the mailbox made room, or another message with its id is in its place. *)
Definition reason tr w mb (id : Uuid) v : Prop :=
  (∃ ids, asked tr (Ack mb ids) ∧ id ∈ ids)
  ∨ asked tr (PurgeMailbox mb)
  ∨ (∃ cutoff, dated tr cutoff ∧ sv_q v < cutoff)
  ∨ (∃ env, asked tr (Enqueue mb env)
       ∧ sometime tr w (λ st, id ∈ (evicted (slen (ciphertext env)) (queue_of mb (entries st))).*1))
  ∨ (∃ v', sometime tr w (λ st, entries st !! key_for mb id = Some v') ∧ sv_s v' ≠ sv_s v).

Lemma asked_later tr tr' (call : QCall) : asked tr call → asked (tr ++ tr') call.
Proof. intros H. apply Exists_app. by left. Qed.

Lemma reason_more tr w (m : Move QCall) i w' mb id v :
  reason tr w mb id v → reason (tr ++ [{| at_ := w; moved := m; calls := i |}]) w' mb id v.
Proof.
  intros [(ids & ? & ?)|[?|[(cutoff & ? & ?)|[(env & ? & ?)|(v' & ? & ?)]]]].
  - left. exists ids. split; [by apply asked_later|done].
  - right. left. by apply asked_later.
  - do 2 right. left. exists cutoff. split; [|done]. apply Exists_app. by left.
  - do 3 right. left. exists env. split; [by apply asked_later|by apply sometime_more].
  - do 4 right. exists v'. split; [by apply sometime_more|done].
Qed.

Lemma key_same mb mb' id id' : no_char ":" mb → no_char ":" mb' → key_for mb id = key_for mb' id' → mb = mb' ∧ id = id'.
Proof.
  intros Hmb Hmb' E. pose proof (f_equal owner E) as Ho. rewrite !key_owner in Ho by done. simplify_eq.
  split; [done|]. by eapply key_inj.
Qed.

Lemma taken_for_a_reason w0 tr w who p i st' p' mb id v :
  Sound w → under_way w !! who = Some p → knows w0 tr w p → no_char ":" mb →
  entries (shared w) !! key_for mb id = Some v → takes p st' (key_for mb id) v →
  let w' := {| shared := st'; under_way := <[who := p']> (under_way w) |} in
  reason (tr ++ [{| at_ := w; moved := Ran who; calls := i |}]) w' mb id v.
Proof.
  intros HS Hp Hk Hmb Hv Ht w'. pose proof (so_points _ HS _ _ Hp) as Hok. destruct p; try done; simpl in Ht.
  - destruct Hok as [(Hx & _) _]. pose proof (so_apart _ HS _ _ x Hp eq_refl) as [_ Hnum].
    destruct Ht as [[_ Hin]|(id' & Hin & [-> ->]%key_same)]; [| |done..].
    + do 4 right. exists (value x). split; [by left|]. intros E. by apply (Hnum _ _ Hv).
    + apply reason_more. do 3 right. left. exists (envelope x). split; [apply (kn_asked _ _ _ _ Hk)|].
      destruct (kn_room _ _ _ _ Hk x room eq_refl) as [He|Hroom]; [by rewrite He in Hin; apply not_elem_of_nil in Hin|].
      eapply sometime_impl; [|exact Hroom]. intros st Hst. unfold makes_room in Hst. by rewrite Hst in Hin.
  - apply reason_more. pose proof (kn_asked _ _ _ _ Hk) as Hask. destruct c as [mb' ids|mb'|cutoff]; simpl in *.
    + destruct Ht as (id' & Hin & [<- <-]%key_same); [|done|apply Hok]. left. eauto.
    + rewrite key_owner in Ht by done. simplify_eq. by do 1 right; left.
    + do 2 right. left. exists cutoff. split; [by apply (kn_cut _ _ _ _ Hk)|done].
Qed.

Lemma sometime_split tr w (m : Move QCall) i w' (P : QueueStore → Prop) :
  sometime (tr ++ [{| at_ := w; moved := m; calls := i |}]) w' P → P (shared w') ∨ sometime tr w P.
Proof.
  intros [?|[?|Hl]%Exists_app]; [by left|right; by right|]. apply Exists_cons in Hl as [?|?%Exists_nil]; [|done].
  right. by left.
Qed.

(** A message that was on disk still is, or there is a reason. *)
Lemma gone_for_a_reason w0 tr w mb id v :
  Sound w0 → under_way w0 = ∅ → history w0 tr w → no_char ":" mb →
  sometime tr w (λ st, entries st !! key_for mb id = Some v) →
  entries (shared w) !! key_for mb id = Some v ∨ reason tr w mb id v.
Proof.
  intros HS H0 Hh Hmb. induction Hh as [|tr w m i w' i' Hh IH Hr Hpre Hrun]; [by intros [?|?%Exists_nil]; [left|]|].
  intros [?|[Hv|?]%IH]%sometime_split; [by left| |right; by apply reason_more].
  pose proof (Sound_qlater _ _ _ HS Hh) as HSw. destruct m as [who call|who]; simpl in *.
  { injection Hrun as <- <-. by left. }
  destruct (under_way w !! who) as [p|] eqn:Hp; [|done].
  destruct (go_on_seen _ _ _ _ _ _ _ Hp Hrun) as [[_ ->]|(_ & p' & st' & Hs & ->)]; [by left|]. simpl.
  destruct (ln_lost _ _ _ _ _ (qstep_learns _ _ _ _ _ _ _ HSw Hp Hpre Hs) _ _ Hv) as [?|Ht]; [by left|right].
  eapply taken_for_a_reason; [done..| |done|done|done]. eapply all_known; [exact HS|done| |done]. by rewrite H0.
Qed.

(** ** Order *)

(** Both on disk, the one with the lower number stands before the other. *)
Lemma queue_before st mb id1 id2 v1 v2 :
  Kept st → no_char ":" mb → entries st !! key_for mb id1 = Some v1 → entries st !! key_for mb id2 = Some v2 →
  sv_s v1 < sv_s v2 → ∃ l1 l2 l3, queue_of mb (entries st) = l1 ++ (id1, v1) :: l2 ++ (id2, v2) :: l3.
Proof.
  intros HK Hmb H1 H2 Hlt. pose proof (queue_increasing _ mb (kp_wf _ HK) Hmb) as Hinc.
  apply (elem_queue _ mb id1 v1 (kp_wf _ HK) Hmb) in H1. apply (elem_queue _ mb id2 v2 (kp_wf _ HK) Hmb) in H2.
  revert Hinc H1 H2. generalize (queue_of mb (entries st)) as q. unfold increasing.
  induction 1 as [|e l Hl IH He]; [by intros ?%not_elem_of_nil|]. rewrite Forall_forall in He.
  intros [<-|H1]%elem_of_cons [E|H2]%elem_of_cons.
  - simplify_eq. lia.
  - apply list_elem_of_split in H2 as (l2 & l3 & ->). by exists [], l2, l3.
  - subst e. specialize (He _ H1). simpl in He. lia.
  - destruct (IH H1 H2) as (l1 & l2 & l3 & ->). by exists (e :: l1), l2, l3.
Qed.
End Why.
