(* ===== verification/QueueThreadsDemo.v ===== *)
(** Histories of the queue store's calls by evaluation, and what calls do to each
    other. *)
From Stdlib Require Import ZArith Lia Ascii String.
From stdpp Require Import base gmap strings list.
From S2P Require Import Prelude Redb RustStd Config Util Protocol QueueStore QueueFacts QueueProps Calls QueueThreads.

Section Play.
Context {RD : Redb} {UL : UuidLib} {SV : Serde StoredValue}.

#[global] Instance queue_move_pre_dec (w : Queues) (m : Move QCall) (i : io) : Decision (move_pre w m i).
Proof. destruct m as [who c|who]; simpl; [destruct c; simpl|unfold queue_step_pre]; apply _. Defined.
End Play.

Section Stories.
#[local] Existing Instances gmap_redb unary_uuid demo_serde.

Definition op (who : nat) : Move QCall * io := (Ran who, calm).

(** A call from its beginning to its answer: [n] operations. *)
Definition all_of (who : nat) (c : QCall) (n : nat) : list (Move QCall * io) := (Called who c, calm) :: replicate n (op who).

Definition idle : Queues := idle_queues empty_queues.

Definition after_moves (moves : list (Move QCall * io)) : Queues := after_from idle moves.

(** Where a call of a story stands. *)
Definition stands (who : nat) (w : Queues) : QPoint := default Dating (under_way w !! who).

Lemma stands_so who w : isSome (under_way w !! who) = true → under_way w !! who = Some (stands who w).
Proof. unfold stands. by destruct (under_way w !! who). Qed.

Definition first_sent : list (Move QCall * io) := all_of 1 (Enqueue "mbx_a" demo_env) 8.

(** The second is answered while a flush is under way. *)
Definition second_sent : list (Move QCall * io) :=
  (Called 3 (Flush "mbx_a"), calm) :: all_of 2 (Enqueue "mbx_a" demo_env2) 8 ++ [op 3].

Definition first_acked : list (Move QCall * io) := all_of 4 (Ack "mbx_a" [1%nat]) 5.

Definition sent1 : Queues := after_moves first_sent.

Definition sent2 : Queues := after_from sent1 second_sent.

Definition acked1 : Queues := after_from sent2 first_acked.

Lemma history_sent1 : history idle (moments first_sent idle) sent1.
Proof. apply played_from. vm_compute. reflexivity. Qed.

Lemma history_sent2 : history sent1 (moments second_sent sent1) sent2.
Proof. apply played_from. vm_compute. reflexivity. Qed.

Lemma history_acked1 : history sent2 (moments first_acked sent2) acked1.
Proof. apply played_from. vm_compute. reflexivity. Qed.

(** ** Calls in each other's way *)

(** A message is read and acked between its commit and the addition of its bytes to
    the total: the subtraction finds nothing, and the total stays too high. *)
Definition acked_early : list (Move QCall * io) :=
  (Called 1 (Enqueue "mbx_a" demo_env), calm) :: replicate 5 (op 1)
  ++ all_of 2 (Ack "mbx_a" [1%nat]) 5 ++ replicate 3 (op 1).

Example early_ack_leaves_bytes :
  let w := after_moves acked_early in
  isSome (play acked_early idle) = true
  ∧ (λ p : QPoint, match p with Replied _ (Counted (inr n)) => Some n | _ => None end) <$> under_way w !! 2%nat = Some (Some 1)
  ∧ size (entries (shared w)) = 0%nat ∧ total_bytes (shared w) = 2 ∧ index_entry "mbx_a" (shared w) = (1, 2).
Proof. cbv zeta. split_and!; vm_compute; reflexivity. Qed.

End Stories.

(** ** A full mailbox *)

Fixpoint bits (p : positive) : string :=
  match p with
  | xH => EmptyString
  | xO p => String "0" (bits p)
  | xI p => String "1" (bits p)
  end.

Fixpoint of_bits (s : string) : option positive :=
  match s with
  | EmptyString => Some xH
  | String "0" s => xO <$> of_bits s
  | String "1" s => xI <$> of_bits s
  | _ => None
  end.

#[refine] Definition bits_uuid : UuidLib := {|
  Uuid := positive;
  uuid_string := bits;
  uuid_parse := of_bits;
|}.
Proof.
  - induction u as [u IH|u IH|]; simpl; [by rewrite IH..|done].
  - by induction u.
Defined.

Section Full.
#[local] Existing Instances gmap_redb bits_uuid demo_serde.

Definition message (n : positive) : StoredEnvelope :=
  {| env_id := n; env_to := "mbx_a"; envelope_type := "msg"; ciphertext := "c" |}.

(** A mailbox with 500 messages. *)
Definition filled : QueueStore :=
  foldl (λ st n, (enqueue "mbx_a" (message n) st calm).1.2)
    {| db := tbl_empty; total_bytes := 0; next_seq := 1; index := ∅ |} (Pos.of_nat <$> seq 1 500).

(** Two enqueues read it before either writes. *)
Definition both (n m : positive) : list (Move QCall * io) :=
  [(Called 1 (Enqueue "mbx_a" (message n)), calm); (Called 2 (Enqueue "mbx_a" (message m)), calm)]
  ++ replicate 3 (Ran 1, calm) ++ replicate 3 (Ran 2, calm) ++ replicate 7 (Ran 1, calm) ++ replicate 7 (Ran 2, calm).

(** What the index, the total and the disk say. *)
Definition tallies (w : Queues) : (Z * Z) * Z * nat :=
  (index_entry "mbx_a" (shared w), total_bytes (shared w), size (entries (shared w))).

(** Both drop the same message and both subtract it: the mailbox is one over its cap
    and the total one short. When two more do it again, the index is three short, and
    the next three messages will be let in without a look at the disk. *)
Example two_enqueues_evict_the_same :
  let w := after_from (idle_queues filled) (both 501 502) in
  let again := idle_queues (shared w) in
  (isSome (play (both 501 502) (idle_queues filled)), tallies w) = (true, ((500, 500), 500, 501%nat))
  ∧ (isSome (play (both 503 504) again), tallies (after_from again (both 503 504))) = (true, ((498, 498), 498, 501%nat)).
Proof. cbv zeta. split; vm_compute; reflexivity. Qed.
End Full.
