(* ===== verification/QueueThreadsProps.v ===== *)
(** What the queue store guarantees when any number of its calls interleave. *)
From Stdlib Require Import ZArith Lia Ascii String.
From stdpp Require Import base gmap strings list.
From S2P Require Import Prelude Redb RustStd Config Util Protocol QueueStore QueueFacts QueueProps Calls QueueThreads.
From S2P Require Import QueueThreadsRuns QueueThreadsFacts QueueThreadsWhy QueueThreadsDemo.

Section Props.
Context {RD : Redb} {UL : UuidLib} {SV : Serde StoredValue}.
Implicit Types (st : QueueStore) (w : Queues) (mb : string) (tr : list QueueMoment) (env : StoredEnvelope).

(** C18. However the calls of the queue store interleave, every key on disk is a mailbox and a
    message id, every value reads back, and sequence numbers are below the counter and belong to
    one message each, on disk or on its way there with a call; one call at most is inside a
    write transaction. *)
Theorem queue_calls_keep_the_table st tr w :
  Inv st → history (idle_queues st) tr w →
  let s := shared w in
  (∀ k b, tbl_get (db s) k = Some b → ∃ v mb id, from_slice b = Some v ∧ k = key_for mb id ∧ no_char ":" mb
     ∧ 0 ≤ sv_s v < next_seq s)
  ∧ (∀ k1 k2 v1 v2, entries s !! k1 = Some v1 → entries s !! k2 = Some v2 → sv_s v1 = sv_s v2 → k1 = k2)
  ∧ (∀ who p x, under_way w !! who = Some p → pending p = Some x →
       0 ≤ number_of x < next_seq s ∧ (∀ k v, entries s !! k = Some v → sv_s v ≠ number_of x)
       ∧ ∀ who' p' x', under_way w !! who' = Some p' → pending p' = Some x' → number_of x = number_of x' → who = who')
  ∧ (∀ who who' p p', under_way w !! who = Some p → under_way w !! who' = Some p' →
       writes p = true → writes p' = true → who = who').
Proof.
  intros HI Hh s. pose proof (Sound_qlater _ _ _ (Sound_qidle _ (Kept_Inv _ HI)) Hh) as HS.
  pose proof HS as [HK _ HA HN HL]. fold s in HK, HA. split_and!; [|apply HK| |exact HL].
  - intros k b Hb. destruct (kp_decodes _ HK _ _ Hb) as [v Hv].
    assert (entries s !! k = Some v) as Hk by (unfold entries; by rewrite decoded_lookup, Hb).
    destruct (wf_keys _ (kp_wf _ HK) _ _ Hk) as (mb & id & -> & Hmb). exists v, mb, id.
    split_and!; [done..|apply (kp_seq _ HK _ _ Hk)|apply (kp_seq _ HK _ _ Hk)].
  - intros who p x Hp Hx. destruct (HA _ _ _ Hp Hx) as [Hr Hd]. split_and!; [lia|lia|done|].
    intros who' p' x' Hp' Hx' E. by eapply HN.
Qed.

(** C19. However the calls of the queue store interleave, an enqueue is answered only after its
    envelope was on disk under its id, and a flush answers the whole queue of its mailbox as it
    stood at one moment, in the order of the sequence numbers. *)
Theorem queue_replies_are_true st tr w who mb :
  Inv st → history (idle_queues st) tr w →
  (∀ env n, under_way w !! who = Some (Replied (Enqueue mb env) (Counted (inr n))) →
     asked tr (Enqueue mb env) ∧ ∃ v, sometime tr w (λ s, on_record s mb env v))
  ∧ (∀ l, under_way w !! who = Some (Replied (Flush mb) (Flushed (inr l))) →
       sometime tr w (λ s, l = to_envelope mb <$> queue_of mb (entries s))).
Proof.
  intros HI Hh. pose proof (all_known _ _ _ (Sound_qidle _ (Kept_Inv _ HI)) Hh) as Hk. split.
  - intros env n Hp. specialize (Hk who _ (lookup_empty _) Hp). split; [apply (kn_asked _ _ _ _ Hk)|].
    destruct (kn_accepted _ _ _ _ Hk mb env eq_refl) as (v & Hv & _). eauto.
  - intros l Hp. specialize (Hk who _ (lookup_empty _) Hp). by apply (kn_flushed _ _ _ _ Hk).
Qed.

(** C17. An enqueue that is called after another one was answered gets a greater sequence
    number: whatever runs beside them, at every moment at which both messages are on disk in the
    same mailbox the earlier one stands before the later one, in what a flush returns. *)
Theorem enqueues_keep_their_order st tr1 w1 tr2 w2 mb env1 env2 who1 who2 n1 n2 :
  Inv st → no_char ":" mb → history (idle_queues st) tr1 w1 → history w1 tr2 w2 →
  under_way w1 !! who1 = Some (Replied (Enqueue mb env1) (Counted (inr n1))) → under_way w1 !! who2 = None →
  under_way w2 !! who2 = Some (Replied (Enqueue mb env2) (Counted (inr n2))) →
  ∃ v1 v2, sometime tr1 w1 (λ s, on_record s mb env1 v1) ∧ sometime tr2 w2 (λ s, on_record s mb env2 v2)
  ∧ sv_s v1 < sv_s v2
  ∧ ∀ tr w, history (idle_queues st) tr w → on_record (shared w) mb env1 v1 → on_record (shared w) mb env2 v2 →
      ∃ l1 l2 l3, queue_of mb (entries (shared w)) = l1 ++ (env_id env1, v1) :: l2 ++ (env_id env2, v2) :: l3.
Proof.
  intros HI Hmb H1 H2 Hp1 Hn Hp2. pose proof (Sound_qidle _ (Kept_Inv _ HI)) as HS. pose proof (Sound_qlater _ _ _ HS H1) as HS1.
  destruct (kn_accepted _ _ _ _ (all_known _ _ _ HS H1 who1 _ (lookup_empty _) Hp1) mb env1 eq_refl) as (v1 & Hv1 & Hs1).
  destruct (kn_accepted _ _ _ _ (all_known _ _ _ HS1 H2 who2 _ Hn Hp2) mb env2 eq_refl) as (v2 & Hv2 & Hs2).
  exists v1, v2. split_and!; [done|done|lia|]. intros tr w Hh [He1 _] [He2 _].
  apply queue_before; [apply (Sound_qlater _ _ _ HS Hh)|done|done|done|lia].
Qed.

(** C16. However the calls of the queue store interleave, a message that was on disk at some
    moment still is, or an ack named it, or its mailbox was purged, or a sweep read the clock
    more than the time to live after it was queued, or an enqueue of its mailbox read the
    mailbox when it was among the oldest that had to make room, or another message with its id
    has taken its place. *)
Theorem queued_messages_leave_for_a_reason st tr w mb id v :
  Inv st → history (idle_queues st) tr w → no_char ":" mb →
  sometime tr w (λ s, entries s !! key_for mb id = Some v) →
  entries (shared w) !! key_for mb id = Some v ∨ reason tr w mb id v.
Proof. intros HI Hh Hmb. by apply (gone_for_a_reason _ _ _ _ _ _ (Sound_qidle _ (Kept_Inv _ HI)) eq_refl Hh). Qed.

(** C21. The calls of the queue store end under every schedule: there is no infinite sequence of
    operations without new calls, and as long as a call is under way some call can go on,
    whatever foreign calls fail. *)
Theorem queue_calls_end w :
  Acc (λ w2 w1, goes_on w1 w2) w
  ∧ (under_way w ≠ ∅ → ∃ who, ready w (Ran who) ∧ ∀ i, ∃ w' i', run_move (Ran who) w i = (inr tt, w', i')).
Proof.
  split; [apply goes_on_ends|]. intros Hne. destruct (some_ready _ Hne) as [who Hr].
  exists who. split; [done|]. intros i. apply move_total.
Qed.

(** C20. A call of the queue store that nothing interrupts answers, operation by operation, what
    the method answers in one go, and leaves the same store and the same script, for every
    method, state and sequence of failures. *)
Theorem queue_calls_alone_are_methods (c : QCall) st i :
  ∃ n a st' i', queue_method c st i = (inr a, st', i')
    ∧ alone n (entry_point c) st i = (inr (Replied c a), st', i').
Proof.
  destruct (queue_method c st i) as [[[[]|a] st'] i'] eqn:Hm.
  destruct (alone_queue_call _ _ _ _ _ _ Hm) as [n Hn]. by exists n, a, st', i'.
Qed.
End Props.

(** ** Witnesses *)

Section Witnesses.
#[local] Existing Instances gmap_redb unary_uuid demo_serde.

Lemma history_to_sent2 : history idle (moments first_sent idle ++ moments second_sent sent1) sent2.
Proof. eapply history_trans; [apply history_sent1|apply history_sent2]. Qed.

Lemma history_to_acked1 :
  history idle ((moments first_sent idle ++ moments second_sent sent1) ++ moments first_acked sent2) acked1.
Proof. eapply history_trans; [apply history_to_sent2|apply history_acked1]. Qed.

Lemma queue_calls_keep_the_table_witness :
  next_seq (shared sent2) = 3 ∧ size (entries (shared sent2)) = 2%nat
  ∧ ∀ k1 k2 v1 v2, entries (shared sent2) !! k1 = Some v1 → entries (shared sent2) !! k2 = Some v2 → sv_s v1 = sv_s v2 → k1 = k2.
Proof.
  split; [vm_compute; reflexivity|]. split; [vm_compute; reflexivity|].
  exact (proj1 (proj2 (queue_calls_keep_the_table empty_queues _ _ Inv_empty_queues history_to_sent2))).
Defined.

(** The flush runs after both enqueues. *)
Lemma queue_replies_are_true_witness :
  stands 3 sent2 = Replied (Flush "mbx_a") (Flushed (inr [demo_env; demo_env2]))
  ∧ sometime (moments first_sent idle ++ moments second_sent sent1) sent2
      (λ s, [demo_env; demo_env2] = to_envelope "mbx_a" <$> queue_of "mbx_a" (entries s)).
Proof.
  assert (stands 3 sent2 = Replied (Flush "mbx_a") (Flushed (inr [demo_env; demo_env2]))) as Hp
    by (vm_cast_no_check (eq_refl (stands 3 sent2))).
  split; [exact Hp|].
  apply (proj2 (queue_replies_are_true empty_queues _ _ 3%nat "mbx_a" Inv_empty_queues history_to_sent2)).
  rewrite <- Hp. apply stands_so. vm_compute. reflexivity.
Defined.

Lemma enqueues_keep_their_order_witness :
  ∃ v1 v2, sometime (moments first_sent idle) sent1 (λ s, on_record s "mbx_a" demo_env v1)
  ∧ sometime (moments second_sent sent1) sent2 (λ s, on_record s "mbx_a" demo_env2 v2) ∧ sv_s v1 < sv_s v2.
Proof.
  assert (stands 1 sent1 = Replied (Enqueue "mbx_a" demo_env) (Counted (inr 0))) as H1
    by (vm_cast_no_check (eq_refl (stands 1 sent1))).
  assert (stands 2 sent2 = Replied (Enqueue "mbx_a" demo_env2) (Counted (inr 0))) as H2
    by (vm_cast_no_check (eq_refl (stands 2 sent2))).
  destruct (enqueues_keep_their_order empty_queues (moments first_sent idle) sent1 (moments second_sent sent1) sent2
    "mbx_a" demo_env demo_env2 1 2 0 0 Inv_empty_queues) as (v1 & v2 & Hv1 & Hv2 & Hlt & _).
  - vm_compute. reflexivity.
  - apply history_sent1.
  - apply history_sent2.
  - rewrite <- H1. apply stands_so. vm_compute. reflexivity.
  - vm_cast_no_check (eq_refl (under_way sent1 !! 2%nat)).
  - rewrite <- H2. apply stands_so. vm_compute. reflexivity.
  - exists v1, v2. split; [exact Hv1|]. split; [exact Hv2|exact Hlt].
Defined.

Definition first_stored : StoredValue := {| sv_t := "msg"; sv_c := "c1"; sv_q := 0; sv_s := 1 |}.

(** The first message was on disk and is not any more. *)
Lemma queued_messages_leave_for_a_reason_witness :
  entries (shared acked1) !! key_for "mbx_a" (env_id demo_env) = None
  ∧ reason ((moments first_sent idle ++ moments second_sent sent1) ++ moments first_acked sent2) acked1 "mbx_a" (env_id demo_env) first_stored.
Proof.
  assert (entries (shared acked1) !! key_for "mbx_a" (env_id demo_env) = None) as Hgone
    by (vm_cast_no_check (eq_refl (entries (shared acked1) !! key_for "mbx_a" (env_id demo_env)))).
  split; [exact Hgone|].
  destruct (queued_messages_leave_for_a_reason empty_queues _ _ "mbx_a" (env_id demo_env) first_stored Inv_empty_queues history_to_acked1) as [H|H].
  - vm_compute. reflexivity.
  - right. apply Exists_app. right. apply Exists_cons. left.
    vm_cast_no_check (eq_refl (entries (shared sent2) !! key_for "mbx_a" (env_id demo_env))).
  - rewrite Hgone in H. discriminate H.
  - exact H.
Defined.

Lemma queue_calls_end_witness : under_way sent1 ≠ ∅ ∧ ∃ who, ready sent1 (Ran who).
Proof.
  assert (under_way sent1 ≠ ∅) as Hne by (intros H%(f_equal size); vm_compute in H; discriminate).
  split; [exact Hne|]. destruct (proj2 (queue_calls_end sent1) Hne) as (who & Hr & _). exact (ex_intro _ who Hr).
Defined.
End Witnesses.
